(* ===== verification/_CoqProject ===== *)
-Q . S2P
Prelude.v
Threads.v
CopyLoop.v
TermMonitor.v
GoIO.v
Strconv.v
NetAddr.v
Urls.v
Base64.v
Config.v
Obfs.v
ObfsClient.v
Encapsulation.v
EncapConn.v
Websocket.v
WsConn.v
ClientMap.v
QueueConn.v
WsHandler.v
Redial.v
Carrier.v
SfLink.v
SfJoint.v
Sessions.v
DpiCommon.v
DpiServer.v
DpiClient.v
DpiTunnel.v
DpiJoint.v
DpiPump.v
Socks5.v
Socks4.v
Stream.v
Dns.v
HttpConnect.v
DpiDial.v
Serve.v
Launch.v
Main.v
Helpers.v
