(* ===== verification/Prelude.v ===== *)
(** * PTBridge: a verification development

    PTBridge (Go) hides a TCP proxy in other traffic.  One process runs the entries of a
    configuration file, each a client or a server of one of three transports:

    - dpi: a SOCKS5 or HTTP CONNECT client whose connections travel as HTTP requests
      and an HTTP download stream, encrypted with AES-GCM, to a server that dials the
      destinations;
    - snowflake: a SOCKS5 client whose connections are smux streams over KCP over
      packets that are carried in WebSockets, redialed when they fail;
    - obfs2-4: the pluggable transports of the obfs4 library between two copy loops.

    ** Method

    The code is embedded shallowly: Go functions are Rocq functions on [res] (a value,
    an error or a panic) or on the state monad [io] of this file; integers are [Z] with
    the width of the Go type written out; byte slices and strings are lists of bytes.
    A byte stream (GoIO) comes in arbitrary segments, and a theorem about what is read
    holds for all of them.  Code that runs on several goroutines is a machine of atomic
    actions: channel operations, critical sections and calls of the outside are single
    actions, what Go or the outside leaves open is an argument of the action, and the
    theorems hold for all interleavings (Threads; QueueConn, DpiServer and DpiTunnel
    have machines of their own).  Libraries that are not part of the repository are type
    classes with their documented behaviour (AEAD, WSConn, DnsLib, Ntor, ObfsLib, HttpLib,
    Json), each with a concrete instance in a witness.  Tunnel is the interface between
    the dpi transport and its clients: Dns and HttpConnect use it, DpiDial implements it.

    ** Files (sources are below src/)

    - Prelude: this header; bytes, integers, errors, slices, lists, tactics and hints.
    - Threads: goroutines as interleaved actions, schedules, tokens, pool invariants,
      accounts of what goroutines hold.
    - CopyLoop: copyLoop of obfs/client/client.go and obfs/server/server.go, CopyLoop of
      snowflake/common/standalone/stream.go.
    - TermMonitor: common/termon/termmon.go and provider.go.
    - GoIO: io.Reader, io.ReadFull, io.CopyN, io.Writer, bufio.Writer.
    - Strconv, NetAddr, Base64: the parts of strconv, strings, net and encoding/base64
      that are used, transcribed from the standard library.
    - Urls: common/urls/urls.go and net.SplitHostPort.
    - Config: the records of common/configuration/config.go.
    - ObfsClient: obfs/client/client.go (Setup and the connection handler).
    - Obfs: obfs/server/server.go (identity, Setup) and ensureServerCerts of
      main/ptbridge.go.
    - Encapsulation, EncapConn: snowflake/common/encapsulation and standalone/encap.go.
    - Websocket: the loops of snowflake/common/websocketconn as functions of what they
      read.  WsConn: the same loops as goroutines, with the callers of Read, Write and
      Close, over io.Pipe.
    - ClientMap, QueueConn, Redial: snowflake/common/turbotunnel.
    - Carrier: the preamble and the packet loops of standalone/session.go and handler.go
      as functions of the bytes they read.
    - WsHandler: serveHTTP of standalone/handler.go for all connections at once, with the
      goroutines of each, on the machine of QueueConn.
    - SfLink, SfJoint: the machines of Redial and of WsHandler side by side, over
      WebSockets that split, delay and break; SfLink has the invariant of one direction.
    - Sessions: the session table of standalone/handler.go.
    - DpiCommon, DpiServer, DpiClient, DpiTunnel: dpi/common, dpi/server,
      dpi/client/transport.go, and tunnelConn of dpi/client/proxy.go.  DpiJoint: the
      machines of tunnelConn and of the server side by side, over a network that splits,
      delays and fails.
    - DpiPump: dpi/client/tunnel_conn.go.
    - DpiDial: the transport as the tunnel that Dns and HttpConnect use.
    - Socks5, Stream: snowflake/common/socks5 and standalone/stream.go, session.go,
      client.go.
    - Socks4: proxy/socks4a/socks4.go.
    - Dns: dpi/client/dns_resolver.go.
    - HttpConnect: handleHTTPProxy of dpi/client/proxy.go, proxy/http/http.go,
      dialHTTPProxy of standalone/proxy.go.
    - Serve: the accept loops of all packages, serverHandler of obfs/server/server.go, the
      SOCKS exit of main/snowflake.go, ProxyDialer and WebSocketDialer of
      standalone/proxy.go, NewClientSession of standalone/session.go, the server name of
      dpi/client/utls_dial.go.
    - Launch: main/ptbridge.go, main/dpi.go, main/snowflake.go, Run and the TLS settings
      of dpi/server/server.go, the dialing of dpi/client/transport.go.
    - Main: main of main/ptbridge.go from the flags to the launches, Load and Save of
      common/configuration/config.go.
    - Helpers: common/ini/loader.go, randomFilename of dpi/server/server.go.

    ** What the theorems show

    - The dpi tunnel end to end: in DpiJoint what the application writes reaches the
      remote, and what the remote sends reaches the application, in order and at every
      moment of every interleaving of both programs, other clients and network failures;
      DpiClient has the single requests, DpiDial that a DNS exchange closes what it opens, and the pieces are the order and safety theorems
      of DpiServer and DpiTunnel and the wire format of DpiCommon.
    - The snowflake carrier end to end: in SfJoint the packets that come out at either end
      went in at the other, for the same client, unaltered and not more often, at every
      moment of every interleaving and across broken and redialed WebSockets, and a packet
      on an intact one does come out; Carrier has the loops of one connection on a whole
      stream of bytes, composing the chunk framing, the WebSocket connection and the queues.
      The handlers of the server (WsHandler), the packet connections and the session table
      are safe over all interleavings (QueueConn, Redial, Sessions); a WebSocket connection
      is a byte stream both ways and its Close releases everyone (WsConn); ClientMap refines
      an abstract map.
    - The proxies: SOCKS5 and SOCKS4 handshakes, stream heads, HTTP CONNECT, DNS over the
      tunnel and its cache.
    - Bridges: the copy loops and the pumps of TunnelConn keep both streams; the copy loops
      return without the help of the peers.
    - Start-up: identities survive restarts, through the file on disk too; every entry is
      launched as configured; the dpi client dials only its front address, and with an
      upstream proxy nothing is dialed past it.
    - Shutdown: when listeners are closed, what the monitor waits for and why it returns.
    - Defects, each as a theorem about reachable states or concrete inputs: lost dpi
      connections, wedged tunnel connections, goroutines and packets lost by a redial at
      the client and by a lost connection at the server, a forgotten smux session, the answer to a half-closed connection, what the HTTP
      dialers drop, listeners and tunnel connections left open after a failure, a
      process that outlives its first SIGINT, and the two panics of the dpi wire format.

    ** Fuel

    Loops of the code that are not structural run on fuel computed from their input: the
    number of segments for io.ReadFull, of bytes for copying, discarding, padding and
    decoding loops, of bytes and segments for the reading of lines, 20 digits for a
    64-bit integer.  The lemma about each loop gives its result under the fuel its caller
    passes, so that the fuel is enough.  The loop that
    draws a free port ends only if a free port is drawn; its theorem has the outcome as
    a hypothesis.

    ** Not modelled

    KCP, smux, the obfs4 handshake, TLS, net/http's parsing, net/url and encoding/json
    (libraries); time, except as an argument; the text of most error messages; logging.
    Of the repository itself: the generation of self-signed certificates
    (dpi/server/certs.go), which fills a template for crypto/x509; common/ptlog, the
    version text and the prctl hook of common/termon/termmon_linux.go; ManagedByTor, which
    reads an environment variable; proxy/socks5/proxy.go and serveSOCKS of
    dpi/client/proxy.go, which start a library server; methods that return constants
    (addresses and deadlines of the connections).  The random source of randomFilename is
    a byte stream; the header it is used in is not part of the download model.  The joint
    machine of DpiJoint follows one connection and one download of it: a second download
    of the same connection would split its chunks, as DpiServer's theorems describe.  The
    joint machine of SfJoint follows one client, whose identifier no other client announces
    (they are eight random bytes); that an end has closed a WebSocket does not oblige the
    other end to notice, so that it has all runs of the code and more.  QueueConn, DpiServer
    and DpiTunnel have step relations of their own, older than Threads and of the same form. *)
From Stdlib Require Export ZArith Lia.
From Stdlib Require Import Strings.Byte.
From stdpp Require Export base tactics option list gmap strings countable numbers.
Export String.StringSyntax.

Declare Scope go_scope.
Delimit Scope go_scope with go.

(** ** Bytes *)

(** A Go [byte]; [[]byte] and [string] are both sequences of them. *)
Abbreviation byte := Byte.byte.
Abbreviation bytes := (list Byte.byte).

(** A Go string literal as its bytes. *)
Definition s2b (s : string) : bytes := String.list_byte_of_string s.
Arguments s2b s%_string.

#[export] Instance byte_eq_dec : EqDecision byte := Byte.byte_eq_dec.
#[export] Program Instance byte_countable : Countable byte :=
  inj_countable Byte.to_N Byte.of_N _.
Next Obligation. intros b. apply Byte.of_to_N. Qed.
#[export] Instance byte_inhabited : Inhabited byte := populate Byte.x00.

(** The value of a byte, and Go's truncating conversion [byte(z)]. *)
Definition bval (b : byte) : Z := Z.of_N (Byte.to_N b).
Definition to_byte (z : Z) : byte :=
  default Byte.x00 (Byte.of_N (Z.to_N (z mod 256))).

Lemma bval_range b : (0 <= bval b < 256)%Z.
Proof. unfold bval. pose proof (Byte.to_N_bounded b). lia. Qed.

Lemma bval_inj b1 b2 : bval b1 = bval b2 -> b1 = b2.
Proof.
  unfold bval. intros H%N2Z.inj.
  assert (E : Byte.of_N (Byte.to_N b1) = Byte.of_N (Byte.to_N b2)) by congruence.
  rewrite !Byte.of_to_N in E. congruence.
Qed.

Lemma bval_to_byte z : bval (to_byte z) = (z mod 256)%Z.
Proof.
  unfold bval, to_byte.
  pose proof (Z.mod_pos_bound z 256 ltac:(lia)) as Hb.
  destruct (Byte.of_N (Z.to_N (z mod 256))) as [b|] eqn:E; simpl.
  - apply Byte.to_of_N in E. rewrite E. lia.
  - apply Byte.of_N_None_iff in E. lia.
Qed.

Lemma to_byte_bval b : to_byte (bval b) = b.
Proof.
  apply bval_inj. rewrite bval_to_byte. pose proof (bval_range b).
  by apply Z.mod_small.
Qed.

(** A property of one byte checked on all 256 values. *)
Ltac byte_cases b := destruct b; vm_compute; try done.

(** [lia] on goals with division and modulo by constants. *)
Ltac mlia := Z.div_mod_to_equations; lia.

(** The range of every byte in the context. *)
Ltac bval_bounds :=
  repeat match goal with
  | b : Byte.byte |- _ =>
      lazymatch goal with
      | _ : (0 <= bval b < 256)%Z |- _ => fail
      | |- _ => pose proof (bval_range b)
      end
  end.

(** Case analysis on the integer comparisons of the goal. *)
Ltac zcases :=
  repeat match goal with
  | |- context [(?a <? ?b)%Z] => destruct (Z.ltb_spec a b)
  | |- context [(?a <=? ?b)%Z] => destruct (Z.leb_spec a b)
  | |- context [(?a =? ?b)%Z] => destruct (Z.eqb_spec a b)
  end.

(** ** Machine integers

    [int] is 64 bits wide; unsigned conversions wrap. *)
Definition u16 (z : Z) : Z := (z mod 2 ^ 16)%Z.
Definition u32 (z : Z) : Z := (z mod 2 ^ 32)%Z.
Definition max_int64 : Z := (2 ^ 63 - 1)%Z.
Definition min_int64 : Z := (- 2 ^ 63)%Z.

(** [time.Time.Sub] and other saturating operations clamp to an [int64]. *)
Definition sat64 (z : Z) : Z := Z.max min_int64 (Z.min max_int64 z).

(** The length of a slice as a Go [int]. *)
Definition len {A} (l : list A) : Z := Z.of_nat (length l).

Lemma len_nil {A} : len (@nil A) = 0%Z.
Proof. done. Qed.
Lemma len_cons {A} (x : A) l : len (x :: l) = (1 + len l)%Z.
Proof. unfold len. simpl. lia. Qed.
Lemma len_app {A} (l k : list A) : len (l ++ k) = (len l + len k)%Z.
Proof. unfold len. rewrite length_app. lia. Qed.
Lemma len_nonneg {A} (l : list A) : (0 <= len l)%Z.
Proof. unfold len. lia. Qed.

(** Lengths and bytes by computation rules: [autorewrite with go], [auto with go]. *)
Create HintDb go.
#[export] Hint Resolve bval_range len_nonneg : go.
#[export] Hint Rewrite @len_nil @len_cons @len_app bval_to_byte to_byte_bval : go.

(** ** Bit operations as arithmetic *)

Lemma land_ones_mod z k : (0 <= k)%Z -> Z.land z (2 ^ k - 1) = (z mod 2 ^ k)%Z.
Proof. intros Hk. rewrite <- Z.land_ones by done. by rewrite Z.ones_equiv. Qed.

Lemma lor_shiftl_add a b k :
  (0 <= k)%Z -> (0 <= b < 2 ^ k)%Z -> Z.lor (Z.shiftl a k) b = (a * 2 ^ k + b)%Z.
Proof.
  intros Hk Hb.
  assert (E : Z.land (Z.shiftl a k) b = 0%Z).
  { apply Z.bits_inj'. intros n Hn. rewrite Z.land_spec, Z.bits_0.
    destruct (decide (n < k)%Z).
    - by rewrite Z.shiftl_spec_low.
    - assert (T : Z.testbit (b mod 2 ^ k) n = false) by (apply Z.mod_pow2_bits_high; lia).
      rewrite Z.mod_small in T by lia. by rewrite T, andb_false_r. }
  pose proof (Z.add_lor_land (Z.shiftl a k) b) as H.
  rewrite <- (Z.shiftl_mul_pow2 a k) by lia. lia.
Qed.

(** ** Big-endian integers ([encoding/binary].BigEndian) *)

(** [PutUint16], [PutUint32]: the low [8 * n] bits, most significant byte first. *)
Fixpoint be_put (n : nat) (z : Z) : bytes :=
  match n with
  | O => []
  | S n' => to_byte (Z.shiftr z (8 * Z.of_nat n')) :: be_put n' z
  end.

(** [Uint16], [Uint32]. *)
Definition be_get (bs : bytes) : Z :=
  foldl (fun acc b => Z.lor (Z.shiftl acc 8) (bval b)) 0%Z bs.

Lemma length_be_put n z : length (be_put n z) = n.
Proof. induction n; simpl; congruence. Qed.

#[export] Hint Rewrite length_be_put : go.

Lemma be_get_foldl acc bs :
  foldl (fun acc b => Z.lor (Z.shiftl acc 8) (bval b)) acc bs
  = (acc * 2 ^ (8 * len bs) + be_get bs)%Z.
Proof.
  revert acc. induction bs as [|b bs IH]; intros acc.
  { unfold be_get, len. simpl. lia. }
  unfold be_get. cbn [foldl]. rewrite !IH, len_cons.
  pose proof (bval_range b). pose proof (len_nonneg bs).
  rewrite !lor_shiftl_add by lia.
  replace (8 * (1 + len bs))%Z with (8 + 8 * len bs)%Z by lia.
  rewrite Z.pow_add_r by lia. lia.
Qed.

Lemma be_get_cons b bs : be_get (b :: bs) = (bval b * 2 ^ (8 * len bs) + be_get bs)%Z.
Proof.
  unfold be_get at 1. cbn [foldl]. rewrite be_get_foldl.
  by rewrite lor_shiftl_add by (pose proof (bval_range b); lia).
Qed.

Lemma be_get_range bs : (0 <= be_get bs < 2 ^ (8 * len bs))%Z.
Proof.
  induction bs as [|b bs IH]; [done|].
  rewrite be_get_cons, len_cons. pose proof (bval_range b). pose proof (len_nonneg bs).
  replace (8 * (1 + len bs))%Z with (8 + 8 * len bs)%Z by lia.
  rewrite Z.pow_add_r by lia. nia.
Qed.

Lemma mod_pow2_succ z (n : nat) :
  (z mod 2 ^ (8 * Z.of_nat (S n))
   = z mod 2 ^ (8 * Z.of_nat n) + 2 ^ (8 * Z.of_nat n) * (Z.shiftr z (8 * Z.of_nat n) mod 256))%Z.
Proof.
  assert (0 < 2 ^ (8 * Z.of_nat n))%Z by (apply Z.pow_pos_nonneg; lia).
  replace (8 * Z.of_nat (S n))%Z with (8 * Z.of_nat n + 8)%Z by lia.
  rewrite Z.pow_add_r, Z.rem_mul_r, Z.shiftr_div_pow2 by lia. done.
Qed.

Lemma be_get_put n z : be_get (be_put n z) = (z mod 2 ^ (8 * Z.of_nat n))%Z.
Proof.
  induction n as [|n IH]; [by rewrite Z.mod_1_r|].
  cbn [be_put]. rewrite be_get_cons, bval_to_byte, IH, mod_pow2_succ.
  unfold len. rewrite length_be_put. lia.
Qed.

Lemma be_get_inj bs1 bs2 :
  length bs1 = length bs2 -> be_get bs1 = be_get bs2 -> bs1 = bs2.
Proof.
  revert bs2. induction bs1 as [|b1 bs1 IH]; intros [|b2 bs2] Hl Hg; try done.
  simpl in Hl. injection Hl as Hl. rewrite !be_get_cons in Hg.
  pose proof (be_get_range bs1) as H1. pose proof (be_get_range bs2) as H2.
  pose proof (bval_range b1). pose proof (bval_range b2).
  unfold len in *. rewrite Hl in *.
  set (m := (2 ^ (8 * Z.of_nat (length bs2)))%Z) in *.
  assert (bval b1 = bval b2) by nia.
  f_equal; [by apply bval_inj|]. apply IH; [done|nia].
Qed.

Lemma be_put_get bs : be_put (length bs) (be_get bs) = bs.
Proof.
  apply be_get_inj; [apply length_be_put|].
  rewrite be_get_put. apply Z.mod_small, be_get_range.
Qed.

(** ** Errors and outcomes *)

(** The error values the program distinguishes. [ErrIO n] stands for whatever
    error an underlying connection reports, [ErrMsg] for [fmt.Errorf] texts. *)
Inductive error :=
  | EOF | ErrUnexpectedEOF | ErrShortWrite | ErrClosedPipe
  | ErrTooLong
  | ErrUnsupportedVersion | ErrUnsupportedCommand | ErrUnsupportedAddr
  | ErrInvalidCiphertext
  | ErrClosedPacketConn | ErrNotImplemented
  | ErrMsg (msg : string)
  | ErrIO (n : nat).

Arguments ErrMsg msg%_string.

#[export] Instance error_eq_dec : EqDecision error.
Proof. solve_decision. Defined.

(** How a Go call ends: normally, with a non-nil error, or by a panic. *)
Inductive res (A : Type) :=
  | Ret (a : A)
  | Err (e : error)
  | Panic (why : string).
Arguments Ret {A} a.
Arguments Err {A} e.
Arguments Panic {A} why%_string.

#[export] Instance res_ret : MRet res := fun A a => Ret a.
#[export] Instance res_bind : MBind res := fun A B f m =>
  match m with Ret a => f a | Err e => Err e | Panic w => Panic w end.

(** Code that threads a state [S] and may end early. *)
Definition io (S A : Type) : Type := S -> res A * S.

#[export] Instance io_ret {S} : MRet (io S) := fun A a s => (Ret a, s).
#[export] Instance io_bind {S} : MBind (io S) := fun A B f m s =>
  match m s with
  | (Ret a, s') => f a s'
  | (Err e, s') => (Err e, s')
  | (Panic w, s') => (Panic w, s')
  end.
Definition throw {S A} (e : error) : io S A := fun s => (Err e, s).
Definition crash {S A} (why : string) : io S A := fun s => (Panic why, s).
Arguments crash {S A} why%_string.

Lemma io_bind_ret {S A B} (m : io S A) (f : A -> io S B) s a s' :
  m s = (Ret a, s') -> (m ≫= f) s = f a s'.
Proof. intros E. unfold mbind, io_bind. by rewrite E. Qed.
Lemma io_bind_err {S A B} (m : io S A) (f : A -> io S B) s e s' :
  m s = (Err e, s') -> (m ≫= f) s = (Err e, s').
Proof. intros E. unfold mbind, io_bind. by rewrite E. Qed.
(** A sequence that succeeded: each of its steps did. *)
Lemma io_bind_inv {S A B} (m : io S A) (f : A -> io S B) s b s' :
  (m ≫= f) s = (Ret b, s') -> exists a s1, m s = (Ret a, s1) /\ f a s1 = (Ret b, s').
Proof.
  unfold mbind, io_bind. destruct (m s) as [[a|e|w] s1]; [|done..]. eauto.
Qed.

Lemma io_ret_eq {S A} (a : A) (s : S) : (mret a : io S A) s = (Ret a, s).
Proof. done. Qed.

(** ** Slices *)

(** [bs[lo:hi]] where the bounds are checked against the length of [bs]. *)
Definition slice (lo hi : Z) (bs : bytes) : res bytes :=
  if ((0 <=? lo) && (lo <=? hi) && (hi <=? len bs))%Z
  then Ret (take (Z.to_nat (hi - lo)) (drop (Z.to_nat lo) bs))
  else Panic "slice bounds out of range".

Lemma slice_app pre mid suf lo hi :
  lo = len pre -> hi = (len pre + len mid)%Z -> slice lo hi (pre ++ mid ++ suf) = Ret mid.
Proof.
  intros -> ->. unfold slice, len. rewrite !length_app.
  destruct (Z.leb_spec 0 (Z.of_nat (length pre))); [|lia].
  destruct (Z.leb_spec (Z.of_nat (length pre)) (Z.of_nat (length pre) + Z.of_nat (length mid))); [|lia].
  destruct (Z.leb_spec (Z.of_nat (length pre) + Z.of_nat (length mid))
    (Z.of_nat (length pre + (length mid + length suf)))); [cbn|lia].
  rewrite Z.add_simpl_l, !Nat2Z.id, drop_app_length. f_equal. by apply take_app_length'.
Qed.

Lemma slice_head mid suf hi : hi = len mid -> slice 0 hi (mid ++ suf) = Ret mid.
Proof. intros ->. by apply (slice_app []). Qed.

Lemma slice_ok lo hi bs :
  (0 <= lo <= hi)%Z -> (hi <= len bs)%Z ->
  exists pre mid suf, bs = pre ++ mid ++ suf /\ len pre = lo /\ len mid = (hi - lo)%Z /\
    slice lo hi bs = Ret mid.
Proof.
  intros H1 H2. unfold len in *.
  exists (take (Z.to_nat lo) bs), (take (Z.to_nat (hi - lo)) (drop (Z.to_nat lo) bs)),
    (drop (Z.to_nat (hi - lo)) (drop (Z.to_nat lo) bs)).
  rewrite !take_drop, !length_take, length_drop. unfold slice, len. zcases; try lia.
  split_and!; [done|lia|lia|done].
Qed.

Lemma slice_reversed lo hi bs : (hi < lo)%Z -> slice lo hi bs = Panic "slice bounds out of range".
Proof. intros H. unfold slice. zcases; try lia; by rewrite ?andb_false_r. Qed.

Lemma len_take_drop n (bs : bytes) :
  n <= length bs -> exists pre suf, bs = pre ++ suf /\ length pre = n.
Proof. intros H. exists (take n bs), (drop n bs). rewrite take_drop, length_take. split; [done|lia]. Qed.

(** ** Lists *)

Lemma omap_none {A B} (f : A -> option B) l : Forall (fun a => f a = None) l -> omap f l = [].
Proof. induction 1 as [|a l Ha _ IH]; [done|]. cbn. by rewrite Ha. Qed.

Lemma omap_ext {A B} (f g : A -> option B) (l : list A) : (forall a, f a = g a) -> omap f l = omap g l.
Proof. intros Hfg. induction l as [|a l IH]; [done|]. cbn. by rewrite Hfg, IH. Qed.

Lemma omap_omap {A B C} (f : A -> option B) (g : B -> option C) (l : list A) :
  omap g (omap f l) = omap (fun a => f a ≫= g) l.
Proof. induction l as [|a l IH]; [done|]. cbn. destruct (f a); cbn; by rewrite IH. Qed.

Lemma omap_sublist {A B} (f g : A -> option B) l :
  (forall a b, a ∈ l -> f a = Some b -> g a = Some b) -> omap f l `sublist_of` omap g l.
Proof.
  induction l as [|a l IH]; intros Hfg; [done|]. cbn.
  assert (Hl : omap f l `sublist_of` omap g l) by (apply IH; intros; apply Hfg; [by right|done]).
  destruct (f a) as [b|] eqn:Ef; [rewrite (Hfg a b); [|left|done]|destruct (g a)]; cbn; first [done|by constructor].
Qed.

Lemma prefix_drop {A} n (l1 l2 : list A) : l1 `prefix_of` l2 -> drop n l1 `prefix_of` drop n l2.
Proof. intros [k ->]. rewrite drop_app. by apply prefix_app_r. Qed.

(** The values of a list of pairs under a key.  A list of pairs is contained in another,
    with multiplicities, when that holds under every key. *)
Section AtKey.
Context {A B : Type} `{EqDecision A}.

Definition at_key (k : A) (l : list (A * B)) : list B :=
  omap (fun x => if decide (x.1 = k) then Some x.2 else None) l.

Lemma at_key_app k l1 l2 : at_key k (l1 ++ l2) = at_key k l1 ++ at_key k l2.
Proof. apply omap_app. Qed.

#[export] Instance at_key_perm k : Proper ((≡ₚ) ==> (≡ₚ)) (at_key k).
Proof. intros l1 l2 Hl. unfold at_key. by rewrite Hl. Qed.

Lemma at_key_submseteq k l1 l2 : l1 ⊆+ l2 -> at_key k l1 ⊆+ at_key k l2.
Proof. intros [l ->]%submseteq_Permutation. rewrite at_key_app. by apply submseteq_inserts_r. Qed.

Lemma submseteq_by_key (l1 l2 : list (A * B)) : (forall k, at_key k l1 ⊆+ at_key k l2) -> l1 ⊆+ l2.
Proof.
  revert l2. induction l1 as [|[k b] l1 IH]; intros l2 Hk; [apply submseteq_nil_l|].
  pose proof (Hk k) as H1. unfold at_key at 1 in H1. cbn in H1. rewrite decide_True in H1 by done.
  assert (Hin : b ∈ at_key k l2) by (eapply elem_of_submseteq; [left|exact H1]).
  apply list_elem_of_omap in Hin as ([k' b'] & Hin & Eb). cbn in Eb. case_decide; [|done]. injection Eb as ->. subst k'.
  apply elem_of_Permutation in Hin as [l2' Hl2]. rewrite Hl2. apply submseteq_skip, IH. intros k'.
  specialize (Hk k'). rewrite Hl2 in Hk. unfold at_key in Hk |- *. cbn in Hk. case_decide; [|done].
  by apply submseteq_cons_l in Hk as (? & Hp & ?); apply Permutation_cons_inv in Hp as ->.
Qed.
End AtKey.
