(* ===== verification/Threads.v ===== *)
(** * Goroutines as interleaved atomic actions

    A component whose methods run on several goroutines is a [Machine]: a shared state,
    the program points a goroutine can be at, and a function for one atomic action.
    The systems, runs and invariant principles below are shared by the components that
    start goroutines of their own. *)
From S2P Require Import Prelude.

(** [act x st t]: the new state, the continuation, the goroutines started and the
    events; [None] when [t] is blocked or finished.  [x] resolves what Go leaves open.
    [callable t]: [t] is the start of a call other goroutines may make at any time. *)
Class Machine (St Pc Ev Ch : Type) := {
  act : Ch -> St -> Pc -> option (St * Pc * list Pc * list Ev);
  callable : Pc -> bool }.

Record system (St Pc : Type) := System { shared : St; pool : list Pc }.
Arguments System {St Pc} _ _.
Arguments shared {St Pc} _.
Arguments pool {St Pc} _.

Section Threads.
Context {St Pc Ev Ch : Type} {M : Machine St Pc Ev Ch}.
Abbreviation sys := (system St Pc).

(** One action of the system. *)
Inductive move : sys -> list Ev -> sys -> Prop :=
  | move_call s t :
      callable t = true -> move s [] (System (shared s) (pool s ++ [t]))
  | move_act s i t x st' t' new evs :
      pool s !! i = Some t -> act x (shared s) t = Some (st', t', new, evs) ->
      move s evs (System st' (<[i := t']> (pool s) ++ new)).

Inductive moves (s0 : sys) : list Ev -> sys -> Prop :=
  | moves_refl : moves s0 [] s0
  | moves_more tr s evs s' : moves s0 tr s -> move s evs s' -> moves s0 (tr ++ evs) s'.

(** A schedule as a program. *)
Inductive turn := Enter (t : Pc) | Turn (i : nat) (x : Ch).

Fixpoint play (l : list turn) (s : sys) : option (list Ev * sys) :=
  match l with
  | [] => Some ([], s)
  | Enter t :: l' => if callable t then play l' (System (shared s) (pool s ++ [t])) else None
  | Turn i x :: l' =>
      t ← pool s !! i;
      '(st', t', new, evs) ← act x (shared s) t;
      '(tr, s') ← play l' (System st' (<[i := t']> (pool s) ++ new));
      Some (evs ++ tr, s')
  end.

Lemma moves_trans s1 tr1 s2 tr2 s3 : moves s1 tr1 s2 -> moves s2 tr2 s3 -> moves s1 (tr1 ++ tr2) s3.
Proof.
  intros H1. induction 1 as [|tr s evs s' _ IH Hs]; [by rewrite app_nil_r|].
  rewrite app_assoc. by econstructor.
Qed.

Lemma moves_one s evs s' : move s evs s' -> moves s evs s'.
Proof. intros H. by apply (moves_more s [] s evs s'); [constructor|]. Qed.

(** A goroutine acts and starts no other. *)
Lemma move_self s i t x st' t' evs :
  pool s !! i = Some t -> act x (shared s) t = Some (st', t', [], evs) ->
  move s evs (System st' (<[i := t']> (pool s))).
Proof. intros Ei E. rewrite <- (app_nil_r (<[i := t']> (pool s))). by eapply move_act. Qed.

Lemma play_moves l s tr s' : play l s = Some (tr, s') -> moves s tr s'.
Proof.
  revert s tr. induction l as [|[t|i x] l IH]; cbn; intros s tr E.
  - injection E as <- <-. constructor.
  - destruct (callable t) eqn:Ht; [|done]. eapply (moves_trans _ []); [|by apply IH].
    by apply moves_one, move_call.
  - destruct (pool s !! i) as [t|] eqn:Ei; [|done]. cbn in E.
    destruct (act x (shared s) t) as [[[[c t'] new] evs]|] eqn:Et; [|done]. cbn in E.
    destruct (play l _) as [[tr' s1]|] eqn:Er; [|done]. cbn in E. injection E as <- <-.
    eapply moves_trans; [|by apply IH]. apply moves_one. by eapply move_act.
Qed.

(** A turn of a goroutine that starts no other. *)
Lemma play_self l s i t x st' t' evs tr s' :
  pool s !! i = Some t -> act x (shared s) t = Some (st', t', [], evs) ->
  play l (System st' (<[i := t']> (pool s))) = Some (tr, s') -> play (Turn i x :: l) s = Some (evs ++ tr, s').
Proof. intros Ei E Hp. cbn. rewrite Ei. cbn. rewrite E. cbn. by rewrite app_nil_r, Hp. Qed.

Lemma play_turn_inv i x s tr s' :
  play [Turn i x] s = Some (tr, s') ->
  exists t st' t' new, pool s !! i = Some t /\ act x (shared s) t = Some (st', t', new, tr) /\
    s' = System st' (<[i := t']> (pool s) ++ new).
Proof.
  cbn. destruct (pool s !! i) as [t|]; [|done]. cbn. destruct (act x (shared s) t) as [[[[st' t'] new] evs]|] eqn:E; [|done].
  cbn. rewrite app_nil_r. intros [= <- <-]. by exists t, st', t', new.
Qed.

Lemma play_enter_inv t s tr s' :
  play [Enter t] s = Some (tr, s') -> callable t = true /\ tr = [] /\ s' = System (shared s) (pool s ++ [t]).
Proof. cbn. destruct (callable t); [|done]. by intros [= <- <-]. Qed.

(** An invariant of systems that every move preserves. *)
Lemma moves_ind_inv (I : sys -> Prop) s0 tr s :
  I s0 -> (forall s1 evs s2, I s1 -> move s1 evs s2 -> I s2) -> moves s0 tr s -> I s.
Proof. intros H0 Hs. induction 1; eauto. Qed.

(** ** Tokens

    A weight on program points whose total over the goroutines is a function of the
    shared state: it shows that a piece of the state has a single owner. *)
Definition total (w : Pc -> nat) (l : list Pc) : nat := sum_list_with w l.

Lemma total_app w l1 l2 : total w (l1 ++ l2) = total w l1 + total w l2.
Proof. apply sum_list_with_app. Qed.

Lemma total_insert w l i t t' :
  l !! i = Some t -> total w (<[i := t']> l) + w t = total w l + w t'.
Proof.
  intros (l1 & l2 & -> & ->)%list_elem_of_split_length. rewrite insert_app_r_alt by done.
  rewrite Nat.sub_diag. cbn [insert list_insert]. rewrite !total_app. unfold total; cbn. lia.
Qed.

Lemma total_one w l i t : l !! i = Some t -> w t <= total w l.
Proof. intros E. by eapply sum_list_with_in, list_elem_of_lookup_2. Qed.

Lemma total_two w l i k t u : i <> k -> l !! i = Some t -> l !! k = Some u -> w t + w u <= total w l.
Proof.
  intros Hne (l1 & l2 & -> & ->)%list_elem_of_split_length Ek. rewrite total_app.
  apply lookup_app_Some in Ek as [Ek|[Hk Ek]].
  - apply (total_one w) in Ek. unfold total in *; cbn. lia.
  - apply lookup_cons_Some in Ek as [[? _]|[_ Ek]]; [lia|].
    apply (total_one w) in Ek. unfold total in *; cbn. lia.
Qed.

Lemma total_pos w l : 0 < total w l -> exists k t, l !! k = Some t /\ 0 < w t.
Proof.
  induction l as [|u l IH]; unfold total in *; cbn; [lia|]. intros H. destruct (w u) as [|n] eqn:Eu.
  - destruct IH as (k & t & ? & ?); [lia|]. by exists (S k), t.
  - exists 0, u. split; [done|lia].
Qed.

(** A single owner: two goroutines cannot both hold the token. *)
Lemma total_unique w l i k t u :
  total w l <= 1 -> l !! i = Some t -> l !! k = Some u -> w t = 1 -> w u = 1 -> i = k.
Proof.
  intros Hl Ei Ek Ht Hu. destruct (decide (i = k)) as [|Hne]; [done|].
  pose proof (total_two w l i k t u Hne Ei Ek). lia.
Qed.

(** ** Invariants of pools *)

Lemma pool_lookup_move (l : list Pc) i t' new k u :
  (<[i := t']> l ++ new) !! k = Some u ->
  (k = i /\ u = t') \/ (k <> i /\ l !! k = Some u) \/ (length l <= k /\ u ∈ new).
Proof.
  intros E. apply lookup_app_Some in E as [E|[Hk E]].
  - apply list_lookup_insert_Some in E as [(-> & -> & _)|[? ?]]; [by left|]. right; left. auto.
  - rewrite length_insert in Hk. right; right. split; [done|]. by apply list_elem_of_lookup_2 in E.
Qed.

(** What the goroutines hold, before and after a move. *)
Lemma pool_holds {A} (f : Pc -> option A) (l : list Pc) i t t' new :
  l !! i = Some t -> exists rest,
    omap f l ≡ₚ option_list (f t) ++ rest /\
    omap f (<[i := t']> l ++ new) ≡ₚ option_list (f t') ++ omap f new ++ rest.
Proof.
  intros (l1 & l2 & -> & ->)%list_elem_of_split_length. exists (omap f (l1 ++ l2)).
  rewrite insert_app_r_alt, Nat.sub_diag by done. cbn [insert list_insert].
  rewrite !omap_app. cbn [omap list_omap]. split; [destruct (f t)|destruct (f t')]; cbn; solve_Permutation.
Qed.

Section Tokens.
Context (w : Pc -> nat) (f : St -> nat) (J : St -> Prop).
Context (w_call : forall t, callable t = true -> w t = 0).
Context (w_act : forall x st t st' t' new evs,
  J st -> act x st t = Some (st', t', new, evs) -> w t <= f st -> f st' + w t = f st + w t' + total w new).

Lemma tokens_move s evs s' :
  move s evs s' -> J (shared s) ->
  total w (pool s) = f (shared s) -> total w (pool s') = f (shared s').
Proof.
  intros [s1 t Hc|s1 i t x st' t' new evs' Ei Ea] HJ Ht; cbn; rewrite total_app.
  - unfold total at 2. cbn. rewrite w_call by done. lia.
  - pose proof (total_one w _ _ _ Ei) as H0. apply w_act in Ea; [|done|lia].
    pose proof (total_insert w (pool s1) i t t' Ei). lia.
Qed.
End Tokens.

(** What is taken is what has been dealt with and what the goroutines still hold. *)
Section Accounts.
Context {A : Type} (took dealt : Ev -> option A) (hold : Pc -> option A) (s0 : sys) (ok : Pc -> Prop).
Context (ok_pool : forall tr s, moves s0 tr s -> Forall ok (pool s)).
Context (hold_call : forall t, callable t = true -> hold t = None).
Context (hold_act : forall x st t st' t' new evs, ok t -> act x st t = Some (st', t', new, evs) ->
  option_list (hold t) ++ omap took evs ≡ₚ omap dealt evs ++ option_list (hold t') ++ omap hold new).

Lemma accounts_moves tr s :
  omap hold (pool s0) = [] -> moves s0 tr s -> omap took tr ≡ₚ omap dealt tr ++ omap hold (pool s).
Proof.
  intros H0. induction 1 as [|tr s evs s' Hr IH Hm]; [by rewrite H0|].
  destruct Hm as [s t Ht|s i t x st' t' new evs Ei Ea]; cbn [pool]; rewrite !omap_app, IH.
  - cbn. by rewrite (hold_call t Ht), !app_nil_r.
  - destruct (pool_holds hold (pool s) i t t' new Ei) as (rest & -> & H2).
    rewrite omap_app in H2. rewrite H2. apply hold_act in Ea; [|by eapply Forall_lookup_1; [eapply ok_pool|]]. rewrite <- !app_assoc.
    apply Permutation_app_head. transitivity (rest ++ option_list (hold t) ++ omap took evs); [solve_Permutation|].
    rewrite Ea. solve_Permutation.
Qed.
End Accounts.

(** A property [P] of every goroutine and [J] of the shared state, relative to an
    invariant [G] already established. *)
Section PoolInv.
Context (G : sys -> Prop) (J : St -> Prop) (P : St -> Pc -> Prop).
Context (P_call : forall st t, callable t = true -> J st -> P st t).
Context (P_act : forall s i x t st' t' new evs,
  G s -> J (shared s) -> pool s !! i = Some t -> P (shared s) t ->
  act x (shared s) t = Some (st', t', new, evs) ->
  J st' /\ P st' t' /\ Forall (P st') new /\
  forall k u, k <> i -> pool s !! k = Some u -> P (shared s) u -> P st' u).

Definition pool_ok (s : sys) : Prop := J (shared s) /\ forall k u, pool s !! k = Some u -> P (shared s) u.

Lemma pool_ok_move s evs s' : G s -> move s evs s' -> pool_ok s -> pool_ok s'.
Proof.
  intros HG Hm. revert HG. destruct Hm as [s1 t Hc|s1 i t x st' t' new evs' Ei Ea]; intros HG [HJ HP]; (split; [|intros k u]); cbn.
  - done.
  - intros E. apply lookup_app_Some in E as [E|[_ E]]; [by eapply HP|].
    apply list_lookup_singleton_Some in E as [_ <-]. by apply P_call.
  - destruct (P_act s1 i x t st' t' new evs') as [HJ' _]; eauto.
  - destruct (P_act s1 i x t st' t' new evs') as (_ & Ht & Hn & Ho); eauto.
    intros [[-> ->]|[[Hk E]|[_ E]]]%pool_lookup_move; [done|eauto|].
    by apply (proj1 (list.Forall_forall _ _) Hn).
Qed.
End PoolInv.
End Threads.
