(* ===== verification/CopyLoop.v ===== *)
(** * Bridging two connections (obfs/client/client.go, obfs/server/server.go,
    standalone/stream.go)

    Every connection of the program ends in a loop that copies both ways between two
    connections.  There are two versions, the [copyLoop] of the obfs transports and the
    [CopyLoop] of snowflake; both are machines with one goroutine per direction and the
    caller that waits for them. *)
From S2P Require Import Prelude Threads.

Inductive style := Obfs | Snowflake.
Inductive side := SA | SB.
#[export] Instance side_eq_dec : EqDecision side.
Proof. solve_decision. Defined.

Definition other (x : side) : side := match x with SA => SB | SB => SA end.

(** A connection: closed by this program or not, the bytes read from it and the bytes
    written to it. *)
Record endpoint := Endpoint { ep_closed : bool; ep_read : bytes; ep_written : bytes }.

(** The two connections, [errChan] (or [done]) and the wait group. *)
Record bridge := Bridge {
  br_a : endpoint; br_b : endpoint; br_chan : list (option error); br_wg : nat }.

Definition at_ (x : side) (b : bridge) : endpoint := match x with SA => br_a b | SB => br_b b end.
Definition upd (x : side) (e : endpoint) (b : bridge) : bridge :=
  match x with
  | SA => Bridge e (br_b b) (br_chan b) (br_wg b)
  | SB => Bridge (br_a b) e (br_chan b) (br_wg b)
  end.
Definition close_ (x : side) (b : bridge) : bridge :=
  upd x (Endpoint true (ep_read (at_ x b)) (ep_written (at_ x b))) b.
Definition got (x : side) (p : bytes) (b : bridge) : bridge :=
  upd x (Endpoint (ep_closed (at_ x b)) (ep_read (at_ x b) ++ p) (ep_written (at_ x b))) b.
Definition put_to (x : side) (p : bytes) (b : bridge) : bridge :=
  upd x (Endpoint (ep_closed (at_ x b)) (ep_read (at_ x b)) (ep_written (at_ x b) ++ p)) b.

Definition ErrClosed : error := ErrMsg "use of closed network connection".

(** What the peers do: the result of a Read, the outcome of a Write ([Some (Some (n, e))]:
    only [n] bytes were written); [None]: not yet. *)
Record choice := Choice {
  ch_read : option (bytes * option error);
  ch_write : option (option (nat * error)) }.
Definition quiet : choice := Choice None None.

(** The goroutine that copies from [src] to the other connection, and the caller. *)
Inductive pc :=
  | CP_read (src : side)
  | CP_write (src : side) (p : bytes) (er : option error)
  | CP_send (src : side) (r : option error)
  | CP_close_src (src : side)
  | CP_close_dst (src : side) (r : option error)
  | CP_wg (src : side)
  | CP_end (src : side)
  | W_wait
  | W_ret (r : option error).

#[export] Instance pc_eq_dec : EqDecision pc.
Proof. solve_decision. Defined.

Section CopyLoop.
Context (st : style).

(** The result of [io.Copy] is known: the end of the stream is not an error. *)
Definition copied (src : side) (e : error) : pc :=
  let r := if decide (e = EOF) then None else Some e in
  match st with Obfs => CP_send src r | Snowflake => CP_close_dst src r end.
Definition copy_failed (src : side) (e : error) : pc :=
  match st with Obfs => CP_send src (Some e) | Snowflake => CP_close_dst src (Some e) end.

(** One round of [io.Copy]: a Read, then the Write of what it returned. *)
Definition copy_read (x : choice) (b : bridge) (src : side) : option (bridge * pc) :=
  if ep_closed (at_ src b) then Some (b, copy_failed src ErrClosed)
  else
    '(p, er) ← ch_read x;
    Some (got src p b,
      match p, er with
      | [], None => CP_read src
      | [], Some e => copied src e
      | _, _ => CP_write src p er
      end).
Definition copy_write (x : choice) (b : bridge) (src : side) (p : bytes) (er : option error) : option (bridge * pc) :=
  let dst := other src in
  if ep_closed (at_ dst b) then Some (b, copy_failed src ErrClosed)
  else
    w ← ch_write x;
    match w with
    | Some (n, e) => Some (put_to dst (take n p) b, copy_failed src e)
    | None => Some (put_to dst p b, match er with None => CP_read src | Some e => copied src e end)
    end.

Definition send_result (r : option error) (b : bridge) : bridge :=
  Bridge (br_a b) (br_b b) (br_chan b ++ [r]) (br_wg b).
Definition wg_Done (b : bridge) : bridge := Bridge (br_a b) (br_b b) (br_chan b) (br_wg b - 1).

(** The goroutines and the caller.  In [copyLoop] the result is sent first and the
    deferred calls run in reverse order: source, destination, wait group; in [CopyLoop]
    the destination is closed and then [done] is sent. *)
Definition copy_step (x : choice) (b : bridge) (t : pc) : option (bridge * pc) :=
  match t with
  | CP_read src => copy_read x b src
  | CP_write src p er => copy_write x b src p er
  | CP_send src r => Some (send_result r b, match st with Obfs => CP_close_src src | Snowflake => CP_end src end)
  | CP_close_src src => Some (close_ src b, CP_close_dst src None)
  | CP_close_dst src r =>
      Some (close_ (other src) b, match st with Obfs => CP_wg src | Snowflake => CP_send src r end)
  | CP_wg src => Some (wg_Done b, CP_end src)
  | CP_end _ => None
  | W_wait =>
      match st with
      | Obfs => if br_wg b =? 0 then Some (b, W_ret (default None (head (br_chan b)))) else None
      | Snowflake => if br_chan b is [] then None else Some (b, W_ret None)
      end
  | W_ret _ => None
  end.

#[export] Instance copy_machine : Machine bridge pc unit choice :=
  {| act x b t := '(b', t') ← copy_step x b t; Some (b', t', [], []); callable _ := false |}.

(** The call [copyLoop(a, b)]: the goroutine that reads [a], the one that reads [b]. *)
Definition copyLoop : system bridge pc :=
  System (Bridge (Endpoint false [] []) (Endpoint false [] []) [] 2) [W_wait; CP_read SA; CP_read SB].
Definition reachable (s : system bridge pc) : Prop := exists tr, moves copyLoop tr s.

(** ** The invariant *)

Definition both_closed (b : bridge) : Prop := ep_closed (br_a b) = true /\ ep_closed (br_b b) = true.

(** What has been read from [src] and what has been written to the other side. *)
Definition all_copied (b : bridge) (src : side) : Prop := ep_read (at_ src b) = ep_written (at_ (other src) b).
Definition copied_so_far (b : bridge) (src : side) : Prop :=
  exists lost, ep_read (at_ src b) = ep_written (at_ (other src) b) ++ lost.

(** The goroutine that copies from [src]. *)
Definition dir_ok (b : bridge) (src : side) (t : pc) : Prop :=
  copied_so_far b src /\
  match t with
  | CP_read s => s = src /\ all_copied b src
  | CP_write s p _ => s = src /\ ep_read (at_ src b) = ep_written (at_ (other src) b) ++ p
  | CP_send s r => s = src /\ (r = None -> all_copied b src) /\ (st = Snowflake -> ep_closed (at_ (other src) b) = true)
  | CP_close_src s => s = src /\ st = Obfs
  | CP_close_dst s r =>
      s = src /\ (st = Obfs -> ep_closed (at_ src b) = true) /\ (st = Snowflake -> r = None -> all_copied b src)
  | CP_wg s => s = src /\ st = Obfs /\ both_closed b
  | CP_end s => s = src /\ (st = Obfs -> both_closed b) /\ ep_closed (at_ (other src) b) = true
  | W_wait | W_ret _ => False
  end.

(** Whether a goroutine has still to send its result, and to call [wg.Done]. *)
Definition unsent (t : pc) : nat :=
  match t with
  | CP_read _ | CP_write _ _ _ | CP_send _ _ => 1
  | CP_close_dst _ _ => match st with Obfs => 0 | Snowflake => 1 end
  | _ => 0
  end.
Definition live (t : pc) : nat := match t with CP_end _ => 0 | _ => 1 end.

Definition wait_ok (b : bridge) (t : pc) : Prop :=
  match t with
  | W_wait => True
  | W_ret r =>
      match st with
      | Obfs => br_wg b = 0 /\ head (br_chan b) = Some r
      | Snowflake => br_chan b <> []
      end
  | _ => False
  end.

Definition inv (s : system bridge pc) : Prop :=
  exists w c1 c2, pool s = [w; c1; c2] /\ dir_ok (shared s) SA c1 /\ dir_ok (shared s) SB c2 /\
    (st = Obfs -> br_wg (shared s) = live c1 + live c2) /\
    length (br_chan (shared s)) + (unsent c1 + unsent c2) = 2 /\ wait_ok (shared s) w.

(** Only the bytes of its own direction and what is closed matter to a goroutine. *)
Definition stays_closed (b b' : bridge) : Prop :=
  forall x, ep_closed (at_ x b) = true -> ep_closed (at_ x b') = true.

Lemma dir_ok_mono b b' src t :
  ep_read (at_ src b') = ep_read (at_ src b) -> ep_written (at_ (other src) b') = ep_written (at_ (other src) b) ->
  stays_closed b b' -> dir_ok b src t -> dir_ok b' src t.
Proof.
  intros Hr Hw Hm. pose proof (Hm SA) as HA. pose proof (Hm SB) as HB. cbn in HA, HB.
  assert (Hb : both_closed b -> both_closed b') by (intros []; split; auto).
  unfold dir_ok, copied_so_far, all_copied. rewrite Hr, Hw. intros [Hc Ht]. split; [done|].
  destruct t; try done; naive_solver.
Qed.

Lemma close_read x y b : ep_read (at_ y (close_ x b)) = ep_read (at_ y b).
Proof. by destruct x, y. Qed.
Lemma close_written x y b : ep_written (at_ y (close_ x b)) = ep_written (at_ y b).
Proof. by destruct x, y. Qed.
Lemma close_closes x b : ep_closed (at_ x (close_ x b)) = true.
Proof. by destruct x. Qed.
Lemma close_stays x b : stays_closed b (close_ x b).
Proof. intros y. by destruct x, y. Qed.
Lemma both_closed_sides b src : both_closed b <-> ep_closed (at_ src b) = true /\ ep_closed (at_ (other src) b) = true.
Proof. unfold both_closed. destruct src; cbn; tauto. Qed.
Lemma other_other x : other (other x) = x.
Proof. by destruct x. Qed.

(** The effect of a step on the direction of [src] and on everything else. *)
Definition framed (src : side) (b b' : bridge) : Prop :=
  stays_closed b b' /\ ep_read (at_ (other src) b') = ep_read (at_ (other src) b) /\
  ep_written (at_ src b') = ep_written (at_ src b).

Lemma copy_read_inv x b src b' t' :
  copy_read x b src = Some (b', t') ->
  (b' = b /\ t' = copy_failed src ErrClosed) \/
  exists p, b' = got src p b /\
    ((p = [] /\ (t' = CP_read src \/ exists e, t' = copied src e)) \/ exists er, t' = CP_write src p er).
Proof.
  unfold copy_read. destruct (ep_closed _); [intros [= <- <-]; by left|].
  destruct (ch_read x) as [[p er]|]; cbn [mbind option_bind]; [|done]. intros [= <- <-]. right. exists p.
  split; [done|]. destruct p as [|c p], er as [e|]; eauto 6.
Qed.

Lemma copy_write_inv x b src p er b' t' :
  copy_write x b src p er = Some (b', t') ->
  (b' = b /\ t' = copy_failed src ErrClosed) \/
  (exists n e, b' = put_to (other src) (take n p) b /\ t' = copy_failed src e) \/
  (b' = put_to (other src) p b /\ (t' = CP_read src \/ exists e, t' = copied src e)).
Proof.
  unfold copy_write. destruct (ep_closed _); [intros [= <- <-]; by left|].
  destruct (ch_write x) as [[[n e]|]|]; cbn [mbind option_bind]; [| |done]; intros [= <- <-]; right; [eauto|].
  right. split; [done|]. destruct er; eauto.
Qed.

Lemma step_framed x b src t b' t' : dir_ok b src t -> copy_step x b t = Some (b', t') -> framed src b b'.
Proof.
  assert (Hrefl : framed src b b) by (split_and!; done || by intros y).
  intros [_ Ht] E. destruct t as [s|s p er|s r|s|s r|s|s| |r]; cbn [copy_step] in E; try done; destruct Ht as [-> _].
  - apply copy_read_inv in E as [[-> _]|(p & -> & _)]; [done|].
    split_and!; [intros []; by destruct src|by destruct src..].
  - apply copy_write_inv in E as [[-> _]|[(n & e & -> & _)|[-> _]]]; [done|..];
      (split_and!; [intros []; by destruct src|by destruct src..]).
  - injection E as <- _. split_and!; [intros []; done|by destruct src..].
  - injection E as <- _. split_and!; [apply close_stays|apply close_read|apply close_written].
  - injection E as <- _. split_and!; [apply close_stays|apply close_read|apply close_written].
  - injection E as <- _. split_and!; [intros []; done|by destruct src..].
Qed.

(** A copy has ended. *)
Lemma dir_ok_failed b src e : copied_so_far b src -> dir_ok b src (copy_failed src e).
Proof. intros H. unfold copy_failed. destruct st eqn:Hst; split; naive_solver. Qed.
Lemma dir_ok_copied b src e : all_copied b src -> dir_ok b src (copied src e).
Proof.
  intros H. assert (Hc : copied_so_far b src) by (exists []; by rewrite app_nil_r).
  unfold copied. destruct st eqn:Hst; split; naive_solver.
Qed.

Lemma step_own x b src t b' t' : dir_ok b src t -> copy_step x b t = Some (b', t') -> dir_ok b' src t'.
Proof.
  intros [Hc Ht] E. destruct t as [s|s p er|s r|s|s r|s|s| |r]; cbn [copy_step] in E; try done; destruct Ht as [-> Ht].
  - apply copy_read_inv in E as [[-> ->]|(p & -> & Hp)]; [by apply dir_ok_failed|].
    assert (Ha : p = [] -> all_copied (got src p b) src).
    { intros ->. unfold all_copied. destruct src; cbn; by rewrite app_nil_r. }
    assert (Hl : ep_read (at_ src (got src p b)) = ep_written (at_ (other src) (got src p b)) ++ p).
    { destruct src; cbn; f_equal; exact Ht. }
    destruct Hp as [[-> [-> |[e ->]]]|[er ->]]; [split; [by eexists|auto]|by apply dir_ok_copied, Ha|].
    split; [by eexists|done].
  - apply copy_write_inv in E as [[-> ->]|[(n & e & -> & ->)|[-> Hp]]]; [by apply dir_ok_failed| |].
    + apply dir_ok_failed. exists (drop n p). destruct src; cbn; rewrite <- app_assoc, take_drop; exact Ht.
    + assert (Ha : all_copied (put_to (other src) p b) src) by (destruct src; exact Ht).
      destruct Hp as [-> |[e ->]]; [|by apply dir_ok_copied]. split; [exists []; by rewrite app_nil_r|auto].
  - injection E as <- <-. destruct Ht as [Ha Hs]. destruct st eqn:Hst.
    + split; [by destruct src|done].
    + split; [by destruct src|]. split_and!; [done|congruence|]. by destruct src; apply Hs.
  - injection E as <- <-. split.
    + unfold copied_so_far. by rewrite close_read, close_written.
    + split_and!; [done| |congruence]. intros _. apply close_closes.
  - injection E as <- <-.
    assert (Hcs : copied_so_far (close_ (other src) b) src)
      by (unfold copied_so_far; by rewrite close_read, close_written).
    destruct Ht as [Ho Hs]. destruct st eqn:Hst; (split; [done|]).
    + split_and!; [done|done|]. apply (both_closed_sides _ src).
      split; [by apply close_stays, Ho|apply close_closes].
    + split_and!; [done| |intros _; apply close_closes]. intros Hr. unfold all_copied.
      rewrite close_read, close_written. by apply Hs.
  - injection E as <- <-. destruct Ht as [Ho [Hx Hy]]. split; [by destruct src|].
    split_and!; [done|by intros _|]. by destruct src.
Qed.

Lemma step_other x b src t b' t' u :
  dir_ok b src t -> copy_step x b t = Some (b', t') -> dir_ok b (other src) u -> dir_ok b' (other src) u.
Proof.
  intros Ht E. destruct (step_framed _ _ _ _ _ _ Ht E) as (Hm & Hr & Hw). apply dir_ok_mono; [done| |done].
  by rewrite other_other.
Qed.

Lemma step_counts x b src t b' t' :
  dir_ok b src t -> copy_step x b t = Some (b', t') ->
  (st = Obfs -> live t <= br_wg b -> br_wg b' + live t = br_wg b + live t') /\
  length (br_chan b') + unsent t' = length (br_chan b) + unsent t /\
  (exists more, br_chan b' = br_chan b ++ more) /\ br_wg b' <= br_wg b.
Proof.
  assert (Hf : forall src e, live (copy_failed src e) = 1 /\ unsent (copy_failed src e) = 1).
  { intros ? ?. unfold copy_failed, unsent. by destruct st. }
  assert (Hcp : forall src e, live (copied src e) = 1 /\ unsent (copied src e) = 1).
  { intros ? ?. unfold copied, unsent. by destruct st. }
  assert (Hup : forall y e, br_chan (upd y e b) = br_chan b /\ br_wg (upd y e b) = br_wg b) by (by intros []).
  assert (Hsame : forall y e, exists more, br_chan (upd y e b) = br_chan b ++ more).
  { intros y e. exists []. rewrite app_nil_r. apply Hup. }
  assert (Hnone : exists more, br_chan b = br_chan b ++ more) by (exists []; by rewrite app_nil_r).
  intros [_ Ht] E. destruct t as [s|s p er|s r|s|s r|s|s| |r]; cbn [copy_step] in E; try done; destruct Ht as [-> Ht];
    unfold got, put_to, close_ in *.
  - apply copy_read_inv in E as [[-> ->]|(p & -> & [[-> [-> |[e ->]]]|[er ->]])];
      unfold got; rewrite ?(proj1 (Hup _ _)), ?(proj2 (Hup _ _)), ?(proj1 (Hf _ _)), ?(proj2 (Hf _ _)),
        ?(proj1 (Hcp _ _)), ?(proj2 (Hcp _ _)); split_and!; auto.
  - apply copy_write_inv in E as [[-> ->]|[(n & e & -> & ->)|[-> [-> |[e ->]]]]];
      unfold put_to; rewrite ?(proj1 (Hup _ _)), ?(proj2 (Hup _ _)), ?(proj1 (Hf _ _)), ?(proj2 (Hf _ _)),
        ?(proj1 (Hcp _ _)), ?(proj2 (Hcp _ _)); split_and!; auto.
  - injection E as <- <-. cbn. rewrite length_app. cbn. split_and!; [|destruct st; cbn; lia|by eexists|done].
    intros Hs. rewrite Hs. done.
  - injection E as <- <-. rewrite (proj1 (Hup _ _)), (proj2 (Hup _ _)). cbn. split_and!; auto.
    by rewrite Ht.
  - injection E as <- <-. rewrite (proj1 (Hup _ _)), (proj2 (Hup _ _)). cbn. destruct st; split_and!; auto.
  - injection E as <- <-. cbn. split_and!; [intros; lia|done|done|lia].
Qed.

Lemma wait_ok_mono b b' t :
  (exists more, br_chan b' = br_chan b ++ more) -> br_wg b' <= br_wg b -> wait_ok b t -> wait_ok b' t.
Proof.
  intros [more E] Hg. destruct t; cbn; try done. rewrite E. destruct st.
  - intros [H1 H2]. split; [lia|]. by destruct (br_chan b).
  - intros H1 H2. by apply app_nil in H2 as [? _].
Qed.

Lemma inv_move s evs s' : inv s -> move s evs s' -> inv s'.
Proof.
  intros Hi Hm. destruct Hm as [s1 t Hc|s1 i t x b' t' new evs' Ei Ea]; [done|]. cbn in Ea.
  destruct Hi as (w & c1 & c2 & Hp & H1 & H2 & Hg & Hl & Hw).
  destruct (copy_step x (shared s1) t) as [[b1 t1]|] eqn:E; cbn in Ea; [|done]. injection Ea as <- <- <- <-.
  rewrite app_nil_r. rewrite Hp in Ei |- *. destruct i as [|[|[|i]]]; cbn in Ei; try done; injection Ei as ->;
    cbn [insert list_insert]; unfold inv; cbn [shared pool].
  - exists t1, c1, c2. destruct t; try done. cbn in E.
    destruct st eqn:Hst.
    + destruct (br_wg (shared s1) =? 0) eqn:Eg; [|done]. injection E as <- <-. apply Nat.eqb_eq in Eg.
      split_and!; try done. cbn. rewrite Hst. split; [done|].
      specialize (Hg eq_refl). destruct c1, c2; cbn in Hg; try lia. cbn in Hl.
      by destruct (br_chan (shared s1)).
    + destruct (br_chan (shared s1)) eqn:Ec; [done|]. injection E as <- <-. rewrite Ec. split_and!; try done.
      cbn. rewrite Hst. by rewrite Ec.
  - exists w, t1, c2. destruct (step_counts _ _ _ _ _ _ H1 E) as (Hc1 & Hc2 & Hc3 & Hc4).
    split_and!; [done|by eapply step_own|by eapply (step_other _ _ SA)| |lia|by eapply wait_ok_mono].
    intros Hs. specialize (Hg Hs). specialize (Hc1 Hs). lia.
  - exists w, c1, t1. destruct (step_counts _ _ _ _ _ _ H2 E) as (Hc1 & Hc2 & Hc3 & Hc4).
    split_and!; [done|by eapply (step_other _ _ SB)|by eapply step_own| |lia|by eapply wait_ok_mono].
    intros Hs. specialize (Hg Hs). specialize (Hc1 Hs). lia.
Qed.

Lemma inv_reachable s : reachable s -> inv s.
Proof.
  intros [tr H]. eapply (moves_ind_inv inv); [|exact inv_move|exact H].
  exists W_wait, (CP_read SA), (CP_read SB). split_and!; try done; (split; [by exists []|done]).
Qed.

(** ** Progress without the peers *)

(** A goroutine whose [io.Copy] has returned, and the steps it has left. *)
Definition ended (t : pc) : Prop :=
  match t with CP_send _ _ | CP_close_src _ | CP_close_dst _ _ | CP_wg _ | CP_end _ => True | _ => False end.
#[export] Instance ended_dec t : Decision (ended t).
Proof. destruct t; apply _. Defined.
Definition rank (t : pc) : nat :=
  match t with
  | CP_read _ | CP_write _ _ _ => 5
  | CP_send _ _ => match st with Obfs => 4 | Snowflake => 1 end
  | CP_close_src _ => 3 | CP_close_dst _ _ => 2 | CP_wg _ => 1
  | _ => 0
  end.

Lemma ended_step b src t :
  dir_ok b src t -> ended t -> t <> CP_end src ->
  exists b' t', copy_step quiet b t = Some (b', t') /\ ended t' /\ rank t' < rank t.
Proof.
  intros [_ Ht] He Hn. destruct t as [s|s p er|s r|s|s r|s|s| |r]; try done; destruct Ht as [-> Ht]; try by destruct Hn.
  all: cbn [copy_step]; destruct st eqn:Hst; do 2 eexists; (split; [reflexivity|]);
    cbn; rewrite ?Hst; split; (done || lia).
Qed.

(** When both connections are closed, a copy that is still running ends by itself. *)
Lemma closed_step b src t :
  dir_ok b src t -> ~ ended t -> both_closed b ->
  exists t', copy_step quiet b t = Some (b, t') /\ ended t' /\ rank t' < rank t.
Proof.
  intros [_ Ht] He Hb. apply (both_closed_sides _ src) in Hb as [Hs Ho].
  assert (Hf : forall src e, ended (copy_failed src e) /\ rank (copy_failed src e) < 5).
  { intros ? ?. unfold copy_failed, rank. destruct st; cbn; split; (done || lia). }
  destruct t as [s|s p er|s r|s|s r|s|s| |r]; cbn in He; try tauto; destruct Ht as [-> Ht];
    exists (copy_failed src ErrClosed); (split; [|apply Hf]).
  - cbn. unfold copy_read. by rewrite Hs.
  - cbn. unfold copy_write. by rewrite Ho.
Qed.

Definition quiet_schedule (l : list (turn (Pc := pc) (Ch := choice))) : Prop := Forall (fun t => exists i, t = Turn i quiet) l.

Lemma play_turn i (s : system bridge pc) t b' t' l tr s' :
  pool s !! i = Some t -> copy_step quiet (shared s) t = Some (b', t') ->
  play l (System b' (<[i := t']> (pool s))) = Some (tr, s') -> play (Turn i quiet :: l) s = Some (tr, s').
Proof. intros Ei E Hp. cbn. rewrite Ei. cbn. rewrite E. cbn. by rewrite app_nil_r, Hp. Qed.

Lemma move_turn i (s : system bridge pc) t b' t' :
  pool s !! i = Some t -> copy_step quiet (shared s) t = Some (b', t') ->
  move s [] (System b' (<[i := t']> (pool s))).
Proof. intros Ei E. eapply move_self; [exact Ei|]. cbn. by rewrite E. Qed.

(** One direction has ended: it goes on, or the other one does, or the caller can. *)
Lemma next_dir b src t u :
  dir_ok b src t -> dir_ok b (other src) u -> ended t ->
  (exists b' t', copy_step quiet b t = Some (b', t') /\ ended t' /\ rank t' < rank t) \/
  (t = CP_end src /\ (u = CP_end (other src) \/ st = Snowflake \/
     exists b' u', copy_step quiet b u = Some (b', u') /\ rank u' < rank u)).
Proof.
  intros Ht Hu He. destruct (decide (t = CP_end src)) as [-> |Hn]; [right|left; by eapply ended_step].
  split; [done|]. destruct (decide (u = CP_end (other src))) as [-> |Hn]; [by left|right].
  destruct st eqn:Hst; [right|by left]. destruct Ht as (_ & _ & Hb & _).
  destruct (decide (ended u)) as [De|De].
  - destruct (ended_step _ _ _ Hu De Hn) as (b' & u' & ? & _ & ?). eauto.
  - destruct (closed_step _ _ _ Hu De (Hb Hst)) as (u' & ? & _ & ?). eauto.
Qed.

(** The caller returns when both goroutines have, or in [CopyLoop] when one has. *)
Lemma wait_step (s : system bridge pc) c1 c2 :
  inv s -> pool s = [W_wait; c1; c2] -> c1 = CP_end SA /\ c2 = CP_end SB \/ st = Snowflake /\ (c1 = CP_end SA \/ c2 = CP_end SB) ->
  exists r, copy_step quiet (shared s) W_wait = Some (shared s, W_ret r).
Proof.
  intros (w & d1 & d2 & Hp & H1 & H2 & Hg & Hl & _) Hp' He. rewrite Hp in Hp'. injection Hp' as -> -> ->.
  cbn [copy_step]. assert (Hu : forall t, unsent t <= 1) by (intros []; cbn; destruct st; lia).
  destruct st eqn:Hst.
  - destruct He as [[-> ->]|[? _]]; [|done]. rewrite Hg by done. eauto.
  - specialize (Hu c1) as U1. specialize (Hu c2) as U2.
    destruct (br_chan (shared s)); [|eauto]. cbn [length] in Hl.
    destruct He as [[-> _]|[_ [-> | ->]]]; cbn in Hl; lia.
Qed.

(** The next step on the way to the return of the call. *)
Lemma next_step (s : system bridge pc) c1 c2 :
  inv s -> pool s = [W_wait; c1; c2] -> ended c1 \/ ended c2 ->
  exists i t b' t', pool s !! i = Some t /\ copy_step quiet (shared s) t = Some (b', t') /\
    ((exists r, i = 0 /\ t' = W_ret r) \/
     exists d1 d2, <[i := t']> (pool s) = [W_wait; d1; d2] /\ (ended d1 \/ ended d2) /\
       rank d1 + rank d2 < rank c1 + rank c2).
Proof.
  intros Hi Hp He. pose proof Hi as (w & d1 & d2 & Hq & H1 & H2 & _). rewrite Hp in Hq. injection Hq as <- <- <-.
  rewrite Hp. destruct He as [He|He].
  - destruct (next_dir _ SA _ _ H1 H2 He) as [(b' & t' & E & He' & Hr)|[-> Hc]].
    { exists 1, c1, b', t'. split_and!; [done|done|]. right. exists t', c2. split_and!; [done|by left|lia]. }
    destruct Hc as [Hc|[Hc|(b' & u' & E & Hr)]].
    1,2: destruct (wait_step s _ _ Hi Hp) as [r Er]; [tauto|]; exists 0, W_wait, (shared s), (W_ret r); eauto 6.
    exists 2, c2, b', u'. split_and!; [done|done|]. right. exists (CP_end SA), u'. split_and!; [done|by left|lia].
  - destruct (next_dir _ SB _ _ H2 H1 He) as [(b' & t' & E & He' & Hr)|[-> Hc]].
    { exists 2, c2, b', t'. split_and!; [done|done|]. right. exists c1, t'. split_and!; [done|by right|lia]. }
    destruct Hc as [Hc|[Hc|(b' & u' & E & Hr)]].
    1,2: destruct (wait_step s _ _ Hi Hp) as [r Er]; [tauto|]; exists 0, W_wait, (shared s), (W_ret r); eauto 6.
    exists 1, c1, b', u'. split_and!; [done|done|]. right. exists u', (CP_end SB). split_and!; [done|by right|lia].
Qed.

Lemma returns_quietly n (s : system bridge pc) c1 c2 :
  rank c1 + rank c2 < n -> inv s -> pool s = [W_wait; c1; c2] -> ended c1 \/ ended c2 ->
  exists l tr s' r, quiet_schedule l /\ play l s = Some (tr, s') /\ pool s' !! 0 = Some (W_ret r).
Proof.
  revert s c1 c2. induction n as [|n IH]; intros s c1 c2 Hn Hi Hp He; [lia|].
  destruct (next_step s c1 c2 Hi Hp He) as (i & t & b' & t' & Ei & E & [(r & -> & ->)|(d1 & d2 & Hp' & He' & Hr)]).
  - exists [Turn 0 quiet], [], (System b' (<[0 := W_ret r]> (pool s))), r.
    split_and!; [by repeat econstructor|by eapply play_turn|]. by rewrite Hp.
  - destruct (IH (System b' (<[i := t']> (pool s))) d1 d2) as (l & tr & s' & r & Hl & Hpl & Hr'); [lia| |done|done|].
    { eapply inv_move; [exact Hi|]. by eapply move_turn. }
    exists (Turn i quiet :: l), tr, s', r. split_and!; [|by eapply play_turn|done].
    constructor; [by eexists|done].
Qed.

(** Every step without the peers brings the call closer to its return. *)
Definition work (t : pc) : nat := match t with W_wait => 1 | _ => rank t end.

Lemma quiet_work b t b' t' : copy_step quiet b t = Some (b', t') -> work t' < work t.
Proof.
  assert (Hf : forall src e, work (copy_failed src e) < 5).
  { intros ? ?. unfold copy_failed, work, rank. destruct st; lia. }
  intros E. destruct t as [s|s p er|s r|s|s r|s|s| |r]; cbn [copy_step] in E; try done.
  - unfold copy_read in E. destruct (ep_closed _); [|done]. injection E as <- <-. apply Hf.
  - unfold copy_write in E. destruct (ep_closed _); [|done]. injection E as <- <-. apply Hf.
  - injection E as <- <-. unfold work, rank. destruct st; lia.
  - injection E as <- <-. unfold work, rank. lia.
  - injection E as <- <-. unfold work, rank. destruct st; lia.
  - injection E as <- <-. unfold work, rank. lia.
  - assert (exists r, t' = W_ret r) as [r ->]; [|unfold work, rank; lia].
    destruct st; [destruct (br_wg b =? 0)|destruct (br_chan b)]; try done; injection E as <- <-; eauto.
Qed.

Lemma quiet_ended b t b' t' : copy_step quiet b t = Some (b', t') -> ended t -> ended t'.
Proof. intros E He. destruct t; try done; cbn [copy_step] in E; injection E as <- <-; by destruct st. Qed.

(** The pool after a schedule without the peers. *)
Lemma quiet_play l (s s' : system bridge pc) tr k t :
  quiet_schedule l -> inv s -> pool s !! k = Some t -> ended t -> play l s = Some (tr, s') ->
  length l + total work (pool s') <= total work (pool s) /\ inv s' /\ exists t', pool s' !! k = Some t' /\ ended t'.
Proof.
  intros Hl. revert s tr t. induction Hl as [|a l [i ->] Hl IH]; intros s tr t Hi Hk He; cbn [play length].
  { intros [= <- <-]. split_and!; [lia|done|by exists t]. }
  destruct (pool s !! i) as [u|] eqn:Ei; [cbn [mbind option_bind]|done]. cbn [act copy_machine].
  destruct (copy_step quiet (shared s) u) as [[b' u']|] eqn:Eu; [cbn [mbind option_bind]|done].
  rewrite app_nil_r. destruct (play l _) as [[tr' s1]|] eqn:Ep; [|done]. intros [= <- <-].
  pose proof (quiet_work _ _ _ _ Eu) as Hw. pose proof (total_insert work _ _ _ u' Ei) as Ht.
  assert (Hi' : inv (System b' (<[i := u']> (pool s)))) by (eapply inv_move; [exact Hi|by eapply move_turn]).
  assert (Hk' : exists t', <[i := u']> (pool s) !! k = Some t' /\ ended t').
  { destruct (decide (k = i)) as [->|Hne].
    - rewrite Ei in Hk. injection Hk as ->. exists u'. rewrite list_lookup_insert_eq by (by eapply lookup_lt_Some).
      split; [done|by eapply quiet_ended].
    - exists t. by rewrite list_lookup_insert_ne. }
  destruct Hk' as (t' & Hk' & He'). destruct (IH _ _ t' Hi' Hk' He' Ep) as (Hle & Hinv & Hend).
  cbn [pool] in Hle. split_and!; [lia|done|done].
Qed.

(** ** Half-closed connections *)

(** Nothing more is written to the first connection. *)
Definition cut_off (s : system bridge pc) : Prop :=
  ep_closed (br_b (shared s)) = true /\ ep_written (br_a (shared s)) = [] /\
  forall k p er, pool s !! k <> Some (CP_write SB p er).

Lemma copied_not_write src e y p er : copied src e <> CP_write y p er.
Proof. unfold copied. by destruct st. Qed.
Lemma failed_not_write src e y p er : copy_failed src e <> CP_write y p er.
Proof. unfold copy_failed. by destruct st. Qed.

Lemma cut_off_step x b t b' t' :
  ep_closed (br_b b) = true -> ep_written (br_a b) = [] -> (forall p er, t <> CP_write SB p er) ->
  copy_step x b t = Some (b', t') ->
  ep_closed (br_b b') = true /\ ep_written (br_a b') = [] /\ forall p er, t' <> CP_write SB p er.
Proof.
  intros Hc Hw Hn E. destruct t as [s|s p er|s r|s|s r|s|s| |r]; cbn [copy_step] in E.
  - destruct s.
    + apply copy_read_inv in E as [[-> ->]|(p & -> & [[-> [-> |[e ->]]]|[er ->]])];
        (split_and!; [done|done|]); intros p' er'; try done; [apply failed_not_write|apply copied_not_write].
    + unfold copy_read in E. cbn in E. rewrite Hc in E. injection E as <- <-.
      split_and!; [done|done|]. intros p' er'. apply failed_not_write.
  - destruct s; [|by destruct (Hn p er)]. unfold copy_write in E. cbn in E. rewrite Hc in E. injection E as <- <-.
    split_and!; [done|done|]. intros p' er'. apply failed_not_write.
  - injection E as <- <-. by destruct st.
  - injection E as <- <-. by destruct s.
  - injection E as <- <-. by destruct s, st.
  - by injection E as <- <-.
  - done.
  - repeat case_match; try done; by injection E as <- <-.
  - done.
Qed.

Lemma cut_off_move s evs s' : cut_off s -> move s evs s' -> cut_off s'.
Proof.
  intros Hi Hm. destruct Hm as [s1 t Hc|s1 i t x b' t' new evs' Ei Ea]; [done|]. cbn in Ea.
  destruct Hi as (Hc & Hw & Hn). destruct (copy_step x (shared s1) t) as [[b1 t1]|] eqn:E; cbn in Ea; [|done].
  injection Ea as <- <- <- <-. destruct (cut_off_step x (shared s1) t b1 t1 Hc Hw) as (H1 & H2 & H3); [|exact E|].
  { intros p er Et. subst t. by apply (Hn i p er). }
  split_and!; [done|done|]. intros k p er Hk. cbn in Hk. rewrite app_nil_r in Hk.
  apply list_lookup_insert_Some in Hk as [(_ & Ht1 & _)|[_ Hk]]; [by apply (H3 p er)|by apply (Hn k p er)].
Qed.

Lemma cut_off_forever s tr s' : cut_off s -> moves s tr s' -> ep_written (br_a (shared s')) = [].
Proof. intros H Hm. eapply (moves_ind_inv cut_off); [exact H|exact cut_off_move|exact Hm]. Qed.

(** The first connection sends a request and ends its side. *)
Definition half_close (req : bytes) : list (turn (Pc := pc) (Ch := choice)) :=
  [Turn 1 (Choice (Some (req, Some EOF)) None); Turn 1 (Choice None (Some None)); Turn 1 quiet] ++
  match st with Obfs => [Turn 1 quiet; Turn 1 quiet] | Snowflake => [] end.
End CopyLoop.

(** [copyLoop] of the obfs transports and [CopyLoop] of snowflake. *)
Definition copyLoop_step := copy_step Obfs.
Definition CopyLoop_step := copy_step Snowflake.

(** ** Properties *)

(** C18. Copying keeps the streams.  In every reachable state of either loop, what has
    been written to each connection is a prefix of what was read from the other, and
    all of it when the direction has ended without an error.  When [copyLoop] returns,
    both connections are closed, both goroutines have finished, and the error is the one
    of the direction that ended first. *)
Theorem copy_loop_streams st s :
  reachable st s ->
  (forall src, copied_so_far (shared s) src) /\
  (forall k src, pool s !! k = Some (CP_send src None) -> all_copied (shared s) src) /\
  (forall r, st = Obfs -> pool s !! 0 = Some (W_ret r) ->
     both_closed (shared s) /\ pool s !! 1 = Some (CP_end SA) /\ pool s !! 2 = Some (CP_end SB) /\
     exists r2, br_chan (shared s) = [r; r2]).
Proof.
  intros (w & c1 & c2 & Hp & H1 & H2 & Hg & Hl & Hw)%inv_reachable. rewrite Hp. split_and!.
  - intros []; [apply H1|apply H2].
  - intros [|[|[|k]]] src; cbn; intros [= ->].
    + done.
    + destruct H1 as (_ & -> & Ha & _). auto.
    + destruct H2 as (_ & -> & Ha & _). auto.
  - intros r -> [= ->]. destruct Hw as [Hz Hh]. rewrite Hg in Hz by done.
    destruct c1; cbn in Hz; try lia. destruct c2; cbn in Hz; try lia.
    destruct H1 as (_ & -> & Hb & _), H2 as (_ & -> & _). split_and!; [by apply Hb|done|done|]. cbn in Hl.
    destruct (br_chan (shared s)) as [|r1 [|r2 [|]]]; cbn in Hl; try lia. injection Hh as ->. eauto.
Qed.

(** The loops return.  As soon as one direction has ended, because its reader or its
    writer did, the call returns by steps of its own goroutines only: it does not wait
    for any further data, or for room, on either connection.  However these steps are
    scheduled there are at most eleven of them, and when none is left the call has
    returned. *)
Theorem copy_loop_returns st s k t :
  reachable st s -> pool s !! k = Some t -> ended t ->
  (exists l tr s' r, quiet_schedule l /\ play (M := copy_machine st) l s = Some (tr, s') /\
     pool s' !! 0 = Some (W_ret r)) /\
  (forall l tr s', quiet_schedule l -> play (M := copy_machine st) l s = Some (tr, s') ->
     length l <= 11 /\
     ((forall i, play (M := copy_machine st) [Turn i quiet] s' = None) -> exists r, pool s' !! 0 = Some (W_ret r))).
Proof.
  intros Hi%inv_reachable Hk He. pose proof Hi as (w & c1 & c2 & Hp & _ & _ & _ & _ & Hw). split.
  - rewrite Hp in Hk. destruct w as [| | | | | | | |r]; try done.
    + apply (returns_quietly st (S (rank st c1 + rank st c2)) s c1 c2); [lia|done|done|].
      destruct k as [|[|[|k]]]; cbn in Hk; try done; injection Hk as <-; auto; by destruct He.
    + exists [], [], s, r. split_and!; [constructor|done|by rewrite Hp].
  - intros l tr s' Hl E. destruct (quiet_play st l s s' tr k t Hl Hi Hk He E) as (Hle & Hi' & t' & Hk' & He').
    assert (Hrank : forall u, rank st u <= 5) by (intros u; unfold rank; repeat case_match; lia).
    split.
    { rewrite Hp in Hle. unfold total in Hle. cbn in Hle. pose proof (Hrank c1). pose proof (Hrank c2).
      assert (work st w <= 1) by (destruct w; cbn; try lia; done).
      assert (work st c1 <= 5) by (destruct c1; cbn [work]; auto; lia).
      assert (work st c2 <= 5) by (destruct c2; cbn [work]; auto; lia). lia. }
    intros Hstuck. pose proof Hi' as (w' & d1 & d2 & Hp' & _ & _ & _ & _ & Hw').
    destruct w' as [| | | | | | | |r]; try done; [exfalso|rewrite Hp'; by exists r].
    destruct (next_step st s' d1 d2 Hi' Hp') as (i & u & b' & u' & Ei & Eu & _).
    { rewrite Hp' in Hk'. destruct k as [|[|[|k]]]; cbn in Hk'; try done; injection Hk' as <-; auto; by destruct He'. }
    specialize (Hstuck i). cbn [play] in Hstuck. rewrite Ei in Hstuck. cbn in Hstuck. by rewrite Eu in Hstuck.
Qed.

(** A half-closed connection loses the answer.  When one side has sent its request
    and ended its sending side, which copies without error, the connection to the other
    side is closed: whatever the other side sends and whenever it is scheduled, no byte
    of the answer is ever delivered. *)
Theorem copy_loop_half_close st c req :
  exists s, reachable st s /\ ep_written (br_b (shared s)) = c :: req /\
    (match st with Obfs => br_chan (shared s) = [None] | Snowflake => pool s !! 1 = Some (CP_send SA None) end) /\
    forall tr s', moves (M := copy_machine st) s tr s' -> ep_written (br_a (shared s')) = [].
Proof.
  destruct (play (M := copy_machine st) (half_close st (c :: req)) copyLoop) as [[tr s]|] eqn:E;
    [|by destruct st; vm_compute in E].
  exists s. split_and!.
  - exists tr. by apply play_moves in E.
  - destruct st; vm_compute in E; injection E; intros; subst; reflexivity.
  - destruct st; vm_compute in E; injection E; intros; subst; reflexivity.
  - intros tr' s'. apply cut_off_forever. destruct st; vm_compute in E; injection E; intros; subst;
      (split_and!; [done|done|]); intros k p er; by destruct k as [|[|[|]]].
Qed.

Definition demo_ended (st : style) : system bridge pc :=
  default copyLoop (snd <$> play (M := copy_machine st) (half_close st (s2b "hi")) copyLoop).

Lemma copy_loop_streams_witness : copied_so_far (shared (demo_ended Obfs)) SA.
Proof.
  refine (proj1 (copy_loop_streams Obfs (demo_ended Obfs) _) SA).
  exists []. apply (play_moves (half_close Obfs (s2b "hi"))). vm_compute. reflexivity.
Defined.

Lemma copy_loop_returns_witness :
  exists l tr s' r, quiet_schedule l /\ play (M := copy_machine Snowflake) l (demo_ended Snowflake) = Some (tr, s') /\
    pool s' !! 0 = Some (W_ret r).
Proof.
  refine (proj1 (copy_loop_returns Snowflake (demo_ended Snowflake) 1 (CP_send SA None) _ _ _)).
  - exists []. apply (play_moves (half_close Snowflake (s2b "hi"))). vm_compute. reflexivity.
  - vm_compute. reflexivity.
  - exact I.
Defined.
