(* ===== verification/TermMonitor.v ===== *)
(** * Shutting down (common/termon/termmon.go, provider.go, main/ptbridge.go)

    [LaunchTermMonitorForListeners] is where [main] spends its life: it waits for a
    signal, closes the listeners and waits for the handlers to finish.  The operating
    system, the handlers and the goroutine that watches the parent process are the
    environment.  Both channels are unbuffered: a handler or the watcher blocks until
    [Wait] receives, while [signal.Notify] drops a signal nobody is receiving. *)
From S2P Require Import Prelude.

Inductive signal := SIGINT | SIGTERM.
#[export] Instance signal_eq_dec : EqDecision signal.
Proof. solve_decision. Defined.

(** What a receive of the [select] in [Wait] yields. *)
Inductive received := FromHandler (n : Z) | FromSignal (s : signal).

(** One round of the loop of [Wait]: the new [numHandlers], and the signal returned. *)
Definition Wait_round (termOnNoHandlers : bool) (numHandlers : Z) (r : received) : Z * option signal :=
  match r with
  | FromHandler n =>
      let num := (numHandlers + n)%Z in
      (num, if termOnNoHandlers && (num =? 0)%Z then Some SIGTERM else None)
  | FromSignal sig => (numHandlers, Some sig)
  end.

(** A goroutine that calls [OnHandlerStart], works and calls [OnHandlerFinish]. *)
Inductive handler := Starting | Working | Finishing | Over.

(** Why [LaunchTermMonitorForListeners] returned. *)
Inductive cause := FirstTerm | CloseFailed (e : error) | Second (s : signal) | Idle.

(** Where it is: in [Wait(false)], closing the listeners, in [Wait(true)]. *)
Inductive monitor_pc := Wait1 | Closing (todo : list nat) | Wait2 | Returned (c : cause).

(** The goroutine of [termOnPPIDChange]: polling for [ppid] to change, sending
    SIGTERM, finished. *)
Inductive watcher := NoWatcher | Polling (ppid : Z) | SendingTerm | WatcherOver.

(** [tm_closed]: the listeners closed so far. *)
Record monitor := Monitor {
  tm_pc : monitor_pc; tm_numHandlers : Z; tm_closed : list nat;
  tm_handlers : list handler; tm_watcher : watcher }.

(** [termMonitorOSInit] is what that hook returned, if there is one. *)
Definition NewTermMonitor (ppid : Z) (termMonitorOSInit : option (option error)) (windows : bool) : monitor :=
  let w := match termMonitorOSInit with
           | Some None => NoWatcher
           | _ => if windows then NoWatcher else Polling ppid
           end in
  Monitor Wait1 0 [] [] w.

(** One round of the loop of [termOnPPIDChange], which sees the parent [now]. *)
Definition termOnPPIDChange (now : Z) (w : watcher) : watcher :=
  match w with Polling ppid => if (ppid =? now)%Z then w else SendingTerm | _ => w end.

Section Monitor.
Context (listeners : list nat).

(** [Wait] receives [r]; [None] if the monitor is not receiving. *)
Definition receive (r : received) (m : monitor) : option monitor :=
  match tm_pc m with
  | Wait1 =>
      let '(num, sig) := Wait_round false (tm_numHandlers m) r in
      let pc := match sig with
                | None => Wait1 | Some SIGTERM => Returned FirstTerm | Some _ => Closing listeners end in
      Some (Monitor pc num (tm_closed m) (tm_handlers m) (tm_watcher m))
  | Wait2 =>
      let '(num, sig) := Wait_round true (tm_numHandlers m) r in
      let pc := match sig, r with
                | None, _ => Wait2
                | Some s, FromSignal _ => Returned (Second s)
                | Some _, FromHandler _ => Returned Idle end in
      Some (Monitor pc num (tm_closed m) (tm_handlers m) (tm_watcher m))
  | _ => None
  end.

Definition set_handlers hs (m : monitor) : monitor :=
  Monitor (tm_pc m) (tm_numHandlers m) (tm_closed m) hs (tm_watcher m).
Definition set_watcher n (m : monitor) : monitor :=
  Monitor (tm_pc m) (tm_numHandlers m) (tm_closed m) (tm_handlers m) n.

Inductive mact :=
  | Connection                       (* a handler starts *)
  | Sends (i : nat)                  (* Wait receives from handler i *)
  | Ends (i : nat)                   (* handler i's connection ends *)
  | Poll (now : Z)                   (* the watcher asks for the parent's pid *)
  | Watcher                          (* Wait receives from the watcher *)
  | Kill (s : signal)                (* the process is sent a signal *)
  | CloseNext (e : option error).    (* ln.Close() of the next listener *)

Definition mstep (a : mact) (m : monitor) : option monitor :=
  match a with
  | Connection => Some (set_handlers (tm_handlers m ++ [Starting]) m)
  | Sends i =>
      match tm_handlers m !! i with
      | Some Starting => receive (FromHandler 1) (set_handlers (<[i := Working]> (tm_handlers m)) m)
      | Some Finishing => receive (FromHandler (-1)) (set_handlers (<[i := Over]> (tm_handlers m)) m)
      | _ => None
      end
  | Ends i =>
      match tm_handlers m !! i with
      | Some Working => Some (set_handlers (<[i := Finishing]> (tm_handlers m)) m)
      | _ => None
      end
  | Poll now => Some (set_watcher (termOnPPIDChange now (tm_watcher m)) m)
  | Watcher =>
      match tm_watcher m with
      | SendingTerm => receive (FromSignal SIGTERM) (set_watcher WatcherOver m)
      | _ => None
      end
  | Kill s => Some (default m (receive (FromSignal s) m))
  | CloseNext e =>
      match tm_pc m with
      | Closing [] => Some (Monitor Wait2 (tm_numHandlers m) (tm_closed m) (tm_handlers m) (tm_watcher m))
      | Closing (l :: todo) =>
          let pc := match e with Some e => Returned (CloseFailed e) | None => Closing todo end in
          let closed := match e with Some _ => tm_closed m | None => tm_closed m ++ [l] end in
          Some (Monitor pc (tm_numHandlers m) closed (tm_handlers m) (tm_watcher m))
      | _ => None
      end
  end.

Fixpoint mrun (l : list mact) (m : monitor) : option monitor :=
  match l with [] => Some m | a :: l' => m' ← mstep a m; mrun l' m' end.

(** ** Invariant *)

(** The handlers [Wait] has seen start and not seen finish. *)
Definition counted (h : handler) : bool := match h with Working | Finishing => true | _ => false end.
Definition active (m : monitor) : nat := length (filter (fun h => counted h = true) (tm_handlers m)).

Definition pc_ok (m : monitor) : Prop :=
  match tm_pc m with
  | Wait1 | Returned FirstTerm => tm_closed m = []
  | Closing todo => listeners = tm_closed m ++ todo
  | Wait2 | Returned (Second _) => listeners = tm_closed m
  | Returned (CloseFailed _) => exists l todo, listeners = tm_closed m ++ l :: todo
  | Returned Idle => listeners = tm_closed m /\ active m = 0
  end.

Record minv (m : monitor) : Prop := {
  mi_count : tm_numHandlers m = Z.of_nat (active m);
  mi_pc : pc_ok m }.

Lemma active_insert hs i h h' :
  hs !! i = Some h ->
  (length (filter (fun h => counted h = true) (<[i := h']> hs)) + (if counted h then 1 else 0) =
   length (filter (fun h => counted h = true) hs) + (if counted h' then 1 else 0))%nat.
Proof.
  intros (l1 & l2 & -> & ->)%list_elem_of_split_length. rewrite insert_app_r_alt, Nat.sub_diag by done.
  cbn [insert list_insert]. rewrite !list.filter_app, !filter_cons, !length_app.
  repeat case_decide; destruct (counted h), (counted h'); cbn [length]; try done; lia.
Qed.

Lemma receive_inv m hs m' d :
  pc_ok m -> receive (FromHandler d) (set_handlers hs m) = Some m' ->
  tm_numHandlers m' = (tm_numHandlers m + d)%Z /\ tm_handlers m' = hs /\
  (tm_numHandlers m' = Z.of_nat (active m') -> pc_ok m').
Proof.
  unfold receive, pc_ok. cbn. intros Hp E.
  destruct (tm_pc m); [|done| |done]; cbn [Wait_round andb] in E.
  - injection E as <-. cbn. split_and!; done.
  - destruct (_ =? 0)%Z eqn:Ez in E; injection E as <-; cbn; (split_and!; [done|done|]); [|done].
    intros Hc. apply Z.eqb_eq in Ez. split; [done|]. unfold active in *. cbn in *. lia.
Qed.

Lemma signal_inv s m m' : minv m -> receive (FromSignal s) m = Some m' -> minv m'.
Proof.
  intros [Hc Hp] E. unfold receive, pc_ok in *.
  destruct (tm_pc m) eqn:Epc; [|done| |done]; cbn [Wait_round] in E; injection E as <-.
  - split; [done|]. unfold pc_ok. cbn. destruct s; cbn; rewrite Hp; done.
  - split; [done|]. done.
Qed.

(** A change of handlers that [Wait] is not told about. *)
Lemma silent_inv m hs :
  minv m -> length (filter (fun h => counted h = true) hs) = active m -> minv (set_handlers hs m).
Proof.
  intros [Hc Hp] Ha. unfold active in Ha. split; cbn; [unfold active; cbn; by rewrite Ha|].
  unfold pc_ok, active in *. cbn. by rewrite Ha.
Qed.

Lemma sends_inv m m' i h h' d :
  minv m -> tm_handlers m !! i = Some h ->
  receive (FromHandler d) (set_handlers (<[i := h']> (tm_handlers m)) m) = Some m' ->
  (Z.of_nat (if counted h then 1 else 0) + d = Z.of_nat (if counted h' then 1 else 0))%Z -> minv m'.
Proof.
  intros [Hc Hp] Hi E Hd. pose proof (active_insert _ _ _ h' Hi) as Ha.
  destruct (receive_inv _ _ _ _ Hp E) as (Hn & Hh & Hok). assert (Hc' : tm_numHandlers m' = Z.of_nat (active m')).
  { unfold active in *. rewrite Hh. destruct (counted h), (counted h'); lia. }
  split; [done|auto].
Qed.

Lemma mstep_inv a m m' : minv m -> mstep a m = Some m' -> minv m'.
Proof.
  intros Hinv E. pose proof Hinv as [Hc Hp]. destruct a; cbn [mstep] in E.
  - injection E as <-. apply silent_inv; [done|]. rewrite list.filter_app. cbn. by rewrite app_nil_r.
  - destruct (tm_handlers m !! i) as [[]|] eqn:Hi; try done; by eapply sends_inv.
  - destruct (tm_handlers m !! i) as [[]|] eqn:Hi; try done. injection E as <-.
    apply silent_inv; [done|]. pose proof (active_insert _ _ _ Finishing Hi) as Ha. cbn in Ha. unfold active. lia.
  - injection E as <-. by split.
  - destruct (tm_watcher m); try done. eapply signal_inv; [|exact E]. by split.
  - injection E as <-. destruct (receive (FromSignal s) m) eqn:Er; [by eapply signal_inv|done].
  - unfold pc_ok in Hp. destruct (tm_pc m) as [|[|l todo]| |] eqn:Epc; try done; injection E as <-; (split; [done|]);
      unfold pc_ok; cbn; [by rewrite app_nil_r in Hp|]. destruct e; cbn; [by eauto|]. by rewrite <- app_assoc.
Qed.

Lemma mrun_inv l m m' : minv m -> mrun l m = Some m' -> minv m'.
Proof.
  revert m. induction l as [|a l IH]; intros m Hm; cbn [mrun]; [by intros [= <-]|].
  destruct (mstep a m) as [m1|] eqn:E; [cbn [mbind option_bind]; eauto using mstep_inv|done].
Qed.

Lemma minv_start ppid os win : minv (NewTermMonitor ppid os win).
Proof. done. Qed.

Lemma mrun_app l1 l2 m : mrun (l1 ++ l2) m = m' ← mrun l1 m; mrun l2 m'.
Proof.
  revert m. induction l1 as [|a l1 IH]; intros m; cbn; [done|].
  destruct (mstep a m); cbn; [apply IH|done].
Qed.
(** Some handler is counted when there is an active one. *)
Lemma active_pos m n : active m = S n -> exists i h, tm_handlers m !! i = Some h /\ counted h = true.
Proof.
  unfold active. intros E. destruct (filter _ _) as [|h hs] eqn:Ef; [done|].
  assert (Hin : h ∈ filter (fun h => counted h = true) (tm_handlers m)) by (rewrite Ef; apply elem_of_cons; by left).
  apply list_elem_of_filter in Hin as [Hh [i Hi]%list_elem_of_lookup]. eauto.
Qed.

(** Letting one active handler finish. *)
Lemma finish_one m n :
  minv m -> tm_pc m = Wait2 -> active m = S n ->
  exists l m', Forall (fun a => exists i, a = Ends i \/ a = Sends i) l /\ mrun l m = Some m' /\
    minv m' /\ active m' = n /\ tm_pc m' = if decide (n = 0) then Returned Idle else Wait2.
Proof.
  intros Hm Hpc Ha. destruct (active_pos m n Ha) as (i & h & Hi & Hh).
  assert (exists l0 m0, Forall (fun a => exists i, a = Ends i \/ a = Sends i) l0 /\ mrun l0 m = Some m0 /\
    minv m0 /\ tm_pc m0 = Wait2 /\ active m0 = S n /\ tm_handlers m0 !! i = Some Finishing)
    as (l0 & m0 & Hl0 & E0 & Hm0 & Hpc0 & Ha0 & Hi0).
  { destruct h; try done; [|by exists [], m].
    exists [Ends i], (set_handlers (<[i := Finishing]> (tm_handlers m)) m).
    pose proof (active_insert _ _ _ Finishing Hi) as Hins. cbn in Hins. unfold active in *.
    split_and!; [constructor; [eauto|constructor]|cbn; by rewrite Hi| |done|cbn; lia|].
    - apply silent_inv; [done|]. unfold active. lia.
    - apply list_lookup_insert_eq. by eapply lookup_lt_Some. }
  exists (l0 ++ [Sends i]). rewrite mrun_app, E0. cbn [mbind option_bind mrun mstep]. rewrite Hi0.
  unfold receive. cbn [set_handlers tm_pc tm_numHandlers]. rewrite Hpc0. cbn [Wait_round andb].
  rewrite (mi_count _ Hm0), Ha0. eexists. split_and!; [apply Forall_app; split; [done|constructor; [eauto|constructor]]|done|..].
  - eapply mstep_inv with (a := Sends i); [exact Hm0|]. cbn [mstep]. rewrite Hi0. unfold receive.
    cbn [set_handlers tm_pc tm_numHandlers]. rewrite Hpc0. cbn [Wait_round andb]. by rewrite (mi_count _ Hm0), Ha0.
  - pose proof (active_insert _ _ _ Over Hi0) as Hins. cbn in Hins. unfold active in *. cbn. lia.
  - cbn. case_decide; destruct (Z.eqb_spec (Z.of_nat (S n) + -1) 0); try done; lia.
Qed.

(** ** Properties *)


(** A graceful shutdown completes: whenever the monitor waits for its
    handlers and some are running, letting just those finish makes it return, with no
    further signal. *)
Theorem termmon_drains ppid os win l m :
  mrun l (NewTermMonitor ppid os win) = Some m -> tm_pc m = Wait2 -> active m <> 0 ->
  exists l' m', Forall (fun a => exists i, a = Ends i \/ a = Sends i) l' /\ mrun l' m = Some m' /\
    tm_pc m' = Returned Idle /\ active m' = 0.
Proof.
  intros Hm%mrun_inv; [|apply minv_start]. remember (active m) as n eqn:Hn. symmetry in Hn. clear l.
  revert m Hm Hn. induction n as [|n IH]; intros m Hm Hn Hpc Hne; [done|].
  destruct (finish_one m n Hm Hpc Hn) as (l1 & m1 & Hl1 & E1 & Hm1 & Ha1 & Hpc1).
  case_decide as Hz; [by exists l1, m1; subst|].
  destruct (IH m1 Hm1 Ha1 Hpc1 Hz) as (l2 & m2 & Hl2 & E2 & Hpc2 & Ha2).
  exists (l1 ++ l2), m2. rewrite mrun_app, E1. split_and!; [by apply Forall_app|done..].
Qed.

(** Nothing but a signal, or a new handler, moves a monitor without handlers. *)
Definition asleep (m : monitor) : Prop :=
  tm_pc m = Wait2 /\ Forall (eq Over) (tm_handlers m) /\ tm_watcher m = NoWatcher.
Definition event_free (a : mact) : bool := match a with Connection | Kill _ => false | _ => true end.

Lemma asleep_step a m m' : asleep m -> event_free a = true -> mstep a m = Some m' -> asleep m'.
Proof.
  intros (Hpc & Hh & Hw) Ha E. destruct a; try done; cbn [mstep] in E.
  1,2: destruct (tm_handlers m !! i) as [h|] eqn:Hi; [|done];
    pose proof (Forall_lookup_1 _ _ _ _ Hh Hi) as Ho; by subst h.
  - injection E as <-. rewrite Hw. done.
  - by rewrite Hw in E.
  - by rewrite Hpc in E.
Qed.

Lemma close_all todo m :
  tm_pc m = Closing todo ->
  mrun (replicate (S (length todo)) (CloseNext None)) m =
    Some (Monitor Wait2 (tm_numHandlers m) (tm_closed m ++ todo) (tm_handlers m) (tm_watcher m)).
Proof.
  revert m. induction todo as [|ln todo IH]; intros m Hpc.
  - cbn. by rewrite Hpc, app_nil_r.
  - change (replicate (S (length (ln :: todo))) (CloseNext None)) with
      (CloseNext None :: replicate (S (length todo)) (CloseNext None)).
    cbn [mrun mstep]. rewrite Hpc. cbn [mbind option_bind]. rewrite IH by done. cbn. by rewrite <- app_assoc.
Qed.

(** One SIGINT does not end an idle process: with the operating system
    delivering the death of the parent, a monitor that has no handlers closes every
    listener on SIGINT and then waits until another signal or a new handler comes,
    although the number of pending handlers is 0 all the while. *)
Theorem termmon_sigint_hangs ppid :
  exists m, mrun (Kill SIGINT :: replicate (S (length listeners)) (CloseNext None))
      (NewTermMonitor ppid (Some None) false) = Some m /\
    tm_closed m = listeners /\ tm_numHandlers m = 0%Z /\
    forall l m', forallb event_free l = true -> mrun l m = Some m' -> tm_pc m' = Wait2.
Proof.
  eexists. split; [cbn [mrun]; cbn [mstep receive NewTermMonitor tm_pc Wait_round tm_numHandlers default mbind option_bind];
    by apply close_all|]. cbn [tm_closed tm_numHandlers app]. split_and!; [done|done|].
  intros l m' Hl E. enough (asleep m') as [? _]; [done|]. revert E.
  assert (Hs : asleep (Monitor Wait2 0 listeners [] NoWatcher)) by done.
  revert Hs. cbn. generalize (Monitor Wait2 0 listeners [] NoWatcher) as m0. induction l as [|a l IH]; intros m0 Hs; cbn [mrun].
  - by intros [= <-].
  - cbn in Hl. apply andb_true_iff in Hl as [Ha Hl]. destruct (mstep a m0) as [m1|] eqn:E; [|done].
    cbn [mbind option_bind]. apply IH; [done|]. by eapply asleep_step.
Qed.
End Monitor.

(** ** A concrete run *)

(** Two handlers start, SIGINT arrives, both listeners are closed, one handler ends. *)
Definition shutdown_acts : list mact :=
  [Connection; Connection; Sends 0; Sends 1; Kill SIGINT; CloseNext None; CloseNext None; CloseNext None;
   Ends 0; Sends 0].
Definition shutdown_end : monitor :=
  default (NewTermMonitor 1 (Some None) false) (mrun [7; 8] shutdown_acts (NewTermMonitor 1 (Some None) false)).


Lemma termmon_drains_witness :
  exists l' m', mrun [7; 8] l' shutdown_end = Some m' /\ tm_pc m' = Returned Idle.
Proof.
  destruct (termmon_drains [7; 8] 1 (Some None) false shutdown_acts shutdown_end) as (l' & m' & _ & E & Hp & _);
    [reflexivity|reflexivity|discriminate|]. exists l', m'. split; [exact E|exact Hp].
Defined.
