(* ===== verification/GoIO.v ===== *)
(** * Byte streams: the parts of Go's [io] and [bufio] the program relies on

    A [reader] is the receiving end of a connection: the segments in which its
    bytes will become available, then the error every later [Read] reports.
    A [writer] is the sending end: what has been written, how many more bytes it
    accepts before it fails, and the error it then reports.  [ReadFull], [CopyN],
    [Discard] and [bufio.Writer] are transcribed from the Go standard library on
    top of the two primitives [read] and [write]. *)
From S2P Require Import Prelude.
From stdpp Require Import relations.

(** ** io.Reader *)

Record reader := Reader { r_chunks : list bytes; r_end : error }.

(** The bytes still to come, and readers that never return [0, nil]. *)
Definition flat (r : reader) : bytes := concat (r_chunks r).
Definition nonempty_reads (r : reader) : Prop := Forall (fun c => c <> []) (r_chunks r).

(** [r.Read(p)] with [len(p) = k]. *)
Definition read (k : nat) (r : reader) : bytes * option error * reader :=
  match r_chunks r with
  | [] => ([], Some (r_end r), r)
  | c :: cs =>
      (take k c, None,
       Reader (match drop k c with [] => cs | rest => rest :: cs end) (r_end r))
  end.

(** [io.ReadAtLeast(r, buf, len(buf))], the loop of [io.ReadFull]; the error of a
    short read is turned into [ErrUnexpectedEOF] when something was read. *)
Definition short_read (got : bytes) (e : error) : error :=
  match got, e with _ :: _, EOF => ErrUnexpectedEOF | _, _ => e end.

Fixpoint readFull_loop (fuel want : nat) (got : bytes) (r : reader) : res bytes * reader :=
  match fuel with
  | O => (Panic "out of fuel", r)
  | S fuel' =>
      if Nat.eqb want 0 then (Ret got, r)
      else
        match read want r with
        | (d, None, r') => readFull_loop fuel' (want - length d) (got ++ d) r'
        | (d, Some e, r') => (Err (short_read (got ++ d) e), r')
        end
  end.

Definition ReadFull (n : nat) : io reader bytes :=
  fun r => readFull_loop (S (length (r_chunks r))) n [] r.

(** [io.CopyN(ioutil.Discard, r, n)]: [Discard] pulls at most 8 KiB at a time
    through a [LimitedReader]. *)
Fixpoint discard_loop (fuel left : nat) (r : reader) : res unit * reader :=
  match fuel with
  | O => (Panic "out of fuel", r)
  | S fuel' =>
      if Nat.eqb left 0 then (Ret tt, r)
      else
        match read (Nat.min (Z.to_nat 8192) left) r with
        | (d, None, r') => discard_loop fuel' (left - length d) r'
        | (_, Some e, r') => (Err e, r')
        end
  end.

Definition CopyN_Discard (n : nat) : io reader unit :=
  fun r => discard_loop (S (n + length (r_chunks r))) n r.

(** *** What one [Read] does to the pending bytes *)

(** [r'] is [r] after [n] more bytes were consumed. *)
Definition advanced (n : nat) (r r' : reader) : Prop :=
  flat r' = drop n (flat r) /\ r_end r' = r_end r /\ (nonempty_reads r -> nonempty_reads r').

Lemma read_nil k r : r_chunks r = [] -> read k r = ([], Some (r_end r), r).
Proof. intros E. unfold read. by rewrite E. Qed.

Lemma read_cons k r c cs :
  r_chunks r = c :: cs ->
  exists r', read k r = (take k c, None, r') /\
    advanced (length (take k c)) r r' /\
    (length c <= k -> r_chunks r' = cs) /\
    (k < length c -> r_chunks r' = drop k c :: cs).
Proof.
  destruct r as [ch e]; cbn. intros ->. unfold read; cbn. eexists; split; [done|].
  unfold advanced, flat, nonempty_reads; cbn.
  destruct (Nat.le_gt_cases (length c) k) as [Hle|Hlt].
  - rewrite (drop_ge c), (take_ge c), drop_app_length by lia.
    split_and!; [done|done|by intros [_ ?]%Forall_cons|done|lia].
  - assert (Hne : drop k c <> []).
    { intros E%(f_equal length). rewrite length_drop in E. simpl in E. lia. }
    rewrite length_take, Nat.min_l, drop_app_le by lia.
    destruct (drop k c) as [|b bs] eqn:E; [done|]. cbn.
    split_and!; [done|done| |lia|done].
    intros [_ ?]%Forall_cons. by apply Forall_cons.
Qed.

Lemma advanced_refl r : advanced 0 r r.
Proof. done. Qed.

Lemma advanced_trans a b r1 r2 r3 :
  advanced a r1 r2 -> advanced b r2 r3 -> advanced (a + b) r1 r3.
Proof.
  intros (E1 & F1 & G1) (E2 & F2 & G2). split_and!; [|congruence|auto].
  rewrite E2, E1, drop_drop. done.
Qed.

(** *** [ReadFull] and [CopyN] against the flat byte stream *)

Lemma readFull_loop_spec fuel want got r :
  length (r_chunks r) < fuel ->
  (want <= length (flat r) /\ exists r', advanced want r r' /\
     readFull_loop fuel want got r = (Ret (got ++ take want (flat r)), r')) \/
  (length (flat r) < want /\ exists r', advanced (length (flat r)) r r' /\
     readFull_loop fuel want got r = (Err (short_read (got ++ flat r) (r_end r)), r')).
Proof.
  revert want got r. induction fuel as [|fuel IH]; intros want got r Hf; [lia|].
  cbn [readFull_loop]. destruct (Nat.eqb_spec want 0) as [->|Hw].
  { left. rewrite app_nil_r. split; [lia|]. exists r. done. }
  destruct (r_chunks r) as [|c cs] eqn:E.
  { rewrite read_nil by done. right. unfold flat. rewrite E. simpl.
    split; [lia|]. exists r. split; [|done].
    unfold advanced, flat. by rewrite E. }
  destruct (read_cons want r c cs E) as (r1 & -> & Ha & Hle & Hlt).
  assert (Hflat : flat r = c ++ flat (Reader cs (r_end r))) by (unfold flat; by rewrite E).
  destruct (Nat.le_gt_cases (length c) want) as [Hc|Hc].
  - rewrite take_ge in * by lia. rewrite Hle in * by done.
    assert (Hr1 : flat r1 = flat (Reader cs (r_end r))) by (unfold flat; by rewrite Hle).
    rewrite Hflat, <- Hr1, length_app, take_app, take_ge by lia.
    simpl in Hf.
    destruct (IH (want - length c) (got ++ c) r1) as [(Hw' & r' & Ha' & ->)|(Hw' & r' & Ha' & ->)];
      [rewrite Hle by done; lia| |].
    + left. split; [lia|]. exists r'. rewrite <- app_assoc. split; [|done].
      replace want with (length c + (want - length c)) by lia. eauto using advanced_trans.
    + right. split; [lia|]. exists r'. split.
      * eauto using advanced_trans.
      * destruct Ha as (_ & -> & _). by rewrite <- app_assoc.
  - assert (Hlen : length (take want c) = want) by (rewrite length_take; lia).
    rewrite Hlen in *. left. rewrite Hflat, length_app, take_app_le by lia.
    split; [lia|]. exists r1. split; [done|]. rewrite Nat.sub_diag.
    destruct fuel; [simpl in Hf; lia|done].
Qed.

Lemma ReadFull_ok r pre suf n :
  flat r = pre ++ suf -> length pre = n ->
  exists r', ReadFull n r = (Ret pre, r') /\ flat r' = suf /\ r_end r' = r_end r /\
             (nonempty_reads r -> nonempty_reads r').
Proof.
  intros Hf Hn. unfold ReadFull.
  destruct (readFull_loop_spec (S (length (r_chunks r))) n [] r ltac:(lia))
    as [(Hle & r' & (Ha & He & Hne) & ->)|(Hlt & _)].
  - exists r'. rewrite Ha, Hf, <- Hn, take_app_length, drop_app_length. done.
  - rewrite Hf, length_app in Hlt. lia.
Qed.

Lemma ReadFull_short r n :
  length (flat r) < n ->
  exists r', ReadFull n r = (Err (short_read (flat r) (r_end r)), r') /\ flat r' = [] /\
             r_end r' = r_end r /\ (nonempty_reads r -> nonempty_reads r').
Proof.
  intros Hlt. unfold ReadFull.
  destruct (readFull_loop_spec (S (length (r_chunks r))) n [] r ltac:(lia))
    as [(Hle & _)|(_ & r' & (Ha & He & Hne) & ->)]; [lia|].
  exists r'. rewrite drop_all in Ha. done.
Qed.

(** [ReadFull] never runs out of fuel and is decided by the number of pending bytes. *)
Lemma ReadFull_cases r n :
  (exists pre suf r', flat r = pre ++ suf /\ length pre = n /\
     ReadFull n r = (Ret pre, r') /\ flat r' = suf /\ r_end r' = r_end r /\
     (nonempty_reads r -> nonempty_reads r')) \/
  (length (flat r) < n /\ exists r',
     ReadFull n r = (Err (short_read (flat r) (r_end r)), r') /\ flat r' = [] /\
     r_end r' = r_end r /\ (nonempty_reads r -> nonempty_reads r')).
Proof.
  destruct (Nat.le_gt_cases n (length (flat r))) as [H|H].
  - left. destruct (ReadFull_ok r (take n (flat r)) (drop n (flat r)) n) as (r' & ? & ? & ?).
    + by rewrite take_drop.
    + rewrite length_take. lia.
    + exists (take n (flat r)), (drop n (flat r)), r'. rewrite take_drop, length_take.
      split_and!; try done; try tauto; lia.
  - right. eauto using ReadFull_short.
Qed.

Lemma discard_loop_spec fuel left r :
  left + length (r_chunks r) < fuel ->
  (left <= length (flat r) /\ exists r', advanced left r r' /\
     discard_loop fuel left r = (Ret tt, r')) \/
  (length (flat r) < left /\ exists r', advanced (length (flat r)) r r' /\
     discard_loop fuel left r = (Err (r_end r), r')).
Proof.
  assert (H8 : 0 < Z.to_nat 8192) by lia. remember (Z.to_nat 8192) as cap eqn:Ecap.
  revert left r. induction fuel as [|fuel IH]; intros left r Hf; [lia|].
  cbn [discard_loop]. rewrite <- Ecap. destruct (Nat.eqb_spec left 0) as [->|Hw].
  { left. split; [lia|]. exists r. done. }
  destruct (r_chunks r) as [|c cs] eqn:E.
  { rewrite read_nil by done. right. unfold flat. rewrite E. simpl.
    split; [lia|]. exists r. split; [|done]. unfold advanced, flat. by rewrite E. }
  destruct (read_cons (Nat.min cap left) r c cs E) as (r1 & -> & Ha & Hle & Hlt).
  set (d := take (Nat.min cap left) c) in *.
  assert (Hd : length d = Nat.min (Nat.min cap left) (length c)) by (subst d; apply length_take).
  assert (Hfl : flat r1 = drop (length d) (flat r)) by apply Ha.
  assert (Htot : length (flat r) = length d + length (flat r1)).
  { rewrite Hfl, length_drop. unfold flat. rewrite E. simpl. rewrite length_app. lia. }
  assert (Hend : r_end r1 = r_end r) by apply Ha.
  assert (Hfuel : left - length d + length (r_chunks r1) < fuel).
  { simpl in Hf. destruct (Nat.le_gt_cases (length c) (Nat.min cap left)) as [Hc|Hc].
    - rewrite Hle by done. lia.
    - rewrite Hlt by done. simpl. lia. }
  destruct (IH (left - length d) r1 Hfuel) as [(Hw' & r' & Ha' & ->)|(Hw' & r' & Ha' & ->)].
  - left. split; [lia|]. exists r'. split; [|done].
    replace left with (length d + (left - length d)) by lia. eauto using advanced_trans.
  - right. split; [lia|]. exists r'. rewrite Htot, Hend. split; [|done].
    eauto using advanced_trans.
Qed.

Lemma CopyN_Discard_cases r n :
  (exists pre suf r', flat r = pre ++ suf /\ length pre = n /\
     CopyN_Discard n r = (Ret tt, r') /\ flat r' = suf /\ r_end r' = r_end r /\
     (nonempty_reads r -> nonempty_reads r')) \/
  (length (flat r) < n /\ exists r',
     CopyN_Discard n r = (Err (r_end r), r') /\ flat r' = [] /\
     r_end r' = r_end r /\ (nonempty_reads r -> nonempty_reads r')).
Proof.
  unfold CopyN_Discard.
  destruct (discard_loop_spec (S (n + length (r_chunks r))) n r ltac:(lia))
    as [(Hle & r' & (Ha & He & Hne) & ->)|(Hlt & r' & (Ha & He & Hne) & ->)].
  - left. exists (take n (flat r)), (drop n (flat r)), r'.
    rewrite take_drop, length_take. split_and!; try done; lia.
  - right. rewrite drop_all in Ha. split; [done|]. exists r'. done.
Qed.

(** ** Segmentation

    Two readers are indistinguishable to the program's parsers when they will
    deliver the same bytes and end with the same error, however the network cut
    the stream.  The relation is partial: it holds of readers that never return
    [0, nil]. *)
Definition same_stream (r1 r2 : reader) : Prop :=
  nonempty_reads r1 /\ nonempty_reads r2 /\ flat r1 = flat r2 /\ r_end r1 = r_end r2.

#[export] Instance same_stream_sym : Symmetric same_stream.
Proof. intros r1 r2 (? & ? & ? & ?). by split_and!. Qed.
#[export] Instance same_stream_trans : Transitive same_stream.
Proof. intros r1 r2 r3 (? & ? & ? & ?) (? & ? & ? & ?). split_and!; congruence. Qed.

(** Same outcome, and readers left in the same position. *)
Definition same_outcome {A} : relation (res A * reader) := prod_relation eq same_stream.

(** A parser whose behaviour does not depend on segmentation. *)
Abbreviation Segmented m := (Proper (same_stream ==> same_outcome) m).

#[export] Instance Segmented_ret {A} (a : A) : Segmented (mret a : io reader A).
Proof. intros r1 r2 H. by split. Qed.
#[export] Instance Segmented_throw {A} e : Segmented (throw e : io reader A).
Proof. intros r1 r2 H. by split. Qed.

Lemma Segmented_bind {A B} (m : io reader A) (f : A -> io reader B) :
  Segmented m -> (forall a, Segmented (f a)) -> Segmented (m ≫= f).
Proof.
  intros Hm Hf r1 r2 Hr. destruct (Hm r1 r2 Hr) as [E1 E2].
  unfold mbind, io_bind.
  destruct (m r1) as [o1 r1'], (m r2) as [o2 r2']; cbn in *. subst o2.
  destruct o1 as [a|e|w]; [by apply Hf|by split|by split].
Qed.
#[export] Hint Extern 2 (Proper _ (_ ≫= _)) =>
  (apply Segmented_bind; [|intro]) : typeclass_instances.

#[export] Instance Segmented_ReadFull n : Segmented (ReadFull n).
Proof.
  intros r1 r2 (N1 & N2 & E & F).
  destruct (ReadFull_cases r1 n) as [(p & q & r1' & H1 & Hl & -> & H2 & H3 & H4)|(Hl & r1' & -> & H2 & H3 & H4)].
  - destruct (ReadFull_ok r2 p q n) as (r2' & -> & G2 & G3 & G4); [congruence|done|].
    split; [done|]. split_and!; cbn; [auto|auto|congruence|congruence].
  - destruct (ReadFull_short r2 n) as (r2' & -> & G2 & G3 & G4); [by rewrite <- E|].
    split; cbn; [by rewrite E, F|]. split_and!; [auto|auto|congruence|congruence].
Qed.

#[export] Instance Segmented_CopyN n : Segmented (CopyN_Discard n).
Proof.
  intros r1 r2 (N1 & N2 & E & F).
  destruct (CopyN_Discard_cases r1 n) as [(p & q & r1' & H1 & Hl & -> & H2 & H3 & H4)|(Hl & r1' & -> & H2 & H3 & H4)];
  destruct (CopyN_Discard_cases r2 n) as [(p' & q' & r2' & H1' & Hl' & -> & H2' & H3' & H4')|(Hl' & r2' & -> & H2' & H3' & H4')].
  - assert (p = p' /\ q = q') as [-> ->] by (apply app_inj_1; congruence).
    split; [done|]. split_and!; cbn; auto; congruence.
  - rewrite <- E, H1, length_app in Hl'. lia.
  - rewrite E, H1', length_app in Hl. lia.
  - split; cbn; [congruence|]. split_and!; auto; congruence.
Qed.

(** The reader will deliver exactly [bs], never [0, nil], and then fail with [e]. *)
Definition delivers (bs : bytes) (e : error) (r : reader) : Prop :=
  flat r = bs /\ r_end r = e /\ nonempty_reads r.

Lemma delivers_flat r : nonempty_reads r -> delivers (flat r) (r_end r) r.
Proof. done. Qed.

Lemma ReadFull_delivers bs suf e n r :
  delivers (bs ++ suf) e r -> length bs = n ->
  exists r', ReadFull n r = (Ret bs, r') /\ delivers suf e r'.
Proof.
  intros (Hf & He & Hn) Hl. destruct (ReadFull_ok r bs suf n Hf Hl) as (r' & E & ? & ? & ?).
  exists r'. split; [done|]. split_and!; [done|congruence|auto].
Qed.

Lemma ReadFull_delivers_short bs e n r :
  delivers bs e r -> length bs < n ->
  exists r', ReadFull n r = (Err (short_read bs e), r') /\ delivers [] e r'.
Proof.
  intros (<- & <- & Hn) Hl. destruct (ReadFull_short r n Hl) as (r' & E & ? & ? & ?).
  exists r'. split; [done|]. split_and!; [done|congruence|auto].
Qed.

Lemma CopyN_delivers bs suf e n r :
  delivers (bs ++ suf) e r -> length bs = n ->
  exists r', CopyN_Discard n r = (Ret tt, r') /\ delivers suf e r'.
Proof.
  intros (Hf & He & Hn) Hl.
  destruct (CopyN_Discard_cases r n) as [(p & q & r' & H1 & Hl' & -> & H2 & H3 & H4)|(Hl' & _)].
  - rewrite Hf in H1. apply app_inj_1 in H1 as [-> ->]; [|congruence].
    exists r'. split; [done|]. split_and!; [done|congruence|auto].
  - rewrite Hf, length_app in Hl'. lia.
Qed.

Lemma CopyN_delivers_short bs e n r :
  delivers bs e r -> length bs < n ->
  exists r', CopyN_Discard n r = (Err e, r') /\ delivers [] e r'.
Proof.
  intros (<- & <- & Hn) Hl.
  destruct (CopyN_Discard_cases r n) as [(p & q & r' & H1 & Hl' & _)|(Hl' & r' & -> & H2 & H3 & H4)].
  - rewrite H1, length_app in Hl. lia.
  - exists r'. split; [done|]. split_and!; [done|congruence|auto].
Qed.

(** The next byte through a one-byte [Read], for readers that never return [0, nil]. *)
Lemma read_one r :
  nonempty_reads r ->
  (flat r = [] /\ read 1 r = ([], Some (r_end r), r)) \/
  (exists b rest r', flat r = b :: rest /\ read 1 r = ([b], None, r') /\
     flat r' = rest /\ r_end r' = r_end r /\ nonempty_reads r').
Proof.
  intros Hne. destruct (r_chunks r) as [|c cs] eqn:E.
  { left. rewrite read_nil by done. unfold flat. by rewrite E. }
  right. pose proof Hne as Hne'. unfold nonempty_reads in Hne'. rewrite E in Hne'.
  apply Forall_cons in Hne' as [Hc _]. destruct c as [|b c]; [done|].
  destruct (read_cons 1 r (b :: c) cs E) as (r' & -> & (Ha & Hb & Hd) & _).
  exists b, (c ++ concat cs), r'. unfold flat in *. rewrite E in *. cbn in *.
  rewrite take_0, drop_0 in Ha. split_and!; auto.
Qed.

(** ** io.Writer *)

Record writer := Writer { w_out : bytes; w_room : option nat; w_err : error }.

(** [w.Write(p)]: the number of bytes accepted and the error, if any. *)
Definition write (p : bytes) (w : writer) : nat * option error * writer :=
  match w_room w with
  | None => (length p, None, Writer (w_out w ++ p) None (w_err w))
  | Some k =>
      if decide (length p <= k)
      then (length p, None, Writer (w_out w ++ p) (Some (k - length p)) (w_err w))
      else (k, Some (w_err w), Writer (w_out w ++ take k p) (Some 0) (w_err w))
  end.

(** [if _, err := w.Write(p); err != nil { return err }] *)
Definition put (p : bytes) : io writer unit := fun w =>
  match write p w with
  | (_, None, w') => (Ret tt, w')
  | (_, Some e, w') => (Err e, w')
  end.

(** Room for [n] more bytes. *)
Definition has_room (n : nat) (w : writer) : Prop :=
  match w_room w with None => True | Some k => n <= k end.
Definition used (n : nat) (room : option nat) : option nat := (fun k => k - n) <$> room.

Lemma write_ok p w :
  has_room (length p) w ->
  write p w = (length p, None, Writer (w_out w ++ p) (used (length p) (w_room w)) (w_err w)).
Proof.
  destruct w as [out room e]. unfold has_room, write, used; cbn.
  destruct room as [k|]; [|done]. intros H. by rewrite decide_True.
Qed.

Lemma write_full p w k :
  w_room w = Some k -> k < length p ->
  write p w = (k, Some (w_err w), Writer (w_out w ++ take k p) (Some 0) (w_err w)).
Proof. intros E H. unfold write. rewrite E, decide_False by lia. done. Qed.

Lemma put_ok p w :
  has_room (length p) w ->
  put p w = (Ret tt, Writer (w_out w ++ p) (used (length p) (w_room w)) (w_err w)).
Proof. intros H. unfold put. by rewrite write_ok. Qed.

Lemma has_room_le n m w : has_room m w -> n <= m -> has_room n w.
Proof. unfold has_room. destruct (w_room w); [lia|done]. Qed.

Lemma has_room_used n m out room e :
  has_room (n + m) (Writer out room e) <->
  has_room n (Writer out room e) /\ has_room m (Writer (out) (used n room) e).
Proof. unfold has_room, used. destruct room; cbn; [lia|done]. Qed.

(** Whatever the room, one [Write] appends a prefix of [p], all of it exactly when
    it reports no error. *)
Lemma write_prefix p w n e w' :
  write p w = (n, e, w') ->
  w_out w' = w_out w ++ take n p /\ n <= length p /\ (e = None <-> n = length p) /\
  w_err w' = w_err w.
Proof.
  unfold write. intros H. destruct (w_room w) as [k|].
  - case_decide; injection H as <- <- <-; cbn.
    + rewrite take_ge by lia. done.
    + split_and!; [done|lia| |done]. split; [done|lia].
  - injection H as <- <- <-; cbn. rewrite take_ge by lia. done.
Qed.

Lemma write_error p w n e w' : write p w = (n, Some e, w') -> e = w_err w.
Proof. unfold write. destruct (w_room w); [case_decide|]; naive_solver. Qed.

Lemma write_short p w n e w' : write p w = (n, Some e, w') -> n < length p.
Proof.
  unfold write. destruct (w_room w) as [k|]; [case_decide|]; intros [= <- <- <-]. lia.
Qed.

(** ** bufio.Writer *)

Record bufio_writer := Bufio { bw_buf : bytes; bw_err : option error; bw_wr : writer }.

(** [defaultBufSize] *)
Definition bufSize : nat := Z.to_nat 4096.

Definition NewWriter (w : writer) : bufio_writer := Bufio [] None w.

(** [b.Flush()] *)
Definition bw_Flush (b : bufio_writer) : option error * bufio_writer :=
  match bw_err b with
  | Some e => (Some e, b)
  | None =>
      if decide (bw_buf b = []) then (None, b)
      else
        match write (bw_buf b) (bw_wr b) with
        | (n, e, w') =>
            let e := if decide (n < length (bw_buf b))
                     then Some (default ErrShortWrite e) else e in
            match e with
            | Some _ => (e, Bufio (drop n (bw_buf b)) e w')
            | None => (None, Bufio [] None w')
            end
        end
  end.

(** [b.Write(p)]; every turn of the loop consumes part of [p] or records an error. *)
Fixpoint bw_Write_loop (fuel nn : nat) (p : bytes) (b : bufio_writer)
  : nat * option error * bufio_writer :=
  match fuel with
  | O => (nn, Some (ErrMsg "out of fuel"), b)
  | S fuel' =>
      if decide (bufSize - length (bw_buf b) < length p /\ bw_err b = None)
      then
        if decide (bw_buf b = [])
        then
          match write p (bw_wr b) with
          | (n, e, w') => bw_Write_loop fuel' (nn + n) (drop n p) (Bufio (bw_buf b) e w')
          end
        else
          let n := Nat.min (bufSize - length (bw_buf b)) (length p) in
          match bw_Flush (Bufio (bw_buf b ++ take n p) (bw_err b) (bw_wr b)) with
          | (_, b') => bw_Write_loop fuel' (nn + n) (drop n p) b'
          end
      else
        match bw_err b with
        | Some e => (nn, Some e, b)
        | None => (nn + length p, None, Bufio (bw_buf b ++ p) None (bw_wr b))
        end
  end.

(** At most one turn fills and flushes the buffer and one writes directly. *)
Definition bw_Write (p : bytes) (b : bufio_writer) : nat * option error * bufio_writer :=
  bw_Write_loop 4 0 p b.

(** Everything handed to the buffered writer so far, sent or still buffered. *)
Definition bw_pending (b : bufio_writer) : bytes := w_out (bw_wr b) ++ bw_buf b.
Definition bw_ready (b : bufio_writer) : Prop := bw_err b = None /\ length (bw_buf b) <= bufSize.

Lemma bw_Flush_ok b :
  bw_err b = None -> has_room (length (bw_buf b)) (bw_wr b) ->
  bw_Flush b = (None, Bufio [] None (Writer (bw_pending b)
                        (used (length (bw_buf b)) (w_room (bw_wr b))) (w_err (bw_wr b)))).
Proof.
  destruct b as [buf err w]. unfold bw_Flush, bw_pending; cbn. intros -> Hr.
  case_decide as E.
  - subst buf. rewrite app_nil_r. destruct w as [out [k|] e]; cbn; [|done].
    by rewrite Nat.sub_0_r.
  - rewrite write_ok by done. by rewrite decide_False by lia.
Qed.

(** The three cases of a turn of the loop: what fits is buffered, with an empty buffer a
    large write goes straight through, and otherwise the buffer is filled and flushed. *)
Lemma bw_loop_fits fuel nn q buf w :
  length buf + length q <= bufSize ->
  bw_Write_loop (S fuel) nn q (Bufio buf None w) = (nn + length q, None, Bufio (buf ++ q) None w).
Proof. intros Hq. cbn [bw_Write_loop bw_buf bw_err]. by rewrite decide_False by lia. Qed.

Lemma bw_loop_direct fuel nn q w :
  bufSize < length q -> has_room (length q) w ->
  bw_Write_loop (S (S fuel)) nn q (Bufio [] None w)
  = (nn + length q, None, Bufio [] None (Writer (w_out w ++ q) (used (length q) (w_room w)) (w_err w))).
Proof.
  intros Hq Hr. cbn [bw_Write_loop bw_buf bw_err bw_wr length].
  rewrite decide_True by (split; [lia|done]). rewrite decide_True by done.
  rewrite write_ok, drop_ge by done. cbn [length bw_err].
  rewrite decide_False by lia. cbn. by rewrite Nat.add_0_r.
Qed.

Lemma bw_loop_fill fuel p buf out room e n :
  n = bufSize - length buf -> n < length p -> buf <> [] -> has_room (length buf + length p) (Writer out room e) ->
  bw_Write_loop (S fuel) 0 p (Bufio buf None (Writer out room e))
  = bw_Write_loop fuel n (drop n p)
      (Bufio [] None (Writer (out ++ buf ++ take n p) (used (length buf + n) room) e)).
Proof.
  intros Hn Hlt Hne Hr. cbn [bw_Write_loop bw_buf bw_err bw_wr].
  rewrite decide_True by (split; [lia|done]). rewrite decide_False by done.
  replace (Nat.min (bufSize - length buf) (length p)) with n by lia. rewrite bw_Flush_ok; cbn; [|done|].
  - by rewrite length_app, length_take, (Nat.min_l n) by lia.
  - rewrite length_app, length_take. eapply has_room_le; [exact Hr|lia].
Qed.

Lemma bw_Write_ok p b :
  bw_ready b -> has_room (length (bw_buf b) + length p) (bw_wr b) ->
  exists b', bw_Write p b = (length p, None, b') /\
    bw_ready b' /\ bw_pending b' = bw_pending b ++ p /\
    w_err (bw_wr b') = w_err (bw_wr b) /\
    forall k, has_room (length (bw_buf b) + length p + k) (bw_wr b) ->
              has_room (length (bw_buf b') + k) (bw_wr b').
Proof.
  intros [He Hb] Hr. destruct b as [buf err [out room e]]; cbn in He, Hb, Hr. subst err.
  unfold bw_Write. cbn [bw_buf bw_wr w_err].
  destruct (decide (bufSize - length buf < length p)) as [Hlt|Hge].
  2:{ rewrite bw_loop_fits by lia. eexists; split; [done|].
      unfold bw_ready, bw_pending; cbn. rewrite length_app, app_assoc. split_and!; try done; lia. }
  destruct (decide (buf = [])) as [->|Hne].
  { cbn in Hlt, Hr. rewrite Nat.sub_0_r in Hlt. rewrite bw_loop_direct by done.
    eexists; split; [done|]. unfold bw_ready, bw_pending; cbn. rewrite !app_nil_r.
    split_and!; try done. intros k Hk. by apply has_room_used in Hk as [_ ?]. }
  remember (bufSize - length buf) as n eqn:Hn. rewrite (bw_loop_fill _ _ _ _ _ _ n) by done.
  replace (length buf + length p) with (length buf + n + (length p - n)) in Hr by lia.
  apply has_room_used in Hr as [Hr1 Hr2].
  assert (Hl : length (drop n p) = length p - n) by apply length_drop.
  assert (Hk2 : forall k, length buf + length p + k = length buf + n + (length p - n + k)) by lia.
  destruct (Nat.le_gt_cases (length p - n) bufSize) as [Hs|Hs].
  - rewrite bw_loop_fits by (cbn; lia). rewrite Hl.
    eexists; split; [do 2 f_equal; lia|]. unfold bw_ready, bw_pending; cbn.
    rewrite Hl, <- !app_assoc, take_drop. split_and!; try done.
    intros k. rewrite Hk2. intros Hk. by apply has_room_used in Hk as [_ ?].
  - rewrite bw_loop_direct; [|lia|by rewrite Hl]. rewrite Hl.
    eexists; split; [do 2 f_equal; lia|]. unfold bw_ready, bw_pending; cbn.
    rewrite <- !app_assoc, app_nil_r, take_drop. split_and!; try done; [lia|].
    intros k. rewrite Hk2. intros Hk. apply has_room_used in Hk as [_ Hk]. by apply has_room_used in Hk as [_ ?].
Qed.

Lemma bw_Flush_none b b' :
  bw_Flush b = (None, b') -> bw_ready b' /\ bw_buf b' = [] /\ w_out (bw_wr b') = bw_pending b.
Proof.
  unfold bw_Flush, bw_pending, bw_ready. destruct (bw_err b) as [e|] eqn:He; [done|].
  case_decide as Hb.
  { intros [= <-]. rewrite Hb, app_nil_r, He. cbn. split_and!; [done|lia|done|done]. }
  destruct (write (bw_buf b) (bw_wr b)) as [[n e] w'] eqn:E.
  case_decide; [done|]. destruct e as [e|]; [done|]. intros [= <-]; cbn.
  apply write_prefix in E as (Ho & Hl & Hi & _).
  rewrite Ho, take_ge by lia. split_and!; [done|lia|done|done].
Qed.

Lemma bw_Flush_err b e b' : bw_Flush b = (Some e, b') -> bw_err b' = Some e.
Proof.
  unfold bw_Flush. destruct (bw_err b) as [e0|] eqn:He.
  { intros [= -> <-]. done. }
  case_decide; [done|]. destruct (write (bw_buf b) (bw_wr b)) as [[n e1] w'].
  case_decide; [by intros [= <- <-]|]. destruct e1; by intros [= <- <-].
Qed.

Lemma bw_Write_loop_err fuel nn p b e n b' :
  bw_err b = Some e -> bw_Write_loop fuel nn p b <> (n, None, b').
Proof.
  intros He. destruct fuel as [|fuel]; [done|]. cbn [bw_Write_loop].
  rewrite decide_False by (intros [_ ?]; congruence). by rewrite He.
Qed.

Lemma bw_Write_loop_none fuel nn p b n b' :
  bw_ready b -> bw_Write_loop fuel nn p b = (n, None, b') ->
  n = nn + length p /\ bw_pending b' = bw_pending b ++ p /\ bw_ready b'.
Proof.
  revert nn p b. induction fuel as [|fuel IH]; intros nn p b [He Hb] H; [done|].
  cbn [bw_Write_loop] in H. rewrite He in H. case_decide as Hd.
  2:{ injection H as <- <-. unfold bw_pending, bw_ready; cbn. rewrite length_app, app_assoc.
      split_and!; [done|done|done|].
      destruct (decide (bufSize - length (bw_buf b) < length p)); [by destruct Hd|lia]. }
  case_decide as Hbuf.
  - destruct (write p (bw_wr b)) as [[k [e|]] w'] eqn:E.
    { by apply (bw_Write_loop_err _ _ _ _ e) in H. }
    apply write_prefix in E as (Ho & Hl & Hi & _). assert (k = length p) as -> by tauto.
    apply IH in H as (-> & Hp & Hr); [|by split]. rewrite Hp, drop_ge, app_nil_r by lia.
    unfold bw_pending; cbn. rewrite Ho, Hbuf, take_ge, !app_nil_r by lia.
    split_and!; [cbn; lia|done|done].
  - set (k := Nat.min (bufSize - length (bw_buf b)) (length p)) in H.
    destruct (bw_Flush _) as [[e|] b1] eqn:E.
    { apply bw_Flush_err in E. by apply (bw_Write_loop_err _ _ _ _ e) in H. }
    apply bw_Flush_none in E as (Hr1 & Hb1 & Ho1).
    apply IH in H as (-> & Hp & Hr); [|done].
    rewrite Hp. unfold bw_pending in *; cbn in *. rewrite Hb1, Ho1, app_nil_r, <- !app_assoc, take_drop.
    rewrite length_drop. split_and!; [lia|done|done].
Qed.

(** ** The io.Writer interface

    What [io.Writer] promises to code that only sees the interface: a [Write]
    that reports no error has taken all of its argument. *)
Class IOWriter (W : Type) := io_write : bytes -> W -> nat * option error * W.

Class IOWriterLaws (W : Type) `{IOWriter W} := {
  io_sent : W -> bytes;
  io_good : W -> Prop;
  io_write_all p w n w' :
    io_good w -> io_write p w = (n, None, w') ->
    n = length p /\ io_sent w' = io_sent w ++ p /\ io_good w' }.

#[export] Instance writer_IOWriter : IOWriter writer := write.
#[export] Instance bufio_IOWriter : IOWriter bufio_writer := bw_Write.

#[export] Program Instance writer_laws : IOWriterLaws writer :=
  {| io_sent := w_out; io_good := fun _ => True |}.
Next Obligation.
  intros p w n w' _ E%write_prefix. destruct E as (Ho & _ & Hi & _).
  assert (n = length p) as -> by tauto. by rewrite take_ge in Ho by lia.
Qed.

#[export] Program Instance bufio_laws : IOWriterLaws bufio_writer :=
  {| io_sent := bw_pending; io_good := bw_ready |}.
Next Obligation. intros p w n w' Hr E. by apply bw_Write_loop_none in E. Qed.
