(* ===== verification/Strconv.v ===== *)
(** * Decimal numbers and string helpers (strconv, fmt, strings)

    What the program uses of the Go standard library to print and parse numbers
    and to take strings apart.  Strings are byte sequences. *)
From S2P Require Import Prelude.
Local Open Scope Z_scope.

(** ** Decimal printing: [strconv.Itoa], [fmt] verb [%d] of a non-negative number *)

Definition digit (d : Z) : byte := to_byte (48 + d).

(** Twenty digits are enough for a [uint64]. *)
Fixpoint dec_loop (fuel : nat) (n : Z) (acc : bytes) : bytes :=
  match fuel with
  | O => acc
  | S fuel' =>
      let acc := digit (n mod 10) :: acc in
      if n / 10 =? 0 then acc else dec_loop fuel' (n / 10) acc
  end.
Definition Itoa (n : Z) : bytes := dec_loop 20 n [].

(** ** Decimal parsing *)

Definition is_digit (b : byte) : bool := (48 <=? bval b) && (bval b <=? 57).
Definition digits_value (acc : Z) (bs : bytes) : Z :=
  foldl (fun acc b => acc * 10 + (bval b - 48)) acc bs.

(** [strconv.ParseUint(s, 10, bits)] *)
Definition ParseUint (bits : Z) (s : bytes) : option Z :=
  match s with
  | [] => None
  | _ =>
      if forallb is_digit s && (digits_value 0 s <? 2 ^ bits) then Some (digits_value 0 s) else None
  end.

(** [strconv.Atoi]: an optional sign, then digits in the range of [int]. *)
Definition Atoi (s : bytes) : option Z :=
  match s with
  | [] => None
  | b :: s' =>
      let '(neg, ds) :=
        if decide (b = Byte.x2d) then (true, s') else if decide (b = Byte.x2b) then (false, s') else (false, s) in
      match ds with
      | [] => None
      | _ =>
          if forallb is_digit ds then
            let n := digits_value 0 ds in
            if neg then if n <=? 2 ^ 63 then Some (- n) else None
            else if n <? 2 ^ 63 then Some n else None
          else None
      end
  end.

(** The white space [fmt] skips, for text in ASCII; a newline is an error. *)
Definition is_blank (b : byte) : bool :=
  bool_decide (b = Byte.x20 \/ b = Byte.x09 \/ b = Byte.x0b \/ b = Byte.x0c \/ b = Byte.x0d).

Fixpoint span (f : byte -> bool) (s : bytes) : bytes * bytes :=
  match s with
  | [] => ([], [])
  | b :: s' => if f b then let '(x, y) := span f s' in (b :: x, y) else ([], s)
  end.

(** [fmt.Sscanf(s, "%d", &v)] for a [uint32] [v]: blanks are skipped, the longest run
    of digits is the number, what follows is ignored. *)
Definition Sscanf_u32 (s : bytes) : option Z :=
  let '(_, s) := span is_blank s in
  let '(tok, _) := span is_digit s in
  n ← ParseUint 64 tok;
  if n <? 2 ^ 32 then Some n else None.

(** ** strings *)

Fixpoint strip_prefix (p s : bytes) : option bytes :=
  match p, s with
  | [], _ => Some s
  | a :: p', b :: s' => if decide (a = b) then strip_prefix p' s' else None
  | _ :: _, [] => None
  end.
Definition HasPrefix (s p : bytes) : bool := if strip_prefix p s is Some _ then true else false.
Definition TrimPrefix (s p : bytes) : bytes := default s (strip_prefix p s).
Definition HasSuffix (s p : bytes) : bool := HasPrefix (rev s) (rev p).
Definition TrimSuffix (s p : bytes) : bytes := rev (TrimPrefix (rev s) (rev p)).

(** [strings.Index]: the position of the first occurrence. *)
Fixpoint Index (s p : bytes) : option nat :=
  if HasPrefix s p then Some O
  else match s with [] => None | _ :: s' => S <$> Index s' p end.
Definition Contains (s p : bytes) : bool := if Index s p is Some _ then true else false.
(** [strings.LastIndexByte] *)
Fixpoint LastIndexByte (s : bytes) (c : byte) : option nat :=
  match s with
  | [] => None
  | b :: s' =>
      match LastIndexByte s' c with
      | Some i => Some (S i)
      | None => if decide (b = c) then Some O else None
      end
  end.
Fixpoint IndexByte (s : bytes) (c : byte) : option nat :=
  match s with
  | [] => None
  | b :: s' => if decide (b = c) then Some O else S <$> IndexByte s' c
  end.

(** ** Lemmas *)

Lemma bval_digit d : 0 <= d < 10 -> bval (digit d) = 48 + d.
Proof. intros H. unfold digit. rewrite bval_to_byte. apply Z.mod_small. lia. Qed.

Lemma is_digit_digit d : 0 <= d < 10 -> is_digit (digit d) = true.
Proof. intros H. unfold is_digit. rewrite bval_digit by done. by zcases; try lia. Qed.

Lemma digits_value_app a bs cs : digits_value a (bs ++ cs) = digits_value (digits_value a bs) cs.
Proof. apply foldl_app. Qed.

(** One unrolling of the printing loop puts a digit in front of what is printed. *)
Lemma dec_loop_acc fuel n acc : dec_loop fuel n acc = dec_loop fuel n [] ++ acc.
Proof.
  revert n acc. induction fuel as [|fuel IH]; intros n acc; [done|]. cbn [dec_loop].
  destruct (n / 10 =? 0); [done|]. rewrite IH, (IH _ [_]), <- app_assoc. done.
Qed.

Lemma dec_loop_spec fuel n :
  0 <= n < 10 ^ Z.of_nat fuel -> (0 < fuel)%nat ->
  digits_value 0 (dec_loop fuel n []) = n /\ forallb is_digit (dec_loop fuel n []) = true /\
  dec_loop fuel n [] <> [].
Proof.
  revert n. induction fuel as [|fuel IH]; intros n Hn Hf; [lia|]. cbn [dec_loop].
  assert (Hm : 0 <= n mod 10 < 10) by (apply Z.mod_pos_bound; lia).
  destruct (Z.eqb_spec (n / 10) 0) as [E|E].
  - cbn. rewrite bval_digit, is_digit_digit by lia. split_and!; [mlia|done|done].
  - assert (Hlt : 0 <= n / 10 < 10 ^ Z.of_nat fuel).
    { rewrite Nat2Z.inj_succ, Z.pow_succ_r in Hn by lia. split; [mlia|].
      apply Z.div_lt_upper_bound; lia. }
    destruct fuel as [|fuel]; [cbn in Hlt; lia|].
    destruct (IH (n / 10) Hlt ltac:(lia)) as (Hv & Hd & Hne).
    rewrite dec_loop_acc, digits_value_app, Hv, forallb_app, Hd.
    cbn [digits_value foldl forallb]. rewrite bval_digit, is_digit_digit by lia.
    split_and!; [mlia|done|]. by destruct (dec_loop _ _ _).
Qed.

Lemma Itoa_spec n :
  0 <= n < 2 ^ 64 -> digits_value 0 (Itoa n) = n /\ forallb is_digit (Itoa n) = true /\ Itoa n <> [].
Proof. intros H. apply dec_loop_spec; lia. Qed.

Lemma ParseUint_Itoa bits n : 0 <= n < 2 ^ 64 -> n < 2 ^ bits -> ParseUint bits (Itoa n) = Some n.
Proof.
  intros Hn Hb. destruct (Itoa_spec n Hn) as (Hv & Hd & Hne). unfold ParseUint.
  destruct (Itoa n) eqn:E; [done|]. rewrite Hv, Hd. by destruct (Z.ltb_spec n (2 ^ bits)); [|lia].
Qed.

Lemma digits_value_nonneg a s : 0 <= a -> forallb is_digit s = true -> 0 <= digits_value a s.
Proof.
  revert a. induction s as [|c l IH]; intros a Ha Hd; [done|]. cbn in Hd |- *.
  apply andb_true_iff in Hd as [Hc Hd]. apply IH; [|done].
  unfold is_digit in Hc. apply andb_true_iff in Hc as [Hc%Z.leb_le _]. lia.
Qed.

Lemma ParseUint_range bits s n : 0 <= bits -> ParseUint bits s = Some n -> 0 <= n < 2 ^ bits.
Proof.
  intros Hb. unfold ParseUint. destruct s as [|b s]; [done|].
  destruct (forallb is_digit (b :: s)) eqn:Hd; [|done]. cbn [andb].
  destruct (Z.ltb_spec (digits_value 0 (b :: s)) (2 ^ bits)); [|done]. intros [= <-].
  split; [|done]. by apply (digits_value_nonneg 0 (b :: s)).
Qed.

Lemma span_all f s : forallb f s = true -> span f s = (s, []).
Proof.
  induction s as [|b s IH]; [done|]. cbn. intros [-> H]%andb_true_iff. by rewrite IH.
Qed.

Lemma span_app f s b t : forallb f s = true -> f b = false -> span f (s ++ b :: t) = (s, b :: t).
Proof.
  intros Hs Hb. induction s as [|c s IH]; cbn; [by rewrite Hb|].
  cbn in Hs. apply andb_true_iff in Hs as [-> Hs]. by rewrite IH.
Qed.

Lemma span_none f b s : f b = false -> span f (b :: s) = ([], b :: s).
Proof. cbn. by intros ->. Qed.

Lemma digit_not_blank b : is_digit b = true -> is_blank b = false.
Proof. destruct b; vm_compute; done. Qed.

Lemma Sscanf_Itoa n : 0 <= n < 2 ^ 32 -> Sscanf_u32 (Itoa n) = Some n.
Proof.
  intros Hn. destruct (Itoa_spec n ltac:(lia)) as (Hv & Hd & Hne). unfold Sscanf_u32.
  assert (E : span is_blank (Itoa n) = ([], Itoa n)).
  { destruct (Itoa n) as [|b s]; [done|]. apply span_none, digit_not_blank.
    cbn in Hd. by apply andb_true_iff in Hd as [? _]. }
  rewrite E, span_all, ParseUint_Itoa by (done || lia). cbn.
  by destruct (Z.ltb_spec n (2 ^ 32)); [|lia].
Qed.

Lemma strip_prefix_Some p s t : strip_prefix p s = Some t <-> s = p ++ t.
Proof.
  revert s. induction p as [|a p IH]; intros s; cbn; [naive_solver|].
  destruct s as [|b s]; [naive_solver|]. case_decide; naive_solver.
Qed.

Lemma TrimPrefix_app p t : TrimPrefix (p ++ t) p = t.
Proof. unfold TrimPrefix. by rewrite (proj2 (strip_prefix_Some p (p ++ t) t)). Qed.

Lemma HasPrefix_true s p : HasPrefix s p = true <-> exists t, s = p ++ t.
Proof.
  unfold HasPrefix. destruct (strip_prefix p s) as [t|] eqn:E.
  - apply strip_prefix_Some in E. naive_solver.
  - split; [done|]. intros [t Ht%strip_prefix_Some]. congruence.
Qed.

Lemma Contains_true s p : Contains s p = true <-> exists a b, s = a ++ p ++ b.
Proof.
  unfold Contains. split.
  - intros H. assert (Hi : exists i, Index s p = Some i) by (destruct (Index s p); eauto; done).
    clear H. destruct Hi as [i Hi]. revert i Hi. induction s as [|c s IH]; intros i; cbn.
    + destruct (HasPrefix [] p) eqn:E; [|done]. apply HasPrefix_true in E as [t ->].
      intros _. by exists [], t.
    + destruct (HasPrefix (c :: s) p) eqn:E.
      { apply HasPrefix_true in E as [t E]. intros _. by exists [], t. }
      destruct (Index s p) as [j|]; [|done]. intros _. destruct (IH j eq_refl) as (a & b & ->).
      by exists (c :: a), b.
  - intros (a & b & ->). assert (Hi : is_Some (Index (a ++ p ++ b) p)).
    { induction a as [|c a [i Hi]]; cbn [app Index].
      - assert (E : HasPrefix (p ++ b) p = true) by (apply HasPrefix_true; eauto).
        destruct (p ++ b); cbn [Index]; rewrite E; eauto.
      - destruct (HasPrefix _ p); [eauto|]. rewrite Hi. by eexists. }
    destruct Hi as [i ->]. done.
Qed.

Lemma Contains_app s p q : Contains (s ++ p ++ q) p = true.
Proof. apply Contains_true. eauto. Qed.
