(* ===== verification/NetAddr.v ===== *)
(** * IP addresses as text (net, net/netip)

    [net.IP.String], [net.ParseIP] and [net.JoinHostPort], transcribed from the Go
    standard library.  An address is its 4 or 16 bytes. *)
From S2P Require Import Prelude Strconv.
Local Open Scope Z_scope.

(** ** Printing *)

Definition dot : byte := Byte.x2e.
Definition colon : byte := Byte.x3a.

(** [netip.Addr.string4] *)
Definition String4 (ip : bytes) : bytes :=
  match ip with
  | [a; b; c; d] =>
      Itoa (bval a) ++ dot :: Itoa (bval b) ++ dot :: Itoa (bval c) ++ dot :: Itoa (bval d)
  | _ => []
  end.

(** The eight 16-bit groups of a 16-byte address. *)
Fixpoint groups (ip : bytes) : list Z :=
  match ip with
  | a :: b :: ip' => (bval a * 256 + bval b) :: groups ip'
  | _ => []
  end.

(** [appendHex]: at most four lower-case digits, no leading zeros. *)
Definition hex_digit (d : Z) : byte := to_byte (if d <? 10 then 48 + d else 87 + d).
Definition appendHex (x : Z) : bytes :=
  (if 0x1000 <=? x then [hex_digit (Z.shiftr x 12)] else []) ++
  (if 0x100 <=? x then [hex_digit (Z.land (Z.shiftr x 8) 0xf)] else []) ++
  (if 0x10 <=? x then [hex_digit (Z.land (Z.shiftr x 4) 0xf)] else []) ++
  [hex_digit (Z.land x 0xf)].

(** The length of the run of zero groups a list starts with. *)
Fixpoint zero_run (gs : list Z) : nat :=
  match gs with g :: gs' => if g =? 0 then S (zero_run gs') else O | [] => O end.

(** [zeroStart] and the length of the run that is compressed: the first longest one
    of at least two groups. *)
Fixpoint best_run (i : nat) (gs : list Z) (best : option (nat * nat)) : option (nat * nat) :=
  match gs with
  | [] => best
  | _ :: gs' =>
      let l := zero_run gs in
      let best :=
        if (2 <=? l)%nat && (match best with Some (_, l') => l' | None => O end <? l)%nat
        then Some (i, l) else best in
      best_run (S i) gs' best
  end.

Fixpoint join_groups (gs : list Z) : bytes :=
  match gs with
  | [] => []
  | [g] => appendHex g
  | g :: gs' => appendHex g ++ colon :: join_groups gs'
  end.

(** [appendTo6] *)
Definition String6 (ip : bytes) : bytes :=
  let gs := groups ip in
  match best_run 0 gs None with
  | None => join_groups gs
  | Some (i, l) =>
      join_groups (take i gs) ++ [colon; colon] ++ join_groups (drop (i + l) gs)
  end.

(** [IP.To4]: a 4-byte address, or the last 4 bytes of an IPv4-mapped one. *)
Definition v4_prefix : bytes := replicate 10 Byte.x00 ++ [Byte.xff; Byte.xff].
Definition To4 (ip : bytes) : option bytes :=
  if decide (length ip = 4%nat) then Some ip
  else if decide (length ip = 16%nat /\ take 12 ip = v4_prefix) then Some (drop 12 ip)
  else None.

(** [IP.To16] *)
Definition To16 (ip : bytes) : option bytes :=
  if decide (length ip = 4%nat) then Some (v4_prefix ++ ip)
  else if decide (length ip = 16%nat) then Some ip
  else None.

(** [net.IP.String] of a 4- or 16-byte address. *)
Definition IP_String (ip : bytes) : bytes :=
  match To4 ip with Some p4 => String4 p4 | None => String6 ip end.

(** [net.JoinHostPort] *)
Definition JoinHostPort (host port : bytes) : bytes :=
  if decide (colon ∈ host) then s2b "[" ++ host ++ s2b "]:" ++ port else host ++ s2b ":" ++ port.

(** ** Parsing *)

(** [parseIPv4Fields]: [first] is whether the previous character was a dot or there
    was none; [fields] are the octets so far. *)
Fixpoint parseIPv4_loop (s : bytes) (val digLen : Z) (fields : bytes) : option bytes :=
  match s with
  | [] => if (length fields <? 3)%nat then None else Some (fields ++ [to_byte val])
  | c :: s' =>
      if is_digit c then
        if (digLen =? 1) && (val =? 0) then None
        else
          let val := val * 10 + (bval c - 48) in
          if 255 <? val then None else parseIPv4_loop s' val (digLen + 1) fields
      else if decide (c = dot) then
        if (digLen =? 0) || (match s' with [] => true | _ => false end) then None
        else if (length fields =? 3)%nat then None
        else parseIPv4_loop s' 0 0 (fields ++ [to_byte val])
      else None
  end.
Definition parseIPv4 (s : bytes) : option bytes := parseIPv4_loop s 0 0 [].

Definition hex_value (c : byte) : option Z :=
  let v := bval c in
  if (48 <=? v) && (v <=? 57) then Some (v - 48)
  else if (97 <=? v) && (v <=? 102) then Some (v - 87)
  else if (65 <=? v) && (v <=? 70) then Some (v - 55)
  else None.

(** The hex number at the start of [s]: its value, its length, the rest; [None] if
    it has more than four digits. *)
Fixpoint hex_group (s : bytes) (acc : Z) (off : nat) : option (Z * nat * bytes) :=
  match s with
  | [] => Some (acc, off, s)
  | c :: s' =>
      match hex_value c with
      | None => Some (acc, off, s)
      | Some d => if (3 <? off)%nat then None else hex_group s' (acc * 16 + d) (S off)
      end
  end.

(** The loop of [parseIPv6]: [ip] are the bytes so far, [ellipsis] the position of
    the double colon.  It consumes at least one group per iteration. *)
Fixpoint parseIPv6_loop (fuel : nat) (s : bytes) (ip : bytes) (ellipsis : option nat)
  : option (bytes * bytes * option nat) :=
  match fuel with
  | O => Some (s, ip, ellipsis)
  | S fuel' =>
      match hex_group s 0 0 with
      | None => None
      | Some (acc, off, rest) =>
          if (off =? 0)%nat then None
          else
            match rest with
            | c :: _ =>
                if decide (c = dot) then
                  if (match ellipsis with None => negb (length ip =? 12)%nat | Some _ => false end) then None
                  else if (12 <? length ip)%nat then None
                  else v4 ← parseIPv4 s; Some ([], ip ++ v4, ellipsis)
                else
                  let ip := ip ++ [to_byte (Z.shiftr acc 8); to_byte acc] in
                  if negb (bool_decide (c = colon)) then None
                  else
                    match rest with
                    | [_] => None
                    | _ :: c2 :: s2 =>
                        if decide (c2 = colon) then
                          match ellipsis with
                          | Some _ => None
                          | None =>
                              match s2 with
                              | [] => Some ([], ip, Some (length ip))
                              | _ => parseIPv6_loop fuel' s2 ip (Some (length ip))
                              end
                          end
                        else parseIPv6_loop fuel' (c2 :: s2) ip ellipsis
                    | [] => None
                    end
            | [] => Some ([], ip ++ [to_byte (Z.shiftr acc 8); to_byte acc], ellipsis)
            end
      end
  end.

(** [parseIPv6] of an address without a zone; [i < 16] bounds the loop to eight groups. *)
Definition parseIPv6 (s : bytes) : option bytes :=
  let '(ell, s) := match s with a :: b :: s' =>
      if bool_decide (a = colon /\ b = colon) then (Some O, s') else (None, s) | _ => (None, s) end in
  match ell, s with
  | Some _, [] => Some (replicate 16 Byte.x00)
  | _, _ =>
      '(rest, ip, ell) ← parseIPv6_loop 8 s [] ell;
      match rest with
      | _ :: _ => None
      | [] =>
          if (length ip <? 16)%nat then
            match ell with
            | None => None
            | Some e => Some (take e ip ++ replicate (16 - length ip) Byte.x00 ++ drop e ip)
            end
          else match ell with Some _ => None | None => Some ip end
      end
  end.

(** [net.ParseIP]: the first of the characters dot, colon and percent decides; an
    address with a zone is refused. *)
Fixpoint addr_kind (s : bytes) : option byte :=
  match s with
  | [] => None
  | c :: s' => if decide (c = dot \/ c = colon \/ c = Byte.x25) then Some c else addr_kind s'
  end.

Definition ParseIP (s : bytes) : option bytes :=
  match addr_kind s with
  | Some c =>
      if decide (c = dot) then (fun ip => v4_prefix ++ ip) <$> parseIPv4 s
      else if decide (c = colon) then if decide (Byte.x25 ∈ s) then None else parseIPv6 s
      else None
  | None => None
  end.

(** ** Reading back what was printed *)

Lemma parse_octet a rest fields :
  exists n, 0 < n /\ parseIPv4_loop (Itoa (bval a) ++ rest) 0 0 fields = parseIPv4_loop rest (bval a) n fields.
Proof. destruct a; (eexists; split; [|cbv; reflexivity]; lia). Qed.

Lemma parse_dot b rest val n fields :
  0 < n -> (length fields < 3)%nat ->
  parseIPv4_loop (dot :: b :: rest) val n fields = parseIPv4_loop (b :: rest) 0 0 (fields ++ [to_byte val]).
Proof.
  intros Hn Hl. cbn [parseIPv4_loop]. change (is_digit dot) with false. cbv iota.
  rewrite decide_True by done. destruct (Z.eqb_spec n 0); [lia|]. cbn [orb].
  destruct (Nat.eqb_spec (length fields) 3); [lia|done].
Qed.

Lemma Itoa_byte_cons a : exists b l, Itoa (bval a) = b :: l.
Proof. pose proof (bval_range a). destruct (Itoa_spec (bval a)) as (_ & _ & ?); [lia|].
  destruct (Itoa (bval a)); [done|eauto]. Qed.

(** One octet and the dot after it. *)
Lemma parse_octet_dot a c rest fields :
  (length fields < 3)%nat ->
  parseIPv4_loop (Itoa (bval a) ++ dot :: Itoa (bval c) ++ rest) 0 0 fields =
  parseIPv4_loop (Itoa (bval c) ++ rest) 0 0 (fields ++ [a]).
Proof.
  intros Hl. destruct (parse_octet a (dot :: Itoa (bval c) ++ rest) fields) as (n & Hn & ->).
  destruct (Itoa_byte_cons c) as (b & l & ->). cbn [app].
  rewrite parse_dot by done. by rewrite to_byte_bval.
Qed.

Lemma parseIPv4_String4 a b c d : parseIPv4 (String4 [a; b; c; d]) = Some [a; b; c; d].
Proof.
  unfold parseIPv4, String4. rewrite !parse_octet_dot by (cbn; lia).
  rewrite <- (app_nil_r (Itoa (bval d))), parse_octet_dot by (cbn; lia).
  destruct (parse_octet d [] [a; b; c]) as (n & Hn & E). cbn [app] in *. rewrite E. cbn.
  by rewrite to_byte_bval.
Qed.

Lemma addr_kind_octet a rest : addr_kind (Itoa (bval a) ++ dot :: rest) = Some dot.
Proof. destruct a; vm_compute; reflexivity. Qed.

Lemma ParseIP_String4 a b c d : ParseIP (String4 [a; b; c; d]) = Some (v4_prefix ++ [a; b; c; d]).
Proof.
  unfold ParseIP. replace (addr_kind (String4 [a; b; c; d])) with (Some dot).
  - by rewrite decide_True, parseIPv4_String4 by done.
  - symmetry. apply addr_kind_octet.
Qed.

Lemma To4_mapped ip : length ip = 4%nat -> To4 (v4_prefix ++ ip) = Some ip.
Proof.
  intros Hl. unfold To4. rewrite decide_False by (rewrite length_app, Hl; done).
  rewrite decide_True; [by rewrite drop_app_length'|].
  split; [by rewrite length_app, Hl|by rewrite take_app_length'].
Qed.

Lemma parseIPv4_length s ip : parseIPv4 s = Some ip -> length ip = 4%nat.
Proof.
  unfold parseIPv4. assert (Hg : forall s v n fields, (length fields <= 3)%nat ->
    parseIPv4_loop s v n fields = Some ip -> length ip = 4%nat).
  { clear s. induction s as [|c s IH]; intros v n fields Hf; cbn [parseIPv4_loop].
    - destruct (Nat.ltb_spec (length fields) 3); [done|]. intros [= <-]. rewrite length_app. cbn. lia.
    - destruct (is_digit c).
      { destruct (_ && _); [done|]. destruct (_ <? _); [done|]. by apply IH. }
      case_decide; [|done]. destruct (_ || _); [done|].
      destruct (Nat.eqb_spec (length fields) 3); [done|]. apply IH. rewrite length_app. cbn. lia. }
  apply Hg. cbn. lia.
Qed.

Lemma parseIPv6_loop_length fuel s ip ell rest ip' ell' :
  (length ip + 2 * fuel <= 16)%nat ->
  parseIPv6_loop fuel s ip ell = Some (rest, ip', ell') -> (length ip' <= 16)%nat.
Proof.
  revert s ip ell. induction fuel as [|fuel IH]; intros s ip ell Hl; cbn [parseIPv6_loop].
  { intros [= _ <- _]. lia. }
  destruct (hex_group s 0 0) as [[[acc off] r]|]; [|done]. destruct (off =? 0)%nat; [done|].
  destruct r as [|c r]; [intros [= _ <- _]; rewrite length_app; cbn; lia|].
  case_decide.
  { destruct ell; [|destruct (negb _); [done|]].
    all: destruct (Nat.ltb_spec 12 (length ip)); [done|].
    all: destruct (parseIPv4 s) as [v4|] eqn:E4; cbn; [|done]; intros [= _ <- _].
    all: rewrite length_app, (parseIPv4_length _ _ E4); lia. }
  set (ip2 := ip ++ _). assert (H2 : (length ip2 + 2 * fuel <= 16)%nat).
  { unfold ip2. rewrite length_app. cbn. lia. }
  destruct (negb _); [done|]. destruct r as [|c2 s2]; [done|]. case_decide; [|by apply IH].
  destruct ell; [done|]. destruct s2; [intros [= _ <- _]; lia|by apply IH].
Qed.

(** Every address [ParseIP] returns has 16 bytes. *)
Lemma ParseIP_length s ip : ParseIP s = Some ip -> length ip = 16%nat.
Proof.
  unfold ParseIP. destruct (addr_kind s) as [c|]; [|done].
  case_decide; [|case_decide; [|done]; case_decide; [done|]].
  - destruct (parseIPv4 s) as [v4|] eqn:E; [|done]. cbn. intros [= <-].
    apply parseIPv4_length in E. cbn. lia.
  - unfold parseIPv6. destruct (match s with [] => _ | _ => _ end) as [ell s0].
    assert (Hall : ('(rest, ip0, ell0) ← parseIPv6_loop 8 s0 [] ell;
      match rest with
      | [] => if (length ip0 <? 16)%nat then
          match ell0 with
          | Some e => Some (take e ip0 ++ replicate (16 - length ip0) Byte.x00 ++ drop e ip0)
          | None => None end
        else match ell0 with Some _ => None | None => Some ip0 end
      | _ :: _ => None end) = Some ip -> length ip = 16%nat).
    { destruct (parseIPv6_loop 8 s0 [] ell) as [[[rest ip0] ell0]|] eqn:El; [|done].
      apply parseIPv6_loop_length in El; [|cbn; lia]. cbn [mbind option_bind].
      destruct rest; [|done]. destruct (length ip0 <? 16)%nat eqn:E16.
      - apply Nat.ltb_lt in E16. destruct ell0; [|done]. intros [= <-].
        rewrite !length_app, length_replicate, length_take, length_drop. lia.
      - apply Nat.ltb_ge in E16. destruct ell0; [done|]. intros [= <-]. lia. }
    destruct ell, s0; try exact Hall. by intros [= <-].
Qed.
