(* ===== verification/Urls.v ===== *)
(** * Addresses of the form host:port (common/urls/urls.go, net.SplitHostPort)

    [ResolveAddr] parses the listen and service addresses of the configuration; it
    accepts IPv6 addresses with and without brackets. *)
From S2P Require Import Prelude Strconv NetAddr.
Local Open Scope Z_scope.

Definition lbracket : byte := Byte.x5b.
Definition rbracket : byte := Byte.x5d.

(** [net.SplitHostPort], transcribed from the Go standard library. *)
Definition SplitHostPort (hostport : bytes) : res (bytes * bytes) :=
  match LastIndexByte hostport colon with
  | None => Err (ErrMsg "missing port in address")
  | Some i =>
      let finish host j k :=
        if bool_decide (lbracket ∈ drop j hostport) then Err (ErrMsg "unexpected '[' in address")
        else if bool_decide (rbracket ∈ drop k hostport) then Err (ErrMsg "unexpected ']' in address")
        else Ret (host, drop (S i) hostport) in
      if decide (hostport !! O = Some lbracket) then
        match IndexByte hostport rbracket with
        | None => Err (ErrMsg "missing ']' in address")
        | Some e =>
            if decide (S e = length hostport) then Err (ErrMsg "missing port in address")
            else if decide (S e = i) then finish (take (e - 1) (drop 1 hostport)) 1%nat (S e)
            else if decide (hostport !! S e = Some colon) then Err (ErrMsg "too many colons in address")
            else Err (ErrMsg "missing port in address")
        end
      else
        let host := take i hostport in
        if bool_decide (colon ∈ host) then Err (ErrMsg "too many colons in address")
        else finish host O O
  end.

(** [strings.Split(s, sep)] and [strings.Join(l, sep)] for a one-byte separator. *)
Fixpoint Split (s : bytes) (sep : byte) : list bytes :=
  match s with
  | [] => [[]]
  | b :: s' =>
      if decide (b = sep) then [] :: Split s' sep
      else match Split s' sep with p :: ps => (b :: p) :: ps | [] => [[b]] end
  end.
Fixpoint Join (l : list bytes) (sep : byte) : bytes :=
  match l with
  | [] => []
  | [p] => p
  | p :: l' => p ++ sep :: Join l' sep
  end.

Definition ParsePort (portStr : bytes) : res Z :=
  match ParseUint 16 portStr with Some n => Ret n | None => Err (ErrMsg "strconv.ParseUint") end.

(** A [net.TCPAddr] is its IP address and its port. *)
Definition ResolveAddr (addrStr : bytes) : res (bytes * Z) :=
  let split :=
    match SplitHostPort addrStr with
    | Err e =>
        let parts := Split addrStr colon in
        if (length parts <=? 2)%nat then Err e
        else
          SplitHostPort (s2b "[" ++ Join (take (length parts - 1) parts) colon ++ s2b "]:" ++
                         nth (length parts - 1) parts [])
    | r => r
    end in
  match split with
  | Ret (ipStr, portStr) =>
      if decide (ipStr = []) then Err (ErrMsg "lacks a host part")
      else if decide (portStr = []) then Err (ErrMsg "lacks a port part")
      else
        match ParseIP ipStr with
        | None => Err (ErrMsg "not an IP string")
        | Some ip => match ParsePort portStr with Ret port => Ret (ip, port) | Err e => Err e | Panic p => Panic p end
        end
  | Err e => Err e
  | Panic p => Panic p
  end.

(** ** Lemmas *)

Lemma LastIndexByte_None s c : c ∉ s -> LastIndexByte s c = None.
Proof.
  induction s as [|b s IH]; [done|]. intros [Hb Hs]%not_elem_of_cons. cbn. rewrite IH by done.
  by rewrite decide_False by congruence.
Qed.

Lemma LastIndexByte_app s c t : c ∉ t -> LastIndexByte (s ++ c :: t) c = Some (length s).
Proof.
  intros Ht. induction s as [|b s IH]; cbn; [|by rewrite IH].
  rewrite LastIndexByte_None by done. by rewrite decide_True.
Qed.

Lemma IndexByte_app s c t : c ∉ s -> IndexByte (s ++ c :: t) c = Some (length s).
Proof.
  induction s as [|b s IH]; cbn; [by rewrite decide_True|]. intros [Hb Hs]%not_elem_of_cons.
  rewrite decide_False, IH by congruence || done. done.
Qed.

Lemma Split_none s c : c ∉ s -> Split s c = [s].
Proof.
  induction s as [|b s IH]; cbn; [done|]. intros [Hb Hs]%not_elem_of_cons.
  by rewrite decide_False, IH by congruence || done.
Qed.

Lemma Split_nonempty s c : Split s c <> [].
Proof. destruct s as [|b s]; cbn; [done|]. case_decide; [done|]. by destruct (Split s c). Qed.

Lemma Split_app s c t : Split (s ++ c :: t) c = Split s c ++ Split t c.
Proof.
  induction s as [|b s IH]; cbn; [by rewrite decide_True|]. case_decide; [by rewrite IH|]. rewrite IH.
  pose proof (Split_nonempty s c). by destruct (Split s c).
Qed.

Lemma Split_length s c : c ∈ s -> (2 <= length (Split s c))%nat.
Proof.
  intros (s1 & s2 & ->)%list_elem_of_split. rewrite Split_app, length_app.
  pose proof (Split_nonempty s1 c). pose proof (Split_nonempty s2 c).
  destruct (Split s1 c), (Split s2 c); cbn; try done. lia.
Qed.

Lemma Join_Split s c : Join (Split s c) c = s.
Proof.
  induction s as [|b s IH]; [done|]. cbn. pose proof (Split_nonempty s c).
  case_decide as Hb; destruct (Split s c) as [|p ps] eqn:E; try done.
  - cbn. cbn in IH. by rewrite IH, Hb.
  - destruct ps; cbn in *; by rewrite <- IH.
Qed.

(** Text free of the characters that structure an address. *)
Definition plain (s : bytes) : Prop := lbracket ∉ s /\ rbracket ∉ s.

Lemma drop_S_app (host : bytes) c port : drop (S (length host)) (host ++ c :: port) = port.
Proof. by induction host. Qed.

Lemma SplitHostPort_simple host port :
  plain host -> plain port -> colon ∉ host -> colon ∉ port ->
  SplitHostPort (host ++ s2b ":" ++ port) = Ret (host, port).
Proof.
  intros [Hl Hr] [Pl Pr] Hc Pc. unfold SplitHostPort.
  change (s2b ":" ++ port) with (colon :: port). rewrite LastIndexByte_app by done.
  rewrite decide_False; [|destruct host; cbn; [by intros [=]|intros [= ->]; set_solver]].
  assert (Hn : forall x, x ∉ host -> x ∉ port -> x <> colon -> x ∉ host ++ colon :: port) by set_solver.
  rewrite take_app_length, (bool_decide_false (colon ∈ host)) by done. rewrite !drop_0.
  rewrite (bool_decide_false (lbracket ∈ _)), (bool_decide_false (rbracket ∈ _)) by (by apply Hn).
  by rewrite drop_S_app.
Qed.

Lemma SplitHostPort_brackets host port :
  plain host -> plain port -> colon ∉ port ->
  SplitHostPort (s2b "[" ++ host ++ s2b "]:" ++ port) = Ret (host, port).
Proof.
  intros [Hl Hr] [Pl Pr] Pc. unfold SplitHostPort.
  assert (E : s2b "[" ++ host ++ s2b "]:" ++ port = (lbracket :: host ++ [rbracket]) ++ colon :: port)
    by (cbn; by rewrite <- app_assoc). rewrite E. rewrite LastIndexByte_app by done.
  rewrite decide_True by done.
  assert (E' : (lbracket :: host ++ [rbracket]) ++ colon :: port = (lbracket :: host) ++ rbracket :: colon :: port)
    by (cbn; by rewrite <- app_assoc). 
  rewrite E' at 1. rewrite IndexByte_app by (by apply not_elem_of_cons).
  assert (Hlen : length (lbracket :: host ++ [rbracket]) = S (S (length host)))
    by (cbn; rewrite length_app; cbn; lia).
  rewrite decide_False by (rewrite length_app, Hlen; cbn; lia).
  rewrite decide_True by (rewrite Hlen; done).
  assert (D1 : drop 1 ((lbracket :: host ++ [rbracket]) ++ colon :: port) = host ++ rbracket :: colon :: port)
    by (cbn; by rewrite <- app_assoc).
  assert (D2 : drop (S (length (lbracket :: host))) ((lbracket :: host ++ [rbracket]) ++ colon :: port) = colon :: port)
    by (rewrite E', drop_S_app; done).
  rewrite D1, D2. rewrite (bool_decide_false (lbracket ∈ _)) by set_solver.
  rewrite (bool_decide_false (rbracket ∈ _)) by set_solver.
  rewrite drop_S_app. cbn [length]. rewrite Nat.sub_succ, Nat.sub_0_r, take_app_length. done.
Qed.

Lemma SplitHostPort_colons host port :
  plain host -> colon ∈ host -> colon ∉ port ->
  exists e, SplitHostPort (host ++ s2b ":" ++ port) = Err e.
Proof.
  intros [Hl Hr] Hc Pc. unfold SplitHostPort. change (s2b ":" ++ port) with (colon :: port).
  rewrite LastIndexByte_app by done.
  rewrite decide_False; [|destruct host; cbn; [by intros [=]|intros [= ->]; set_solver]].
  rewrite take_app_length, bool_decide_true by done. eauto.
Qed.

(** Digits are none of the special characters. *)
Lemma Itoa_plain n : 0 <= n < 2 ^ 64 -> plain (Itoa n) /\ colon ∉ Itoa n /\ Itoa n <> [].
Proof.
  intros Hn. destruct (Itoa_spec n Hn) as (_ & Hd & Hne).
  assert (Hx : forall x, is_digit x = false -> x ∉ Itoa n).
  { intros x Hx Hin. rewrite forallb_forall in Hd. apply list_elem_of_In, Hd in Hin. congruence. }
  split_and!; [split|..]; auto; by apply Hx.
Qed.

(** A dotted address is free of them too. *)
Lemma String4_plain a b c d : plain (String4 [a; b; c; d]) /\ colon ∉ String4 [a; b; c; d].
Proof.
  assert (Hx : forall x, is_digit x = false -> x <> dot -> x ∉ String4 [a; b; c; d]).
  { intros x Hx Hd. assert (Hi : forall y : byte, x ∉ Itoa (bval y)).
    { intros y Hin. pose proof (bval_range y). destruct (Itoa_spec (bval y)) as (_ & Hall & _); [lia|].
      rewrite forallb_forall in Hall. apply list_elem_of_In, Hall in Hin. congruence. }
    unfold String4. intros Hin.
    repeat (apply elem_of_app in Hin as [Hin|Hin]; [by apply Hi in Hin|];
            apply elem_of_cons in Hin as [Hin|Hin]; [done|]).
    by apply Hi in Hin. }
  split; [split|]; by apply Hx.
Qed.

Lemma resolve_split s port ip n :
  s <> [] -> port <> [] -> ParseIP s = Some ip -> ParsePort port = Ret n ->
  forall a, SplitHostPort a = Ret (s, port) -> ResolveAddr a = Ret (ip, n).
Proof.
  intros Hs Hp Hip Hn a Ha. unfold ResolveAddr. rewrite Ha, !decide_False by done. by rewrite Hip, Hn.
Qed.

(** The second attempt puts the brackets around everything before the last colon. *)
Lemma resolve_fallback s port ip n :
  colon ∈ s -> plain s -> plain port -> colon ∉ port ->
  s <> [] -> port <> [] -> ParseIP s = Some ip -> ParsePort port = Ret n ->
  ResolveAddr (s ++ s2b ":" ++ port) = Ret (ip, n).
Proof.
  intros Hc Hs Hp Hpc Hne Hpe Hip Hn. unfold ResolveAddr.
  destruct (SplitHostPort_colons s port Hs Hc Hpc) as [e ->].
  change (s2b ":" ++ port) with (colon :: port). rewrite Split_app, (Split_none port) by done.
  rewrite length_app. cbn [length]. pose proof (Split_length s colon Hc).
  rewrite (proj2 (Nat.leb_gt _ _)) by lia. rewrite Nat.add_sub, take_app_length, Join_Split.
  rewrite app_nth2, Nat.sub_diag by lia. cbn [nth].
  by rewrite SplitHostPort_brackets, !decide_False, Hip, Hn.
Qed.

(** ** Properties *)

(** An IP address with a port is understood in every usual spelling: the form
    net.JoinHostPort prints (brackets around an IPv6 address) and the form without
    brackets give the address and the port, for every textual IP address and every port
    from 0 to 65535; and whatever ResolveAddr accepts is a 16-byte address with a port
    in that range. *)
Theorem resolve_addr_spec s ip n :
  ParseIP s = Some ip -> plain s -> 0 <= n < 65536 ->
  ResolveAddr (JoinHostPort s (Itoa n)) = Ret (ip, n) /\
  ResolveAddr (s ++ s2b ":" ++ Itoa n) = Ret (ip, n) /\
  forall a ip' n', ResolveAddr a = Ret (ip', n') -> length ip' = 16%nat /\ 0 <= n' < 65536.
Proof.
  intros Hip Hs Hn. destruct (Itoa_plain n) as (Hp & Hpc & Hpe); [lia|].
  assert (Hne : s <> []) by (by intros ->). 
  assert (Hport : ParsePort (Itoa n) = Ret n) by (unfold ParsePort; by rewrite ParseUint_Itoa by lia).
  split_and!.
  - unfold JoinHostPort. case_decide as Hc; apply (resolve_split s (Itoa n)); try done.
    + by apply SplitHostPort_brackets.
    + by apply SplitHostPort_simple.
  - destruct (decide (colon ∈ s)) as [Hc|Hc]; [by apply resolve_fallback|].
    apply (resolve_split s (Itoa n)); try done. by apply SplitHostPort_simple.
  - intros a ip' n' E. unfold ResolveAddr in E. repeat case_match; simplify_eq.
    all: match goal with H : ParseIP _ = Some _ |- _ => apply ParseIP_length in H; split; [done|] end.
    all: unfold ParsePort in *; repeat case_match; simplify_eq;
      match goal with H : ParseUint 16 _ = Some _ |- _ => by apply ParseUint_range in H end.
Qed.

Lemma resolve_addr_spec_witness :
  ResolveAddr (s2b "[fe80::1]:443") =
    Ret ([Byte.xfe; Byte.x80] ++ replicate 13 Byte.x00 ++ [Byte.x01], 443) /\
  ResolveAddr (s2b "fe80::1:443") =
    Ret ([Byte.xfe; Byte.x80] ++ replicate 13 Byte.x00 ++ [Byte.x01], 443).
Proof.
  destruct (resolve_addr_spec (s2b "fe80::1") ([Byte.xfe; Byte.x80] ++ replicate 13 Byte.x00 ++ [Byte.x01]) 443)
    as (H1 & H2 & _); [vm_compute; reflexivity| |lia|split; [exact H1|exact H2]].
  split; apply (bool_decide_unpack _); vm_compute; exact I.
Defined.
