(* ===== verification/Base64.v ===== *)
(** * Base64 and hexadecimal text (encoding/base64, encoding/hex)

    The certificates of the obfs4 transport and the credentials of HTTP proxies are
    stored as standard base64, the node identifiers and keys as hexadecimal.  The
    functions are transcribed from the Go standard library;
    [DecodeString_EncodeToString] is what the components use. *)
From S2P Require Import Prelude Strconv NetAddr.
Local Open Scope Z_scope.

Definition alphabet : bytes := s2b "ABCDEFGHIJKLMNOPQRSTUVWXYZabcdefghijklmnopqrstuvwxyz0123456789+/".
Definition padChar : byte := Byte.x3d.

Definition encode6 (v : Z) : byte := nth (Z.to_nat (Z.land v 0x3f)) alphabet Byte.x00.
Definition decodeMap (c : byte) : option Z := Z.of_nat <$> IndexByte alphabet c.

(** [StdEncoding.EncodeToString] *)
Fixpoint EncodeToString (src : bytes) : bytes :=
  match src with
  | [] => []
  | [a] =>
      let val := Z.shiftl (bval a) 16 in
      [encode6 (Z.shiftr val 18); encode6 (Z.shiftr val 12); padChar; padChar]
  | [a; b] =>
      let val := Z.lor (Z.shiftl (bval a) 16) (Z.shiftl (bval b) 8) in
      [encode6 (Z.shiftr val 18); encode6 (Z.shiftr val 12); encode6 (Z.shiftr val 6); padChar]
  | a :: b :: c :: src' =>
      let val := Z.lor (Z.shiftl (bval a) 16) (Z.lor (Z.shiftl (bval b) 8) (bval c)) in
      encode6 (Z.shiftr val 18) :: encode6 (Z.shiftr val 12) :: encode6 (Z.shiftr val 6) :: encode6 val
        :: EncodeToString src'
  end.

Definition is_newline (c : byte) : bool := bool_decide (c = Byte.x0a \/ c = Byte.x0d).
Fixpoint skip_newlines (s : bytes) : bytes :=
  match s with c :: s' => if is_newline c then skip_newlines s' else s | [] => [] end.

Definition CorruptInputError : error := ErrMsg "illegal base64 data".

(** [decodeQuantum]: the digits of one group, before a padding or the end of the
    input, and the rest. *)
Fixpoint quantum (dbuf : list Z) (src : bytes) : res (list Z * bytes) :=
  match src with
  | [] => if dbuf is [] then Ret ([], []) else Err CorruptInputError
  | c :: src' =>
      match decodeMap c with
      | Some v => if (length dbuf =? 3)%nat then Ret (dbuf ++ [v], src') else quantum (dbuf ++ [v]) src'
      | None =>
          if is_newline c then quantum dbuf src'
          else if negb (bool_decide (c = padChar)) then Err CorruptInputError
          else
            let finish s := if skip_newlines s is [] then Ret (dbuf, []) else Err CorruptInputError in
            match dbuf with
            | [] | [_] => Err CorruptInputError
            | [_; _] =>
                match skip_newlines src' with
                | [] => Err CorruptInputError
                | d :: s => if decide (d = padChar) then finish s else Err CorruptInputError
                end
            | _ => finish src'
            end
      end
  end.

(** The bytes of a group, the digits it lacks being 0. *)
Definition quantum_bytes (dbuf : list Z) : bytes :=
  let d i := nth i dbuf 0 in
  let val := Z.lor (Z.shiftl (d 0%nat) 18) (Z.lor (Z.shiftl (d 1%nat) 12) (Z.lor (Z.shiftl (d 2%nat) 6) (d 3%nat))) in
  take (length dbuf - 1) [to_byte (Z.shiftr val 16); to_byte (Z.shiftr val 8); to_byte val].

(** [StdEncoding.DecodeString]; every group takes at least one byte, so that the length
    of the input is enough fuel. *)
Fixpoint decode_loop (fuel : nat) (src : bytes) : res bytes :=
  match fuel with
  | O => Ret []
  | S fuel =>
      match src with
      | [] => Ret []
      | _ =>
          match quantum [] src with
          | Ret (dbuf, src') =>
              match decode_loop fuel src' with Ret bs => Ret (quantum_bytes dbuf ++ bs) | r => r end
          | Err e => Err e
          | Panic p => Panic p
          end
      end
  end.
Definition DecodeString (s : bytes) : res bytes := decode_loop (length s) s.

(** [hex.EncodeToString] *)
Fixpoint HexEncode (src : bytes) : bytes :=
  match src with
  | [] => []
  | b :: src' => hex_digit (Z.shiftr (bval b) 4) :: hex_digit (Z.land (bval b) 0xf) :: HexEncode src'
  end.

(** ** Lemmas *)

Definition digit6 (v : Z) : Prop := 0 <= v < 64.

Lemma decodeMap_encode6 v : digit6 v -> decodeMap (encode6 v) = Some v.
Proof.
  intros Hv. unfold digit6 in Hv.
  assert (Hall : forallb (fun n => bool_decide (decodeMap (encode6 (Z.of_nat n)) = Some (Z.of_nat n))) (seq 0 64) = true)
    by (vm_compute; reflexivity).
  rewrite forallb_forall in Hall. specialize (Hall (Z.to_nat v)).
  rewrite Z2Nat.id in Hall by lia. apply bool_decide_eq_true in Hall; [done|]. apply in_seq. lia.
Qed.

Lemma land63 v : digit6 (Z.land v 0x3f) /\ encode6 (Z.land v 0x3f) = encode6 v.
Proof.
  unfold encode6. change 0x3f with (2 ^ 6 - 1). rewrite !land_ones_mod by lia.
  change (2 ^ 6) with 64. unfold digit6. split; [mlia|]. by rewrite Z.mod_mod.
Qed.

Lemma decodeMap_pad : decodeMap padChar = None.
Proof. reflexivity. Qed.

Lemma quantum_digit dbuf v src :
  quantum dbuf (encode6 v :: src) =
    if (length dbuf =? 3)%nat then Ret (dbuf ++ [Z.land v 0x3f], src) else quantum (dbuf ++ [Z.land v 0x3f]) src.
Proof. rewrite <- (proj2 (land63 v)). cbn [quantum]. by rewrite decodeMap_encode6 by apply land63. Qed.

Lemma quantum_pad2 a b : quantum [a; b] [padChar; padChar] = Ret ([a; b], []).
Proof. reflexivity. Qed.
Lemma quantum_pad1 a b c : quantum [a; b; c] [padChar] = Ret ([a; b; c], []).
Proof. reflexivity. Qed.

(** What the three kinds of group decode to. *)
Lemma lor16 a b : 0 <= b < 2 ^ 16 -> Z.lor (Z.shiftl a 16) b = a * 65536 + b.
Proof. intros. by rewrite lor_shiftl_add by lia. Qed.
Lemma lor8 a b : 0 <= b < 2 ^ 8 -> Z.lor (Z.shiftl a 8) b = a * 256 + b.
Proof. intros. by rewrite lor_shiftl_add by lia. Qed.

(** The 24 bits of a group, cut into digits and put together again. *)
Lemma group_value v :
  0 <= v < 2 ^ 24 ->
  Z.lor (Z.shiftl (Z.land (Z.shiftr v 18) 0x3f) 18) (Z.lor (Z.shiftl (Z.land (Z.shiftr v 12) 0x3f) 12)
    (Z.lor (Z.shiftl (Z.land (Z.shiftr v 6) 0x3f) 6) (Z.land v 0x3f))) = v.
Proof.
  intros Hv. change 0x3f with (2 ^ 6 - 1). rewrite !land_ones_mod, !Z.shiftr_div_pow2 by lia.
  change (2 ^ 6) with 64. change (2 ^ 12) with 4096. change (2 ^ 18) with 262144. change (2 ^ 24) with 16777216 in Hv.
  rewrite (lor_shiftl_add _ (v mod 64) 6) by (change (2 ^ 6) with 64; mlia).
  rewrite (lor_shiftl_add _ _ 12) by (change (2 ^ 12) with 4096; change (2 ^ 6) with 64; mlia).
  rewrite (lor_shiftl_add _ _ 18) by (change (2 ^ 18) with 262144; change (2 ^ 12) with 4096; change (2 ^ 6) with 64; mlia).
  change (2 ^ 6) with 64. change (2 ^ 12) with 4096. change (2 ^ 18) with 262144. mlia.
Qed.

Lemma to_byte_eq z b : z mod 256 = bval b -> to_byte z = b.
Proof. intros H. apply bval_inj. by rewrite bval_to_byte. Qed.

Lemma bytes_of_group a b c :
  let v := bval a * 65536 + (bval b * 256 + bval c) in
  [to_byte (Z.shiftr v 16); to_byte (Z.shiftr v 8); to_byte v] = [a; b; c].
Proof.
  bval_bounds.
  cbv zeta. rewrite !Z.shiftr_div_pow2 by lia. change (2 ^ 16) with 65536. change (2 ^ 8) with 256.
  do 2 f_equal; [|f_equal|do 2 f_equal]; apply to_byte_eq; mlia.
Qed.

Definition group_digits (v : Z) : list Z :=
  [Z.land (Z.shiftr v 18) 0x3f; Z.land (Z.shiftr v 12) 0x3f; Z.land (Z.shiftr v 6) 0x3f; Z.land v 0x3f].

Lemma quantum_bytes_group a b c :
  quantum_bytes (group_digits (bval a * 65536 + (bval b * 256 + bval c))) = [a; b; c].
Proof.
  bval_bounds.
  unfold quantum_bytes, group_digits. cbn [length nth Nat.sub].
  rewrite group_value by lia. by rewrite bytes_of_group.
Qed.

Lemma land63_mod v : Z.land v 0x3f = v mod 64.
Proof. change 0x3f with (2 ^ 6 - 1). by rewrite land_ones_mod by lia. Qed.

(** A shorter group lacks digits that are 0. *)
Lemma quantum_bytes_1 a :
  let v := Z.shiftl (bval a) 16 in
  quantum_bytes [Z.land (Z.shiftr v 18) 0x3f; Z.land (Z.shiftr v 12) 0x3f] = [a].
Proof.
  cbv zeta. pose proof (quantum_bytes_group a Byte.x00 Byte.x00) as H.
  change (bval Byte.x00 * 256 + bval Byte.x00) with 0 in H. rewrite Z.add_0_r in H.
  rewrite Z.shiftl_mul_pow2 by lia. change (2 ^ 16) with 65536.
  unfold group_digits in H. rewrite (land63_mod (bval a * 65536)), (land63_mod (Z.shiftr (bval a * 65536) 6)) in H.
  rewrite (Z.shiftr_div_pow2 _ 6) in H by lia. change (2 ^ 6) with 64 in H.
  replace ((bval a * 65536 / 64) mod 64) with 0 in H by mlia.
  replace ((bval a * 65536) mod 64) with 0 in H by mlia.
  unfold quantum_bytes in *. cbn [length nth Nat.sub take] in *. congruence.
Qed.

Lemma quantum_bytes_2 a b :
  let v := Z.lor (Z.shiftl (bval a) 16) (Z.shiftl (bval b) 8) in
  quantum_bytes [Z.land (Z.shiftr v 18) 0x3f; Z.land (Z.shiftr v 12) 0x3f; Z.land (Z.shiftr v 6) 0x3f] = [a; b].
Proof.
  cbv zeta. pose proof (quantum_bytes_group a b Byte.x00) as H. pose proof (bval_range b).
  change (bval Byte.x00) with 0 in H. rewrite Z.add_0_r in H.
  rewrite (Z.shiftl_mul_pow2 (bval b)) by lia. change (2 ^ 8) with 256. rewrite lor16 by (change (2 ^ 16) with 65536; lia).
  unfold group_digits in H. rewrite (land63_mod (bval a * 65536 + bval b * 256)) in H.
  replace ((bval a * 65536 + bval b * 256) mod 64) with 0 in H by mlia.
  unfold quantum_bytes in *. cbn [length nth Nat.sub take] in *. congruence.
Qed.

(** Decoding inverts encoding; the fuel is the length of the text or more. *)
Lemma decode_loop_encode n bs fuel :
  (length bs <= n)%nat -> (length (EncodeToString bs) <= fuel)%nat -> decode_loop fuel (EncodeToString bs) = Ret bs.
Proof.
  revert bs fuel. induction n as [n IH] using lt_wf_ind. intros bs fuel Hn Hf.
  destruct fuel as [|fuel].
  { destruct bs as [|a [|b [|c bs]]]; cbn in Hf; [done|lia..]. }
  destruct bs as [|a [|b [|c bs]]]; [done|..]; cbn [EncodeToString decode_loop length] in *.
  - rewrite !quantum_digit. cbn [length Nat.eqb app].
    rewrite quantum_pad2. destruct fuel; cbn [decode_loop]; by rewrite quantum_bytes_1.
  - rewrite !quantum_digit. cbn [length Nat.eqb app].
    rewrite quantum_pad1. destruct fuel; cbn [decode_loop]; by rewrite quantum_bytes_2.
  - rewrite !quantum_digit. cbn [length Nat.eqb app].
    rewrite (IH (length bs)) by lia.
    bval_bounds.
    rewrite lor8, lor16 by lia. fold (group_digits (bval a * 65536 + (bval b * 256 + bval c))).
    by rewrite quantum_bytes_group.
Qed.

Lemma DecodeString_EncodeToString bs : DecodeString (EncodeToString bs) = Ret bs.
Proof. by apply (decode_loop_encode (length bs)). Qed.

(** A text whose length leaves one byte over ends with two padding characters, and
    those only. *)
Lemma EncodeToString_padded bs :
  (length bs mod 3 = 1)%nat -> exists s, EncodeToString bs = s ++ [padChar; padChar] /\ (4 * length bs + 2 = 3 * length s)%nat.
Proof.
  intros Hm. remember (length bs) as n eqn:E. revert bs E Hm.
  induction n as [n IH] using lt_wf_ind. intros bs -> Hm.
  destruct bs as [|a [|b [|c bs]]]; [done|..|].
  - eexists [_; _]. split; reflexivity.
  - done.
  - destruct (IH (length bs)) with (bs := bs) as (s & Es & Hs); [cbn; lia|done| |].
    { cbn [length] in Hm. replace (S (S (S (length bs)))) with (length bs + 1 * 3)%nat in Hm by lia.
      by rewrite Nat.Div0.mod_add in Hm. }
    cbn [EncodeToString]. rewrite Es. eexists (_ :: _ :: _ :: _ :: s). split; [reflexivity|]. cbn [length]. lia.
Qed.

Lemma length_HexEncode bs : length (HexEncode bs) = (2 * length bs)%nat.
Proof. induction bs as [|b bs IH]; cbn [HexEncode length]; lia. Qed.
