(* ===== verification/Config.v ===== *)
(** * The configuration (common/configuration/config.go)

    The entries of the configuration file as the program sees them once they are
    parsed; an absent field is the empty string.  The JSON text itself is the business
    of encoding/json. *)
From S2P Require Import Prelude.

(** [ObfsIatMode] *)
Definition ObfsIatMode : bytes := s2b "0".

Record JsonServerConfigImpl := ServerConfig {
  sc_Type : bytes;
  sc_Listen : bytes;
  sc_UseExternalService : bool;
  sc_ExternalServiceAddress : bytes;
  sc_Cert : bytes;
  sc_PrivateKey : bytes;
  sc_EncKey : bytes;
  sc_Protocol : bytes;
  sc_HttpAddr : bytes;
  sc_HttpsAddr : bytes;
  sc_TlsCertFile : bytes;
  sc_TlsKeyFile : bytes;
  sc_AcmeEmail : bytes;
  sc_AcmeDomain : bytes;
  sc_SelfSigned : bool;
  sc_Redirect : bytes;
  sc_CertDir : bytes;
  sc_SocksBind : bytes }.

Record JsonClientConfigImpl := ClientConfig {
  cl_Type : bytes;
  cl_Listen : bytes;
  cl_Address : bytes;
  cl_UseExternalService : bool;
  cl_Cert : bytes;
  cl_EncKey : bytes;
  cl_Protocol : bytes;
  cl_Sni : bytes;
  cl_Insecure : bool;
  cl_HttpProxyAddr : bytes;
  cl_FollowRedirect : option bool;
  cl_DnsUpstream : bytes;
  cl_DnsNetwork : bytes;
  cl_FrontHost : bytes;
  cl_FrontIP : bytes;
  cl_Verbose : bool;
  cl_Proxy : bytes;
  cl_ForwardBind : bytes }.

Record JsonConfigImpl := JsonConfig {
  jc_Server : list JsonServerConfigImpl;
  jc_Client : list JsonClientConfigImpl }.

(** [c.ExternalServiceAddress = a] and [s.Cert = cert; s.PrivateKey = privateKey]. *)
Definition set_external (a : bytes) (c : JsonServerConfigImpl) : JsonServerConfigImpl :=
  ServerConfig (sc_Type c) (sc_Listen c) (sc_UseExternalService c) a (sc_Cert c) (sc_PrivateKey c)
    (sc_EncKey c) (sc_Protocol c) (sc_HttpAddr c) (sc_HttpsAddr c) (sc_TlsCertFile c) (sc_TlsKeyFile c)
    (sc_AcmeEmail c) (sc_AcmeDomain c) (sc_SelfSigned c) (sc_Redirect c) (sc_CertDir c) (sc_SocksBind c).
Definition set_identity (cert privateKey : bytes) (c : JsonServerConfigImpl) : JsonServerConfigImpl :=
  ServerConfig (sc_Type c) (sc_Listen c) (sc_UseExternalService c) (sc_ExternalServiceAddress c) cert privateKey
    (sc_EncKey c) (sc_Protocol c) (sc_HttpAddr c) (sc_HttpsAddr c) (sc_TlsCertFile c) (sc_TlsKeyFile c)
    (sc_AcmeEmail c) (sc_AcmeDomain c) (sc_SelfSigned c) (sc_Redirect c) (sc_CertDir c) (sc_SocksBind c).

(** An entry with the given type and listen address and nothing else. *)
Definition server_entry (ty listen : bytes) : JsonServerConfigImpl :=
  ServerConfig ty listen false [] [] [] [] [] [] [] [] [] [] [] false [] [] [].
Definition client_entry (ty listen address : bytes) : JsonClientConfigImpl :=
  ClientConfig ty listen address false [] [] [] [] false [] None [] [] [] [] false [] [].
