(* ===== verification/Obfs.v ===== *)
(** * The obfs4 server: identity and set-up (obfs/server/server.go, main/ptbridge.go)

    An obfs4 server is known to its clients by a certificate, the node identifier and
    the public key in base64 without the padding.  The program generates a missing
    identity once, stores it in the configuration, and rebuilds from it the arguments
    the transport library needs. *)
From S2P Require Import Prelude Strconv NetAddr Urls Base64 Config.

(** What the program uses of the ntor package: fixed sizes, a node identifier made
    from raw bytes, and key pairs. *)
Class Ntor (NodeID Keypair : Type) := {
  NodeIDLength : nat;
  PublicKeyLength : nat;
  NewNodeID : bytes -> res NodeID;
  NodeID_Bytes : NodeID -> bytes;
  Public_Bytes : Keypair -> bytes;
  Private_Hex : Keypair -> bytes }.

(** The documented behaviour: 20 and 32 bytes; [NewNodeID] keeps the bytes it is given
    and refuses only those of another length. *)
Class NtorLaws (NodeID Keypair : Type) `{Ntor NodeID Keypair} := {
  node_id_length : NodeIDLength = 20;
  public_key_length : PublicKeyLength = 32;
  new_node_id raw id : NewNodeID raw = Ret id -> NodeID_Bytes id = raw /\ length raw = NodeIDLength;
  public_bytes kp : length (Public_Bytes kp) = PublicKeyLength;
  private_hex kp : Private_Hex kp <> [] }.

Section Identity.
Context {NodeID Keypair : Type} {HN : Ntor NodeID Keypair}.

Definition obfs4CertRawLength : nat := NodeIDLength + PublicKeyLength.

Definition encodeObfs4Cert (nodeID : NodeID) (kp : Keypair) : bytes :=
  TrimSuffix (EncodeToString (NodeID_Bytes nodeID ++ Public_Bytes kp)) (s2b "==").

(** One draw of randomness: the raw node identifier and the key pair, or the error of
    the generator. *)
Definition draw : Type := res bytes * res Keypair.

Definition GenerateIdentity (d : draw) : res (bytes * bytes) :=
  rawID ← d.1;
  nodeID ← NewNodeID rawID;
  keypair ← d.2;
  mret (encodeObfs4Cert nodeID keypair, Private_Hex keypair).

(** [pt.Args]: a key can have several values. *)
Definition Args : Type := gmap bytes (list bytes).
Definition Args_Add (key value : bytes) (args : Args) : Args :=
  <[key := default [] (args !! key) ++ [value]]> args.

Definition obfs4ArgsFromConfig (NewSeed : res bytes) (cert privateKey : bytes) : res Args :=
  if decide (privateKey = []) then Err (ErrMsg "missing private-key for obfs4 certificate")
  else
    match DecodeString (cert ++ s2b "==") with
    | Ret decoded =>
        if negb (length decoded =? obfs4CertRawLength) then Err (ErrMsg "cert length is invalid")
        else
          seed ← NewSeed;
          mret (Args_Add (s2b "iat-mode") ObfsIatMode
                 (Args_Add (s2b "drbg-seed") seed
                   (Args_Add (s2b "private-key") privateKey
                     (Args_Add (s2b "node-id") (HexEncode (take NodeIDLength decoded)) ∅))))
    | Err e => Err e
    | Panic p => Panic p
    end.

(** ** ensureServerCerts *)

(** The loop over the server entries; [i] counts the identities generated.  [Err] is
    [PTLog.Fatal], which ends the process. *)
Fixpoint ensure_loop (draws : nat -> draw) (i : nat) (servers : list JsonServerConfigImpl)
    : res (list JsonServerConfigImpl * nat) :=
  match servers with
  | [] => Ret ([], i)
  | s :: servers' =>
      if negb (bool_decide (sc_Type s = s2b "obfs4")) || negb (bool_decide (sc_Cert s = [])) then
        '(rest, n) ← ensure_loop draws i servers';
        mret (s :: rest, n)
      else
        '(cert, privateKey) ← GenerateIdentity (draws i);
        '(rest, n) ← ensure_loop draws (S i) servers';
        mret (set_identity cert privateKey s :: rest, n)
  end.

(** The configuration the program goes on with, and what is in the file: the
    configuration is saved when an identity was generated.  [save_error] is the outcome
    of writing the file. *)
Definition ensureServerCerts (draws : nat -> draw) (save_error : option error) (config file : JsonConfigImpl)
    : res (JsonConfigImpl * JsonConfigImpl) :=
  '(servers, n) ← ensure_loop draws 0 (jc_Server config);
  let config' := JsonConfig servers (jc_Client config) in
  if bool_decide (n = 0) then mret (config', file)
  else match save_error with Some e => Err e | None => mret (config', config') end.

(** ** Set-up of a server entry *)

(** The environment: which addresses answer, the transport library (a factory can be
    nil), the temporary directory, the TCP listener. *)
Record env := Env {
  IsTcpOpen : bytes -> bytes -> bool;
  transports_Get : bytes -> bool;
  MkdirTemp : option error;
  ServerFactory : bytes -> Args -> res bool;
  ListenTCP : bytes * Z -> option error }.

(** A server that was launched: the arguments its factory was made with, the address it
    was to listen on, the address it forwards to, and whether it does listen. *)
Record obfs_server := ObfsServer {
  os_transport : bytes; os_options : Args; os_bind : bytes * Z; os_OrAddr : bytes * Z; os_listening : bool }.

Definition getPtServerInfo (config : JsonServerConfigImpl) : res ((bytes * Z) * (bytes * Z)) :=
  addr ← ResolveAddr (sc_Listen config);
  or_addr ← ResolveAddr (sc_ExternalServiceAddress config);
  mret (addr, or_addr).

Definition Setup (E : env) (NewSeed : res bytes) (config : JsonServerConfigImpl) : res obfs_server :=
  match Split (sc_Listen config) colon with
  | [host; port] =>
      if IsTcpOpen E port host then Err (ErrMsg "Service port already in use")
      else
        options ← (if bool_decide (sc_Type config = s2b "obfs4") && negb (bool_decide (sc_Cert config = []))
                   then obfs4ArgsFromConfig NewSeed (sc_Cert config) (sc_PrivateKey config)
                   else mret ∅);
        '(addr, or_addr) ← getPtServerInfo config;
        if negb (transports_Get E (sc_Type config)) then Err (ErrMsg "no such transport is supported")
        else
          match MkdirTemp E with
          | Some e => Err e
          | None =>
              f ← ServerFactory E (sc_Type config) options;
              if negb f then Err (ErrMsg "Can't initiate server factory.")
              else
                mret (ObfsServer (sc_Type config) options addr or_addr
                        (if ListenTCP E addr is None then true else false))
          end
  | _ => Err (ErrMsg "Invalid ipv4 service address format")
  end.
End Identity.

(** ** Lemmas *)

Lemma TrimSuffix_app s p : TrimSuffix (s ++ p) p = s.
Proof. unfold TrimSuffix. by rewrite rev_app_distr, TrimPrefix_app, rev_involutive. Qed.

Section Properties.
Context {NodeID Keypair : Type} {HN : Ntor NodeID Keypair} {laws : NtorLaws NodeID Keypair}.

Lemma cert_decodes rawID id (kp : Keypair) :
  NewNodeID rawID = Ret id ->
  DecodeString (encodeObfs4Cert id kp ++ s2b "==") = Ret (rawID ++ Public_Bytes kp) /\ encodeObfs4Cert id kp <> [].
Proof.
  intros (Hid & Hl)%new_node_id. unfold encodeObfs4Cert. rewrite Hid.
  destruct (EncodeToString_padded (rawID ++ Public_Bytes kp)) as (s & Es & Hs).
  { by rewrite length_app, Hl, public_bytes, node_id_length, public_key_length. }
  change [padChar; padChar] with (s2b "==") in Es. rewrite Es, TrimSuffix_app, <- Es.
  rewrite DecodeString_EncodeToString. split; [done|].
  intros ->. rewrite length_app, Hl, node_id_length in Hs. cbn in Hs. lia.
Qed.

(** The arguments of a server with the identity [id], [kp]. *)
Definition identity_args (id : NodeID) (kp : Keypair) (seed : bytes) (args : Args) : Prop :=
  args !! s2b "node-id" = Some [HexEncode (NodeID_Bytes id)] /\
  args !! s2b "private-key" = Some [Private_Hex kp] /\
  args !! s2b "drbg-seed" = Some [seed] /\
  args !! s2b "iat-mode" = Some [ObfsIatMode].

Lemma args_of_identity rawID id (kp : Keypair) seed :
  NewNodeID rawID = Ret id ->
  exists args, obfs4ArgsFromConfig (Ret seed) (encodeObfs4Cert id kp) (Private_Hex kp) = Ret args /\
    identity_args id kp seed args.
Proof.
  intros Hn. destruct (cert_decodes _ _ kp Hn) as [Hc _]. apply new_node_id in Hn as [Hid Hl].
  unfold obfs4ArgsFromConfig. rewrite decide_False by apply private_hex. rewrite Hc.
  unfold obfs4CertRawLength. rewrite length_app, Hl, public_bytes, Nat.eqb_refl. cbn [negb mbind res_bind].
  eexists. split; [reflexivity|].
  rewrite take_app_length' by done. rewrite <- Hid. unfold identity_args.
  split_and!; reflexivity.
Qed.

(** What an entry becomes: obfs4 entries without a certificate get one. *)
Definition needs_cert (s : JsonServerConfigImpl) : Prop := sc_Type s = s2b "obfs4" /\ sc_Cert s = [].
Definition completed (draws : nat -> draw) (s s' : JsonServerConfigImpl) : Prop :=
  (~ needs_cert s /\ s' = s) \/
  (needs_cert s /\ exists i rawID id (kp : Keypair),
     draws i = (Ret rawID, Ret kp) /\ NewNodeID rawID = Ret id /\
     s' = set_identity (encodeObfs4Cert id kp) (Private_Hex kp) s).

Lemma needs_cert_test (s : JsonServerConfigImpl) :
  negb (bool_decide (sc_Type s = s2b "obfs4")) || negb (bool_decide (sc_Cert s = [])) = false <-> needs_cert s.
Proof.
  unfold needs_cert. rewrite orb_false_iff, !negb_false_iff, !bool_decide_eq_true. done.
Qed.

Lemma GenerateIdentity_inv (d : draw) cert pk :
  GenerateIdentity d = Ret (cert, pk) ->
  exists rawID id kp, d = (Ret rawID, Ret kp) /\ NewNodeID rawID = Ret id /\
    cert = encodeObfs4Cert id kp /\ pk = Private_Hex kp.
Proof.
  destruct d as [[rawID|e|p] rk]; cbn; [|done..]. destruct (NewNodeID rawID) as [id|e|p] eqn:E; cbn; [|done..].
  destruct rk as [kp|e|p]; cbn; [|done..]. intros [= <- <-]. eauto 8.
Qed.

Lemma ensure_loop_spec draws servers i out n :
  ensure_loop draws i servers = Ret (out, n) ->
  Forall2 (completed draws) servers out /\ i <= n /\ (n = i -> out = servers).
Proof.
  revert i out n. induction servers as [|s servers IH]; intros i out n; cbn [ensure_loop].
  { intros [= <- <-]. eauto. }
  destruct (_ || _) eqn:T; cbn.
  - destruct (ensure_loop draws i servers) as [[rest m]|e|p] eqn:E; cbn; [|done..]. intros [= <- <-].
    apply IH in E as (HF & Hle & Heq). split_and!; [|done|by intros; f_equal; auto].
    constructor; [left; split; [|done]|done]. rewrite <- needs_cert_test. congruence.
  - destruct (GenerateIdentity (draws i)) as [[cert pk]|e|p] eqn:G; cbn; [|done..].
    destruct (ensure_loop draws (S i) servers) as [[rest m]|e|p] eqn:E; cbn; [|done..]. intros [= <- <-].
    apply GenerateIdentity_inv in G as (rawID & id & kp & Hd & Hn & -> & ->).
    apply IH in E as (HF & Hle & Heq). split_and!; [|lia|lia].
    constructor; [right; rewrite <- needs_cert_test; eauto 10|done].
Qed.

(** A completed configuration has nothing left to generate. *)
Lemma completed_done draws s s' : completed draws s s' -> ~ needs_cert s'.
Proof.
  intros [[H ->]|(_ & i & rawID & id & kp & _ & Hn & ->)]; [done|].
  intros [_ Hc]. cbn in Hc. by apply (cert_decodes _ _ kp Hn).
Qed.

Lemma ensure_loop_done draws servers i :
  Forall (fun s => ~ needs_cert s) servers -> ensure_loop draws i servers = Ret (servers, i).
Proof.
  induction 1 as [|s servers Hs _ IH]; cbn [ensure_loop]; [done|].
  rewrite <- needs_cert_test, not_false_iff_true in Hs. rewrite Hs. cbn. by rewrite IH.
Qed.

(** The set-up of an entry uses the arguments rebuilt from its certificate. *)
Lemma Setup_options (E : env) seed config sv :
  sc_Type config = s2b "obfs4" -> sc_Cert config <> [] -> Setup E seed config = Ret sv ->
  obfs4ArgsFromConfig seed (sc_Cert config) (sc_PrivateKey config) = Ret (os_options sv).
Proof.
  intros Ht Hc. unfold Setup. destruct (Split _ _) as [|h [|q [|]]]; [done..| |done].
  destruct (IsTcpOpen _ _ _); [done|]. rewrite bool_decide_true, bool_decide_false by done. cbn [negb andb].
  destruct (obfs4ArgsFromConfig _ _ _) as [options|e|p]; cbn [mbind res_bind]; [|done..].
  destruct (getPtServerInfo config) as [[addr or_addr]|e|p]; cbn [mbind res_bind]; [|done..].
  destruct (transports_Get E _); [cbn [negb]|done]. destruct (MkdirTemp E); [done|].
  destruct (ServerFactory E _ _) as [[]|e|p]; [|done..]. by intros [= <-].
Qed.

End Properties.

(** A toy ntor package, for the witness. *)
#[export] Instance toy_ntor : Ntor bytes bytes :=
  {| NodeIDLength := 20; PublicKeyLength := 32;
     NewNodeID raw := if decide (length raw = 20) then Ret raw else Err (ErrMsg "invalid NodeID length");
     NodeID_Bytes id := id; Public_Bytes k := take 32 (k ++ replicate 32 Byte.x00); Private_Hex k := HexEncode (Byte.x01 :: k) |}.
#[export] Instance toy_ntor_laws : NtorLaws bytes bytes.
Proof.
  split; [done|done| | |done].
  - intros raw id. cbn [NewNodeID toy_ntor]. case_decide; [|done]. by intros [= <-].
  - intros k. cbn [Public_Bytes toy_ntor PublicKeyLength]. rewrite length_take, length_app, length_replicate. lia.
Qed.

Definition demo_config : JsonConfigImpl :=
  JsonConfig [server_entry (s2b "obfs4") (s2b "127.0.0.1:4455"); server_entry (s2b "dpi") (s2b ":80")] [].
Definition demo_draws (i : nat) : res bytes * res bytes := (Ret (replicate 20 Byte.x07), Ret (replicate 32 (to_byte (Z.of_nat i)))).
Definition demo_completed : JsonConfigImpl :=
  JsonConfig [set_identity (encodeObfs4Cert (replicate 20 Byte.x07) (replicate 32 Byte.x00))
                (Private_Hex (replicate 32 Byte.x00)) (server_entry (s2b "obfs4") (s2b "127.0.0.1:4455"));
              server_entry (s2b "dpi") (s2b ":80")] [].

