(* ===== verification/ObfsClient.v ===== *)
(** * The obfs client (obfs/client/client.go)

    In standalone mode the client listens twice: the main listener serves SOCKS5 to the
    user and dials through the second one, which speaks the obfuscated transport; the
    certificate travels between the two as SOCKS5 credentials.  The copying itself is
    CopyLoop. *)
From S2P Require Import Prelude Strconv NetAddr Urls Config.

(** ** Dialers *)

(** [url.UserPassword], a SOCKS5 URL, and the dialers x/net/proxy makes of it:
    [proxy.SOCKS5(network, address, auth, forward)]. *)
Record url := MkUrl { ur_host : bytes; ur_user : option (bytes * bytes) }.
Inductive dialer :=
  | Direct
  | SOCKS5 (address : bytes) (auth : option (bytes * bytes)) (forward : dialer).

(** The hops a dialer makes for a destination: each is a SOCKS5 server that is asked,
    with credentials, to connect to the next. *)
Fixpoint hops (d : dialer) : list (bytes * option (bytes * bytes)) :=
  match d with
  | Direct => []
  | SOCKS5 address auth forward => hops forward ++ [(address, auth)]
  end.

(** What the code uses of the libraries: [proxy.FromURL], the outcome of dialing,
    [ErrorToReplyCode], and the transport's [ParseArgs] and [Dial]. *)
Class ObfsLib (Args : Type) := {
  FromURL : option url -> res dialer;
  dialer_Dial : dialer -> bytes -> option error;
  ErrorToReplyCode : error -> Z;
  f_ParseArgs : gmap bytes bytes -> res Args;
  f_Dial : bytes -> Args -> option error }.

(** A socks5 URL gives a SOCKS5 dialer with the URL's credentials; a nil URL is
    dereferenced. *)
Class ObfsLaws (Args : Type) `{ObfsLib Args} := {
  FromURL_socks5 u : FromURL (Some u) = Ret (SOCKS5 (ur_host u) (ur_user u) Direct);
  FromURL_nil : exists why, FromURL None = Panic why }.

Definition ReplySucceeded : Z := 0.
Definition ReplyGeneralFailure : Z := 1.

Section Handlers.
Context {A : Type} {HL : ObfsLib A}.

(** How a connection was served: the SOCKS replies, the way to the destination if it was
    bridged, and whether the goroutine panicked, which ends the process. *)
Inductive route :=
  | Through (path : list (bytes * option (bytes * bytes))) (target : bytes)
  | Obfuscated (target : bytes) (args : A).
Record served := Served { sv_replies : list Z; sv_bridged : option route; sv_crashed : bool }.

Definition refused (replies : list Z) : served := Served replies None false.

(** [request] is the SOCKS request the handshake returned: target and arguments;
    [reply_error] the outcome of writing the last reply. *)
Definition clientHandler (isInternal : bool) (config : JsonClientConfigImpl) (middleDialerUrl : option url)
    (request : res (bytes * gmap bytes bytes)) (reply_error : option error) : served :=
  match request with
  | Ret (target, args) =>
      let finish pre r := Served (pre ++ [ReplySucceeded]) (if reply_error is None then Some r else None) false in
      if isInternal then
        let through pre obfuscateDialer :=
          let d := SOCKS5 (cl_Address config) None obfuscateDialer in
          match dialer_Dial d target with
          | Some e => refused (pre ++ [ErrorToReplyCode e])
          | None => finish pre (Through (hops d) target)
          end in
        match FromURL middleDialerUrl with
        | Panic _ => Served [] None true
        | Err _ => through [ReplyGeneralFailure] Direct (* the handler goes on with a nil dialer *)
        | Ret obfuscateDialer => through [] obfuscateDialer
        end
      else
        match f_ParseArgs args with
        | Ret a =>
            match f_Dial target a with
            | Some e => refused [ErrorToReplyCode e]
            | None => finish [] (Obfuscated target a)
            end
        | _ => refused [ReplyGeneralFailure]
        end
  | _ => refused []
  end.

(** ** Set-up *)

(** A listener of the client and the arguments its accept loop passes to the handler. *)
Record listener := Listener { ln_addr : bytes; ln_internal : bool; ln_url : option url }.

Definition middle_url (config : JsonClientConfigImpl) (middleDialerAddress : bytes) : url :=
  MkUrl middleDialerAddress (Some (s2b "cert=" ++ cl_Cert config, s2b ";iat-mode=" ++ ObfsIatMode)).

(** [supported]: the transport and its factory exist; [open]: [IsTcpOpen]; [middle]: the
    address with a free port that was drawn; [listen]: the outcome of [net.Listen].
    [Err] is [PTLog.Fatal]. *)
Definition client_Setup (supported : bytes -> bool) (open : bytes -> bytes -> bool) (middle : bytes)
    (listen : bytes -> option error) (config : JsonClientConfigImpl) : res (list listener) :=
  if negb (supported (cl_Type config)) then Err (ErrMsg "no such transport is supported")
  else
    match Split (cl_Listen config) colon with
    | [host; port] =>
        if open port host then Err (ErrMsg "Address is not usable")
        else if negb (cl_UseExternalService config) then
          match listen middle with
          | Some e => Err e
          | None =>
              match listen (cl_Listen config) with
              | Some e => Err e
              | None => mret [Listener middle false None;
                              Listener (cl_Listen config) true (Some (middle_url config middle))]
              end
          end
        else
          match listen (cl_Listen config) with
          | Some e => Err e
          | None => mret [Listener (cl_Listen config) true None]
          end
    | _ => Err (ErrMsg "Invalid service ipv4 address <address>:<port>")
    end.

(** [clientAcceptLoop]: what happens to an accepted connection. *)
Definition accept_conn (l : listener) (config : JsonClientConfigImpl) (request : res (bytes * gmap bytes bytes))
    (reply_error : option error) : served :=
  clientHandler (ln_internal l) config (ln_url l) request reply_error.
End Handlers.

(** ** Properties *)

Section Properties.
Context {A : Type} {HL : ObfsLib A} {laws : ObfsLaws A}.

Lemma Setup_listeners supported open middle listen config ls :
  client_Setup supported open middle listen config = Ret ls ->
  ls = if cl_UseExternalService config then [Listener (cl_Listen config) true None]
       else [Listener middle false None; Listener (cl_Listen config) true (Some (middle_url config middle))].
Proof.
  unfold client_Setup. destruct (supported _); [|done]. cbn [negb].
  destruct (Split _ _) as [|h [|q [|]]]; [done..| |done]. destruct (open q h); [done|].
  destruct (cl_UseExternalService config); cbn [negb]; repeat case_match; try done; by intros [= <-].
Qed.

End Properties.

(** A library that refuses nothing, for the witness. *)
#[export] Instance toy_obfs : ObfsLib unit :=
  {| FromURL u := match u with
                  | Some u => Ret (SOCKS5 (ur_host u) (ur_user u) Direct)
                  | None => Panic "invalid memory address or nil pointer dereference"
                  end;
     dialer_Dial _ _ := None; ErrorToReplyCode _ := 5%Z; f_ParseArgs _ := Ret tt; f_Dial _ _ := None |}.
#[export] Instance toy_obfs_laws : ObfsLaws unit.
Proof. split; [done|by eexists]. Qed.
Definition demo_obfs : JsonClientConfigImpl := client_entry (s2b "obfs4") (s2b "127.0.0.1:1080") (s2b "192.0.2.1:443").

