(* ===== verification/Encapsulation.v ===== *)
(** * Package encapsulation (snowflake/common/encapsulation/encapsulation.go)

    Variable-size chunks of data and padding in a byte stream.  The operations
    are transcribed first; the documented wire format is then stated on its own
    as [len_prefix] and [padding], and the theorems relate the two. *)
From S2P Require Import Prelude GoIO.
Local Open Scope Z_scope.

(** ** Operations *)

(** The fields of the first byte of a length prefix, [dcxxxxxx]. *)
Definition isData (b : byte) : bool := negb (Z.land (bval b) 0x80 =? 0).
Definition moreLength0 (b : byte) : bool := negb (Z.land (bval b) 0x40 =? 0).
Definition bits0 (b : byte) : Z := Z.land (bval b) 0x3f.
(** ... and of a continuation byte, [cyyyyyyy]. *)
Definition moreLength (b : byte) : bool := negb (Z.land (bval b) 0x80 =? 0).
Definition bits (b : byte) : Z := Z.land (bval b) 0x7f.

(** [err == io.EOF] becomes [io.ErrUnexpectedEOF]. *)
Definition unexpected (e : error) : error :=
  match e with EOF => ErrUnexpectedEOF | _ => e end.
Definition inside {A} (m : io reader A) : io reader A := fun r =>
  match m r with (Err e, r') => (Err (unexpected e), r') | x => x end.

(** [r.Read(b[:])]: the buffer keeps its old content when nothing was read. *)
Definition read_b (b : byte) : io reader byte := fun r =>
  match read 1 r with
  | (_, Some e, r') => (Err e, r')
  | (d, None, r') => (Ret (default b (head d)), r')
  end.

(** The inner loop over the continuation bytes, [for i := 0; moreLength; i++]. *)
Fixpoint readLength (fuel : nat) (i n : Z) (more : bool) (b : byte) : io reader Z :=
  match fuel with
  | O => crash "out of fuel"
  | S fuel' =>
      if more then
        if 2 <=? i then throw ErrTooLong
        else
          b' ← inside (read_b b);
          readLength fuel' (i + 1) (Z.lor (Z.shiftl n 7) (bits b')) (moreLength b') b'
      else mret n
  end.

Fixpoint ReadData_loop (fuel : nat) : io reader bytes :=
  match fuel with
  | O => crash "out of fuel"
  | S fuel' =>
      b ← read_b Byte.x00;
      n ← readLength 4 0 (bits0 b) (moreLength0 b) b;
      if isData b
      then inside (ReadFull (Z.to_nat n))
      else inside (CopyN_Discard (Z.to_nat n)) ≫= fun _ => ReadData_loop fuel'
  end.

(** Each turn of the outer loop takes at least one segment or one byte. *)
Definition ReadData : io reader bytes := fun r =>
  ReadData_loop (S (length (flat r) + length (r_chunks r))) r.

Definition dataPrefixForLength (n : Z) : res bytes :=
  if Z.land (Z.shiftr n 0) 0x3f =? Z.shiftr n 0 then
    Ret [to_byte (Z.lor 0x80 (Z.land (Z.shiftr n 0) 0x3f))]
  else if Z.land (Z.shiftr n 7) 0x3f =? Z.shiftr n 7 then
    Ret [to_byte (Z.lor 0xc0 (Z.land (Z.shiftr n 7) 0x3f));
         to_byte (Z.land (Z.shiftr n 0) 0x7f)]
  else if Z.land (Z.shiftr n 14) 0x3f =? Z.shiftr n 14 then
    Ret [to_byte (Z.lor 0xc0 (Z.land (Z.shiftr n 14) 0x3f));
         to_byte (Z.lor 0x80 (Z.land (Z.shiftr n 7) 0x7f));
         to_byte (Z.land (Z.shiftr n 0) 0x7f)]
  else Err ErrTooLong.

(** The number of bytes written, and the error. *)
Definition WriteData {W} `{IOWriter W} (data : bytes) (w : W) : nat * option error * W :=
  match dataPrefixForLength (len data) with
  | Ret prefix =>
      match io_write prefix w with
      | (n, Some e, w1) => (n, Some e, w1)
      | (n, None, w1) =>
          match io_write data w1 with (n2, e, w2) => ((n + n2)%nat, e, w2) end
      end
  | Err e => (O, Some e, w)
  | Panic _ => (O, None, w)
  end.

Definition paddingBuffer : bytes := repeat Byte.x00 (Z.to_nat 1024).

(** The length prefix chosen for one padding chunk of total size [p], and the
    size of the padding that follows it; no prefix if no case applies. *)
Definition paddingPrefix (p : Z) : bytes * Z :=
  if Z.land (Z.shiftr (p - 1) 0) 0x3f =? Z.shiftr (p - 1) 0 then
    let p := p - 1 in ([to_byte (Z.land (Z.shiftr p 0) 0x3f)], p)
  else if Z.land (Z.shiftr (p - 2) 7) 0x3f =? Z.shiftr (p - 2) 7 then
    let p := p - 2 in
    ([to_byte (Z.lor 0x40 (Z.land (Z.shiftr p 7) 0x3f));
      to_byte (Z.land (Z.shiftr p 0) 0x7f)], p)
  else if Z.land (Z.shiftr (p - 3) 14) 0x3f =? Z.shiftr (p - 3) 14 then
    let p := p - 3 in
    ([to_byte (Z.lor 0x40 (Z.land (Z.shiftr p 14) 0x3f));
      to_byte (Z.lor 0x80 (Z.land (Z.shiftr p 7) 0x3f));
      to_byte (Z.land (Z.shiftr p 0) 0x7f)], p)
  else ([], p).

Fixpoint WritePadding_loop (fuel : nat) (n : Z) (total : nat) (w : writer)
  : res (nat * option error) * writer :=
  match fuel with
  | O => (Panic "out of fuel", w)
  | S fuel' =>
      if 0 <? n then
        let p := Z.min (len paddingBuffer) n in
        let n := n - p in
        let '(prefix, p) := paddingPrefix p in
        match write prefix w with
        | (nn, Some e, w1) => (Ret ((total + nn)%nat, Some e), w1)
        | (nn, None, w1) =>
            match write (take (Z.to_nat p) paddingBuffer) w1 with
            | (nn2, Some e, w2) => (Ret ((total + nn + nn2)%nat, Some e), w2)
            | (nn2, None, w2) => WritePadding_loop fuel' n (total + nn + nn2) w2
            end
        end
      else (Ret (total, None), w)
  end.

(** Each turn writes at least one of the [n] bytes. *)
Definition WritePadding (n : Z) (w : writer) : res (nat * option error) * writer :=
  if n <? 0 then (Panic "negative length", w)
  else WritePadding_loop (S (Z.to_nat n)) n 0 w.

Definition MaxDataForSize (n : Z) : res Z :=
  if n =? 0 then Panic "zero length"
  else
    match dataPrefixForLength n with
    | Err ErrTooLong => Ret (Z.shiftl 1 (6 + 7 + 7) - 1 - 3)
    | Err _ => Panic "err"
    | Panic w => Panic w
    | Ret prefix => Ret (n - len prefix)
    end.

(** ** The wire format, as the package comment documents it *)

(** [len_prefix d n p]: [p] is a valid length prefix of value [n]; [d] tells data
    from padding.  Prefixes need not be minimal. *)
Inductive len_prefix (d : bool) : Z -> bytes -> Prop :=
  | prefix_1 x :
      0 <= x < 64 ->
      len_prefix d x [to_byte (128 * Z.b2z d + x)]
  | prefix_2 x y :
      0 <= x < 64 -> 0 <= y < 128 ->
      len_prefix d (x * 128 + y) [to_byte (128 * Z.b2z d + 64 + x); to_byte y]
  | prefix_3 x y z :
      0 <= x < 64 -> 0 <= y < 128 -> 0 <= z < 128 ->
      len_prefix d ((x * 128 + y) * 128 + z)
        [to_byte (128 * Z.b2z d + 64 + x); to_byte (128 + y); to_byte z].

(** Any number of complete padding chunks. *)
Inductive padding : bytes -> Prop :=
  | padding_nil : padding []
  | padding_cons pfx body rest :
      len_prefix false (len body) pfx -> padding rest -> padding (pfx ++ body ++ rest).

(** A prefix of more than three bytes. *)
Definition too_long (bs : bytes) : Prop :=
  exists b1 b2 b3 rest, bs = b1 :: b2 :: b3 :: rest /\
    moreLength0 b1 = true /\ moreLength b2 = true /\ moreLength b3 = true.

(** The input ends inside a length prefix, or inside the chunk after it. *)
Inductive truncated : bytes -> Prop :=
  | cut_1 b1 : moreLength0 b1 = true -> truncated [b1]
  | cut_2 b1 b2 : moreLength0 b1 = true -> moreLength b2 = true -> truncated [b1; b2]
  | cut_body d n pfx part :
      len_prefix d n pfx -> len part < n -> truncated (pfx ++ part).

(** ** Bits of the prefix bytes *)

Lemma isData_spec b : isData b = (128 <=? bval b).
Proof. byte_cases b. Qed.
Lemma moreLength0_spec b : moreLength0 b = (64 <=? bval b mod 128).
Proof. byte_cases b. Qed.
Lemma bits0_spec b : bits0 b = bval b mod 64.
Proof. byte_cases b. Qed.
Lemma moreLength_spec b : moreLength b = (128 <=? bval b).
Proof. byte_cases b. Qed.
Lemma bits_spec b : bits b = bval b mod 128.
Proof. byte_cases b. Qed.

Lemma first_byte d c x :
  0 <= x < 64 ->
  let b := to_byte (128 * Z.b2z d + 64 * Z.b2z c + x) in
  isData b = d /\ moreLength0 b = c /\ bits0 b = x.
Proof.
  intros Hx b. rewrite isData_spec, moreLength0_spec, bits0_spec. subst b.
  rewrite bval_to_byte. destruct d, c; cbn [Z.b2z]; mlia.
Qed.

Lemma next_byte c y :
  0 <= y < 128 ->
  let b := to_byte (128 * Z.b2z c + y) in moreLength b = c /\ bits b = y.
Proof.
  intros Hx b. rewrite moreLength_spec, bits_spec. subst b.
  rewrite bval_to_byte. destruct c; cbn [Z.b2z]; mlia.
Qed.

Lemma first_byte_inv b :
  0 <= bits0 b < 64 /\
  b = to_byte (128 * Z.b2z (isData b) + 64 * Z.b2z (moreLength0 b) + bits0 b).
Proof.
  rewrite isData_spec, moreLength0_spec, bits0_spec.
  pose proof (bval_range b). split; [mlia|]. apply bval_inj. rewrite bval_to_byte.
  destruct (Z.leb_spec 128 (bval b)), (Z.leb_spec 64 (bval b mod 128)); cbn [Z.b2z]; mlia.
Qed.

Lemma next_byte_inv b :
  0 <= bits b < 128 /\ b = to_byte (128 * Z.b2z (moreLength b) + bits b).
Proof.
  rewrite moreLength_spec, bits_spec.
  pose proof (bval_range b). split; [mlia|]. apply bval_inj. rewrite bval_to_byte.
  destruct (Z.leb_spec 128 (bval b)); cbn [Z.b2z]; mlia.
Qed.

(** [n << 7 | y] *)
Lemma shift_bits n y : 0 <= y < 128 -> Z.lor (Z.shiftl n 7) y = n * 128 + y.
Proof. intros. apply (lor_shiftl_add n y 7); lia. Qed.

(** A prefix seen as the bits the reader tests. *)
Lemma len_prefix_bits d n pfx :
  len_prefix d n pfx <->
  (exists b1, pfx = [b1] /\ isData b1 = d /\ moreLength0 b1 = false /\ n = bits0 b1) \/
  (exists b1 b2, pfx = [b1; b2] /\ isData b1 = d /\ moreLength0 b1 = true /\
     moreLength b2 = false /\ n = bits0 b1 * 128 + bits b2) \/
  (exists b1 b2 b3, pfx = [b1; b2; b3] /\ isData b1 = d /\ moreLength0 b1 = true /\
     moreLength b2 = true /\ moreLength b3 = false /\
     n = (bits0 b1 * 128 + bits b2) * 128 + bits b3).
Proof.
  split.
  - destruct 1 as [x Hx|x y Hx Hy|x y z Hx Hy Hz].
    + left. destruct (first_byte d false x Hx) as (E1 & E2 & E3).
      cbn [Z.b2z] in *. rewrite Z.mul_0_r, Z.add_0_r in *. eauto.
    + right; left. destruct (first_byte d true x Hx) as (E1 & E2 & E3).
      destruct (next_byte false y Hy) as (F1 & F2).
      cbn [Z.b2z] in *. rewrite Z.mul_1_r, Z.mul_0_r, Z.add_0_l in *.
      eexists _, _. split_and!; eauto; congruence.
    + right; right. destruct (first_byte d true x Hx) as (E1 & E2 & E3).
      destruct (next_byte true y Hy) as (F1 & F2).
      destruct (next_byte false z Hz) as (G1 & G2).
      cbn [Z.b2z] in *. rewrite Z.mul_1_r, ?Z.mul_0_r, ?Z.add_0_l in *.
      eexists _, _, _. split_and!; eauto; congruence.
  - intros [(b1 & -> & <- & E & ->)|[(b1 & b2 & -> & <- & E & F & ->)
      |(b1 & b2 & b3 & -> & <- & E & F & G & ->)]];
      destruct (first_byte_inv b1) as [H1 H1']; rewrite E in H1'; cbn [Z.b2z] in H1'.
    + pose proof (prefix_1 (isData b1) _ H1) as G.
      replace b1 with (to_byte (128 * Z.b2z (isData b1) + bits0 b1)) at 3
        by (rewrite H1' at 3; f_equal; lia). done.
    + destruct (next_byte_inv b2) as [H2 H2']. rewrite F in H2'. cbn [Z.b2z] in H2'.
      pose proof (prefix_2 (isData b1) _ _ H1 H2) as K.
      replace [b1; b2] with [to_byte (128 * Z.b2z (isData b1) + 64 + bits0 b1); to_byte (bits b2)];
        [done|]. rewrite H1' at 3. rewrite H2' at 2. repeat (f_equal; try lia).
    + destruct (next_byte_inv b2) as [H2 H2']. rewrite F in H2'. cbn [Z.b2z] in H2'.
      destruct (next_byte_inv b3) as [H3 H3']. rewrite G in H3'. cbn [Z.b2z] in H3'.
      pose proof (prefix_3 (isData b1) _ _ _ H1 H2 H3) as K.
      replace [b1; b2; b3] with [to_byte (128 * Z.b2z (isData b1) + 64 + bits0 b1);
        to_byte (128 + bits b2); to_byte (bits b3)]; [done|].
      rewrite H1' at 3. rewrite H2' at 2. rewrite H3' at 2. repeat (f_equal; try lia).
Qed.

(** ** ReadData *)

Lemma read_b_nil b e r : delivers [] e r -> read_b b r = (Err e, r).
Proof.
  intros (Hf & He & Hn). unfold read_b.
  destruct (read_one r Hn) as [[_ ->]|(c & rest & r' & H & _)]; congruence.
Qed.

Lemma read_b_cons b c bs e r :
  delivers (c :: bs) e r -> exists r', read_b b r = (Ret c, r') /\ delivers bs e r'.
Proof.
  intros (Hf & He & Hn). unfold read_b.
  destruct (read_one r Hn) as [[H _]|(c' & rest & r' & H & -> & ? & ? & ?)]; [congruence|].
  exists r'. rewrite Hf in H. injection H as <- <-. split; [done|]. split_and!; congruence.
Qed.

Lemma inside_ret {A} (m : io reader A) r a r' : m r = (Ret a, r') -> inside m r = (Ret a, r').
Proof. intros E. unfold inside. by rewrite E. Qed.
Lemma inside_err {A} (m : io reader A) r e r' :
  m r = (Err e, r') -> inside m r = (Err (unexpected e), r').
Proof. intros E. unfold inside. by rewrite E. Qed.

(** One turn of the loop: read a length prefix, then continue with [k]. *)
Definition header {A} (k : byte -> Z -> io reader A) : io reader A :=
  b ← read_b Byte.x00; n ← readLength 4 0 (bits0 b) (moreLength0 b) b; k b n.


Section Header.
Context {A : Type} (k : byte -> Z -> io reader A) (e : error).

Lemma header_ok d n pfx bs r :
  len_prefix d n pfx -> delivers (pfx ++ bs) e r ->
  exists b r', isData b = d /\ header k r = k b n r' /\ delivers bs e r'.
Proof.
  intros Hp Hr. apply len_prefix_bits in Hp.
  destruct Hp as [(b1 & -> & <- & E & ->)|[(b1 & b2 & -> & <- & E & F & ->)
    |(b1 & b2 & b3 & -> & <- & E & F & G & ->)]]; cbn [app] in Hr;
    unfold header; exists b1;
    destruct (read_b_cons Byte.x00 _ _ _ _ Hr) as (r1 & E1 & H1);
    erewrite io_bind_ret by exact E1; cbn [readLength]; rewrite E.
  - exists r1. done.
  - destruct (read_b_cons b1 _ _ _ _ H1) as (r2 & E2 & H2).
    exists r2. split; [done|]. cbn [Z.leb Z.compare].
    erewrite io_bind_ret; [split; [reflexivity|done]|].
    erewrite io_bind_ret by (apply inside_ret; exact E2).
    rewrite F, shift_bits by apply next_byte_inv. reflexivity.
  - destruct (read_b_cons b1 _ _ _ _ H1) as (r2 & E2 & H2).
    destruct (read_b_cons b2 _ _ _ _ H2) as (r3 & E3 & H3).
    exists r3. split; [done|]. cbn [Z.leb Z.compare].
    erewrite io_bind_ret; [split; [reflexivity|done]|].
    erewrite io_bind_ret by (apply inside_ret; exact E2). rewrite F.
    change (2 <=? 0 + 1) with false. cbv iota.
    erewrite io_bind_ret by (apply inside_ret; exact E3). rewrite G.
    rewrite !shift_bits by apply next_byte_inv. reflexivity.
Qed.

Lemma header_eof r : delivers [] e r -> exists r', header k r = (Err e, r').
Proof. intros H. unfold header. erewrite io_bind_err by by apply read_b_nil. eauto. Qed.

Lemma header_too_long bs r :
  too_long bs -> delivers bs e r -> exists r', header k r = (Err ErrTooLong, r').
Proof.
  intros (b1 & b2 & b3 & rest & -> & M1 & M2 & M3) H0.
  destruct (read_b_cons Byte.x00 _ _ _ _ H0) as (r1 & E1 & H1).
  destruct (read_b_cons b1 _ _ _ _ H1) as (r2 & E2 & H2).
  destruct (read_b_cons b2 _ _ _ _ H2) as (r3 & E3 & H3).
  exists r3. unfold header. erewrite io_bind_ret by exact E1.
  apply io_bind_err. cbn [readLength]. rewrite M1. cbn [Z.leb Z.compare].
  erewrite io_bind_ret by (apply inside_ret; exact E2). rewrite M2.
  change (2 <=? 0 + 1) with false. cbv iota.
  erewrite io_bind_ret by (apply inside_ret; exact E3). by rewrite M3.
Qed.

Lemma header_cut_1 b1 r :
  moreLength0 b1 = true -> delivers [b1] e r ->
  exists r', header k r = (Err (unexpected e), r').
Proof.
  intros M1 H0. destruct (read_b_cons Byte.x00 _ _ _ _ H0) as (r1 & E1 & H1).
  exists r1. unfold header. erewrite io_bind_ret by exact E1.
  apply io_bind_err. cbn [readLength]. rewrite M1. cbn [Z.leb Z.compare].
  by erewrite io_bind_err by (apply inside_err, read_b_nil; exact H1).
Qed.

Lemma header_cut_2 b1 b2 r :
  moreLength0 b1 = true -> moreLength b2 = true -> delivers [b1; b2] e r ->
  exists r', header k r = (Err (unexpected e), r').
Proof.
  intros M1 M2 H0. destruct (read_b_cons Byte.x00 _ _ _ _ H0) as (r1 & E1 & H1).
  destruct (read_b_cons b1 _ _ _ _ H1) as (r2 & E2 & H2).
  exists r2. unfold header. erewrite io_bind_ret by exact E1.
  apply io_bind_err. cbn [readLength]. rewrite M1. cbn [Z.leb Z.compare].
  erewrite io_bind_ret by (apply inside_ret; exact E2). rewrite M2.
  change (2 <=? 0 + 1) with false. cbv iota.
  by erewrite io_bind_err by (apply inside_err, read_b_nil; exact H2).
Qed.
End Header.

Lemma ReadData_loop_S fuel :
  ReadData_loop (S fuel) = header (fun b n =>
    if isData b then inside (ReadFull (Z.to_nat n))
    else inside (CopyN_Discard (Z.to_nat n)) ≫= fun _ => ReadData_loop fuel).
Proof. done. Qed.

Lemma len_prefix_range d n pfx : len_prefix d n pfx -> 0 <= n < 2 ^ 20 /\ (0 < length pfx)%nat.
Proof. destruct 1; cbn; lia. Qed.

Lemma padding_app p q : padding p -> padding q -> padding (p ++ q).
Proof.
  induction 1 as [|pfx body rest Hp _ IH]; intros Hq; [done|].
  rewrite <- !app_assoc. constructor; auto.
Qed.

(** Complete padding chunks are skipped. *)
Lemma loop_padding pads : padding pads -> forall fuel bs e r,
  (length (pads ++ bs) < fuel)%nat -> delivers (pads ++ bs) e r ->
  exists fuel' r', (length bs < fuel')%nat /\ delivers bs e r' /\
    ReadData_loop fuel r = ReadData_loop fuel' r'.
Proof.
  induction 1 as [|pfx body rest Hp _ IH]; intros fuel bs e r Hf Hr; [by eauto|].
  destruct fuel as [|fuel]; [lia|]. rewrite ReadData_loop_S.
  rewrite <- !app_assoc in *.
  destruct (header_ok (fun b n =>
    if isData b then inside (ReadFull (Z.to_nat n))
    else inside (CopyN_Discard (Z.to_nat n)) ≫= fun _ => ReadData_loop fuel)
    e _ _ _ _ r Hp Hr) as (b & r1 & Hb & -> & H1).
  rewrite Hb.
  destruct (CopyN_delivers body (rest ++ bs) e (Z.to_nat (len body)) r1 H1) as (r2 & E2 & H2).
  { unfold len. lia. }
  erewrite io_bind_ret by (apply inside_ret; exact E2).
  apply len_prefix_range in Hp as [_ Hp]. rewrite !length_app in Hf.
  apply IH; [rewrite length_app; lia|done].
Qed.

Lemma loop_data pfx data rest fuel e r :
  len_prefix true (len data) pfx -> delivers (pfx ++ data ++ rest) e r ->
  exists r', ReadData_loop (S fuel) r = (Ret data, r') /\ delivers rest e r'.
Proof.
  intros Hp Hr. rewrite ReadData_loop_S.
  edestruct (header_ok (A:=bytes)) as (b & r1 & Hb & -> & H1); [exact Hp|exact Hr|].
  rewrite Hb.
  destruct (ReadFull_delivers data rest e (Z.to_nat (len data)) r1 H1) as (r2 & E2 & H2).
  { unfold len. lia. }
  exists r2. split; [|done]. by apply inside_ret.
Qed.

Lemma loop_truncated bs fuel e r :
  truncated bs -> delivers bs e r ->
  exists r', ReadData_loop (S fuel) r = (Err (unexpected e), r').
Proof.
  intros Ht Hr. rewrite ReadData_loop_S.
  destruct Ht as [b1 M1|b1 b2 M1 M2|d n pfx part Hp Hn].
  - by eapply header_cut_1.
  - by eapply header_cut_2.
  - edestruct (header_ok (A:=bytes)) as (b & r1 & Hb & -> & H1); [exact Hp|exact Hr|].
    assert (Hlt : (length part < Z.to_nat n)%nat) by (unfold len in Hn; lia).
    rewrite Hb. destruct d.
    + destruct (ReadFull_delivers_short part e _ r1 H1 Hlt) as (r2 & E2 & _).
      exists r2. erewrite inside_err by exact E2. by destruct part, e.
    + destruct (CopyN_delivers_short part e _ r1 H1 Hlt) as (r2 & E2 & _).
      exists r2. apply io_bind_err. by apply inside_err.
Qed.

(** Every byte string is some complete padding chunks followed by nothing, by a
    data chunk, by an over-long prefix, or by an unfinished chunk. *)
Lemma header_classify bs :
  bs <> [] ->
  (exists d n pfx rest, bs = pfx ++ rest /\ len_prefix d n pfx) \/ too_long bs \/ truncated bs.
Proof.
  destruct bs as [|b1 bs]; [done|]. intros _.
  destruct (moreLength0 b1) eqn:M1.
  2:{ left. exists (isData b1), (bits0 b1), [b1], bs. split; [done|].
      apply len_prefix_bits. left. by exists b1. }
  destruct bs as [|b2 bs]; [right; right; by constructor|].
  destruct (moreLength b2) eqn:M2.
  2:{ left. eexists (isData b1), _, [b1; b2], bs. split; [done|].
      apply len_prefix_bits. right; left. exists b1, b2. done. }
  destruct bs as [|b3 bs]; [right; right; by constructor|].
  destruct (moreLength b3) eqn:M3.
  - right; left. exists b1, b2, b3, bs. done.
  - left. eexists (isData b1), _, [b1; b2; b3], bs. split; [done|].
    apply len_prefix_bits. right; right. exists b1, b2, b3. done.
Qed.

Lemma classify bs :
  exists pads tl, padding pads /\ bs = pads ++ tl /\
    (tl = [] \/
     (exists pfx data rest, tl = pfx ++ data ++ rest /\ len_prefix true (len data) pfx) \/
     too_long tl \/ truncated tl).
Proof.
  induction bs as [bs IH] using (well_founded_induction (well_founded_ltof _ (@length byte))).
  unfold ltof in IH. destruct (decide (bs = [])) as [->|Hne].
  { exists [], []. split_and!; auto. constructor. }
  destruct (header_classify bs Hne) as [(d & n & pfx & rest & -> & Hp)|H].
  2:{ exists [], bs. split_and!; [constructor|done|tauto]. }
  destruct (len_prefix_range _ _ _ Hp) as [Hn Hl].
  destruct (Z.lt_ge_cases (len rest) n) as [Hlt|Hge].
  { exists [], (pfx ++ rest). split_and!; [constructor|done|]. right; right; right. by econstructor. }
  assert (Hsplit : rest = take (Z.to_nat n) rest ++ drop (Z.to_nat n) rest) by (by rewrite take_drop).
  assert (Hlen : len (take (Z.to_nat n) rest) = n).
  { unfold len in *. rewrite length_take. lia. }
  destruct d.
  - exists [], (pfx ++ rest). split_and!; [constructor|done|]. right; left.
    exists pfx, (take (Z.to_nat n) rest), (drop (Z.to_nat n) rest).
    split; [by rewrite <- Hsplit|congruence].
  - destruct (IH (drop (Z.to_nat n) rest)) as (pads & tl & Hpd & E & Hc).
    { rewrite length_app, length_drop. lia. }
    exists (pfx ++ take (Z.to_nat n) rest ++ pads), tl. split_and!.
    + constructor; [congruence|done].
    + rewrite <- !app_assoc, <- E, take_drop. done.
    + done.
Qed.

Lemma loop_spec fuel r :
  nonempty_reads r -> (length (flat r) < fuel)%nat ->
  exists pads tl r', padding pads /\ flat r = pads ++ tl /\
    ((tl = [] /\ ReadData_loop fuel r = (Err (r_end r), r')) \/
     (exists pfx data rest, tl = pfx ++ data ++ rest /\ len_prefix true (len data) pfx /\
        ReadData_loop fuel r = (Ret data, r') /\ delivers rest (r_end r) r') \/
     (too_long tl /\ ReadData_loop fuel r = (Err ErrTooLong, r')) \/
     (truncated tl /\ ReadData_loop fuel r = (Err (unexpected (r_end r)), r'))).
Proof.
  intros Hne Hf. destruct (classify (flat r)) as (pads & tl & Hp & E & Hc).
  pose proof (delivers_flat r Hne) as Hd. rewrite E in Hd, Hf.
  destruct (loop_padding pads Hp fuel tl (r_end r) r Hf Hd) as (fuel' & r1 & Hf' & Hd' & ->).
  destruct fuel' as [|fuel']; [lia|].
  destruct Hc as [->|[(pfx & data & rest & -> & Hd1)|[Hc|Hc]]].
  - destruct (header_eof (fun b n =>
      if isData b then inside (ReadFull (Z.to_nat n))
      else inside (CopyN_Discard (Z.to_nat n)) ≫= fun _ => ReadData_loop fuel') _ _ Hd') as [r' Hr'].
    exists pads, [], r'. auto.
  - destruct (loop_data pfx data rest fuel' _ r1 Hd1 Hd') as (r' & Hr' & ?).
    exists pads, (pfx ++ data ++ rest), r'. split_and!; [done|done|]. right; left. eauto 10.
  - destruct (header_too_long (fun b n =>
      if isData b then inside (ReadFull (Z.to_nat n))
      else inside (CopyN_Discard (Z.to_nat n)) ≫= fun _ => ReadData_loop fuel') _ _ _ Hc Hd')
      as [r' Hr'].
    exists pads, tl, r'. auto 10.
  - destruct (loop_truncated tl fuel' _ r1 Hc Hd') as [r' Hr']. exists pads, tl, r'. auto 10.
Qed.

Lemma ReadData_fuel r fuel :
  nonempty_reads r -> (length (flat r) < fuel)%nat -> ReadData r = ReadData_loop fuel r.
Proof.
  assert (Hmono : forall f r, (forall w, (ReadData_loop f r).1 <> Panic w) ->
                  ReadData_loop (S f) r = ReadData_loop f r).
  { clear. induction f as [|f IH]; intros r Hnp.
    { by destruct (Hnp "out of fuel"%string). }
    rewrite (ReadData_loop_S (S f)). rewrite ReadData_loop_S in Hnp |- *.
    unfold header, mbind, io_bind in *.
    destruct (read_b Byte.x00 r) as [[b|e|w] r1]; [|done|done].
    destruct (readLength 4 0 (bits0 b) (moreLength0 b) b r1) as [[n|e|w] r2]; [|done|done].
    destruct (isData b); [done|].
    destruct (inside (CopyN_Discard (Z.to_nat n)) r2) as [[[]|e|w] r3]; [|done|done].
    by apply IH. }
  assert (Hplus : forall k f r, (forall w, (ReadData_loop f r).1 <> Panic w) ->
                  ReadData_loop (k + f) r = ReadData_loop f r).
  { induction k as [|k IHk]; intros f r' Hnp; [done|]. cbn [Nat.add].
    rewrite Hmono; [by apply IHk|]. by rewrite IHk. }
  intros Hne Hf. unfold ReadData.
  set (m := S (length (flat r))).
  assert (Hnp : forall w, (ReadData_loop m r).1 <> Panic w).
  { intros w. destruct (loop_spec m r Hne ltac:(lia)) as (pads & tl & r' & _ & _ & H).
    destruct H as [[_ ->]|[(? & ? & ? & _ & _ & -> & _)|[[_ ->]|[_ ->]]]]; done. }
  replace (S (length (flat r) + length (r_chunks r))) with (length (r_chunks r) + m)%nat by lia.
  replace fuel with ((fuel - m) + m)%nat by lia. by rewrite !Hplus.
Qed.

Lemma ReadData_cases r :
  nonempty_reads r ->
  exists pads tl r', padding pads /\ flat r = pads ++ tl /\
    ((tl = [] /\ ReadData r = (Err (r_end r), r')) \/
     (exists pfx data rest, tl = pfx ++ data ++ rest /\ len_prefix true (len data) pfx /\
        ReadData r = (Ret data, r') /\ delivers rest (r_end r) r') \/
     (too_long tl /\ ReadData r = (Err ErrTooLong, r')) \/
     (truncated tl /\ ReadData r = (Err (unexpected (r_end r)), r'))).
Proof.
  intros Hne. rewrite (ReadData_fuel r (S (length (flat r)))) by (done || lia).
  apply loop_spec; [done|lia].
Qed.

(** C25. What [ReadData] returns, on every input.  The pending bytes are some
    complete padding chunks followed by: nothing, and the reader's own error is
    passed on; or a complete data chunk, whose contents are returned with the
    reader left just after it; or a length prefix of more than three bytes, and
    the error is [ErrTooLong]; or a chunk the input cuts short, and the error is
    the reader's, with [io.EOF] turned into [io.ErrUnexpectedEOF]. *)
Theorem ReadData_spec r :
  nonempty_reads r ->
  exists pads tl r', padding pads /\ flat r = pads ++ tl /\
    ((tl = [] /\ ReadData r = (Err (r_end r), r')) \/
     (exists pfx data rest, tl = pfx ++ data ++ rest /\ len_prefix true (len data) pfx /\
        ReadData r = (Ret data, r') /\ delivers rest (r_end r) r') \/
     (too_long tl /\ ReadData r = (Err ErrTooLong, r')) \/
     (truncated tl /\ ReadData r = (Err (unexpected (r_end r)), r'))).
Proof. apply ReadData_cases. Qed.

Lemma ReadData_padding pads bs e r :
  padding pads -> delivers (pads ++ bs) e r ->
  exists r', delivers bs e r' /\ ReadData r = ReadData r'.
Proof.
  intros Hp Hd. pose proof Hd as (Hf & _ & Hne).
  destruct (loop_padding pads Hp (S (length (pads ++ bs))) bs e r ltac:(lia) Hd)
    as (fuel' & r' & Hf' & Hd' & E).
  exists r'. split; [done|]. rewrite (ReadData_fuel r (S (length (pads ++ bs)))), E.
  - symmetry. destruct Hd' as (Hfl & _ & ?). apply ReadData_fuel; [done|]. by rewrite Hfl.
  - done.
  - rewrite Hf. lia.
Qed.

Lemma ReadData_data pads pfx data rest e r :
  padding pads -> len_prefix true (len data) pfx ->
  delivers (pads ++ pfx ++ data ++ rest) e r ->
  exists r', ReadData r = (Ret data, r') /\ delivers rest e r'.
Proof.
  intros Hp Hd Hr. destruct (ReadData_padding _ _ _ _ Hp Hr) as (r1 & H1 & ->).
  unfold ReadData. by eapply loop_data.
Qed.

Lemma ReadData_end pads e r :
  padding pads -> delivers pads e r -> exists r', ReadData r = (Err e, r').
Proof.
  intros Hp Hr. rewrite <- (app_nil_r pads) in Hr.
  destruct (ReadData_padding _ _ _ _ Hp Hr) as (r1 & H1 & ->).
  unfold ReadData. rewrite ReadData_loop_S. by eapply header_eof.
Qed.

(** [ReadData] reports [io.EOF] exactly when the input ends, with [io.EOF],
    after zero or more complete padding chunks: never inside a length prefix or
    a chunk. *)
Theorem ReadData_eof r :
  nonempty_reads r ->
  ((ReadData r).1 = Err EOF <-> padding (flat r) /\ r_end r = EOF).
Proof.
  intros Hne. split.
  - intros E. destruct (ReadData_cases r Hne) as (pads & tl & r' & Hp & Hf & H).
    destruct H as [[-> H]|[(pfx & data & rest & _ & _ & H & _)|[[_ H]|[_ H]]]];
      rewrite H in E; cbn in E; [|done|done|].
    + rewrite Hf, app_nil_r. by injection E as ->.
    + destruct (r_end r); done.
  - intros [Hp He]. destruct (ReadData_end (flat r) EOF r Hp) as [r' ->]; done.
Qed.

(** ** Independence from segmentation *)

#[export] Instance Segmented_inside {A} (m : io reader A) : Segmented m -> Segmented (inside m).
Proof.
  intros Hm r1 r2 Hr. destruct (Hm r1 r2 Hr) as [E1 E2]. unfold inside.
  destruct (m r1) as [o1 r1'], (m r2) as [o2 r2']; cbn in *. subst o2.
  destruct o1; by split.
Qed.

#[export] Instance Segmented_read_b b : Segmented (read_b b).
Proof.
  intros r1 r2 (N1 & N2 & E & F). pose proof (delivers_flat r1 N1) as D1.
  assert (D2 : delivers (flat r1) (r_end r1) r2) by (split_and!; done).
  destruct (flat r1) as [|c bs].
  - rewrite (read_b_nil b _ r1 D1), (read_b_nil b _ r2 D2). split; [done|].
    destruct D1 as (? & ? & ?), D2 as (? & ? & ?). split_and!; cbn; congruence.
  - destruct (read_b_cons b _ _ _ r1 D1) as (r1' & -> & G1 & G2 & G3).
    destruct (read_b_cons b _ _ _ r2 D2) as (r2' & -> & G4 & G5 & G6).
    split; [done|]. split_and!; cbn; congruence.
Qed.

#[export] Instance Segmented_readLength fuel i n more b : Segmented (readLength fuel i n more b).
Proof.
  revert i n more b. induction fuel as [|fuel IH]; intros i n more b.
  { intros r1 r2 Hr. by split. }
  cbn [readLength]. destruct more; [|apply _].
  destruct (2 <=? i); apply _.
Qed.

#[export] Instance Segmented_ReadData_loop fuel : Segmented (ReadData_loop fuel).
Proof.
  induction fuel as [|fuel IH]; [intros r1 r2 Hr; by split|].
  rewrite ReadData_loop_S. unfold header.
  apply Segmented_bind; [apply _|intros b]. apply Segmented_bind; [apply _|intros n].
  destruct (isData b); apply _.
Qed.

#[export] Instance Segmented_ReadData : Segmented ReadData.
Proof.
  intros r1 r2 Hr. pose proof Hr as (N1 & N2 & E & F).
  rewrite (ReadData_fuel r1 (S (length (flat r1)))), (ReadData_fuel r2 (S (length (flat r1))))
    by (done || rewrite <- ?E; lia).
  by apply Segmented_ReadData_loop.
Qed.

(** The result of [ReadData], and the position in which it leaves the stream,
    do not depend on how the network cuts the byte stream into reads. *)
Theorem ReadData_segmentation r1 r2 :
  same_stream r1 r2 -> same_outcome (ReadData r1) (ReadData r2).
Proof. apply Segmented_ReadData. Qed.

(** ** Writing *)

Lemma land_63 z : Z.land z 0x3f = z mod 64.
Proof. apply (land_ones_mod z 6). lia. Qed.
Lemma land_127 z : Z.land z 0x7f = z mod 128.
Proof. apply (land_ones_mod z 7). lia. Qed.

Lemma fits_63 z : (Z.land z 0x3f =? z) = ((0 <=? z) && (z <? 64)).
Proof.
  rewrite land_63. destruct (Z.eqb_spec (z mod 64) z), (Z.leb_spec 0 z), (Z.ltb_spec z 64);
    cbn; try done; mlia.
Qed.

Lemma lor_80 x : 0 <= x < 128 -> Z.lor 0x80 x = 128 + x.
Proof. intros. apply (lor_shiftl_add 1 x 7); lia. Qed.
Lemma lor_c0 x : 0 <= x < 64 -> Z.lor 0xc0 x = 192 + x.
Proof. intros. apply (lor_shiftl_add 3 x 6); lia. Qed.
Lemma lor_40 x : 0 <= x < 64 -> Z.lor 0x40 x = 64 + x.
Proof. intros. apply (lor_shiftl_add 1 x 6); lia. Qed.

(** The size of the smallest prefix for a length. *)
Definition prefix_size (n : Z) : nat :=
  if n <? 64 then 1 else if n <? 8192 then 2 else 3.

Lemma dataPrefix_ok n :
  0 <= n < 2 ^ 20 ->
  exists pfx, dataPrefixForLength n = Ret pfx /\ len_prefix true n pfx /\
              length pfx = prefix_size n.
Proof.
  intros Hn. unfold dataPrefixForLength, prefix_size.
  rewrite !fits_63, !land_63, !land_127, Z.shiftr_0_r, !Z.shiftr_div_pow2 by lia.
  change (2 ^ 7) with 128. change (2 ^ 14) with 16384.
  destruct (Z.leb_spec 0 n); [|lia]. cbn [andb].
  destruct (Z.ltb_spec n 64).
  { rewrite (Z.mod_small n), lor_80 by lia. eexists. split_and!; [done| |done].
    by apply (prefix_1 true). }
  replace (0 <=? n / 128) with true by (symmetry; apply Z.leb_le; mlia). cbn [andb].
  replace (n / 128 <? 64) with (n <? 8192)
    by (destruct (Z.ltb_spec n 8192), (Z.ltb_spec (n / 128) 64); try done; mlia).
  destruct (Z.ltb_spec n 8192).
  { rewrite (Z.mod_small (n / 128)), lor_c0 by mlia. eexists. split_and!; [done| |done].
    pose proof (prefix_2 true (n / 128) (n mod 128)) as K.
    replace (n / 128 * 128 + n mod 128) with n in K by mlia. apply K; mlia. }
  replace (0 <=? n / 16384) with true by (symmetry; apply Z.leb_le; mlia).
  replace (n / 16384 <? 64) with true by (symmetry; apply Z.ltb_lt; mlia). cbn [andb].
  rewrite (Z.mod_small (n / 16384)), lor_c0, lor_80 by mlia.
  eexists. split_and!; [done| |done].
  pose proof (prefix_3 true (n / 16384) ((n / 128) mod 128) (n mod 128)) as K.
  replace ((n / 16384 * 128 + (n / 128) mod 128) * 128 + n mod 128) with n in K by mlia.
  apply K; mlia.
Qed.

Lemma dataPrefix_too_long n :
  n < 0 \/ 2 ^ 20 <= n -> dataPrefixForLength n = Err ErrTooLong.
Proof.
  intros Hn. unfold dataPrefixForLength. rewrite !fits_63, Z.shiftr_0_r, !Z.shiftr_div_pow2 by lia.
  assert (F : forall z, z < 0 \/ 64 <= z -> (0 <=? z) && (z <? 64) = false).
  { intros z Hz. destruct (Z.leb_spec 0 z), (Z.ltb_spec z 64); try done; lia. }
  rewrite !F; [done|mlia..].
Qed.

Lemma len_prefix_min d n pfx : len_prefix d n pfx -> (prefix_size n <= length pfx)%nat.
Proof.
  unfold prefix_size. destruct 1; zcases; cbn; lia.
Qed.

(** [dataPrefixForLength] succeeds exactly on the lengths that fit in 20 bits;
    it then returns a valid data prefix for the length, no longer than any other
    valid one; on other lengths, negative ones included, the error is [ErrTooLong]. *)
Theorem dataPrefixForLength_spec n :
  (0 <= n < 2 ^ 20 /\ exists pfx, dataPrefixForLength n = Ret pfx /\ len_prefix true n pfx /\
     forall q, len_prefix true n q -> (length pfx <= length q)%nat) \/
  (~ (0 <= n < 2 ^ 20) /\ dataPrefixForLength n = Err ErrTooLong).
Proof.
  destruct (decide (0 <= n < 2 ^ 20)) as [H|H].
  - left. split; [done|]. destruct (dataPrefix_ok n H) as (pfx & E & Hp & Hl).
    exists pfx. split_and!; [done|done|]. intros q Hq. rewrite Hl. by eapply len_prefix_min.
  - right. split; [done|]. apply dataPrefix_too_long. lia.
Qed.

Lemma take_app_sum {A} (l k : list A) n : take (length l + n) (l ++ k) = l ++ take n k.
Proof. rewrite take_app, take_ge by lia. do 2 f_equal. lia. Qed.

(** Two consecutive writes act as one write of the concatenation. *)
Lemma write_twice p q w n1 e1 w1 n2 e2 w2 :
  write p w = (n1, e1, w1) ->
  match e1 with
  | None => write q w1 = (n2, e2, w2)
  | Some _ => n2 = O /\ e2 = e1 /\ w2 = w1
  end ->
  w_out w2 = w_out w ++ take (n1 + n2) (p ++ q) /\ (n1 + n2 <= length (p ++ q))%nat /\
  (e2 = None <-> (n1 + n2)%nat = length (p ++ q)) /\ w_err w2 = w_err w.
Proof.
  intros H1 H2. apply write_prefix in H1 as (Ho & Hl & He & Hw). rewrite length_app.
  destruct e1 as [e|].
  - destruct H2 as (-> & -> & ->). assert (n1 <> length p) by (intros ?%He; done).
    rewrite Nat.add_0_r, take_app_le by lia. split_and!; try done; [lia|]. split; [done|lia].
  - assert (n1 = length p) as -> by tauto. rewrite take_ge in Ho by lia.
    apply write_prefix in H2 as (Ho' & Hl' & He' & Hw').
    rewrite take_app_sum, Ho', Ho, app_assoc. split_and!; [done|lia| |congruence].
    split; [intros ->%He'; lia|]. intros. apply He'. lia.
Qed.

(** Against the interface alone: no error means that the whole chunk was taken. *)
Lemma WriteData_none `{IOWriterLaws W} data (w : W) n w' :
  io_good w -> WriteData data w = (n, None, w') ->
  exists pfx, len_prefix true (len data) pfx /\ io_sent w' = io_sent w ++ pfx ++ data /\
    n = length (pfx ++ data) /\ io_good w'.
Proof.
  intros Hg E. unfold WriteData in E. pose proof (len_nonneg data).
  destruct (decide (len data < 2 ^ 20)).
  2:{ by rewrite dataPrefix_too_long in E by lia. }
  destruct (dataPrefix_ok (len data) ltac:(lia)) as (pfx & Ep & Hp & _). rewrite Ep in E.
  destruct (io_write pfx w) as [[n1 [e1|]] w1] eqn:E1; [done|].
  destruct (io_write data w1) as [[n2 e2] w2] eqn:E2. injection E as <- -> <-.
  apply io_write_all in E1 as (-> & Hs1 & Hg1); [|done].
  apply io_write_all in E2 as (-> & Hs2 & Hg2); [|done].
  exists pfx. rewrite Hs2, Hs1, <- app_assoc, length_app. done.
Qed.

Lemma WriteData_cases data (w : writer) n e w' :
  WriteData data w = (n, e, w') ->
  (len data < 2 ^ 20 /\ exists pfx, len_prefix true (len data) pfx /\
     length pfx = prefix_size (len data) /\
     w_out w' = w_out w ++ take n (pfx ++ data) /\ (n <= length (pfx ++ data))%nat /\
     (e = None <-> n = length (pfx ++ data)) /\ w_err w' = w_err w) \/
  (2 ^ 20 <= len data /\ n = O /\ e = Some ErrTooLong /\ w' = w).
Proof.
  intros H. unfold WriteData, io_write, writer_IOWriter in H. pose proof (len_nonneg data) as H0.
  destruct (decide (len data < 2 ^ 20)) as [Hlt|Hge].
  2:{ rewrite dataPrefix_too_long in H by lia. right. injection H as <- <- <-. split_and!; [lia|done..]. }
  left. split; [done|]. destruct (dataPrefix_ok (len data) ltac:(lia)) as (pfx & E & Hp & Hl).
  exists pfx. split_and!; [done|done|..]; rewrite E in H.
  all: destruct (write pfx w) as [[n1 e1] w1] eqn:E1; destruct e1 as [e1|].
  all: try (destruct (write data w1) as [[n2 e2] w2] eqn:E2); injection H as <- <- <-.
  all: first
    [ destruct (write_twice pfx data w n1 (Some e1) w1 0 (Some e1) w1 E1 ltac:(done))
        as (? & ? & ? & ?); rewrite Nat.add_0_r in *; done
    | destruct (write_twice pfx data w n1 None w1 n2 e2 w2 E1 E2) as (? & ? & ? & ?); done ].
Qed.

(** [WriteData] either refuses data of [2^20] bytes or more without writing, or
    puts on the wire a prefix of (data prefix ++ data); the count it returns is
    the number of bytes put there, the whole chunk exactly when there is no error. *)
Theorem WriteData_spec data (w : writer) n e w' :
  WriteData data w = (n, e, w') ->
  (len data < 2 ^ 20 /\ exists pfx, len_prefix true (len data) pfx /\
     length pfx = prefix_size (len data) /\
     w_out w' = w_out w ++ take n (pfx ++ data) /\ (n <= length (pfx ++ data))%nat /\
     (e = None <-> n = length (pfx ++ data)) /\ w_err w' = w_err w) \/
  (2 ^ 20 <= len data /\ n = O /\ e = Some ErrTooLong /\ w' = w).
Proof. apply WriteData_cases. Qed.

Lemma paddingPrefix_ok p :
  1 <= p <= 1024 ->
  exists pfx q, paddingPrefix p = (pfx, q) /\ len_prefix false q pfx /\
    0 <= q <= 1024 /\ len pfx + q = p.
Proof.
  intros Hp. unfold paddingPrefix.
  rewrite !fits_63, !land_63, !land_127, !Z.shiftr_0_r, !Z.shiftr_div_pow2 by lia.
  change (2 ^ 7) with 128. change (2 ^ 14) with 16384. cbv zeta.
  destruct (Z.leb_spec 0 (p - 1)); [|lia]. cbn [andb].
  destruct (Z.ltb_spec (p - 1) 64).
  { rewrite (Z.mod_small (p - 1)) by lia. eexists _, _. split_and!; [done| |lia|lia|unfold len; cbn [length]; lia].
    apply (prefix_1 false). lia. }
  replace (0 <=? (p - 2) / 128) with true by (symmetry; apply Z.leb_le; mlia).
  replace ((p - 2) / 128 <? 64) with true by (symmetry; apply Z.ltb_lt; mlia). cbn [andb].
  rewrite (Z.mod_small ((p - 2) / 128)), lor_40 by mlia.
  eexists _, _. split_and!; [done| |lia|lia|unfold len; cbn [length]; lia].
  pose proof (prefix_2 false ((p - 2) / 128) ((p - 2) mod 128)) as K.
  replace ((p - 2) / 128 * 128 + (p - 2) mod 128) with (p - 2) in K by mlia. apply K; mlia.
Qed.

Lemma len_paddingBuffer : len paddingBuffer = 1024.
Proof. done. Qed.

Lemma WritePadding_loop_spec fuel n total w :
  0 <= n < Z.of_nat fuel ->
  exists pads t e w', padding pads /\ len pads = n /\
    WritePadding_loop fuel n total w = (Ret ((total + t)%nat, e), w') /\
    w_out w' = w_out w ++ take t pads /\ (t <= length pads)%nat /\
    (e = None <-> t = length pads) /\ w_err w' = w_err w /\
    (forall x, e = Some x -> x = w_err w).
Proof.
  revert n total w. induction fuel as [|fuel IH]; intros n total w Hn; [lia|].
  cbn [WritePadding_loop]. rewrite len_paddingBuffer. destruct (Z.ltb_spec 0 n).
  2:{ exists [], O, None, w. rewrite Nat.add_0_r. cbn. rewrite app_nil_r.
      split_and!; try done; [apply padding_nil|rewrite len_nil; lia]. }
  destruct (paddingPrefix_ok (Z.min 1024 n)) as (pfx & q & -> & Hp & Hq & Hs); [lia|].
  set (body := take (Z.to_nat q) paddingBuffer).
  assert (Hb : len body = q).
  { pose proof len_paddingBuffer. unfold body, len in *. rewrite length_take. lia. }
  destruct (len_prefix_range _ _ _ Hp) as [_ Hl].
  destruct (IH (n - Z.min 1024 n) 0%nat w) as (rest & _ & _ & _ & Hrest & Hlr & _); [lia|].
  assert (Hpads : forall rest', padding rest' -> padding (pfx ++ body ++ rest')).
  { intros. constructor; [by rewrite Hb|done]. }
  assert (Hlen : forall rest', len rest' = n - Z.min 1024 n -> len (pfx ++ body ++ rest') = n).
  { intros rest' ?. rewrite !len_app. lia. }
  destruct (write pfx w) as [[n1 [e1|]] w1] eqn:E1.
  { pose proof (write_prefix _ _ _ _ _ E1) as (? & ? & ? & ?).
    pose proof (write_short _ _ _ _ _ E1).
    exists (pfx ++ body ++ rest), n1, (Some e1), w1.
    rewrite take_app_le, !length_app by lia.
    split_and!; auto; [lia| |by intros x [= <-]; eapply write_error]. split; [done|lia]. }
  destruct (write body w1) as [[n2 [e2|]] w2] eqn:E2;
    pose proof (write_twice _ _ _ _ _ _ _ _ _ E1 E2) as (Ho & Hle & Hiff & Hw).
  { exists (pfx ++ body ++ rest), (n1 + n2)%nat, (Some e2), w2.
    assert ((n1 + n2)%nat <> length (pfx ++ body)) by (intros ?%Hiff; done).
    rewrite app_assoc, take_app_le, length_app by lia. rewrite <- app_assoc, Nat.add_assoc.
    apply write_error in E2 as E2'. apply write_prefix in E1 as (_ & _ & _ & Hw1).
    split_and!; auto; [lia| |intros x [= <-]; congruence]. split; [done|lia]. }
  assert (Hall : (n1 + n2)%nat = length (pfx ++ body)) by tauto.
  destruct (IH (n - Z.min 1024 n) (total + n1 + n2)%nat w2)
    as (rest' & t & e & w' & Hr' & Hl' & -> & Ho' & Ht & Hiff' & Hw' & Hx); [lia|].
  exists (pfx ++ body ++ rest'), (n1 + n2 + t)%nat, e, w'.
  split_and!; auto.
  - do 3 f_equal. lia.
  - rewrite Hall, take_ge in Ho by lia.
    rewrite Ho', Ho, Hall, (app_assoc pfx), take_app_sum. by rewrite <- !app_assoc.
  - rewrite app_assoc, length_app. lia.
  - rewrite app_assoc, length_app, Hiff'. lia.
  - congruence.
  - intros x Ex%Hx. congruence.
Qed.

Lemma WritePadding_cases n w :
  (n < 0 /\ WritePadding n w = (Panic "negative length", w)) \/
  (0 <= n /\ exists pads t e w', WritePadding n w = (Ret (t, e), w') /\
     padding pads /\ len pads = n /\ w_out w' = w_out w ++ take t pads /\
     (t <= length pads)%nat /\ (e = None <-> t = length pads) /\ w_err w' = w_err w /\
     (forall x, e = Some x -> x = w_err w)).
Proof.
  unfold WritePadding. destruct (Z.ltb_spec n 0); [by left|right]. split; [done|].
  destruct (WritePadding_loop_spec (S (Z.to_nat n)) n 0 w) as (pads & t & e & w' & H'); [lia|].
  exists pads, t, e, w'. tauto.
Qed.

(** For [n >= 0], [WritePadding] terminates, and what it puts on the wire is a
    prefix of [n] bytes that are complete padding chunks, all [n] exactly when no
    error is returned; the only error is the writer's. A negative [n] panics. *)
Theorem WritePadding_spec n w :
  (n < 0 /\ WritePadding n w = (Panic "negative length", w)) \/
  (0 <= n /\ exists pads t e w', WritePadding n w = (Ret (t, e), w') /\
     padding pads /\ len pads = n /\ w_out w' = w_out w ++ take t pads /\
     (t <= length pads)%nat /\ (e = None <-> t = length pads) /\ w_err w' = w_err w /\
     (forall x, e = Some x -> x = w_err w)).
Proof. apply WritePadding_cases. Qed.

(** ** Size budget *)

(** [m] bytes of data fit, once encoded, in [n] bytes. *)
Definition fits (n m : Z) : Prop := 0 <= m < 2 ^ 20 /\ m + Z.of_nat (prefix_size m) <= n.

Lemma MaxDataForSize_value n :
  0 < n ->
  MaxDataForSize n = Ret (if n <? 2 ^ 20 then n - Z.of_nat (prefix_size n) else 2 ^ 20 - 4).
Proof.
  intros Hn. unfold MaxDataForSize. destruct (Z.eqb_spec n 0); [lia|].
  destruct (Z.ltb_spec n (2 ^ 20)).
  - destruct (dataPrefix_ok n ltac:(lia)) as (pfx & -> & _ & Hl). unfold len. by rewrite Hl.
  - by rewrite dataPrefix_too_long by lia.
Qed.

(** For every budget [n > 0], data of the length [MaxDataForSize] returns fits in
    [n] bytes once encoded. *)
Theorem MaxDataForSize_fits n :
  0 < n -> exists m, MaxDataForSize n = Ret m /\ fits n m.
Proof.
  intros Hn. rewrite MaxDataForSize_value by done. eexists; split; [done|].
  unfold fits, prefix_size. zcases; lia.
Qed.

(** The length returned is the longest that fits, as the comment says, exactly
    when the budget is below [2^20] and not 64, 8192 or 8193: there one more byte
    of data would still fit. *)
Theorem MaxDataForSize_longest n :
  0 < n ->
  ((forall m m', MaxDataForSize n = Ret m -> fits n m' -> m' <= m) <->
   n < 2 ^ 20 /\ n <> 64 /\ n <> 8192 /\ n <> 8193).
Proof.
  intros Hn. rewrite MaxDataForSize_value by done. split.
  - intros H. specialize (H _ ((if n <? 2 ^ 20 then n - Z.of_nat (prefix_size n) else 2 ^ 20 - 4) + 1) eq_refl).
    destruct (decide (n < 2 ^ 20 /\ n <> 64 /\ n <> 8192 /\ n <> 8193)) as [|Hc]; [done|].
    exfalso. assert (n = 64 \/ n = 8192 \/ n = 8193 \/ 2 ^ 20 <= n) as Hc' by lia.
    destruct Hc' as [->|[->|[->|Hc']]].
    1-3: match type of H with ?F -> _ =>
           assert (T : F) by (split_and!; vm_compute; congruence) end;
         apply H in T; vm_compute in T; congruence.
    destruct (Z.ltb_spec n (2 ^ 20)); [lia|]. unfold fits in H.
    change (prefix_size (2 ^ 20 - 4 + 1)) with 3%nat in H. lia.
  - intros (Hlt & H1 & H2 & H3) m m' [= <-] [Hm Hf].
    destruct (Z.ltb_spec n (2 ^ 20)); [|lia]. unfold prefix_size in *. revert Hf. zcases; lia.
Qed.

(** ** Round trip *)

(** A byte string that carries the data chunks [ds], with padding anywhere between. *)
Inductive encodes : bytes -> list bytes -> Prop :=
  | encodes_nil pads : padding pads -> encodes pads []
  | encodes_cons pads pfx data rest ds :
      padding pads -> len_prefix true (len data) pfx -> encodes rest ds ->
      encodes (pads ++ pfx ++ data ++ rest) (data :: ds).

Lemma encodes_padding pads bs ds : padding pads -> encodes bs ds -> encodes (pads ++ bs) ds.
Proof.
  intros Hp [pads' Hp'|pads' pfx data rest ds' Hp' Hd Hr].
  - constructor. by apply padding_app.
  - rewrite app_assoc. constructor; [by apply padding_app|done|done].
Qed.

Lemma encodes_app bs1 ds1 bs2 ds2 :
  encodes bs1 ds1 -> encodes bs2 ds2 -> encodes (bs1 ++ bs2) (ds1 ++ ds2).
Proof.
  induction 1 as [pads Hp|pads pfx data rest ds Hp Hd Hr IH]; intros H2.
  - by apply encodes_padding.
  - rewrite <- !app_assoc. cbn. constructor; auto.
Qed.

(** [k] successive calls of [ReadData]. *)
Fixpoint ReadData_n (k : nat) : io reader (list bytes) :=
  match k with
  | O => mret []
  | S k' => d ← ReadData; ds ← ReadData_n k'; mret (d :: ds)
  end.

Lemma ReadData_n_encodes bs ds : encodes bs ds -> forall e r, delivers bs e r ->
  exists r', ReadData_n (length ds) r = (Ret ds, r') /\ (ReadData r').1 = Err e.
Proof.
  induction 1 as [pads Hp|pads pfx data rest ds Hp Hd Hr IH]; intros e r Hdel.
  - exists r. split; [done|]. by destruct (ReadData_end pads e r Hp Hdel) as [r' ->].
  - destruct (ReadData_data _ _ _ _ _ _ Hp Hd Hdel) as (r1 & E1 & H1).
    destruct (IH e r1 H1) as (r' & E2 & H2). exists r'. split; [|done].
    cbn [length ReadData_n]. erewrite io_bind_ret by exact E1.
    by erewrite io_bind_ret by exact E2.
Qed.

(** A sender: any sequence of [WriteData] and [WritePadding] calls. *)
Inductive send_op := SendData (d : bytes) | SendPadding (n : Z).

Definition run_op (o : send_op) (w : writer) : option error * writer :=
  match o with
  | SendData d => match WriteData d w with (_, e, w') => (e, w') end
  | SendPadding n =>
      match WritePadding n w with
      | (Ret (_, e), w') => (e, w')
      | (Err e, w') => (Some e, w')
      | (Panic why, w') => (Some (ErrMsg why), w')
      end
  end.

Fixpoint run_ops (ops : list send_op) (w : writer) : option error * writer :=
  match ops with
  | [] => (None, w)
  | o :: ops' =>
      match run_op o w with
      | (None, w') => run_ops ops' w'
      | (Some e, w') => (Some e, w')
      end
  end.

Definition op_data (o : send_op) : list bytes :=
  match o with SendData d => [d] | SendPadding _ => [] end.
Definition sent_data (ops : list send_op) : list bytes := ops ≫= op_data.

(** Calls the package accepts: data of fewer than [2^20] bytes, padding [n >= 0]. *)
Definition op_valid (o : send_op) : Prop :=
  match o with SendData d => len d < 2 ^ 20 | SendPadding n => 0 <= n end.

Lemma run_op_ok o w w' :
  run_op o w = (None, w') -> op_valid o ->
  exists bs, w_out w' = w_out w ++ bs /\ encodes bs (op_data o).
Proof.
  destruct o as [d|n]; cbn [run_op op_valid op_data]; intros H Hv.
  - destruct (WriteData d w) as [[k e] w1] eqn:E. injection H as -> <-.
    destruct (WriteData_cases _ _ _ _ _ E) as [(_ & pfx & Hp & _ & Ho & _ & Hi & _)|(? & _)]; [|lia].
    destruct Hi as [Hi _]. rewrite Hi, take_ge in Ho by (done || lia).
    exists (pfx ++ d). split; [done|].
    rewrite <- (app_nil_l (pfx ++ d)), <- (app_nil_r d) at 1.
    constructor; [constructor|done|]. constructor. constructor.
  - destruct (WritePadding_cases n w) as [[? _]|(_ & pads & t & e & w1 & E & Hp & _ & Ho & _ & Hi & _)];
      [lia|]. rewrite E in H. injection H as -> <-.
    destruct Hi as [Hi _]. rewrite Hi, take_ge in Ho by (done || lia).
    exists pads. split; [done|]. by constructor.
Qed.

(** C26. Round trip: whatever a sequence of valid [WriteData] and [WritePadding] calls
    put on the wire without error, the receiver recovers exactly the data chunks, in
    order, then the stream's own end, for every segmentation of the byte stream. *)
Theorem encapsulation_roundtrip ops w w' :
  Forall op_valid ops -> run_ops ops w = (None, w') ->
  exists bs, w_out w' = w_out w ++ bs /\
    forall e r, delivers bs e r ->
    exists r', ReadData_n (length (sent_data ops)) r = (Ret (sent_data ops), r') /\
               (ReadData r').1 = Err e.
Proof.
  intros Hv Hrun.
  assert (exists bs, w_out w' = w_out w ++ bs /\ encodes bs (sent_data ops)) as (bs & Ho & He).
  { revert w Hrun. induction Hv as [|o ops Hov _ IH]; intros w Hrun.
    - injection Hrun as <-. exists []. rewrite app_nil_r. split; [done|]. do 2 constructor.
    - cbn [run_ops] in Hrun. destruct (run_op o w) as [[e|] w1] eqn:E; [done|].
      destruct (run_op_ok _ _ _ E Hov) as (bs1 & Ho1 & He1).
      destruct (IH w1 Hrun) as (bs2 & Ho2 & He2).
      exists (bs1 ++ bs2). rewrite Ho2, Ho1, app_assoc. split; [done|].
      cbn. by apply encodes_app. }
  exists bs. split; [done|]. intros e r Hr. by apply ReadData_n_encodes with bs.
Qed.

(** The count returned by [Read] is ignored: when a reader returns [0, nil], as
    [io.Reader] allows, the previous byte of the prefix is taken a second time; a
    data chunk that is present in its entirety is then reported as truncated. *)
Theorem ReadData_zero_read :
  exists r1 r2 d, flat r1 = flat r2 /\ r_end r1 = r_end r2 /\
    (ReadData r1).1 = Ret d /\ (ReadData r2).1 = Err ErrUnexpectedEOF.
Proof.
  exists (Reader [[Byte.xc0; Byte.x02; Byte.xaa; Byte.xbb]] EOF),
         (Reader [[Byte.xc0]; []; [Byte.x02; Byte.xaa; Byte.xbb]] EOF), [Byte.xaa; Byte.xbb].
  split_and!; vm_compute; reflexivity.
Qed.

(** ** Witnesses *)

Definition sample_stream : bytes :=
  [Byte.x02; Byte.x00; Byte.x00] ++ [Byte.x83; Byte.x61; Byte.x62; Byte.x63] ++ [Byte.x41].
Definition sample_reader : reader :=
  Reader [[Byte.x02; Byte.x00]; [Byte.x00; Byte.x83; Byte.x61]; [Byte.x62; Byte.x63; Byte.x41]] EOF.

Lemma ReadData_spec_witness :
  exists pads tl r', padding pads /\ flat sample_reader = pads ++ tl /\
    ((tl = [] /\ ReadData sample_reader = (Err EOF, r')) \/
     (exists pfx data rest, tl = pfx ++ data ++ rest /\ len_prefix true (len data) pfx /\
        ReadData sample_reader = (Ret data, r') /\ delivers rest EOF r') \/
     (too_long tl /\ ReadData sample_reader = (Err ErrTooLong, r')) \/
     (truncated tl /\ ReadData sample_reader = (Err ErrUnexpectedEOF, r'))).
Proof. apply (ReadData_spec sample_reader). repeat constructor; discriminate. Defined.

Lemma ReadData_eof_witness :
  let r := Reader [[Byte.x01]; [Byte.x00]] EOF in
  (ReadData r).1 = Err EOF <-> padding (flat r) /\ r_end r = EOF.
Proof. apply ReadData_eof. repeat constructor; discriminate. Defined.

Lemma ReadData_segmentation_witness :
  same_outcome (ReadData sample_reader) (ReadData (Reader [sample_stream] EOF)).
Proof.
  apply ReadData_segmentation.
  split_and!; [repeat constructor; discriminate..|reflexivity|reflexivity].
Defined.

Lemma WriteData_spec_witness :
  let w := Writer [] (Some 2%nat) (ErrIO 7) in
  let data := [Byte.x61; Byte.x62; Byte.x63] in
  exists pfx, len_prefix true (len data) pfx /\ [Byte.x83; Byte.x61] = take 2 (pfx ++ data).
Proof.
  intros w data.
  destruct (WriteData_spec data w 2 (Some (ErrIO 7)) (Writer [Byte.x83; Byte.x61] (Some O) (ErrIO 7)))
    as [(_ & pfx & Hp & _ & Ho & _)|(H & _)].
  - vm_compute. reflexivity.
  - exists pfx. split; [exact Hp|exact Ho].
  - exfalso. revert H. vm_compute. intros H. apply H. reflexivity.
Defined.

Lemma MaxDataForSize_fits_witness : exists m, MaxDataForSize 100 = Ret m /\ fits 100 m.
Proof. apply MaxDataForSize_fits. lia. Defined.

Lemma MaxDataForSize_longest_witness :
  ~ (forall m m', MaxDataForSize 64 = Ret m -> fits 64 m' -> m' <= m).
Proof. rewrite (MaxDataForSize_longest 64) by lia. lia. Defined.

Lemma encapsulation_roundtrip_witness :
  let ops := [SendPadding 3; SendData [Byte.x61]; SendPadding 70; SendData []] in
  exists bs, forall e r, delivers bs e r ->
    exists r', ReadData_n 2 r = (Ret [[Byte.x61]; []], r') /\ (ReadData r').1 = Err e.
Proof.
  intros ops. set (w := Writer [] None EOF).
  destruct (encapsulation_roundtrip ops w (run_ops ops w).2) as (bs & _ & H).
  - repeat (apply Forall_cons_2; [cbv; easy|]). apply Forall_nil_2.
  - vm_compute. reflexivity.
  - exists bs. exact H.
Defined.
