(* ===== verification/EncapConn.v ===== *)
(** * EncapsulationPacketConn (snowflake/common/standalone/encap.go)

    A packet connection over a byte stream: each packet is one data chunk of the
    encapsulation, written through a [bufio.Writer] that is flushed per packet. *)
From S2P Require Import Prelude GoIO Encapsulation.
Local Open Scope Z_scope.

Section EncapConn.
(** Addresses are opaque labels here. *)
Context {Addr : Type}.

Record EncapsulationPacketConn := EncapConn {
  ec_in : reader;
  ec_localAddr : Addr;
  ec_remoteAddr : Addr;
  ec_bw : bufio_writer }.

Definition NewEncapsulationPacketConn (localAddr remoteAddr : Addr) (conn : reader * writer)
  : EncapsulationPacketConn :=
  EncapConn conn.1 localAddr remoteAddr (NewWriter conn.2).

(** [ReadFrom(p)] with [len(p) = k]: the bytes copied into [p], or the error. *)
Definition ReadFrom (k : nat) (c : EncapsulationPacketConn)
  : res bytes * Addr * EncapsulationPacketConn :=
  match ReadData (ec_in c) with
  | (Ret data, r') =>
      (Ret (take k data), ec_remoteAddr c,
       EncapConn r' (ec_localAddr c) (ec_remoteAddr c) (ec_bw c))
  | (Err e, r') =>
      (Err e, ec_remoteAddr c, EncapConn r' (ec_localAddr c) (ec_remoteAddr c) (ec_bw c))
  | (Panic w, r') =>
      (Panic w, ec_remoteAddr c, EncapConn r' (ec_localAddr c) (ec_remoteAddr c) (ec_bw c))
  end.

(** [WriteTo(p, addr)]; the address argument is not used. *)
Definition WriteTo (p : bytes) (addr : Addr) (c : EncapsulationPacketConn)
  : nat * option error * EncapsulationPacketConn :=
  let set bw := EncapConn (ec_in c) (ec_localAddr c) (ec_remoteAddr c) bw in
  match WriteData p (ec_bw c) with
  | (_, Some e, bw) => (O, Some e, set bw)
  | (_, None, bw) =>
      match bw_Flush bw with
      | (Some e, bw') => (O, Some e, set bw')
      | (None, bw') => (length p, None, set bw')
      end
  end.

Definition LocalAddr (c : EncapsulationPacketConn) : Addr := ec_localAddr c.
Definition RemoteAddr (c : EncapsulationPacketConn) : Addr := ec_remoteAddr c.
Definition SetDeadline (c : EncapsulationPacketConn) : option error := Some ErrNotImplemented.

(** ** Properties *)

(** What the connection has put on the wire, and the state between packets. *)
Definition wire (c : EncapsulationPacketConn) : bytes := w_out (bw_wr (ec_bw c)).
Definition quiescent (c : EncapsulationPacketConn) : Prop :=
  bw_ready (ec_bw c) /\ bw_buf (ec_bw c) = [].

Lemma WriteTo_none p addr c n c' :
  quiescent c -> WriteTo p addr c = (n, None, c') ->
  n = length p /\ quiescent c' /\ ec_in c' = ec_in c /\
  exists pfx, len_prefix true (len p) pfx /\ wire c' = wire c ++ pfx ++ p.
Proof.
  intros [Hr Hb] E. unfold WriteTo in E.
  destruct (WriteData p (ec_bw c)) as [[n1 [e|]] bw] eqn:E1; [done|].
  apply WriteData_none in E1 as (pfx & Hp & Hs & _ & Hg); [|done].
  destruct (bw_Flush bw) as [[e|] bw'] eqn:E2; [done|]. injection E as <- <-.
  apply bw_Flush_none in E2 as (Hr' & Hb' & Ho).
  split_and!; [done|by split|done|]. exists pfx. split; [done|].
  unfold wire. cbn. rewrite Ho. cbn in Hs. rewrite Hs. unfold bw_pending.
  by rewrite Hb, app_nil_r.
Qed.

(** A failed write is sticky: [bufio.Writer] keeps the error, so every later
    [WriteTo] fails without putting anything more on the wire. *)
Lemma bw_Write_sticky q b e : bw_err b = Some e -> bw_Write q b = (O, Some e, b).
Proof.
  intros He. unfold bw_Write. cbn [bw_Write_loop].
  rewrite decide_False by (intros [_ ?]; congruence). by rewrite He.
Qed.

(** Several packets, one [WriteTo] each. *)
Fixpoint WriteTo_all (ps : list bytes) (addr : Addr) (c : EncapsulationPacketConn)
  : option error * EncapsulationPacketConn :=
  match ps with
  | [] => (None, c)
  | p :: ps' =>
      match WriteTo p addr c with
      | (_, None, c') => WriteTo_all ps' addr c'
      | (_, Some e, c') => (Some e, c')
      end
  end.

(** ... and as many [ReadFrom] calls with a [k]-byte buffer. *)
Fixpoint ReadFrom_all (n k : nat) (c : EncapsulationPacketConn)
  : option (list bytes) * EncapsulationPacketConn :=
  match n with
  | O => (Some [], c)
  | S n' =>
      match ReadFrom k c with
      | (Ret p, _, c') =>
          match ReadFrom_all n' k c' with (o, c'') => (cons p <$> o, c'') end
      | (_, _, c') => (None, c')
      end
  end.

Lemma WriteTo_all_none ps addr c c' :
  quiescent c -> WriteTo_all ps addr c = (None, c') ->
  exists bs, wire c' = wire c ++ bs /\ encodes bs ps.
Proof.
  revert c. induction ps as [|p ps IH]; intros c Hq E; cbn in E.
  - injection E as <-. exists []. rewrite app_nil_r. split; [done|]. do 2 constructor.
  - destruct (WriteTo p addr c) as [[n [e|]] c1] eqn:E1; [done|].
    apply WriteTo_none in E1 as (_ & Hq1 & _ & pfx & Hp & Hw); [|done].
    destruct (IH c1 Hq1 E) as (bs & Hw' & He). exists (pfx ++ p ++ bs).
    rewrite Hw', Hw, <- !app_assoc. split; [done|].
    apply (encodes_cons [] pfx p bs ps); [constructor|done|done].
Qed.

Lemma ReadFrom_all_encodes bs ps k e c :
  encodes bs ps -> delivers bs e (ec_in c) ->
  exists c', ReadFrom_all (length ps) k c = (Some (take k <$> ps), c').
Proof.
  intros He. revert c. induction He as [pads Hp|pads pfx data rest ds Hp Hd Hr IH]; intros c Hdel.
  - by exists c.
  - destruct (ReadData_data _ _ _ _ _ _ Hp Hd Hdel) as (r1 & E1 & H1).
    cbn [length ReadFrom_all]. unfold ReadFrom at 1. rewrite E1.
    destruct (IH (EncapConn r1 (ec_localAddr c) (ec_remoteAddr c) (ec_bw c)) H1) as (c' & E2).
    rewrite E2. by exists c'.
Qed.

(** Packets written without error by [WriteTo] are received by the peer's
    [ReadFrom], in order and each as one packet cut to the size of the receive
    buffer, however the stream is segmented. *)
Theorem encap_conn_roundtrip ps addr c c' k :
  quiescent c -> WriteTo_all ps addr c = (None, c') ->
  exists bs, wire c' = wire c ++ bs /\
    forall e peer, delivers bs e (ec_in peer) ->
    exists peer', ReadFrom_all (length ps) k peer = (Some (take k <$> ps), peer').
Proof.
  intros Hq E. destruct (WriteTo_all_none _ _ _ _ Hq E) as (bs & Hw & He).
  exists bs. split; [done|]. intros e peer Hdel. by eapply ReadFrom_all_encodes.
Qed.

(** [WriteTo] succeeds on every packet below [2^20] bytes as long as the
    underlying connection accepts the bytes; the count it returns is the size of
    the packet, without the prefix. *)
Theorem WriteTo_progress p addr c :
  quiescent c -> len p < 2 ^ 20 -> has_room (3 + length p) (bw_wr (ec_bw c)) ->
  exists c', WriteTo p addr c = (length p, None, c') /\ quiescent c'.
Proof.
  intros [Hr Hb] Hl Hroom. pose proof (len_nonneg p).
  destruct (dataPrefix_ok (len p) ltac:(lia)) as (pfx & E & Hp & Hs).
  assert (Hpl : (length pfx <= 3)%nat) by (rewrite Hs; unfold prefix_size; zcases; lia).
  destruct (bw_Write_ok pfx (ec_bw c)) as (b1 & E1 & Hr1 & _ & _ & Hk1); [done| |].
  { rewrite Hb. eapply has_room_le; [exact Hroom|cbn; lia]. }
  assert (Hroom1 : has_room (length (bw_buf b1) + length p) (bw_wr b1)).
  { apply Hk1. rewrite Hb. eapply has_room_le; [exact Hroom|cbn; lia]. }
  destruct (bw_Write_ok p b1 Hr1 Hroom1) as (b2 & E2 & Hr2 & _ & _ & Hk2).
  unfold WriteTo, WriteData. rewrite E. unfold io_write, bufio_IOWriter. rewrite E1, E2.
  rewrite bw_Flush_ok; [eexists; split; [done|]|apply Hr2|].
  - split; [split; [done|cbn; lia]|done].
  - specialize (Hk2 O). rewrite !Nat.add_0_r in Hk2. auto.
Qed.

(** After a failed flush nothing more is sent: every later [WriteTo] reports an
    error and leaves the wire as it is. *)
Theorem WriteTo_sticky_error p addr c e :
  bw_err (ec_bw c) = Some e ->
  exists e', WriteTo p addr c = (O, Some e', c) /\ (e' = e \/ e' = ErrTooLong).
Proof.
  intros He. destruct c as [i l r bw]. cbn in He. unfold WriteTo, WriteData. cbn [ec_bw].
  destruct (decide (0 <= len p < 2 ^ 20)) as [Hl|Hl].
  - destruct (dataPrefix_ok _ Hl) as (pfx & -> & _). unfold io_write, bufio_IOWriter.
    rewrite (bw_Write_sticky _ _ _ He). eauto.
  - rewrite dataPrefix_too_long by lia. eauto.
Qed.
End EncapConn.
Arguments EncapsulationPacketConn : clear implicits.

(** ** Witnesses *)

Definition sample_conn : EncapsulationPacketConn unit :=
  NewEncapsulationPacketConn tt tt (Reader [] EOF, Writer [] None (ErrIO 1)).

Lemma encap_conn_roundtrip_witness :
  let ps := [s2b "hello"; []; s2b "wo"] in
  exists bs, forall e (peer : EncapsulationPacketConn unit), delivers bs e (ec_in peer) ->
    exists peer', ReadFrom_all 3 3 peer = (Some [s2b "hel"; []; s2b "wo"], peer').
Proof.
  intros ps.
  destruct (encap_conn_roundtrip ps tt sample_conn (WriteTo_all ps tt sample_conn).2 3)
    as (bs & _ & H).
  - split; [split; [done|cbn; lia]|done].
  - vm_compute. reflexivity.
  - exists bs. exact H.
Defined.

Lemma WriteTo_progress_witness :
  exists c', WriteTo (s2b "hello") tt sample_conn = (5%nat, None, c') /\ quiescent c'.
Proof.
  apply WriteTo_progress; [split; [split; [done|cbn; lia]|done]|vm_compute; reflexivity|done].
Defined.

Definition broken_conn : EncapsulationPacketConn unit :=
  EncapConn (Reader [] EOF) tt tt (Bufio [Byte.x81] (Some (ErrIO 1)) (Writer [] (Some O) (ErrIO 1))).

Lemma WriteTo_sticky_error_witness :
  exists e', WriteTo (s2b "x") tt broken_conn = (O, Some e', broken_conn) /\
             (e' = ErrIO 1 \/ e' = ErrTooLong).
Proof. apply WriteTo_sticky_error. reflexivity. Defined.
