(* ===== verification/Websocket.v ===== *)
(** * websocketconn (snowflake/common/websocketconn/websocketconn.go)

    A WebSocket made to look like a [net.Conn]: two goroutines move bytes between the
    messages of the WebSocket and two synchronous pipes.  The WebSocket itself
    (gorilla/websocket) is a parameter. *)
From S2P Require Import Prelude GoIO.

(** ** The WebSocket, as gorilla/websocket documents it *)

Inductive messageType := TextMessage | BinaryMessage | OtherMessage.

#[export] Instance messageType_eq_dec : EqDecision messageType.
Proof. solve_decision. Defined.

(** The sending half: [NextWriter(BinaryMessage)], then [Write] and [Close] on the
    message writer it returns. *)
Class WSConn (W : Type) := {
  NextWriter : W -> option error * W;
  MsgWrite : bytes -> W -> option error * W;
  MsgClose : W -> option error * W }.

(** A message whose three calls succeed is sent as one message, after the earlier ones. *)
Class WSLaws (W : Type) `{WSConn W} := {
  ws_sent : W -> list bytes;
  ws_message p w w1 w2 w3 :
    NextWriter w = (None, w1) -> MsgWrite p w1 = (None, w2) -> MsgClose w2 = (None, w3) ->
    ws_sent w3 = ws_sent w ++ [p];
  ws_next_fails w e w1 : NextWriter w = (Some e, w1) -> ws_sent w1 = ws_sent w;
  ws_write_fails p w w1 e w2 :
    NextWriter w = (None, w1) -> MsgWrite p w1 = (Some e, w2) -> ws_sent w2 = ws_sent w;
  ws_close_fails p w w1 w2 e w3 :
    NextWriter w = (None, w1) -> MsgWrite p w1 = (None, w2) -> MsgClose w2 = (Some e, w3) ->
    ws_sent w3 = ws_sent w }.

(** The receiving half: the messages [NextReader] will return, each with the pieces in
    which its reader delivers the payload, then the error of a further [NextReader]. *)
Abbreviation message := (messageType * list bytes)%type.

(** ** Pipes *)

(** [io.Pipe]: the writes made so far and how many more there will be before the
    reading end is closed. *)
Record pipe := Pipe { p_writes : list bytes; p_left : option nat }.

Definition pipe_write (p : bytes) (pi : pipe) : option error * pipe :=
  match p_left pi with
  | Some 0 => (Some ErrClosedPipe, pi)
  | n => (None, Pipe (p_writes pi ++ [p]) (pred <$> n))
  end.

(** The reading end, once the writing end is closed with [e]: a write is read in one
    or more pieces. *)
Definition pipe_reader (pi : pipe) (e : error) : reader := Reader (p_writes pi) e.

(** [io.Copy(w, r)] to a pipe: each non-empty piece is one write. *)
Fixpoint Copy_pipe (pieces : list bytes) (pi : pipe) : option error * pipe :=
  match pieces with
  | [] => (None, pi)
  | [] :: ps => Copy_pipe ps pi
  | p :: ps =>
      match pipe_write p pi with
      | (None, pi') => Copy_pipe ps pi'
      | (Some e, pi') => (Some e, pi')
      end
  end.

(** ** The loops *)

Fixpoint readLoop (msgs : list message) (fin : error) (pi : pipe) : error * pipe :=
  match msgs with
  | [] => (fin, pi)
  | (ty, r) :: msgs' =>
      if decide (ty <> BinaryMessage /\ ty <> TextMessage) then readLoop msgs' fin pi
      else
        match Copy_pipe r pi with
        | (Some e, pi') => (e, pi')
        | (None, pi') => readLoop msgs' fin pi'
        end
  end.

Definition writeBuf : nat := Z.to_nat 2048.

Section WriteLoop.
Context {W : Type} `{WSConn W}.

Fixpoint writeLoop_fuel (fuel : nat) (ws : W) (r : reader) : res error * W * reader :=
  match fuel with
  | O => (Panic "out of fuel", ws, r)
  | S fuel' =>
      match read writeBuf r with
      | (_, Some e, r') => (Ret e, ws, r')
      | (data, None, r') =>
          match NextWriter ws with
          | (Some e, ws1) => (Ret e, ws1, r')
          | (None, ws1) =>
              match MsgWrite data ws1 with
              | (Some e, ws2) => (Ret e, ws2, r')
              | (None, ws2) =>
                  match MsgClose ws2 with
                  | (Some e, ws3) => (Ret e, ws3, r')
                  | (None, ws3) => writeLoop_fuel fuel' ws3 r'
                  end
              end
          end
      end
  end.

(** Every read takes a whole segment or at least one byte. *)
Definition writeLoop (ws : W) (r : reader) : res error * W * reader :=
  writeLoop_fuel (S (length (r_chunks r) + length (flat r))) ws r.
End WriteLoop.

Section Close.
(** [websocket.IsCloseError(err, code)], by the close code an error carries. *)
Context (close_code : error -> option Z).

Definition closeErrorToEOF (err : error) : error :=
  match close_code err with
  | Some c => if decide (c = 1000 \/ c = 1005)%Z then EOF else err
  | None => err
  end.

(** The receiving end [New] returns: what [readLoop] has put into the pipe, and the
    error it closed the pipe with. *)
Definition New_reader (msgs : list message) (fin : error) : reader :=
  let '(e, pi) := readLoop msgs fin (Pipe [] None) in pipe_reader pi (closeErrorToEOF e).
End Close.

(** [SetDeadline]: the read side's error first. *)
Definition SetDeadline (errRead errWrite : option error) : option error :=
  match errRead with Some e => Some e | None => errWrite end.

(** ** Lemmas *)

Lemma Copy_pipe_ok pieces ws :
  exists ps, Copy_pipe pieces (Pipe ws None) = (None, Pipe (ws ++ ps) None) /\
    concat ps = concat pieces /\ Forall (fun p => p <> []) ps.
Proof.
  revert ws. induction pieces as [|p pieces IH]; intros ws.
  - exists []. by rewrite app_nil_r.
  - destruct p as [|b p]; [destruct (IH ws) as (ps & ? & ? & ?); by exists ps|].
    destruct (IH (ws ++ [b :: p])) as (ps & E & Hc & Hn). exists ((b :: p) :: ps).
    cbn. rewrite <- app_assoc in E. cbn in Hc. rewrite E, Hc. split_and!; [done|done|by constructor].
Qed.

(** The payload a message contributes to the stream. *)
Definition payload (m : message) : bytes :=
  if decide (m.1 = BinaryMessage \/ m.1 = TextMessage) then concat m.2 else [].

Lemma readLoop_ok msgs fin ws :
  exists ps, readLoop msgs fin (Pipe ws None) = (fin, Pipe (ws ++ ps) None) /\
    concat ps = concat (payload <$> msgs) /\ Forall (fun p => p <> []) ps.
Proof.
  revert ws. induction msgs as [|[ty r] msgs IH]; intros ws.
  - exists []. by rewrite app_nil_r.
  - cbn [readLoop fmap list_fmap concat]. unfold payload at 1. cbn [fst snd].
    destruct (decide (ty <> BinaryMessage /\ ty <> TextMessage)) as [Ht|Ht].
    + rewrite decide_False by tauto. apply IH.
    + rewrite decide_True by (destruct ty; [by right|by left|by contradict Ht]).
      destruct (Copy_pipe_ok r ws) as (ps1 & -> & H1 & N1).
      destruct (IH (ws ++ ps1)) as (ps2 & E2 & H2 & N2). exists (ps1 ++ ps2).
      rewrite app_assoc, concat_app, H1, H2. split_and!; [done|done|by apply Forall_app].
Qed.

Lemma New_reader_delivers close_code msgs fin :
  delivers (concat (payload <$> msgs)) (closeErrorToEOF close_code fin) (New_reader close_code msgs fin).
Proof.
  unfold New_reader. destruct (readLoop_ok msgs fin []) as (ps & -> & Hc & Hn). by split_and!.
Qed.

(** The contents of the data messages among those received. *)
Definition data_messages (msgs : list message) : list bytes :=
  (fun m => concat m.2) <$> filter (fun m => m.1 = BinaryMessage \/ m.1 = TextMessage) msgs.

Lemma concat_data_messages msgs : concat (data_messages msgs) = concat (payload <$> msgs).
Proof.
  unfold data_messages. induction msgs as [|m msgs IH]; [done|]. rewrite filter_cons.
  cbn [fmap list_fmap concat]. unfold payload at 1. case_decide; cbn [fmap list_fmap concat]; by rewrite IH.
Qed.

Section Laws.
Context {W : Type} {HW : WSConn W} {laws : WSLaws W}.

(** What [writeLoop] has sent when it returns: a prefix of its input in messages of at
    most 2048 bytes; all of it unless the WebSocket failed. *)
Lemma writeLoop_fuel_spec fuel ws r :
  length (r_chunks r) + length (flat r) < fuel ->
  exists e ws' r' ms, writeLoop_fuel fuel ws r = (Ret e, ws', r') /\
    ws_sent ws' = ws_sent ws ++ ms /\ Forall (fun m => length m <= writeBuf) ms /\
    ((e = r_end r /\ concat ms = flat r) \/ exists lost, flat r = concat ms ++ lost ++ flat r').
Proof.
  revert ws r. induction fuel as [|fuel IH]; intros ws r Hf; [lia|]. cbn [writeLoop_fuel].
  destruct (r_chunks r) as [|c cs] eqn:Ec.
  { rewrite read_nil by done. exists (r_end r), ws, r, []. rewrite app_nil_r. split_and!; try done.
    left. split; [done|]. unfold flat. by rewrite Ec. }
  destruct (read_cons writeBuf r c cs Ec) as (r1 & -> & (Hfl & He & _) & Hle & Hlt).
  assert (Hflat : flat r = take writeBuf c ++ flat r1).
  { assert (Hc : flat r = c ++ concat cs) by (unfold flat; by rewrite Ec).
    rewrite Hfl, Hc, drop_app_le by (rewrite length_take; lia). rewrite app_assoc. f_equal.
    rewrite length_take. destruct (Nat.le_gt_cases (length c) writeBuf).
    - rewrite Nat.min_r, drop_ge, take_ge, app_nil_r by lia. done.
    - by rewrite Nat.min_l, take_drop by lia. }
  assert (Hf1 : length (r_chunks r1) + length (flat r1) < fuel).
  { rewrite Hflat, length_app, length_take in Hf. cbn in Hf.
    destruct (Nat.le_gt_cases (length c) writeBuf) as [Hc|Hc]; [rewrite Hle by done; lia|].
    rewrite Hlt by done. cbn. assert (0 < writeBuf) by (vm_compute; lia). lia. }
  assert (Hlost : exists lost, flat r = concat (@nil bytes) ++ lost ++ flat r1)
    by (exists (take writeBuf c); exact Hflat).
  destruct (NextWriter ws) as [[e|] ws1] eqn:E1.
  { apply ws_next_fails in E1. exists e, ws1, r1, []. rewrite app_nil_r. by split_and!; [..|right]. }
  destruct (MsgWrite (take writeBuf c) ws1) as [[e|] ws2] eqn:E2.
  { eapply ws_write_fails in E2; [|done]. exists e, ws2, r1, []. rewrite app_nil_r. by split_and!; [..|right]. }
  destruct (MsgClose ws2) as [[e|] ws3] eqn:E3.
  { eapply ws_close_fails in E3; [|done..]. exists e, ws3, r1, []. rewrite app_nil_r. by split_and!; [..|right]. }
  destruct (IH ws3 r1 Hf1) as (e & ws' & r' & ms & -> & Hs & Hm & Hcase).
  exists e, ws', r', (take writeBuf c :: ms). rewrite Hs, (ws_message _ _ _ _ _ E1 E2 E3), <- app_assoc.
  split_and!; [done|done|constructor; [rewrite length_take; lia|done]|].
  rewrite Hflat, He in *. cbn. destruct Hcase as [[-> ->]|[lost ->]]; [by left|right].
  exists lost. by rewrite !app_assoc.
Qed.
End Laws.

(** ** Properties *)


(** A WebSocket that sends messages until a budget is used up. *)
Record demo_ws := DemoWS { dw_sent : list bytes; dw_cur : bytes; dw_left : nat }.

#[export] Instance demo_ws_conn : WSConn demo_ws := {|
  NextWriter w := match dw_left w with
                  | O => (Some EOF, w) | S n => (None, DemoWS (dw_sent w) [] n) end;
  MsgWrite p w := (None, DemoWS (dw_sent w) (dw_cur w ++ p) (dw_left w));
  MsgClose w := (None, DemoWS (dw_sent w ++ [dw_cur w]) [] (dw_left w)) |}.

#[export] Program Instance demo_ws_laws : WSLaws demo_ws := {| ws_sent := dw_sent |}.
Next Obligation.
  intros p [s c [|n]] w1 w2 w3; cbn; [done|]. by intros [= <-] [= <-] [= <-].
Qed.
Next Obligation. intros [s c [|n]] e w1; cbn; [by intros [= _ <-]|done]. Qed.
Next Obligation. done. Qed.
Next Obligation. done. Qed.

