(* ===== verification/WsConn.v ===== *)
(** * websocketconn as goroutines (snowflake/common/websocketconn/websocketconn.go)

    [New] starts [readLoop] and [writeLoop] behind two synchronous pipes; [Read],
    [Write] and [Close] are called by any goroutines.  [Websocket] has the loops as
    functions of what they read; here they interleave with the callers, over [io.Pipe]
    as the standard library writes it. *)
From S2P Require Import Prelude Threads Websocket.

(** ** io.Pipe *)

(** A write in progress, which holds [wrMu]: what readers have taken of it, what is
    left, and whether no reader has come yet. *)
Record offer := Offer { of_taken : bytes; of_rest : bytes; of_fresh : bool }.

(** [pp_flow] is what has gone through, [pp_log] what was taken of the writes that have
    returned, and whether they returned without error. *)
Record pipe := Pipe {
  pp_offer : option offer; pp_rerr : option error; pp_werr : option error;
  pp_flow : bytes; pp_log : list (bytes * bool) }.

Definition new_pipe : pipe := Pipe None None None [] [].

Definition pipe_done (p : pipe) : bool :=
  match pp_rerr p, pp_werr p with None, None => false | _, _ => true end.
Definition readCloseError (p : pipe) : error :=
  match pp_rerr p, pp_werr p with None, Some e => e | _, _ => ErrClosedPipe end.
Definition writeCloseError (p : pipe) : error :=
  match pp_werr p, pp_rerr p with None, Some e => e | _, _ => ErrClosedPipe end.

Definition or_first (e : error) (old : option error) : option error :=
  match old with Some e' => Some e' | None => Some e end.
Definition closeRead (e : error) (p : pipe) : pipe :=
  Pipe (pp_offer p) (or_first e (pp_rerr p)) (pp_werr p) (pp_flow p) (pp_log p).
Definition closeWrite (e : error) (p : pipe) : pipe :=
  Pipe (pp_offer p) (pp_rerr p) (or_first e (pp_werr p)) (pp_flow p) (pp_log p).

Definition set_offer (o : option offer) (p : pipe) : pipe :=
  Pipe o (pp_rerr p) (pp_werr p) (pp_flow p) (pp_log p).

(** A reader with a buffer of [k] bytes takes from the write in progress. *)
Definition pipe_take (k : nat) (p : pipe) : option (bytes * pipe) :=
  o ← pp_offer p;
  if of_fresh o || negb (bool_decide (of_rest o = [])) then
    let got := take k (of_rest o) in
    Some (got, Pipe (Some (Offer (of_taken o ++ got) (drop k (of_rest o)) false))
                 (pp_rerr p) (pp_werr p) (pp_flow p ++ got) (pp_log p))
  else None.

(** The writer gets the lock. *)
Definition pipe_lock (b : bytes) (p : pipe) : option pipe :=
  match pp_offer p with None => Some (set_offer (Some (Offer [] b true)) p) | Some _ => None end.

(** The writer sees its write completed, or the pipe closed: how much was written. *)
Definition pipe_wait (p : pipe) : option (nat * option error * pipe) :=
  o ← pp_offer p;
  if negb (of_fresh o) && bool_decide (of_rest o = []) then
    Some (length (of_taken o), None,
          Pipe None (pp_rerr p) (pp_werr p) (pp_flow p) (pp_log p ++ [(of_taken o, true)]))
  else if pipe_done p then Some (length (of_taken o), Some (writeCloseError p),
          Pipe None (pp_rerr p) (pp_werr p) (pp_flow p) (pp_log p ++ [(of_taken o, false)]))
  else None.

(** ** Conn *)

(** [wc_in] is the pipe of [Read], [wc_out] the one of [Write]; [wc_received] is what
    [readLoop] read of the messages, [wc_sent] the messages sent. *)
Record wconn := WConn {
  wc_in : pipe; wc_out : pipe; wc_closed : bool; wc_received : bytes; wc_sent : list bytes }.

Definition set_in c p := WConn p (wc_out c) (wc_closed c) (wc_received c) (wc_sent c).
Definition set_out c p := WConn (wc_in c) p (wc_closed c) (wc_received c) (wc_sent c).

Inductive pc :=
  (* Read(b) with len(b) = k; Write(b) *)
  | RD_start (k : nat) | RD_wait (k : nat)
  | WR_start (b : bytes) | WR_lock (b : bytes) | WR_wait (b : bytes)
  (* Close: both pipes, the close frame, the WebSocket *)
  | CL_reader | CL_writer | CL_control | CL_ws
  (* readLoop: NextReader, then io.Copy's Read and the write to the pipe *)
  | RL_next | RL_copy | RL_start (p : bytes) (er : option error) | RL_lock (p : bytes) (er : option error)
  | RL_wait (p : bytes) (er : option error) | RL_end (e : error)
  (* writeLoop: the read from the pipe, then one message *)
  | WL_start | WL_wait | WL_send (d : bytes) | WL_end (e : error)
  | Done_read (r : res bytes) | Done_write (b : bytes) (n : nat) (e : option error) | Finished.

(** The WebSocket's part, [None] for not yet, and the branch a [select] takes. *)
Record choice := Choice {
  x_next : option (res messageType);
  x_read : option (bytes * option error);
  x_send : option (option error);
  x_branch : nat }.
Definition quiet (n : nat) : choice := Choice None None None n.

Definition ErrClosed : error := ErrMsg "use of closed network connection".

Section Conn.
(** The code of a close error. *)
Context (close_code : error -> option Z).

(** The result of [io.Copy] from a message: its end is not an error. *)
Definition copied (er : option error) : pc :=
  match er with None => RL_copy | Some EOF => RL_next | Some e => RL_end e end.

Definition readLoop_step (x : choice) (c : wconn) (t : pc) : option (wconn * pc) :=
  match t with
  | RL_next =>
      match x_next x with
      | Some (Ret ty) => Some (c, if bool_decide (ty = BinaryMessage \/ ty = TextMessage) then RL_copy else RL_next)
      | Some (Err e) => Some (c, RL_end e)
      | Some (Panic _) => None
      | None => if wc_closed c then Some (c, RL_end ErrClosed) else None
      end
  | RL_copy =>
      match x_read x with
      | Some (p, er) =>
          let c := WConn (wc_in c) (wc_out c) (wc_closed c) (wc_received c ++ p) (wc_sent c) in
          match p with [] => Some (c, copied er) | _ => Some (c, RL_start p er) end
      | None => if wc_closed c then Some (c, RL_end ErrClosed) else None
      end
  | RL_start p er =>
      if pipe_done (wc_in c) then Some (c, RL_end (writeCloseError (wc_in c))) else Some (c, RL_lock p er)
  | RL_lock p er => q ← pipe_lock p (wc_in c); Some (set_in c q, RL_wait p er)
  | RL_wait p er =>
      '(_, e, q) ← pipe_wait (wc_in c);
      Some (set_in c q, match e with Some e => RL_end e | None => copied er end)
  | RL_end e => Some (set_in c (closeWrite (closeErrorToEOF close_code e) (wc_in c)), Finished)
  | _ => None
  end.

Definition writeLoop_step (x : choice) (c : wconn) (t : pc) : option (wconn * pc) :=
  match t with
  | WL_start =>
      if pipe_done (wc_out c) then Some (c, WL_end (readCloseError (wc_out c))) else Some (c, WL_wait)
  | WL_wait =>
      match x_branch x, pipe_take writeBuf (wc_out c) with
      | O, Some (d, q) => Some (set_out c q, WL_send d)
      | _, _ => if pipe_done (wc_out c) then Some (c, WL_end (readCloseError (wc_out c))) else None
      end
  | WL_send d =>
      match x_send x with
      | Some None => Some (WConn (wc_in c) (wc_out c) (wc_closed c) (wc_received c) (wc_sent c ++ [d]), WL_start)
      | Some (Some e) => Some (c, WL_end e)
      | None => if wc_closed c then Some (c, WL_end ErrClosed) else None
      end
  | WL_end e => Some (set_out c (closeRead (closeErrorToEOF close_code e) (wc_out c)), Finished)
  | _ => None
  end.

Definition caller_step (x : choice) (c : wconn) (t : pc) : option (wconn * pc) :=
  match t with
  | RD_start k =>
      if pipe_done (wc_in c) then Some (c, Done_read (Err (readCloseError (wc_in c)))) else Some (c, RD_wait k)
  | RD_wait k =>
      match x_branch x, pipe_take k (wc_in c) with
      | O, Some (d, q) => Some (set_in c q, Done_read (Ret d))
      | _, _ => if pipe_done (wc_in c) then Some (c, Done_read (Err (readCloseError (wc_in c)))) else None
      end
  | WR_start b =>
      if pipe_done (wc_out c) then Some (c, Done_write b 0 (Some (writeCloseError (wc_out c)))) else Some (c, WR_lock b)
  | WR_lock b => q ← pipe_lock b (wc_out c); Some (set_out c q, WR_wait b)
  | WR_wait b => '(n, e, q) ← pipe_wait (wc_out c); Some (set_out c q, Done_write b n e)
  | CL_reader => Some (set_in c (closeRead ErrClosedPipe (wc_in c)), CL_writer)
  | CL_writer => Some (set_out c (closeWrite EOF (wc_out c)), CL_control)
  | CL_control => Some (c, CL_ws)
  | CL_ws => Some (WConn (wc_in c) (wc_out c) true (wc_received c) (wc_sent c), Finished)
  | _ => None
  end.

Definition ws_step (x : choice) (c : wconn) (t : pc) : option (wconn * pc) :=
  match t with
  | RL_next | RL_copy | RL_start _ _ | RL_lock _ _ | RL_wait _ _ | RL_end _ => readLoop_step x c t
  | WL_start | WL_wait | WL_send _ | WL_end _ => writeLoop_step x c t
  | _ => caller_step x c t
  end.

(** The events are what the calls of [Read] return. *)
#[export] Instance ws_machine : Machine wconn pc bytes choice :=
  {| act x c t := '(c', t') ← ws_step x c t;
                  Some (c', t', [], match t' with Done_read (Ret d) => [d] | _ => [] end);
     callable t := match t with RD_start _ | WR_start _ | CL_reader => true | _ => false end |}.

Definition New : system wconn pc := System (WConn new_pipe new_pipe false [] []) [RL_next; WL_start].
Definition reachable (s : system wconn pc) : Prop := exists tr, moves New tr s.

(** ** Invariant *)

Definition taken_now (p : pipe) : bytes := match pp_offer p with Some o => of_taken o | None => [] end.

Record pipe_ok (p : pipe) : Prop := {
  po_flow : pp_flow p = concat (pp_log p).*1 ++ taken_now p;
  po_log : pipe_done p = false -> Forall (fun e => e.2 = true) (pp_log p) }.

(** What a write in progress is about. *)
Definition offers (b : bytes) (p : pipe) : Prop :=
  exists o, pp_offer p = Some o /\ of_taken o ++ of_rest o = b.

Definition rl_ok (c : wconn) (t : pc) : Prop :=
  match t with
  | RL_next | RL_copy => pp_offer (wc_in c) = None /\ wc_received c = pp_flow (wc_in c)
  | RL_start p _ | RL_lock p _ => pp_offer (wc_in c) = None /\ wc_received c = pp_flow (wc_in c) ++ p
  | RL_wait p _ => offers p (wc_in c) /\
      exists o, pp_offer (wc_in c) = Some o /\ wc_received c = pp_flow (wc_in c) ++ of_rest o
  | RL_end _ | Finished => pp_offer (wc_in c) = None /\ pp_flow (wc_in c) `prefix_of` wc_received c
  | _ => False
  end.

Definition wl_ok (c : wconn) (t : pc) : Prop :=
  Forall (fun m => length m <= writeBuf) (wc_sent c) /\
  match t with
  | WL_start | WL_wait => pp_flow (wc_out c) = concat (wc_sent c)
  | WL_send d => pp_flow (wc_out c) = concat (wc_sent c) ++ d /\ length d <= writeBuf
  | WL_end _ | Finished => concat (wc_sent c) `prefix_of` pp_flow (wc_out c)
  | _ => False
  end.

(** What the other threads need of a pipe: who holds the lock, for what, and whether it
    is closed, do not change except by closing. *)
Definition taken_from (p q : pipe) : Prop :=
  pp_log q = pp_log p /\ pp_rerr q = pp_rerr p /\ pp_werr q = pp_werr p /\
  (exists got, pp_flow q = pp_flow p ++ got) /\
  match pp_offer p with
  | None => pp_offer q = None /\ pp_flow q = pp_flow p
  | Some o => exists o' got, pp_offer q = Some o' /\ of_taken o' ++ of_rest o' = of_taken o ++ of_rest o /\
      pp_flow q = pp_flow p ++ got /\ of_rest o = got ++ of_rest o' /\ of_taken o' = of_taken o ++ got
  end.

Lemma pipe_take_spec k p got q :
  pipe_take k p = Some (got, q) ->
  taken_from p q /\ pp_flow q = pp_flow p ++ got /\ length got <= k /\ pp_offer p <> None.
Proof.
  unfold pipe_take, taken_from. destruct (pp_offer p) as [o|]; [cbn [mbind option_bind]|done].
  destruct (_ || _); [|done]. intros [= <- <-]. cbn. split_and!; try done; [by eexists| |rewrite length_take; lia].
  eexists _, _. split_and!; try done; cbn; [by rewrite <- app_assoc, take_drop|by rewrite take_drop].
Qed.

Lemma pipe_ok_take p q : pipe_ok p -> taken_from p q -> pipe_ok q.
Proof.
  intros [Hf Hl] (E1 & E2 & E3 & _ & Ho). split.
  - unfold taken_now in *. rewrite E1. destruct (pp_offer p) as [o|].
    + destruct Ho as (o' & got & -> & _ & -> & _ & ->). by rewrite Hf, <- app_assoc.
    + destruct Ho as [-> ->]. done.
  - unfold pipe_done in *. by rewrite E1, E2, E3.
Qed.

Lemma pipe_ok_lock p q b : pipe_ok p -> pipe_lock b p = Some q -> pipe_ok q /\ offers b q /\ pp_flow q = pp_flow p /\ pp_offer p = None.
Proof.
  unfold pipe_lock. intros [Hf Hl]. destruct (pp_offer p) eqn:Eo; [done|]. intros [= <-]. split_and!; try done.
  - split; [|done]. unfold taken_now in *. rewrite Eo in Hf. cbn. by rewrite app_nil_r in *.
  - by eexists.
Qed.

Lemma pipe_ok_wait p q n e :
  pipe_ok p -> pipe_wait p = Some (n, e, q) ->
  pipe_ok q /\ pp_flow q = pp_flow p /\ pp_offer q = None /\ exists o, pp_offer p = Some o /\ n = length (of_taken o) /\
    pp_log q = pp_log p ++ [(of_taken o, if e is Some _ then false else true)] /\ (e = None -> of_rest o = []).
Proof.
  unfold pipe_wait. intros [Hf Hl]. destruct (pp_offer p) as [o|] eqn:Eo; [cbn [mbind option_bind]|done].
  unfold taken_now in Hf. rewrite Eo in Hf.
  destruct (negb (of_fresh o) && bool_decide (of_rest o = [])) eqn:Ec.
  - apply andb_true_iff in Ec as [_ Ec]. apply bool_decide_eq_true in Ec. intros [= <- <- <-].
    split_and!; try done; [|by exists o]. split.
    + unfold taken_now. cbn. rewrite fmap_app, concat_app, Hf. cbn. by rewrite !app_nil_r.
    + intros Hd. apply Forall_app. split; [by apply Hl|by repeat constructor].
  - destruct (pipe_done p) eqn:Ed; [|done]. intros [= <- <- <-]. split_and!; try done; [|by exists o]. split.
    + unfold taken_now. cbn. rewrite fmap_app, concat_app, Hf. cbn. by rewrite !app_nil_r.
    + intros Hd. unfold pipe_done in *. cbn in Hd. congruence.
Qed.

Lemma pipe_ok_close p e1 e2 :
  pipe_ok p -> pipe_ok (closeRead e1 p) /\ pipe_ok (closeWrite e2 p).
Proof.
  intros [Hf Hl]. split; split; try done; unfold pipe_done; cbn.
  - intros Hd. by destruct (pp_rerr p).
  - intros Hd. by destruct (pp_rerr p), (pp_werr p).
Qed.

(** Which part of the connection a thread is. *)
Inductive role := Reader_ | Writer_ | Caller.
Definition role_of (t : pc) : role :=
  match t with
  | RL_next | RL_copy | RL_start _ _ | RL_lock _ _ | RL_wait _ _ | RL_end _ => Reader_
  | WL_start | WL_wait | WL_send _ | WL_end _ => Writer_
  | _ => Caller
  end.

Lemma copied_role er : role_of (copied er) = Reader_ \/ exists e, copied er = RL_end e.
Proof. destruct er as [[]|]; cbn; eauto. Qed.

Lemma rl_copied c er :
  pp_offer (wc_in c) = None -> wc_received c = pp_flow (wc_in c) -> rl_ok c (copied er).
Proof. intros H1 H2. destruct er as [[]|]; cbn; rewrite ?H2; done. Qed.

(** [readLoop] acts: the pipe of [Write] and the messages sent are untouched. *)
Lemma rl_step x c t c' t' :
  pipe_ok (wc_in c) -> rl_ok c t -> role_of t = Reader_ -> readLoop_step x c t = Some (c', t') ->
  rl_ok c' t' /\ pipe_ok (wc_in c') /\ wc_out c' = wc_out c /\ wc_sent c' = wc_sent c /\
  (role_of t' = Reader_ \/ t' = Finished).
Proof.
  intros Hp Hok Hr E. destruct t; try done; cbn [readLoop_step rl_ok] in *.
  - destruct Hok as [H1 H2]. destruct (x_next x) as [[ty|e|w]|]; [..|destruct (wc_closed c); [|done]]; try done;
      injection E as <- <-; [destruct (bool_decide _)|..]; cbn; rewrite ?H2; split_and!; auto.
  - destruct Hok as [H1 H2]. destruct (x_read x) as [[p er]|].
    + destruct p as [|b p]; injection E as <- <-; split_and!; cbn; auto.
      * apply rl_copied; cbn; [done|by rewrite app_nil_r].
      * destruct (copied_role er) as [|[e ->]]; auto.
      * by rewrite H2.
    + destruct (wc_closed c); [|done]. injection E as <- <-. cbn. rewrite H2. split_and!; auto.
  - destruct Hok as [H1 H2]. destruct (pipe_done _); injection E as <- <-; cbn; split_and!; auto.
    rewrite H2. by apply prefix_app_r.
  - destruct Hok as [H1 H2]. destruct (pipe_lock p (wc_in c)) as [q|] eqn:El; [|done]. injection E as <- <-.
    destruct (pipe_ok_lock _ _ _ Hp El) as (Hq & Ho & Hf & _). cbn. split_and!; auto.
    unfold pipe_lock in El. rewrite H1 in El. injection El as <-. cbn. eexists. split; [done|by cbn; rewrite H2].
  - destruct Hok as [_ (o & Ho & Hrec)]. destruct (pipe_wait (wc_in c)) as [[[n e] q]|] eqn:Ew; [|done].
    injection E as <- <-. destruct (pipe_ok_wait _ _ _ _ Hp Ew) as (Hq & Hf & Hn & o' & Ho' & _ & _ & Hrest).
    rewrite Ho in Ho'. injection Ho' as <-. destruct e as [e|]; cbn.
    + split_and!; auto. rewrite Hf, Hrec. by apply prefix_app_r.
    + split_and!; auto; [|destruct (copied_role er) as [|[e ->]]; auto].
      apply rl_copied; cbn; [done|]. by rewrite Hf, Hrec, Hrest, app_nil_r.
  - destruct Hok as [H1 H2]. injection E as <- <-. cbn. split_and!; auto. by apply (pipe_ok_close _ EOF).
Qed.

(** [writeLoop] acts: the pipe of [Read] is untouched, the one of [Write] only read. *)
Lemma wl_step x c t c' t' :
  pipe_ok (wc_out c) -> wl_ok c t -> role_of t = Writer_ -> writeLoop_step x c t = Some (c', t') ->
  wl_ok c' t' /\ pipe_ok (wc_out c') /\ wc_in c' = wc_in c /\ wc_received c' = wc_received c /\
  (role_of t' = Writer_ \/ t' = Finished) /\
  (taken_from (wc_out c) (wc_out c') \/ exists e, wc_out c' = closeRead e (wc_out c)).
Proof.
  assert (Hrefl : forall p, taken_from p p).
  { intros p. unfold taken_from. split_and!; try done; [exists []; by rewrite app_nil_r|].
    destruct (pp_offer p); [|done]. eexists _, []. by rewrite !app_nil_r. }
  intros Hp [Hs Hok] Hr E. destruct t; try done; cbn [writeLoop_step] in *.
  - destruct (pipe_done _); injection E as <- <-; unfold wl_ok; split_and!; auto. by rewrite Hok.
  - destruct (x_branch x) as [|n].
    + destruct (pipe_take writeBuf (wc_out c)) as [[d q]|] eqn:Et.
      * injection E as <- <-. apply pipe_take_spec in Et as (Ht & Hf & Hl & _). unfold wl_ok. cbn.
        split_and!; auto; [by rewrite Hf, Hok|by eapply pipe_ok_take].
      * destruct (pipe_done _); [|done]. injection E as <- <-. unfold wl_ok. split_and!; auto. by rewrite Hok.
    + destruct (pipe_done _); [|done]. injection E as <- <-. unfold wl_ok. split_and!; auto. by rewrite Hok.
  - destruct Hok as [Hf Hl]. destruct (x_send x) as [[e|]|]; [..|destruct (wc_closed c); [|done]];
      injection E as <- <-; unfold wl_ok; cbn; split_and!; auto.
    + rewrite Hf. by apply prefix_app_r.
    + apply Forall_app. split; [done|constructor; [done|constructor]].
    + rewrite concat_app, Hf. cbn. by rewrite app_nil_r.
    + rewrite Hf. by apply prefix_app_r.
  - injection E as <- <-. unfold wl_ok. cbn. split_and!; eauto. by apply (pipe_ok_close _ _ EOF).
Qed.

(** The callers: a [Write] in progress holds the lock for its bytes, one that returned
    without error is in the log. *)
Definition caller_ok (c : wconn) (t : pc) : Prop :=
  match t with
  | WR_wait b => offers b (wc_out c)
  | Done_write b n None => n = length b /\ (b, true) ∈ pp_log (wc_out c)
  | _ => True
  end.
Definition holder (t : pc) : nat := match t with WR_wait _ => 1 | _ => 0 end.
Definition held (c : wconn) : nat := match pp_offer (wc_out c) with Some _ => 1 | None => 0 end.

(** The pipe of [Write] keeps what the other callers rely on. *)
Definition keeps (p q : pipe) : Prop :=
  (forall b, offers b p -> offers b q) /\ (forall e, e ∈ pp_log p -> e ∈ pp_log q).

Lemma taken_keeps p q : taken_from p q -> keeps p q.
Proof.
  intros (E1 & _ & _ & _ & Ho). split; [|by rewrite E1]. intros b (o & Hp & <-). rewrite Hp in Ho.
  destruct Ho as (o' & got & Hq & Heq & _). by exists o'.
Qed.

Lemma caller_spec x c t c' t' :
  pipe_ok (wc_in c) -> pipe_ok (wc_out c) -> caller_ok c t -> role_of t = Caller -> caller_step x c t = Some (c', t') ->
  role_of t' = Caller /\ pipe_ok (wc_in c') /\ pipe_ok (wc_out c') /\ wc_received c' = wc_received c /\
  wc_sent c' = wc_sent c /\ pp_flow (wc_out c') = pp_flow (wc_out c) /\
  (taken_from (wc_in c) (wc_in c') \/ exists e, wc_in c' = closeRead e (wc_in c)) /\
  caller_ok c' t' /\ held c' + holder t = held c + holder t' /\
  (forall e, e ∈ pp_log (wc_out c) -> e ∈ pp_log (wc_out c')) /\
  (holder t = 0 -> keeps (wc_out c) (wc_out c')).
Proof.
  assert (Hrefl : forall p, taken_from p p).
  { intros p. unfold taken_from. split_and!; try done; [exists []; by rewrite app_nil_r|].
    destruct (pp_offer p); [|done]. eexists _, []. by rewrite !app_nil_r. }
  intros Hi Ho Hok Hr E. destruct t; try done; cbn [caller_step] in E.
  - destruct (pipe_done _); injection E as <- <-; split_and!; auto; done.
  - destruct (match x_branch x with O => _ | _ => _ end) as [[c1 t1]|] eqn:Em in E; [|done]. injection E as <- <-.
    destruct (x_branch x) as [|n]; [destruct (pipe_take k (wc_in c)) as [[d q]|] eqn:Et|].
    + injection Em as <- <-. apply pipe_take_spec in Et as (Ht & _). cbn. split_and!; auto; try done; eauto using pipe_ok_take.
    + destruct (pipe_done _); [|done]. injection Em as <- <-. split_and!; auto; done.
    + destruct (pipe_done _); [|done]. injection Em as <- <-. split_and!; auto; done.
  - destruct (pipe_done _); injection E as <- <-; split_and!; auto; done.
  - destruct (pipe_lock b (wc_out c)) as [q|] eqn:El; [|done]. injection E as <- <-.
    destruct (pipe_ok_lock _ _ _ Ho El) as (Hq & Hof & Hf & Hn). unfold pipe_lock in El. rewrite Hn in El.
    injection El as <-. unfold held. cbn. rewrite Hn. split_and!; auto; try done.
    intros _. split; [|done]. intros b' (o & Hbad & _). congruence.
  - destruct (pipe_wait (wc_out c)) as [[[n e] q]|] eqn:Ew; [|done]. injection E as <- <-.
    destruct (pipe_ok_wait _ _ _ _ Ho Ew) as (Hq & Hf & Hn & o & Hof & -> & Hlog & Hrest).
    destruct Hok as (o' & Ho' & Hb). rewrite Hof in Ho'. injection Ho' as <-.
    unfold held. cbn. rewrite Hn, Hof. split_and!; auto; try done.
    + destruct e; [done|]. rewrite Hrest, app_nil_r in Hb by done. subst b. split; [done|]. rewrite Hlog. set_solver.
    + intros e' He'. rewrite Hlog. set_solver.
  - injection E as <- <-. cbn. split_and!; auto; try done; [by apply (pipe_ok_close _ _ EOF)|right; by eexists].
  - injection E as <- <-. cbn. split_and!; auto; try done. by apply (pipe_ok_close _ EOF).
  - injection E as <- <-. split_and!; auto; done.
  - injection E as <- <-. cbn. split_and!; auto; done.
Qed.

Lemma rl_frame c c' t :
  wc_received c' = wc_received c -> (taken_from (wc_in c) (wc_in c') \/ exists e, wc_in c' = closeRead e (wc_in c)) ->
  rl_ok c t -> rl_ok c' t.
Proof.
  intros Hr [(_ & _ & _ & _ & Ho)|[e He]].
  - unfold rl_ok. rewrite Hr. destruct t; try done; try (intros [Hn Hx]; rewrite Hn in Ho; by destruct Ho as [-> ->]).
    intros [(o & Hp & <-) (o2 & Hp2 & Hrec)]. rewrite Hp in Hp2. injection Hp2 as <-. rewrite Hp in Ho.
    destruct Ho as (o' & got & Hq & Heq & Hf & Hrest & _). split; [by exists o'|]. exists o'. split; [done|].
    by rewrite Hrec, Hf, Hrest, app_assoc.
  - unfold rl_ok, offers. rewrite Hr, He. by destruct t.
Qed.

Lemma wl_frame c c' t :
  wc_sent c' = wc_sent c -> pp_flow (wc_out c') = pp_flow (wc_out c) -> wl_ok c t -> wl_ok c' t.
Proof. unfold wl_ok. by intros -> ->. Qed.

Lemma caller_frame c c' t : keeps (wc_out c) (wc_out c') -> caller_ok c t -> caller_ok c' t.
Proof. intros [H1 H2]. destruct t as [| | | | | | | | | | | | | | | | | | | |b n []|]; cbn; auto. intros [? ?]; auto. Qed.

Record winv (s : system wconn pc) : Prop := {
  iv_in : pipe_ok (wc_in (shared s));
  iv_out : pipe_ok (wc_out (shared s));
  iv_rl : exists t, pool s !! 0 = Some t /\ rl_ok (shared s) t;
  iv_wl : exists t, pool s !! 1 = Some t /\ wl_ok (shared s) t;
  iv_callers i t : pool s !! i = Some t -> 2 <= i -> role_of t = Caller /\ caller_ok (shared s) t;
  iv_token : total holder (pool s) = held (shared s) }.

Lemma rl_role c t : rl_ok c t -> role_of t = Reader_ \/ t = Finished.
Proof. destruct t; cbn; auto; done. Qed.
Lemma wl_role c t : wl_ok c t -> role_of t = Writer_ \/ t = Finished.
Proof. intros [_ H]. destruct t; cbn in *; auto; done. Qed.

(** The index of a thread tells its role. *)
Lemma role_index s i t :
  winv s -> pool s !! i = Some t ->
  (role_of t = Reader_ -> i = 0) /\ (role_of t = Writer_ -> i = 1) /\
  (role_of t = Caller -> t = Finished \/ 2 <= i).
Proof.
  intros [_ _ (t0 & H0 & R0) (t1 & H1 & R1) Hc _] Hi. apply rl_role in R0. apply wl_role in R1.
  destruct i as [|[|i]].
  - rewrite H0 in Hi. injection Hi as ->. destruct R0 as [R0|R0]; [rewrite R0|subst; cbn]; split_and!; auto; done.
  - rewrite H1 in Hi. injection Hi as ->. destruct R1 as [R1|R1]; [rewrite R1|subst; cbn]; split_and!; auto; done.
  - destruct (Hc _ _ Hi ltac:(lia)) as [Hr _]. rewrite Hr. split_and!; try done. right. lia.
Qed.

Lemma lookup_insert_if (l : list pc) i k t' u :
  i < length l -> l !! k = Some u -> <[i := t']> l !! k = Some (if decide (i = k) then t' else u).
Proof.
  intros Hi Hk. destruct (decide (i = k)) as [-> |Hne]; [by apply list_lookup_insert_eq|by rewrite list_lookup_insert_ne].
Qed.

(** Rebuilding the invariant after thread [i] has moved. *)
Lemma winv_insert s i t t' c' :
  winv s -> pool s !! i = Some t ->
  pipe_ok (wc_in c') -> pipe_ok (wc_out c') ->
  (forall u, pool s !! 0 = Some u -> rl_ok (shared s) u -> rl_ok c' (if decide (i = 0) then t' else u)) ->
  (forall u, pool s !! 1 = Some u -> wl_ok (shared s) u -> wl_ok c' (if decide (i = 1) then t' else u)) ->
  (2 <= i -> role_of t' = Caller /\ caller_ok c' t') ->
  (forall k u, k <> i -> pool s !! k = Some u -> 2 <= k -> caller_ok (shared s) u -> caller_ok c' u) ->
  held c' + holder t = held (shared s) + holder t' ->
  winv (System c' (<[i := t']> (pool s))).
Proof.
  intros [Hi Ho (t0 & H0 & R0) (t1 & H1 & R1) Hc Ht] Ei Hi' Ho' Hrl Hwl Hown Hoth Htok.
  pose proof (lookup_lt_Some _ _ _ Ei) as Hlt. pose proof (lookup_lt_Some _ _ _ H0) as Hlt0.
  pose proof (lookup_lt_Some _ _ _ H1) as Hlt1. split; cbn; try done.
  - eexists. split; [apply (lookup_insert_if _ i 0 t' t0); [done|done]|by apply Hrl].
  - eexists. split; [apply (lookup_insert_if _ i 1 t' t1); [done|done]|by apply Hwl].
  - intros k u [(-> & -> & _)|[Hne Hk]]%list_lookup_insert_Some Hge; [auto|].
    destruct (Hc _ _ Hk Hge). split; [done|]. by eapply Hoth.
  - pose proof (total_insert holder _ _ _ t' Ei) as Hins. unfold total in Hins, Ht. lia.
Qed.

Lemma winv_rl x s t c1 t1 :
  winv s -> pool s !! 0 = Some t -> role_of t = Reader_ -> readLoop_step x (shared s) t = Some (c1, t1) ->
  winv (System c1 (<[0 := t1]> (pool s))).
Proof.
  intros Hinv Ei Er Es. pose proof Hinv as [Hi Ho _ _ Hc Htok].
  destruct (iv_rl _ Hinv) as (t0 & H0 & R0). rewrite Ei in H0. injection H0 as <-.
  destruct (rl_step _ _ _ _ _ Hi R0 Er Es) as (R' & Hi' & Eout & Esent & Hr').
  apply (winv_insert s 0 t); [done|done|done|by rewrite Eout| | |lia| |].
  - intros u Hu _. by rewrite decide_True.
  - intros u Hu Hw. rewrite decide_False by done. eapply wl_frame; [..|exact Hw]; [done|by rewrite Eout].
  - intros k u _ _ _. apply caller_frame. by rewrite Eout.
  - unfold held. rewrite Eout. destruct t; try done; destruct Hr' as [Hr'| ->]; try done; by destruct t1.
Qed.

Lemma winv_wl x s t c1 t1 :
  winv s -> pool s !! 1 = Some t -> role_of t = Writer_ -> writeLoop_step x (shared s) t = Some (c1, t1) ->
  winv (System c1 (<[1 := t1]> (pool s))).
Proof.
  intros Hinv Ei Er Es. pose proof Hinv as [Hi Ho _ _ Hc Htok].
  destruct (iv_wl _ Hinv) as (t0 & H0 & R0). rewrite Ei in H0. injection H0 as <-.
  destruct (wl_step _ _ _ _ _ Ho R0 Er Es) as (R' & Ho' & Ein & Erec & Hr' & Hk).
  apply (winv_insert s 1 t); [done|done|by rewrite Ein|done| | |lia| |].
  - intros u Hu Hl. rewrite decide_False by done. unfold rl_ok in *. by rewrite Ein, Erec.
  - intros u Hu _. by rewrite decide_True.
  - intros k u _ _ _. apply caller_frame. destruct Hk as [Hk|[e ->]]; [by apply taken_keeps|by split].
  - assert (held c1 = held (shared s)) as ->.
    { unfold held. destruct Hk as [(_ & _ & _ & _ & Hk)|[e ->]]; [|done].
      destruct (pp_offer (wc_out (shared s))); [by destruct Hk as (o' & g & -> & _)|by destruct Hk as [-> _]]. }
    destruct t; try done; destruct Hr' as [Hr'| ->]; try done; by destruct t1.
Qed.

Lemma winv_caller x s i t c1 t1 :
  winv s -> pool s !! i = Some t -> 2 <= i -> role_of t = Caller -> caller_step x (shared s) t = Some (c1, t1) ->
  winv (System c1 (<[i := t1]> (pool s))).
Proof.
  intros Hinv Ei Hge Er Es. pose proof Hinv as [Hi Ho _ _ Hc Htok]. destruct (Hc _ _ Ei Hge) as [_ Hcal].
  destruct (caller_spec _ _ _ _ _ Hi Ho Hcal Er Es) as
    (Hr' & Hi' & Ho' & Erec & Esent & Eflow & Hin & Hcal' & Hheld & Hlog & Hkeep).
  apply (winv_insert s i t); [done|done|done|done| | |done| |done].
  - intros u Hu Hl. rewrite decide_False by lia. by eapply rl_frame.
  - intros u Hu Hw. rewrite decide_False by lia. by eapply wl_frame.
  - intros k u Hne Hk Hgek Hu. destruct (holder t) eqn:Eh; [by eapply caller_frame; [apply Hkeep|]|].
    assert (holder u = 0) as Hu0.
    { pose proof (total_two holder _ i k t u ltac:(done) Ei Hk) as Htwo. rewrite Htok in Htwo.
      assert (held (shared s) <= 1) by (unfold held; case_match; lia). lia. }
    destruct u as [| | | | | | | | | | | | | | | | | | | |b0 n0 []|]; try done. destruct Hu as [? ?]. split; auto.
Qed.

Lemma winv_call s t : callable t = true -> winv s -> winv (System (shared s) (pool s ++ [t])).
Proof.
  intros Ht [Hi Ho (t0 & H0 & R0) (t1 & H1 & R1) Hc Htok]. split; cbn; try done.
  - exists t0. split; [by apply lookup_app_l_Some|done].
  - exists t1. split; [by apply lookup_app_l_Some|done].
  - intros k u [Hk|[_ [_ <-]%list_lookup_singleton_Some]]%lookup_app_Some Hge; [eauto|by destruct t].
  - rewrite total_app, Htok. destruct t; try done; cbn; lia.
Qed.

Lemma winv_move s evs s' : winv s -> move (M := ws_machine) s evs s' -> winv s'.
Proof.
  intros Hinv Hm. destruct Hm as [s t Ht|s i t x c' t' new evs Ei E]; [by apply winv_call|cbn in E].
  destruct (ws_step x (shared s) t) as [[c1 t1]|] eqn:Es; [|done]. cbn in E. injection E as <- <- <- <-.
  rewrite app_nil_r. destruct (role_index s i t Hinv Ei) as (I0 & I1 & I2). destruct (role_of t) eqn:Er.
  - specialize (I0 eq_refl) as ->. eapply winv_rl; try done. by destruct t.
  - specialize (I1 eq_refl) as ->. eapply winv_wl; try done. by destruct t.
  - specialize (I2 eq_refl) as [-> |Hge]; [done|]. eapply winv_caller; try done. by destruct t.
Qed.

Lemma winv_reachable s : reachable s -> winv s.
Proof.
  intros [tr H]. eapply (moves_ind_inv winv); [|exact winv_move|exact H]. split; cbn; try done.
  - exists RL_next. done.
  - exists WL_start. split; [done|]. split; [constructor|done].
  - intros [|[|i]] t Hi Hge; [lia|lia|done].
Qed.

(** ** What calls of Read return *)

Lemma ws_flow x c t c' t' :
  ws_step x c t = Some (c', t') ->
  pp_flow (wc_in c') = pp_flow (wc_in c) ++ match t' with Done_read (Ret d) => d | _ => [] end.
Proof.
  intros E. destruct t; cbn in E; unfold copied, pipe_lock, pipe_wait in E;
    repeat first [progress simplify_option_eq | case_match]; cbn; rewrite ?app_nil_r; try done.
  match goal with H : pipe_take _ _ = Some _ |- _ => by apply pipe_take_spec in H as (_ & -> & _) end.
Qed.

Lemma moves_flow tr s : moves New tr s -> concat tr = pp_flow (wc_in (shared s)).
Proof.
  induction 1 as [|tr s evs s' _ IH Hm]; [done|]. rewrite concat_app, IH.
  destruct Hm as [s t Ht|s i t x c' t' new evs Ei E]; [by rewrite app_nil_r|]. cbn in E.
  destruct (ws_step x (shared s) t) as [[c1 t1]|] eqn:Es; [|done]. cbn in E. injection E as <- <- <- <-.
  cbn [shared]. rewrite (ws_flow _ _ _ _ _ Es). repeat case_match; cbn; by rewrite ?app_nil_r.
Qed.

(** ** Closing *)

Definition closing_ok (c : wconn) : Prop :=
  wc_closed c = true -> pipe_done (wc_in c) = true /\ pipe_done (wc_out c) = true.
Definition closer_ok (c : wconn) (t : pc) : Prop :=
  match t with
  | CL_writer => pipe_done (wc_in c) = true
  | CL_control | CL_ws => pipe_done (wc_in c) = true /\ pipe_done (wc_out c) = true
  | _ => True
  end.

(** Nothing reopens a pipe or the WebSocket. *)
Lemma pipe_done_take k p d q : pipe_take k p = Some (d, q) -> pipe_done q = pipe_done p.
Proof. unfold pipe_take. intros E. simplify_option_eq. by case_match; simplify_eq. Qed.
Lemma pipe_done_lock b p q : pipe_lock b p = Some q -> pipe_done q = pipe_done p.
Proof. unfold pipe_lock. intros E. by case_match; simplify_eq. Qed.
Lemma pipe_done_wait p n e q : pipe_wait p = Some (n, e, q) -> pipe_done q = pipe_done p.
Proof. unfold pipe_wait. intros E. simplify_option_eq. by repeat case_match; simplify_eq. Qed.
Lemma pipe_done_close p e : pipe_done (closeRead e p) = true /\ pipe_done (closeWrite e p) = true.
Proof. unfold pipe_done. cbn. by destruct (pp_rerr p), (pp_werr p). Qed.

Definition shut (c : wconn) : bool * bool * bool := (pipe_done (wc_in c), pipe_done (wc_out c), wc_closed c).

Lemma ws_shut x c t c' t' :
  ws_step x c t = Some (c', t') ->
  shut c' = match t with
            | CL_reader | RL_end _ => (true, pipe_done (wc_out c), wc_closed c)
            | CL_writer | WL_end _ => (pipe_done (wc_in c), true, wc_closed c)
            | CL_ws => (pipe_done (wc_in c), pipe_done (wc_out c), true)
            | _ => shut c
            end /\
  (match t with CL_reader => t' = CL_writer | CL_writer => t' = CL_control | CL_control => t' = CL_ws
   | _ => match t' with CL_writer | CL_control | CL_ws => False | _ => True end end).
Proof.
  intros E. unfold shut. destruct t; cbn [ws_step readLoop_step writeLoop_step caller_step] in E; unfold copied in E;
    repeat first [progress simplify_option_eq | case_match]; cbn [set_in set_out wc_in wc_out wc_closed];
    repeat match goal with
    | H : pipe_take _ _ = Some _ |- _ => apply pipe_done_take in H
    | H : pipe_lock _ _ = Some _ |- _ => apply pipe_done_lock in H
    | H : pipe_wait _ = Some _ |- _ => apply pipe_done_wait in H
    end; rewrite ?(proj1 (pipe_done_close _ _)), ?(proj2 (pipe_done_close _ _)); split; congruence || done.
Qed.

Lemma ws_done x c t c' t' :
  ws_step x c t = Some (c', t') ->
  (pipe_done (wc_in c) = true -> pipe_done (wc_in c') = true) /\
  (pipe_done (wc_out c) = true -> pipe_done (wc_out c') = true) /\
  (wc_closed c = true -> wc_closed c' = true) /\
  (closing_ok c -> closer_ok c t -> closing_ok c' /\ closer_ok c' t').
Proof.
  intros [E Et]%ws_shut. unfold shut, closing_ok in *.
  assert (Hcl : closer_ok c t -> closer_ok c' t').
  { destruct t; subst; unfold closer_ok; injection E as E1 E2 E3; rewrite ?E1, ?E2; try (by destruct t'); tauto. }
  destruct t; injection E as E1 E2 E3; rewrite E1, E2, E3; cbn [closer_ok] in *; tauto.
Qed.

Lemma closing_reachable s : reachable s -> pool_ok closing_ok closer_ok s.
Proof.
  intros [tr H]. eapply (moves_ind_inv (pool_ok closing_ok closer_ok)); [|intros s1 evs s2 Hok Hm|exact H].
  - split; [done|]. intros [|[|k]] u; cbn; [by intros [= <-]|by intros [= <-]|done].
  - eapply (pool_ok_move (fun _ => True) closing_ok closer_ok); [..|exact I|exact Hm|exact Hok].
    + intros c t Hc _. by destruct t.
    + intros s0 i x t c' t' new evs' _ HJ Ei HP E. cbn in E.
      destruct (ws_step x (shared s0) t) as [[c1 t1]|] eqn:Es; [|done]. cbn in E. injection E as <- <- <- <-.
      destruct (ws_done _ _ _ _ _ Es) as (Hin & Hout & _ & Hc). destruct (Hc HJ HP) as [HJ' HP'].
      split_and!; [done|done|constructor|]. intros k u _ _ Hu. destruct u; cbn in *; naive_solver.
Qed.

(** Steps left once the connection is closed. *)
Definition rank (t : pc) : nat :=
  match t with
  | RD_start _ => 2 | RD_wait _ => 1
  | WR_start _ => 3 | WR_lock _ => 2 | WR_wait _ => 1
  | CL_reader => 4 | CL_writer => 3 | CL_control => 2 | CL_ws => 1
  | RL_start _ _ => 6 | RL_lock _ _ => 5 | RL_wait _ _ => 4 | RL_copy => 3 | RL_next => 2 | RL_end _ => 1
  | WL_wait => 4 | WL_send _ => 3 | WL_start => 2 | WL_end _ => 1
  | Done_read _ | Done_write _ _ _ | Finished => 0
  end.

Definition quiet_turn (a : turn (Pc := pc) (Ch := choice)) : Prop :=
  match a with Enter _ => False | Turn _ x => exists n, x = quiet n end.

Lemma quiet_rank n c t c' t' :
  closing_ok c -> wc_closed c = true -> ws_step (quiet n) c t = Some (c', t') -> rank t' < rank t.
Proof.
  intros HJ Hc E. destruct (HJ Hc) as [Hin Hout].
  destruct t; cbn in E; rewrite ?Hc, ?Hin, ?Hout in E; unfold copied in E;
    repeat first [progress simplify_option_eq | case_match]; cbn; lia.
Qed.

(** Once closed, a thread that is not at the lock of a [Write] can act. *)
Lemma closed_acts s i t :
  winv s -> closing_ok (shared s) -> wc_closed (shared s) = true -> pool s !! i = Some t -> 0 < rank t ->
  (forall b, t <> WR_lock b) -> exists c' t', ws_step (quiet 1) (shared s) t = Some (c', t').
Proof.
  intros Hinv HJ Hc Ei Hr Hnl. destruct (HJ Hc) as [Hin Hout].
  destruct (role_index s i t Hinv Ei) as (I0 & I1 & I2).
  assert (Hwait : forall p b, offers b p -> pipe_done p = true -> is_Some (pipe_wait p)).
  { intros p b (o & Ho & _) Hd. unfold pipe_wait. rewrite Ho, Hd. cbn. case_match; eauto. }
  destruct t; cbn in *; try lia; rewrite ?Hc, ?Hin, ?Hout; eauto.
  - by destruct (Hnl b).
  - destruct I2 as [|Hge]; [done|done|]. destruct (iv_callers _ Hinv _ _ Ei Hge) as [_ Hof].
    destruct (Hwait _ _ Hof Hout) as [[[k e] q] ->]. cbn. eauto.
  - specialize (I0 eq_refl) as ->. destruct (iv_rl _ Hinv) as (u & Hu & Hok). rewrite Ei in Hu. injection Hu as <-.
    destruct Hok as [Hn _]. unfold pipe_lock. rewrite Hn. cbn. eauto.
  - specialize (I0 eq_refl) as ->. destruct (iv_rl _ Hinv) as (u & Hu & Hok). rewrite Ei in Hu. injection Hu as <-.
    destruct Hok as [Hof _]. destruct (Hwait _ _ Hof Hin) as [[[k e] q] ->]. cbn. eauto.
Qed.

(** While something is unfinished some thread can act: a [Write] at the lock waits for
    one that is past it. *)
Lemma closed_progress s i t :
  winv s -> closing_ok (shared s) -> wc_closed (shared s) = true -> pool s !! i = Some t -> 0 < rank t ->
  exists k u c' u', pool s !! k = Some u /\ ws_step (quiet 1) (shared s) u = Some (c', u').
Proof.
  intros Hinv HJ Hc Ei Hr.
  assert (Hdec : (exists b, t = WR_lock b) \/ forall b, t <> WR_lock b) by (destruct t; eauto).
  destruct Hdec as [[b ->]|Hnl].
  2: { destruct (closed_acts s i t) as (c' & u' & E); eauto 8. }
  destruct (pp_offer (wc_out (shared s))) as [o|] eqn:Eo.
  - pose proof (iv_token _ Hinv) as Ht. unfold held in Ht. rewrite Eo in Ht.
    destruct (total_pos holder (pool s)) as (k & u & Ek & Hu); [lia|].
    assert (Hu' : 0 < rank u /\ forall b', u <> WR_lock b') by (destruct u; cbn in *; try lia; split; [lia|done]).
    destruct Hu' as [Hu1 Hu2]. destruct (closed_acts s k u) as (c' & u' & E); eauto 8.
  - exists i, (WR_lock b). cbn. unfold pipe_lock. rewrite Eo. cbn. eauto.
Qed.

Lemma reachable_play l s tr s' : reachable s -> play l s = Some (tr, s') -> reachable s'.
Proof. intros [tr0 H0] H%play_moves. exists (tr0 ++ tr). by eapply moves_trans. Qed.

Lemma ws_quiet_play l s tr s' :
  Forall quiet_turn l -> reachable s -> wc_closed (shared s) = true -> play l s = Some (tr, s') ->
  length l + total rank (pool s') <= total rank (pool s) /\ wc_closed (shared s') = true.
Proof.
  revert s tr. induction l as [|a l IH]; intros s tr Hq Hr Hc E.
  - cbn in E. injection E as <- <-. split; [cbn; lia|done].
  - apply Forall_cons_1 in Hq as [Ha Hq]. destruct a as [t|i x]; [done|]. destruct Ha as [n ->].
    pose proof (reachable_play [Turn i (quiet n)] s) as Hreach. cbn [play] in E, Hreach.
    destruct (pool s !! i) as [t|] eqn:Ei; [|done]. cbn in E, Hreach.
    destruct (ws_step (quiet n) (shared s) t) as [[c' t']|] eqn:Es; [|done]. cbn in E, Hreach.
    rewrite !app_nil_r in Hreach. rewrite app_nil_r in E. destruct (play l _) as [[tr' s1]|] eqn:Er; [|done]. cbn in E. injection E as <- <-.
    pose proof (quiet_rank _ _ _ _ _ (proj1 (closing_reachable _ Hr)) Hc Es) as Hlt.
    destruct (ws_done _ _ _ _ _ Es) as (_ & _ & Hc' & _).
    destruct (IH _ _ Hq (Hreach _ _ Hr eq_refl) (Hc' Hc) Er) as [IH1 IH2]. cbn [pool] in IH1.
    pose proof (total_insert rank _ _ _ t' Ei). cbn [length]. split; [lia|done].
Qed.

(** C20. A Conn is a byte stream both ways, whatever goroutines use it and however they
    interleave with the two loops.  The calls of [Read] together return a prefix of what
    the peer's messages carry, in order, all of it whenever [readLoop] is back at
    [NextReader]; the messages sent, of at most 2048 bytes, are a prefix of what the calls
    of [Write] handed over, all of it whenever [writeLoop] is back at its read, and the
    writes do not mix; a [Write] that returns without error has handed over all its bytes,
    and one returns early only if the pipe is closed. *)
Theorem wsconn_order tr s :
  moves New tr s ->
  let c := shared s in
  concat tr `prefix_of` wc_received c /\
  (pool s !! 0 = Some RL_next -> concat tr = wc_received c) /\
  concat (wc_sent c) `prefix_of` pp_flow (wc_out c) /\
  (pool s !! 1 = Some WL_wait -> concat (wc_sent c) = pp_flow (wc_out c)) /\
  Forall (fun m => length m <= 2048) (wc_sent c) /\
  pp_flow (wc_out c) = concat (pp_log (wc_out c)).*1 ++ taken_now (wc_out c) /\
  (pipe_done (wc_out c) = false -> Forall (fun e => e.2 = true) (pp_log (wc_out c))) /\
  (forall i b n, pool s !! i = Some (Done_write b n None) -> n = length b /\ (b, true) ∈ pp_log (wc_out c)).
Proof.
  intros H. rewrite (moves_flow _ _ H). assert (Hr : reachable s) by (by exists tr).
  pose proof (winv_reachable _ Hr) as Hinv. pose proof Hinv as [_ [Hf Hl] (t0 & H0 & R0) (t1 & H1 & [Hb R1]) Hc _]. cbn zeta. split_and!; try done.
  - destruct t0; try done; cbn in R0; destruct R0 as [H2 R0]; rewrite ?R0; try done; try by apply prefix_app_r.
    destruct R0 as (o & _ & ->). by apply prefix_app_r.
  - intros E. rewrite E in H0. injection H0 as <-. symmetry. apply R0.
  - destruct t1; try done; cbn in R1; rewrite ?R1; try done. destruct R1 as [-> _]. by apply prefix_app_r.
  - intros E. rewrite E in H1. injection H1 as <-. by rewrite R1.
  - intros i b n E. destruct (role_index _ _ _ Hinv E) as (_ & _ & [|Hi]); [done|done|]. by destruct (Hc _ _ E Hi).
Qed.

(** C21. Close releases everything.  Once the WebSocket has been closed, which a [Close]
    does after it has closed both pipes, every [Read], [Write] and [Close] in progress and
    both loops end without anything more from the peer: they take at most [rank] steps in
    all, however they are scheduled, and when none of them can act, all have finished; a
    [Write] waiting for the lock is not forgotten. *)
Theorem wsconn_close_releases s l tr s' :
  reachable s -> wc_closed (shared s) = true ->
  Forall quiet_turn l -> play l s = Some (tr, s') ->
  length l <= total rank (pool s) /\
  pipe_done (wc_in (shared s')) = true /\ pipe_done (wc_out (shared s')) = true /\
  ((forall i n, play [Turn i (quiet n)] s' = None) -> Forall (fun t => rank t = 0) (pool s')).
Proof.
  intros Hr Hc Hq E. destruct (ws_quiet_play l s tr s' Hq Hr Hc E) as [Hle Hc'].
  pose proof (reachable_play _ _ _ _ Hr E) as Hr'. pose proof (proj1 (closing_reachable _ Hr')) as HJ.
  split; [lia|]. split_and!; [by apply HJ|by apply HJ|]. intros Hstuck. apply list.Forall_forall.
  intros t [i Ei]%list_elem_of_lookup. destruct (decide (rank t = 0)) as [|Hne]; [done|exfalso].
  destruct (closed_progress s' i t) as (k & u & c' & u' & Ek & Eu); [by apply winv_reachable|done|done|done|lia|].
  specialize (Hstuck k 1). cbn [play] in Hstuck. rewrite Ek in Hstuck. cbn in Hstuck. by rewrite Eu in Hstuck.
Qed.
End Conn.

(** ** Runs *)

Definition no_code (e : error) : option Z := None.
Definition hears (p : bytes) : choice := Choice (Some (Ret BinaryMessage)) (Some (p, Some EOF)) (Some None) 0.

(** A message of five bytes is read three bytes at a time, and [Write] of two bytes sent. *)
Definition talk : list (turn (Pc := pc) (Ch := choice)) :=
  let x := hears (s2b "abcde") in
  [Turn 0 x; Turn 0 x; Turn 0 x; Turn 0 x; Enter (RD_start 3); Turn 2 x; Turn 2 x; Enter (RD_start 3); Turn 3 x; Turn 3 x;
   Turn 0 x; Enter (WR_start (s2b "ok")); Turn 4 x; Turn 4 x; Turn 1 x; Turn 1 x; Turn 4 x; Turn 1 x; Turn 1 x].

Definition run_end (l : list (turn (Pc := pc) (Ch := choice))) (s : system wconn pc) : system wconn pc :=
  match play (M := ws_machine no_code) l s with Some (_, s') => s' | None => s end.
Definition talk_end : system wconn pc := Eval vm_compute in run_end talk New.

Lemma wsconn_order_witness :
  moves (M := ws_machine no_code) New [s2b "abc"; s2b "de"] talk_end /\
  concat [s2b "abc"; s2b "de"] = wc_received (shared talk_end) /\ wc_sent (shared talk_end) = [s2b "ok"] /\
  (s2b "ok", true) ∈ pp_log (wc_out (shared talk_end)).
Proof.
  assert (Hm : moves (M := ws_machine no_code) New [s2b "abc"; s2b "de"] talk_end).
  { apply (play_moves talk). vm_compute. reflexivity. }
  destruct (wsconn_order no_code _ _ Hm) as (_ & H1 & _ & _ & _ & _ & _ & H2).
  split; [exact Hm|]. split; [exact (H1 eq_refl)|]. split; [reflexivity|exact (proj2 (H2 4 _ _ eq_refl))].
Defined.

(** [Close] while a [Read] waits, a [Write] is in progress and another waits for the lock. *)
Definition close_run : list (turn (Pc := pc) (Ch := choice)) :=
  let q := quiet 0 in
  [Enter (RD_start 3); Turn 2 q; Enter (WR_start (s2b "x")); Turn 3 q; Turn 3 q; Enter (WR_start (s2b "y")); Turn 4 q;
   Enter CL_reader; Turn 5 q; Turn 5 q; Turn 5 q; Turn 5 q].
Definition drain : list (turn (Pc := pc) (Ch := choice)) :=
  [Turn 2 (quiet 0); Turn 3 (quiet 0); Turn 4 (quiet 0); Turn 4 (quiet 0); Turn 0 (quiet 0); Turn 0 (quiet 0);
   Turn 1 (quiet 0); Turn 1 (quiet 0)].

Definition closed_state : system wconn pc := Eval vm_compute in run_end close_run New.
Definition drained : system wconn pc := Eval vm_compute in run_end drain closed_state.

Lemma wsconn_close_releases_witness :
  reachable no_code closed_state /\ wc_closed (shared closed_state) = true /\
  play (M := ws_machine no_code) drain closed_state = Some ([], drained) /\
  length drain <= total rank (pool closed_state) /\ Forall (fun t => rank t = 0) (pool drained).
Proof.
  assert (Hr : reachable no_code closed_state).
  { exists []. apply (play_moves close_run). vm_compute. reflexivity. }
  assert (E : play (M := ws_machine no_code) drain closed_state = Some ([], drained)) by (vm_compute; reflexivity).
  assert (Hq : Forall quiet_turn drain) by (repeat (constructor; [by eexists|]); constructor).
  destruct (wsconn_close_releases no_code _ _ _ _ Hr eq_refl Hq E) as (H1 & _ & _ & H2).
  split; [exact Hr|]. split; [reflexivity|]. split; [exact E|]. split; [exact H1|]. apply H2.
  intros [|[|[|[|[|[|i]]]]]] n; reflexivity.
Defined.
