(* ===== verification/ClientMap.v ===== *)
(** * ClientMap (snowflake/common/turbotunnel/clientmap.go)

    A map from client addresses to send queues, kept as a binary heap ordered by
    the time a client was last seen, with an index from addresses to positions in
    the heap.  [container/heap] is transcribed from the Go standard library over
    the heap interface the code implements ([Len], [Less], [Swap], [Push], [Pop]).
    [None] is a panic: an index out of range, an inconsistent map, or a duplicate
    address.  The theorems relate the pair to the abstract map [view]. *)
From S2P Require Import Prelude.

(** A channel is named by its identity. *)
Abbreviation chan_id := nat (only parsing).

Section ClientMap.
Context {Addr : Type} {Addr_eq : EqDecision Addr} {Addr_countable : Countable Addr}.

Record clientRecord := ClientRecord {
  cr_Addr : Addr;
  cr_LastSeen : Z;
  cr_SendQueue : chan_id }.

Record clientMapInner := ClientMapInner {
  byAge : list clientRecord;
  byAddr : gmap Addr nat }.

Definition NewClientMap : clientMapInner := ClientMapInner [] ∅.

(** ** heap.Interface for clientMapInner *)

Definition Len (m : clientMapInner) : option nat :=
  if decide (length (byAge m) = size (byAddr m)) then Some (length (byAge m)) else None.

Definition Less (m : clientMapInner) (i j : nat) : option bool :=
  ri ← byAge m !! i; rj ← byAge m !! j;
  Some (bool_decide (cr_LastSeen ri < cr_LastSeen rj)%Z).

Definition Swap (m : clientMapInner) (i j : nat) : option clientMapInner :=
  ri ← byAge m !! i; rj ← byAge m !! j;
  let age := <[j := ri]> (<[i := rj]> (byAge m)) in
  ri' ← age !! i; rj' ← age !! j;
  Some (ClientMapInner age (<[cr_Addr rj' := j]> (<[cr_Addr ri' := i]> (byAddr m)))).

Definition Push (m : clientMapInner) (record : clientRecord) : option clientMapInner :=
  match byAddr m !! cr_Addr record with
  | Some _ => None
  | None =>
      Some (ClientMapInner (byAge m ++ [record])
              (<[cr_Addr record := length (byAge m)]> (byAddr m)))
  end.

Definition Pop (m : clientMapInner) : option (clientRecord * clientMapInner) :=
  match size (byAddr m) with
  | O => None
  | S n =>
      record ← byAge m !! n;
      Some (record, ClientMapInner (take n (byAge m)) (delete (cr_Addr record) (byAddr m)))
  end.

(** ** container/heap *)

(** [(j - 1) / 2]; Go's division truncates, so the parent of 0 is 0. *)
Definition parent (j : nat) : nat := (j - 1) / 2.

Fixpoint up (fuel : nat) (m : clientMapInner) (j : nat) : option clientMapInner :=
  match fuel with
  | O => None
  | S fuel' =>
      let i := parent j in
      if decide (i = j) then Some m
      else
        b ← Less m j i;
        if negb b then Some m
        else m' ← Swap m i j; up fuel' m' i
  end.

(** Returns the final position besides the map; Go returns whether it moved. *)
Fixpoint down (fuel : nat) (m : clientMapInner) (i n : nat) : option (nat * clientMapInner) :=
  match fuel with
  | O => None
  | S fuel' =>
      let j1 := 2 * i + 1 in
      if decide (n <= j1) then Some (i, m)
      else
        let j2 := j1 + 1 in
        b2 ← (if decide (j2 < n) then Less m j2 j1 else Some false);
        let j := if (b2 : bool) then j2 else j1 in
        b ← Less m j i;
        if negb b then Some (i, m)
        else m' ← Swap m i j; down fuel' m' j n
  end.

Definition heap_Push (m : clientMapInner) (x : clientRecord) : option clientMapInner :=
  m1 ← Push m x; n ← Len m1; up n m1 (n - 1).

Definition heap_Pop (m : clientMapInner) : option (clientRecord * clientMapInner) :=
  l ← Len m; let n := l - 1 in
  m1 ← Swap m 0 n;
  p ← down (S n) m1 0 n;
  Pop p.2.

Definition heap_Fix (m : clientMapInner) (i : nat) : option clientMapInner :=
  n ← Len m;
  p ← down (S n) m i n;
  if decide (i < p.1) then Some p.2 else up (S i) p.2 i.

(** ** clientMapInner *)

(** [now.Sub(r.LastSeen) >= timeout] *)
Definition expired (now timeout : Z) (r : clientRecord) : Prop :=
  (timeout <= sat64 (now - cr_LastSeen r))%Z.
#[global] Instance expired_dec now timeout r : Decision (expired now timeout r).
Proof. unfold expired. apply _. Defined.

Fixpoint removeExpired_loop (fuel : nat) (now timeout : Z) (m : clientMapInner)
  : option clientMapInner :=
  match fuel with
  | O => None
  | S fuel' =>
      match byAge m with
      | [] => Some m
      | r :: _ =>
          if decide (expired now timeout r)
          then p ← heap_Pop m; removeExpired_loop fuel' now timeout p.2
          else Some m
      end
  end.

Definition removeExpired (now timeout : Z) (m : clientMapInner) : option clientMapInner :=
  removeExpired_loop (S (length (byAge m))) now timeout m.

(** [fresh] is the channel [make(chan []byte, queueSize)] would return. *)
Definition SendQueue (m : clientMapInner) (addr : Addr) (now : Z) (fresh : chan_id)
  : option (chan_id * clientMapInner) :=
  match byAddr m !! addr with
  | Some i =>
      record ← byAge m !! i;
      let record := ClientRecord (cr_Addr record) now (cr_SendQueue record) in
      m' ← heap_Fix (ClientMapInner (<[i := record]> (byAge m)) (byAddr m)) i;
      Some (cr_SendQueue record, m')
  | None =>
      let record := ClientRecord addr now fresh in
      m' ← heap_Push m record;
      Some (cr_SendQueue record, m')
  end.

(** ** The abstract map *)

Definition view (m : clientMapInner) : gmap Addr clientRecord :=
  omap (fun i => byAge m !! i) (byAddr m).

(** The index and the heap agree. *)
Definition indexed (m : clientMapInner) : Prop :=
  (forall i r, byAge m !! i = Some r -> byAddr m !! cr_Addr r = Some i) /\
  (forall a i, byAddr m !! a = Some i -> exists r, byAge m !! i = Some r /\ cr_Addr r = a).

(** The time at a position of the heap. *)
Definition key (m : clientMapInner) (i : nat) : Z :=
  default 0%Z (cr_LastSeen <$> byAge m !! i).

(** The first [n] positions form a heap. *)
Definition heap_upto (n : nat) (m : clientMapInner) : Prop :=
  forall j, 0 < j < n -> (key m (parent j) <= key m j)%Z.

Definition inv (m : clientMapInner) : Prop :=
  indexed m /\ heap_upto (length (byAge m)) m.

(** ** The index *)

Lemma view_lookup m a r :
  indexed m -> view m !! a = Some r <-> cr_Addr r = a /\ r ∈ byAge m.
Proof.
  intros [I1 I2]. unfold view. rewrite lookup_omap. split.
  - intros H. destruct (byAddr m !! a) as [i|] eqn:E; [|done]. cbn in H.
    destruct (I2 a i E) as (r' & Hr & Ha). rewrite Hr in H. injection H as ->.
    split; [done|]. by eapply list_elem_of_lookup_2.
  - intros [<- [i Hi]%list_elem_of_lookup]. rewrite (I1 i r Hi). cbn. done.
Qed.

Lemma view_at m i r : indexed m -> byAge m !! i = Some r -> view m !! cr_Addr r = Some r.
Proof. intros Hi Hr. apply view_lookup; [done|]. split; [done|]. by eapply list_elem_of_lookup_2. Qed.

Lemma view_None m a : indexed m -> view m !! a = None <-> byAddr m !! a = None.
Proof.
  intros [I1 I2]. unfold view. rewrite lookup_omap. split.
  - destruct (byAddr m !! a) as [i|] eqn:E; [|done]. cbn.
    destruct (I2 a i E) as (r & -> & _). done.
  - by intros ->.
Qed.

(** Two well-indexed states with the same records have the same view. *)
Lemma view_ext m m' :
  indexed m -> indexed m' -> (forall r, r ∈ byAge m' <-> r ∈ byAge m) -> view m' = view m.
Proof.
  intros Hi Hi' H. apply map_eq. intros a. apply option_eq. intros r.
  rewrite !view_lookup by done. by rewrite H.
Qed.

Lemma indexed_size m : indexed m -> size (byAddr m) = length (byAge m).
Proof.
  intros [I1 I2].
  assert (Hnd : NoDup (cr_Addr <$> byAge m)).
  { apply NoDup_alt. intros i j a Ei Ej.
    apply list_lookup_fmap_Some in Ei as (ri & -> & Hi).
    apply list_lookup_fmap_Some in Ej as (rj & E & Hj).
    apply I1 in Hi, Hj. congruence. }
  rewrite <- size_dom.
  assert (Hd : dom (byAddr m) = list_to_set (cr_Addr <$> byAge m)).
  { apply set_eq. intros a. rewrite elem_of_dom, elem_of_list_to_set, list_elem_of_fmap. split.
    - intros [i E]. destruct (I2 a i E) as (r & Hr & Ha). exists r. split; [done|].
      by eapply list_elem_of_lookup_2.
    - intros (r & -> & [i Hi]%list_elem_of_lookup). exists i. by apply I1. }
  rewrite Hd, size_list_to_set by done. apply length_fmap.
Qed.

Lemma indexed_Len m : indexed m -> Len m = Some (length (byAge m)).
Proof. intros Hi. unfold Len. rewrite decide_True; [done|]. by rewrite indexed_size. Qed.

Lemma Less_key m i j :
  i < length (byAge m) -> j < length (byAge m) ->
  Less m i j = Some (bool_decide (key m i < key m j)%Z).
Proof.
  intros Hi Hj. unfold Less, key.
  apply lookup_lt_is_Some_2 in Hi as [ri Hi], Hj as [rj Hj]. by rewrite Hi, Hj.
Qed.

(** A list with two positions exchanged. *)
Definition swapped {A} (l : list A) (i j : nat) (l' : list A) : Prop :=
  length l' = length l /\
  forall k, l' !! k = if decide (k = i) then l !! j else if decide (k = j) then l !! i else l !! k.

Lemma swapped_insert {A} (l : list A) i j x y :
  l !! i = Some x -> l !! j = Some y -> swapped l i j (<[j := x]> (<[i := y]> l)).
Proof.
  intros Ei Ej. pose proof (lookup_lt_Some _ _ _ Ei). pose proof (lookup_lt_Some _ _ _ Ej).
  split; [by rewrite !length_insert|]. intros k. destruct (decide (k = j)) as [->|Hkj].
  - rewrite list_lookup_insert_eq by (by rewrite length_insert).
    destruct (decide (j = i)) as [->|]; congruence.
  - rewrite list_lookup_insert_ne by done. destruct (decide (k = i)) as [->|].
    + by rewrite list_lookup_insert_eq.
    + by rewrite list_lookup_insert_ne.
Qed.

Lemma swapped_elem {A} (l : list A) i j l' x : swapped l i j l' -> i < length l -> j < length l -> x ∈ l' <-> x ∈ l.
Proof.
  intros [_ Hl] Hi Hj. rewrite !list_elem_of_lookup. setoid_rewrite Hl. split; intros [k Hk].
  - repeat case_decide; eauto.
  - destruct (decide (k = i)) as [->|].
    { exists j. case_decide as E; [congruence|]. by rewrite decide_True. }
    destruct (decide (k = j)) as [->|]; [exists i; by rewrite decide_True|].
    exists k. by rewrite !decide_False.
Qed.

(** The index after an exchange. *)
Lemma swapped_indexed m i j ri rj age :
  indexed m -> byAge m !! i = Some ri -> byAge m !! j = Some rj -> swapped (byAge m) i j age ->
  indexed (ClientMapInner age (<[cr_Addr ri := j]> (<[cr_Addr rj := i]> (byAddr m)))).
Proof.
  intros [I1 I2] Ei Ej [_ Hage]. pose proof (I1 _ _ Ei) as Ai. pose proof (I1 _ _ Ej) as Aj. split; cbn.
  - intros k r Hr. rewrite Hage in Hr. rewrite !lookup_insert. destruct (decide (k = i)) as [->|Hki].
    { assert (r = rj) as -> by congruence.
      destruct (decide (cr_Addr ri = cr_Addr rj)) as [E|]; [congruence|]. by rewrite decide_True. }
    destruct (decide (k = j)) as [->|Hkj].
    { assert (r = ri) as -> by congruence. by rewrite decide_True. }
    apply I1 in Hr as Hrk. rewrite !decide_False; [done| |]; intros E; congruence.
  - intros a k Hk. rewrite !lookup_insert in Hk. destruct (decide (cr_Addr ri = a)).
    { injection Hk as <-. exists ri. split; [|done]. rewrite Hage.
      destruct (decide (j = i)) as [->|]; [congruence|]. by rewrite decide_True. }
    destruct (decide (cr_Addr rj = a)).
    { injection Hk as <-. exists rj. split; [|done]. rewrite Hage. by rewrite decide_True. }
    destruct (I2 _ _ Hk) as (r & Hr & Ha). exists r. split; [|done]. rewrite Hage.
    destruct (decide (k = i)) as [->|]; [congruence|].
    destruct (decide (k = j)) as [->|]; [congruence|done].
Qed.

(** [Swap] exchanges two positions and keeps the index and the view. *)
Lemma Swap_ok m i j :
  indexed m -> i < length (byAge m) -> j < length (byAge m) ->
  exists m', Swap m i j = Some m' /\ indexed m' /\ view m' = view m /\
    length (byAge m') = length (byAge m) /\
    (forall k, key m' k = if decide (k = i) then key m j
                          else if decide (k = j) then key m i else key m k) /\
    (forall k, byAge m' !! k = if decide (k = i) then byAge m !! j
                               else if decide (k = j) then byAge m !! i else byAge m !! k).
Proof.
  intros Hin Hi Hj.
  destruct (lookup_lt_is_Some_2 _ _ Hi) as [ri Ei], (lookup_lt_is_Some_2 _ _ Hj) as [rj Ej].
  pose proof (swapped_insert _ _ _ _ _ Ei Ej) as Hs. set (age := <[j := ri]> (<[i := rj]> (byAge m))) in *.
  pose proof Hs as [Hl Hage]. pose proof (swapped_indexed _ _ _ _ _ _ Hin Ei Ej Hs) as Hind.
  exists (ClientMapInner age (<[cr_Addr ri := j]> (<[cr_Addr rj := i]> (byAddr m)))). split_and!; try done.
  - unfold Swap. rewrite Ei, Ej. cbn. fold age. rewrite !Hage, (decide_True (P := i = i)), Ej by done.
    destruct (decide (j = i)) as [->|]; [by rewrite Ej in Ei; injection Ei as ->|]. by rewrite decide_True, Ei.
  - apply view_ext; [done|done|]. intros r. by apply (swapped_elem _ i j).
  - intros k. unfold key. cbn. rewrite Hage. repeat case_decide; done.
Qed.

(** ** The heap *)

#[local] Arguments parent : simpl never.
#[local] Arguments key : simpl never.

Lemma parent_spec j : 0 < j -> j = 2 * parent j + 1 \/ j = 2 * parent j + 2.
Proof.
  intros Hj. unfold parent. pose proof (Nat.div_mod_eq (j - 1) 2).
  pose proof (Nat.mod_upper_bound (j - 1) 2 ltac:(lia)). lia.
Qed.
Lemma parent_0 : parent 0 = 0.
Proof. done. Qed.
Lemma parent_child i j : j = 2 * i + 1 \/ j = 2 * i + 2 -> parent j = i.
Proof. intros Hj. pose proof (parent_spec j). lia. Qed.

(** The heap order may be broken around position [i] only. *)
Definition hole (n : nat) (m : clientMapInner) (i : nat) : Prop :=
  (forall c, 0 < c < n -> c <> i -> parent c <> i -> (key m (parent c) <= key m c)%Z) /\
  (forall c, 0 < c < n -> parent c = i -> 0 < i -> (key m (parent i) <= key m c)%Z).
Definition parent_ok (m : clientMapInner) (i : nat) : Prop :=
  0 < i -> (key m (parent i) <= key m i)%Z.
Definition children_ok (n : nat) (m : clientMapInner) (i : nat) : Prop :=
  forall c, 0 < c < n -> parent c = i -> (key m i <= key m c)%Z.

Lemma hole_heap n m i : hole n m i -> parent_ok m i -> children_ok n m i -> heap_upto n m.
Proof.
  intros [H1 _] Hp Hc j Hj.
  destruct (decide (j = i)) as [->|]; [apply Hp; lia|].
  destruct (decide (parent j = i)) as [E|]; [rewrite E; by apply Hc|]. by apply H1.
Qed.

(** The keys after a swap of [i] and [j]. *)
Lemma swap_keys m m' i j :
  (forall k, key m' k = if decide (k = i) then key m j
                        else if decide (k = j) then key m i else key m k) ->
  key m' i = key m j /\ key m' j = key m i /\
  (forall k, k <> i -> k <> j -> key m' k = key m k).
Proof.
  intros Hk. rewrite !Hk. split_and!.
  - by rewrite decide_True.
  - case_decide as E; [by rewrite E|]. by rewrite decide_True.
  - intros k ??. by rewrite Hk, !decide_False.
Qed.

Lemma up_ok fuel m j :
  indexed m -> j < length (byAge m) -> j < fuel ->
  hole (length (byAge m)) m j -> children_ok (length (byAge m)) m j ->
  exists m', up fuel m j = Some m' /\ inv m' /\ view m' = view m /\
             length (byAge m') = length (byAge m).
Proof.
  revert m j. induction fuel as [|fuel IH]; intros m j Hi Hj Hf Hh Hc; [lia|].
  cbn [up]. case_decide as Ep.
  { exists m. split_and!; try done. split; [done|]. apply (hole_heap _ _ j); [done| |done].
    intros Hj0. pose proof (parent_spec j Hj0). lia. }
  assert (Hj0 : 0 < j) by (destruct j; [by rewrite parent_0 in Ep|lia]).
  pose proof (parent_spec j Hj0) as Hpj.
  rewrite Less_key by lia. cbn. case_bool_decide as Hlt; cbn.
  2:{ exists m. split_and!; try done. split; [done|]. apply (hole_heap _ _ j); [done| |done]. intros _. lia. }
  destruct (Swap_ok m (parent j) j) as (m1 & -> & Hi1 & Hv1 & Hl1 & Hk & _); [done|lia|lia|].
  cbn. destruct Hh as [H1 H2].
  apply swap_keys in Hk as (Ki & Kj & Ko). remember (parent j) as i eqn:Ei.
  (* the sibling of [j] *)
  assert (Hsib : forall c, 0 < c < length (byAge m) -> parent c = i -> c <> j ->
            (key m i <= key m c)%Z).
  { intros c Hcl Hpc Hcj. rewrite <- Hpc. apply H1; [done|done|]. lia. }
  destruct (IH m1 i) as (m' & -> & Hinv & Hv & Hl); try rewrite Hl1; try done; try lia.
  - split.
    + intros c Hcl Hci Hpi. pose proof (parent_spec c ltac:(lia)) as Hpc.
      destruct (decide (parent c = j)) as [E|].
      * specialize (H2 c Hcl E Hj0). rewrite E, Kj, Ko by lia. lia.
      * assert (c <> j) by congruence. rewrite !Ko by lia. by apply H1.
    + intros c Hcl Hpc Hi0. pose proof (parent_spec i Hi0) as Hpi.
      assert (Hpar : (key m (parent i) <= key m i)%Z) by (apply H1; lia).
      rewrite (Ko (parent i)) by lia. destruct (decide (c = j)) as [->|]; [lia|].
      pose proof (parent_spec c ltac:(lia)).
      specialize (Hsib c Hcl Hpc ltac:(done)). rewrite Ko by lia. lia.
  - intros c Hcl Hpc. pose proof (parent_spec c ltac:(lia)).
    destruct (decide (c = j)) as [->|]; [lia|].
    specialize (Hsib c Hcl Hpc ltac:(done)). rewrite Ki, Ko by lia. lia.
  - exists m'. split_and!; [done|done|congruence|congruence].
Qed.

(** The comparison of [down] finds the smaller child. *)
Lemma smaller_child m i n :
  2 * i + 1 < n -> n <= length (byAge m) ->
  exists j (b2 : bool),
    (if decide (2 * i + 1 + 1 < n) then Less m (2 * i + 1 + 1) (2 * i + 1) else Some false) = Some b2 /\
    (if b2 then 2 * i + 1 + 1 else 2 * i + 1) = j /\ i < j < n /\ parent j = i /\
    forall c, 0 < c < n -> parent c = i -> (key m j <= key m c)%Z.
Proof.
  intros Hin Hn. assert (P1 : parent (2 * i + 1) = i) by (apply parent_child; lia).
  assert (P2 : parent (2 * i + 1 + 1) = i) by (apply parent_child; lia).
  case_decide as H2n.
  - rewrite Less_key by lia. eexists _, _. split; [done|]. split; [done|].
    case_bool_decide; (split_and!; [lia|lia|done|]); intros c Hc Hp;
      pose proof (parent_spec c ltac:(lia)) as [E|E]; rewrite Hp in E; subst c;
      replace (2 * i + 2) with (2 * i + 1 + 1) by lia; lia.
  - eexists _, false. split; [done|]. split; [done|]. split_and!; [lia|lia|done|].
    intros c Hc Hp. pose proof (parent_spec c ltac:(lia)) as [E|E]; rewrite Hp in E; subst c; lia.
Qed.

Lemma down_ok fuel m i n :
  indexed m -> n <= length (byAge m) -> i < length (byAge m) -> n <= i + fuel -> 0 < fuel ->
  hole n m i ->
  exists i' m', down fuel m i n = Some (i', m') /\ indexed m' /\ view m' = view m /\
    length (byAge m') = length (byAge m) /\
    (forall k, n <= k -> byAge m' !! k = byAge m !! k) /\
    ((i' = i /\ m' = m /\ children_ok n m i) \/ (i < i' /\ heap_upto n m')).
Proof.
  revert m i. induction fuel as [|fuel IH]; intros m i Hi Hn Hil Hf Hf0 Hh; [lia|].
  cbn [down]. case_decide as Hj1.
  { exists i, m. split_and!; try done. left. split_and!; try done.
    intros c Hc Hp. pose proof (parent_spec c ltac:(lia)). lia. }
  destruct (smaller_child m i n) as (j & b2 & -> & Ej & Hj & Hpj & Hmin); [lia|done|].
  unfold mbind, option_bind. rewrite Ej, Less_key by lia. case_bool_decide as Hlt; cbn [negb].
  2:{ exists i, m. split_and!; try done. left. split_and!; try done.
      intros c Hc Hp. specialize (Hmin c Hc Hp). lia. }
  destruct (Swap_ok m i j) as (m1 & -> & Hi1 & Hv1 & Hl1 & Hk & Hage); [done|lia|lia|].
  destruct Hh as [H1 H2]. apply swap_keys in Hk as (Ki & Kj & Ko).
  assert (Hh1 : hole n m1 j).
  { split.
    - intros c Hc Hcj Hpc. pose proof (parent_spec c ltac:(lia)).
      destruct (decide (parent c = i)) as [E|].
      { rewrite E, Ki, Ko by lia. by apply Hmin. }
      destruct (decide (c = i)) as [->|].
      { rewrite Ki, Ko by lia. apply H2; lia. }
      rewrite !Ko by lia. apply H1; lia.
    - intros c Hc Hpc Hj0. pose proof (parent_spec c ltac:(lia)).
      rewrite Hpj, Ki, Ko by lia. rewrite <- Hpc. apply H1; lia. }
  assert (Hp1 : parent_ok m1 j) by (intros _; rewrite Hpj, Ki, Kj; lia).
  destruct (IH m1 j) as (i' & m' & -> & Hi' & Hv' & Hl' & Hsame & Hres); try done; try lia.
  exists i', m'. split_and!; [done|done|congruence|congruence| |].
  - intros k Hkn. rewrite Hsame, Hage by done. by rewrite !decide_False by lia.
  - right. destruct Hres as [(-> & -> & Hch)|[Hlt' Hheap]].
    + split; [lia|]. by eapply hole_heap.
    + split; [lia|done].
Qed.

Lemma heap_min m i : heap_upto (length (byAge m)) m -> i < length (byAge m) ->
  (key m 0 <= key m i)%Z.
Proof.
  intros Hh. induction i as [i IH] using lt_wf_ind. intros Hi.
  destruct (decide (i = 0)) as [->|]; [done|].
  pose proof (parent_spec i ltac:(lia)). specialize (Hh i ltac:(lia)).
  specialize (IH (parent i) ltac:(lia) ltac:(lia)). lia.
Qed.

(** ** Operations on the heap *)

Lemma heap_Push_ok m x :
  inv m -> byAddr m !! cr_Addr x = None ->
  exists m', heap_Push m x = Some m' /\ inv m' /\ view m' = <[cr_Addr x := x]> (view m).
Proof.
  intros [Hi Hh] Hx. pose proof Hi as [I1 I2].
  set (m1 := ClientMapInner (byAge m ++ [x]) (<[cr_Addr x := length (byAge m)]> (byAddr m))).
  assert (Hlast : byAge m1 !! length (byAge m) = Some x).
  { cbn. by rewrite lookup_app_r, Nat.sub_diag by lia. }
  assert (Hi1 : indexed m1).
  { split; cbn.
    - intros i r Hr. rewrite lookup_insert. apply lookup_app_Some in Hr as [Hr|[Hge Hr]].
      + rewrite decide_False; [by apply I1|]. intros E. apply I1 in Hr. congruence.
      + apply list_lookup_singleton_Some in Hr as [Hz <-]. rewrite decide_True by done. f_equal. lia.
    - intros a i Ha. rewrite lookup_insert in Ha. case_decide as E.
      + injection Ha as <-. by exists x.
      + destruct (I2 a i Ha) as (r & Hr & Hra). exists r. split; [|done].
        by apply lookup_app_l_Some. }
  assert (Hlen : length (byAge m1) = S (length (byAge m))) by (cbn; rewrite length_app; cbn; lia).
  assert (Hkey : forall k, k < length (byAge m) -> key m1 k = key m k).
  { intros k Hk. unfold key. cbn. by rewrite lookup_app_l. }
  destruct (up_ok (S (length (byAge m))) m1 (length (byAge m))) as (m' & E & Hinv & Hv & _);
    [done|lia|lia| | |].
  - split.
    + intros c Hc Hcn Hp. pose proof (parent_spec c ltac:(lia)).
      rewrite !Hkey by lia. apply Hh. lia.
    + intros c Hc Hp H0. pose proof (parent_spec c ltac:(lia)). lia.
  - intros c Hc Hp. pose proof (parent_spec c ltac:(lia)). lia.
  - exists m'. unfold heap_Push, Push. rewrite Hx. cbn [mbind option_bind]. fold m1.
    rewrite indexed_Len, Hlen by done. cbn [mbind option_bind].
    replace (S (length (byAge m)) - 1) with (length (byAge m)) by lia.
    split_and!; [done|done|]. rewrite Hv. apply map_eq. intros a. apply option_eq. intros r.
    rewrite view_lookup by done. cbn. rewrite elem_of_app, list_elem_of_singleton, lookup_insert.
    case_decide as Ea.
    + subst a. split; [|naive_solver]. intros [Ha [[k Hk]%list_elem_of_lookup | -> ]]; [|done].
      apply I1 in Hk. congruence.
    + rewrite view_lookup by done. split; [|tauto]. intros [<- [?| ->]]; done.
Qed.

(** [Pop] removes the last record. *)
Lemma Pop_ok m n r0 :
  indexed m -> length (byAge m) = S n -> byAge m !! n = Some r0 ->
  let m' := ClientMapInner (take n (byAge m)) (delete (cr_Addr r0) (byAddr m)) in
  Pop m = Some (r0, m') /\ indexed m' /\ view m' = delete (cr_Addr r0) (view m).
Proof.
  intros Hi Hl Hn m'. pose proof Hi as [I1 I2].
  assert (Hnot : forall k r, byAge m !! k = Some r -> k < n -> cr_Addr r0 <> cr_Addr r).
  { intros k r Hk Hkn E. apply I1 in Hk, Hn. rewrite E, Hk in Hn. injection Hn as ->. lia. }
  assert (Hlast : forall k r, byAge m !! k = Some r -> cr_Addr r <> cr_Addr r0 -> k < n).
  { intros k r Hk Hne. pose proof (lookup_lt_Some _ _ _ Hk). destruct (decide (k = n)) as [->|]; [congruence|lia]. }
  assert (Hi' : indexed m').
  { split; cbn.
    - intros i r [Hr Hin]%lookup_take_Some. rewrite lookup_delete_ne; [by apply I1|by eapply Hnot].
    - intros a i [Hne Ha]%lookup_delete_Some. destruct (I2 a i Ha) as (r & Hr & <-). exists r. split; [|done].
      rewrite lookup_take_lt; [done|by eapply Hlast]. }
  split_and!; [unfold Pop; rewrite indexed_size, Hl by done; by rewrite Hn|done|].
  apply map_eq. intros a. apply option_eq. intros r. rewrite view_lookup by done. cbn.
  rewrite lookup_delete_Some, view_lookup, !list_elem_of_lookup by done. split.
  - intros [<- [k [Hk Hkn]%lookup_take_Some]]. split; [by eapply Hnot|eauto].
  - intros (Hne & <- & [k Hk]). split; [done|]. exists k. rewrite lookup_take_lt; [done|by eapply Hlast].
Qed.

Lemma heap_Pop_ok m r0 rest :
  inv m -> byAge m = r0 :: rest ->
  exists m', heap_Pop m = Some (r0, m') /\ inv m' /\ view m' = delete (cr_Addr r0) (view m) /\
             length (byAge m') = length rest.
Proof.
  intros [Hi Hh] Hage. set (n := length rest).
  assert (Hlen : length (byAge m) = S n) by (by rewrite Hage).
  destruct (Swap_ok m 0 n) as (m1 & E1 & Hi1 & Hv1 & Hl1 & Hk & Ha1); [done|lia|lia|].
  apply swap_keys in Hk as (K0 & Kn & Ko).
  destruct (down_ok (S n) m1 0 n) as (i' & m2 & E2 & Hi2 & Hv2 & Hl2 & Hsame & Hres);
    [done|lia|lia|lia|lia| |].
  { split; [|lia]. intros c Hc _ Hp. pose proof (parent_spec c ltac:(lia)).
    rewrite !Ko by lia. apply Hh. lia. }
  assert (Hheap : heap_upto n m2).
  { destruct Hres as [(_ & -> & Hc)|[_ ?]]; [|done]. intros j Hj.
    pose proof (parent_spec j ltac:(lia)).
    destruct (decide (parent j = 0)) as [E|]; [rewrite E; by apply Hc|].
    rewrite !Ko by lia. apply Hh. lia. }
  assert (Hn : byAge m2 !! n = Some r0).
  { rewrite Hsame, Ha1 by lia. case_decide as En; [by rewrite En, Hage|].
    rewrite decide_True by done. by rewrite Hage. }
  assert (Hl : length (byAge m2) = S n) by congruence.
  destruct (Pop_ok m2 n r0 Hi2 Hl Hn) as (E3 & Hi3 & Hv3). eexists. split_and!.
  - unfold heap_Pop. rewrite indexed_Len, Hlen by done. cbn [mbind option_bind].
    replace (S n - 1) with n by lia. rewrite E1. cbn [mbind option_bind].
    rewrite E2. cbn [mbind option_bind snd]. exact E3.
  - split; [done|]. cbn. rewrite length_take, Hl, Nat.min_l by lia.
    intros j Hj. pose proof (parent_spec j ltac:(lia)). unfold key. cbn.
    rewrite !lookup_take_lt by lia. by apply Hheap.
  - by rewrite Hv3, Hv2, Hv1.
  - cbn. rewrite length_take, Hl. lia.
Qed.

(** A record replaced by one of the same address. *)
Lemma replace_ok m i r r' :
  indexed m -> byAge m !! i = Some r -> cr_Addr r' = cr_Addr r ->
  let m' := ClientMapInner (<[i := r']> (byAge m)) (byAddr m) in
  indexed m' /\ view m' = <[cr_Addr r := r']> (view m).
Proof.
  intros Hi Hr Ha m'. pose proof Hi as [I1 I2]. assert (Hil : i < length (byAge m)) by (by eapply lookup_lt_Some).
  assert (Hi' : indexed m').
  { split; cbn.
    - intros k x Hx. apply list_lookup_insert_Some in Hx as [(-> & <- & _)|[_ Hx]]; [rewrite Ha|]; by apply I1.
    - intros a k Hk. destruct (I2 a k Hk) as (x & Hx & Hxa). destruct (decide (i = k)) as [->|].
      + exists r'. rewrite list_lookup_insert_eq by done. split; [done|]. congruence.
      + exists x. by rewrite list_lookup_insert_ne. }
  split; [done|]. apply map_eq. intros a. apply option_eq. intros x. rewrite view_lookup by done. cbn.
  rewrite list_elem_of_lookup, lookup_insert. case_decide as E.
  - subst a. split.
    + intros [Hxa [k Hk]]. apply list_lookup_insert_Some in Hk as [(-> & <- & _)|[Hne Hk]]; [done|].
      apply I1 in Hk, Hr. congruence.
    + intros [= <-]. split; [done|]. exists i. by apply list_lookup_insert_eq.
  - rewrite view_lookup, list_elem_of_lookup by done. split; intros [Hxa [k Hk]]; split; try done.
    + apply list_lookup_insert_Some in Hk as [(-> & <- & _)|[Hne Hk]]; [congruence|eauto].
    + exists k. rewrite list_lookup_insert_ne; [done|]. intros ->. congruence.
Qed.

(** [heap.Fix] after the record at position [i] got a new time. *)
Lemma heap_Fix_ok m i r r' :
  inv m -> byAge m !! i = Some r -> cr_Addr r' = cr_Addr r ->
  exists m', heap_Fix (ClientMapInner (<[i := r']> (byAge m)) (byAddr m)) i = Some m' /\
    inv m' /\ view m' = <[cr_Addr r := r']> (view m).
Proof.
  intros [Hi Hh] Hr Ha. assert (Hil : i < length (byAge m)) by (by eapply lookup_lt_Some).
  destruct (replace_ok m i r r' Hi Hr Ha) as [Hi1 Hv1].
  set (m1 := ClientMapInner (<[i := r']> (byAge m)) (byAddr m)) in *.
  assert (Hl1 : length (byAge m1) = length (byAge m)) by (cbn; apply length_insert).
  assert (Hko : forall k, k <> i -> key m1 k = key m k).
  { intros k Hk. unfold key. cbn. by rewrite list_lookup_insert_ne. }
  assert (Hhole : hole (length (byAge m1)) m1 i).
  { rewrite Hl1. split.
    - intros c Hc Hci Hp. rewrite !Hko by done. by apply Hh.
    - intros c Hc Hp H0. pose proof (parent_spec i H0). pose proof (parent_spec c ltac:(lia)).
      rewrite !Hko by lia. pose proof (Hh i ltac:(lia)). pose proof (Hh c Hc).
      rewrite Hp in *. lia. }
  destruct (down_ok (S (length (byAge m1))) m1 i (length (byAge m1)))
    as (i' & m2 & E2 & Hi2 & Hv2 & Hl2 & _ & Hres); [done|lia|lia|lia|lia|done|].
  unfold heap_Fix. fold m1. rewrite indexed_Len by done. cbn [mbind option_bind].
  rewrite E2. cbn [mbind option_bind fst snd].
  destruct Hres as [(-> & -> & Hc)|[Hlt Hheap]].
  - rewrite decide_False by lia.
    destruct (up_ok (S i) m1 i) as (m' & -> & Hinv & Hv & _); [done|lia|lia|done|done|].
    exists m'. split_and!; [done|done|congruence].
  - rewrite decide_True by done. exists m2. split_and!; [done| |congruence].
    split; [done|]. by rewrite Hl2.
Qed.

(** ** Refinement of the abstract map *)

(** The abstract operations: look a client up or create it, updating its time;
    forget the clients not seen for [timeout]. *)
Definition spec_SendQueue (v : gmap Addr clientRecord) (addr : Addr) (now : Z) (fresh : chan_id)
  : chan_id * gmap Addr clientRecord :=
  let q := default fresh (cr_SendQueue <$> v !! addr) in
  (q, <[addr := ClientRecord addr now q]> v).

Definition spec_removeExpired (now timeout : Z) (v : gmap Addr clientRecord)
  : gmap Addr clientRecord :=
  filter (fun p => ~ expired now timeout p.2) v.

Lemma SendQueue_ok m addr now fresh :
  inv m ->
  exists q m', SendQueue m addr now fresh = Some (q, m') /\ inv m' /\
    spec_SendQueue (view m) addr now fresh = (q, view m').
Proof.
  intros Hinv. pose proof Hinv as [Hi _]. pose proof Hi as [I1 I2].
  unfold SendQueue, spec_SendQueue. destruct (byAddr m !! addr) as [i|] eqn:Ea.
  - destruct (I2 _ _ Ea) as (r & Hr & <-). rewrite Hr. cbn [mbind option_bind].
    destruct (heap_Fix_ok m i r (ClientRecord (cr_Addr r) now (cr_SendQueue r)) Hinv Hr)
      as (m' & -> & Hinv' & Hv); [done|].
    rewrite (view_at m i r Hi Hr). eexists _, m'. split_and!; [done|done|]. by rewrite Hv.
  - destruct (heap_Push_ok m (ClientRecord addr now fresh) Hinv Ea) as (m' & -> & Hinv' & Hv).
    apply (view_None m addr Hi) in Ea. rewrite Ea.
    eexists _, m'. split_and!; [done|done|]. by rewrite Hv.
Qed.

Lemma removeExpired_loop_ok fuel now timeout m :
  inv m -> length (byAge m) < fuel ->
  exists m', removeExpired_loop fuel now timeout m = Some m' /\ inv m' /\
             view m' = spec_removeExpired now timeout (view m).
Proof.
  revert m. induction fuel as [|fuel IH]; intros m Hinv Hf; [lia|].
  pose proof Hinv as [Hi Hh]. cbn [removeExpired_loop].
  assert (Hkeep : (forall r, r ∈ byAge m -> ~ expired now timeout r) ->
                  view m = spec_removeExpired now timeout (view m)).
  { intros Hall. symmetry. apply map_filter_id. intros a r Hr. cbn.
    apply view_lookup in Hr as [_ Hr]; [|done]. by apply Hall. }
  destruct (byAge m) as [|r0 rest] eqn:Eage.
  { exists m. split_and!; [done|done|]. apply Hkeep. intros r Hr. by apply elem_of_nil in Hr. }
  case_decide as Hexp.
  - destruct (heap_Pop_ok m r0 rest Hinv Eage) as (m1 & -> & Hinv1 & Hv1 & Hl1).
    cbn [mbind option_bind snd]. cbn in Hf.
    destruct (IH m1 Hinv1 ltac:(lia)) as (m' & -> & Hinv' & Hv').
    exists m'. split_and!; [done|done|]. rewrite Hv', Hv1. unfold spec_removeExpired.
    apply map_filter_delete_not. intros r Hr. cbn.
    assert (Hr0 : view m !! cr_Addr r0 = Some r0) by (apply (view_at m 0); [done|by rewrite Eage]).
    intros Hne. apply Hne. congruence.
  - exists m. split_and!; [done|done|]. apply Hkeep. intros r [k Hk]%list_elem_of_lookup Hex.
    apply Hexp. unfold expired in *. rewrite <- Eage in Hk, Hh.
    pose proof (heap_min m k Hh (lookup_lt_Some _ _ _ Hk)) as Hmin.
    unfold key in Hmin. rewrite Hk, Eage in Hmin. cbn in Hmin.
    unfold sat64 in *. lia.
Qed.

(** [clientMapInner.SendQueue] never panics on a consistent map and implements
    the abstract operation: the queue of a known client is found again, an unknown
    client gets the new channel, only the time of that client changes, and the map
    stays consistent (index and heap agree, heap ordered by age). *)
Theorem SendQueue_refines m addr now fresh :
  inv m ->
  exists q m', SendQueue m addr now fresh = Some (q, m') /\ inv m' /\
    spec_SendQueue (view m) addr now fresh = (q, view m').
Proof. apply SendQueue_ok. Qed.

(** [removeExpired] terminates without panic and removes exactly the clients
    whose last activity is at least [timeout] old, in spite of looking only at the
    root of the heap. *)
Theorem removeExpired_refines now timeout m :
  inv m ->
  exists m', removeExpired now timeout m = Some m' /\ inv m' /\
    view m' = spec_removeExpired now timeout (view m).
Proof. intros Hinv. apply removeExpired_loop_ok; [done|lia]. Qed.

(** ** Runs of the map *)

Inductive cm_op :=
  | OpSendQueue (addr : Addr) (now : Z) (fresh : chan_id)
  | OpRemoveExpired (now timeout : Z).

(** The queues the calls return, and the final map. *)
Fixpoint cm_run (ops : list cm_op) (m : clientMapInner)
  : option (list chan_id * clientMapInner) :=
  match ops with
  | [] => Some ([], m)
  | OpSendQueue addr now fresh :: ops' =>
      p ← SendQueue m addr now fresh;
      p' ← cm_run ops' p.2;
      Some (p.1 :: p'.1, p'.2)
  | OpRemoveExpired now timeout :: ops' =>
      m' ← removeExpired now timeout m; cm_run ops' m'
  end.

Fixpoint spec_run (ops : list cm_op) (v : gmap Addr clientRecord)
  : list chan_id * gmap Addr clientRecord :=
  match ops with
  | [] => ([], v)
  | OpSendQueue addr now fresh :: ops' =>
      let p := spec_SendQueue v addr now fresh in
      let p' := spec_run ops' p.2 in (p.1 :: p'.1, p'.2)
  | OpRemoveExpired now timeout :: ops' => spec_run ops' (spec_removeExpired now timeout v)
  end.

Lemma NewClientMap_inv : inv NewClientMap.
Proof. split; [split; intros ??; cbn; by rewrite ?lookup_nil, ?lookup_empty|]. intros j Hj. cbn in Hj. lia. Qed.

Lemma cm_run_ok ops m :
  inv m -> exists qs m', cm_run ops m = Some (qs, m') /\ inv m' /\
                         spec_run ops (view m) = (qs, view m').
Proof.
  revert m. induction ops as [|[addr now fresh|now timeout] ops IH]; intros m Hinv.
  - eexists [], m. done.
  - destruct (SendQueue_ok m addr now fresh Hinv) as (q & m1 & E & Hinv1 & Hs).
    destruct (IH m1 Hinv1) as (qs & m' & E' & Hinv' & Hs').
    exists (q :: qs), m'. cbn [cm_run spec_run]. rewrite E. cbn [mbind option_bind fst snd].
    rewrite E', Hs. cbn [mbind option_bind fst snd]. rewrite Hs'. done.
  - destruct (removeExpired_loop_ok (S (length (byAge m))) now timeout m Hinv)
      as (m1 & E & Hinv1 & Hs); [lia|].
    destruct (IH m1 Hinv1) as (qs & m' & E' & Hinv' & Hs').
    exists qs, m'. cbn [cm_run spec_run]. unfold removeExpired. rewrite E.
    cbn [mbind option_bind]. rewrite <- Hs. done.
Qed.

(** C15. Started empty, the heap-and-index implementation never panics, whatever the
    interleaving of look-ups and expiry passes, and returns the same queues as the
    abstract map. *)
Theorem clientMap_simulation ops :
  exists qs m', cm_run ops NewClientMap = Some (qs, m') /\ inv m' /\
                spec_run ops ∅ = (qs, view m').
Proof.
  destruct (cm_run_ok ops NewClientMap NewClientMap_inv) as (qs & m' & ? & ? & Hs).
  exists qs, m'. split_and!; [done|done|]. by rewrite <- Hs.
Qed.
End ClientMap.
Arguments clientRecord : clear implicits.
Arguments clientMapInner Addr {_ _}.
Arguments cm_op : clear implicits.

(** ** Witnesses *)

Definition sample_map : clientMapInner nat :=
  default NewClientMap (snd <$> cm_run
    [OpSendQueue 7 50 0; OpSendQueue 8 20 1; OpSendQueue 9 40 2; OpSendQueue 8 60 3] NewClientMap).

Lemma SendQueue_refines_witness :
  exists q m', SendQueue sample_map 8 70 4 = Some (q, m') /\ inv m' /\
               spec_SendQueue (view sample_map) 8 70 4 = (q, view m') /\ q = 1.
Proof.
  destruct (cm_run_ok [OpSendQueue 7 50 0; OpSendQueue 8 20 1; OpSendQueue 9 40 2;
    OpSendQueue 8 60 3] NewClientMap NewClientMap_inv) as (qs & m & E & Hinv & _).
  assert (Em : sample_map = m) by (unfold sample_map; rewrite E; reflexivity).
  destruct (SendQueue_refines sample_map 8 70 4) as (q & m' & E1 & E2 & E3).
  { rewrite Em. exact Hinv. }
  exists q, m'. split_and!; [exact E1|exact E2|exact E3|].
  vm_compute in E1. congruence.
Defined.

Lemma removeExpired_refines_witness :
  exists m', removeExpired 100 50 sample_map = Some m' /\ inv m' /\
             view m' = spec_removeExpired 100 50 (view sample_map) /\ length (byAge m') = 1.
Proof.
  destruct (cm_run_ok [OpSendQueue 7 50 0; OpSendQueue 8 20 1; OpSendQueue 9 40 2;
    OpSendQueue 8 60 3] NewClientMap NewClientMap_inv) as (qs & m & E & Hinv & _).
  assert (Em : sample_map = m) by (unfold sample_map; rewrite E; reflexivity).
  destruct (removeExpired_refines 100 50 sample_map) as (m' & E1 & E2 & E3).
  { rewrite Em. exact Hinv. }
  exists m'. split_and!; [exact E1|exact E2|exact E3|].
  vm_compute in E1. injection E1 as <-. reflexivity.
Defined.
