(* ===== verification/QueueConn.v ===== *)
(** * QueuePacketConn (snowflake/common/turbotunnel/queuepacketconn.go, consts.go)

    The server's packet connection: one bounded incoming queue, one bounded
    outgoing queue per client.  Its methods are called from many goroutines, so
    each method is modelled as a thread that takes one atomic action at a time
    ([thread_step]): the test of [closed], the two halves of [closeWithError]'s
    critical section, the blocking or non-blocking channel operation.  The
    choices Go leaves open (which ready [select] branch runs, what the clock says)
    are an argument of the step.  A run is any interleaving of any number of
    threads ([sys_step]). *)
From S2P Require Import Prelude ClientMap.

(** [queueSize] of consts.go. *)
Definition queueSize : nat := 32.

Section QueueConn.
Context {Addr : Type} {Addr_eq : EqDecision Addr} {Addr_countable : Countable Addr}.

(** [taggedPacket] *)
Abbreviation taggedPacket := (bytes * Addr)%type.

(** State of a [sync.Once]. *)
Inductive once := OnceNew | OnceRunning | OnceDone.

(** [qc_chans] holds the contents of the send queues that were ever made;
    [qc_next] names the next one. *)
Record QueuePacketConn := QueueConn {
  qc_clients : clientMapInner Addr;
  qc_chans : gmap nat (list bytes);
  qc_next : nat;
  qc_recvQueue : list taggedPacket;
  qc_closeOnce : once;
  qc_closed : bool;
  qc_err : option error }.

Definition NewQueuePacketConn : QueuePacketConn :=
  QueueConn NewClientMap ∅ 0 [] OnceNew false None.

Definition set_recvQueue c q :=
  QueueConn (qc_clients c) (qc_chans c) (qc_next c) q (qc_closeOnce c) (qc_closed c) (qc_err c).
Definition set_chan c ch q :=
  QueueConn (qc_clients c) (<[ch := q]> (qc_chans c)) (qc_next c) (qc_recvQueue c)
    (qc_closeOnce c) (qc_closed c) (qc_err c).
Definition set_clients c m :=
  QueueConn m (qc_chans c) (qc_next c) (qc_recvQueue c) (qc_closeOnce c) (qc_closed c) (qc_err c).
Definition set_close c o closed e :=
  QueueConn (qc_clients c) (qc_chans c) (qc_next c) (qc_recvQueue c) o closed e.

(** What a thread is about to do. *)
Inductive pc :=
  (* QueueIncoming(p, addr) *)
  | QI_start (p : bytes) (addr : Addr) | QI_send (p : bytes) (addr : Addr)
  (* ReadFrom(p) with len(p) = k *)
  | RF_start (k : nat) | RF_wait (k : nat)
  (* WriteTo(p, addr) *)
  | WT_start (p : bytes) (addr : Addr) | WT_queue (p : bytes) (addr : Addr)
  | WT_send (p : bytes) (ch : nat)
  (* OutgoingQueue(addr), and a receive from the queue it returned *)
  | OQ_start (addr : Addr) | RQ_start (ch : nat)
  (* closeWithError(err): before, and inside, closeOnce.Do *)
  | CL_start (e : option error) | CL_store (e : error) | CL_close
  (* the expiry loop of NewClientMap *)
  | EX_loop (timeout : Z)
  (* finished threads *)
  | Done_unit
  | Done_read (r : res taggedPacket)
  | Done_write (r : res nat)
  | Done_queue (ch : nat)
  | Done_recv (p : bytes)
  | Done_close (r : option error)
  | Panicked.

(** Observable actions on the queues. *)
Inductive event :=
  | Accepted (x : taggedPacket) | Delivered (x : taggedPacket)
  | Queued (ch : nat) (p : bytes) | Taken (ch : nat) (p : bytes).

(** What the environment decides: the clock, and which ready branch a [select] runs. *)
Record choice := Choice { ch_now : Z; ch_closed_first : bool }.

(** [c.err.Load().(error)]: a nil interface panics. *)
Definition load_err {A} (c : QueuePacketConn) (k : error -> A) (panic : A) : A :=
  match qc_err c with Some e => k e | None => panic end.

(** [clients.SendQueue(addr)], under the map's lock; a new queue starts empty. *)
Definition clients_SendQueue (c : QueuePacketConn) (addr : Addr) (now : Z)
  : option (nat * QueuePacketConn) :=
  p ← SendQueue (qc_clients c) addr now (qc_next c);
  let '(q, m) := p in
  if decide (q = qc_next c)
  then Some (q, QueueConn m (<[q := []]> (qc_chans c)) (S (qc_next c)) (qc_recvQueue c)
                  (qc_closeOnce c) (qc_closed c) (qc_err c))
  else Some (q, set_clients c m).

(** One atomic action of a thread: the new state, the thread's continuation and
    the events.  [None]: the thread is blocked or finished. *)
Definition thread_step (x : choice) (c : QueuePacketConn) (t : pc)
  : option (QueuePacketConn * pc * list event) :=
  match t with
  | QI_start p addr =>
      if qc_closed c then Some (c, Done_unit, []) else Some (c, QI_send p addr, [])
  | QI_send p addr =>
      if decide (length (qc_recvQueue c) < queueSize)
      then Some (set_recvQueue c (qc_recvQueue c ++ [(p, addr)]), Done_unit, [Accepted (p, addr)])
      else Some (c, Done_unit, [])
  | RF_start k =>
      if qc_closed c
      then Some (c, load_err c (fun e => Done_read (Err e)) Panicked, [])
      else Some (c, RF_wait k, [])
  | RF_wait k =>
      match qc_closed c, ch_closed_first x, qc_recvQueue c with
      | true, true, _ | true, _, [] =>
          Some (c, load_err c (fun e => Done_read (Err e)) Panicked, [])
      | _, _, (p, addr) :: q =>
          Some (set_recvQueue c q, Done_read (Ret (take k p, addr)), [Delivered (p, addr)])
      | false, _, [] => None
      end
  | WT_start p addr =>
      if qc_closed c
      then Some (c, load_err c (fun e => Done_write (Err e)) Panicked, [])
      else Some (c, WT_queue p addr, [])
  | WT_queue p addr =>
      match clients_SendQueue c addr (ch_now x) with
      | None => Some (c, Panicked, [])
      | Some (ch, c') => Some (c', WT_send p ch, [])
      end
  | WT_send p ch =>
      match qc_chans c !! ch with
      | None => None
      | Some q =>
          if decide (length q < queueSize)
          then Some (set_chan c ch (q ++ [p]), Done_write (Ret (length p)), [Queued ch p])
          else Some (c, Done_write (Ret (length p)), [])
      end
  | OQ_start addr =>
      match clients_SendQueue c addr (ch_now x) with
      | None => Some (c, Panicked, [])
      | Some (ch, c') => Some (c', Done_queue ch, [])
      end
  | RQ_start ch =>
      match qc_chans c !! ch with
      | Some (p :: q) => Some (set_chan c ch q, Done_recv p, [Taken ch p])
      | _ => None
      end
  | CL_start e =>
      match qc_closeOnce c with
      | OnceNew =>
          Some (set_close c OnceRunning (qc_closed c) (qc_err c),
                CL_store (default ErrClosedPacketConn e), [])
      | OnceRunning => None
      | OnceDone => Some (c, load_err c (fun e => Done_close (Some e)) Panicked, [])
      end
  | CL_store e => Some (set_close c (qc_closeOnce c) (qc_closed c) (Some e), CL_close, [])
  | CL_close => Some (set_close c OnceDone true (qc_err c), Done_close None, [])
  | EX_loop timeout =>
      match removeExpired (ch_now x) timeout (qc_clients c) with
      | None => Some (c, Panicked, [])
      | Some m => Some (set_clients c m, EX_loop timeout, [])
      end
  | _ => None
  end.

(** [Close()] *)
Definition Close : pc := CL_start None.

(** The entry points a goroutine may call. *)
Definition is_call (t : pc) : Prop :=
  match t with
  | QI_start _ _ | RF_start _ | WT_start _ _ | OQ_start _ | RQ_start _ | CL_start _ | EX_loop _ => True
  | _ => False
  end.

(** ** Interleavings *)

Record sys := Sys { sy_conn : QueuePacketConn; sy_pool : list pc }.

Inductive sys_step : sys -> list event -> sys -> Prop :=
  | step_call s t :
      is_call t -> sys_step s [] (Sys (sy_conn s) (sy_pool s ++ [t]))
  | step_thread s i t x c' t' evs :
      sy_pool s !! i = Some t -> thread_step x (sy_conn s) t = Some (c', t', evs) ->
      sys_step s evs (Sys c' (<[i := t']> (sy_pool s))).

Inductive steps (s0 : sys) : list event -> sys -> Prop :=
  | steps_refl : steps s0 [] s0
  | steps_more tr s evs s' : steps s0 tr s -> sys_step s evs s' -> steps s0 (tr ++ evs) s'.

(** The states a new connection can be in, with what happened to its queues. *)
Definition reachable : list event -> sys -> Prop := steps (Sys NewQueuePacketConn []).

(** A schedule as a program: start a call, or let thread [i] act. *)
Inductive action := Call (t : pc) | Step (i : nat) (x : choice).

Definition callb (t : pc) : bool :=
  match t with
  | QI_start _ _ | RF_start _ | WT_start _ _ | OQ_start _ | RQ_start _ | CL_start _ | EX_loop _ => true
  | _ => false
  end.

Fixpoint run (l : list action) (s : sys) : option (list event * sys) :=
  match l with
  | [] => Some ([], s)
  | Call t :: l' => if callb t then run l' (Sys (sy_conn s) (sy_pool s ++ [t])) else None
  | Step i x :: l' =>
      t ← sy_pool s !! i;
      '(c, t', evs) ← thread_step x (sy_conn s) t;
      '(tr, s') ← run l' (Sys c (<[i := t']> (sy_pool s)));
      Some (evs ++ tr, s')
  end.

Lemma steps_trans s1 tr1 s2 tr2 s3 : steps s1 tr1 s2 -> steps s2 tr2 s3 -> steps s1 (tr1 ++ tr2) s3.
Proof.
  intros H1. induction 1 as [|tr s evs s' _ IH Hs]; [by rewrite app_nil_r|].
  rewrite app_assoc. by econstructor.
Qed.

Lemma run_steps l s tr s' : run l s = Some (tr, s') -> steps s tr s'.
Proof.
  revert s tr. induction l as [|[t|i x] l IH]; cbn; intros s tr E.
  - injection E as <- <-. constructor.
  - destruct (callb t) eqn:Ht; [|done]. eapply (steps_trans _ []); [|by apply IH].
    eapply (steps_more _ [] s []); [constructor|]. constructor. by destruct t.
  - destruct (sy_pool s !! i) as [t|] eqn:Ei; [|done]. cbn in E.
    destruct (thread_step x (sy_conn s) t) as [[[c t'] evs]|] eqn:Et; [|done]. cbn in E.
    destruct (run l _) as [[tr' s1]|] eqn:Er; [|done]. cbn in E. injection E as <- <-.
    eapply steps_trans; [|by apply IH].
    eapply (steps_more _ [] s evs); [constructor|]. by econstructor.
Qed.

(** ** Invariant of the data *)

(** The client map is consistent, queues are bounded, every live client has an
    allocated queue and no two live clients share one. *)
Record conn_inv (c : QueuePacketConn) : Prop := {
  ci_map : inv (qc_clients c);
  ci_recv : length (qc_recvQueue c) <= queueSize;
  ci_chans ch q : qc_chans c !! ch = Some q -> length q <= queueSize /\ ch < qc_next c;
  ci_alloc a r : view (qc_clients c) !! a = Some r -> is_Some (qc_chans c !! cr_SendQueue r);
  ci_inj a1 a2 r1 r2 :
    view (qc_clients c) !! a1 = Some r1 -> view (qc_clients c) !! a2 = Some r2 ->
    cr_SendQueue r1 = cr_SendQueue r2 -> a1 = a2 }.

Lemma NewQueuePacketConn_inv : conn_inv NewQueuePacketConn.
Proof.
  split; cbn; [apply NewClientMap_inv|lia|done| |]; unfold view; cbn.
  - intros a r Hr. by rewrite lookup_omap, lookup_empty in Hr.
  - intros a1 a2 r1 r2 Hr. by rewrite lookup_omap, lookup_empty in Hr.
Qed.

(** A state that differs from [c] in the closing fields only. *)
Lemma conn_inv_close c o b e : conn_inv c -> conn_inv (set_close c o b e).
Proof. destruct 1; intros; by split. Qed.

Lemma conn_inv_recv c q : conn_inv c -> length q <= queueSize -> conn_inv (set_recvQueue c q).
Proof. destruct 1; intros; by split. Qed.

Lemma conn_inv_chan c ch q :
  conn_inv c -> is_Some (qc_chans c !! ch) -> length q <= queueSize -> conn_inv (set_chan c ch q).
Proof.
  intros [I1 I2 I3 I4 I5] [q0 Hq0] Hq. split; cbn; [done|done| | |done].
  - intros ch' q' H'. apply lookup_insert_Some in H' as [[<- <-]|[_ H']]; [|by apply I3].
    split; [done|]. apply (I3 _ _ Hq0).
  - intros a r Hr. rewrite lookup_insert. case_decide; [done|eauto].
Qed.

Lemma conn_inv_expire c m now timeout :
  conn_inv c -> removeExpired now timeout (qc_clients c) = Some m -> conn_inv (set_clients c m).
Proof.
  intros [I1 I2 I3 I4 I5] E.
  destruct (removeExpired_loop_ok (S (length (byAge (qc_clients c)))) now timeout _ I1)
    as (m' & E' & Hm & Hv); [lia|].
  unfold removeExpired in E. rewrite E in E'. injection E' as <-.
  assert (Hsub : forall a r, view m !! a = Some r -> view (qc_clients c) !! a = Some r).
  { intros a r. rewrite Hv. by intros [? _]%map_lookup_filter_Some. }
  split; cbn; eauto.
Qed.

(** What [clients.SendQueue] changes. *)
Lemma clients_SendQueue_ok c addr now :
  conn_inv c ->
  exists ch c', clients_SendQueue c addr now = Some (ch, c') /\ conn_inv c' /\
    is_Some (qc_chans c' !! ch) /\
    (forall k, default [] (qc_chans c' !! k) = default [] (qc_chans c !! k)) /\
    (forall k, is_Some (qc_chans c !! k) -> is_Some (qc_chans c' !! k)) /\
    qc_recvQueue c' = qc_recvQueue c /\ qc_closeOnce c' = qc_closeOnce c /\
    qc_closed c' = qc_closed c /\ qc_err c' = qc_err c.
Proof.
  intros [I1 I2 I3 I4 I5]. unfold clients_SendQueue.
  destruct (SendQueue_ok (qc_clients c) addr now (qc_next c) I1) as (q & m & -> & Hm & Hs).
  unfold spec_SendQueue in Hs. injection Hs as Hq Hv. cbn [mbind option_bind].
  assert (Hnext : qc_chans c !! qc_next c = None).
  { destruct (qc_chans c !! qc_next c) eqn:E; [|done]. apply I3 in E as [_ ?]. lia. }
  assert (Hlt : forall a r, view (qc_clients c) !! a = Some r -> cr_SendQueue r < qc_next c).
  { intros a r Hr. destruct (I4 a r Hr) as [x Hx]. by apply I3 in Hx as [_ ?]. }
  symmetry in Hv. destruct (view (qc_clients c) !! addr) as [r|] eqn:Ea; cbn in Hq; subst q.
  - rewrite decide_False by (specialize (Hlt addr r Ea); lia).
    eexists _, _. split; [done|]. split; [|cbn; split_and!; eauto].
    split; cbn; try done; rewrite Hv; cbn.
    + intros a r' Hr'. apply lookup_insert_Some in Hr' as [[<- <-]|[_ Hr']]; cbn; eauto.
    + intros a1 a2 r1 r2 H1 H2 E.
      apply lookup_insert_Some in H1 as [[<- <-]|[N1 H1]];
      apply lookup_insert_Some in H2 as [[<- <-]|[N2 H2]]; cbn in E; try done; eauto.
  - rewrite decide_True by done. eexists _, _. split; [done|]. split.
    + split; cbn; try done; try rewrite Hv; cbn.
      * intros ch q H'. apply lookup_insert_Some in H' as [[<- <-]|[_ H']]; [cbn; lia|].
        apply I3 in H' as [? ?]. lia.
      * intros a r' Hr'. rewrite lookup_insert.
        apply lookup_insert_Some in Hr' as [[<- <-]|[_ Hr']]; cbn; [by rewrite decide_True|].
        case_decide; [done|eauto].
      * intros a1 a2 r1 r2 H1 H2 E.
        apply lookup_insert_Some in H1 as [[<- <-]|[N1 H1]];
        apply lookup_insert_Some in H2 as [[<- <-]|[N2 H2]]; cbn in E; try done; eauto.
        -- apply Hlt in H2. lia.
        -- apply Hlt in H1. lia.
    + cbn. rewrite lookup_insert_eq. split_and!; try done; intros k; rewrite lookup_insert; [|by case_decide].
      case_decide as Ek; [|done]. by rewrite <- Ek, Hnext.
Qed.

Lemma removeExpired_some c now timeout :
  conn_inv c -> exists m, removeExpired now timeout (qc_clients c) = Some m.
Proof.
  intros Hc. destruct (removeExpired_loop_ok (S (length (byAge (qc_clients c)))) now timeout _
    (ci_map c Hc)) as (m & E & _); [lia|by exists m].
Qed.

(** Cases of one action: [E : thread_step x c t = Some (c', t', evs)]. *)
Ltac step_cases c Hc E :=
  match type of E with thread_step _ _ ?t = _ => destruct t end;
  cbn [thread_step] in E;
  try match type of E with context [clients_SendQueue c ?a ?n] =>
    let E1 := fresh "E1" in
    destruct (clients_SendQueue_ok c a n Hc)
      as (? & ? & E1 & Hc1 & Hch & Hk & Hs & Hq & Ho & Hcl & He);
    rewrite E1 in E
  end;
  try match type of E with context [removeExpired ?n ?t ?m] =>
    let Ex := fresh "Ex" in
    destruct (removeExpired_some c n t Hc) as [? Ex]; rewrite Ex in E
  end;
  unfold load_err in E; repeat first [case_decide | case_match]; try discriminate E; injection E as <- <- <-.

(** Every action keeps the data invariant. *)
Lemma thread_step_inv x c t c' t' evs :
  conn_inv c -> thread_step x c t = Some (c', t', evs) -> conn_inv c'.
Proof.
  intros Hc E. step_cases c Hc E; eauto using conn_inv_close, conn_inv_expire;
    pose proof (ci_recv c Hc) as Hr; cbn in *;
    try match goal with H : qc_recvQueue c = _ |- _ => rewrite H in Hr; cbn in Hr end.
  all: try (apply conn_inv_recv; [done|]; rewrite ?length_app; cbn in *; simplify_eq; lia).
  all: try (apply conn_inv_chan; [done|by simplify_option_eq|];
    eapply ci_chans in Hc; eauto; rewrite ?length_app; cbn in *; lia).
Qed.

(** Queues are never forgotten. *)
Lemma thread_step_chans x c t c' t' evs ch :
  conn_inv c -> thread_step x c t = Some (c', t', evs) ->
  is_Some (qc_chans c !! ch) -> is_Some (qc_chans c' !! ch).
Proof.
  intros Hc E Hi. step_cases c Hc E; cbn; auto.
  all: rewrite lookup_insert; by case_decide.
Qed.

(** ** First in, first out *)

Definition accepted (tr : list event) : list taggedPacket :=
  omap (fun e => match e with Accepted x => Some x | _ => None end) tr.
Definition delivered (tr : list event) : list taggedPacket :=
  omap (fun e => match e with Delivered x => Some x | _ => None end) tr.
Definition queued (ch : nat) (tr : list event) : list bytes :=
  omap (fun e => match e with Queued c p => if decide (c = ch) then Some p else None | _ => None end) tr.
Definition taken (ch : nat) (tr : list event) : list bytes :=
  omap (fun e => match e with Taken c p => if decide (c = ch) then Some p else None | _ => None end) tr.
Definition content (c : QueuePacketConn) (ch : nat) : list bytes := default [] (qc_chans c !! ch).

Lemma thread_step_recv x c t c' t' evs :
  conn_inv c -> thread_step x c t = Some (c', t', evs) ->
  qc_recvQueue c ++ accepted evs = delivered evs ++ qc_recvQueue c'.
Proof.
  intros Hc E. step_cases c Hc E; simplify_eq; cbn; rewrite ?app_nil_r; congruence.
Qed.

Lemma thread_step_content x c t c' t' evs ch :
  conn_inv c -> thread_step x c t = Some (c', t', evs) ->
  content c ch ++ queued ch evs = taken ch evs ++ content c' ch.
Proof.
  intros Hc E. unfold content.
  step_cases c Hc E; cbn; rewrite ?app_nil_r, ?Hk; try done;
    rewrite lookup_insert; repeat case_decide; simplify_eq; cbn; rewrite ?app_nil_r;
    by simplify_option_eq.
Qed.

(** ** Closing *)

(** A thread that is neither inside [closeOnce.Do] nor the call that ran it. *)
Definition idle (t : pc) : Prop :=
  match t with CL_store _ | CL_close | Done_close None | Panicked => False | _ => True end.

(** [t] is the thread that entered [closeOnce.Do]. *)
Definition owner (c : QueuePacketConn) (t : pc) : Prop :=
  match t with
  | CL_store _ => qc_closeOnce c = OnceRunning /\ qc_closed c = false /\ qc_err c = None
  | CL_close => qc_closeOnce c = OnceRunning /\ qc_closed c = false /\ is_Some (qc_err c)
  | Done_close None => qc_closeOnce c = OnceDone /\ qc_closed c = true /\ is_Some (qc_err c)
  | _ => False
  end.

(** The threads [owner] allows: inside the critical section, or returned from it. *)
Ltac owner_cases t Ho :=
  destruct t as [| | | | | | | | | | | | | | | | | |[]|]; cbn in Ho;
  try (destruct_and?; done || congruence).

Definition untouched (c : QueuePacketConn) : Prop :=
  qc_closeOnce c = OnceNew /\ qc_closed c = false /\ qc_err c = None.

Definition close_inv (c : QueuePacketConn) (pool : list pc) : Prop :=
  (untouched c /\ forall i t, pool !! i = Some t -> idle t) \/
  (exists i t, pool !! i = Some t /\ owner c t /\
     forall j t', j <> i -> pool !! j = Some t' -> idle t').

(** A thread that is sending holds a queue that exists. *)
Definition holds_queue (c : QueuePacketConn) (t : pc) : Prop :=
  match t with WT_send _ ch => is_Some (qc_chans c !! ch) | _ => True end.

Record sys_inv (s : sys) : Prop := {
  si_conn : conn_inv (sy_conn s);
  si_close : close_inv (sy_conn s) (sy_pool s);
  si_holds i t : sy_pool s !! i = Some t -> holds_queue (sy_conn s) t }.

Definition close_fields (c : QueuePacketConn) := (qc_closeOnce c, qc_closed c, qc_err c).

Lemma owner_fields c c' t : close_fields c = close_fields c' -> owner c t -> owner c' t.
Proof. unfold close_fields. intros [= H1 H2 H3]. destruct t as [| | | | | | | | | | | | | | | | | |[]|];
  cbn; try done; by rewrite H1, H2, H3. Qed.

Lemma close_inv_err c pool : close_inv c pool -> qc_closed c = true -> is_Some (qc_err c).
Proof.
  intros [[(_&?&_) _]|(i & t & _ & Ho & _)] Hc; [congruence|].
  owner_cases t Ho.
Qed.

Lemma close_inv_done c pool : close_inv c pool -> qc_closeOnce c = OnceDone -> is_Some (qc_err c).
Proof.
  intros [[(?&_) _]|(i & t & _ & Ho & _)] Hc; [congruence|].
  owner_cases t Ho.
Qed.

(** An action of a thread outside the critical section leaves the closing fields
    alone, or enters the critical section first. *)
Lemma idle_step x c t c' t' evs :
  conn_inv c -> (qc_closed c = true -> is_Some (qc_err c)) ->
  (qc_closeOnce c = OnceDone -> is_Some (qc_err c)) ->
  idle t -> thread_step x c t = Some (c', t', evs) ->
  (close_fields c' = close_fields c /\ idle t') \/
  qc_closeOnce c = OnceNew /\ (exists e, t' = CL_store e) /\
    close_fields c' = (OnceRunning, qc_closed c, qc_err c).
Proof.
  intros Hc Hcl0 Hdone Hi E. unfold close_fields.
  step_cases c Hc E; cbn in *; rewrite ?Ho, ?Hcl, ?He; try done;
    try (left; split; [congruence|exact I]);
    try (right; split_and!; [done|by eexists|congruence]).
  all: exfalso; destruct Hcl0 + destruct Hdone; congruence.
Qed.

Lemma owner_step x c t c' t' evs :
  owner c t -> thread_step x c t = Some (c', t', evs) ->
  owner c' t' /\ (qc_closed c = true -> close_fields c' = close_fields c) /\ t <> t'.
Proof.
  destruct t as [| | | | | | | | | | | | | | | | | |[]|]; cbn; try done; intros (H1 & H2 & H3) [= <- <- <-];
    cbn; split_and!; try done; congruence.
Qed.

Lemma close_inv_call c pool t : is_call t -> close_inv c pool -> close_inv c (pool ++ [t]).
Proof.
  intros Ht. assert (idle t) by (destruct t; done).
  assert (Hi : forall j t', (pool ++ [t]) !! j = Some t' -> pool !! j = Some t' \/ t' = t).
  { intros j t' [?|[_ [_ <-]%list_lookup_singleton_Some]]%lookup_app_Some; naive_solver. }
  intros [[Hu Hp]|(i & u & Hu & Ho & Hp)]; [left; split; [done|]|right; exists i, u; split_and!; [|done|]].
  - intros j t' [Hj| ->]%Hi; eauto.
  - by apply lookup_app_l_Some.
  - intros j t' Hj [Ht'| ->]%Hi; eauto.
Qed.

Lemma close_inv_thread x c pool i t c' t' evs :
  conn_inv c -> close_inv c pool -> pool !! i = Some t ->
  thread_step x c t = Some (c', t', evs) -> close_inv c' (<[i := t']> pool).
Proof.
  intros Hc Hcl Ei E. pose proof (lookup_lt_Some _ _ _ Ei) as Hlt.
  assert (Hins : forall j u, <[i := t']> pool !! j = Some u -> (j = i /\ u = t') \/ (j <> i /\ pool !! j = Some u)).
  { intros j u [(-> & -> & _)|[? ?]]%list_lookup_insert_Some; naive_solver. }
  pose proof (close_inv_err _ _ Hcl) as Herr. pose proof (close_inv_done _ _ Hcl) as Hdn.
  destruct Hcl as [[Hu Hp]|(o & u & Hu & Ho & Hp)].
  - destruct (idle_step _ _ _ _ _ _ Hc Herr Hdn (Hp _ _ Ei) E) as [[Hf Hi']|(_ & [e ->] & Hf)].
    + left. unfold untouched, close_fields in *. injection Hf as -> -> ->.
      split; [done|]. intros j v [[_ ->]|[_ Hj]]%Hins; eauto.
    + right. exists i, (CL_store e). rewrite list_lookup_insert_eq by done.
      unfold untouched, close_fields in *. injection Hf as F1 F2 F3. cbn. rewrite F1, F2, F3.
      destruct Hu as (_ & -> & ->). split_and!; try done.
      intros j v Hj [[-> _]|[_ Hv]]%Hins; eauto. done.
  - right. destruct (decide (i = o)) as [->|Hne].
    + rewrite Ei in Hu. injection Hu as ->. destruct (owner_step _ _ _ _ _ _ Ho E) as [Ho' _].
      exists o, t'. rewrite list_lookup_insert_eq by done. split_and!; [done|done|].
      intros j v Hj [[-> _]|[_ Hv]]%Hins; eauto. done.
    + destruct (idle_step _ _ _ _ _ _ Hc Herr Hdn (Hp _ _ Hne Ei) E) as [[Hf Hi']|(Hn & _ & Hf)].
      * exists o, u. rewrite list_lookup_insert_ne by done. split_and!; [done| |].
        { by eapply owner_fields. }
        intros j v Hj [[-> ->]|[_ Hv]]%Hins; eauto.
      * exfalso. owner_cases u Ho.
Qed.

Lemma sys_step_inv s evs s' : sys_inv s -> sys_step s evs s' -> sys_inv s'.
Proof.
  intros Hs H. destruct H as [s0 t Ht|s0 i t x c' t' evs' Ei E]; destruct Hs as [Hc Hcl Hh]; split; cbn.
  - done.
  - by apply close_inv_call.
  - intros j u [Hj|[_ [_ <-]%list_lookup_singleton_Some]]%lookup_app_Some; [eauto|by destruct t].
  - by eapply thread_step_inv.
  - by eapply close_inv_thread.
  - assert (Hmono : forall u, holds_queue (sy_conn s0) u -> holds_queue c' u).
    { intros []; cbn; eauto using thread_step_chans. }
    intros j u [(-> & -> & _)|[? ?]]%list_lookup_insert_Some; [|eauto].
    clear -E Hc. step_cases (sy_conn s0) Hc E; cbn; done.
Qed.

Lemma steps_inv s tr s' : sys_inv s -> steps s tr s' -> sys_inv s'.
Proof. intros Hs. induction 1; eauto using sys_step_inv. Qed.

Lemma reachable_inv tr s : reachable tr s -> sys_inv s.
Proof.
  apply steps_inv. split; cbn; [apply NewQueuePacketConn_inv| |done].
  left. by split.
Qed.

(** Once closed, the closing fields never change again. *)
Lemma steps_closed s tr s' :
  sys_inv s -> steps s tr s' -> qc_closed (sy_conn s) = true ->
  close_fields (sy_conn s') = close_fields (sy_conn s).
Proof.
  intros Hs Hst Hcl. induction Hst as [|tr s1 evs s2 H1 IH H2]; [done|].
  rewrite <- IH. assert (Hs1 : sys_inv s1) by eauto using steps_inv. destruct Hs1 as [Hc Hclo _].
  assert (Hd : qc_closed (sy_conn s1) = true) by (unfold close_fields in IH; congruence).
  destruct H2 as [s0 t Ht|s0 i t x c' t' evs' Ei E]; [done|]. cbn.
  pose proof (close_inv_err _ _ Hclo) as Herr. pose proof (close_inv_done _ _ Hclo) as Hdn.
  destruct Hclo as [[(_ & ? & _) _]|(o & u & Hu & Ho & Hp)]; [congruence|].
  destruct (decide (i = o)) as [->|Hne].
  - rewrite Ei in Hu. injection Hu as ->. destruct (owner_step _ _ _ _ _ _ Ho E) as (_ & H & _). eauto.
  - destruct (idle_step _ _ _ _ _ _ Hc Herr Hdn (Hp _ _ Hne Ei) E) as [[Hf _]|(Hn & _)]; [done|].
    owner_cases u Ho.
Qed.

Lemma sys_step_fifo s evs s' :
  sys_inv s -> sys_step s evs s' ->
  qc_recvQueue (sy_conn s) ++ accepted evs = delivered evs ++ qc_recvQueue (sy_conn s') /\
  forall ch, content (sy_conn s) ch ++ queued ch evs = taken ch evs ++ content (sy_conn s') ch.
Proof.
  intros Hs H. destruct H as [s0 t Ht|s0 i t x c' t' evs' Ei E]; cbn.
  - split; intros; by rewrite app_nil_r.
  - split; intros; [by eapply thread_step_recv, E; apply Hs|by eapply thread_step_content, E; apply Hs].
Qed.

Lemma steps_fifo tr s :
  reachable tr s ->
  accepted tr = delivered tr ++ qc_recvQueue (sy_conn s) /\
  forall ch, queued ch tr = taken ch tr ++ content (sy_conn s) ch.
Proof.
  intros H. unfold reachable in H. induction H as [|tr s evs s' H IH Hst]; [done|].
  destruct (sys_step_fifo s evs s' (reachable_inv _ _ H) Hst) as [Hr Hq]. destruct IH as [IH1 IH2].
  split; [|intros ch]; unfold accepted, delivered, queued, taken in *; rewrite !omap_app.
  - by rewrite IH1, <- !app_assoc, Hr.
  - by rewrite IH2, <- !app_assoc, Hq.
Qed.

(** ** Which client a queue belongs to *)

(** The queue [clients.SendQueue] returns is the client's own or a new one, and the entries
    keep their queues. *)
Lemma clients_SendQueue_view c addr now ch c' :
  conn_inv c -> clients_SendQueue c addr now = Some (ch, c') ->
  (ch = qc_next c /\ qc_next c' = S ch /\ qc_chans c' = <[ch := []]> (qc_chans c) \/
   (exists r, view (qc_clients c) !! addr = Some r /\ cr_SendQueue r = ch) /\ qc_next c' = qc_next c /\ qc_chans c' = qc_chans c) /\
  view (qc_clients c') = <[addr := ClientRecord addr now ch]> (view (qc_clients c)).
Proof.
  intros Hc E. unfold clients_SendQueue in E.
  destruct (SendQueue_ok (qc_clients c) addr now (qc_next c) (ci_map c Hc)) as (q & m & Es & _ & Hs).
  rewrite Es in E. unfold spec_SendQueue in Hs. injection Hs as Hq Hv. cbn in E.
  destruct (view (qc_clients c) !! addr) as [r|] eqn:Ea; cbn in Hq; subst q.
  - destruct (ci_alloc c Hc _ _ Ea) as [l Hl]. apply (ci_chans c Hc) in Hl as [_ Hl].
    rewrite decide_False in E by lia. injection E as <- <-. split; [right; eauto|done].
  - rewrite decide_True in E by done. injection E as <- <-. split; [by left|done].
Qed.

(** [own] names the client every queue was made for: the entry of a live client points to
    its own queue. *)
Record own_ok (own : gmap nat Addr) (c : QueuePacketConn) : Prop := {
  oo_client a r : view (qc_clients c) !! a = Some r -> own !! cr_SendQueue r = Some a;
  oo_next ch a : own !! ch = Some a -> ch < qc_next c }.

Lemma own_ok_frame own c c' :
  own_ok own c -> qc_next c' = qc_next c ->
  (forall a r, view (qc_clients c') !! a = Some r -> view (qc_clients c) !! a = Some r) -> own_ok own c'.
Proof. intros [O1 O2] Hn Hv. split; [eauto|]. rewrite Hn. eauto. Qed.

Lemma clients_SendQueue_own own c addr now ch c' :
  conn_inv c -> own_ok own c -> clients_SendQueue c addr now = Some (ch, c') ->
  own ⊆ <[ch := addr]> own /\ own_ok (<[ch := addr]> own) c'.
Proof.
  intros Hc [O1 O2] [Hch Hv]%(clients_SendQueue_view _ _ _ _ _ Hc).
  assert (Hsub : own ⊆ <[ch := addr]> own).
  { destruct Hch as [(-> & _)|((r & Hr & <-) & _)]; [|by rewrite insert_id by eauto].
    apply insert_subseteq. destruct (own !! qc_next c) eqn:En; [|done]. apply O2 in En. lia. }
  split; [done|]. split.
  - intros a r. rewrite Hv. intros [[<- <-]|[_ Hr]]%lookup_insert_Some; cbn; [apply lookup_insert_eq|].
    by eapply lookup_weaken; [apply O1|].
  - intros ch' a [[<- <-]|[_ Ha%O2]]%lookup_insert_Some; destruct Hch as [(-> & -> & _)|((r & Hr%O1%O2 & <-) & -> & _)]; lia.
Qed.

(** A queue no client has any more and nobody fills: it stays empty. *)
Definition orphan (c : QueuePacketConn) (ch : nat) : Prop :=
  qc_chans c !! ch = Some [] /\ forall a r, view (qc_clients c) !! a = Some r -> cr_SendQueue r <> ch.

Lemma removeExpired_view now timeout c m :
  conn_inv c -> removeExpired now timeout (qc_clients c) = Some m ->
  forall a r, view m !! a = Some r -> view (qc_clients c) !! a = Some r.
Proof.
  intros Hc Em. destruct (removeExpired_loop_ok (S (length (byAge (qc_clients c)))) now timeout _ (ci_map c Hc))
    as (m' & E' & _ & Hv); [lia|].
  unfold removeExpired in Em. rewrite Em in E'. injection E' as <-.
  intros a r. rewrite Hv. by intros [? _]%map_lookup_filter_Some.
Qed.

Lemma clients_SendQueue_orphan c addr now ch c' ch0 :
  conn_inv c -> orphan c ch0 -> clients_SendQueue c addr now = Some (ch, c') -> orphan c' ch0 /\ ch <> ch0.
Proof.
  intros Hc [Hq Hv] [Hch Hv']%(clients_SendQueue_view _ _ _ _ _ Hc).
  assert (Hne : ch <> ch0).
  { destruct Hch as [(-> & _)|((r & Hr & <-) & _)]; [|eauto]. apply (ci_chans c Hc) in Hq. lia. }
  split; [|done]. split.
  - destruct Hch as [(_ & _ & ->)|(_ & _ & ->)]; [|done]. by rewrite lookup_insert_ne.
  - intros a r. rewrite Hv'. intros [[<- <-]|[_ Hr]]%lookup_insert_Some; [done|eauto].
Qed.

Lemma thread_step_orphan x c t c' t' evs ch :
  conn_inv c -> orphan c ch -> (forall p, t <> WT_send p ch) -> thread_step x c t = Some (c', t', evs) ->
  orphan c' ch /\ forall p, t' <> WT_send p ch.
Proof.
  intros Hc Ho Ht E. destruct t as [| | | | |p0 a|p0 ch0|a|ch0| | | |timeout| | | | | | |]; cbn [thread_step] in E.
  all: try (destruct (clients_SendQueue c a (ch_now x)) as [[ch1 c1]|] eqn:E1;
    [destruct (clients_SendQueue_orphan _ _ _ _ _ _ Hc Ho E1)|]; injection E as <- <- <-; by (split; [|congruence])).
  all: try (unfold load_err in E; repeat first [case_decide|case_match]; try discriminate E; injection E as <- <- <-;
    by (split; [exact Ho|])).
  all: destruct Ho as [Hq Hv].
  - destruct (qc_chans c !! ch0) as [q|] eqn:E0; [|done]. assert (ch0 <> ch) by (intros ->; by eapply Ht).
    case_decide; injection E as <- <- <-; (split; [|done]); (split; [cbn|exact Hv]); by rewrite ?lookup_insert_ne.
  - destruct (qc_chans c !! ch0) as [[|p q]|] eqn:E0; [done| |done]. assert (ch0 <> ch) by congruence.
    injection E as <- <- <-. split; [|done]. split; [cbn|exact Hv]. by rewrite lookup_insert_ne.
  - destruct (removeExpired _ _ _) as [m|] eqn:Em; injection E as <- <- <-; [|done].
    split; [|done]. split; [done|]. intros a r Hr. by eapply Hv, removeExpired_view.
Qed.

(** An action keeps the owners, and the queues that WriteTo and OutgoingQueue work on are
    those of their client. *)
Lemma thread_step_own own x c t c' t' evs :
  conn_inv c -> own_ok own c -> thread_step x c t = Some (c', t', evs) ->
  exists own', own ⊆ own' /\ own_ok own' c' /\
    match t with
    | WT_queue p a => exists ch, t' = WT_send p ch /\ own' !! ch = Some a
    | OQ_start a => exists ch, t' = Done_queue ch /\ own' !! ch = Some a
    | _ => True
    end.
Proof.
  intros Hc Ho E. destruct t; cbn [thread_step] in E.
  all: try (destruct (clients_SendQueue_ok c addr (ch_now x) Hc) as (ch & c1 & E1 & _);
    rewrite E1 in E; injection E as <- <- <-;
    destruct (clients_SendQueue_own own c _ _ _ _ Hc Ho E1);
    eexists; split_and!; [done|done|eexists; split; [done|apply lookup_insert_eq]]).
  all: exists own; split_and!; try done.
  all: try (unfold load_err in E; repeat first [case_decide|case_match]; try discriminate E; injection E as <- <- <-;
    by apply (own_ok_frame _ c)).
  destruct (removeExpired _ _ _) as [m|] eqn:Em; injection E as <- <- <-; [|done].
  apply (own_ok_frame _ c); [done|done|]. by eapply removeExpired_view.
Qed.

(** ** Properties *)

(** However the goroutines interleave, no call panics (neither the
    heap of clients nor the type assertion on the stored error), the incoming queue
    and every outgoing queue hold at most [queueSize] packets, and two different
    live clients never share a send queue. *)
Theorem queue_conn_safe tr s :
  reachable tr s ->
  Panicked ∉ sy_pool s /\ length (qc_recvQueue (sy_conn s)) <= queueSize /\
  (forall ch q, qc_chans (sy_conn s) !! ch = Some q -> length q <= queueSize) /\
  (forall a1 a2 r1 r2,
     view (qc_clients (sy_conn s)) !! a1 = Some r1 -> view (qc_clients (sy_conn s)) !! a2 = Some r2 ->
     a1 <> a2 -> cr_SendQueue r1 <> cr_SendQueue r2).
Proof.
  intros [Hc Hcl Hh]%reachable_inv. split_and!.
  - intros [i Hi]%list_elem_of_lookup. destruct Hcl as [[_ Hp]|(o & u & Hu & Ho & Hp)].
    + by apply Hp in Hi.
    + destruct (decide (i = o)) as [->|Hne]; [|by apply (Hp i) in Hi].
      rewrite Hi in Hu. by injection Hu as <-.
  - apply Hc.
  - intros ch q Hq. apply (ci_chans _ Hc _ _ Hq).
  - intros a1 a2 r1 r2 H1 H2 Hne E. by eapply Hne, (ci_inj _ Hc).
Qed.

(** Packets come out in the order they went in: what [ReadFrom] has
    returned followed by what is still queued is exactly what [QueueIncoming]
    accepted, and likewise for every outgoing queue.  Packets are dropped only by
    not being accepted. *)
Theorem queue_conn_fifo tr s :
  reachable tr s ->
  accepted tr = delivered tr ++ qc_recvQueue (sy_conn s) /\
  forall ch, queued ch tr = taken ch tr ++ content (sy_conn s) ch.
Proof. apply steps_fifo. Qed.

(** Closing is final: once [closed], there is one error [e], exactly
    one [closeWithError] call returned nil, and in every later state the connection
    is closed with that same [e]; from then on [ReadFrom], [WriteTo] and
    [Close] return [e], [QueueIncoming] drops its packet, and a [ReadFrom] that was
    blocked on an empty queue returns [e]. *)
Theorem queue_conn_closed tr s :
  reachable tr s -> qc_closed (sy_conn s) = true ->
  exists e i, qc_err (sy_conn s) = Some e /\
    (forall j, sy_pool s !! j = Some (Done_close None) <-> j = i) /\
    forall tr' s' x, steps s tr' s' ->
      let c := sy_conn s' in
      qc_closed c = true /\
      (forall k, thread_step x c (RF_start k) = Some (c, Done_read (Err e), [])) /\
      (forall p a, thread_step x c (WT_start p a) = Some (c, Done_write (Err e), [])) /\
      (forall r, thread_step x c (CL_start r) = Some (c, Done_close (Some e), [])) /\
      (forall p a, thread_step x c (QI_start p a) = Some (c, Done_unit, [])) /\
      (forall k, qc_recvQueue c = [] -> thread_step x c (RF_wait k) = Some (c, Done_read (Err e), [])).
Proof.
  intros Hr Hcl. pose proof (reachable_inv _ _ Hr) as Hs. destruct (si_close _ Hs) as [[(_ & ? & _) _]|(i & t & Ht & Ho & Hp)];
    [congruence|].
  owner_cases t Ho.
  destruct Ho as (Ho1 & _ & [e He]). exists e, i. split_and!; [done| |].
  - intros j. split; [|by intros ->]. intros Hj. destruct (decide (j = i)); [done|].
    by apply (Hp j) in Hj.
  - intros tr' s' x Hst c. pose proof (steps_closed _ _ _ Hs Hst Hcl) as Hf.
    unfold close_fields in Hf. rewrite Ho1, Hcl, He in Hf. injection Hf as F1 F2 F3.
    fold c in F1, F2, F3. cbn. unfold load_err. rewrite F1, F2, F3. split_and!; try done.
    intros k ->. by destruct (ch_closed_first x).
Qed.

(** Writers and producers never block: in every reachable state a
    goroutine inside [QueueIncoming], [WriteTo] or [OutgoingQueue] can take its next
    action at once; [ReadFrom] waits exactly while the connection is open and the
    incoming queue is empty; a [Close] that waits for [closeOnce] waits for
    a goroutine that can itself proceed. *)
Theorem queue_conn_nonblocking tr s i t x :
  reachable tr s -> sy_pool s !! i = Some t ->
  match t with
  | QI_start _ _ | QI_send _ _ | WT_start _ _ | WT_queue _ _ | WT_send _ _ | OQ_start _ =>
      is_Some (thread_step x (sy_conn s) t)
  | RF_start _ => is_Some (thread_step x (sy_conn s) t)
  | RF_wait _ =>
      thread_step x (sy_conn s) t = None <->
      qc_closed (sy_conn s) = false /\ qc_recvQueue (sy_conn s) = []
  | CL_start _ =>
      is_Some (thread_step x (sy_conn s) t) \/
      exists j t', sy_pool s !! j = Some t' /\ is_Some (thread_step x (sy_conn s) t')
  | _ => True
  end.
Proof.
  intros Hr Ht. destruct (reachable_inv _ _ Hr) as [Hc Hcl Hh]. specialize (Hh i t Ht).
  assert (Hq : forall a, exists ch c', clients_SendQueue (sy_conn s) a (ch_now x) = Some (ch, c')).
  { intros a. destruct (clients_SendQueue_ok _ a (ch_now x) Hc) as (ch & c' & E & _). eauto. }
  destruct t; cbn [thread_step] in *; try done.
  - by destruct (qc_closed _).
  - by case_decide.
  - by destruct (qc_closed _).
  - destruct (qc_closed _), (ch_closed_first x), (qc_recvQueue _) as [|[]]; naive_solver.
  - by destruct (qc_closed _).
  - by destruct (Hq addr) as (ch & c' & ->).
  - destruct Hh as [q ->]. by case_decide.
  - by destruct (Hq addr) as (ch & c' & ->).
  - destruct (qc_closeOnce _) eqn:Eo; [by left| |by left]. right.
    destruct Hcl as [[(? & _) _]|(o & u & Hu & Ho & _)]; [congruence|].
    exists o, u. split; [done|].
    owner_cases u Ho; by eexists.
Qed.
End QueueConn.

(** ** Witnesses: a client writes, is answered, and the connection is closed. *)

Definition demo_choice : choice := Choice 5 false.
Definition demo_run : list (@action nat) :=
  [Call (QI_start (s2b "ab") 7); Step 0 demo_choice; Step 0 demo_choice;
   Call (WT_start (s2b "cd") 7); Step 1 demo_choice; Step 1 demo_choice; Step 1 demo_choice;
   Call (RF_start 1); Step 2 demo_choice; Step 2 demo_choice;
   Call (RF_start 9); Step 3 demo_choice;
   Call Close; Step 4 demo_choice; Call (CL_start (Some EOF));
   Step 4 demo_choice; Step 4 demo_choice].

Definition demo_end : @sys nat _ _ := default (Sys NewQueuePacketConn []) (snd <$> run demo_run (Sys NewQueuePacketConn [])).
Definition demo_trace : list (@event nat) := default [] (fst <$> run demo_run (Sys NewQueuePacketConn [])).

Lemma demo_reachable : reachable demo_trace demo_end.
Proof. apply (run_steps demo_run). vm_compute. reflexivity. Qed.

Lemma queue_conn_safe_witness :
  demo_trace = [Accepted (s2b "ab", 7); Queued 0 (s2b "cd"); Delivered (s2b "ab", 7)] /\
  Panicked ∉ sy_pool demo_end.
Proof. split; [vm_compute; reflexivity|apply (queue_conn_safe _ _ demo_reachable)]. Defined.

Lemma queue_conn_fifo_witness : queued 0 demo_trace = [] ++ content (sy_conn demo_end) 0.
Proof. exact (proj2 (queue_conn_fifo _ _ demo_reachable) 0). Defined.

Lemma queue_conn_closed_witness :
  exists e i, qc_err (sy_conn demo_end) = Some e /\ sy_pool demo_end !! i = Some (Done_close None).
Proof.
  destruct (queue_conn_closed _ _ demo_reachable) as (e & i & He & Hi & _); [vm_compute; reflexivity|].
  exists e, i. split; [exact He|]. by apply Hi.
Defined.

Lemma queue_conn_nonblocking_witness :
  thread_step demo_choice (sy_conn demo_end) (RF_wait 9) = None <->
  qc_closed (sy_conn demo_end) = false /\ qc_recvQueue (sy_conn demo_end) = [].
Proof.
  apply (queue_conn_nonblocking demo_trace demo_end 3 (RF_wait 9) demo_choice demo_reachable).
  vm_compute. reflexivity.
Defined.
