(* ===== verification/WsHandler.v ===== *)
(** * The handlers of the snowflake server (snowflake/common/standalone/handler.go)

    [serveHTTP] runs once per WebSocket: it reads the preamble, starts a goroutine for
    each direction and waits for either to fail.  The handlers of all connections share
    the server's QueuePacketConn with each other and with KCP above it.  They are one
    [Machine] here, over the atomic actions of [QueueConn]; what the WebSockets answer is
    a choice of the environment.  [Carrier] has the same loops as functions of the
    bytes they read. *)
From S2P Require Import Prelude Threads GoIO ClientMap QueueConn.

Abbreviation qconn := (QueuePacketConn (Addr := bytes)).
Abbreviation qpc := (QueueConn.pc (Addr := bytes)).
Abbreviation qevent := (QueueConn.event (Addr := bytes)).

(** A connection: the errors in [errCh], and whether the handler has closed it.  A closed
    connection fails every Read and Write, since Close closes both pipes first (WsConn). *)
Record ws := Ws { ws_errs : nat; ws_closed : bool }.

Section Handlers.
(** Connections have names. *)
Context {K : Type} `{Countable K}.

Record Server := MkServer { sv_pconn : qconn; sv_conns : gmap K ws }.

Definition set_pconn s q := MkServer q (sv_conns s).
Definition set_conn s k v := MkServer (sv_pconn s) (<[k := v]> (sv_conns s)).

Inductive pc :=
  (* serveHTTP: from a successful Upgrade (a failed one leaves no connection), the
     preamble, the receive from errCh, the deferred Close *)
  | SV_new (k : K) | SV_preamble (k : K) | SV_wait (k : K) | SV_close (k : K)
  (* the reading goroutine: ReadData, then QueueIncoming *)
  | SR_read (k : K) (clientID : bytes) | SR_queue (k : K) (clientID : bytes) (t : qpc)
  (* the writing goroutine: OutgoingQueue, the receive, WriteData and Flush *)
  | SW_start (k : K) (clientID : bytes) | SW_take (k : K) (clientID : bytes) (ch : nat)
  | SW_write (k : K) (clientID : bytes) (ch : nat) (p : bytes)
  (* either of them: errCh <- err *)
  | SE_send (k : K)
  (* KCP's WriteTo(p, addr), and another call on the QueuePacketConn *)
  | QW (addr : bytes) (t : qpc) | QP (t : qpc)
  | Finished | Panicked.

(** On whose behalf the QueuePacketConn acts. *)
Inductive origin := Handler (k : K) | Write (addr : bytes) | Other.

Inductive event :=
  | Announced (k : K) (clientID : bytes)  (* the preamble of a connection *)
  | Read (k : K) (p : bytes)              (* ReadData returned p *)
  | Wrote (k : K) (p : bytes)             (* p was written and flushed *)
  | Failed (k : K) (p : bytes)            (* that failed *)
  | Queue (o : origin) (e : qevent).

(** What the environment answers: to the actions of the QueuePacketConn; the client
    identifier of the preamble, or that there is none; the results of ReadData and of
    writing a packet ([None]: not yet). *)
Record choice := Choice {
  x_q : QueueConn.choice;
  x_preamble : option (option bytes);
  x_read : option (res bytes);
  x_write : option (option error) }.

Abbreviation outcome := (Server * pc * list pc * list event)%type.

(** An action of the QueuePacketConn on behalf of [o]. *)
Definition on_queue (x : choice) (s : Server) (o : origin) (t : qpc) (k : qpc -> pc) : option outcome :=
  match thread_step (x_q x) (sv_pconn s) t with
  | Some (q, t', evs) => Some (set_pconn s q, k t', [], Queue o <$> evs)
  | None => None
  end.

Definition is_closed (s : Server) (k : K) : bool :=
  match sv_conns s !! k with Some w => ws_closed w | None => true end.

Definition serveHTTP_step (x : choice) (s : Server) (t : pc) : option outcome :=
  match t with
  | SV_new k =>
      match sv_conns s !! k with
      | None => Some (set_conn s k (Ws 0 false), SV_preamble k, [], [])
      | Some _ => None
      end
  | SV_preamble k =>
      match x_preamble x with
      | None => None
      | Some None => Some (s, SV_close k, [], [])
      | Some (Some id) => Some (s, SV_wait k, [SR_read k id; SW_start k id], [Announced k id])
      end
  | SV_wait k =>
      match sv_conns s !! k with
      | Some (Ws (S n) b) => Some (set_conn s k (Ws n b), SV_close k, [], [])
      | _ => None
      end
  | SV_close k =>
      match sv_conns s !! k with
      | Some (Ws n _) => Some (set_conn s k (Ws n true), Finished, [], [])
      | None => None
      end
  | _ => None
  end.

Definition reading_step (x : choice) (s : Server) (t : pc) : option outcome :=
  match t with
  | SR_read k id =>
      if is_closed s k then Some (s, SE_send k, [], [])
      else
        match x_read x with
        | None => None
        | Some (Ret p) => Some (s, SR_queue k id (QI_start p id), [], [Read k p])
        | Some _ => Some (s, SE_send k, [], [])
        end
  | SR_queue k id t =>
      on_queue x s (Handler k) t (fun t' =>
        match t' with
        | Done_unit => SR_read k id
        | QueueConn.Panicked => Panicked
        | _ => SR_queue k id t'
        end)
  | _ => None
  end.

Definition writing_step (x : choice) (s : Server) (t : pc) : option outcome :=
  match t with
  | SW_start k id =>
      on_queue x s (Handler k) (OQ_start id) (fun t' =>
        match t' with Done_queue ch => SW_take k id ch | _ => Panicked end)
  | SW_take k id ch =>
      on_queue x s (Handler k) (RQ_start ch) (fun t' =>
        match t' with Done_recv p => SW_write k id ch p | _ => Panicked end)
  | SW_write k id ch p =>
      if is_closed s k then Some (s, SE_send k, [], [Failed k p])
      else
        match x_write x with
        | None => None
        | Some None => Some (s, SW_take k id ch, [], [Wrote k p])
        | Some (Some _) => Some (s, SE_send k, [], [Failed k p])
        end
  | _ => None
  end.

(** [errCh] has room for two errors. *)
Definition send_step (s : Server) (t : pc) : option outcome :=
  match t with
  | SE_send k =>
      match sv_conns s !! k with
      | Some (Ws n b) => if decide (n < 2) then Some (set_conn s k (Ws (S n) b), Finished, [], []) else None
      | None => None
      end
  | _ => None
  end.

Definition sv_step (x : choice) (s : Server) (t : pc) : option outcome :=
  match t with
  | SV_new _ | SV_preamble _ | SV_wait _ | SV_close _ => serveHTTP_step x s t
  | SR_read _ _ | SR_queue _ _ _ => reading_step x s t
  | SW_start _ _ | SW_take _ _ _ | SW_write _ _ _ _ => writing_step x s t
  | SE_send _ => send_step s t
  | QW addr t => on_queue x s (Write addr) t (QW addr)
  | QP t => on_queue x s Other t QP
  | Finished | Panicked => None
  end.

(** New connections, the calls of KCP, and the expiry loop. *)
Definition sv_call (t : pc) : bool :=
  match t with
  | SV_new _ => true
  | QW addr (WT_start _ a) => bool_decide (a = addr)
  | QP (RF_start _) | QP (CL_start _) | QP (EX_loop _) => true
  | _ => false
  end.

#[export] Instance sv_machine : Machine Server pc event choice := {| act := sv_step; callable := sv_call |}.

Definition NewServer : system Server pc := System (MkServer NewQueuePacketConn ∅) [].
Definition reachable : list event -> system Server pc -> Prop := moves NewServer.

(** ** The handlers as callers of the QueuePacketConn

    Every run of the handlers is a run of the QueuePacketConn they share. *)

(** The call a goroutine is in. *)
Definition in_call (t : pc) : option qpc :=
  match t with SR_queue _ _ t | QW _ t | QP t => Some t | _ => None end.
Definition queue_event (e : event) : option qevent := match e with Queue _ e => Some e | _ => None end.

Abbreviation qsteps := (QueueConn.reachable (Addr := bytes)).

Lemma qsteps_call tr qs t l :
  qsteps tr qs -> is_call t -> l ⊆+ sy_pool qs ->
  exists qs', qsteps tr qs' /\ sy_conn qs' = sy_conn qs /\ t :: l ⊆+ sy_pool qs'.
Proof.
  intros Hq Ht Hl. exists (Sys (sy_conn qs) (sy_pool qs ++ [t])). split_and!; [|done|].
  - rewrite <- (app_nil_r tr). eapply steps_more; [done|by constructor].
  - cbn. rewrite <- Permutation_cons_append. by apply submseteq_skip.
Qed.

Lemma qsteps_act tr qs t l x c' t' evs :
  qsteps tr qs -> t :: l ⊆+ sy_pool qs -> thread_step x (sy_conn qs) t = Some (c', t', evs) ->
  exists qs', qsteps (tr ++ evs) qs' /\ sy_conn qs' = c' /\ t' :: l ⊆+ sy_pool qs'.
Proof.
  intros Hq Hl E. destruct (submseteq_Permutation _ _ Hl) as [r Hr].
  assert (Hin : t ∈ sy_pool qs) by (rewrite Hr; left).
  apply list_elem_of_split in Hin as (l1 & l2 & E2). destruct qs as [c q]. cbn in *. subst q.
  exists (Sys c' (l1 ++ t' :: l2)). split_and!; [|done|].
  - eapply steps_more; [exact Hq|]. cbn.
    replace (l1 ++ t' :: l2) with (<[length l1 := t']> (l1 ++ t :: l2))
      by (rewrite insert_app_r_alt, Nat.sub_diag by done; done).
    eapply (step_thread (Sys c (l1 ++ t :: l2))); [|exact E]. cbn.
    by rewrite lookup_app_r, Nat.sub_diag by done.
  - cbn. rewrite <- Permutation_middle in Hr |- *. apply Permutation_cons_inv in Hr. rewrite Hr.
    by apply submseteq_skip, submseteq_inserts_r.
Qed.

Definition follows (s : system Server pc) (qs : QueueConn.sys (Addr := bytes)) : Prop :=
  sy_conn qs = sv_pconn (shared s) /\ omap in_call (pool s) ⊆+ sy_pool qs.

Lemma queue_events (o : origin) (evs : list qevent) : omap queue_event (Queue o <$> evs) = evs.
Proof. induction evs as [|e evs IH]; [done|]. cbn. by rewrite IH. Qed.

Lemma on_queue_inv x s o u f s' t' new evs :
  on_queue x s o u f = Some (s', t', new, evs) ->
  new = [] /\ exists q u' l, thread_step (x_q x) (sv_pconn s) u = Some (q, u', l) /\
    s' = set_pconn s q /\ t' = f u' /\ evs = Queue o <$> l.
Proof.
  unfold on_queue. destruct (thread_step _ _ _) as [[[q u'] l]|]; [|done]. intros [= <- <- <- <-].
  split; [done|]. by exists q, u', l.
Qed.

(** What an action of a goroutine is to the QueuePacketConn: nothing but the start of a
    call perhaps, or one action of a call. *)
Lemma sv_step_calls x s t s' t' new evs :
  sv_step x s t = Some (s', t', new, evs) ->
  omap in_call new = [] /\ Panicked ∉ new /\
  ((sv_pconn s' = sv_pconn s /\ omap queue_event evs = [] /\ in_call t = None /\ t' <> Panicked /\
    (in_call t' = None \/ exists u, in_call t' = Some u /\ is_call u)) \/
   exists u u', (in_call t = Some u \/ in_call t = None /\ is_call u) /\
     thread_step (x_q x) (sv_pconn s) u = Some (sv_pconn s', u', omap queue_event evs) /\
     (in_call t' = Some u' \/ in_call t' = None) /\ (t' = Panicked -> u' = QueueConn.Panicked)).
Proof.
  assert (Hno : forall l : list pc, l = [] -> omap in_call l = [] /\ Panicked ∉ l).
  { intros l ->. split; [done|]. apply not_elem_of_nil. }
  assert (Hq : forall o u k, on_queue x s o u k = Some (s', t', new, evs) ->
    new = [] /\ exists u', t' = k u' /\ thread_step (x_q x) (sv_pconn s) u = Some (sv_pconn s', u', omap queue_event evs)).
  { intros o u k (-> & q & u' & l & E & -> & -> & ->)%on_queue_inv. split; [done|]. exists u'. by rewrite queue_events. }
  destruct t; cbn; intros E; try discriminate E.
  all: try (apply Hq in E as (Hn & u' & -> & E); destruct (Hno new Hn) as [? ?]; split_and!; [done|done|];
    right; eexists _, u'; refine (conj _ (conj E _)); split_and?; [first [by left|by right]|..]; cbn in E).
  all: repeat case_match; simplify_eq/=; try done.
  all: try first [by left|by right].
  all: split_and!; [done|set_solver|left; split_and!]; try done.
  all: first [by left|right; by eexists].
Qed.
Lemma handlers_queue tr s :
  reachable tr s ->
  Panicked ∉ pool s /\ exists qs, qsteps (omap queue_event tr) qs /\ follows s qs.
Proof.
  induction 1 as [|tr s evs s' Hr [Hp (qs & Hq & Hc & Hl)] Hm].
  { split; [apply not_elem_of_nil|]. exists (Sys NewQueuePacketConn []). split; [constructor|done]. }
  destruct Hm as [s t Ht|s i t x st' t' new evs Ei Ea]; rewrite omap_app; cbn.
  - rewrite app_nil_r. split; [destruct t; set_solver|]. unfold follows. cbn. rewrite omap_app.
    destruct (in_call t) as [u|] eqn:Eu; cbn; rewrite ?Eu; [|exists qs; by rewrite app_nil_r].
    assert (Hu : is_call u) by (destruct t as [| | | | | | | | | |? []|[]| |]; simplify_eq/=; done).
    destruct (qsteps_call _ _ u _ Hq Hu Hl) as (qs' & ? & ? & ?). exists qs'.
    rewrite <- Permutation_cons_append. split_and!; [done|congruence|done].
  - destruct (sv_step_calls _ _ _ _ _ _ _ Ea) as (Hn & Hn' & Hcase).
    destruct (pool_holds in_call (pool s) i t t' new Ei) as (rest & H1 & H2). rewrite Hn in H2. cbn in H2.
    assert (Hpan : t' <> Panicked -> Panicked ∉ <[i := t']> (pool s) ++ new).
    { intros Ht' [j [[_ ?]|[[_ ?%list_elem_of_lookup_2]|[_ ?]]]%pool_lookup_move]%list_elem_of_lookup; done. }
    unfold follows. cbn. rewrite H1 in Hl. setoid_rewrite H2.
    destruct Hcase as [(Hs & -> & Hi & Hne & [Hi'|(u & Hi' & Hu)])|(u & u' & Hi & Hs & Hi' & Hpn)].
    + split; [by apply Hpan|]. exists qs. rewrite app_nil_r, Hs. rewrite Hi in Hl. by rewrite Hi'.
    + split; [by apply Hpan|]. rewrite app_nil_r, Hs, Hi'. rewrite Hi in Hl.
      destruct (qsteps_call _ _ u _ Hq Hu Hl) as (qs' & ? & ? & ?). exists qs'. split_and!; [done|congruence|done].
    + assert (exists qs0, qsteps (omap queue_event tr) qs0 /\ sy_conn qs0 = sv_pconn (shared s) /\ u :: rest ⊆+ sy_pool qs0)
        as (qs0 & Hq0 & Hc0 & Hl0).
      { destruct Hi as [Hi|[Hi Hu]]; rewrite Hi in Hl; cbn in Hl; [by exists qs|].
        destruct (qsteps_call _ _ u _ Hq Hu Hl) as (qs' & ? & ? & ?). exists qs'. split_and!; [done|congruence|done]. }
      rewrite <- Hc0 in Hs. destruct (qsteps_act _ _ _ _ _ _ _ _ Hq0 Hl0 Hs) as (qs' & Hq' & Hc' & Hl').
      split.
      * apply Hpan. intros ->. destruct (queue_conn_safe _ _ Hq') as [Hsafe _]. apply Hsafe.
        rewrite (Hpn eq_refl) in Hl'. eapply elem_of_submseteq; [|exact Hl']. left.
      * exists qs'. split_and!; [done|done|]. destruct Hi' as [Hi'|Hi']; rewrite Hi'; cbn; [done|].
        etrans; [|exact Hl']. by apply submseteq_cons.
Qed.

(** ** What happened to a connection *)

Definition announced (k : K) : list event -> list bytes :=
  omap (fun e => match e with Announced k' id => if decide (k' = k) then Some id else None | _ => None end).
Definition read_by (k : K) : list event -> list bytes :=
  omap (fun e => match e with Read k' p => if decide (k' = k) then Some p else None | _ => None end).
Definition accepted_by (k : K) : list event -> list (bytes * bytes) :=
  omap (fun e => match e with
    | Queue (Handler k') (Accepted x) => if decide (k' = k) then Some x else None | _ => None end).
Definition taken_by (k : K) : list event -> list (nat * bytes) :=
  omap (fun e => match e with
    | Queue (Handler k') (Taken ch p) => if decide (k' = k) then Some (ch, p) else None | _ => None end).
Definition wrote_by (k : K) : list event -> list bytes :=
  omap (fun e => match e with Wrote k' p => if decide (k' = k) then Some p else None | _ => None end).

(** The call a goroutine is in is the one it made. *)
Definition pc_wf (t : pc) : Prop :=
  match t with
  | SR_queue _ id (QI_start _ a) | SR_queue _ id (QI_send _ a) => a = id
  | SR_queue _ _ _ => False
  | QW addr (WT_start _ a) | QW addr (WT_queue _ a) => a = addr
  | QW _ (WT_send _ _) | QW _ (Done_write _) | QW _ QueueConn.Panicked => True
  | QW _ _ => False
  | QP (RF_start _) | QP (RF_wait _) | QP (Done_read _) | QP (CL_start _) | QP (CL_store _) | QP CL_close
  | QP (Done_close _) | QP (EX_loop _) | QP QueueConn.Panicked => True
  | QP _ => False
  | _ => True
  end.

Lemma pc_wf_step x s t s' t' new evs :
  pc_wf t -> sv_step x s t = Some (s', t', new, evs) -> pc_wf t' /\ Forall pc_wf new.
Proof.
  intros Ht E. destruct t as [| | | | |k0 id u| | | | |a u|u| |]; cbn in E.
  all: try (apply on_queue_inv in E as (-> & q & u' & l & E & -> & -> & ->); split; [|constructor]).
  all: try (destruct u; try done; cbn in E, Ht; unfold load_err in E; repeat first [case_decide|case_match]; simplify_eq/=; done).
  all: repeat case_match; simplify_eq/=; repeat constructor.
Qed.

Lemma pc_wf_reachable tr s : reachable tr s -> Forall pc_wf (pool s).
Proof.
  induction 1 as [|tr s evs s' _ IH Hm]; [constructor|].
  destruct Hm as [s t Ht|s i t x st' t' new evs Ei Ea]; cbn; apply Forall_app; split.
  - done.
  - constructor; [|constructor]. destruct t as [| | | | | | | | | |? []|[]| |]; try done. by apply bool_decide_eq_true in Ht.
  - apply list.Forall_insert; [done|]. eapply pc_wf_step, Ea. by eapply Forall_lookup_1.
  - eapply pc_wf_step, Ea. by eapply Forall_lookup_1.
Qed.

(** The events a goroutine can cause. *)
Definition event_of (t : pc) (e : event) : Prop :=
  match t, e with
  | SV_preamble k, Announced k' _ | SR_read k _, Read k' _
  | SR_queue k _ _, Queue (Handler k') (Accepted _) | SW_take k _ _, Queue (Handler k') (Taken _ _)
  | SW_write k _ _ _, Wrote k' _ | SW_write k _ _ _, Failed k' _ => k' = k
  | QW a _, Queue (Write a') (Queued _ _) => a' = a
  | QP _, Queue Other (Delivered _) => True
  | _, _ => False
  end.

Lemma sv_step_events x s t s' t' new evs :
  pc_wf t -> sv_step x s t = Some (s', t', new, evs) -> Forall (event_of t) evs.
Proof.
  intros Ht E. destruct t as [| | | | |k0 id u| | | | |a u|u| |]; cbn in E.
  all: try (apply on_queue_inv in E as (-> & q & u' & l & E & -> & -> & ->); apply Forall_fmap).
  all: try (destruct u; try done; cbn in E, Ht; unfold load_err in E).
  all: cbn in E; repeat first [case_decide|case_match]; simplify_eq/=; repeat constructor.
Qed.

(** A step that causes no event with [f] leaves [omap f] as it was. *)
Lemma omap_silent {B} (f : event -> option B) x s t s' t' new evs tr :
  pc_wf t -> sv_step x s t = Some (s', t', new, evs) -> (forall e, event_of t e -> f e = None) ->
  omap f (tr ++ evs) = omap f tr.
Proof.
  intros Hwf E Hf. rewrite omap_app, (omap_none f evs), app_nil_r; [done|].
  eapply list.Forall_impl; [by eapply sv_step_events|apply Hf].
Qed.

(** *** One goroutine per direction

    [w] marks the goroutine that runs one direction of connection [k] (the handler
    before the preamble, the goroutine it starts afterwards).  There is at most one, so
    what it did ([view] of the trace) is related to where it is by [P], and by [T]
    also after it has ended. *)
Section Direction.
Context {V : Type} (k : K) (w : pc -> nat) (view : list event -> V) (P : V -> pc -> Prop) (T : V -> Prop).
Context (w_one : forall t, w t <= 1) (w_call : forall t, sv_call t = true -> w t = 0) (w_new : w (SV_preamble k) = 1).
Context (T_new : T (view [])) (P_new : P (view []) (SV_preamble k)).
Context (other : forall x s t s' t' new evs, pc_wf t -> sv_step x s t = Some (s', t', new, evs) -> w t = 0 ->
  (t = SV_new k \/ w t' = 0) /\ total w new = 0 /\ forall tr, view (tr ++ evs) = view tr).
Context (own : forall x s t s' t' new evs tr, pc_wf t -> sv_step x s t = Some (s', t', new, evs) -> w t = 1 -> P (view tr) t ->
  w t' + total w new <= 1 /\ T (view (tr ++ evs)) /\
  forall u, u ∈ t' :: new -> w u = 1 -> P (view (tr ++ evs)) u).

Definition direction_inv (tr : list event) (s : system Server pc) : Prop :=
  match sv_conns (shared s) !! k with
  | None => view tr = view [] /\ total w (pool s) = 0
  | Some _ => T (view tr) /\ total w (pool s) <= 1 /\ forall i u, pool s !! i = Some u -> w u = 1 -> P (view tr) u
  end.

(** Connections stay in the table, and only their own handler puts them there. *)
Lemma sv_step_conns x s t s' t' new evs :
  sv_step x s t = Some (s', t', new, evs) ->
  (t = SV_new k /\ sv_conns s !! k = None /\ t' = SV_preamble k /\ new = [] /\ is_Some (sv_conns s' !! k)) \/
  (t <> SV_new k /\ (is_Some (sv_conns s' !! k) <-> is_Some (sv_conns s !! k))).
Proof.
  intros E. destruct t; cbn in E; unfold on_queue in E; repeat case_match; simplify_eq/=;
    try (right; split; [done|]; done).
  1: destruct (decide (k0 = k)) as [->|Hne]; [left; by rewrite lookup_insert_eq|].
  all: right; split; [congruence|]; rewrite lookup_insert; destruct (decide (k0 = k)); [|done].
  all: first [congruence|subst; split; intros _; eexists; first [reflexivity|eassumption]].
Qed.

Lemma direction_act tr s i t x st' t' new evs :
  direction_inv tr s -> pool s !! i = Some t -> pc_wf t -> sv_step x (shared s) t = Some (st', t', new, evs) ->
  direction_inv (tr ++ evs) (System st' (<[i := t']> (pool s) ++ new)).
Proof.
  unfold direction_inv. cbn. intros Hinv Ei Hwf E. rewrite total_app.
  pose proof (total_insert w (pool s) i t t' Ei) as Htot. pose proof (total_one w _ _ _ Ei) as Hone.
  destruct (sv_step_conns _ _ _ _ _ _ _ E) as [(-> & Hn & -> & -> & [v' ->])|[Hnew Hc]].
  - rewrite Hn in Hinv. destruct Hinv as [Hv Ht].
    destruct (other _ _ _ _ _ _ _ Hwf E) as (_ & _ & Hev); [lia|]. rewrite Hev, Hv. split; [done|]. split; [unfold total in *; cbn; lia|].
    intros j u [[_ ->]|[[_ Hj]|[_ Hj]]]%pool_lookup_move Hu; [done| |by apply elem_of_nil in Hj].
    apply (total_one w) in Hj. lia.
  - destruct (decide (w t = 0)) as [H0|H0].
    + destruct (other _ _ _ _ _ _ _ Hwf E H0) as ([?|Ht'] & Hn & Hev); [done|]. rewrite Hev.
      destruct (sv_conns (shared s) !! k), (sv_conns st' !! k); try (exfalso; by destruct Hc as [Hc1 Hc2]; (destruct Hc1 + destruct Hc2)).
      * destruct Hinv as (HT & Ht & HP). split; [done|]. split; [lia|].
        intros j u [[_ ->]|[[_ Hj]|[_ Hj]]]%pool_lookup_move Hu; [lia|by eapply HP|].
        apply list_elem_of_lookup in Hj as [? Hj]. apply (total_one w) in Hj. lia.
      * destruct Hinv as [Hv Ht]. split; [done|lia].
    + assert (Hw : w t = 1) by (pose proof (w_one t); lia).
      destruct (sv_conns (shared s) !! k); [|lia]. destruct Hinv as (HT & Ht & HP).
      destruct (own _ _ _ _ _ _ _ tr Hwf E Hw (HP _ _ Ei Hw)) as (H1 & HT' & HP').
      destruct (proj2 Hc) as [v' ->]; [done|]. split; [done|]. split; [lia|].
      intros j u [[_ ->]|[[Hne Hj]|[_ Hj]]]%pool_lookup_move Hu; [apply HP'; [left|done]| |apply HP'; [by right|done]].
      exfalso. by eapply Hne, (total_unique w (pool s)).
Qed.

Lemma direction_reachable tr s : reachable tr s -> direction_inv tr s.
Proof.
  induction 1 as [|tr s evs s' Hr IH Hm]; [unfold direction_inv; cbn; by rewrite lookup_empty|].
  destruct Hm as [s t Ht|s i t x st' t' new evs Ei Ea]; [|by eapply direction_act, Ea; [..|eapply Forall_lookup_1; [by eapply pc_wf_reachable|]]].
  unfold direction_inv in *. cbn. rewrite app_nil_r, total_app.
  assert (H0 : total w [t] = 0) by (unfold total; cbn; by rewrite (w_call t Ht)). rewrite H0.
  destruct (sv_conns (shared s) !! k); [|by rewrite Nat.add_0_r].
  destruct IH as (HT & Htot & HP). split; [done|]. split; [lia|].
  intros j u [Hj|[_ Hj]]%lookup_app_Some Hu; [by eapply HP|].
  apply list_lookup_singleton_Some in Hj as [_ <-]. rewrite (w_call t Ht) in Hu. done.
Qed.

Lemma direction_thread tr s i t : reachable tr s -> pool s !! i = Some t -> w t = 1 -> P (view tr) t.
Proof.
  intros Hr%direction_reachable Ei Hw. unfold direction_inv in Hr. apply (total_one w) in Ei as Hone.
  destruct (sv_conns (shared s) !! k); [|lia]. destruct Hr as (_ & _ & HP). by eapply HP.
Qed.

Lemma direction_trace tr s : reachable tr s -> T (view tr).
Proof.
  intros Hr%direction_reachable. unfold direction_inv in Hr.
  destruct (sv_conns (shared s) !! k); [by destruct Hr|]. by destruct Hr as [-> _].
Qed.
End Direction.

(** *** From the connection to the queue *)

Definition up_view (k : K) (tr : list event) : list bytes * list bytes * list (bytes * bytes) :=
  (announced k tr, read_by k tr, accepted_by k tr).

Definition up_role (k : K) (t : pc) : nat :=
  match t with
  | SV_preamble k' | SR_read k' _ | SR_queue k' _ _ => if decide (k' = k) then 1 else 0
  | _ => 0
  end.

(** The packets accepted are among those read, in order and under the identifier. *)
Definition tagged (id : bytes) (ps : list bytes) : list (bytes * bytes) := (fun p => (p, id)) <$> ps.

Definition up_at (v : list bytes * list bytes * list (bytes * bytes)) (t : pc) : Prop :=
  match t with
  | SV_preamble _ => v = ([], [], [])
  | SR_read _ id => v.1.1 = [id] /\ v.2 `sublist_of` tagged id v.1.2
  | SR_queue _ id (QI_start p a) | SR_queue _ id (QI_send p a) =>
      a = id /\ v.1.1 = [id] /\ exists ps, v.1.2 = ps ++ [p] /\ v.2 `sublist_of` tagged id ps
  | _ => False
  end.

Definition up_done (v : list bytes * list bytes * list (bytes * bytes)) : Prop :=
  v = ([], [], []) \/ exists id, v.1.1 = [id] /\ v.2 `sublist_of` tagged id v.1.2.

Lemma up_view_app k tr evs :
  up_view k (tr ++ evs) =
  (announced k tr ++ announced k evs, read_by k tr ++ read_by k evs, accepted_by k tr ++ accepted_by k evs).
Proof. unfold up_view, announced, read_by, accepted_by. by rewrite !omap_app. Qed.

Lemma tagged_app id l1 l2 : tagged id (l1 ++ l2) = tagged id l1 ++ tagged id l2.
Proof. apply fmap_app. Qed.

Lemma up_other k x s t s' t' new evs :
  pc_wf t -> sv_step x s t = Some (s', t', new, evs) -> up_role k t = 0 ->
  (t = SV_new k \/ up_role k t' = 0) /\ total (up_role k) new = 0 /\ forall tr, up_view k (tr ++ evs) = up_view k tr.
Proof.
  intros Hwf E Ht. split_and!.
  - destruct t; cbn in E; try (apply on_queue_inv in E as (-> & q & u' & l & E & -> & -> & ->));
      cbn in Ht; repeat first [case_decide|case_match]; simplify_eq/=; repeat case_decide; subst; first [by left|by right].
  - destruct t; cbn in E; try (apply on_queue_inv in E as (-> & _)); cbn in Ht;
      repeat first [case_decide|case_match]; simplify_eq/=; try done; unfold total; cbn; repeat case_decide; done.
  - intros tr. unfold up_view, announced, read_by, accepted_by.
    rewrite !(omap_silent _ _ _ _ _ _ _ _ tr Hwf E); [done|..];
      intros e He; destruct t, e as [| | | |[] []]; try (exfalso; exact He); cbn in *; repeat case_match; simplify_eq/=; done.
Qed.

Lemma up_own k x s t s' t' new evs tr :
  pc_wf t -> sv_step x s t = Some (s', t', new, evs) -> up_role k t = 1 -> up_at (up_view k tr) t ->
  up_role k t' + total (up_role k) new <= 1 /\ up_done (up_view k (tr ++ evs)) /\
  forall u, u ∈ t' :: new -> up_role k u = 1 -> up_at (up_view k (tr ++ evs)) u.
Proof.
  intros _ E Ht Hat. rewrite up_view_app. unfold up_view, up_done in *.
  revert Hat. generalize (announced k tr), (read_by k tr), (accepted_by k tr). intros ids rd acc Hat.
  unfold announced, read_by, accepted_by.
  assert (Hone : forall u, up_role k u <= 1) by (intros []; cbn; repeat case_decide; lia).
  destruct t as [| k0 | | |k0 id|k0 id u| | | | | | | |]; try done; cbn in Ht;
    destruct (decide (k0 = k)) as [->|]; try done; clear Ht; cbn in E, Hat.
  - injection Hat as -> -> ->. destruct (x_preamble x) as [[id|]|]; simplify_eq/=.
    + destruct (decide (k = k)) as [_|]; [|done]. split_and!; [lia|right; exists id; split; [done|apply sublist_nil_l]|].
      intros u [->|[->|[->|[]%elem_of_nil]%elem_of_cons]%elem_of_cons]%elem_of_cons Hu; done.
    + split_and!; [unfold total; cbn; lia|by left|].
      by intros u [->|[]%elem_of_nil]%elem_of_cons Hu.
  - destruct Hat as [Hid Hsub]. cbn in Hid, Hsub.
    destruct (is_closed s k); [|destruct (x_read x) as [[p| |]|]]; simplify_eq/=; rewrite ?app_nil_r.
    2:{ destruct (decide (k = k)) as [_|]; [|done]. split_and!; [lia| |].
      - right. exists id. split; [done|]. cbn. rewrite tagged_app. by apply sublist_inserts_r.
      - intros u [->|[]%elem_of_nil]%elem_of_cons _. cbn. eauto. }
    all: split_and!; [unfold total; cbn; lia|by right; exists id|by intros u [->|[]%elem_of_nil]%elem_of_cons Hu].
  - apply on_queue_inv in E as (-> & q & u' & l & E & -> & -> & ->).
    destruct u as [p a|p a| | | | | | | | | | | | | | | | | |]; try done; destruct Hat as (-> & Hid & ps & Hps & Hsub);
      cbn in E, Hid, Hps, Hsub; repeat first [case_decide|case_match]; simplify_eq/=; rewrite ?app_nil_r, ?Hps, ?tagged_app.
    all: split_and!; [unfold total; cbn; repeat case_decide; lia| |intros u [->|[]%elem_of_nil]%elem_of_cons _; cbn].
    all: try by eauto.
    all: try destruct (decide (k = k)) as [_|]; try done.
    all: try match goal with |- _ \/ _ => right; eexists end; split; [done|]; cbn; rewrite ?fmap_app, ?tagged_app.
    all: first [apply sublist_inserts_r; exact Hsub|apply sublist_app; [exact Hsub|reflexivity]].
Qed.

(** *** From the queue to the connection *)

Definition down_view (k : K) (tr : list event) : list (nat * bytes) * list bytes := (taken_by k tr, wrote_by k tr).

Definition down_role (k : K) (t : pc) : nat :=
  match t with
  | SV_preamble k' | SW_start k' _ | SW_take k' _ _ | SW_write k' _ _ _ => if decide (k' = k) then 1 else 0
  | _ => 0
  end.

(** The packets taken, all from one queue, are those written and perhaps one more. *)
Definition down_at (v : list (nat * bytes) * list bytes) (t : pc) : Prop :=
  match t with
  | SV_preamble _ | SW_start _ _ => v = ([], [])
  | SW_take _ _ ch => v.1 = pair ch <$> v.2
  | SW_write _ _ ch p => v.1 = pair ch <$> (v.2 ++ [p])
  | _ => False
  end.

Definition down_done (v : list (nat * bytes) * list bytes) : Prop :=
  exists ch lost, length lost <= 1 /\ v.1 = pair ch <$> (v.2 ++ lost).

Lemma down_other k x s t s' t' new evs :
  pc_wf t -> sv_step x s t = Some (s', t', new, evs) -> down_role k t = 0 ->
  (t = SV_new k \/ down_role k t' = 0) /\ total (down_role k) new = 0 /\
  forall tr, down_view k (tr ++ evs) = down_view k tr.
Proof.
  intros Hwf E Ht. split_and!.
  - destruct t; cbn in E; try (apply on_queue_inv in E as (-> & q & u' & l & E & -> & -> & ->));
      cbn in Ht; repeat first [case_decide|case_match]; simplify_eq/=; repeat case_decide; subst; first [by left|by right].
  - destruct t; cbn in E; try (apply on_queue_inv in E as (-> & _)); cbn in Ht;
      repeat first [case_decide|case_match]; simplify_eq/=; try done; unfold total; cbn; repeat case_decide; done.
  - intros tr. unfold down_view, taken_by, wrote_by.
    rewrite !(omap_silent _ _ _ _ _ _ _ _ tr Hwf E); [done|..];
      intros e He; destruct t, e as [| | | |[] []]; try (exfalso; exact He); cbn in *; repeat case_match; simplify_eq/=; done.
Qed.

Lemma down_own k x s t s' t' new evs tr :
  pc_wf t -> sv_step x s t = Some (s', t', new, evs) -> down_role k t = 1 -> down_at (down_view k tr) t ->
  down_role k t' + total (down_role k) new <= 1 /\ down_done (down_view k (tr ++ evs)) /\
  forall u, u ∈ t' :: new -> down_role k u = 1 -> down_at (down_view k (tr ++ evs)) u.
Proof.
  intros _ E Ht Hat.
  assert (Hv : down_view k (tr ++ evs) = (taken_by k tr ++ taken_by k evs, wrote_by k tr ++ wrote_by k evs)).
  { unfold down_view, taken_by, wrote_by. by rewrite !omap_app. }
  rewrite Hv. unfold down_view, down_done in *. clear Hv.
  revert Hat. generalize (taken_by k tr), (wrote_by k tr). intros tk wr Hat. unfold taken_by, wrote_by.
  destruct t as [|k0| | | | |k0 id|k0 id ch|k0 id ch p| | | | |]; try done; cbn in Ht;
    destruct (decide (k0 = k)) as [->|]; try done; clear Ht; cbn in E, Hat;
    try (apply on_queue_inv in E as (-> & q & u' & l & E & -> & -> & ->); cbn in E);
    repeat first [case_decide|case_match]; simplify_eq/=; rewrite ?app_nil_r; repeat case_decide; try done.
  all: split_and!; [unfold total; cbn; repeat case_decide; lia| |].
  all: try (intros u Hu; repeat (apply elem_of_cons in Hu as [->|Hu]); try done; try by apply elem_of_nil in Hu).
  all: cbn; rewrite ?fmap_app; try done.
  all: try (exists ch, []; rewrite app_nil_r; split; [cbn; lia|by rewrite ?fmap_app]).
  all: try (exists ch; eexists [_]; split; [cbn; lia|by rewrite fmap_app]).
  all: exists 0, []; split; [cbn; lia|done].
Qed.

(** *** Whose queue

    [own] names the client of every queue: WriteTo puts packets in the queue of its
    address, and the writing goroutine takes from the queue of the identifier of its
    connection. *)
Definition own_pc (own : gmap nat bytes) (tr : list event) (t : pc) : Prop :=
  match t with
  | SW_start k id => Announced k id ∈ tr
  | SW_take k id ch | SW_write k id ch _ => Announced k id ∈ tr /\ own !! ch = Some id
  | QW a (WT_send _ ch) => own !! ch = Some a
  | _ => True
  end.

Definition own_event (own : gmap nat bytes) (tr : list event) (e : event) : Prop :=
  match e with
  | Queue o (Queued ch _) => exists a, o = Write a /\ own !! ch = Some a
  | Queue o (Taken ch _) => exists k id, o = Handler k /\ Announced k id ∈ tr /\ own !! ch = Some id
  | Queue o (Accepted _) => exists k, o = Handler k
  | _ => True
  end.

Definition own_inv (own : gmap nat bytes) (tr : list event) (s : system Server pc) : Prop :=
  own_ok own (sv_pconn (shared s)) /\ Forall (own_pc own tr) (pool s) /\ Forall (own_event own tr) tr.

Lemma own_pc_mono own own' tr evs t : own ⊆ own' -> own_pc own tr t -> own_pc own' (tr ++ evs) t.
Proof.
  intros Hsub. destruct t as [| | | | | |k id|k id ch|k id ch p| |a []| | |]; cbn; try done.
  - intros. apply elem_of_app. by left.
  - intros [? ?]. split; [apply elem_of_app; by left|by eapply lookup_weaken].
  - intros [? ?]. split; [apply elem_of_app; by left|by eapply lookup_weaken].
  - intros. by eapply lookup_weaken.
Qed.

Lemma own_event_mono own own' tr evs e : own ⊆ own' -> own_event own tr e -> own_event own' (tr ++ evs) e.
Proof.
  intros Hsub. destruct e as [| | | |o []]; cbn; try done.
  - intros (a & ? & ?). exists a. split; [done|by eapply lookup_weaken].
  - intros (k & id & ? & ? & ?). exists k, id. split_and!; [done|apply elem_of_app; by left|by eapply lookup_weaken].
Qed.

Lemma own_step own tr x s t s' t' new evs :
  conn_inv (sv_pconn s) -> own_ok own (sv_pconn s) -> pc_wf t -> own_pc own tr t ->
  sv_step x s t = Some (s', t', new, evs) ->
  exists own', own ⊆ own' /\ own_ok own' (sv_pconn s') /\ Forall (own_pc own' (tr ++ evs)) (t' :: new) /\
    Forall (own_event own' (tr ++ evs)) evs.
Proof.
  intros Hc Ho Hwf Ht E. destruct t as [| | | | |k0 id u|k0 id|k0 id ch|k0 id ch p| |a u|u| |]; cbn in E.
  all: try (apply on_queue_inv in E as (-> & q & u' & l & E & -> & -> & ->);
    destruct (thread_step_own own _ _ _ _ _ _ Hc Ho E) as (own' & Hsub & Ho' & Hu); exists own'; split_and!;
    [done|done|apply Forall_singleton|]).
  all: try (destruct u; try done; cbn in E, Hwf, Ht, Hu; unfold load_err in E).
  all: cbn in E.
  all: try (destruct Hu as (ch1 & -> & Hch)).
  all: repeat first [case_decide|case_match]; simplify_eq/=.
  all: try (exists own; split_and!; [done|done|..]).
  all: repeat constructor; cbn; eauto using lookup_weaken.
  all: try (destruct Ht as [Hin Hown]).
  all: rewrite ?elem_of_app; first [by left|right; by left|by eapply lookup_weaken|done|idtac].
  exists k0, id. split_and!; [done|apply elem_of_app; by left|by eapply lookup_weaken].
Qed.

Lemma handlers_conn tr s : reachable tr s -> conn_inv (sv_pconn (shared s)).
Proof. intros (_ & qs & Hq & <- & _)%handlers_queue. by apply reachable_inv in Hq as [? _ _]. Qed.

Lemma own_reachable tr s : reachable tr s -> exists own, own_inv own tr s.
Proof.
  induction 1 as [|tr s evs s' Hr (own & Ho & Hp & He) Hm].
  { exists ∅. split; [|split; constructor]. split; cbn; [|by intros ??[]%lookup_empty_Some].
    intros a r Hv. unfold view in Hv. by rewrite lookup_omap, lookup_empty in Hv. }
  destruct Hm as [s t Ht|s i t x st' t' new evs Ei Ea].
  - exists own. rewrite app_nil_r. split_and!; [done| |done]. apply Forall_app. split; [done|]. apply Forall_singleton.
    by destruct t as [| | | | | | | | | |? []| | |].
  - destruct (own_step own tr x (shared s) t st' t' new evs) as (own' & Hsub & Ho' & Hp' & He');
      [by eapply handlers_conn|done|eapply Forall_lookup_1; [by eapply pc_wf_reachable|done]|by eapply Forall_lookup_1|done|].
    apply list.Forall_cons in Hp' as [Ht' Hn]. exists own'. split_and!; [done| |]; cbn; apply Forall_app; (split; [|done]).
    + apply list.Forall_insert; [|done]. eapply list.Forall_impl; [exact Hp|]. intros. by eapply own_pc_mono.
    + eapply list.Forall_impl; [exact He|]. intros. by eapply own_event_mono.
Qed.

Lemma up_role_one k t : up_role k t <= 1.
Proof. destruct t; cbn; repeat case_decide; lia. Qed.

Lemma up_role_new k : up_role k (SV_preamble k) = 1.
Proof. cbn. by rewrite decide_True. Qed.

Lemma up_reachable k tr s : reachable tr s -> up_done (up_view k tr).
Proof.
  apply (direction_trace k (up_role k) (up_view k) up_at up_done);
    [apply up_role_one|by intros []|apply up_role_new|by left|done|apply up_other|apply up_own].
Qed.

Lemma up_thread k tr s i t :
  reachable tr s -> pool s !! i = Some t -> up_role k t = 1 -> up_at (up_view k tr) t.
Proof.
  apply (direction_thread k (up_role k) (up_view k) up_at up_done);
    [apply up_role_one|by intros []|apply up_role_new|by left|done|apply up_other|apply up_own].
Qed.

Lemma down_reachable k tr s : reachable tr s -> down_done (down_view k tr).
Proof.
  apply (direction_trace k (down_role k) (down_view k) down_at down_done).
  - intros []; cbn; repeat case_decide; lia.
  - by intros [].
  - cbn. by rewrite decide_True.
  - exists 0, []. split; [cbn; lia|done].
  - done.
  - apply down_other.
  - apply down_own.
Qed.

Lemma announced_in k id tr : Announced k id ∈ tr -> id ∈ announced k tr.
Proof. intros H0. apply list_elem_of_omap. exists (Announced k id). by rewrite decide_True. Qed.

Lemma announced_unique k id tr s : reachable tr s -> Announced k id ∈ tr -> announced k tr = [id].
Proof.
  intros Hr Hin%announced_in. destruct (up_reachable k _ _ Hr) as [Hv|(id' & Hv & _)].
  - injection Hv as Hv _ _. rewrite Hv in Hin. by apply elem_of_nil in Hin.
  - cbn in Hv. rewrite Hv in Hin |- *. by apply list_elem_of_singleton in Hin as ->.
Qed.

(** *** The errors of a connection

    A connection can still produce as many errors as it has goroutines; with those in
    [errCh] they are at most two. *)
Definition err_weight (k : K) (t : pc) : nat :=
  match t with
  | SV_preamble k' => if decide (k' = k) then 2 else 0
  | SR_read k' _ | SR_queue k' _ _ | SW_start k' _ | SW_take k' _ _ | SW_write k' _ _ _ | SE_send k' =>
      if decide (k' = k) then 1 else 0
  | _ => 0
  end.

Definition err_used (s : Server) (k : K) : nat :=
  match sv_conns s !! k with Some v => ws_errs v | None => 2 end.

Lemma err_used_set s k' v k : err_used (set_conn s k' v) k = if decide (k' = k) then ws_errs v else err_used s k.
Proof. unfold err_used. cbn. rewrite lookup_insert. by case_decide. Qed.

Lemma err_step k x s t s' t' new evs :
  sv_step x s t = Some (s', t', new, evs) ->
  err_weight k t' + total (err_weight k) new + err_used s' k <= err_weight k t + err_used s k.
Proof.
  intros E. assert (Hq : forall q, err_used (set_pconn s q) k = err_used s k) by done.
  assert (Hk : forall k', k' = k -> err_used s k = match sv_conns s !! k' with Some v => ws_errs v | None => 2 end) by (by intros ? ->).
  destruct t; cbn [sv_step serveHTTP_step reading_step writing_step send_step] in E;
    try (apply on_queue_inv in E as (-> & q & u' & l & E & -> & -> & ->)); rewrite ?Hq; unfold total; cbn [err_weight].
  all: repeat case_match; simplify_eq; cbn [err_weight sum_list_with]; rewrite ?err_used_set; cbn [ws_errs].
  all: repeat (case_decide; subst); rewrite ?(Hk _ eq_refl); simplify_option_eq; try lia.
Qed.

Lemma err_reachable k tr s : reachable tr s -> total (err_weight k) (pool s) + err_used (shared s) k <= 2.
Proof.
  apply (moves_ind_inv (fun s => total (err_weight k) (pool s) + err_used (shared s) k <= 2)).
  - unfold err_used. cbn. rewrite lookup_empty. lia.
  - intros s1 evs s2 IH Hm. destruct Hm as [s1 t Ht|s1 i t x st' t' new evs Ei Ea]; cbn; rewrite total_app.
    + destruct t; try done; unfold total at 2; cbn; lia.
    + apply (err_step k) in Ea. pose proof (total_insert (err_weight k) (pool s1) i t t' Ei). lia.
Qed.

Lemma send_ready k tr s i x :
  reachable tr s -> pool s !! i = Some (SE_send k) ->
  exists n b, sv_conns (shared s) !! k = Some (Ws n b) /\
    sv_step x (shared s) (SE_send k) = Some (set_conn (shared s) k (Ws (S n) b), Finished, [], []).
Proof.
  intros Hr%(err_reachable k) Ei. apply (total_one (err_weight k)) in Ei. cbn in *.
  rewrite decide_True in Ei by done. unfold err_used in Hr.
  destruct (sv_conns (shared s) !! k) as [[n b]|]; [|lia]. cbn in Hr. exists n, b.
  by rewrite decide_True by lia.
Qed.

(** Goroutine [i] ends within [n] turns of its own. *)
Definition ends (x : choice) (i n : nat) (s : system Server pc) : Prop :=
  exists m evs s', m <= n /\ play (replicate m (Turn i x)) s = Some (evs, s') /\ pool s' !! i = Some Finished.

Lemma ends_step x i n tr s t st' t' evs :
  reachable tr s -> pool s !! i = Some t -> sv_step x (shared s) t = Some (st', t', [], evs) ->
  (forall tr' s', reachable tr' s' -> shared s' = st' -> pool s' !! i = Some t' -> ends x i n s') ->
  ends x i (S n) s.
Proof.
  intros Hr Ei E Hn. destruct (Hn (tr ++ evs) (System st' (<[i := t']> (pool s)))) as (m & evs' & s' & Hm & Hp & Hf).
  - eapply moves_more; [exact Hr|by eapply move_self].
  - done.
  - cbn. apply list_lookup_insert_eq. by eapply lookup_lt_Some.
  - exists (S m), (evs ++ evs'), s'. split_and!; [lia|by eapply play_self|done].
Qed.

Lemma send_ends k x i tr s : reachable tr s -> pool s !! i = Some (SE_send k) -> ends x i 1 s.
Proof.
  intros Hr Ei. destruct (send_ready k _ _ _ x Hr Ei) as (n & b & _ & Es). eapply ends_step; [done..|].
  intros tr' s' _ _ Ef. exists 0, [], s'. by split_and!; [lia|..].
Qed.

Lemma read_ends k id x i tr s :
  reachable tr s -> pool s !! i = Some (SR_read k id) -> is_closed (shared s) k = true -> ends x i 2 s.
Proof.
  intros Hr Ei Hc. eapply (ends_step x i 1 tr s _ (shared s) (SE_send k) []); [done|done|cbn; by rewrite Hc|].
  intros tr' s' Hr' _ Ei'. by eapply send_ends.
Qed.

Lemma queue_ends k id p x i tr s :
  reachable tr s -> pool s !! i = Some (SR_queue k id (QI_send p id)) -> is_closed (shared s) k = true -> ends x i 3 s.
Proof.
  intros Hr Ei Hc.
  assert (exists q evs, sv_step x (shared s) (SR_queue k id (QI_send p id)) =
    Some (set_pconn (shared s) q, SR_read k id, [], evs)) as (q & evs & E).
  { cbn. unfold on_queue. cbn. case_decide; by eexists _, _. }
  eapply ends_step; [done|done|exact E|]. intros tr' s' Hr' Hs' Ei'. eapply read_ends; [done..|]. by rewrite Hs'.
Qed.

Lemma reader_ends k x i t tr s :
  reachable tr s -> pool s !! i = Some t -> up_role k t = 1 -> t <> SV_preamble k -> is_closed (shared s) k = true ->
  ends x i 4 s.
Proof.
  intros Hr Ei Ht Hne Hc. assert (Hwf : pc_wf t) by (eapply Forall_lookup_1; [by eapply pc_wf_reachable|done]).
  assert (Hle : forall n, n <= 4 -> ends x i n s -> ends x i 4 s).
  { intros n Hn (m & evs & s' & ? & ?). exists m, evs, s'. split; [lia|done]. }
  destruct t as [|k0| | |k0 id|k0 id u| | | | | | | |]; try done; cbn in Ht;
    destruct (decide (k0 = k)) as [->|]; try done.
  - apply (Hle 2); [lia|]. by eapply read_ends.
  - destruct u as [p a|p a| | | | | | | | | | | | | | | | | |]; try done; cbn in Hwf; subst a; [|apply (Hle 3); [lia|by eapply queue_ends]].
    destruct (qc_closed (sv_pconn (shared s))) eqn:Eq.
    + apply (Hle 3); [lia|].
      eapply (ends_step x i 2 tr s _ (set_pconn (shared s) (sv_pconn (shared s))) (SR_read k id) []); [done|done| |].
      * cbn. unfold on_queue. cbn. by rewrite Eq.
      * intros tr' s' Hr' Hs' Ei'. eapply read_ends; [done..|]. by rewrite Hs'.
    + eapply (ends_step x i 3 tr s _ (set_pconn (shared s) (sv_pconn (shared s))) (SR_queue k id (QI_send p id)) []); [done|done| |].
      * cbn. unfold on_queue. cbn. by rewrite Eq.
      * intros tr' s' Hr' Hs' Ei'. eapply queue_ends; [done..|]. by rewrite Hs'.
Qed.

(** *** Writing goroutines that are left behind *)

(** Goroutine [i] waits for packets of a queue that no client has any more. *)
Definition left_behind (i : nat) (k : K) (id : bytes) (ch : nat) (s : system Server pc) : Prop :=
  pool s !! i = Some (SW_take k id ch) /\ orphan (sv_pconn (shared s)) ch /\
  forall a p, QW a (WT_send p ch) ∉ pool s.

Lemma orphan_step x s t s' t' new evs ch :
  conn_inv (sv_pconn s) -> pc_wf t -> orphan (sv_pconn s) ch -> (forall a p, t <> QW a (WT_send p ch)) ->
  sv_step x s t = Some (s', t', new, evs) ->
  orphan (sv_pconn s') ch /\ forall a p, QW a (WT_send p ch) ∉ t' :: new.
Proof.
  intros Hc Hwf Ho Ht E. destruct (sv_step_calls _ _ _ _ _ _ _ E) as (Hn & _ & Hcase).
  assert (Hnew : forall a p, QW a (WT_send p ch) ∉ new).
  { intros a p Hin. assert (Hin' : WT_send p ch ∈ omap in_call new) by (apply list_elem_of_omap; by eexists).
    rewrite Hn in Hin'. by apply elem_of_nil in Hin'. }
  enough (orphan (sv_pconn s') ch /\ forall a p, t' <> QW a (WT_send p ch)) as [? Ht'].
  { split; [done|]. intros a p [?|?]%elem_of_cons; [by eapply Ht'|by eapply Hnew]. }
  destruct Hcase as [(-> & _ & _ & _ & Hi)|(u & u' & Hi & Hs & Hi' & _)].
  - split; [done|]. intros a p ->. destruct Hi as [Hi|(u & [= <-] & [])]; done.
  - assert (Hsend : forall p, u <> WT_send p ch).
    { intros p ->. destruct Hi as [Hi|[_ []]]. destruct t; try done; cbn in Hi; simplify_eq; [done|by eapply Ht|done]. }
    destruct (thread_step_orphan _ _ _ _ _ _ ch Hc Ho Hsend Hs) as [Ho' Hu'].
    split; [done|]. intros a p ->. destruct Hi' as [[= <-]|Hi']; [by eapply Hu'|done].
Qed.

Lemma left_behind_moves tr s tr' s' i k id ch :
  reachable tr s -> left_behind i k id ch s -> moves s tr' s' -> left_behind i k id ch s'.
Proof.
  intros Hr Hl Hm. induction Hm as [|tr' s1 evs s2 Hm IH Hs]; [done|].
  assert (Hr1 : reachable (tr ++ tr') s1) by (by eapply moves_trans). clear Hm Hl.
  destruct IH as (Ei & Ho & Hn). destruct Hs as [s1 t Ht|s1 j t x st' t' new evs Ej Ea]; (split; [|split]); cbn.
  - by apply lookup_app_l_Some.
  - done.
  - intros a p [?|Hin]%elem_of_app; [by eapply Hn|]. apply list_elem_of_singleton in Hin as <-. done.
  - assert (j <> i).
    { intros ->. rewrite Ei in Ej. injection Ej as <-. cbn in Ea. unfold on_queue in Ea. cbn in Ea.
      destruct Ho as [Hq _]. by rewrite Hq in Ea. }
    apply lookup_app_l_Some. by rewrite list_lookup_insert_ne.
  - eapply orphan_step, Ea; [by eapply handlers_conn|eapply Forall_lookup_1; [by eapply pc_wf_reachable|done]|done|].
    intros a p ->. by eapply Hn, list_elem_of_lookup_2.
  - intros a p Hin. destruct (orphan_step x (shared s1) t st' t' new evs ch) as [_ Hno];
      [by eapply handlers_conn|eapply Forall_lookup_1; [by eapply pc_wf_reachable|done]|done| |done|].
    { intros a' p' ->. by eapply Hn, list_elem_of_lookup_2. }
    apply list_elem_of_lookup in Hin as [l [[_ Hu]|[[_ Hl]|[_ Hl]]]%pool_lookup_move].
    + apply (Hno a p). rewrite Hu. left.
    + by eapply Hn, list_elem_of_lookup_2.
    + apply (Hno a p). by right.
Qed.

(** ** Properties *)


(** C10. Over all interleavings: the packets a connection takes come from one queue; the
    connection writes them in the order it takes them, all but at most one, which it loses
    when it fails; and each of them was put into that queue by a WriteTo to the identifier
    the connection announced, never to another client's. *)
Theorem handlers_down tr s k :
  reachable tr s ->
  exists ch lost, length lost <= 1 /\ taken_by k tr = pair ch <$> (wrote_by k tr ++ lost) /\
    forall p, p ∈ wrote_by k tr ++ lost ->
      exists id, announced k tr = [id] /\ Queue (Write id) (Queued ch p) ∈ tr.
Proof.
  intros Hr. destruct (down_reachable k _ _ Hr) as (ch & lost & Hlen & Htk). exists ch, lost.
  split; [done|]. split; [done|]. intros p Hp.
  destruct (own_reachable _ _ Hr) as (own & _ & _ & He). rewrite list.Forall_forall in He.
  assert (Hin : Queue (Handler k) (Taken ch p) ∈ tr).
  { assert (Hin : (ch, p) ∈ taken_by k tr) by (cbn in Htk; rewrite Htk; by apply list_elem_of_fmap_2).
    apply list_elem_of_omap in Hin as (e & Hin & Ee). destruct e as [| | | |[] []]; try done.
    case_decide; by simplify_eq. }
  destruct (He _ Hin) as (k' & id & [= <-] & Hann & Hown). exists id. split; [by eapply announced_unique|].
  destruct (handlers_queue _ _ Hr) as (_ & qs & Hq & _). destruct (steps_fifo _ _ Hq) as [_ Hfifo].
  assert (Hqd : p ∈ queued ch (omap queue_event tr)).
  { rewrite Hfifo. apply elem_of_app. left. apply list_elem_of_omap. exists (Taken ch p). rewrite decide_True by done.
    split; [|done]. apply list_elem_of_omap. by exists (Queue (Handler k) (Taken ch p)). }
  apply list_elem_of_omap in Hqd as (e & Hqd & Ee). destruct e as [| |ch' p'|]; try done. case_decide; simplify_eq.
  apply list_elem_of_omap in Hqd as (e & Hqd & Ee). destruct e as [| | | |o e]; try done. injection Ee as ->.
  destruct (He _ Hqd) as (a & -> & Ha). congruence.
Qed.

(** C11. When either goroutine of a connection has failed, the handler closes the connection and
    returns by its own steps and that goroutine's, whatever the rest of the server and the peer do: sending the
    error never blocks.  Once the connection is closed, its reading goroutine, wherever it
    is, ends by its own steps too. *)
Theorem handler_returns tr s k x :
  reachable tr s ->
  (forall i j, pool s !! i = Some (SE_send k) -> pool s !! j = Some (SV_wait k) ->
     exists s', play [Turn i x; Turn j x; Turn j x] s = Some ([], s') /\
       pool s' !! i = Some Finished /\ pool s' !! j = Some Finished /\ is_closed (shared s') k = true) /\
  (forall i t, pool s !! i = Some t -> up_role k t = 1 -> t <> SV_preamble k -> is_closed (shared s) k = true ->
     ends x i 4 s).
Proof.
  intros Hr. split.
  - intros i j Ei Ej. destruct (send_ready k _ _ _ x Hr Ei) as (n & b & Ek & Es).
    assert (i <> j) by (intros ->; congruence). eexists. split.
    + eapply (play_self _ s i _ x _ _ []); [done|exact Es|].
      eapply (play_self _ _ j _ x _ _ []); [cbn; by rewrite list_lookup_insert_ne|cbn; by rewrite lookup_insert_eq|].
      eapply (play_self _ _ j _ x _ _ []);
        [cbn; apply list_lookup_insert_eq; rewrite length_insert; by eapply lookup_lt_Some|cbn; by rewrite lookup_insert_eq|done].
    + cbn. unfold is_closed. cbn. rewrite lookup_insert_eq. split_and!; [| |done].
      * rewrite !(list_lookup_insert_ne _ j i) by done. apply list_lookup_insert_eq. by eapply lookup_lt_Some.
      * rewrite list_lookup_insert_eq; [done|]. rewrite !length_insert. by eapply lookup_lt_Some.
  - intros i t. by eapply reader_ends.
Qed.
End Handlers.

(** ** Examples *)

Definition sv_quiet : choice := Choice (QueueConn.Choice 0 false) None None None.
Definition sv_at (now : Z) : choice := Choice (QueueConn.Choice now false) None None None.
Definition sv_hello (id : bytes) : choice := Choice (QueueConn.Choice 0 false) (Some (Some id)) None None.
Definition sv_reads (r : res bytes) : choice := Choice (QueueConn.Choice 0 false) None (Some r) None.
Definition sv_writes (e : option error) : choice := Choice (QueueConn.Choice 0 false) None None (Some e).

Abbreviation hsystem := (system (Server (K := nat)) (pc (K := nat))).
Abbreviation hturn := (turn (Pc := pc (K := nat)) (Ch := choice)).

(** A connection of a client that sends a packet, is answered and goes away: the handler
    has returned, the writing goroutine (2) has not. *)
Definition sv_visit : list hturn :=
  [Enter (SV_new 1); Turn 0 sv_quiet; Turn 0 (sv_hello (s2b "12345678")); Turn 2 sv_quiet;
   Turn 1 (sv_reads (Ret (s2b "up"))); Turn 1 sv_quiet; Turn 1 sv_quiet;
   Enter (QW (s2b "12345678") (WT_start (s2b "down") (s2b "12345678"))); Turn 3 sv_quiet; Turn 3 sv_quiet; Turn 3 sv_quiet;
   Turn 2 sv_quiet; Turn 2 (sv_writes None);
   Turn 1 (sv_reads (Err EOF))].
Definition sv_gone : list hturn := sv_visit ++ [Turn 1 sv_quiet; Turn 0 sv_quiet; Turn 0 sv_quiet].

(** Its entry expires. *)
Definition sv_expired : list hturn := sv_gone ++ [Enter (QP (EX_loop 60)); Turn 4 (sv_at 100)].

(** Or it comes back before that, and is answered again. *)
Definition sv_back : list hturn :=
  sv_gone ++
  [Enter (SV_new 2); Turn 4 sv_quiet; Turn 4 (sv_hello (s2b "12345678")); Turn 6 sv_quiet;
   Enter (QW (s2b "12345678") (WT_start (s2b "lost") (s2b "12345678"))); Turn 7 sv_quiet; Turn 7 sv_quiet; Turn 7 sv_quiet;
   Turn 2 sv_quiet; Turn 2 sv_quiet].

Definition sv_run (l : list hturn) : list (event (K := nat)) * hsystem := default ([], NewServer) (play l NewServer).

Lemma sv_run_reachable l : is_Some (play l NewServer) -> reachable (sv_run l).1 (sv_run l).2.
Proof. intros [[tr s] E]. unfold sv_run. rewrite E. by eapply play_moves. Qed.

#[local] Opaque sv_run.

Lemma sv_visit_reachable : reachable (sv_run sv_visit).1 (sv_run sv_visit).2.
Proof. apply sv_run_reachable. vm_compute. by eexists. Qed.
Lemma sv_back_reachable : reachable (sv_run sv_back).1 (sv_run sv_back).2.
Proof. apply sv_run_reachable. vm_compute. by eexists. Qed.
Lemma sv_expired_reachable : reachable (sv_run sv_expired).1 (sv_run sv_expired).2.
Proof. apply sv_run_reachable. vm_compute. by eexists. Qed.

Ltac not_in H := repeat (apply elem_of_cons in H as [H|H]; [discriminate H|]); by apply elem_of_nil in H.

Lemma sv_expired_pool :
  pool (sv_run sv_expired).2 =
  [Finished; Finished; SW_take 1 (s2b "12345678") 0; QW (s2b "12345678") (Done_write (Ret 4)); QP (EX_loop 60)].
Proof. by vm_compute. Qed.

Lemma sv_expired_left : left_behind 2 1 (s2b "12345678") 0 (sv_run sv_expired).2.
Proof.
  split; [by vm_compute|]. split; [split; [by vm_compute|]|].
  - intros a r. assert (Hv : view (qc_clients (sv_pconn (shared (sv_run sv_expired).2))) = ∅) by (by vm_compute).
    rewrite Hv, lookup_empty. done.
  - intros a p Hin. rewrite sv_expired_pool in Hin. not_in Hin.
Qed.


Lemma handlers_down_witness :
  wrote_by 1 (sv_run sv_visit).1 = [s2b "down"] /\
  exists ch lost, length lost <= 1 /\
    taken_by 1 (sv_run sv_visit).1 = pair ch <$> (wrote_by 1 (sv_run sv_visit).1 ++ lost).
Proof.
  split; [by vm_compute|].
  destruct (handlers_down _ _ 1 sv_visit_reachable) as (ch & lost & Hl & Ht & _).
  exact (ex_intro _ ch (ex_intro _ lost (conj Hl Ht))).
Defined.

Lemma handler_returns_witness :
  exists s', play [Turn 1 sv_quiet; Turn 0 sv_quiet; Turn 0 sv_quiet] (sv_run sv_visit).2 = Some ([], s') /\
    is_closed (shared s') 1 = true.
Proof.
  destruct (proj1 (handler_returns _ _ 1 sv_quiet sv_visit_reachable) 1 0) as (s' & E & _ & _ & Hc);
    [by vm_compute|by vm_compute|exact (ex_intro _ s' (conj E Hc))].
Defined.

(** C12. The writing goroutine of a connection outlives it.  Once the client's entry has
    expired, a goroutine that waits for its queue waits for ever: whatever happens
    later, it is where it was; and such a goroutine can be left by a handler that has returned.
    If the client comes back before that, the goroutine can take a packet for the
    new connection and lose it on the closed one, while the new connection, open and waiting, writes
    nothing. *)
Theorem writers_left_behind :
  (forall tr (s : hsystem) i k id ch, reachable tr s -> left_behind i k id ch s ->
     forall tr' s', moves s tr' s' -> pool s' !! i = Some (SW_take k id ch)) /\
  (exists tr (s : hsystem) i k id ch, reachable tr s /\ is_closed (shared s) k = true /\
     SV_wait k ∉ pool s /\ left_behind i k id ch s) /\
  (exists tr (s : hsystem) k1 k2 id p, reachable tr s /\
     announced k1 tr = [id] /\ announced k2 tr = [id] /\ is_closed (shared s) k2 = false /\
     Queue (Write id) (Queued 0 p) ∈ tr /\ Failed k1 p ∈ tr /\ wrote_by k2 tr = [] /\
     SW_take k2 id 0 ∈ pool s /\ content (sv_pconn (shared s)) 0 = []).
Proof.
  split_and!.
  - intros tr s i k id ch Hr Hl tr' s' Hm. by destruct (left_behind_moves _ _ _ _ _ _ _ _ Hr Hl Hm).
  - exists (sv_run sv_expired).1, (sv_run sv_expired).2, 2, 1, (s2b "12345678"), 0.
    split_and!; [apply sv_expired_reachable|by vm_compute| |apply sv_expired_left].
    intros Hin. rewrite sv_expired_pool in Hin. not_in Hin.
  - exists (sv_run sv_back).1, (sv_run sv_back).2, 1, 2, (s2b "12345678"), (s2b "lost").
    split_and!; [apply sv_back_reachable|by vm_compute..| | |by vm_compute| |by vm_compute].
    + eapply (list_elem_of_lookup_2 _ 7). by vm_compute.
    + eapply (list_elem_of_lookup_2 _ 9). by vm_compute.
    + eapply (list_elem_of_lookup_2 _ 6). by vm_compute.
Qed.
