(* ===== verification/Redial.v ===== *)
(** * RedialPacketConn (snowflake/common/turbotunnel/redialpacketconn.go)

    The client's packet connection: a pair of bounded queues served by a sequence of
    transient connections.  [dialLoop] dials, starts the two goroutines of [exchange] and
    waits for either to fail, then dials again.  The goroutines and the callers of
    ReadFrom, WriteTo and Close are the program points of one [Machine]; what the transient connections and
    [dialContext] answer is a choice of the environment. *)
From S2P Require Import Prelude Threads QueueConn.

(** The buffer of [exchange]'s reading goroutine. *)
Definition readBufSize : nat := Z.to_nat 1500.

(** An unbuffered channel with one sender, which sends at most once and then closes it:
    a send is offered, then taken by a receiver. *)
Inductive errch := Idle | Offered | Taken | Closed.

#[export] Instance errch_eq_dec : EqDecision errch.
Proof. solve_decision. Defined.

(** The two goroutines of [exchange], and their channels [readErrCh] and [writeErrCh]. *)
Inductive side := Rd | Wr.

#[export] Instance side_eq_dec : EqDecision side.
Proof. solve_decision. Defined.

Record exchange := Exchange { x_read : errch; x_write : errch }.

Definition get_side (d : side) (x : exchange) : errch := match d with Rd => x_read x | Wr => x_write x end.
Definition put_side (d : side) (v : errch) (x : exchange) : exchange :=
  match d with Rd => Exchange v (x_write x) | Wr => Exchange (x_read x) v end.

Record RedialPacketConn := RedialConn {
  rc_recvQueue : list bytes;
  rc_sendQueue : list bytes;
  rc_closed : bool;
  rc_closeOnce : once;
  rc_err : option error;
  rc_exch : list exchange (* the calls of exchange, oldest first *) }.

Definition set_recv c q := RedialConn q (rc_sendQueue c) (rc_closed c) (rc_closeOnce c) (rc_err c) (rc_exch c).
Definition set_send c q := RedialConn (rc_recvQueue c) q (rc_closed c) (rc_closeOnce c) (rc_err c) (rc_exch c).
Definition set_closing c b o e := RedialConn (rc_recvQueue c) (rc_sendQueue c) b o e (rc_exch c).
Definition set_exch c l := RedialConn (rc_recvQueue c) (rc_sendQueue c) (rc_closed c) (rc_closeOnce c) (rc_err c) l.

(** The error channel of a side of the [i]-th exchange. *)
Definition chan (c : RedialPacketConn) (d : side) (i : nat) : errch :=
  default Closed (get_side d <$> rc_exch c !! i).
Definition set_chan c d i v := set_exch c (alter (put_side d v) i (rc_exch c)).

(** A receive is ready on an offer or on a closed channel; it takes the offer. *)
Definition ready (v : errch) : bool := match v with Offered | Closed => true | _ => false end.
Definition received (v : errch) : errch := match v with Offered => Taken | _ => v end.
Definition receive c d i := set_chan c d i (received (chan c d i)).

Inductive pc :=
  (* dialLoop; DL_wait i is the select at the end of exchange *)
  | DL_top | DL_dial | DL_wait (i : nat) | DL_closeconn (i : nat)
  (* the reading goroutine of exchange i *)
  | RD_top (i : nat) | RD_read (i : nat) | RD_push (i : nat) (p : bytes)
  (* the writing goroutine of exchange i *)
  | WR_top (i : nat) | WR_write (i : nat) (p : bytes)
  (* either of them: sending its error, and closing its channel on return *)
  | ER_send (d : side) (i : nat) | ER_sending (d : side) (i : nat) | ER_exit (d : side) (i : nat)
  (* ReadFrom(p) with len(p) = k, and WriteTo(p, addr) *)
  | RF_start (k : nat) | RF_wait (k : nat) | WT_start (p : bytes) | WT_send (p : bytes)
  (* closeWithError(err) *)
  | CL_start (e : option error) | CL_store (e : error) | CL_close
  (* finished *)
  | Finished | Done_read (r : res bytes) | Done_write (r : res nat) | Done_close (r : option error)
  | Panicked.

Inductive event :=
  | Dialed (i : nat) | DialFailed (e : error)
  | Arrived (i : nat) (p : bytes)   (* put into recvQueue *)
  | Delivered (p : bytes)           (* taken from it by ReadFrom *)
  | Queued (p : bytes)              (* put into sendQueue by WriteTo *)
  | Taking (i : nat) (p : bytes)    (* taken from it by the writer of exchange i *)
  | Sent (i : nat) (p : bytes)      (* written to the connection of exchange i *)
  | Lost (i : nat) (p : bytes).     (* that write failed *)

(** What the environment answers: which of the ready branches a [select] runs, the
    results of dialing, of reading and of writing ([None]: not yet). *)
Record choice := Choice {
  ch_branch : nat;
  ch_dial : option (option error);
  ch_read : option (res bytes);
  ch_write : option (option error) }.

(** The branch a [select] runs: the [n]-th ready one, the last if there are fewer. *)
Fixpoint pick {A} (n : nat) (l : list (bool * A)) : option A :=
  match l with
  | [] => None
  | (b, a) :: l' =>
      if b then match n with O => Some a | S n' => match pick n' l' with Some a' => Some a' | None => Some a end end
      else pick n l'
  end.

Abbreviation outcome := (RedialPacketConn * pc * list pc * list event)%type.

Definition load_err (c : RedialPacketConn) (k : error -> pc) : pc :=
  match rc_err c with Some e => k e | None => Panicked end.

Definition dialLoop_step (x : choice) (c : RedialPacketConn) (t : pc) : option outcome :=
  match t with
  | DL_top => Some (c, if rc_closed c then Finished else DL_dial, [], [])
  | DL_dial =>
      match ch_dial x with
      | None => None
      | Some (Some e) => Some (c, CL_start (Some e), [], [DialFailed e])
      | Some None =>
          let i := length (rc_exch c) in
          Some (set_exch c (rc_exch c ++ [Exchange Idle Idle]), DL_wait i, [RD_top i; WR_top i], [Dialed i])
      end
  | DL_wait i =>
      pick (ch_branch x)
        [(ready (chan c Rd i), (receive c Rd i, DL_closeconn i, [], []));
         (ready (chan c Wr i), (receive c Wr i, DL_closeconn i, [], []))]
  | DL_closeconn i => Some (c, DL_top, [], [])
  | _ => None
  end.

Definition reader_step (x : choice) (c : RedialPacketConn) (t : pc) : option outcome :=
  match t with
  | RD_top i =>
      match pick (ch_branch x)
        [(rc_closed c, (c, ER_exit Rd i, [], []));
         (ready (chan c Wr i), (receive c Wr i, ER_exit Rd i, [], []))] with
      | Some o => Some o
      | None => Some (c, RD_read i, [], [])
      end
  | RD_read i =>
      match ch_read x with
      | None => None
      | Some (Ret p) => Some (c, RD_push i (take readBufSize p), [], [])
      | Some _ => Some (c, ER_send Rd i, [], [])
      end
  | RD_push i p =>
      if decide (length (rc_recvQueue c) < queueSize)
      then Some (set_recv c (rc_recvQueue c ++ [p]), RD_top i, [], [Arrived i p])
      else Some (c, RD_top i, [], [])
  | _ => None
  end.

Definition writer_step (x : choice) (c : RedialPacketConn) (t : pc) : option outcome :=
  match t with
  | WR_top i =>
      pick (ch_branch x)
        [(rc_closed c, (c, ER_exit Wr i, [], []));
         (ready (chan c Rd i), (receive c Rd i, ER_exit Wr i, [], []));
         match rc_sendQueue c with
         | [] => (false, (c, WR_top i, [], []))
         | p :: q => (true, (set_send c q, WR_write i p, [], [Taking i p]))
         end]
  | WR_write i p =>
      match ch_write x with
      | None => None
      | Some None => Some (c, WR_top i, [], [Sent i p])
      | Some (Some _) => Some (c, ER_send Wr i, [], [Lost i p])
      end
  | _ => None
  end.

(** [readErrCh <- err] or [writeErrCh <- err], and the deferred [close]. *)
Definition fail_step (c : RedialPacketConn) (t : pc) : option outcome :=
  match t with
  | ER_send d i =>
      match chan c d i with
      | Idle => Some (set_chan c d i Offered, ER_sending d i, [], [])
      | Closed => Some (c, Panicked, [], [])
      | _ => None
      end
  | ER_sending d i =>
      match chan c d i with Taken => Some (c, ER_exit d i, [], []) | _ => None end
  | ER_exit d i =>
      match chan c d i with
      | Closed => Some (c, Panicked, [], [])
      | _ => Some (set_chan c d i Closed, Finished, [], [])
      end
  | _ => None
  end.

Definition ReadFrom_step (x : choice) (c : RedialPacketConn) (t : pc) : option outcome :=
  match t with
  | RF_start k =>
      if rc_closed c then Some (c, load_err c (fun e => Done_read (Err e)), [], [])
      else Some (c, RF_wait k, [], [])
  | RF_wait k =>
      pick (ch_branch x)
        [(rc_closed c, (c, load_err c (fun e => Done_read (Err e)), [], []));
         match rc_recvQueue c with
         | [] => (false, (c, RF_wait k, [], []))
         | p :: q => (true, (set_recv c q, Done_read (Ret (take k p)), [], [Delivered p]))
         end]
  | _ => None
  end.

Definition WriteTo_step (c : RedialPacketConn) (t : pc) : option outcome :=
  match t with
  | WT_start p =>
      if rc_closed c then Some (c, load_err c (fun e => Done_write (Err e)), [], [])
      else Some (c, WT_send p, [], [])
  | WT_send p =>
      if decide (length (rc_sendQueue c) < queueSize)
      then Some (set_send c (rc_sendQueue c ++ [p]), Done_write (Ret (length p)), [], [Queued p])
      else Some (c, Done_write (Ret (length p)), [], [])
  | _ => None
  end.

Definition closeWithError_step (c : RedialPacketConn) (t : pc) : option outcome :=
  match t with
  | CL_start e =>
      match rc_closeOnce c with
      | OnceNew =>
          Some (set_closing c (rc_closed c) OnceRunning (rc_err c),
                CL_store (default (ErrMsg "operation on closed connection") e), [], [])
      | OnceRunning => None
      | OnceDone => Some (c, load_err c (fun e => Done_close (Some e)), [], [])
      end
  | CL_store e => Some (set_closing c (rc_closed c) (rc_closeOnce c) (Some e), CL_close, [], [])
  | CL_close =>
      if rc_closed c then Some (c, Panicked, [], [])
      else Some (set_closing c true OnceDone (rc_err c), Done_close None, [], [])
  | _ => None
  end.

Definition conn_step (x : choice) (c : RedialPacketConn) (t : pc) : option outcome :=
  match t with
  | DL_top | DL_dial | DL_wait _ | DL_closeconn _ => dialLoop_step x c t
  | RD_top _ | RD_read _ | RD_push _ _ => reader_step x c t
  | WR_top _ | WR_write _ _ => writer_step x c t
  | ER_send _ _ | ER_sending _ _ | ER_exit _ _ => fail_step c t
  | RF_start _ | RF_wait _ => ReadFrom_step x c t
  | WT_start _ | WT_send _ => WriteTo_step c t
  | CL_start _ | CL_store _ | CL_close => closeWithError_step c t
  | _ => None
  end.

(** [Close()] is [closeWithError(nil)]. *)
Definition is_call (t : pc) : bool :=
  match t with RF_start _ | WT_start _ | CL_start None => true | _ => false end.

#[export] Instance redial_machine : Machine RedialPacketConn pc event choice :=
  {| act := conn_step; callable := is_call |}.

(** [NewRedialPacketConn] starts [dialLoop]. *)
Definition NewRedialPacketConn : system RedialPacketConn pc :=
  System (RedialConn [] [] false OnceNew None []) [DL_top].

Definition reachable : list event -> system RedialPacketConn pc -> Prop := moves NewRedialPacketConn.

(** ** Channels *)

Lemma chan_set c d i v d' j :
  chan (set_chan c d i v) d' j =
  if decide (d = d' /\ i = j /\ i < length (rc_exch c)) then v else chan c d' j.
Proof.
  unfold chan, set_chan; cbn. destruct (decide (i = j)) as [<-|Hj].
  - rewrite list_lookup_alter_eq. destruct (rc_exch c !! i) as [x|] eqn:Ei; cbn.
    + apply lookup_lt_Some in Ei. case_decide as H; [by destruct H as [<- _], d|].
      destruct d, d'; try done; tauto.
    + apply lookup_ge_None in Ei. rewrite decide_False by lia. done.
  - rewrite list_lookup_alter_ne by done. rewrite decide_False by tauto. done.
Qed.

Lemma chan_new c d j :
  chan (set_exch c (rc_exch c ++ [Exchange Idle Idle])) d j =
  if decide (j = length (rc_exch c)) then Idle else chan c d j.
Proof.
  unfold chan; cbn. case_decide as E.
  - subst. rewrite lookup_app_r, Nat.sub_diag by lia. by destruct d.
  - destruct (decide (j < length (rc_exch c))) as [?|?]; [by rewrite lookup_app_l|].
    rewrite !lookup_ge_None_2; [done|lia|rewrite length_app; cbn; lia].
Qed.

Lemma chan_open c d i : chan c d i <> Closed -> i < length (rc_exch c).
Proof. unfold chan. destruct (rc_exch c !! i) eqn:E; [|done]. intros _. by eapply lookup_lt_Some. Qed.

Lemma chan_receive c d i d' j :
  chan (receive c d i) d' j = if decide (d = d' /\ i = j) then received (chan c d i) else chan c d' j.
Proof.
  unfold receive. rewrite chan_set. destruct (decide (d = d' /\ i = j)) as [[<- <-]|H].
  - case_decide as H; [done|]. destruct (decide (chan c d i = Closed)) as [->|Ho]; [done|].
    apply chan_open in Ho. tauto.
  - rewrite decide_False by tauto. done.
Qed.

Lemma received_closed v : received v = Closed <-> v = Closed.
Proof. by destruct v. Qed.

(** ** Ownership *)

(** The goroutine of side [d] of exchange [i], until it has closed its channel. *)
Definition owner (d : side) (i : nat) (t : pc) : nat :=
  match t with
  | RD_top j | RD_read j | RD_push j _ => if decide (d = Rd /\ i = j) then 1 else 0
  | WR_top j | WR_write j _ => if decide (d = Wr /\ i = j) then 1 else 0
  | ER_send e j | ER_sending e j | ER_exit e j => if decide (d = e /\ i = j) then 1 else 0
  | _ => 0
  end.

Definition alive (d : side) (i : nat) (c : RedialPacketConn) : nat :=
  if decide (chan c d i = Closed) then 0 else 1.

(** The goroutine inside [closeOnce.Do]. *)
Definition closing (t : pc) : nat := match t with CL_store _ | CL_close => 1 | _ => 0 end.
Definition running (c : RedialPacketConn) : nat := match rc_closeOnce c with OnceRunning => 1 | _ => 0 end.

Definition closed_once (c : RedialPacketConn) : Prop := rc_closed c = true -> rc_closeOnce c = OnceDone.

(** The cases of one action [E : conn_step x c t = Some (st', t', new, evs)]. *)
Ltac redial_cases E :=
  match type of E with conn_step _ _ ?t = _ => destruct t end;
  cbn [conn_step dialLoop_step reader_step writer_step fail_step ReadFrom_step WriteTo_step
    closeWithError_step pick] in E; unfold load_err in E;
  repeat match type of E with
  | context [match ?v with _ => _ end] =>
      lazymatch v with
      | context [match _ with _ => _ end] => fail
      | _ => destruct v eqn:?; cbn [pick] in E; try discriminate E
      end
  end; try discriminate E; injection E as <- <- <- <-.

Lemma closed_once_act x c t c' t' new evs :
  closed_once c -> conn_step x c t = Some (c', t', new, evs) -> closed_once c'.
Proof. unfold closed_once. intros H E. redial_cases E; try done; cbn in *; intuition congruence. Qed.

Lemma alive_receive d i c e j : alive d i (receive c e j) = alive d i c.
Proof.
  unfold alive. rewrite chan_receive. destruct (decide (e = d /\ j = i)) as [[<- <-]|_]; [|done].
  by destruct (chan c e j).
Qed.

Lemma alive_new d i c :
  alive d i (set_exch c (rc_exch c ++ [Exchange Idle Idle])) =
  (if decide (i = length (rc_exch c)) then 1 else 0) + alive d i c.
Proof.
  unfold alive. rewrite chan_new. destruct (decide (i = length (rc_exch c))) as [->|]; [|done].
  rewrite decide_False by done. unfold chan. by rewrite lookup_ge_None_2 by done.
Qed.

Lemma alive_set d i c e j v :
  chan c e j <> Closed ->
  alive d i (set_chan c e j v) =
  if decide (e = d /\ j = i) then (if decide (v = Closed) then 0 else 1) else alive d i c.
Proof.
  intros Ho. unfold alive. rewrite chan_set. pose proof (chan_open _ _ _ Ho).
  destruct (decide (e = d /\ j = i)) as [[<- <-]|].
  - by rewrite (decide_True (P := e = e /\ j = j /\ _)) by done.
  - by rewrite (decide_False (P := e = d /\ j = i /\ _)) by tauto.
Qed.

Lemma alive_exch d i c c' : rc_exch c' = rc_exch c -> alive d i c' = alive d i c.
Proof. unfold alive, chan. by intros ->. Qed.

Lemma alive_1 d i c : alive d i c = 1 <-> chan c d i <> Closed.
Proof. unfold alive. by case_decide. Qed.

Lemma owner_act d i x c t c' t' new evs :
  closed_once c -> conn_step x c t = Some (c', t', new, evs) -> owner d i t <= alive d i c ->
  alive d i c' + owner d i t = alive d i c + owner d i t' + total (owner d i) new.
Proof.
  intros _ E Hle. redial_cases E; unfold total; cbn;
    rewrite ?alive_new, ?alive_receive, ?alive_set by congruence; cbn in *; try lia.
  all: try (rewrite (alive_exch d i c) by done; lia).
  all: unfold alive in *; repeat case_decide; destruct_and?; simplify_eq/=; try lia; try congruence.
  all: exfalso; try destruct d; naive_solver.
Qed.

Lemma closing_act x c t c' t' new evs :
  closed_once c -> conn_step x c t = Some (c', t', new, evs) -> closing t <= running c ->
  running c' + closing t = running c + closing t' + total closing new.
Proof.
  unfold closed_once, running. intros Ho E Hle. redial_cases E; unfold total; cbn in *; try lia; try done.
  all: repeat case_match; try lia; naive_solver.
Qed.

(** ** The invariant *)

Definition tokens (s : system RedialPacketConn pc) : Prop :=
  closed_once (shared s) /\
  (forall d i, total (owner d i) (pool s) = alive d i (shared s)) /\
  total closing (pool s) = running (shared s).

Lemma tokens_inv tr s : reachable tr s -> tokens s.
Proof.
  apply moves_ind_inv.
  - split_and!; [done| |done]. intros d i. by destruct d.
  - intros s1 evs s2 (H1 & H2 & H3) Hm. split_and!.
    + destruct Hm as [|s1 i t x st' t' new evs Ei Ea]; [done|]. by eapply closed_once_act.
    + intros d i. eapply (tokens_move (owner d i) (alive d i) closed_once); eauto using owner_act.
      intros [] ?; try done.
    + eapply (tokens_move closing running closed_once); eauto using closing_act. by intros [].
Qed.

(** What the state guarantees, and each goroutine where it stands. *)
Definition data_ok (c : RedialPacketConn) : Prop :=
  length (rc_recvQueue c) <= queueSize /\ length (rc_sendQueue c) <= queueSize /\
  (rc_closeOnce c = OnceDone -> is_Some (rc_err c)) /\ (rc_closeOnce c = OnceNew -> rc_err c = None).

Definition thread_ok (c : RedialPacketConn) (t : pc) : Prop :=
  match t with
  | Panicked => False
  | DL_wait i => i < length (rc_exch c)
  | RD_top i | RD_read i | RD_push i _ => chan c Rd i = Idle
  | WR_top i | WR_write i _ => chan c Wr i = Idle
  | ER_send d i => chan c d i = Idle
  | ER_sending d i => chan c d i = Offered \/ chan c d i = Taken
  | ER_exit d i => chan c d i = Idle \/ chan c d i = Taken
  | CL_store _ => rc_err c = None
  | CL_close => is_Some (rc_err c)
  | Done_read (Err e) | Done_write (Err e) | Done_close (Some e) => rc_err c = Some e
  | _ => True
  end.

Lemma rc_err_kept x s i t c' t' new evs e :
  tokens s -> pool s !! i = Some t -> thread_ok (shared s) t ->
  conn_step x (shared s) t = Some (c', t', new, evs) -> rc_err (shared s) = Some e -> rc_err c' = Some e.
Proof. intros _ Ei Ht E He. redial_cases E; cbn in *; congruence. Qed.

(** No other goroutine touches the channel of an owner, but to take its offer. *)
Lemma chan_kept x s j k t u c' t' new evs d i :
  tokens s -> k <> j -> pool s !! j = Some t -> pool s !! k = Some u -> owner d i u = 1 ->
  conn_step x (shared s) t = Some (c', t', new, evs) ->
  chan c' d i = chan (shared s) d i \/ chan (shared s) d i = Offered /\ chan c' d i = Taken.
Proof.
  intros (_ & Hown & _) Hne Ej Ek Hu E.
  pose proof (total_two (owner d i) _ _ _ _ _ Hne Ek Ej) as H2. rewrite Hown in H2.
  assert (Ha : alive d i (shared s) <= 1) by (unfold alive; case_decide; lia).
  assert (Ht : owner d i t = 0) by lia. assert (Ho : chan (shared s) d i <> Closed) by (apply alive_1; lia).
  pose proof (chan_open _ _ _ Ho) as Hlt. clear - E Ht Hlt.
  redial_cases E; cbn in Ht; rewrite ?chan_new, ?chan_receive, ?chan_set; auto.
  all: repeat case_decide; destruct_and?; simplify_eq; try lia; auto.
  all: try naive_solver.
  all: match goal with |- received ?v = _ \/ _ => by destruct v; auto end.
Qed.

(** Rewrite the goal with the equations of the case. *)
Ltac use_eqs :=
  repeat match goal with
  | H : ?f ?c = ?v |- context [?f ?c] =>
      lazymatch f with
      | rc_closed => rewrite H | rc_closeOnce => rewrite H | rc_err => rewrite H
      | rc_sendQueue => rewrite H | rc_recvQueue => rewrite H
      end
  end.

(** An acting goroutine owns what it holds a token of. *)
Lemma tokens_act s j t :
  tokens s -> pool s !! j = Some t ->
  (forall d i, owner d i t = 1 -> chan (shared s) d i <> Closed) /\
  (closing t = 1 -> rc_closeOnce (shared s) = OnceRunning /\ rc_closed (shared s) = false).
Proof.
  intros (Hc & Hown & Hcl) Ej. split.
  - intros d i Ho. apply alive_1. pose proof (total_one (owner d i) _ _ _ Ej) as H1. rewrite Hown in H1.
    unfold alive in *. case_decide; lia.
  - intros Ho. pose proof (total_one closing _ _ _ Ej) as H1. rewrite Hcl in H1. unfold running in H1.
    unfold closed_once in Hc. destruct (rc_closeOnce (shared s)); try lia. split; [done|].
    destruct (rc_closed (shared s)); [|done]. by specialize (Hc eq_refl).
Qed.

Lemma data_ok_act x c t c' t' new evs :
  data_ok c -> (closing t = 1 -> rc_closeOnce c = OnceRunning /\ rc_closed c = false) -> thread_ok c t ->
  conn_step x c t = Some (c', t', new, evs) -> data_ok c'.
Proof.
  intros (Hr & Hs & Hd & Hn) Hcl Ht E.
  redial_cases E; split_and!; cbn in *; use_eqs; rewrite ?length_app; cbn; try done; try lia.
  all: destruct Hcl; [done|]; congruence.
Qed.

Lemma thread_ok_act x c t c' t' new evs :
  data_ok c -> (forall d i, owner d i t = 1 -> chan c d i <> Closed) ->
  (closing t = 1 -> rc_closeOnce c = OnceRunning /\ rc_closed c = false) -> closed_once c -> thread_ok c t ->
  conn_step x c t = Some (c', t', new, evs) -> thread_ok c' t' /\ Forall (thread_ok c') new.
Proof.
  intros (_ & _ & Hd & Hn) Hown Hcl Hc Ht E. unfold closed_once in Hc.
  redial_cases E; (split; [|repeat constructor; cbn; rewrite chan_new; by rewrite decide_True]); cbn in *;
    use_eqs; try done.
  all: try (rewrite length_app; cbn; lia).
  all: try (rewrite chan_receive, decide_False by (by intros [? ?])); auto.
  all: try congruence; try (by destruct Hd; auto); try (apply Hn; congruence).
  all: try (by destruct (Hcl eq_refl)); try (destruct Ht; congruence).
  left. rewrite chan_set, decide_True; [done|]. split_and!; [done|done|].
  apply (chan_open c d i). congruence.
Qed.

Lemma redial_act s i x t c' t' new evs :
  tokens s -> data_ok (shared s) -> pool s !! i = Some t -> thread_ok (shared s) t ->
  act x (shared s) t = Some (c', t', new, evs) ->
  data_ok c' /\ thread_ok c' t' /\ Forall (thread_ok c') new /\
  forall k u, k <> i -> pool s !! k = Some u -> thread_ok (shared s) u -> thread_ok c' u.
Proof.
  intros Htok Hd Ei Ht E. destruct (tokens_act s i t Htok Ei) as [Hown Hcl].
  destruct (thread_ok_act x (shared s) t c' t' new evs) as [Ht' Hnew]; try done; [apply Htok|].
  split_and!; [by eapply data_ok_act|done|done|].
  intros k u Hne Ek Hu. assert (Hk : forall d j, owner d j u = 1 ->
    chan c' d j = chan (shared s) d j \/ chan (shared s) d j = Offered /\ chan c' d j = Taken).
  { intros d j Ho. by apply (chan_kept x s i k t u c' t' new evs). }
  assert (He : forall e, rc_err (shared s) = Some e -> rc_err c' = Some e).
  { intros e. by apply (rc_err_kept x s i t c' t' new evs). }
  assert (Hlen : length (rc_exch (shared s)) <= length (rc_exch c')).
  { clear - E. cbn in E. redial_cases E; cbn; rewrite ?length_app, ?length_alter; lia. }
  assert (Hone : closing u = 1 -> rc_err c' = rc_err (shared s)).
  { intros Hu1. destruct Htok as (_ & _ & Hc1). pose proof (total_two closing _ _ _ _ _ Hne Ek Ei) as H2.
    assert (Hr : running (shared s) <= 1) by (unfold running; case_match; lia).
    assert (Ht0 : closing t = 0) by lia. clear - E Ht0. cbn in E. redial_cases E; done. }
  destruct u; cbn in *; try done; try lia; try (rewrite Hone by done; done).
  all: try (case_match; auto).
  all: match goal with |- context [chan _ ?d ?j] =>
    destruct (Hk d j) as [?|[? ?]]; [by rewrite decide_True|intuition congruence..] end.
Qed.

Lemma reachable_ok tr s : reachable tr s -> tokens s /\ pool_ok data_ok thread_ok s.
Proof.
  intros H. split; [by eapply tokens_inv|]. induction H as [|tr s evs s' Hm IH Hs].
  - split; [unfold data_ok, queueSize; cbn; split_and!; by auto with lia|]. intros [|k] u E; by simplify_eq/=.
  - eapply (pool_ok_move tokens); eauto using redial_act; [|by eapply tokens_inv].
    intros st t Hc _. by destruct t.
Qed.

(** ** Events *)

Definition arrived (e : event) : option bytes := match e with Arrived _ p => Some p | _ => None end.
Definition delivered (e : event) : option bytes := match e with Delivered p => Some p | _ => None end.
Definition queued (e : event) : option bytes := match e with Queued p => Some p | _ => None end.
Definition taking (e : event) : option bytes := match e with Taking _ p => Some p | _ => None end.

Definition queues_ok (tr : list event) (c : RedialPacketConn) : Prop :=
  omap arrived tr = omap delivered tr ++ rc_recvQueue c /\
  omap queued tr = omap taking tr ++ rc_sendQueue c.

Lemma queues_ok_reachable tr s : reachable tr s -> queues_ok tr (shared s).
Proof.
  induction 1 as [|tr s evs s' _ [H1 H2] Hs]; [done|].
  destruct Hs as [s t _|s i t x c' t' new evs _ E]; unfold queues_ok.
  - by rewrite app_nil_r.
  - rewrite !omap_app, H1, H2. cbn in E. clear -E.
    redial_cases E; cbn; use_eqs; rewrite ?app_nil_r, <- ?app_assoc; done.
Qed.

(** Where the error of a closed connection comes from. *)
Definition origin (tr : list event) (e : error) : Prop :=
  e = ErrMsg "operation on closed connection" \/ DialFailed e ∈ tr.

Definition cause (tr : list event) (t : pc) : Prop :=
  match t with
  | CL_start (Some e) => DialFailed e ∈ tr
  | CL_store e => origin tr e
  | _ => True
  end.

Lemma origin_app tr evs e : origin tr e -> origin (tr ++ evs) e.
Proof. intros [?|?]; [by left|right]. apply elem_of_app. by left. Qed.

Lemma cause_app tr evs t : cause tr t -> cause (tr ++ evs) t.
Proof.
  destruct t; cbn; auto using origin_app. case_match; [|done]. intros ?. apply elem_of_app. by left.
Qed.

Lemma cause_act x c t c' t' new evs tr :
  conn_step x c t = Some (c', t', new, evs) -> cause tr t ->
  (forall e, rc_err c = Some e -> origin tr e) ->
  cause (tr ++ evs) t' /\ Forall (cause (tr ++ evs)) new /\ forall e, rc_err c' = Some e -> origin (tr ++ evs) e.
Proof.
  intros E Ht He. assert (He' : forall e, rc_err c = Some e -> origin (tr ++ evs) e) by eauto using origin_app.
  apply (cause_app tr evs) in Ht.
  redial_cases E; cbn in *; split_and!; try done; try (by repeat constructor); try (use_eqs; by apply He').
  - apply elem_of_app. right. by apply list_elem_of_singleton.
  - by destruct e; [right|left].
  - by intros ? [= <-].
Qed.

Lemma cause_reachable tr s :
  reachable tr s ->
  (forall k u, pool s !! k = Some u -> cause tr u) /\ forall e, rc_err (shared s) = Some e -> origin tr e.
Proof.
  induction 1 as [|tr s evs s' _ [H1 H2] Hs]; [split; [|done]; intros [|k] u E; by simplify_eq/=|].
  destruct Hs as [s t Hc|s i t x c' t' new evs Ei E].
  - rewrite app_nil_r. split; [|done]. intros k u E. apply lookup_app_Some in E as [E|[_ E]]; [eauto|].
    apply list_lookup_singleton_Some in E as [_ <-]. destruct t; try done. cbn in *. by repeat case_match.
  - destruct (cause_act x (shared s) t c' t' new evs tr) as (Ht & Hn & He); eauto. split; [|done].
    intros k u [[-> ->]|[[_ Ek]|[_ Ek]]]%pool_lookup_move; [done|eauto using cause_app|].
    by apply (proj1 (list.Forall_forall _ _) Hn).
Qed.

(** ** Leaving an exchange *)

Definition any (n : nat) : choice := Choice n None None None.

Lemma leave_ready s d i :
  pool s !! d = Some (DL_wait i) -> ready (chan (shared s) Rd i) || ready (chan (shared s) Wr i) = true ->
  exists s', moves s [] s' /\ pool s' !! d = Some DL_top.
Proof.
  intros Ed Hr.
  assert (E : exists c', act (any 0) (shared s) (DL_wait i) = Some (c', DL_closeconn i, [], [])).
  { cbn. destruct (ready (chan (shared s) Rd i)); [eauto|]. cbn in Hr. rewrite Hr. eauto. }
  destruct E as [c' E]. set (s1 := System c' (<[d := DL_closeconn i]> (pool s))).
  assert (E1 : pool s1 !! d = Some (DL_closeconn i)) by (eapply list_lookup_insert_eq, lookup_lt_Some, Ed).
  exists (System c' (<[d := DL_top]> (pool s1))). split.
  - eapply (moves_trans _ []); [apply moves_one; by eapply move_self|].
    apply moves_one. by eapply (move_self s1 d (DL_closeconn i) (any 0)).
  - eapply list_lookup_insert_eq, lookup_lt_Some, E1.
Qed.

(** The goroutine whose error was taken closes its channel. *)
Lemma taken_closes s e i :
  tokens s -> pool_ok data_ok thread_ok s -> chan (shared s) e i = Taken ->
  exists s', moves s [] s' /\ chan (shared s') e i = Closed /\
    forall d, pool s !! d = Some (DL_wait i) -> pool s' !! d = Some (DL_wait i).
Proof.
  intros (_ & Hown & _) [_ HP] Ht.
  destruct (total_pos (owner e i) (pool s)) as (k & t & Ek & Ho).
  { rewrite Hown. unfold alive. rewrite decide_False by congruence. lia. }
  assert (Hexit : forall s1, shared s1 = shared s -> pool s1 !! k = Some (ER_exit e i) ->
    move s1 [] (System (set_chan (shared s) e i Closed) (<[k := Finished]> (pool s1)))).
  { intros s1 Hs1 E1. eapply (move_self s1 k _ (any 0)); [exact E1|]. cbn. by rewrite Hs1, Ht. }
  assert (Hcl : chan (set_chan (shared s) e i Closed) e i = Closed).
  { rewrite chan_set, decide_True; [done|]. split_and!; [done|done|]. eapply chan_open. by rewrite Ht. }
  assert (Hkeep : forall d, pool s !! d = Some (DL_wait i) -> d <> k).
  { intros d Ed ->. rewrite Ek in Ed. injection Ed as ->. cbn in Ho. lia. }
  specialize (HP k t Ek). unfold owner in Ho.
  destruct t; cbn in HP; try lia; case_decide; try lia; destruct_and?; simplify_eq; try congruence.
  - set (s1 := System (shared s) (<[k := ER_exit d i0]> (pool s))).
    eexists. split; [|split].
    + eapply (moves_trans _ [] s1); [apply moves_one; eapply (move_self s k _ (any 0)); [exact Ek|]; cbn; by rewrite Ht|].
      apply moves_one, Hexit; [done|]. eapply list_lookup_insert_eq, lookup_lt_Some, Ek.
    + exact Hcl.
    + intros j Ej. cbn. rewrite !list_lookup_insert_ne by (symmetry; auto). done.
  - eexists. split; [|split]; [by apply moves_one, Hexit|exact Hcl|].
    intros j Ej. cbn. by rewrite list_lookup_insert_ne by (symmetry; auto).
Qed.

(** ** A goroutine that waits for ever *)

(** The exchange a goroutine refers to. *)
Definition mentions (i : nat) (t : pc) : bool :=
  match t with
  | DL_wait j | DL_closeconn j | RD_top j | RD_read j | RD_push j _ | WR_top j | WR_write j _
  | ER_send _ j | ER_sending _ j | ER_exit _ j => bool_decide (i = j)
  | _ => false
  end.

(** Goroutine [j] offers the error of a side of exchange [i] and nobody is left to take it. *)
Definition abandoned (j : nat) (d : side) (i : nat) (s : system RedialPacketConn pc) : Prop :=
  pool s !! j = Some (ER_sending d i) /\ chan (shared s) d i = Offered /\
  forall k u, k <> j -> pool s !! k = Some u -> mentions i u = false.

Lemma mentions_act x c t c' t' new evs i :
  conn_step x c t = Some (c', t', new, evs) -> i < length (rc_exch c) -> mentions i t = false ->
  mentions i t' = false /\ Forall (fun u => mentions i u = false) new /\ forall d, chan c' d i = chan c d i.
Proof.
  intros E Hi Hm.
  redial_cases E; cbn in *; split_and!; try done; repeat constructor; try (apply bool_decide_false; lia).
  all: intros d'; rewrite ?chan_new, ?chan_receive, ?chan_set; try done.
  all: try apply bool_decide_eq_false in Hm; rewrite decide_False; [done|lia || tauto].
Qed.

Lemma abandoned_move j d i s evs s' : abandoned j d i s -> move s evs s' -> abandoned j d i s'.
Proof.
  intros (Ej & Ho & Hm) Hs. assert (Hi : i < length (rc_exch (shared s))) by (eapply chan_open; by rewrite Ho).
  destruct Hs as [s t Hc|s k t x c' t' new evs Ek E].
  - split_and!; [by apply lookup_app_l_Some|done|]. intros k u Hne Ek.
    apply lookup_app_Some in Ek as [Ek|[_ Ek]]; [eauto|].
    apply list_lookup_singleton_Some in Ek as [_ <-]. by destruct t.
  - destruct (decide (k = j)) as [->|Hne]; [rewrite Ej in Ek; injection Ek as <-; cbn in E; by rewrite Ho in E|].
    destruct (mentions_act x (shared s) t c' t' new evs i E Hi (Hm k t Hne Ek)) as (Ht & Hn & Hch).
    split_and!; cbn.
    + apply lookup_app_l_Some. by rewrite list_lookup_insert_ne.
    + by rewrite Hch.
    + intros k' u Hk' [[-> ->]|[[_ Eu]|[_ Eu]]]%pool_lookup_move; [done|eauto|].
      by apply (proj1 (list.Forall_forall _ _) Hn).
Qed.

Lemma abandoned_forever j d i s tr s' : abandoned j d i s -> moves s tr s' -> pool s' !! j = Some (ER_sending d i).
Proof. intros Ha Hm. apply (moves_ind_inv (abandoned j d i) s tr s'); eauto using abandoned_move. Qed.

(** ** Properties *)

(** C16. Whatever the callers do and however dialing, reading and writing go, no
    goroutine of a RedialPacketConn panics: no channel is closed twice or sent on after
    it was closed, and the stored error is there whenever it is loaded.  Both queues stay
    within their capacity, and packets leave each queue in the order they entered it:
    what arrived is what ReadFrom has taken followed by the queue, what WriteTo queued is
    what the writers have taken followed by the queue. *)
Theorem redial_safe tr s :
  reachable tr s ->
  ~ (exists k, pool s !! k = Some Panicked) /\
  length (rc_recvQueue (shared s)) <= queueSize /\ length (rc_sendQueue (shared s)) <= queueSize /\
  omap arrived tr = omap delivered tr ++ rc_recvQueue (shared s) /\
  omap queued tr = omap taking tr ++ rc_sendQueue (shared s).
Proof.
  intros H. destruct (reachable_ok tr s H) as [_ [(Hr & Hs & _) HP]].
  destruct (queues_ok_reachable tr s H) as [H1 H2]. split_and!; try done.
  intros [k Ek]. by apply HP in Ek.
Qed.


(** A failed connection is replaced: as soon as one of the two goroutines of an
    exchange has offered its error or returned, dialLoop gets back to the top of its loop
    by actions of that exchange's goroutines alone, without waiting for the other
    goroutine's read or write. *)
Theorem redial_redials tr s d i :
  reachable tr s -> pool s !! d = Some (DL_wait i) ->
  chan (shared s) Rd i <> Idle \/ chan (shared s) Wr i <> Idle ->
  exists s', moves s [] s' /\ pool s' !! d = Some DL_top.
Proof.
  intros H Ed Hi. destruct (reachable_ok tr s H) as [Htok Hok].
  assert (Hside : exists e, chan (shared s) e i <> Idle) by (destruct Hi; eauto). destruct Hside as [e He].
  assert (Hready : forall s1 : system RedialPacketConn pc, ready (chan (shared s1) e i) = true ->
    ready (chan (shared s1) Rd i) || ready (chan (shared s1) Wr i) = true).
  { intros s1 Hs1. destruct e; rewrite Hs1; [done|apply orb_true_r]. }
  destruct (chan (shared s) e i) eqn:Ee; [done|by apply (leave_ready s d i), Hready; rewrite ?Ee| |
    by apply (leave_ready s d i), Hready; rewrite ?Ee].
  destruct (taken_closes s e i Htok Hok Ee) as (s1 & M1 & E1 & K1).
  destruct (leave_ready s1 d i) as (s2 & M2 & E2); [auto|apply Hready; by rewrite E1|].
  exists s2. split; [|done]. by eapply (moves_trans _ []).
Qed.

(** The writer's connection fails while the reader is blocked in ReadFrom. *)
Definition dial_ok : choice := Choice 0 (Some None) None None.
Definition read_fails : choice := Choice 0 None (Some (Err EOF)) None.
Definition write_fails : choice := Choice 0 None None (Some (Some EOF)).

Definition leak_schedule (p : bytes) : list (turn (Pc := pc) (Ch := choice)) :=
  [Turn 0 (any 0); Turn 0 dial_ok; Turn 1 (any 0); Enter (WT_start p); Turn 3 (any 0); Turn 3 (any 0);
   Turn 2 (any 0); Turn 2 write_fails; Turn 2 (any 0); Turn 0 (any 0); Turn 0 (any 0);
   Turn 2 (any 0); Turn 2 (any 0); Turn 1 read_fails; Turn 1 (any 0)].

(** The reader's connection fails, the next one is dialed, and a packet is written. *)
Definition steal_schedule (p : bytes) : list (turn (Pc := pc) (Ch := choice)) :=
  [Turn 0 (any 0); Turn 0 dial_ok; Turn 1 (any 0); Turn 1 read_fails; Turn 1 (any 0); Turn 0 (any 0);
   Turn 0 (any 0); Turn 1 (any 0); Turn 1 (any 0); Turn 0 (any 0); Turn 0 dial_ok;
   Enter (WT_start p); Turn 5 (any 0); Turn 5 (any 0); Turn 2 (any 1); Turn 2 write_fails].

(** Where a schedule ends, and what happened. *)
Definition final l : system RedialPacketConn pc :=
  default NewRedialPacketConn (snd <$> play l NewRedialPacketConn).
Definition happened l : list event := default [] (fst <$> play l NewRedialPacketConn).

Lemma final_reachable l : is_Some (play l NewRedialPacketConn) -> reachable (happened l) (final l).
Proof.
  unfold final, happened. intros [o H]. destruct (play l NewRedialPacketConn) as [[tr s]|] eqn:E; [|done].
  by eapply play_moves.
Qed.

(** The goroutines of an exchange can outlive it.  After a write error the
    reading goroutine, blocked in ReadFrom until dialLoop closes the connection, offers
    its error on an unbuffered channel that nobody receives from any more: it stays there
    for ever, whatever happens next.  And after a read error the writing goroutine of the
    old connection can take a packet that was written after the next connection was
    dialed, and lose it on the closed one, while WriteTo reported success. *)
Theorem redial_leak p :
  (exists tr s, reachable tr s /\ forall tr' s', moves s tr' s' -> pool s' !! 1 = Some (ER_sending Rd 0)) /\
  (exists s, reachable [Dialed 0; Dialed 1; Queued p; Taking 0 p; Lost 0 p] s /\
     pool s !! 5 = Some (Done_write (Ret (length p)))).
Proof.
  split.
  - exists (happened (leak_schedule p)), (final (leak_schedule p)).
    split; [apply final_reachable; vm_compute; by eexists|]. intros tr' s'. apply abandoned_forever.
    split_and!; [by vm_compute|by vm_compute|].
    intros [|[|[|[|k]]]] u Hk Eu; vm_compute in Eu; by simplify_eq.
  - exists (final (steal_schedule p)). split; [|by vm_compute].
    replace [Dialed 0; Dialed 1; Queued p; Taking 0 p; Lost 0 p] with (happened (steal_schedule p)) by (by vm_compute).
    apply final_reachable. vm_compute. by eexists.
Qed.

(** The first dial fails, and ReadFrom is called. *)
Definition redial_demo : list (turn (Pc := pc) (Ch := choice)) :=
  [Turn 0 (any 0); Turn 0 (Choice 0 (Some (Some EOF)) None None); Turn 0 (any 0); Turn 0 (any 0);
   Turn 0 (any 0); Enter (RF_start 10); Turn 1 (any 0)].

(** A read fails, and the writer has taken the error. *)
Definition failing_demo : list (turn (Pc := pc) (Ch := choice)) :=
  [Turn 0 (any 0); Turn 0 dial_ok; Turn 1 (any 0); Turn 1 read_fails; Turn 1 (any 0); Turn 2 (any 0)].

Lemma redial_safe_witness :
  ~ (exists k, pool (final redial_demo) !! k = Some Panicked).
Proof. exact (proj1 (redial_safe _ _ (final_reachable redial_demo ltac:(vm_compute; eexists; reflexivity)))). Defined.


Lemma redial_redials_witness :
  exists s', moves (final failing_demo) [] s' /\ pool s' !! 0 = Some DL_top.
Proof.
  apply (redial_redials _ _ 0 0 (final_reachable failing_demo ltac:(vm_compute; eexists; reflexivity)) eq_refl).
  left. vm_compute. discriminate.
Defined.
