(* ===== verification/Carrier.v ===== *)
(** * The turbotunnel carrier (snowflake/common/standalone/session.go, handler.go,
    turbotunnel/clientid.go)

    The client opens a WebSocket, announces the turbotunnel token and its identifier and
    then exchanges packets as encapsulation chunks; the server's [serveHTTP] checks the
    token and moves packets between the WebSocket and the QueuePacketConn.  The theorems
    compose the models of the encapsulation, of the WebSocket connection and of the
    queues. *)
From S2P Require Import Prelude GoIO Encapsulation EncapConn Websocket ClientMap QueueConn.

(** [turbotunnel.Token] *)
Definition Token : bytes :=
  [Byte.x12; Byte.x93; Byte.x60; Byte.x5d; Byte.x27; Byte.x81; Byte.x75; Byte.xf5].

(** ** Client identifiers *)

(** A [ClientID] is eight bytes; [rand] is what [rand.Read] gives. *)
Definition NewClientID (rand : res bytes) : res bytes :=
  match rand with Ret id => Ret id | _ => Panic "rand.Read" end.

Definition hex_digit (n : Z) : byte := to_byte (if (n <? 10)%Z then 48 + n else 87 + n)%Z.

(** [hex.EncodeToString(id[:])] *)
Definition ClientID_String (id : bytes) : bytes :=
  id ≫= fun b => [hex_digit (bval b / 16)%Z; hex_digit (bval b mod 16)%Z].

(** ** The client's end: WrapWebSocketDial *)

Definition WrapWebSocketDial (clientID : bytes) (dialWS : res (reader * writer))
  : res (EncapsulationPacketConn unit) :=
  match dialWS with
  | Ret (rd, w) =>
      match write Token w with
      | (_, Some e, _) => Err e
      | (_, None, w1) =>
          match write clientID w1 with
          | (_, Some e, _) => Err e
          | (_, None, w2) => Ret (NewEncapsulationPacketConn tt tt (rd, w2))
          end
      end
  | Err e => Err e
  | Panic p => Panic p
  end.

(** ** The server's end: serveHTTP *)

Abbreviation pconn := (QueuePacketConn (Addr := bytes)).

(** [s.pconn.QueueIncoming(p, clientID)], with no other goroutine in between. *)
Definition QueueIncoming (c : pconn) (p clientID : bytes) : pconn :=
  let x := Choice 0%Z false in
  match thread_step x c (QI_start p clientID) with
  | Some (c1, t, _) => match thread_step x c1 t with Some (c2, _, _) => c2 | None => c1 end
  | None => c
  end.

(** The reading goroutine: until [ReadData] fails. *)
Fixpoint serve_read (fuel : nat) (clientID : bytes) (c : pconn) (r : reader) : res error * pconn :=
  match fuel with
  | O => (Panic "out of fuel", c)
  | S fuel' =>
      match ReadData r with
      | (Ret p, r') => serve_read fuel' clientID (QueueIncoming c p clientID) r'
      | (Err e, _) => (Ret e, c)
      | (Panic w, _) => (Panic w, c)
      end
  end.

(** The writing goroutine, on the packets it takes from the client's queue. *)
Fixpoint serve_write (ps : list bytes) (bw : bufio_writer) : option error * bufio_writer :=
  match ps with
  | [] => (None, bw)
  | p :: ps' =>
      match WriteData p bw with
      | (_, Some e, bw1) => (Some e, bw1)
      | (_, None, bw1) =>
          match bw_Flush bw1 with
          | (Some e, bw2) => (Some e, bw2)
          | (None, bw2) => serve_write ps' bw2
          end
      end
  end.

(** The handler up to the end of its reading goroutine: the client it served, if the
    connection opted into turbotunnel, and the error that ended it. *)
Definition serveHTTP (c : pconn) (r : reader) : option (bytes * res error) * pconn :=
  match ReadFull 8 r with
  | (Ret token, r1) =>
      if decide (token = Token) then
        match ReadFull 8 r1 with
        | (Ret clientID, r2) =>
            let '(e, c') := serve_read (S (length (flat r2))) clientID c r2 in (Some (clientID, e), c')
        | _ => (None, c)
        end
      else (None, c)
  | _ => (None, c)
  end.

(** ** Lemmas *)

Lemma QueueIncoming_ok (c : pconn) (p id : bytes) :
  qc_closed c = false -> length (qc_recvQueue c) < queueSize ->
  qc_recvQueue (QueueIncoming c p id) = qc_recvQueue c ++ [(p, id)] /\
  qc_closed (QueueIncoming c p id) = false.
Proof. intros Hc Hl. unfold QueueIncoming. cbn. rewrite Hc. cbn. by rewrite decide_True. Qed.

(** A chunk takes at least one byte. *)
Lemma encodes_length bs ds : encodes bs ds -> length ds <= length bs.
Proof.
  induction 1 as [|pads pfx data rest ds _ Hp _ IH]; cbn; [lia|].
  apply len_prefix_range in Hp as [_ Hp]. rewrite !length_app. lia.
Qed.

Lemma serve_read_ok bs ds : encodes bs ds -> forall fuel id (c : pconn) e r,
  length ds < fuel -> delivers bs e r -> qc_closed c = false ->
  length (qc_recvQueue c) + length ds <= queueSize ->
  exists c', serve_read fuel id c r = (Ret e, c') /\
    qc_recvQueue c' = qc_recvQueue c ++ ((fun p => (p, id)) <$> ds).
Proof.
  induction 1 as [pads Hp|pads pfx data rest ds Hp Hd Hr IH]; intros [|fuel] id c e r Hf Hdel Hc Hl;
    cbn [length] in Hf, Hl; try lia; cbn [serve_read].
  - destruct (ReadData_end pads e r Hp Hdel) as [r' ->]. exists c. by rewrite app_nil_r.
  - destruct (ReadData_data _ _ _ _ _ _ Hp Hd Hdel) as (r1 & -> & Hdel1).
    destruct (QueueIncoming_ok c data id Hc) as [Hq Hc']; [lia|].
    destruct (IH fuel id (QueueIncoming c data id) e r1) as (c' & E & Hq'); [lia|done|done| |].
    + rewrite Hq, length_app. cbn. lia.
    + exists c'. split; [done|]. by rewrite Hq', Hq, <- app_assoc.
Qed.

Lemma serve_read_ends (fuel : nat) (id : bytes) (c : pconn) r :
  nonempty_reads r -> length (flat r) < fuel -> exists e c', serve_read fuel id c r = (Ret e, c').
Proof.
  revert c r. induction fuel as [|fuel IH]; intros c r Hne Hf; [lia|]. cbn [serve_read].
  destruct (ReadData_cases r Hne) as (pads & tl & r' & _ & Hfl &
    [[_ ->]|[(pfx & data & rest & -> & Hp & -> & (Hr & _ & Hn'))|[[_ ->]|[_ ->]]]]); eauto.
  apply IH; [done|]. apply len_prefix_range in Hp as [_ Hp]. rewrite Hr.
  rewrite Hfl, !length_app in Hf. lia.
Qed.

Lemma serve_write_WriteTo ps addr (c : EncapsulationPacketConn unit) :
  (serve_write ps (ec_bw c)).1 = (WriteTo_all ps addr c).1 /\
  (serve_write ps (ec_bw c)).2 = ec_bw (WriteTo_all ps addr c).2.
Proof.
  revert c. induction ps as [|p ps IH]; intros c; [done|]. cbn. unfold WriteTo.
  destruct (WriteData p (ec_bw c)) as [[n [e|]] bw]; [done|].
  destruct (bw_Flush bw) as [[e|] bw']; [done|].
  apply (IH (EncapConn (ec_in c) (ec_localAddr c) (ec_remoteAddr c) bw')).
Qed.

(** ** Properties *)


(** C8. From the server's queue to the client's ReadFrom.  The server's writing
    goroutine sends a packet exactly as the client's WriteTo does (same bytes, same
    errors), and the packets it sent without error are those the client's ReadFrom
    returns from its WebSocket, in order, whatever the sizes of the messages. *)
Theorem carrier_down ps (w : writer) (addr : unit) (rd : reader) :
  let c := NewEncapsulationPacketConn addr addr (rd, w) in
  (serve_write ps (NewWriter w)).1 = (WriteTo_all ps addr c).1 /\
  (serve_write ps (NewWriter w)).2 = ec_bw (WriteTo_all ps addr c).2 /\
  ((serve_write ps (NewWriter w)).1 = None ->
   exists bs, w_out (bw_wr (serve_write ps (NewWriter w)).2) = w_out w ++ bs /\
     forall close_code msgs fin k w', concat (data_messages msgs) = bs ->
       exists peer', ReadFrom_all (length ps) k
           (NewEncapsulationPacketConn addr addr (New_reader close_code msgs fin, w'))
         = (Some (take k <$> ps), peer')).
Proof.
  intros c. destruct (serve_write_WriteTo ps addr c) as [E1 E2]. cbn [ec_bw c NewEncapsulationPacketConn snd] in E1, E2.
  split_and!; [done|done|]. intros Hn. rewrite E2. rewrite E1 in Hn.
  destruct (WriteTo_all ps addr c) as [o c'] eqn:E. cbn in Hn. subst o.
  apply WriteTo_all_none in E as (bs & Hw & Henc); [|split; [split; [done|cbn; lia]|done]].
  exists bs. split; [exact Hw|]. intros close_code msgs fin k w' Hms.
  pose proof (New_reader_delivers close_code msgs fin) as Hdel.
  rewrite <- concat_data_messages, Hms in Hdel. by eapply ReadFrom_all_encodes.
Qed.

(** The token is a gate: a connection that does not begin with the sixteen bytes
    of a token and an identifier puts nothing into the server's queues, whatever else
    it sends, and the handler always ends when its input does. *)
Theorem carrier_gate (q : pconn) r :
  nonempty_reads r ->
  (serveHTTP q r = (None, q) /\ ~ (take 8 (flat r) = Token /\ 16 <= length (flat r))) \/
  exists e q', serveHTTP q r = (Some (take 8 (drop 8 (flat r)), Ret e), q') /\
    take 8 (flat r) = Token /\ 16 <= length (flat r).
Proof.
  intros Hne. unfold serveHTTP.
  destruct (ReadFull_cases r 8) as [(tok & s1 & r1 & Hf & Hl & -> & H1 & _ & Hn1)|(Hl & r1 & -> & _)];
    [|left; split; [done|lia]].
  rewrite Hf, <- Hl, take_app_length, drop_app_length, Hl, length_app.
  destruct (decide (tok = Token)) as [Ht|Ht]; [|left; split; [done|tauto]].
  destruct (ReadFull_cases r1 8) as [(id & s2 & r2 & Hf2 & Hl2 & -> & H2 & _ & Hn2)|(Hl2 & r2 & -> & _)];
    rewrite H1 in *; [|left; split; [done|lia]].
  destruct (serve_read_ends (S (length (flat r2))) id q r2) as (e & q' & ->); [auto|lia|].
  right. exists e, q'. subst s1. rewrite Hf2, length_app, take_app_length' by done. split_and!; [done|done|lia].
Qed.

Definition demo_dial : res (EncapsulationPacketConn unit) :=
  WrapWebSocketDial (s2b "client-1") (Ret (Reader [] EOF, Writer [] None EOF)).
Definition demo_client : EncapsulationPacketConn unit :=
  match demo_dial with Ret c => c | _ => sample_conn end.


Definition demo_request : reader :=
  Reader [take 3 Token; drop 3 Token ++ s2b "client-1"; [Byte.x81; Byte.x61]] EOF.

Lemma carrier_gate_witness :
  (serveHTTP NewQueuePacketConn demo_request = (None, NewQueuePacketConn) /\
     ~ (take 8 (flat demo_request) = Token /\ 16 <= length (flat demo_request))) \/
  exists e q', serveHTTP NewQueuePacketConn demo_request =
      (Some (take 8 (drop 8 (flat demo_request)), Ret e), q') /\
    take 8 (flat demo_request) = Token /\ 16 <= length (flat demo_request).
Proof. apply carrier_gate. repeat constructor; discriminate. Defined.
