(* ===== verification/SfLink.v ===== *)
(** * One direction of a snowflake connection (snowflake/common/standalone, encapsulation)

    A sender puts packets on a byte stream, each through a [bufio.Writer] that it flushes
    ([WriteTo] at the client, the writing goroutine of [serveHTTP] at the server); the
    stream may break at any byte.  A receiver calls [ReadData] on what has arrived so far.
    The invariant [lane] relates the packets the sender has tried to send, the bytes
    written and consumed, and the packets received; it is used for both directions by
    [SfJoint]. *)
From S2P Require Import Prelude GoIO Encapsulation EncapConn Carrier.

(** ** bufio.Writer, whatever the outcome *)

(** Bytes are only added to the stream, in the order in which they were handed over. *)
Definition grows (b : bufio_writer) (p : bytes) (b' : bufio_writer) : Prop :=
  w_out (bw_wr b) `prefix_of` w_out (bw_wr b') /\ w_out (bw_wr b') `prefix_of` bw_pending b ++ p.

Lemma bw_Flush_grows b o b' :
  bw_Flush b = (o, b') -> grows b [] b' /\ bw_pending b' = bw_pending b /\ o = bw_err b'.
Proof.
  unfold bw_Flush, grows, bw_pending. rewrite app_nil_r. destruct (bw_err b) as [e|] eqn:He.
  { intros [= <- <-]. split_and!; [done|by apply prefix_app_r|done|done]. }
  case_decide as Hb; [intros [= <- <-]; split_and!; [done|by apply prefix_app_r|done|done]|].
  destruct (write (bw_buf b) (bw_wr b)) as [[n e] w'] eqn:E. apply write_prefix in E as (Ho & Hl & Hi & _).
  assert (H1 : w_out (bw_wr b) `prefix_of` w_out w') by (rewrite Ho; by apply prefix_app_r).
  assert (H2 : w_out w' ++ drop n (bw_buf b) = w_out (bw_wr b) ++ bw_buf b) by (by rewrite Ho, <- app_assoc, take_drop).
  assert (H3 : w_out w' `prefix_of` w_out (bw_wr b) ++ bw_buf b) by (rewrite <- H2; by apply prefix_app_r).
  case_decide; [by intros [= <- <-]|]. rewrite drop_ge, app_nil_r in H2 by lia.
  destruct e; intros [= <- <-]; split_and!; try done; cbn; [by rewrite drop_ge, app_nil_r by lia|by rewrite app_nil_r].
Qed.

Lemma bw_Write_loop_grows fuel nn p b n o b' :
  bw_Write_loop fuel nn p b = (n, o, b') -> grows b p b'.
Proof.
  revert nn p b. induction fuel as [|fuel IH]; intros nn p b E; cbn [bw_Write_loop] in E.
  { injection E as <- <- <-. split; [done|]. unfold bw_pending. rewrite <- app_assoc. by apply prefix_app_r. }
  case_decide as Hd.
  - destruct Hd as [Hd He]. case_decide as Hb.
    + destruct (write p (bw_wr b)) as [[m e] w'] eqn:Ew. apply write_prefix in Ew as (Ho & Hl & _ & _).
      apply IH in E as [E1 E2]. unfold grows, bw_pending in *. cbn in *. rewrite Hb, app_nil_r in *.
      rewrite Ho in E1, E2. split; [etrans; [|exact E1]; by apply prefix_app_r|].
      by rewrite <- app_assoc, take_drop in E2.
    + destruct (bw_Flush _) as [o1 b1] eqn:Ef. apply bw_Flush_grows in Ef as ([F1 _] & Fp & _).
      apply IH in E as [E1 E2]. split; [by etrans|]. rewrite Fp in E2. unfold bw_pending in *. cbn in *.
      by rewrite <- !app_assoc, take_drop, app_assoc in E2.
  - destruct (bw_err b) as [e|]; injection E as <- <- <-; (split; [done|]); unfold bw_pending; cbn;
      rewrite <- ?app_assoc; by apply prefix_app_r.
Qed.

(** The turns the loop still needs. *)
Definition turns (p : bytes) (b : bufio_writer) : nat :=
  if decide (bufSize - length (bw_buf b) < length p /\ bw_err b = None)
  then (if decide (bw_buf b = []) then 2 else 3) else 1.

Lemma turns_err p b e : bw_err b = Some e -> turns p b = 1.
Proof. intros He. unfold turns. by rewrite decide_False by (intros [_ ?]; congruence). Qed.

(** A [Write] that fails has recorded its error. *)
Lemma bw_Write_loop_records fuel nn p b n e b' :
  turns p b <= fuel -> bw_Write_loop fuel nn p b = (n, Some e, b') -> bw_err b' = Some e.
Proof.
  revert nn p b. induction fuel as [|fuel IH]; intros nn p b Ht E.
  { unfold turns in Ht. repeat case_decide; lia. }
  cbn [bw_Write_loop] in E. unfold turns in Ht. case_decide as Hd.
  - case_decide as Hb.
    + destruct (write p (bw_wr b)) as [[m o] w'] eqn:Ew. apply write_prefix in Ew as (_ & Hl & Hi & _).
      apply IH in E; [done|]. destruct o as [e1|]; [erewrite turns_err by done; lia|].
      unfold turns. rewrite decide_False; [lia|]. rewrite length_drop. intros [? _].
      destruct Hi as [Hi _]. specialize (Hi eq_refl). lia.
    + destruct (bw_Flush _) as [[e1|] b1] eqn:Ef; (apply IH in E; [done|]).
      * apply bw_Flush_err in Ef. erewrite turns_err by done. lia.
      * apply bw_Flush_none in Ef as (_ & Hb1 & _). unfold turns. rewrite (decide_True (P := bw_buf b1 = [])) by done.
        case_decide; lia.
  - destruct (bw_err b) as [e1|] eqn:He; [|done]. by injection E as <- <- <-.
Qed.

Lemma bw_Write_records p b n e b' : bw_Write p b = (n, Some e, b') -> bw_err b' = Some e.
Proof. apply bw_Write_loop_records. unfold turns. repeat case_decide; lia. Qed.

(** ** Sending a packet *)

(** Between packets the buffer is empty, or an error has been recorded. *)
Definition idle (b : bufio_writer) : Prop := bw_ready b /\ bw_buf b = [].
Definition broken (b : bufio_writer) : Prop := is_Some (bw_err b).

Lemma send_broken p b : broken b -> (serve_write [p] b).2 = b.
Proof.
  intros [e He]. cbn. unfold WriteData. destruct (dataPrefixForLength (len p)) as [pfx| |]; try done.
  - unfold io_write, bufio_IOWriter. by rewrite (bw_Write_sticky _ _ _ He).
  - unfold bw_Flush. by rewrite He.
Qed.

(** From an empty buffer: the packet goes out as one chunk; or it is too long and nothing
    happens; or a part of the chunk goes out and the writer is broken. *)
Lemma send_idle p b o b' :
  idle b -> serve_write [p] b = (o, b') ->
  (b' = b /\ is_Some o) \/
  exists pfx t, len_prefix true (len p) pfx /\ w_out (bw_wr b') = w_out (bw_wr b) ++ t /\ t `prefix_of` pfx ++ p /\
    (o = None /\ idle b' /\ t = pfx ++ p \/ broken b').
Proof.
  intros [Hr Hb] E. cbn in E. unfold WriteData in E. pose proof (len_nonneg p).
  destruct (decide (len p < 2 ^ 20)%Z); [|rewrite dataPrefix_too_long in E by lia; left; by injection E as <- <-].
  destruct (dataPrefix_ok (len p) ltac:(lia)) as (pfx & Ep & Hp & _). rewrite Ep in E. right. exists pfx.
  assert (Hout : forall b2, w_out (bw_wr b) `prefix_of` w_out (bw_wr b2) -> w_out (bw_wr b2) `prefix_of` w_out (bw_wr b) ++ pfx ++ p ->
    exists t, w_out (bw_wr b2) = w_out (bw_wr b) ++ t /\ t `prefix_of` pfx ++ p).
  { intros b2 [t Ht] Hpre. exists t. split; [done|]. rewrite Ht in Hpre. by apply prefix_app_inv in Hpre. }
  assert (Hpend : bw_pending b = w_out (bw_wr b)) by (unfold bw_pending; by rewrite Hb, app_nil_r).
  unfold io_write, bufio_IOWriter in E.
  destruct (bw_Write pfx b) as [[n1 [e1|]] b1] eqn:E1.
  { injection E as <- <-. pose proof (bw_Write_records _ _ _ _ _ E1) as Hrec. apply bw_Write_loop_grows in E1 as [G1 G2].
    rewrite Hpend in G2. destruct (Hout b1 G1) as (t & ? & ?); [etrans; [exact G2|]; rewrite app_assoc; by apply prefix_app_r|].
    exists t. split_and!; [done..|]. right. by exists e1. }
  pose proof (bw_Write_loop_grows _ _ _ _ _ _ _ E1) as [G1 _]. apply bw_Write_loop_none in E1 as (_ & Hp1 & Hr1); [|done].
  rewrite Hpend in Hp1. destruct (bw_Write p b1) as [[n2 [e2|]] b2] eqn:E2.
  { injection E as <- <-. pose proof (bw_Write_records _ _ _ _ _ E2) as Hrec. apply bw_Write_loop_grows in E2 as [G3 G4].
    rewrite Hp1, <- app_assoc in G4. destruct (Hout b2) as (t & ? & ?); [by etrans|done|].
    exists t. split_and!; [done..|]. right. by exists e2. }
  pose proof (bw_Write_loop_grows _ _ _ _ _ _ _ E2) as [G3 _]. apply bw_Write_loop_none in E2 as (_ & Hp2 & Hr2); [|done].
  rewrite Hp1, <- app_assoc in Hp2. destruct (bw_Flush b2) as [[e3|] b3] eqn:E3; injection E as <- <-.
  - pose proof (bw_Flush_err _ _ _ E3) as Hrec. apply bw_Flush_grows in E3 as ([G5 G6] & _ & _). rewrite app_nil_r, Hp2 in G6.
    destruct (Hout b3) as (t & ? & ?); [by do 2 (etrans; [done|])|done|]. exists t. split_and!; [done..|]. right. by exists e3.
  - apply bw_Flush_none in E3 as (Hr3 & Hb3 & Ho3). exists (pfx ++ p). rewrite Ho3, Hp2. split_and!; [done..|]. by left.
Qed.

(** [WriteTo] of the client is the same code. *)
Lemma WriteTo_send {A} p (a : A) c n o c' :
  WriteTo p a c = (n, o, c') -> serve_write [p] (ec_bw c) = (o, ec_bw c').
Proof.
  unfold WriteTo. cbn. destruct (WriteData p (ec_bw c)) as [[m [e|]] b1]; [by intros [= <- <- <-]|].
  destruct (bw_Flush b1) as [[e|] b2]; by intros [= <- <- <-].
Qed.

(** ** Receiving a packet *)

Lemma bytewise_delivers bs : delivers bs EOF (Reader ((fun b => [b]) <$> bs) EOF).
Proof.
  split_and!; [|done|].
  - unfold flat. cbn. induction bs as [|b bs IH]; [done|]. cbn. by rewrite IH.
  - unfold nonempty_reads. cbn. apply Forall_fmap, list.Forall_true. done.
Qed.

(** On a prefix of a stream of chunks, [ReadData] returns the next packet if it returns one. *)
Lemma ReadData_next rest ps r p r' :
  encodes rest ps -> nonempty_reads r -> flat r `prefix_of` rest -> ReadData r = (Ret p, r') ->
  exists mid ps' rest', ps = p :: ps' /\ rest = mid ++ rest' /\ flat r = mid ++ flat r' /\ encodes rest' ps'.
Proof.
  intros He Hne [more Hmore] E.
  destruct (ReadData_cases r Hne) as (pads & tl & r1 & Hpads & Hfl & Hcase). rewrite E in Hcase.
  destruct Hcase as [[_ ?]|[(pfx & data & tl' & -> & Hpfx & [= <- <-] & (Hr' & _))|[[_ ?]|[_ ?]]]]; try done.
  pose proof (bytewise_delivers rest) as Hdel. set (rx := Reader _ _) in Hdel.
  assert (Hrest : rest = pads ++ pfx ++ p ++ tl' ++ more) by (by rewrite Hmore, Hfl, <- !app_assoc).
  destruct (ReadData_data pads pfx p (tl' ++ more) EOF rx) as (r2 & E2 & (Hf2 & _)); [done|done|by rewrite <- Hrest|].
  destruct He as [pads' Hp'|pads' pfx' data' rest' ps' Hp' Hpfx' He'].
  { destruct (ReadData_end pads' EOF rx Hp' Hdel) as [r3 E3]. congruence. }
  destruct (ReadData_data pads' pfx' data' rest' EOF rx) as (r3 & E3 & (Hf3 & _)); [done..|].
  rewrite E2 in E3. injection E3 as <- <-. rewrite Hf2 in Hf3. subst rest'.
  exists (pads ++ pfx ++ p), ps', (tl' ++ more). split_and!; [done|rewrite <- !app_assoc; exact Hrest|by rewrite Hfl, Hr', <- !app_assoc|done].
Qed.

(** ** The invariant of a direction *)

(** [hd] is what the connection starts with (the preamble or nothing), [b] the sender's
    writer, [tried] the packets it was given, [n] the bytes after [hd] that the receiver
    has consumed and [got] the packets it has received. *)
Record lane (hd : bytes) (b : bufio_writer) (tried : list bytes) (n : nat) (got : list bytes) : Prop := {
  lane_writer : idle b \/ broken b;
  lane_stream : exists body mid rest ps,
    w_out (bw_wr b) = hd ++ body /\ body `prefix_of` mid ++ rest /\ (idle b -> body = mid ++ rest) /\
    length mid = n /\ encodes rest ps /\ (got ++ ps) `sublist_of` tried }.

Lemma lane_new hd room e : lane hd (NewWriter (Writer hd room e)) [] 0 [].
Proof.
  split; [left; split; [split; [done|cbn; lia]|done]|]. exists [], [], [], []. cbn. rewrite app_nil_r.
  split_and!; try done. apply encodes_nil. constructor.
Qed.

(** A packet that is given up adds nothing. *)
Lemma lane_lose hd b tried n got p : lane hd b tried n got -> lane hd b (tried ++ [p]) n got.
Proof.
  intros [Hw (body & mid & rest & ps & H1 & H2 & H3 & H4 & H5 & H6)]. split; [done|].
  exists body, mid, rest, ps. split_and!; try done. by apply sublist_inserts_r.
Qed.

Lemma lane_send hd b tried n got p :
  lane hd b tried n got -> lane hd (serve_write [p] b).2 (tried ++ [p]) n got.
Proof.
  intros Hl. destruct (lane_writer _ _ _ _ _ Hl) as [Hi|Hb]; [|rewrite send_broken by done; by apply lane_lose].
  destruct (serve_write [p] b) as [o b'] eqn:E. destruct (send_idle _ _ _ _ Hi E) as [[-> _]|(pfx & t & Hp & Ho & Ht & Hcase)];
    [by apply lane_lose|].
  destruct Hl as [_ (body & mid & rest & ps & H1 & _ & H3 & H4 & H5 & H6)]. specialize (H3 Hi). subst body. cbn [snd]. split.
  - destruct Hcase as [(_ & ? & _)|?]; by auto.
  - exists ((mid ++ rest) ++ t), mid, (rest ++ pfx ++ p), (ps ++ [p]). split_and!.
    + by rewrite Ho, H1, <- app_assoc.
    + rewrite app_assoc. by apply prefix_app.
    + intros Hi'. destruct Hcase as [(_ & _ & ->)|[e He]]; [by rewrite <- !app_assoc|].
      destruct Hi' as [[Hn _] _]. congruence.
    + done.
    + apply encodes_app; [done|]. rewrite <- (app_nil_r (pfx ++ p)), <- app_assoc.
      apply (encodes_cons [] pfx p [] []); [constructor|done|]. apply encodes_nil. constructor.
    + rewrite app_assoc. by apply sublist_app.
Qed.

(** What has arrived at the receiver: the next bytes of the stream, in pieces. *)
Definition arrives (hd : bytes) (b : bufio_writer) (n : nat) (chunks : list bytes) : Prop :=
  Forall (fun c => c <> []) chunks /\ concat chunks `prefix_of` drop (length hd + n) (w_out (bw_wr b)).

Lemma lane_receive hd b tried n got chunks e p r' :
  lane hd b tried n got -> arrives hd b n chunks -> ReadData (Reader chunks e) = (Ret p, r') ->
  lane hd b tried (n + (length (concat chunks) - length (flat r'))) (got ++ [p]).
Proof.
  intros [Hw (body & mid & rest & ps & H1 & H2 & H3 & H4 & H5 & H6)] [Hne Hpre] E. split; [done|].
  rewrite H1, <- drop_drop, drop_app_length in Hpre.
  assert (Hpre' : concat chunks `prefix_of` rest).
  { etrans; [exact Hpre|]. apply (prefix_drop n) in H2. rewrite <- H4 in H2 |- *. by rewrite drop_app_length in H2. }
  destruct (ReadData_next rest ps (Reader chunks e) p r' H5 Hne Hpre' E) as (m & ps' & rest' & -> & -> & Hfl & He').
  unfold flat in Hfl at 1. cbn in Hfl.
  exists body, (mid ++ m), rest', ps'. rewrite <- !app_assoc. split_and!; try done.
  rewrite length_app, Hfl, length_app, H4. lia.
Qed.
