(* ===== verification/SfJoint.v ===== *)
(** * A snowflake client and the server, together
      (snowflake/common/turbotunnel, snowflake/common/standalone)

    The machine of the client's RedialPacketConn ([Redial]) and the machine of the server's
    handlers ([WsHandler]) run side by side, joined by the WebSockets that the client dials:
    what its goroutines write with [WriteTo], after the preamble of [WrapWebSocketDial],
    is what [serveHTTP] reads, and what the writing goroutine of [serveHTTP] writes is
    what [ReadFrom] of the client reads.  A WebSocket delivers bytes in any pieces, with any
    delay, and fails at any byte; other clients, KCP at both ends, Close and the expiry of client
    entries act at any time. *)
From S2P Require Import Prelude Threads GoIO Encapsulation EncapConn ClientMap QueueConn WsHandler Redial Carrier SfLink.

(** The [i]-th WebSocket of the client is [inl i] at the server; [inr n] are others. *)
Abbreviation K := (nat + nat)%type.
Abbreviation csystem := (system RedialPacketConn Redial.pc).
Abbreviation ssystem := (system (WsHandler.Server (K := K)) (WsHandler.pc (K := K))).
Abbreviation cturn := (turn (Pc := Redial.pc) (Ch := Redial.choice)).
Abbreviation sturn := (turn (Pc := WsHandler.pc (K := K)) (Ch := WsHandler.choice)).

(** A WebSocket: the client's packet connection, the writer of the server's goroutine, the
    bytes consumed by the server and by the client, and the packets [ReadFrom] returned. *)
Record link := Link {
  lk_conn : EncapsulationPacketConn unit; lk_bw : bufio_writer;
  lk_up : nat; lk_down : nat; lk_got : list bytes }.

Record joint := Joint {
  j_cli : csystem; j_ctr : list Redial.event;
  j_srv : ssystem; j_str : list (WsHandler.event (K := K));
  j_links : list link }.

Inductive jact :=
  | Cli (a : cturn)                            (* a call, or a step that uses no network *)
  | Srv (a : sturn)
  | Dial (t : nat) (ws : res (option nat * option nat))  (* dialContext; the room each way *)
  | CWrite (t : nat)                           (* WriteTo of the client *)
  | CRead (t : nat) (chunks : list bytes) (e : error)    (* ReadFrom, on what has arrived *)
  | SHello (t : nat) (chunks : list bytes) (e : error)   (* the preamble at the server *)
  | SRead (t : nat) (chunks : list bytes) (e : error)    (* ReadData at the server *)
  | SWrite (t : nat).                          (* WriteData and Flush at the server *)

Section Joint.
Context (clientID : bytes).

(** The client or the server makes a turn. *)
Definition cli_do (a : cturn) (j : joint) : option joint :=
  match play [a] (j_cli j) with
  | Some (evs, s) => Some (Joint s (j_ctr j ++ evs) (j_srv j) (j_str j) (j_links j))
  | None => None
  end.
Definition srv_do (a : sturn) (j : joint) : option joint :=
  match play [a] (j_srv j) with
  | Some (evs, s) => Some (Joint (j_cli j) (j_ctr j) s (j_str j ++ evs) (j_links j))
  | None => None
  end.

Definition set_links (l : list link) (j : joint) : joint := Joint (j_cli j) (j_ctr j) (j_srv j) (j_str j) l.
Definition set_link (i : nat) (l : link) (j : joint) : joint := set_links (<[i := l]> (j_links j)) j.

(** The steps that take part in the joints: successful reads and writes of the WebSockets.
    That they fail is possible at any time, and other connections do not announce our
    identifier. *)
Definition cli_local (x : Redial.choice) (t : Redial.pc) : bool :=
  match t with
  | DL_dial => match ch_dial x with Some None => false | _ => true end
  | RD_read _ => match ch_read x with Some (Ret _) => false | _ => true end
  | WR_write _ _ => match ch_write x with Some None => false | _ => true end
  | _ => true
  end.

Definition srv_local (x : WsHandler.choice) (t : WsHandler.pc (K := K)) : bool :=
  match t with
  | SV_preamble (inl _) => match x_preamble x with Some (Some _) => false | _ => true end
  | SV_preamble (inr _) => match x_preamble x with Some (Some id) => negb (bool_decide (id = clientID)) | _ => true end
  | SR_read (inl _) _ => match WsHandler.x_read x with Some (Ret _) => false | _ => true end
  | SW_write (inl _) _ _ _ => match WsHandler.x_write x with Some None => false | _ => true end
  | _ => true
  end.

Definition cli_allowed (a : cturn) (j : joint) : bool :=
  match a with Enter _ => true | Turn i x => match pool (j_cli j) !! i with Some t => cli_local x t | None => false end end.
Definition srv_allowed (a : sturn) (j : joint) : bool :=
  match a with Enter _ => true | Turn i x => match pool (j_srv j) !! i with Some t => srv_local x t | None => false end end.

Definition dialed (o : option error) : Redial.choice := Redial.Choice 0 (Some o) None None.
Definition has_read (r : res bytes) : Redial.choice := Redial.Choice 0 None (Some r) None.
Definition has_written (o : option error) : Redial.choice := Redial.Choice 0 None None (Some o).
Definition s_preamble (o : option bytes) : WsHandler.choice := WsHandler.Choice (QueueConn.Choice 0 false) (Some o) None None.
Definition s_read (r : res bytes) : WsHandler.choice := WsHandler.Choice (QueueConn.Choice 0 false) None (Some r) None.
Definition s_written (o : option error) : WsHandler.choice := WsHandler.Choice (QueueConn.Choice 0 false) None None (Some o).

(** The preamble: the identifier, if the token is right, and the reader behind it. *)
Definition read_preamble (r : reader) : option (bytes * reader) :=
  match ReadFull 8 r with
  | (Ret token, r1) =>
      if decide (token = Token) then
        match ReadFull 8 r1 with (Ret id, r2) => Some (id, r2) | _ => None end
      else None
  | _ => None
  end.

(** [chunks] are the next bytes after the first [n] of a stream. *)
Definition next_bytes (out : bytes) (n : nat) (chunks : list bytes) : bool :=
  bool_decide (Forall (fun c => c <> []) chunks) &&
  bool_decide (take (length (concat chunks)) (drop n out) = concat chunks).

(** The bytes of [chunks] that have been read. *)
Definition consumed (chunks : list bytes) (r : reader) : nat := length (concat chunks) - length (flat r).

Definition up_stream (l : link) : bytes := w_out (bw_wr (ec_bw (lk_conn l))).
Definition down_stream (l : link) : bytes := w_out (bw_wr (lk_bw l)).

Definition jstep (a : jact) (j : joint) : option joint :=
  match a with
  | Cli a => if cli_allowed a j then cli_do a j else None
  | Srv a => if srv_allowed a j then srv_do a j else None
  | Dial t ws =>
      match pool (j_cli j) !! t with
      | Some DL_dial =>
          match ws with
          | Ret (up, down) =>
              match WrapWebSocketDial clientID (Ret (Reader [] EOF, Writer [] up (ErrIO 0))) with
              | Ret c =>
                  cli_do (Turn t (dialed None))
                    (set_links (j_links j ++ [Link c (NewWriter (Writer [] down (ErrIO 0))) 0 0 []]) j)
              | Err e => cli_do (Turn t (dialed (Some e))) j
              | Panic _ => None
              end
          | Err e => cli_do (Turn t (dialed (Some e))) j
          | Panic _ => None
          end
      | _ => None
      end
  | CWrite t =>
      match pool (j_cli j) !! t with
      | Some (WR_write i p) =>
          match j_links j !! i with
          | Some l =>
              match WriteTo p tt (lk_conn l) with
              | (_, o, c) =>
                  cli_do (Turn t (has_written o)) (set_link i (Link c (lk_bw l) (lk_up l) (lk_down l) (lk_got l)) j)
              end
          | None => None
          end
      | _ => None
      end
  | CRead t chunks e =>
      match pool (j_cli j) !! t with
      | Some (RD_read i) =>
          match j_links j !! i with
          | Some l =>
              if next_bytes (down_stream l) (lk_down l) chunks then
                match ReadFrom readBufSize (EncapConn (Reader chunks e) tt tt (ec_bw (lk_conn l))) with
                | (Ret p, _, c) =>
                    cli_do (Turn t (has_read (Ret p)))
                      (set_link i (Link (lk_conn l) (lk_bw l) (lk_up l)
                        (lk_down l + consumed chunks (ec_in c)) (lk_got l ++ [p])) j)
                | (r, _, _) => cli_do (Turn t (has_read r)) j
                end
              else None
          | None => None
          end
      | _ => None
      end
  | SHello t chunks e =>
      match pool (j_srv j) !! t with
      | Some (SV_preamble (inl i)) =>
          match j_links j !! i with
          | Some l =>
              if next_bytes (up_stream l) (lk_up l) chunks then
                match read_preamble (Reader chunks e) with
                | Some (id, r) =>
                    srv_do (Turn t (s_preamble (Some id)))
                      (set_link i (Link (lk_conn l) (lk_bw l) (lk_up l + consumed chunks r) (lk_down l) (lk_got l)) j)
                | None => srv_do (Turn t (s_preamble None)) j
                end
              else None
          | None => None
          end
      | _ => None
      end
  | SRead t chunks e =>
      match pool (j_srv j) !! t with
      | Some (SR_read (inl i) _) =>
          match j_links j !! i, is_closed (shared (j_srv j)) (inl i) with
          | Some l, false =>
              if next_bytes (up_stream l) (lk_up l) chunks then
                match ReadData (Reader chunks e) with
                | (Ret p, r) =>
                    srv_do (Turn t (s_read (Ret p)))
                      (set_link i (Link (lk_conn l) (lk_bw l) (lk_up l + consumed chunks r) (lk_down l) (lk_got l)) j)
                | (o, _) => srv_do (Turn t (s_read o)) j
                end
              else None
          | _, _ => None
          end
      | _ => None
      end
  | SWrite t =>
      match pool (j_srv j) !! t with
      | Some (SW_write (inl i) _ _ p) =>
          match j_links j !! i, is_closed (shared (j_srv j)) (inl i) with
          | Some l, false =>
              match serve_write [p] (lk_bw l) with
              | (o, b) =>
                  srv_do (Turn t (s_written o)) (set_link i (Link (lk_conn l) b (lk_up l) (lk_down l) (lk_got l)) j)
              end
          | _, _ => None
          end
      | _ => None
      end
  end.

Fixpoint jrun (l : list jact) (j : joint) : option joint :=
  match l with [] => Some j | a :: l' => j' ← jstep a j; jrun l' j' end.

(** [NewRedialPacketConn] at the client, [NewServer] at the server, and no WebSocket. *)
Definition started : joint := Joint NewRedialPacketConn [] WsHandler.NewServer [] [].
End Joint.

(** ** What happened at the two ends *)

Abbreviation cevent := Redial.event.
Abbreviation sevent := (WsHandler.event (K := K)).

(** The client took a packet for a WebSocket, tried to write it, received one. *)
Definition took (e : cevent) : option (nat * bytes) := match e with Taking i p => Some (i, p) | _ => None end.
Definition tried (e : cevent) : option (nat * bytes) :=
  match e with Sent i p | Lost i p => Some (i, p) | _ => None end.
Definition arrived_at (e : cevent) : option (nat * bytes) := match e with Arrived i p => Some (i, p) | _ => None end.
Definition writing (t : Redial.pc) : option (nat * bytes) := match t with WR_write i p => Some (i, p) | _ => None end.
Definition pushing (t : Redial.pc) : option (nat * bytes) := match t with RD_push i p => Some (i, p) | _ => None end.

(** The server took a packet for one of the client's WebSockets, dealt with it, accepted one. *)
Definition s_took (e : sevent) : option (nat * bytes) :=
  match e with Queue (Handler (inl i)) (QueueConn.Taken _ p) => Some (i, p) | _ => None end.
Definition handled (e : sevent) : option (nat * bytes) :=
  match e with Wrote (inl i) p | Failed (inl i) p => Some (i, p) | _ => None end.
Definition s_writing (t : WsHandler.pc (K := K)) : option (nat * bytes) :=
  match t with SW_write (inl i) _ _ p => Some (i, p) | _ => None end.

Lemma tried_took tr s :
  Redial.reachable tr s -> omap took tr ≡ₚ omap tried tr ++ omap writing (pool s).
Proof.
  apply (accounts_moves took tried writing _ (fun _ => True)); [by intros; apply list.Forall_true|by intros []| |done].
  intros x c t c' t' new evs _ E. cbn in E. redial_cases E; done.
Qed.

Lemma handled_took (tr : list sevent) (s : ssystem) :
  WsHandler.reachable tr s -> omap s_took tr ≡ₚ omap handled tr ++ omap s_writing (pool s).
Proof.
  apply (accounts_moves s_took handled s_writing _ pc_wf); [by intros; eapply pc_wf_reachable| | |done].
  { intros [| | | | | | | | | |? []|[]| |]; by intros. }
  intros x c t c' t' new evs Hwf E. cbn in E.
  destruct t as [| | | | |k0 id u|k0 id|k0 id ch|k0 id ch p| |a u|u| |]; cbn in E;
    try (apply on_queue_inv in E as (-> & q & u' & l & E & -> & -> & ->)).
  all: try (destruct u; try done; cbn in E, Hwf; unfold QueueConn.load_err in E).
  all: cbn in E; repeat first [case_decide|case_match]; simplify_eq/=; try done.
  all: by destruct k0.
Qed.

Definition tried_on (i : nat) (tr : list cevent) : list bytes := at_key i (omap tried tr).
Definition handled_on (i : nat) (tr : list sevent) : list bytes := at_key i (omap handled tr).

Lemma tried_on_app i tr evs : tried_on i (tr ++ evs) = tried_on i tr ++ tried_on i evs.
Proof. unfold tried_on. by rewrite omap_app, at_key_app. Qed.
Lemma handled_on_app i tr evs : handled_on i (tr ++ evs) = handled_on i tr ++ handled_on i evs.
Proof. unfold handled_on. by rewrite omap_app, at_key_app. Qed.

(** Nothing happens on a connection before its preamble. *)
Lemma unannounced (tr : list sevent) (s : ssystem) i :
  WsHandler.reachable tr s -> announced (inl i) tr = [] -> read_by (inl i) tr = [] /\ handled_on i tr = [].
Proof.
  intros Hr Ha. split.
  - destruct (up_reachable (inl i) _ _ Hr) as [[= _ -> _]|(id & Hid & _)]; [done|]. cbn in Hid. congruence.
  - destruct (handled_on i tr) as [|p ps] eqn:Eh; [done|].
    assert (Hin : p ∈ handled_on i tr) by (rewrite Eh; left).
    apply list_elem_of_omap in Hin as ([i' p'] & Hin & Ep). cbn in Ep. case_decide; [|done]. simplify_eq.
    assert (Hin' : (i, p) ∈ omap s_took tr) by (rewrite (handled_took _ _ Hr); apply elem_of_app; by left).
    apply list_elem_of_omap in Hin' as (e & He & Ee). destruct e as [| | | |[[]| |] []]; simplify_eq/=.
    destruct (own_reachable _ _ Hr) as (own & _ & _ & Hown). rewrite list.Forall_forall in Hown.
    destruct (Hown _ He) as (k & id & [= <-] & Hann%announced_in & _). rewrite Ha in Hann. by apply elem_of_nil in Hann.
Qed.

(** ** The invariant *)

Ltac joint_proj := cbn [j_cli j_ctr j_srv j_str j_links shared pool].

Section Invariant.
Context (clientID : bytes).

(** Both directions of a WebSocket of the client. *)
Definition link_ok (ctr : list cevent) (str : list sevent) (i : nat) (l : link) : Prop :=
  lane (Token ++ clientID) (ec_bw (lk_conn l)) (tried_on i ctr) (lk_up l - 16) (read_by (inl i) str) /\
  (announced (inl i) str = [] /\ lk_up l = 0 \/ announced (inl i) str = [clientID] /\ 16 <= lk_up l) /\
  exists full, lk_got l = take readBufSize <$> full /\ lane [] (lk_bw l) (handled_on i str) (lk_down l) full.

Record jinv (j : joint) : Prop := {
  ji_cli : Redial.reachable (j_ctr j) (j_cli j);
  ji_srv : WsHandler.reachable (j_str j) (j_srv j);
  ji_len : length (j_links j) = length (rc_exch (shared (j_cli j)));
  ji_link i l : j_links j !! i = Some l -> link_ok (j_ctr j) (j_str j) i l;
  ji_none i : length (j_links j) <= i -> announced (inl i) (j_str j) = [] /\ tried_on i (j_ctr j) = [];
  ji_others n id : Announced (inr n) id ∈ j_str j -> id <> clientID;
  ji_got i : at_key i (omap arrived_at (j_ctr j) ++ omap pushing (pool (j_cli j))) ⊆+
    default [] (lk_got <$> j_links j !! i) }.

(** The sender gives a packet up, or does nothing. *)
Definition gives_up (evs : list (nat * bytes)) : Prop := evs = [] \/ exists x, evs = [x].

Lemma lane_gives_up hd b tr n got i evs :
  gives_up evs -> lane hd b tr n got -> lane hd b (tr ++ at_key i evs) n got.
Proof.
  intros [->|[[i' p] ->]] Hl; unfold at_key; cbn; [by rewrite app_nil_r|].
  case_decide; [by apply lane_lose|by rewrite app_nil_r].
Qed.

Lemma link_ok_cli ctr str i l evs :
  gives_up (omap tried evs) -> link_ok ctr str i l -> link_ok (ctr ++ evs) str i l.
Proof. intros He (H1 & H2 & H3). split_and!; [|done|done]. rewrite tried_on_app. by apply lane_gives_up. Qed.

Lemma link_ok_srv ctr str i l evs :
  announced (inl i) evs = [] -> read_by (inl i) evs = [] -> gives_up (omap handled evs) ->
  link_ok ctr str i l -> link_ok ctr (str ++ evs) i l.
Proof.
  intros Ha Hr Hh (H1 & H2 & full & H3 & H4).
  assert (Ea : announced (inl i) (str ++ evs) = announced (inl i) str) by (unfold announced in *; by rewrite omap_app, Ha, app_nil_r).
  assert (Er : read_by (inl i) (str ++ evs) = read_by (inl i) str) by (unfold read_by in *; by rewrite omap_app, Hr, app_nil_r).
  split_and!; [by rewrite Er|by rewrite Ea|]. exists full. split; [done|]. rewrite handled_on_app. by apply lane_gives_up.
Qed.

(** ** Steps of the client *)

Lemma cli_local_step x c t c' t' new evs :
  cli_local x t = true -> conn_step x c t = Some (c', t', new, evs) ->
  length (rc_exch c') = length (rc_exch c) /\
  (omap tried evs = [] \/ exists i p, t = WR_write i p /\ omap tried evs = [(i, p)]) /\
  omap arrived_at evs ++ option_list (pushing t') ++ omap pushing new ⊆+ option_list (pushing t).
Proof.
  intros Hl E. redial_cases E; cbn in Hl; try done; cbn; rewrite ?length_alter; split_and!; try done; eauto.
  all: try by rewrite Heqo in Hl.
  apply submseteq_nil_l.
Qed.

(** The packets that arrived and those about to be pushed, after a step. *)
Lemma arrivals_step (l : list Redial.pc) t0 t t' new ctr evs extra :
  l !! t0 = Some t ->
  omap arrived_at evs ++ option_list (pushing t') ++ omap pushing new ⊆+ option_list (pushing t) ++ extra ->
  omap arrived_at (ctr ++ evs) ++ omap pushing (<[t0 := t']> l ++ new) ⊆+
  (omap arrived_at ctr ++ omap pushing l) ++ extra.
Proof.
  intros Et Hs. destruct (pool_holds pushing l t0 t t' new Et) as (rest & H1 & H2).
  rewrite omap_app, H1, H2.
  transitivity ((omap arrived_at ctr ++ rest) ++ (omap arrived_at evs ++ option_list (pushing t') ++ omap pushing new)).
  { apply Permutation_submseteq. solve_Permutation. }
  etrans; [apply submseteq_skips_l, Hs|]. apply Permutation_submseteq. solve_Permutation.
Qed.

Lemma at_key_extra i (l1 l2 extra : list (nat * bytes)) got :
  l1 ⊆+ l2 ++ extra -> at_key i l2 ⊆+ got -> at_key i l1 ⊆+ got ++ at_key i extra.
Proof.
  intros Hl Hg. apply (at_key_submseteq i) in Hl. rewrite at_key_app in Hl. etrans; [exact Hl|]. by apply submseteq_skips_r.
Qed.

(** A turn of the client with new links [links']. *)
Lemma jinv_cli j links' t0 x t c' t' new evs extra :
  jinv j -> pool (j_cli j) !! t0 = Some t -> conn_step x (shared (j_cli j)) t = Some (c', t', new, evs) ->
  length links' = length (rc_exch c') -> length (j_links j) <= length links' ->
  (forall i l, links' !! i = Some l -> link_ok (j_ctr j ++ evs) (j_str j) i l) ->
  (forall i, length links' <= i -> tried_on i evs = []) ->
  omap arrived_at evs ++ option_list (pushing t') ++ omap pushing new ⊆+ option_list (pushing t) ++ extra ->
  (forall i, default [] (lk_got <$> j_links j !! i) ++ at_key i extra ⊆+ default [] (lk_got <$> links' !! i)) ->
  jinv (Joint (System c' (<[t0 := t']> (pool (j_cli j)) ++ new)) (j_ctr j ++ evs) (j_srv j) (j_str j) links').
Proof.
  intros [I1 I2 I3 I4 I5 I6 I7] Et E Hlen Hmono Hlinks Htried Harr Hgot. split; joint_proj; try done.
  - eapply moves_more; [exact I1|by eapply move_act].
  - intros i Hi. destruct (I5 i) as [? Ht]; [lia|]. split; [done|]. by rewrite tried_on_app, Ht, Htried.
  - intros i. etrans; [|apply Hgot]. apply (at_key_extra i _ _ extra _ (arrivals_step _ _ _ _ _ _ _ _ Et Harr)). apply I7.
Qed.

(** The exchange a writing goroutine belongs to has a link. *)
Lemma writing_link j t0 i p :
  jinv j -> pool (j_cli j) !! t0 = Some (WR_write i p) -> i < length (j_links j).
Proof.
  intros Hj Et. rewrite (ji_len _ Hj). destruct (reachable_ok _ _ (ji_cli _ Hj)) as [_ [_ HP]].
  apply HP in Et. cbn in Et. apply (chan_open _ Wr). by rewrite Et.
Qed.

Lemma jinv_cli_local j a j' : jinv j -> cli_allowed a j = true -> cli_do a j = Some j' -> jinv j'.
Proof.
  intros Hj Ha E. unfold cli_do in E. destruct (play [a] (j_cli j)) as [[evs s]|] eqn:Ep; [|done]. injection E as <-.
  destruct a as [t|t0 x].
  - apply play_enter_inv in Ep as (Ht & -> & ->). destruct Hj as [I1 I2 I3 I4 I5 I6 I7]. rewrite app_nil_r.
    split; joint_proj; try done.
    + rewrite <- (app_nil_r (j_ctr j)). eapply moves_more; [exact I1|by apply move_call].
    + intros i. rewrite omap_app. cbn. assert (Hp : pushing t = None) by (by destruct t). rewrite Hp, app_nil_r. apply I7.
  - apply play_turn_inv in Ep as (t & c' & t' & new & Et & E & ->). cbn in Ha. rewrite Et in Ha.
    destruct (cli_local_step x (shared (j_cli j)) t c' t' new evs Ha E) as (Hlen & Htried & Harr).
    apply (jinv_cli j (j_links j) t0 x t c' t' new evs []); try done.
    + by rewrite (ji_len _ Hj), Hlen.
    + intros i l Hl. apply link_ok_cli; [|by apply (ji_link _ Hj)].
      destruct Htried as [->|(i' & p & _ & ->)]; [by left|right; by eexists].
    + intros i Hi. unfold tried_on. destruct Htried as [->|(i' & p & -> & ->)]; [done|].
      apply (writing_link j t0 i' p Hj) in Et. unfold at_key. cbn. by rewrite decide_False by lia.
    + by rewrite app_nil_r.
    + intros i. by rewrite app_nil_r.
Qed.

(** The client's end after dialing: the preamble has been written. *)
Lemma WrapWebSocketDial_lane id up e c :
  WrapWebSocketDial id (Ret (Reader [] EOF, Writer [] up e)) = Ret c ->
  lane (Token ++ id) (ec_bw c) [] 0 [].
Proof.
  unfold WrapWebSocketDial. destruct (write Token _) as [[n1 [e1|]] w1] eqn:E1; [done|].
  destruct (write id w1) as [[n2 [e2|]] w2] eqn:E2; [done|]. intros [= <-]. cbn [ec_bw NewEncapsulationPacketConn snd].
  apply write_prefix in E1 as (O1 & _ & [N1 _] & _). apply write_prefix in E2 as (O2 & _ & [N2 _] & _).
  rewrite (N1 eq_refl), take_ge in O1 by done. rewrite (N2 eq_refl), take_ge, O1 in O2 by done. cbn [w_out] in O2.
  rewrite app_nil_l in O2. destruct w2 as [out room e']. cbn in O2. rewrite O2. apply lane_new.
Qed.

Lemma jinv_dial j t0 j' up down c :
  jinv j -> pool (j_cli j) !! t0 = Some DL_dial ->
  WrapWebSocketDial clientID (Ret (Reader [] EOF, Writer [] up (ErrIO 0))) = Ret c ->
  cli_do (Turn t0 (dialed None))
    (set_links (j_links j ++ [Link c (NewWriter (Writer [] down (ErrIO 0))) 0 0 []]) j) = Some j' -> jinv j'.
Proof.
  intros Hj Et Hw E. unfold cli_do in E. set (links' := _ ++ _) in E. cbn [j_cli set_links] in E.
  destruct (play _ (j_cli j)) as [[evs s]|] eqn:Ep; [|done]. injection E as <-.
  apply play_turn_inv in Ep as (t & c' & t' & new & Et' & E & ->). rewrite Et in Et'. injection Et' as <-.
  pose proof E as E0. cbn in E0. injection E0 as Hc' Ht' Hnew Hevs.
  apply (jinv_cli j links' t0 (dialed None) DL_dial c' t' new evs []); try done.
  - subst c' links'. cbn. rewrite !length_app. cbn. by rewrite (ji_len _ Hj).
  - subst links'. rewrite length_app. lia.
  - intros i l Hl. subst links'. apply lookup_app_Some in Hl as [Hl|[Hi Hl]].
    + apply link_ok_cli; [subst evs; by left|by apply (ji_link _ Hj)].
    + apply list_lookup_singleton_Some in Hl as [Hi' <-]. assert (i = length (j_links j)) as -> by lia.
      destruct (ji_none _ Hj (length (j_links j)) ltac:(lia)) as [Ha Ht].
      destruct (unannounced _ _ _ (ji_srv _ Hj) Ha) as [Hr Hh]. split_and!.
      * rewrite tried_on_app, Ht, Hr. subst evs. cbn. by eapply WrapWebSocketDial_lane.
      * by left.
      * exists []. split; [done|]. rewrite Hh. apply lane_new.
  - intros i _. by subst evs.
  - subst t' new evs. cbn. done.
  - intros i. subst links'. cbn [at_key omap list_omap]. rewrite app_nil_r.
    destruct (j_links j !! i) as [l|] eqn:El; [by rewrite (lookup_app_l_Some _ _ _ _ El)|apply submseteq_nil_l].
Qed.

(** A turn of the client that changes one link. *)
Lemma jinv_cli_link j i l l' t0 x t c' t' new evs extra :
  jinv j -> j_links j !! i = Some l -> pool (j_cli j) !! t0 = Some t ->
  conn_step x (shared (j_cli j)) t = Some (c', t', new, evs) ->
  length (rc_exch c') = length (rc_exch (shared (j_cli j))) ->
  gives_up (omap tried evs) -> (forall k, k <> i -> tried_on k evs = []) ->
  link_ok (j_ctr j ++ evs) (j_str j) i l' ->
  omap arrived_at evs ++ option_list (pushing t') ++ omap pushing new ⊆+ option_list (pushing t) ++ ((fun p => (i, p)) <$> extra) ->
  lk_got l' = lk_got l ++ extra ->
  jinv (Joint (System c' (<[t0 := t']> (pool (j_cli j)) ++ new)) (j_ctr j ++ evs) (j_srv j) (j_str j) (<[i := l']> (j_links j))).
Proof.
  intros Hj Hl Et E Hlen Hg Ho Hok Harr Hgot. pose proof (lookup_lt_Some _ _ _ Hl) as Hi.
  eapply (jinv_cli j _ t0 x t c' t' new evs _ Hj Et E); [..|exact Harr|].
  - by rewrite length_insert, (ji_len _ Hj), Hlen.
  - by rewrite length_insert.
  - intros k lk [(-> & -> & _)|[Hne Hk]]%list_lookup_insert_Some; [done|]. apply link_ok_cli; [done|by apply (ji_link _ Hj)].
  - intros k. rewrite length_insert. intros Hk. apply Ho. lia.
  - intros k. assert (Hkey : at_key k ((fun p => (i, p)) <$> extra) = if decide (i = k) then extra else []).
    { unfold at_key. clear. induction extra as [|p ps IH]; cbn; [by case_decide|]. rewrite IH. by case_decide. }
    rewrite Hkey. destruct (decide (i = k)) as [<-|Hne].
    + rewrite list_lookup_insert_eq, Hl by done. cbn. by rewrite Hgot.
    + by rewrite list_lookup_insert_ne, app_nil_r by done.
Qed.

Lemma jinv_cwrite j t0 i p l n o c j' :
  jinv j -> pool (j_cli j) !! t0 = Some (WR_write i p) -> j_links j !! i = Some l ->
  WriteTo p tt (lk_conn l) = (n, o, c) ->
  cli_do (Turn t0 (has_written o)) (set_link i (Link c (lk_bw l) (lk_up l) (lk_down l) (lk_got l)) j) = Some j' -> jinv j'.
Proof.
  intros Hj Et Hl Hw E. unfold cli_do in E. cbn [j_cli set_link set_links] in E.
  destruct (play _ (j_cli j)) as [[evs s]|] eqn:Ep; [|done]. injection E as <-.
  apply play_turn_inv in Ep as (t & c' & t' & new & Et' & E & ->). rewrite Et in Et'. injection Et' as <-.
  assert (Hs : c' = shared (j_cli j) /\ new = [] /\ pushing t' = None /\ omap arrived_at evs = [] /\ omap tried evs = [(i, p)]).
  { cbn in E. destruct o; by injection E as <- <- <- <-. }
  destruct Hs as (Hc & Hn & Hpush & Harr & Htr). joint_proj.
  destruct (ji_link _ Hj i l Hl) as (H1 & H2 & H3).
  eapply (jinv_cli_link j i l _ t0 _ _ c' t' new evs []); [done|done|done|exact E|by rewrite Hc|rewrite Htr; right; by eexists| | | |by rewrite app_nil_r].
  - intros k Hk. unfold tried_on, at_key. rewrite Htr. cbn. by rewrite decide_False by done.
  - split_and!; [|done|done]. cbn [lk_conn lk_up]. apply WriteTo_send in Hw.
    rewrite tried_on_app. unfold tried_on at 2, at_key. rewrite Htr. cbn. rewrite decide_True by done.
    replace (ec_bw c) with (serve_write [p] (ec_bw (lk_conn l))).2 by (by rewrite Hw). by apply lane_send.
  - rewrite Harr, Hpush, Hn. done.
Qed.

Lemma next_bytes_arrives hd b n out m chunks :
  out = w_out (bw_wr b) -> m = length hd + n -> next_bytes out m chunks = true -> arrives hd b n chunks.
Proof.
  intros -> -> [H1%bool_decide_eq_true H2%bool_decide_eq_true]%andb_prop. split; [done|].
  rewrite <- H2 at 1. apply prefix_take.
Qed.

Lemma jinv_cread j t0 i l chunks e p a c j' :
  jinv j -> pool (j_cli j) !! t0 = Some (RD_read i) -> j_links j !! i = Some l ->
  next_bytes (down_stream l) (lk_down l) chunks = true ->
  ReadFrom readBufSize (EncapConn (Reader chunks e) tt tt (ec_bw (lk_conn l))) = (Ret p, a, c) ->
  cli_do (Turn t0 (has_read (Ret p)))
    (set_link i (Link (lk_conn l) (lk_bw l) (lk_up l) (lk_down l + consumed chunks (ec_in c)) (lk_got l ++ [p])) j) = Some j' ->
  jinv j'.
Proof.
  intros Hj Et Hl Hnext Hr E. unfold cli_do in E. cbn [j_cli set_link set_links] in E.
  destruct (play _ (j_cli j)) as [[evs s]|] eqn:Ep; [|done]. injection E as <-.
  apply play_turn_inv in Ep as (t & c' & t' & new & Et' & E & ->). rewrite Et in Et'. injection Et' as <-.
  pose proof E as E0. cbn in E0. injection E0 as Hc Ht' Hn Hevs. joint_proj.
  destruct (ji_link _ Hj i l Hl) as (H1 & H2 & full & H3 & H4).
  unfold ReadFrom in Hr. cbn [ec_in] in Hr. destruct (ReadData (Reader chunks e)) as [[data| |] r'] eqn:Er; [|done|done].
  injection Hr as Hp _ Hc2. subst p. subst c.
  eapply (jinv_cli_link j i l _ t0 _ _ c' t' new evs [take readBufSize data]); [done|done|done|exact E|by rewrite <- Hc| | | | |done].
  - subst evs. by left.
  - intros k _. by subst evs.
  - split_and!; cbn [lk_conn lk_up lk_down lk_got lk_bw ec_in].
    + subst evs. rewrite app_nil_r. done.
    + done.
    + exists (full ++ [data]). split; [by rewrite fmap_app, H3|]. unfold consumed.
      apply (lane_receive [] _ _ _ _ chunks e data r'); [done| |done].
      by eapply (next_bytes_arrives [] _ _ (down_stream l) (lk_down l)).
  - subst evs t' new. cbn. by rewrite take_take, Nat.min_id.
Qed.

(** ** Steps of the server *)

Lemma srv_local_step (x : WsHandler.choice) (s : WsHandler.Server (K := K)) (t : WsHandler.pc (K := K)) s' t' new (evs : list sevent) :
  pc_wf t -> srv_local clientID x t = true -> sv_step x s t = Some (s', t', new, evs) ->
  (forall i, announced (inl i) evs = [] /\ read_by (inl i) evs = []) /\ gives_up (omap handled evs) /\
  (forall n id, Announced (inr n) id ∈ evs -> id <> clientID).
Proof.
  intros Hwf Hl E. pose proof (sv_step_events _ _ _ _ _ _ _ Hwf E) as Hev.
  assert (Hq : (exists o l, evs = Queue o <$> l) -> (forall i, announced (inl i) evs = [] /\ read_by (inl i) evs = []) /\
    gives_up (omap handled evs) /\ (forall n id, Announced (inr n) id ∈ evs -> id <> clientID)).
  { intros (o & l & ->). split_and!.
    - intros i. by split; apply omap_none, Forall_fmap, list.Forall_true.
    - left. by apply omap_none, Forall_fmap, list.Forall_true.
    - intros n id (e & ? & ?)%list_elem_of_fmap. done. }
  clear Hev. destruct t as [k0|k0|k0|k0|k0 id|k0 id u|k0 id|k0 id ch|k0 id ch p|k0|a u|u| |]; cbn in E, Hl;
    try (apply on_queue_inv in E as (_ & q & u' & l & _ & _ & _ & ->); apply Hq; by eexists _, _).
  all: try destruct k0 as [k0|k0].
  all: repeat first [case_decide|case_match]; simplify_eq/=.
  all: split_and!; try done; try (by left); try (intros i; split; done).
  all: try (right; by eexists).
  all: intros ? ? Hin; repeat (apply elem_of_cons in Hin as [Hin|Hin]); try discriminate Hin; try by apply elem_of_nil in Hin.
  by injection Hin as -> ->.
Qed.

(** A turn of the server with new links. *)
Lemma jinv_srv_turn j links' t0 (x : WsHandler.choice) t s' t' new evs :
  jinv j -> pool (j_srv j) !! t0 = Some t -> sv_step x (shared (j_srv j)) t = Some (s', t', new, evs) ->
  length links' = length (j_links j) ->
  (forall i l, links' !! i = Some l -> link_ok (j_ctr j) (j_str j ++ evs) i l) ->
  (forall i, length links' <= i -> announced (inl i) evs = []) ->
  (forall n id, Announced (inr n) id ∈ evs -> id <> clientID) ->
  (forall i, lk_got <$> links' !! i = lk_got <$> j_links j !! i) ->
  jinv (Joint (j_cli j) (j_ctr j) (System s' (<[t0 := t']> (pool (j_srv j)) ++ new)) (j_str j ++ evs) links').
Proof.
  intros [I1 I2 I3 I4 I5 I6 I7] Et E Hlen Hlinks Hann Hoth Hgot. split; joint_proj; try done.
  - eapply moves_more; [exact I2|by eapply move_act].
  - by rewrite Hlen.
  - intros i Hi. destruct (I5 i) as [Ha Ht]; [lia|]. split; [|done]. unfold announced in *. by rewrite omap_app, Ha, Hann.
  - intros n id [?|?]%elem_of_app; eauto.
  - intros i. rewrite Hgot. apply I7.
Qed.

Lemma srv_wf j t0 t : jinv j -> pool (j_srv j) !! t0 = Some t -> pc_wf t.
Proof. intros Hj Et. eapply Forall_lookup_1; [eapply pc_wf_reachable, (ji_srv _ Hj)|exact Et]. Qed.

Lemma jinv_srv_local j a j' : jinv j -> srv_allowed clientID a j = true -> srv_do a j = Some j' -> jinv j'.
Proof.
  intros Hj Ha E. unfold srv_do in E. destruct (play [a] (j_srv j)) as [[evs s]|] eqn:Ep; [|done]. injection E as <-.
  destruct a as [t|t0 x].
  - apply play_enter_inv in Ep as (Ht & -> & ->). destruct Hj as [I1 I2 I3 I4 I5 I6 I7]. rewrite app_nil_r.
    split; joint_proj; try done.
    rewrite <- (app_nil_r (j_str j)). eapply moves_more; [exact I2|by apply move_call].
  - apply play_turn_inv in Ep as (t & s' & t' & new & Et & E & ->). cbn in Ha. rewrite Et in Ha.
    destruct (srv_local_step x (shared (j_srv j)) t s' t' new evs (srv_wf j t0 t Hj Et) Ha E) as (Hev & Hh & Ho).
    apply (jinv_srv_turn j (j_links j) t0 x t s' t' new evs); try done.
    + intros i l Hl. apply link_ok_srv; [apply Hev..|done|by apply (ji_link _ Hj)].
    + intros i _. apply Hev.
Qed.

(** A turn of the server on one of its links. *)
Lemma jinv_srv_link j i l l' t0 (x : WsHandler.choice) t s' t' new evs :
  jinv j -> j_links j !! i = Some l -> pool (j_srv j) !! t0 = Some t ->
  sv_step x (shared (j_srv j)) t = Some (s', t', new, evs) ->
  (forall k, k <> i -> announced (inl k) evs = [] /\ read_by (inl k) evs = []) -> gives_up (omap handled evs) ->
  (forall n id, Announced (inr n) id ∈ evs -> id <> clientID) ->
  link_ok (j_ctr j) (j_str j ++ evs) i l' -> lk_got l' = lk_got l ->
  jinv (Joint (j_cli j) (j_ctr j) (System s' (<[t0 := t']> (pool (j_srv j)) ++ new)) (j_str j ++ evs) (<[i := l']> (j_links j))).
Proof.
  intros Hj Hl Et E Hev Hh Ho Hok Hgot. pose proof (lookup_lt_Some _ _ _ Hl) as Hi.
  apply (jinv_srv_turn j _ t0 x t s' t' new evs); try done.
  - apply length_insert.
  - intros k lk [(-> & -> & _)|[Hne Hk]]%list_lookup_insert_Some; [done|].
    destruct (Hev k) as [? ?]; [done|]. apply link_ok_srv; [done..|by apply (ji_link _ Hj)].
  - intros k. rewrite length_insert. intros Hk. apply Hev. lia.
  - intros k. rewrite list_lookup_insert. case_decide as Hk; [|done]. destruct Hk as [-> _]. rewrite Hl. cbn. by rewrite Hgot.
Qed.

Lemma read_preamble_inv r id r2 :
  read_preamble r = Some (id, r2) -> flat r = Token ++ id ++ flat r2 /\ length id = 8.
Proof.
  unfold read_preamble.
  destruct (ReadFull_cases r 8) as [(p & q & r1 & Hf & Hl & -> & Hr1 & _)|(_ & r1 & -> & _)]; [|done].
  case_decide as Ht; [|done]. subst p.
  destruct (ReadFull_cases r1 8) as [(p & q' & r2' & Hf' & Hl' & -> & Hr2 & _)|(_ & r2' & -> & _)]; [|done].
  intros [= <- <-]. split; [|done]. by rewrite Hf, <- Hr1, Hf', <- Hr2.
Qed.

Context (id_length : length clientID = 8).

Lemma hello_id l chunks e id r ctr str i :
  link_ok ctr str i l -> next_bytes (up_stream l) 0 chunks = true -> read_preamble (Reader chunks e) = Some (id, r) ->
  id = clientID /\ consumed chunks r = 16.
Proof.
  intros ([_ (body & _ & _ & _ & Ho & _)] & _) [_ Hn%bool_decide_eq_true]%andb_prop [Hf Hlen]%read_preamble_inv.
  unfold flat in Hf at 1. cbn [r_chunks] in Hf. unfold up_stream in Hn. rewrite drop_0, Ho in Hn.
  assert (Hp : concat chunks `prefix_of` (Token ++ clientID) ++ body) by (rewrite <- Hn at 1; apply prefix_take).
  rewrite Hf in Hp. destruct Hp as [k Hk]. rewrite <- !app_assoc in Hk. apply app_inv_head in Hk.
  apply app_inj_1 in Hk as [-> _]; [|congruence]. split; [done|].
  unfold consumed. rewrite Hf, !length_app, id_length. cbn. lia.
Qed.

Lemma jinv_shello j t0 i l chunks e id r j' :
  jinv j -> pool (j_srv j) !! t0 = Some (SV_preamble (inl i)) -> j_links j !! i = Some l ->
  next_bytes (up_stream l) (lk_up l) chunks = true -> read_preamble (Reader chunks e) = Some (id, r) ->
  srv_do (Turn t0 (s_preamble (Some id)))
    (set_link i (Link (lk_conn l) (lk_bw l) (lk_up l + consumed chunks r) (lk_down l) (lk_got l)) j) = Some j' -> jinv j'.
Proof.
  intros Hj Et Hl Hnext Hr E. unfold srv_do in E. cbn [j_srv set_link set_links] in E.
  destruct (play _ (j_srv j)) as [[evs s]|] eqn:Ep; [|done]. injection E as <-.
  apply play_turn_inv in Ep as (t & s' & t' & new & Et' & E & ->). rewrite Et in Et'. injection Et' as <-.
  pose proof E as E0. cbn in E0. injection E0 as Hs Ht' Hn Hevs. joint_proj.
  destruct (ji_link _ Hj i l Hl) as (H1 & H2 & full & H3 & H4).
  pose proof (up_thread (inl i) _ _ t0 _ (ji_srv _ Hj) Et (up_role_new _)) as Hfresh. injection Hfresh as Ha Hrd _.
  destruct H2 as [[_ Hup]|[Ha' _]]; [|congruence]. rewrite Hup in *.
  destruct (hello_id l chunks e id r _ _ i (ji_link _ Hj i l Hl) Hnext Hr) as [-> Hcons]. rewrite Hcons.
  eapply (jinv_srv_link j i l _ t0 _ _ s' t' new evs Hj Hl Et E); subst evs; [| | | |done].
  - intros k Hk. unfold announced. cbn. by rewrite decide_False by congruence.
  - by left.
  - intros n id Hin. apply list_elem_of_singleton in Hin. done.
  - split_and!; cbn [lk_conn lk_up lk_down lk_got lk_bw].
    + unfold read_by in *. rewrite omap_app, Hrd. cbn. unfold read_by in H1. by rewrite Hrd in H1.
    + right. unfold announced in *. rewrite omap_app, Ha. cbn. rewrite decide_True by done. split; [done|lia].
    + exists full. split; [done|]. rewrite handled_on_app. cbn. by rewrite app_nil_r.
Qed.

Lemma jinv_sread j t0 i id l chunks e p r j' :
  jinv j -> pool (j_srv j) !! t0 = Some (SR_read (inl i) id) -> j_links j !! i = Some l ->
  is_closed (shared (j_srv j)) (inl i) = false ->
  next_bytes (up_stream l) (lk_up l) chunks = true -> ReadData (Reader chunks e) = (Ret p, r) ->
  srv_do (Turn t0 (s_read (Ret p)))
    (set_link i (Link (lk_conn l) (lk_bw l) (lk_up l + consumed chunks r) (lk_down l) (lk_got l)) j) = Some j' -> jinv j'.
Proof.
  intros Hj Et Hl Hcl Hnext Hr E. unfold srv_do in E. cbn [j_srv set_link set_links] in E.
  destruct (play _ (j_srv j)) as [[evs s]|] eqn:Ep; [|done]. injection E as <-.
  apply play_turn_inv in Ep as (t & s' & t' & new & Et' & E & ->). rewrite Et in Et'. injection Et' as <-.
  pose proof E as E0. cbn in E0. rewrite Hcl in E0. injection E0 as Hs Ht' Hn Hevs. joint_proj.
  destruct (ji_link _ Hj i l Hl) as (H1 & H2 & full & H3 & H4).
  assert (Hrole : up_role (inl i) (SR_read (inl i : K) id) = 1) by (cbn; by rewrite decide_True).
  destruct (up_thread (inl i) _ _ t0 _ (ji_srv _ Hj) Et Hrole) as [Ha _]. cbn in Ha.
  destruct H2 as [[Ha' _]|[Ha' Hup]]; [congruence|].
  eapply (jinv_srv_link j i l _ t0 _ _ s' t' new evs Hj Hl Et E); subst evs; [| | | |done].
  - intros k Hk. unfold read_by. cbn. by rewrite decide_False by congruence.
  - by left.
  - intros n id' Hin. by apply list_elem_of_singleton in Hin.
  - split_and!; cbn [lk_conn lk_up lk_down lk_got lk_bw].
    + assert (Hread : read_by (inl i) (j_str j ++ [Read (inl i) p]) = read_by (inl i) (j_str j) ++ [p]).
      { unfold read_by. rewrite omap_app. cbn. by rewrite decide_True. }
      rewrite Hread. replace (lk_up l + consumed chunks r - 16) with (lk_up l - 16 + consumed chunks r) by lia.
      apply (lane_receive _ _ _ _ _ chunks e p r); [done| |done].
      eapply (next_bytes_arrives _ _ _ (up_stream l) (lk_up l)); [done| |done]. rewrite length_app, id_length. cbn. lia.
    + right. unfold announced in *. rewrite omap_app. cbn. rewrite app_nil_r. split; [done|lia].
    + exists full. split; [done|]. rewrite handled_on_app. cbn. by rewrite app_nil_r.
Qed.

Lemma jinv_swrite j t0 i id ch p l o b j' :
  jinv j -> pool (j_srv j) !! t0 = Some (SW_write (inl i) id ch p) -> j_links j !! i = Some l ->
  is_closed (shared (j_srv j)) (inl i) = false -> serve_write [p] (lk_bw l) = (o, b) ->
  srv_do (Turn t0 (s_written o)) (set_link i (Link (lk_conn l) b (lk_up l) (lk_down l) (lk_got l)) j) = Some j' -> jinv j'.
Proof.
  intros Hj Et Hl Hcl Hw E. unfold srv_do in E. cbn [j_srv set_link set_links] in E.
  destruct (play _ (j_srv j)) as [[evs s]|] eqn:Ep; [|done]. injection E as <-.
  apply play_turn_inv in Ep as (t & s' & t' & new & Et' & E & ->). rewrite Et in Et'. injection Et' as <-.
  assert (Hevs : evs = [Wrote (inl i) p] \/ evs = [Failed (inl i) p]).
  { cbn in E. rewrite Hcl in E. destruct o; injection E as <- <- <- <-; by auto. }
  joint_proj. destruct (ji_link _ Hj i l Hl) as (H1 & H2 & full & H3 & H4).
  assert (Hh : omap handled evs = [(i, p)]) by (by destruct Hevs as [->| ->]).
  assert (Ha : forall k, announced (inl k) evs = [] /\ read_by (inl k) evs = []) by (by destruct Hevs as [->| ->]).
  eapply (jinv_srv_link j i l _ t0 _ _ s' t' new evs Hj Hl Et E); [|by rewrite Hh; right; eexists| | |done].
  - intros k _. apply Ha.
  - intros n id' Hin. destruct Hevs as [->| ->]; by apply list_elem_of_singleton in Hin.
  - destruct (Ha i) as [Ha1 Ha2]. split_and!; cbn [lk_conn lk_up lk_down lk_got lk_bw].
    + unfold read_by in *. by rewrite omap_app, Ha2, app_nil_r.
    + unfold announced in *. by rewrite omap_app, Ha1, app_nil_r.
    + exists full. split; [done|]. rewrite handled_on_app. unfold handled_on at 2, at_key. rewrite Hh. cbn.
      rewrite decide_True by done. replace b with (serve_write [p] (lk_bw l)).2 by (by rewrite Hw). by apply lane_send.
Qed.

Lemma jstep_inv a j j' : jinv j -> jstep clientID a j = Some j' -> jinv j'.
Proof.
  intros Hj E. destruct a as [a|a|t ws|t|t chunks e|t chunks e|t chunks e|t]; cbn [jstep] in E.
  - destruct (cli_allowed a j) eqn:Ha; [|done]. by eapply jinv_cli_local.
  - destruct (srv_allowed clientID a j) eqn:Ha; [|done]. by eapply jinv_srv_local.
  - destruct (pool (j_cli j) !! t) as [[]|] eqn:Et; try done.
    destruct ws as [[up down]|e|]; [|eapply jinv_cli_local; [done| |exact E]; cbn; by rewrite Et|done].
    destruct (WrapWebSocketDial _ _) as [c|e|] eqn:Ew; [by eapply jinv_dial| |done].
    eapply jinv_cli_local; [done| |exact E]. cbn. by rewrite Et.
  - destruct (pool (j_cli j) !! t) as [[]|] eqn:Et; try done. destruct (j_links j !! i) as [l|] eqn:El; [|done].
    destruct (WriteTo p tt (lk_conn l)) as [[n o] c] eqn:Ew. by eapply jinv_cwrite.
  - destruct (pool (j_cli j) !! t) as [[]|] eqn:Et; try done. destruct (j_links j !! i) as [l|] eqn:El; [|done].
    destruct (next_bytes _ _ _) eqn:En; [|done]. destruct (ReadFrom _ _) as [[[p|e'|w] a] c] eqn:Er; [by eapply jinv_cread| |].
    all: eapply jinv_cli_local; [done| |exact E]; cbn; by rewrite Et.
  - destruct (pool (j_srv j) !! t) as [[|[i|]| | | | | | | | | | | |]|] eqn:Et; try done. destruct (j_links j !! i) as [l|] eqn:El; [|done].
    destruct (next_bytes _ _ _) eqn:En; [|done]. destruct (read_preamble _) as [[id r]|] eqn:Er; [by eapply jinv_shello|].
    eapply jinv_srv_local; [done| |exact E]. cbn. by rewrite Et.
  - destruct (pool (j_srv j) !! t) as [[| | | |[i|] id| | | | | | | | |]|] eqn:Et; try done.
    destruct (j_links j !! i) as [l|] eqn:El; [|done]. destruct (is_closed _ _) eqn:Ec; [done|].
    destruct (next_bytes _ _ _) eqn:En; [|done]. destruct (ReadData _) as [[p|e'|w] r] eqn:Er; [by eapply jinv_sread| |].
    all: eapply jinv_srv_local; [done| |exact E]; cbn; by rewrite Et.
  - destruct (pool (j_srv j) !! t) as [[| | | | | | | |[i|] id ch p| | | | |]|] eqn:Et; try done.
    destruct (j_links j !! i) as [l|] eqn:El; [|done]. destruct (is_closed _ _) eqn:Ec; [done|].
    destruct (serve_write _ _) as [o b] eqn:Ew. by eapply jinv_swrite.
Qed.

Lemma sf_started_inv : jinv started.
Proof.
  split; cbn; try done; try constructor; try done.
  intros n id Hin. by apply elem_of_nil in Hin.
Qed.

Lemma sf_run_inv l j j' : jinv j -> jrun clientID l j = Some j' -> jinv j'.
Proof.
  revert j. induction l as [|a l IH]; intros j Hj E; cbn in E; [by injection E as <-|].
  destruct (jstep clientID a j) as [j1|] eqn:E1; [|done]. cbn in E. eapply IH, E. by eapply jstep_inv.
Qed.
End Invariant.

(** ** From KCP to KCP *)

(** The packets KCP got from a client, those queued for it, and those KCP sent to a client. *)
Definition delivered_from (a : bytes) : list sevent -> list bytes :=
  omap (fun e => match e with
    | Queue _ (QueueConn.Delivered (p, a')) => if decide (a' = a) then Some p else None | _ => None end).
Definition accepted_from (a : bytes) : list sevent -> list bytes :=
  omap (fun e => match e with
    | Queue _ (Accepted (p, a')) => if decide (a' = a) then Some p else None | _ => None end).
Definition queued_to (a : bytes) : list sevent -> list bytes :=
  omap (fun e => match e with
    | Queue (Write a') (QueueConn.Queued _ p) => if decide (a' = a) then Some p else None | _ => None end).

Lemma delivered_accepted (a : bytes) (tr : list sevent) (s : ssystem) :
  WsHandler.reachable tr s -> delivered_from a tr `prefix_of` accepted_from a tr.
Proof.
  intros (_ & qs & Hq & _)%handlers_queue. destruct (steps_fifo _ _ Hq) as [Hf _].
  set (sel := fun x : bytes * bytes => if decide (x.2 = a) then Some x.1 else None).
  assert (Ha : accepted_from a tr = omap sel (accepted (omap queue_event tr))).
  { unfold accepted. rewrite !omap_omap. apply omap_ext. by intros [| | | |o [[] |[]| |]]. }
  assert (Hd : delivered_from a tr = omap sel (QueueConn.delivered (omap queue_event tr))).
  { unfold QueueConn.delivered. rewrite !omap_omap. apply omap_ext. by intros [| | | |o [[] |[]| |]]. }
  rewrite Ha, Hd, Hf, omap_app. by apply prefix_app_r.
Qed.

(** A packet accepted on one of the client's WebSockets. *)
Definition s_accepted (e : sevent) : option (nat * bytes) :=
  match e with Queue (Handler (inl i)) (Accepted (p, _)) => Some (i, p) | _ => None end.

Lemma at_key_accepted i tr : at_key i (omap s_accepted tr) = fst <$> accepted_by (inl i) tr.
Proof.
  unfold at_key, accepted_by. rewrite omap_omap, list_fmap_omap. apply omap_ext.
  intros [| | | |[[k|k]| |] [[] | | |]]; cbn; try done.
  destruct (decide (k = i)) as [->|Hne]; [by rewrite decide_True|by rewrite decide_False by congruence].
Qed.

Section UpDown.
Context (clientID : bytes).

Lemma accepted_links j :
  jinv clientID j -> accepted_from clientID (j_str j) `sublist_of` snd <$> omap s_accepted (j_str j).
Proof.
  intros Hj. rewrite list_fmap_omap. apply omap_sublist. intros e p He Ep.
  destruct e as [| | | |o [[p' a]| | |]]; try done. case_decide as Ea; [|done]. injection Ep as ->. subst a.
  destruct (own_reachable _ _ (ji_srv _ _ Hj)) as (own & _ & _ & Hown). rewrite list.Forall_forall in Hown.
  destruct (Hown _ He) as [[i|n] ->]; [done|exfalso].
  assert (Hin : (p, clientID) ∈ accepted_by (inr n) (j_str j)).
  { apply list_elem_of_omap. eexists. split; [exact He|]. cbn. by rewrite decide_True. }
  destruct (up_reachable (inr n) _ _ (ji_srv _ _ Hj)) as [[= _ _ Hacc]|(id & Hid & Hsub)].
  - rewrite Hacc in Hin. by apply elem_of_nil in Hin.
  - cbn in Hid, Hsub. eapply elem_of_submseteq in Hin; [|by apply sublist_submseteq].
    apply list_elem_of_fmap in Hin as (p' & [= _ <-] & _).
    assert (Hann : clientID ∈ announced (inr n) (j_str j)) by (rewrite Hid; left).
    apply list_elem_of_omap in Hann as (e' & He' & Ee'). destruct e'; try done. case_decide; [|done]. simplify_eq.
    by apply (ji_others _ _ Hj) in He'.
Qed.

Lemma link_read j i :
  jinv clientID j -> exists ids, announced (inl i) (j_str j) = ids /\ (ids = [] \/ ids = [clientID]) /\
    read_by (inl i) (j_str j) `sublist_of` tried_on i (j_ctr j).
Proof.
  intros Hj. eexists. split; [done|]. destruct (j_links j !! i) as [l|] eqn:El.
  - destruct (ji_link _ _ Hj i l El) as ([_ (body & mid & rest & ps & _ & _ & _ & _ & _ & Hs)] & Ha & _).
    split; [destruct Ha as [[-> _]|[-> _]]; by auto|]. etrans; [|exact Hs]. by apply sublist_inserts_r.
  - apply lookup_ge_None in El. destruct (ji_none _ _ Hj i El) as [Ha _].
    destruct (unannounced _ _ _ (ji_srv _ _ Hj) Ha) as [-> _]. split; [by left|apply sublist_nil_l].
Qed.

Lemma link_accepted j i :
  jinv clientID j -> accepted_by (inl i) (j_str j) `sublist_of` tagged clientID (tried_on i (j_ctr j)).
Proof.
  intros Hj. destruct (link_read j i Hj) as (ids & Ha & Hids & Hs).
  destruct (up_reachable (inl i) _ _ (ji_srv _ _ Hj)) as [[= _ _ ->]|(id & Hid & Hsub)]; [apply sublist_nil_l|].
  cbn in Hid, Hsub. rewrite Hid in Ha. destruct Hids as [->| ->]; [done|]. injection Ha as ->.
  etrans; [exact Hsub|]. by apply fmap_sublist.
Qed.

Lemma up_contained j : jinv clientID j -> accepted_from clientID (j_str j) ⊆+ omap queued (j_ctr j).
Proof.
  intros Hj. etrans; [apply sublist_submseteq, accepted_links, Hj|].
  assert (H1 : omap s_accepted (j_str j) ⊆+ omap tried (j_ctr j)).
  { apply submseteq_by_key. intros i. rewrite at_key_accepted. apply sublist_submseteq.
    etrans; [apply (fmap_sublist fst), (link_accepted j i Hj)|]. unfold tagged. rewrite <- list_fmap_compose.
    by rewrite list_fmap_id. }
  assert (H2 : omap tried (j_ctr j) ⊆+ omap took (j_ctr j)).
  { rewrite (tried_took _ _ (ji_cli _ _ Hj)). by apply submseteq_inserts_r. }
  etrans; [apply (fmap_submseteq snd), H1|]. etrans; [apply (fmap_submseteq snd), H2|].
  destruct (queues_ok_reachable _ _ (ji_cli _ _ Hj)) as [_ ->]. apply submseteq_inserts_r.
  rewrite list_fmap_omap. apply Permutation_submseteq, reflexive_eq, omap_ext. by intros [].
Qed.

(** The packets taken for the client's WebSockets, and those sent to it, with their queues. *)
Definition taken_from (e : sevent) : option (nat * bytes) :=
  match e with Queue (Handler (inl _)) (QueueConn.Taken ch p) => Some (ch, p) | _ => None end.
Definition put_for (e : sevent) : option (nat * bytes) :=
  match e with Queue (Write a) (QueueConn.Queued ch p) => if decide (a = clientID) then Some (ch, p) else None | _ => None end.

Lemma at_key_taken ch (tr : list sevent) :
  at_key ch (omap taken_from tr) `sublist_of` taken ch (omap queue_event tr).
Proof.
  unfold at_key, taken. rewrite !omap_omap. apply omap_sublist.
  intros [| | | |[[]| |] []] y _; cbn; try done.
Qed.

Lemma down_taken j : jinv clientID j -> omap taken_from (j_str j) ⊆+ omap put_for (j_str j).
Proof.
  intros Hj. pose proof (ji_srv _ _ Hj) as Hr. destruct (own_reachable _ _ Hr) as (own & _ & _ & Hown).
  rewrite list.Forall_forall in Hown. destruct (handlers_queue _ _ Hr) as (_ & qs & Hq & _).
  destruct (steps_fifo _ _ Hq) as [_ Hfifo]. apply submseteq_by_key. intros ch.
  destruct (at_key ch (omap taken_from (j_str j))) as [|p ps] eqn:Eps; [apply submseteq_nil_l|]. rewrite <- Eps.
  assert (Hch : own !! ch = Some clientID).
  { assert (Hin : p ∈ at_key ch (omap taken_from (j_str j))) by (rewrite Eps; left).
    apply list_elem_of_omap in Hin as ([ch' p'] & Hin & Ep). cbn in Ep. case_decide; [|done]. simplify_eq.
    apply list_elem_of_omap in Hin as (e & He & Ee). destruct e as [| | | |[[i|n]| |] []]; simplify_eq/=.
    destruct (Hown _ He) as (k & id & [= <-] & Hann%announced_in & Hch).
    destruct (link_read j i Hj) as (ids & <- & [Ha|Ha] & _); rewrite Ha in Hann; [by apply elem_of_nil in Hann|].
    by apply list_elem_of_singleton in Hann as <-. }
  etrans; [apply sublist_submseteq, at_key_taken|]. etrans; [|apply sublist_submseteq].
  - apply submseteq_inserts_r. reflexivity.
  - rewrite <- Hfifo. unfold at_key, QueueConn.queued. rewrite !omap_omap. apply omap_sublist.
    intros e p' He. destruct e as [| | | |o []]; cbn; try done. intros Ep. case_decide; [|done]. simplify_eq.
    destruct (Hown _ He) as (a & -> & Ha). rewrite Hch in Ha. injection Ha as <-.
    rewrite decide_True by done. cbn. by rewrite decide_True.
Qed.

Lemma link_arrived j i :
  jinv clientID j -> at_key i (omap arrived_at (j_ctr j)) ⊆+ take readBufSize <$> handled_on i (j_str j).
Proof.
  intros Hj. etrans; [|etrans; [apply (ji_got _ _ Hj i)|]].
  - rewrite at_key_app. by apply submseteq_inserts_r.
  - destruct (j_links j !! i) as [l|] eqn:El; [|apply submseteq_nil_l]. cbn.
    destruct (ji_link _ _ Hj i l El) as (_ & _ & full & -> & [_ (body & mid & rest & ps & _ & _ & _ & _ & _ & Hs)]).
    apply fmap_submseteq. etrans; [|apply sublist_submseteq, Hs]. by apply submseteq_inserts_r.
Qed.

Lemma down_contained j :
  jinv clientID j -> omap Redial.arrived (j_ctr j) ⊆+ take readBufSize <$> queued_to clientID (j_str j).
Proof.
  intros Hj.
  assert (H1 : omap arrived_at (j_ctr j) ⊆+ prod_map id (take readBufSize) <$> omap handled (j_str j)).
  { apply submseteq_by_key. intros i. etrans; [apply (link_arrived j i Hj)|].
    unfold handled_on, at_key. rewrite !list_fmap_omap, !omap_omap.
    apply Permutation_submseteq, reflexive_eq, omap_ext. intros e. destruct (handled e) as [[i' p]|]; cbn; [by case_decide|done]. }
  assert (H2 : omap handled (j_str j) ⊆+ omap s_took (j_str j)).
  { rewrite (handled_took _ _ (ji_srv _ _ Hj)). by apply submseteq_inserts_r. }
  assert (E1 : omap Redial.arrived (j_ctr j) = snd <$> omap arrived_at (j_ctr j)).
  { rewrite list_fmap_omap. apply omap_ext. by intros []. }
  assert (E2 : snd <$> omap s_took (j_str j) = snd <$> omap taken_from (j_str j)).
  { rewrite !list_fmap_omap. apply omap_ext. by intros [| | | |[[]| |] []]. }
  assert (E3 : queued_to clientID (j_str j) = snd <$> omap put_for (j_str j)).
  { rewrite list_fmap_omap. apply omap_ext. intros [| | | |[] []]; try done. cbn. by case_decide. }
  rewrite E1, E3. etrans; [apply (fmap_submseteq snd), H1|].
  assert (E4 : snd <$> (prod_map id (take readBufSize) <$> omap handled (j_str j)) =
    take readBufSize <$> (snd <$> omap handled (j_str j))) by (by rewrite <- !list_fmap_compose).
  rewrite E4. apply fmap_submseteq. etrans; [apply (fmap_submseteq snd), H2|]. rewrite E2.
  apply fmap_submseteq, down_taken, Hj.
Qed.

(** ** Progress *)

Lemma cli_turn j t0 x t c' t' evs :
  pool (j_cli j) !! t0 = Some t -> conn_step x (shared (j_cli j)) t = Some (c', t', [], evs) ->
  cli_do (Turn t0 x) j =
  Some (Joint (System c' (<[t0 := t']> (pool (j_cli j)))) (j_ctr j ++ evs) (j_srv j) (j_str j) (j_links j)).
Proof.
  intros Et E. unfold cli_do. erewrite (play_self [] (j_cli j) t0 t x c' t' evs []); [|done|exact E|done].
  by rewrite app_nil_r.
Qed.

Lemma srv_turn j t0 (x : WsHandler.choice) t s' t' evs :
  pool (j_srv j) !! t0 = Some t -> sv_step x (shared (j_srv j)) t = Some (s', t', [], evs) ->
  srv_do (Turn t0 x) j =
  Some (Joint (j_cli j) (j_ctr j) (System s' (<[t0 := t']> (pool (j_srv j)))) (j_str j ++ evs) (j_links j)).
Proof.
  intros Et E. unfold srv_do. erewrite (play_self [] (j_srv j) t0 t x s' t' evs []); [|done|exact E|done].
  by rewrite app_nil_r.
Qed.

(** The server's reading goroutine has consumed what the client has sent, and can queue. *)
Definition ready_for (j : joint) (i t1 : nat) (l : link) : Prop :=
  j_links j !! i = Some l /\ pool (j_srv j) !! t1 = Some (SR_read (inl i) clientID) /\
  is_closed (shared (j_srv j)) (inl i) = false /\ lk_up l = length (up_stream l) /\
  qc_closed (sv_pconn (shared (j_srv j))) = false /\ length (qc_recvQueue (sv_pconn (shared (j_srv j)))) < queueSize.

(** The packet is written as one chunk. *)
Lemma cwrite_step j i t0 l p :
  j_links j !! i = Some l -> pool (j_cli j) !! t0 = Some (WR_write i p) ->
  idle (ec_bw (lk_conn l)) -> (len p < 2 ^ 20)%Z -> has_room (3 + length p) (bw_wr (ec_bw (lk_conn l))) ->
  exists c pfx j1, jstep clientID (CWrite t0) j = Some j1 /\ j_srv j1 = j_srv j /\
    j_links j1 = <[i := Link c (lk_bw l) (lk_up l) (lk_down l) (lk_got l)]> (j_links j) /\
    idle (ec_bw c) /\ len_prefix true (len p) pfx /\ w_out (bw_wr (ec_bw c)) = up_stream l ++ pfx ++ p.
Proof.
  intros Hl Et Hi Hlen Hroom. destruct (WriteTo_progress p tt (lk_conn l) Hi Hlen Hroom) as (c & Hw & Hq).
  destruct (WriteTo_none p tt (lk_conn l) _ c Hi Hw) as (_ & _ & _ & pfx & Hp & Hwire).
  exists c, pfx. eexists. cbn [jstep]. rewrite Et, Hl, Hw.
  erewrite cli_turn; [|exact Et|done]. by split_and!.
Qed.

(** The server reads it. *)
Lemma sread_step j i t1 l pfx p :
  j_links j !! i = Some l -> pool (j_srv j) !! t1 = Some (SR_read (inl i) clientID) ->
  is_closed (shared (j_srv j)) (inl i) = false -> len_prefix true (len p) pfx ->
  drop (lk_up l) (up_stream l) = pfx ++ p ->
  exists j1, jstep clientID (SRead t1 [pfx ++ p] EOF) j = Some j1 /\ shared (j_srv j1) = shared (j_srv j) /\
    pool (j_srv j1) !! t1 = Some (SR_queue (inl i) clientID (QI_start p clientID)) /\
    j_links j1 = <[i := Link (lk_conn l) (lk_bw l) (lk_up l + length (pfx ++ p)) (lk_down l) (lk_got l)]> (j_links j).
Proof.
  intros Hl Et Hc Hp Hd. pose proof (lookup_lt_Some _ _ _ Et) as Hlt. apply len_prefix_range in Hp as Hr.
  assert (Hne : pfx ++ p <> []) by (destruct pfx; [cbn in Hr; lia|done]).
  assert (Hn : next_bytes (up_stream l) (lk_up l) [pfx ++ p] = true).
  { unfold next_bytes. apply andb_true_intro. split; apply bool_decide_eq_true; [by constructor|].
    cbn. rewrite app_nil_r, Hd. by apply take_ge. }
  assert (Hdel : delivers ([] ++ pfx ++ p ++ []) EOF (Reader [pfx ++ p] EOF)).
  { split_and!; [cbn; by rewrite <- app_assoc|done|by constructor]. }
  destruct (ReadData_data [] pfx p [] EOF (Reader [pfx ++ p] EOF)) as (r & Er & Hf & _); [apply padding_nil|done|done|].
  cbn [jstep]. rewrite Et, Hl, Hc, Hn, Er. eexists. split.
  - erewrite srv_turn; [done|exact Et|]. cbn. by rewrite Hc.
  - joint_proj. split_and!; [done|by apply list_lookup_insert_eq|].
    unfold consumed. rewrite Hf. cbn. by rewrite app_nil_r, Nat.sub_0_r.
Qed.

(** It queues it. *)
Lemma squeue_steps j i t1 p :
  pool (j_srv j) !! t1 = Some (SR_queue (inl i) clientID (QI_start p clientID)) ->
  qc_closed (sv_pconn (shared (j_srv j))) = false -> length (qc_recvQueue (sv_pconn (shared (j_srv j)))) < queueSize ->
  exists j', jrun clientID [Srv (Turn t1 sv_quiet); Srv (Turn t1 sv_quiet)] j = Some j' /\
    qc_recvQueue (sv_pconn (shared (j_srv j'))) = qc_recvQueue (sv_pconn (shared (j_srv j))) ++ [(p, clientID)] /\
    pool (j_srv j') !! t1 = Some (SR_read (inl i) clientID) /\ j_links j' = j_links j.
Proof.
  intros Et Hcl Hq. pose proof (lookup_lt_Some _ _ _ Et) as Hlt. cbn [jrun jstep srv_allowed]. rewrite Et. cbn [srv_local].
  erewrite srv_turn; [|exact Et|cbn; unfold on_queue; cbn; by rewrite Hcl]. cbn [mbind option_bind]. joint_proj.
  rewrite list_lookup_insert_eq by done. cbn [srv_local].
  erewrite srv_turn; [|by apply list_lookup_insert_eq|cbn; unfold on_queue; cbn; by rewrite decide_True].
  eexists. split; [done|]. joint_proj. cbn [sv_pconn set_pconn set_recvQueue qc_recvQueue]. split_and!; [done| |done].
  apply list_lookup_insert_eq. by rewrite length_insert.
Qed.
End UpDown.

(** ** Properties *)

Abbreviation queue_turns t := [Srv (Turn t sv_quiet); Srv (Turn t sv_quiet)].


(** C3. Over all interleavings of the two ends and of other clients, however the WebSockets split,
    delay and cut off what they carry and however often the client dials again: the
    packets KCP receives at the server under the client's identifier are packets that KCP at the
    client has sent, each at most as often as it was sent, unaltered; and on
    each WebSocket they are accepted in the order in which the client tried to write them. *)
Theorem snowflake_up clientID l j :
  length clientID = 8 -> jrun clientID l started = Some j ->
  delivered_from clientID (j_str j) ⊆+ omap queued (j_ctr j) /\
  forall i, accepted_by (inl i) (j_str j) `sublist_of` tagged clientID (tried_on i (j_ctr j)).
Proof.
  intros Hid E. pose proof (sf_run_inv clientID Hid _ _ _ (sf_started_inv clientID) E) as Hj. split.
  - etrans; [|apply (up_contained clientID j Hj)]. destruct (delivered_accepted clientID _ _ (ji_srv _ _ Hj)) as [k ->].
    by apply submseteq_inserts_r.
  - intros i. by apply link_accepted.
Qed.

(** C4. The other direction, under the same conditions: the packets KCP receives at the client are
    packets that KCP at the server has sent to the client's identifier, never to another
    client, each at most as often as it was sent, and unaltered up to the 1500 bytes of the
    client's buffer; on each WebSocket the client reads them in the order in which the server
    tried to write them. *)
Theorem snowflake_down clientID l j :
  length clientID = 8 -> jrun clientID l started = Some j ->
  omap Redial.delivered (j_ctr j) ⊆+ take readBufSize <$> queued_to clientID (j_str j) /\
  forall i lk, j_links j !! i = Some lk -> lk_got lk `sublist_of` take readBufSize <$> handled_on i (j_str j).
Proof.
  intros Hid E. pose proof (sf_run_inv clientID Hid _ _ _ (sf_started_inv clientID) E) as Hj. split.
  - etrans; [|apply (down_contained clientID j Hj)]. destruct (queues_ok_reachable _ _ (ji_cli _ _ Hj)) as [-> _].
    by apply submseteq_inserts_r.
  - intros i lk Hl. destruct (ji_link _ _ Hj i lk Hl) as (_ & _ & full & -> & [_ (? & ? & ? & ps & _ & _ & _ & _ & _ & Hs)]).
    apply fmap_sublist. etrans; [|exact Hs]. by apply sublist_inserts_r.
Qed.

(** ** Witnesses: a packet goes up, the WebSocket breaks inside the next one, and after
    dialing again a packet comes down. *)

Definition sf_id : bytes := s2b "12345678".

Definition sf_first : list jact :=
  [Cli (Turn 0 (any 0)); Dial 0 (Ret (Some 30, None));
   Srv (Enter (SV_new (inl 0))); Srv (Turn 0 sv_quiet); SHello 0 [take 5 Token; drop 5 Token ++ sf_id] EOF;
   Cli (Enter (WT_start (s2b "one"))); Cli (Turn 3 (any 0)); Cli (Turn 3 (any 0)); Cli (Turn 2 (any 0))].

Definition sf_second : list jact :=
  sf_first ++
  [CWrite 2; SRead 1 [[Byte.x83]; s2b "on"; s2b "e"] EOF; Srv (Turn 1 sv_quiet); Srv (Turn 1 sv_quiet);
   Srv (Enter (QP (QueueConn.RF_start 100))); Srv (Turn 3 sv_quiet); Srv (Turn 3 sv_quiet);
   Cli (Enter (WT_start (s2b "twotwotwotwo"))); Cli (Turn 4 (any 0)); Cli (Turn 4 (any 0)); Cli (Turn 2 (any 0)); CWrite 2;
   SRead 1 [Byte.x8c :: s2b "twotwotwo"] EOF].

Definition sf_third : list jact :=
  sf_second ++
  [Cli (Turn 2 (any 0)); Cli (Turn 0 (any 0)); Cli (Turn 0 (any 0)); Cli (Turn 0 (any 0)); Dial 0 (Ret (None, None));
   Srv (Enter (SV_new (inl 1))); Srv (Turn 4 sv_quiet); SHello 4 [Token ++ sf_id] EOF; Srv (Turn 6 sv_quiet);
   Srv (Enter (QW sf_id (QueueConn.WT_start (s2b "down") sf_id))); Srv (Turn 7 sv_quiet); Srv (Turn 7 sv_quiet); Srv (Turn 7 sv_quiet);
   Srv (Turn 6 sv_quiet); SWrite 6;
   Cli (Turn 5 (any 0)); CRead 5 [Byte.x84 :: s2b "down"] EOF; Cli (Turn 5 (any 0));
   Cli (Enter (RF_start 100)); Cli (Turn 7 (any 0)); Cli (Turn 7 (any 0))].

Definition sf_end (l : list jact) : joint := default started (jrun sf_id l started).

Lemma sf_end_run l : is_Some (jrun sf_id l started) -> jrun sf_id l started = Some (sf_end l).
Proof. unfold sf_end. by intros [j ->]. Qed.
#[local] Opaque sf_end.

Lemma snowflake_up_witness :
  delivered_from sf_id (j_str (sf_end sf_third)) = [s2b "one"] /\
  delivered_from sf_id (j_str (sf_end sf_third)) ⊆+ omap queued (j_ctr (sf_end sf_third)).
Proof.
  split; [vm_compute; reflexivity|].
  refine (proj1 (snowflake_up sf_id sf_third (sf_end sf_third) eq_refl _)).
  apply sf_end_run. vm_compute. by eexists.
Defined.

Lemma snowflake_down_witness :
  omap Redial.delivered (j_ctr (sf_end sf_third)) = [s2b "down"] /\
  omap Redial.delivered (j_ctr (sf_end sf_third)) ⊆+ take readBufSize <$> queued_to sf_id (j_str (sf_end sf_third)).
Proof.
  split; [vm_compute; reflexivity|].
  refine (proj1 (snowflake_down sf_id sf_third (sf_end sf_third) eq_refl _)).
  apply sf_end_run. vm_compute. by eexists.
Defined.

Lemma sf_first_ready :
  exists l, ready_for sf_id (sf_end sf_first) 0 1 l /\ idle (ec_bw (lk_conn l)) /\
    has_room (3 + length (s2b "one")) (bw_wr (ec_bw (lk_conn l))).
Proof.
  eexists. split; [split_and!; [vm_compute; reflexivity..|vm_compute; lia]|].
  split; [split; [split; [reflexivity|vm_compute; lia]|reflexivity]|vm_compute; lia].
Qed.

