(* ===== verification/Sessions.v ===== *)
(** * The server's smux sessions (snowflake/common/standalone/handler.go, session.go)

    [acceptKCP] starts a goroutine [acceptSmux] per KCP connection; it registers its smux
    session in [smuxSessions] under the client's identifier, accepts streams until that
    fails, and removes the entry again.  KCP and smux are the environment. *)
From S2P Require Import Prelude Threads.

(** Sessions are numbered in the order they are made; [sv_closed] are those on which
    [Close] has been called. *)
Record Server := MkServer {
  sv_smuxSessions : gmap bytes nat;
  sv_closed : gset nat;
  sv_next : nat }.

(** What accepting a connection or a stream gives: an error may be temporary. *)
Inductive accepted (A : Type) := Got (a : A) | Temporary | Fatal.
Arguments Got {A} a.
Arguments Temporary {A}.
Arguments Fatal {A}.

(** The environment: [AcceptKCP] with the peer's address (if it is a ClientID), whether
    [smux.Server] succeeds, [AcceptStream]; [None]: not yet. *)
Record choice := Choice {
  ch_kcp : option (accepted (option bytes));
  ch_smux : bool;
  ch_stream : option (accepted unit) }.

Inductive pc :=
  | AK_loop                                   (* acceptKCP *)
  | AS_start (addr : option bytes)            (* acceptSmux, before smux.Server *)
  | AS_reg (id : bytes) (sess : nat)          (* registering under smuxMu *)
  | AS_run (addr : option bytes) (sess : nat) (* RunStreamAcceptor *)
  | AS_unreg (id : bytes) (sess : nat)        (* deferred: delete under smuxMu *)
  | AS_sessclose (sess : nat)                 (* deferred: sess.Close() *)
  | AS_connclose                              (* deferred: conn.Close() *)
  | Stream (sess : nat)                       (* handleInboundStream *)
  | Finished.

(** A stream of a session was handed to handleInboundStream. *)
Inductive event := StreamAccepted (sess : nat).

Definition set_sessions s m := MkServer m (sv_closed s) (sv_next s).
Definition close_session s n := MkServer (sv_smuxSessions s) ({[n]} ∪ sv_closed s) (sv_next s).

Abbreviation outcome := (Server * pc * list pc * list event)%type.

Definition acceptKCP (x : choice) (s : Server) : option outcome :=
  match ch_kcp x with
  | None => None
  | Some (Got addr) => Some (s, AK_loop, [AS_start addr], [])
  | Some Temporary => Some (s, AK_loop, [], [])
  | Some Fatal => Some (s, Finished, [], [])
  end.

(** Register: close the session registered before, if any, and replace it. *)
Definition register (s : Server) (id : bytes) (sess : nat) : Server :=
  let s' := match sv_smuxSessions s !! id with Some old => close_session s old | None => s end in
  set_sessions s' (<[id := sess]> (sv_smuxSessions s')).

Definition RunStreamAcceptor (x : choice) (s : Server) (addr : option bytes) (sess : nat) : option outcome :=
  match ch_stream x with
  | None => None
  | Some (Got _) => Some (s, AS_run addr sess, [Stream sess], [StreamAccepted sess])
  | Some Temporary => Some (s, AS_run addr sess, [], [])
  | Some Fatal => Some (s, match addr with Some id => AS_unreg id sess | None => AS_connclose end, [], [])
  end.

Definition acceptSmux (x : choice) (s : Server) (t : pc) : option outcome :=
  match t with
  | AS_start addr =>
      if ch_smux x then
        let sess := sv_next s in
        Some (MkServer (sv_smuxSessions s) (sv_closed s) (S sess),
              match addr with Some id => AS_reg id sess | None => AS_run None sess end, [], [])
      else Some (s, AS_connclose, [], [])
  | AS_reg id sess => Some (register s id sess, AS_run (Some id) sess, [], [])
  | AS_run addr sess => RunStreamAcceptor x s addr sess
  | AS_unreg id sess => Some (set_sessions s (delete id (sv_smuxSessions s)), AS_sessclose sess, [], [])
  | AS_sessclose sess => Some (close_session s sess, AS_connclose, [], [])
  | AS_connclose => Some (s, Finished, [], [])
  | _ => None
  end.

Definition server_step (x : choice) (s : Server) (t : pc) : option outcome :=
  match t with AK_loop => acceptKCP x s | _ => acceptSmux x s t end.

#[export] Instance server_machine : Machine Server pc event choice :=
  {| act := server_step; callable := fun _ => false |}.

Definition NewServer : system Server pc := System (MkServer ∅ ∅ 0) [AK_loop].
Definition reachable : list event -> system Server pc -> Prop := moves NewServer.

(** ** One goroutine per session *)

Definition owner (n : nat) (t : pc) : nat :=
  match t with
  | AS_reg _ m | AS_run _ m | AS_unreg _ m | AS_sessclose m => if decide (n = m) then 1 else 0
  | _ => 0
  end.

Ltac server_cases E :=
  match type of E with server_step _ _ ?t = _ => destruct t end;
  cbn [server_step acceptSmux] in E; unfold acceptKCP, RunStreamAcceptor in E;
  repeat match type of E with
  | context [match ?v with _ => _ end] => destruct v eqn:?; try discriminate E
  end; try discriminate E; injection E as <- <- <- <-.

Lemma live_owner_step x s t s' t' new evs n :
  server_step x s t = Some (s', t', new, evs) ->
  sv_next s <= sv_next s' /\
  (owner n t' + total (owner n) new <= owner n t \/
   n = sv_next s /\ sv_next s' = S n /\ owner n t' + total (owner n) new = 1).
Proof.
  intros E. server_cases E; unfold total, register; cbn; repeat case_match; cbn; repeat case_decide;
    simplify_eq; (split; [cbn; lia|]); first [left; lia|right; split_and!; lia].
Qed.

(** Each session has at most one goroutine, and none before it is made. *)
Definition one_owner (s : system Server pc) : Prop :=
  forall n, total (owner n) (pool s) <= if decide (n < sv_next (shared s)) then 1 else 0.

Lemma one_owner_reachable tr s : reachable tr s -> one_owner s.
Proof.
  apply moves_ind_inv; [intros n; unfold total; cbn; case_decide; lia|].
  intros s1 evs s2 Hone Hm n. destruct Hm as [|s1 i t x s' t' new evs Ei E]; [done|].
  specialize (Hone n). cbn in E |- *. rewrite total_app. pose proof (total_insert (owner n) _ _ _ t' Ei) as Hi.
  destruct (live_owner_step x _ t s' t' new evs n E) as [Hle [H|(-> & -> & H)]].
  - repeat case_decide; lia.
  - rewrite decide_False in Hone by lia. rewrite decide_True by lia. lia.
Qed.

(** ** The table *)

(** [t] is the goroutine that serves session [n] of client [id], or is about to remove it. *)
Definition serves (id : bytes) (n : nat) (t : pc) : Prop := t = AS_run (Some id) n \/ t = AS_unreg id n.

Record table_ok (s : system Server pc) : Prop := {
  tab_open id n : sv_smuxSessions (shared s) !! id = Some n -> n ∉ sv_closed (shared s);
  tab_served id n : sv_smuxSessions (shared s) !! id = Some n ->
    exists k t, pool s !! k = Some t /\ serves id n t;
  tab_reg k id n : pool s !! k = Some (AS_reg id n) -> n ∉ sv_closed (shared s);
  tab_next n : n ∈ sv_closed (shared s) -> n < sv_next (shared s) }.

(** Two goroutines of the same session are the same goroutine. *)
Lemma owner_unique s n i k t u :
  one_owner s -> pool s !! i = Some t -> pool s !! k = Some u -> owner n t = 1 -> owner n u = 1 -> i = k.
Proof.
  intros Hone Ei Ek. apply (total_unique (owner n) (pool s)); [|done..].
  specialize (Hone n). case_decide; lia.
Qed.

Lemma owner_lt s n i t : one_owner s -> pool s !! i = Some t -> owner n t = 1 -> n < sv_next (shared s).
Proof.
  intros Hone Ei Ho. specialize (Hone n). pose proof (total_one (owner n) _ _ _ Ei). case_decide; lia.
Qed.

Lemma owner_1 n : forall t, owner n t = 1 <->
  match t with AS_reg _ m | AS_run _ m | AS_unreg _ m | AS_sessclose m => m = n | _ => False end.
Proof. intros []; cbn; try case_decide; split; intros; subst; try done; lia. Qed.

Lemma serves_owner id n t : serves id n t -> owner n t = 1.
Proof. intros [->| ->]; by apply owner_1. Qed.

(** The goroutines that serve a session other than the one that acts still do. *)
Lemma served_kept (s : system Server pc) i t t' new id n k u :
  pool s !! i = Some t -> pool s !! k = Some u -> serves id n u -> k <> i ->
  exists k' u', (<[i := t']> (pool s) ++ new) !! k' = Some u' /\ serves id n u'.
Proof.
  intros Ei Ek Hs Hne. exists k, u. split; [|done]. apply lookup_app_l_Some.
  by rewrite list_lookup_insert_ne.
Qed.

Lemma served_self (s : system Server pc) i t t' new id n :
  pool s !! i = Some t -> serves id n t' ->
  exists k' u', (<[i := t']> (pool s) ++ new) !! k' = Some u' /\ serves id n u'.
Proof.
  intros Ei Hs. exists i, t'. split; [|done]. apply lookup_app_l_Some.
  by eapply list_lookup_insert_eq, lookup_lt_Some.
Qed.

(** A goroutine about to register is one that was, or has just made its session. *)
Lemma reg_lookup x s i t s' t' new evs k id n :
  pool s !! i = Some t -> server_step x (shared s) t = Some (s', t', new, evs) ->
  (<[i := t']> (pool s) ++ new) !! k = Some (AS_reg id n) ->
  (k <> i /\ pool s !! k = Some (AS_reg id n)) \/ (n = sv_next (shared s) /\ sv_closed s' = sv_closed (shared s)).
Proof.
  intros Ei E [[-> <-]|[[Hk Ek]|[_ Hin]]]%pool_lookup_move; [|by left|].
  - right. server_cases E; done.
  - exfalso. server_cases E; set_solver.
Qed.

Lemma closed_cases x s t s' t' new evs m :
  server_step x s t = Some (s', t', new, evs) -> m ∈ sv_closed s' ->
  m ∈ sv_closed s \/ t = AS_sessclose m \/
  exists id n0, t = AS_reg id n0 /\ sv_smuxSessions s !! id = Some m.
Proof.
  intros E. server_cases E; cbn; auto; [|set_solver].
  unfold register. destruct (sv_smuxSessions s !! id) as [old|] eqn:Eo; cbn; auto.
  intros [->%elem_of_singleton|?]%elem_of_union; [right; right; eauto|by left].
Qed.

Lemma sessions_cases x s t s' t' new evs id n :
  server_step x s t = Some (s', t', new, evs) -> sv_smuxSessions s' !! id = Some n ->
  (t = AS_reg id n /\ t' = AS_run (Some id) n) \/
  (sv_smuxSessions s !! id = Some n /\ (forall m, t <> AS_unreg id m) /\ forall m, t <> AS_reg id m).
Proof.
  intros E. server_cases E; cbn; auto.
  - unfold register. set (s1 := match sv_smuxSessions s !! id0 with Some old => _ | None => _ end).
    assert (Hs1 : sv_smuxSessions s1 = sv_smuxSessions s) by (unfold s1; by case_match). cbn. rewrite Hs1.
    intros [[-> ->]|[Hne ?]]%lookup_insert_Some; [by left|right]. split_and!; [done|done|congruence].
  - intros [Hne ?]%lookup_delete_Some. right. split_and!; [done|congruence|done].
Qed.

Lemma serves_step x s t s' t' new evs id n :
  server_step x s t = Some (s', t', new, evs) -> serves id n t -> serves id n t' \/ t = AS_unreg id n.
Proof.
  intros E [->| ->]; [left|by right]. cbn in E. unfold RunStreamAcceptor in E.
  destruct (ch_stream x) as [[]|]; try done; injection E as _ <- _ _; (by left) || by right.
Qed.

(** A session that is being closed has no other goroutine that could register it, and
    no entry left in the table. *)
Lemma newly_closed s i x t s' t' new evs m :
  one_owner s -> table_ok s -> pool s !! i = Some t -> server_step x (shared s) t = Some (s', t', new, evs) ->
  m ∈ sv_closed s' -> m ∉ sv_closed (shared s) ->
  m < sv_next (shared s) /\ (forall k id, k <> i -> pool s !! k <> Some (AS_reg id m)) /\
  (forall id, sv_smuxSessions s' !! id <> Some m).
Proof.
  intros Hone [To Ts Tr Tn] Ei E Hm Hn.
  destruct (closed_cases _ _ _ _ _ _ _ _ E Hm) as [?|[->|(id0 & n0 & -> & E0)]]; [done| |].
  - assert (Hi : owner m (AS_sessclose m) = 1) by (by apply owner_1).
    split_and!; [by eapply owner_lt| |].
    + intros k id Hk Ek. apply Hk. symmetry. eapply (owner_unique s m); eauto; by apply owner_1.
    + intros id Em. destruct (sessions_cases _ _ _ _ _ _ _ _ _ E Em) as [[? _]|(Em' & _)]; [done|].
      destruct (Ts id m Em') as (k & u & Ek & Hu). pose proof (serves_owner _ _ _ Hu) as Ho.
      assert (i = k) as <- by (by eapply (owner_unique s m)). rewrite Ei in Ek. injection Ek as <-. by destruct Hu.
  - destruct (Ts id0 m E0) as (k0 & u0 & Ek0 & Hu0). pose proof (serves_owner _ _ _ Hu0) as Ho0.
    split_and!; [by eapply owner_lt| |].
    + intros k id Hk Ek. assert (k0 = k) as <- by (eapply (owner_unique s m); eauto; by apply owner_1).
      rewrite Ek0 in Ek. injection Ek as ->. by destruct Hu0.
    + intros id Em. destruct (sessions_cases _ _ _ _ _ _ _ _ _ E Em) as [[[= -> ->] _]|(Em' & _ & Hr)].
      * assert (k0 = i) as -> by (eapply (owner_unique s m); eauto; by apply owner_1).
        rewrite Ei in Ek0. injection Ek0 as <-. by destruct Hu0.
      * destruct (Ts id m Em') as (k & u & Ek & Hu). pose proof (serves_owner _ _ _ Hu) as Ho.
        assert (k0 = k) as <- by (by eapply (owner_unique s m)). rewrite Ek0 in Ek. injection Ek as <-.
        apply (Hr n0). destruct Hu0 as [->| ->], Hu as [[=]|[=]]; congruence.
Qed.

Lemma table_ok_move s evs s' : one_owner s -> table_ok s -> move s evs s' -> table_ok s'.
Proof.
  intros Hone Htab Hm. revert Hone Htab. destruct Hm as [s t|s i t x s' t' new evs Ei E]; [done|].
  intros Hone Htab. cbn in E. pose proof (newly_closed s i x t s' t' new evs) as Hnew.
  specialize (fun m => Hnew m Hone Htab Ei E). destruct Htab as [To Ts Tr Tn].
  split; cbn.
  - intros id n En Hc. destruct (decide (n ∈ sv_closed (shared s))) as [Hc'|Hc'].
    + destruct (sessions_cases _ _ _ _ _ _ _ _ _ E En) as [[-> _]|(En' & _)]; [by eapply Tr|by eapply To].
    + destruct (Hnew n Hc Hc') as (_ & _ & H). by eapply H.
  - intros id n En. destruct (sessions_cases _ _ _ _ _ _ _ _ _ E En) as [[-> ->]|(En' & Hu & _)].
    + eapply served_self; [done|by left].
    + destruct (Ts id n En') as (k & u & Ek & Hs). destruct (decide (k = i)) as [->|Hne].
      * rewrite Ei in Ek. injection Ek as <-.
        destruct (serves_step _ _ _ _ _ _ _ _ _ E Hs) as [?| ->]; [by eapply served_self|by destruct (Hu n)].
      * by eapply served_kept.
  - intros k id n Ek Hc. destruct (reg_lookup _ _ _ _ _ _ _ _ _ _ _ Ei E Ek) as [[Hk Ek']|[-> Hcl]].
    + destruct (decide (n ∈ sv_closed (shared s))) as [Hc'|Hc']; [by eapply Tr|].
      destruct (Hnew n Hc Hc') as (_ & H & _). by eapply H.
    + rewrite Hcl in Hc. apply Tn in Hc. lia.
  - intros n Hc. destruct (live_owner_step _ _ _ _ _ _ _ n E) as [Hle _].
    destruct (decide (n ∈ sv_closed (shared s))) as [Hc'|Hc']; [apply Tn in Hc'; lia|].
    destruct (Hnew n Hc Hc') as (H & _). lia.
Qed.

Lemma table_ok_reachable tr s : reachable tr s -> table_ok s.
Proof.
  induction 1 as [|tr s evs s' Hm IH Hs].
  - split; cbn; [done|done| |set_solver]. intros [|k] id n E; by simplify_eq/=.
  - eapply table_ok_move; eauto using one_owner_reachable.
Qed.

(** ** Properties *)


Definition kcp id : choice := Choice (Some (Got (Some id))) true None.
Definition go : choice := Choice None true None.
Definition fail : choice := Choice None true (Some Fatal).

(** A client's second session replaces the first, whose goroutine then ends. *)
Definition replaced (id : bytes) : list (turn (Pc := pc) (Ch := choice)) :=
  [Turn 0 (kcp id); Turn 1 go; Turn 1 go; Turn 0 (kcp id); Turn 2 go; Turn 2 go; Turn 1 fail; Turn 1 go].

(** ... and a third one is made. *)
Definition replaced_twice (id : bytes) : list (turn (Pc := pc) (Ch := choice)) :=
  replaced id ++ [Turn 0 (kcp id); Turn 3 go; Turn 3 go].

(** The table can lose a live session: the deferred delete of a session that
    was replaced removes whatever is registered under the identifier, so after a client's
    second session has replaced the first and the first has ended, the second is alive
    and open but no longer registered; a third session then does not close it, and two
    sessions of the same client are served at once. *)
Theorem session_forgotten id :
  (exists s, reachable [] s /\ sv_smuxSessions (shared s) !! id = None /\
     pool s !! 2 = Some (AS_run (Some id) 1) /\ 1 ∉ sv_closed (shared s)) /\
  (exists s, reachable [] s /\ sv_smuxSessions (shared s) !! id = Some 2 /\
     pool s !! 2 = Some (AS_run (Some id) 1) /\ 1 ∉ sv_closed (shared s)).
Proof.
  split.
  - eexists. split; [apply (play_moves (replaced id)); cbn; unfold register; cbn;
      rewrite lookup_empty; cbn; rewrite lookup_insert_eq; cbn; reflexivity|].
    cbn. split_and!; [by rewrite lookup_delete_eq|done|set_solver].
  - eexists. split; [apply (play_moves (replaced_twice id)); cbn; unfold register; cbn;
      rewrite lookup_empty; cbn; rewrite lookup_insert_eq; cbn; rewrite lookup_delete_eq; cbn; reflexivity|].
    cbn. split_and!; [by rewrite lookup_insert_eq|done|set_solver].
Qed.

Definition demo_id : bytes := s2b "client-1".
Definition demo_final : system Server pc :=
  default NewServer (snd <$> play (replaced_twice demo_id) NewServer).

