(* ===== verification/DpiCommon.v ===== *)
(** * The DPI tunnel's wire format (dpi/common)

    protocol.go: the 10-byte stream header.  serialize.go: the connect request.
    crypto.go: AES-GCM with a random nonce in front; the cipher itself is the
    class [AEAD], of which only the documented behaviour ([AEADLaws]) is used. *)
From S2P Require Import Prelude GoIO.
Local Open Scope Z_scope.

(** ** protocol.go *)

Definition Version : Z := 1.
Definition MsgConnect : Z := 0x01.
Definition MsgData : Z := 0x02.
Definition MsgClose : Z := 0x03.
Definition StreamHeaderSize : nat := 10.

Record StreamHeader := Header {
  sh_Version : Z;
  sh_MsgType : Z;
  sh_ConnID : Z;
  sh_PayloadLen : Z }.

(** The four stores into the header buffer [h]. *)
Definition header_bytes (msgType connID payloadLen : Z) : bytes :=
  to_byte Version :: to_byte msgType :: be_put 4 connID ++ be_put 4 payloadLen.

Definition WriteStreamHeader {W} `{IOWriter W} (msgType connID payloadLen : Z) (w : W)
  : option error * W :=
  let '(_, err, w') := io_write (header_bytes msgType connID payloadLen) w in (err, w').

(** The four loads from a buffer of at least [StreamHeaderSize] bytes. *)
Definition parse_header (buf : bytes) : StreamHeader :=
  Header (bval (nth 0 buf Byte.x00)) (bval (nth 1 buf Byte.x00))
    (be_get (take 4 (drop 2 buf))) (be_get (take 4 (drop 6 buf))).

Definition ReadStreamHeader : io reader StreamHeader :=
  buf ← ReadFull StreamHeaderSize; mret (parse_header buf).

(** [ConnectRequest] *)
Record ConnectRequest := Connect { cq_Network : bytes; cq_Address : bytes }.

(** ** serialize.go *)

Definition EncodeConnectRequest (req : ConnectRequest) : bytes :=
  be_put 2 (u16 (len (cq_Network req))) ++ cq_Network req ++
  be_put 2 (u16 (len (cq_Address req))) ++ cq_Address req.

(** [2+netLen] is computed in [uint16]. *)
Definition DecodeConnectRequest (data : bytes) : res ConnectRequest :=
  if len data <? 4 then Err (ErrMsg "payload too short")
  else
    hd ← slice 0 2 data;
    let netLen := be_get hd in
    if len data <? 4 + netLen then Err (ErrMsg "invalid network length")
    else
      network ← slice 2 (u16 (2 + netLen)) data;
      let off := u16 (2 + netLen) in
      al ← slice off (off + 2) data;
      let addrLen := be_get al in
      let off := off + 2 in
      if len data <? off + addrLen then Err (ErrMsg "invalid address length")
      else
        address ← slice off (off + addrLen) data;
        Ret (Connect network address).

(** ** crypto.go *)

Definition NonceSize : nat := 12.
Definition TagSize : nat := 16.

(** [cipher.AEAD]; the additional data is always nil. *)
Class AEAD := { Seal : bytes -> bytes -> bytes; Open : bytes -> bytes -> res bytes }.

(** What crypto/cipher documents: [Open] inverts [Seal], a sealed message is
    [Overhead()] = 16 bytes longer, [Open] returns an error rather than panicking for
    a nonce of the right size. *)
Class AEADLaws `{AEAD} := {
  Open_Seal nonce p : length nonce = NonceSize -> Open nonce (Seal nonce p) = Ret p;
  length_Seal nonce p : length nonce = NonceSize -> length (Seal nonce p) = (length p + TagSize)%nat;
  Open_total nonce c why : length nonce = NonceSize -> Open nonce c <> Panic why;
  Open_length nonce c p : length nonce = NonceSize -> Open nonce c = Ret p ->
    length c = (length p + TagSize)%nat }.

Section Crypto.
Context `{aead : AEAD}.

(** The state is [rand.Reader]. *)
Definition Encrypt (plaintext : bytes) : io reader bytes :=
  nonce ← ReadFull NonceSize;
  mret (nonce ++ Seal nonce plaintext).

Definition Decrypt (data : bytes) : res bytes :=
  if (length data <? NonceSize + TagSize)%nat then Err ErrInvalidCiphertext
  else Open (take NonceSize data) (drop NonceSize data).

Definition EncryptStream : bytes -> io reader bytes := Encrypt.
Definition DecryptStream : bytes -> res bytes := Decrypt.
End Crypto.

(** ** Headers *)

Lemma length_header t c p : length (header_bytes t c p) = StreamHeaderSize.
Proof. done. Qed.

Lemma parse_header_bytes t c p suf :
  parse_header (header_bytes t c p ++ suf) = Header Version (t mod 256) (u32 c) (u32 p).
Proof.
  unfold parse_header, header_bytes, u32.
  pose proof (be_get_put 4 c) as Ec. pose proof (be_get_put 4 p) as Ep.
  pose proof (length_be_put 4 c) as Lc. pose proof (length_be_put 4 p) as Lp.
  generalize dependent (be_put 4 p). generalize dependent (be_put 4 c). intros cb Ec Lc pb Ep Lp.
  change (drop 2 (to_byte Version :: to_byte t :: cb ++ pb)) with (cb ++ pb).
  change (nth 0 ((to_byte Version :: to_byte t :: cb ++ pb) ++ suf) Byte.x00) with (to_byte Version).
  change (nth 1 ((to_byte Version :: to_byte t :: cb ++ pb) ++ suf) Byte.x00) with (to_byte t).
  change (drop 2 ((to_byte Version :: to_byte t :: cb ++ pb) ++ suf)) with ((cb ++ pb) ++ suf).
  change (drop 6 ((to_byte Version :: to_byte t :: cb ++ pb) ++ suf)) with (drop 4 ((cb ++ pb) ++ suf)).
  rewrite <- app_assoc, (take_app_length' cb), (drop_app_length' cb), (take_app_length' pb) by done.
  by rewrite !bval_to_byte, Ec, Ep.
Qed.

(** ** Connect requests *)

Lemma be_get2_range bs : length bs = 2%nat -> 0 <= be_get bs < 65536.
Proof. intros H. pose proof (be_get_range bs) as R. unfold len in R. by rewrite H in R. Qed.

(** The four shapes of a payload: too short, a network length that runs past the
    end, one the [uint16] sum wraps on, an address length that runs past the end
    or a well-formed request. *)
Lemma Decode_cases data :
  match DecodeConnectRequest data with
  | Ret req => exists junk, data = EncodeConnectRequest req ++ junk /\
      len (cq_Network req) < 65534 /\ len (cq_Address req) < 65536
  | Err (ErrMsg _) => True
  | Err _ => False
  | Panic _ => exists hd rest, data = hd ++ rest /\ length hd = 2%nat /\
      65534 <= be_get hd /\ be_get hd + 2 <= len rest
  end.
Proof.
  unfold DecodeConnectRequest. destruct (Z.ltb_spec (len data) 4) as [|H4]; [done|].
  destruct (slice_ok 0 2 data) as (p0 & hd & rest & -> & L0 & Lhd & ->); [lia|lia|].
  assert (p0 = []) as -> by (destruct p0; [done|unfold len in L0; cbn in L0; lia]).
  cbn [app mbind res_bind]. rewrite app_nil_l, len_app in *.
  assert (Hl2 : length hd = 2%nat) by (unfold len in Lhd; lia).
  pose proof (be_get2_range hd Hl2) as Hn.
  destruct (Z.ltb_spec (len hd + len rest) (4 + be_get hd)) as [|Hnet]; [done|].
  destruct (decide (65534 <= be_get hd)) as [Hbig|Hsmall].
  { rewrite (slice_reversed 2 (u16 (2 + be_get hd))). 2:{ unfold u16. change (2 ^ 16) with 65536. mlia. }
    cbn. exists hd, rest. split_and!; [done|done|done|lia]. }
  assert (E16 : u16 (2 + be_get hd) = 2 + be_get hd) by (unfold u16; apply Z.mod_small; lia).
  rewrite E16.
  destruct (len_take_drop (Z.to_nat (be_get hd)) rest) as (network & rest1 & -> & Ln);
    [unfold len in *; lia|].
  assert (Ln' : len network = be_get hd) by (unfold len; lia).
  rewrite (slice_app hd network rest1 2 (2 + be_get hd)) by lia. cbn [mbind res_bind].
  rewrite len_app in *.
  destruct (len_take_drop 2 rest1) as (al & rest2 & -> & La); [unfold len in *; lia|].
  assert (La' : len al = 2) by (unfold len; lia).
  rewrite (app_assoc hd network), (slice_app (hd ++ network) al rest2 (2 + be_get hd) (2 + be_get hd + 2)) by (rewrite len_app; lia).
  cbn [mbind res_bind]. pose proof (be_get2_range al La) as Ha.
  rewrite !len_app in *.
  zcases; [done|].
  destruct (len_take_drop (Z.to_nat (be_get al)) rest2) as (address & junk & -> & Lb);
    [unfold len in *; lia|].
  assert (Lb' : len address = be_get al) by (unfold len; lia).
  rewrite (app_assoc (hd ++ network) al), (slice_app ((hd ++ network) ++ al) address junk)
    by (rewrite !len_app; lia).
  cbn [mbind res_bind]. exists junk. unfold EncodeConnectRequest. cbn [cq_Network cq_Address].
  split_and!; [|lia|lia]. rewrite Ln', Lb'. unfold u16. rewrite !Z.mod_small by lia.
  assert (be_put 2 (be_get hd) = hd) as -> by (rewrite <- (be_put_get hd) at 2; by rewrite Hl2).
  assert (be_put 2 (be_get al) = al) as -> by (rewrite <- (be_put_get al) at 2; by rewrite La).
  by rewrite <- !app_assoc.
Qed.

Lemma len_Encode req :
  len (EncodeConnectRequest req) = 4 + len (cq_Network req) + len (cq_Address req).
Proof.
  unfold EncodeConnectRequest. rewrite !len_app.
  assert (E : forall z, len (be_put 2 z) = 2) by done. rewrite !E. lia.
Qed.

Lemma Decode_Encode req junk :
  len (cq_Network req) < 65534 -> len (cq_Address req) < 65536 ->
  DecodeConnectRequest (EncodeConnectRequest req ++ junk) = Ret req.
Proof.
  destruct req as [net addr]. unfold EncodeConnectRequest. cbn [cq_Network cq_Address]. intros Hn Ha.
  pose proof (len_nonneg net). pose proof (len_nonneg addr). pose proof (len_nonneg junk).
  unfold u16. rewrite !Z.mod_small by lia.
  pose proof (be_get_put 2 (len net)) as En. pose proof (be_get_put 2 (len addr)) as Ea.
  rewrite Z.mod_small in En, Ea by lia.
  assert (Ln : len (be_put 2 (len net)) = 2) by done.
  assert (La : len (be_put 2 (len addr)) = 2) by done.
  generalize dependent (be_put 2 (len net)). generalize dependent (be_put 2 (len addr)).
  intros ab Ea La nb En Ln. rewrite <- !app_assoc. unfold DecodeConnectRequest.
  rewrite !len_app. zcases; [lia|].
  rewrite (slice_head nb) by lia. cbn [mbind res_bind]. rewrite En.
  zcases; [lia|]. unfold u16. rewrite !Z.mod_small by lia.
  rewrite (slice_app nb net _ 2 (2 + len net)) by lia. cbn [mbind res_bind].
  rewrite (app_assoc nb net), (slice_app (nb ++ net) ab _ (2 + len net) (2 + len net + 2)) by (rewrite ?len_app; lia).
  cbn [mbind res_bind]. rewrite Ea. zcases; [lia|].
  rewrite (app_assoc (nb ++ net) ab), (slice_app ((nb ++ net) ++ ab) addr) by (rewrite ?len_app; lia).
  done.
Qed.

(** ** Encryption *)

Section CryptoLemmas.
Context `{laws : AEADLaws}.

Lemma Decrypt_sealed nonce p :
  length nonce = NonceSize -> Decrypt (nonce ++ Seal nonce p) = Ret p.
Proof.
  intros Hn. unfold Decrypt. rewrite length_app, length_Seal, Hn by done.
  destruct (Nat.ltb_spec (NonceSize + (length p + TagSize)) (NonceSize + TagSize)); [lia|].
  rewrite take_app_length', drop_app_length' by done. by apply Open_Seal.
Qed.

Lemma Decrypt_nopanic data why : Decrypt data <> Panic why.
Proof.
  unfold Decrypt. destruct (Nat.ltb_spec (length data) (NonceSize + TagSize)); [done|].
  apply Open_total. rewrite length_take. lia.
Qed.

Lemma Decrypt_length data p :
  Decrypt data = Ret p -> length data = (NonceSize + TagSize + length p)%nat.
Proof.
  unfold Decrypt. destruct (Nat.ltb_spec (length data) (NonceSize + TagSize)); [done|].
  intros E. apply Open_length in E; [|rewrite length_take; lia]. rewrite length_drop in E. lia.
Qed.

(** A fresh nonce is consumed and everything else is determined by it. *)
Lemma Encrypt_cases p rnd :
  (NonceSize <= length (flat rnd) /\ exists nonce rnd', advanced NonceSize rnd rnd' /\
     length nonce = NonceSize /\ Encrypt p rnd = (Ret (nonce ++ Seal nonce p), rnd'))%nat \/
  (length (flat rnd) < NonceSize /\ exists e rnd', Encrypt p rnd = (Err e, rnd'))%nat.
Proof.
  unfold Encrypt.
  destruct (readFull_loop_spec (S (length (r_chunks rnd))) NonceSize [] rnd) as
    [(Hl & r' & Ha & E)|(Hl & r' & Ha & E)]; [lia| |].
  - left. split; [done|]. exists (take NonceSize (flat rnd)), r'.
    split_and!; [done|rewrite length_take; lia|]. by erewrite io_bind_ret by exact E.
  - right. split; [done|]. eexists _, r'. by erewrite io_bind_err by exact E.
Qed.
End CryptoLemmas.

(** ** Properties *)

(** C36. [DecodeConnectRequest] accepts exactly the encodings of requests
    whose network name is shorter than 65534 and whose address is shorter than 65536
    bytes (with anything after them), and returns that request; and it panics exactly
    on a payload that announces a network name of 65534 or 65535 bytes and is long
    enough to hold it, because [2+netLen] wraps in [uint16]. *)
Theorem DecodeConnectRequest_spec data :
  (forall req, DecodeConnectRequest data = Ret req <->
     len (cq_Network req) < 65534 /\ len (cq_Address req) < 65536 /\
     exists junk, data = EncodeConnectRequest req ++ junk) /\
  ((exists why, DecodeConnectRequest data = Panic why) <->
     exists hd rest, data = hd ++ rest /\ length hd = 2%nat /\
       65534 <= be_get hd /\ be_get hd + 2 <= len rest).
Proof.
  pose proof (Decode_cases data) as Hc. split; [intros req|]; split.
  - intros E. rewrite E in Hc. destruct Hc as (junk & ? & ? & ?). eauto.
  - intros (Hn & Ha & junk & ->). by apply Decode_Encode.
  - intros [why E]. by rewrite E in Hc.
  - intros (hd & rest & -> & Hl & Hb & Hr).
    unfold DecodeConnectRequest. assert (len hd = 2) by (unfold len; lia).
    rewrite len_app. zcases; [lia|].
    rewrite (slice_head hd) by lia. cbn [mbind res_bind]. zcases; [lia|].
    rewrite (slice_reversed 2 (u16 (2 + be_get hd))); [by eexists|].
    pose proof (be_get2_range hd Hl). unfold u16. change (2 ^ 16) with 65536. mlia.
Qed.

(** The stream header round trip: what [WriteStreamHeader] writes,
    [ReadStreamHeader] reads back, however the network splits it, leaving the bytes
    after it; a stream that ends inside the header gives an error. *)
Theorem stream_header_roundtrip (t c p : Z) (suf : bytes) (e : error) (r : reader) (w : writer) :
  0 <= t < 256 -> 0 <= c < 2 ^ 32 -> 0 <= p < 2 ^ 32 -> has_room StreamHeaderSize w ->
  exists hdr w', WriteStreamHeader t c p w = (None, w') /\ w_out w' = w_out w ++ hdr /\
    (delivers (hdr ++ suf) e r ->
       exists r', ReadStreamHeader r = (Ret (Header Version t c p), r') /\ delivers suf e r') /\
    (forall k, (k < StreamHeaderSize)%nat -> delivers (take k hdr) EOF r ->
       exists err r', ReadStreamHeader r = (Err err, r')).
Proof.
  intros Ht Hc Hp Hw. exists (header_bytes t c p). unfold WriteStreamHeader, io_write, writer_IOWriter.
  rewrite write_ok by done. eexists. split_and!; [done|done| |].
  - intros Hr. destruct (ReadFull_delivers (header_bytes t c p) suf e StreamHeaderSize r)
      as (r' & E & Hr'); [done|done|].
    exists r'. split; [|done]. unfold ReadStreamHeader. erewrite io_bind_ret by exact E.
    rewrite <- (app_nil_r (header_bytes t c p)), parse_header_bytes. unfold u32.
    by rewrite !Z.mod_small by lia.
  - intros k Hk Hr. destruct (ReadFull_delivers_short (take k (header_bytes t c p)) EOF StreamHeaderSize r)
      as (r' & E & _); [done|rewrite length_take, length_header; lia|].
    eexists _, r'. unfold ReadStreamHeader. by erewrite io_bind_err by exact E.
Qed.

(** Encryption round trip: with 12 random bytes to draw, [Encrypt]
    succeeds, its output is 28 bytes longer than the plaintext and [Decrypt] returns
    the plaintext; without them [Encrypt] returns an error and nothing is sent.
    [Decrypt] never panics, whatever it is given, and what it accepts is 28 bytes
    longer than what it returns. *)
Theorem encrypt_roundtrip `{laws : AEADLaws} (p : bytes) (rnd : reader) :
  match Encrypt p rnd with
  | (Ret c, _) => Decrypt c = Ret p /\ length c = (length p + 28)%nat /\ (NonceSize <= length (flat rnd))%nat
  | (Err _, _) => (length (flat rnd) < NonceSize)%nat
  | (Panic _, _) => False
  end /\
  forall data, match Decrypt data with
    | Ret q => length data = (length q + 28)%nat
    | Err _ => True
    | Panic _ => False
    end.
Proof.
  split.
  - destruct (Encrypt_cases p rnd) as [(Hl & nonce & r' & _ & Hn & ->)|(Hl & err & r' & ->)]; [|done].
    split_and!; [by apply Decrypt_sealed| |done].
    rewrite length_app, length_Seal, Hn by done. unfold NonceSize, TagSize. lia.
  - intros data. destruct (Decrypt data) eqn:E; [|done|by apply Decrypt_nopanic in E].
    apply Decrypt_length in E. unfold NonceSize, TagSize in E. lia.
Qed.

(** ** A concrete cipher for the witnesses: the identity with a constant tag. *)

Definition toy_tag : bytes := replicate TagSize Byte.x2a.
Definition toy_aead : AEAD := {|
  Seal _ p := p ++ toy_tag;
  Open _ c := if decide (drop (length c - TagSize) c = toy_tag)
              then Ret (take (length c - TagSize) c) else Err ErrInvalidCiphertext |}.

Lemma toy_laws : @AEADLaws toy_aead.
Proof.
  split; cbn; intros nonce p; [intros _|intros _|intros why _|intros q _].
  - rewrite length_app. change (length toy_tag) with TagSize. rewrite Nat.add_sub.
    by rewrite drop_app_length, decide_True, take_app_length by done.
  - by rewrite length_app.
  - by case_decide.
  - case_decide as E; [|done]. intros [= <-]. rewrite length_take.
    apply (f_equal length) in E. rewrite length_drop in E. cbn [length] in E. unfold TagSize in *. lia.
Qed.

Definition demo_rand : reader := Reader [s2b "0123456"; s2b "789abcdefghijkl"] EOF.

Lemma stream_header_roundtrip_witness :
  exists hdr w', WriteStreamHeader 2 7 5 (Writer [] None EOF) = (None, w') /\ w_out w' = [] ++ hdr.
Proof.
  destruct (stream_header_roundtrip 2 7 5 [] EOF (Reader [] EOF) (Writer [] None EOF))
    as (hdr & w' & E1 & E2 & _); [lia|lia|lia|exact I|].
  exists hdr, w'. split; [exact E1|exact E2].
Defined.

Lemma encrypt_roundtrip_witness :
  exists c r, @Encrypt toy_aead (s2b "hello") demo_rand = (Ret c, r) /\
    @Decrypt toy_aead c = Ret (s2b "hello").
Proof.
  pose proof (@encrypt_roundtrip toy_aead toy_laws (s2b "hello") demo_rand) as [H _].
  vm_compute in H. vm_compute. eexists _, _. split; [reflexivity|]. apply H.
Defined.
