(* ===== verification/DpiServer.v ===== *)
(** * The DPI server (dpi/server/handler.go, the client table of server.go)

    HTTP handlers and one reading goroutine per tunnelled connection run
    concurrently over a shared table of connections.  As in [QueueConn], each is a
    thread that takes one atomic action at a time; what the outside world decides
    (the dial, the remote peer's bytes, write failures, random nonces, which ready
    [select] branch runs) is an argument of the step.  Request paths are in the
    canonical form [http.ServeMux] dispatches on. *)
From S2P Require Import Prelude GoIO Strconv DpiCommon.

(** [make(chan []byte, 16)] and the 32 KiB read buffer of [handleConnect]. *)
Definition dataChSize : nat := 16.
Definition readBufSize : nat := Z.to_nat 32768.

(** The JSON bodies of the handlers; [quoted s] is [s] in double quotes. *)
Definition quoted (s : string) : bytes := Byte.x22 :: s2b s ++ [Byte.x22].
Arguments quoted s%_string.
Definition body_ok : bytes := s2b "{" ++ quoted "status" ++ s2b ":" ++ quoted "ok" ++ s2b "}".
Definition body_failed : bytes :=
  s2b "{" ++ quoted "status" ++ s2b ":" ++ quoted "error" ++ s2b "," ++
  quoted "msg" ++ s2b ":" ++ quoted "connect failed" ++ s2b "}".
Definition body_connected (connID : Z) : bytes :=
  s2b "{" ++ quoted "status" ++ s2b ":" ++ quoted "ok" ++ s2b "," ++
  quoted "conn_id" ++ s2b ":" ++ Itoa connID ++ s2b "}".

Definition uint32ToBytes (v : Z) : bytes := be_put 4 v.

(** [clientConn], with what its remote connection has been sent.  [cc_closed] is
    whether [remote.Close] was called, [cc_dataChClosed] whether [dataCh] was. *)
Record clientConn := ClientConn {
  cc_connID : Z;
  cc_targetAddr : bytes;
  cc_dataCh : list bytes;
  cc_dataChClosed : bool;
  cc_written : bytes;
  cc_closed : bool }.

(** [*clientConn] pointers are positions in [sv_conns]. *)
Record Server := MkServer {
  sv_clients : gmap Z nat;
  sv_conns : list clientConn;
  sv_stopped : bool;
  sv_RedirectURL : bytes }.

Definition new_server (redirect : bytes) : Server := MkServer ∅ [] false redirect.

Definition set_conn (s : Server) (cc : nat) (c : clientConn) : Server :=
  MkServer (sv_clients s) (<[cc := c]> (sv_conns s)) (sv_stopped s) (sv_RedirectURL s).
Definition registerClient (s : Server) (connID : Z) (cc : nat) : Server :=
  MkServer (<[connID := cc]> (sv_clients s)) (sv_conns s) (sv_stopped s) (sv_RedirectURL s).
Definition unregisterClient (s : Server) (connID : Z) : Server :=
  MkServer (delete connID (sv_clients s)) (sv_conns s) (sv_stopped s) (sv_RedirectURL s).
Definition getClient (s : Server) (connID : Z) : option nat := sv_clients s !! connID.

Definition push_data c d :=
  ClientConn (cc_connID c) (cc_targetAddr c) (cc_dataCh c ++ [d]) (cc_dataChClosed c) (cc_written c) (cc_closed c).
Definition set_data c q :=
  ClientConn (cc_connID c) (cc_targetAddr c) q (cc_dataChClosed c) (cc_written c) (cc_closed c).
Definition close_data c :=
  ClientConn (cc_connID c) (cc_targetAddr c) (cc_dataCh c) true (cc_written c) (cc_closed c).
Definition remote_write c bs :=
  ClientConn (cc_connID c) (cc_targetAddr c) (cc_dataCh c) (cc_dataChClosed c) (cc_written c ++ bs) (cc_closed c).
Definition remote_close c :=
  ClientConn (cc_connID c) (cc_targetAddr c) (cc_dataCh c) (cc_dataChClosed c) (cc_written c) true.

Section Server.
Context `{aead : AEAD}.

(** What a thread is about to do. *)
Inductive pc :=
  (* a request that reaches the mux; [body] is what io.ReadAll(r.Body) yields and
     [flushable] whether the response writer is an http.Flusher *)
  | HTTP (method path : bytes) (body : res bytes) (flushable : bool)
  (* handleTunnel, after the request was decoded *)
  | TU_connect (connID : Z) (req : ConnectRequest)
  | TU_data (connID : Z) (payload : bytes) | TU_write (cc : nat) (connID : Z) (payload : bytes)
  | TU_close (connID : Z)
  | TU_rclose (cc : nat) (connID : Z) | TU_unreg (connID : Z)
  (* the goroutine of handleConnect: the read loop, close(dataCh), the deferred calls *)
  | RG_read (cc : nat) | RG_send (cc : nat) (data : bytes) (err : option error)
  | RG_close (cc : nat) | RG_rclose (cc : nat) | RG_unreg (connID : Z)
  (* the loop of handleDownload, with what was written to the response *)
  | DL_loop (cc : nat) (connID : Z) (w : writer)
  (* Shutdown *)
  | SD_start
  | Replied (status : Z) (body : bytes) | Streamed (w : writer) | Finished
  | Redirected (url : bytes)
  (* a panic in a handler, which net/http recovers, or in the caller of Shutdown;
     a panic in a reading goroutine *)
  | Aborted | Crashed.

Definition is_call (t : pc) : bool :=
  match t with HTTP _ _ _ _ | SD_start => true | _ => false end.

Inductive event :=
  | Queued (cc : nat) (d : bytes) | Delivered (cc : nat) (d : bytes) | Wrote (cc : nat) (d : bytes).

Record choice := Choice {
  x_dial : bool;                     (* the dial succeeds *)
  x_write : option nat;              (* remote.Write fails after so many bytes *)
  x_read : bytes * option error;     (* what remote.Read yields *)
  x_branch : nat;                    (* the branch a select takes *)
  x_rand : reader;                   (* rand.Reader *)
  x_room : option nat }.             (* how much the response's connection takes *)

(** [http.Error] ends the text with a newline. *)
Definition http_Error (text : string) (code : Z) : pc := Replied code (s2b text ++ [Byte.x0a]).

(** ** Decoding an upload: handleTunnel up to the switch *)

Definition bad_request : pc := http_Error "Bad Request" 400.

Definition handleTunnel (method : bytes) (body : res bytes) : pc :=
  if negb (bool_decide (method = s2b "POST") || bool_decide (method = s2b "PUT"))
  then http_Error "Method Not Allowed" 405
  else
    match body with
    | Err _ | Panic _ => bad_request
    | Ret [] => Replied 200 body_ok
    | Ret body =>
        match DecryptStream body with
        | Err _ => bad_request
        | Panic _ => Aborted
        | Ret decrypted =>
            if length decrypted <? StreamHeaderSize then bad_request
            else
              let hdr := parse_header decrypted in
              let payload := drop 10 decrypted in
              if (sh_MsgType hdr =? MsgConnect)%Z then
                if negb (sh_PayloadLen hdr =? len payload)%Z then bad_request
                else
                  match DecodeConnectRequest payload with
                  | Err _ => bad_request
                  | Panic _ => Aborted
                  | Ret req => TU_connect (sh_ConnID hdr) req
                  end
              else if (sh_MsgType hdr =? MsgData)%Z then TU_data (sh_ConnID hdr) payload
              else if (sh_MsgType hdr =? MsgClose)%Z then TU_close (sh_ConnID hdr)
              else Replied 200 body_ok
        end
    end.

(** [handleDownload] up to its loop. *)
Definition handleDownload (s : Server) (method path : bytes) (flushable : bool) (room : option nat) : pc :=
  if negb (bool_decide (method = s2b "GET") || bool_decide (method = s2b "HEAD"))
  then http_Error "Method Not Allowed" 405
  else
    let connIDStr := TrimPrefix path (s2b "/download/") in
    if bool_decide (connIDStr = []) then http_Error "Not Found" 404
    else
      match Sscanf_u32 connIDStr with
      | None => http_Error "Not Found" 404
      | Some connID =>
          match getClient s connID with
          | None => http_Error "Not Found" 404
          | Some cc =>
              if flushable then DL_loop cc connID (Writer [] room ErrClosedPipe)
              else http_Error "Streaming unsupported" 200
          end
      end.

Definition handleRoot (s : Server) : pc :=
  if bool_decide (sv_RedirectURL s = [])
  then Replied 200 (s2b "<!DOCTYPE html><html><head><title>Service</title></head><body><h1>Service Unavailable</h1></body></html>")
  else Redirected (sv_RedirectURL s).

(** The patterns of [NewServer]: a pattern that ends in a slash matches the paths
    below it. *)
Definition route (s : Server) (method path : bytes) (body : res bytes) (flushable : bool)
  (room : option nat) : pc :=
  if HasPrefix path (s2b "/.well-known/cdn-cache/") || bool_decide (path = s2b "/api/v2/upload")
  then handleTunnel method body
  else if HasPrefix path (s2b "/download/") then handleDownload s method path flushable room
  else handleRoot s.

(** One frame of the download stream: the message, sealed, behind its length. *)
Definition download_payload (connID : Z) (data : bytes) : bytes :=
  [to_byte Version; to_byte MsgData] ++ uint32ToBytes connID ++
  uint32ToBytes (u32 (len data)) ++ data.

(** What the loop of [handleDownload] does with a chunk: encrypt, write the length,
    write the ciphertext; [false] is an early return. *)
Definition send_chunk (connID : Z) (data : bytes) (rnd : reader) (w : writer) : bool * writer :=
  match (EncryptStream (download_payload connID data) rnd).1 with
  | Ret encrypted =>
      match write (be_put 4 (u32 (len encrypted))) w with
      | (_, Some _, w1) => (false, w1)
      | (_, None, w1) =>
          match write encrypted w1 with
          | (_, Some _, w2) => (false, w2)
          | (_, None, w2) => (true, w2)
          end
      end
  | _ => (false, w)
  end.

(** ** Atomic actions: new state, continuation, spawned threads, events *)

Abbreviation outcome := (Server * pc * list pc * list event)%type.

(** [f] on the connection [cc] points to. *)
Definition with_conn (s : Server) (cc : nat) (f : clientConn -> option outcome) : option outcome :=
  c ← sv_conns s !! cc; f c.

Definition thread_step (x : choice) (s : Server) (t : pc) : option outcome :=
  match t with
  | HTTP method path body flushable => Some (s, route s method path body flushable (x_room x), [], [])
  | TU_connect connID req =>
      if x_dial x then
        let cc := length (sv_conns s) in
        let s' := MkServer (sv_clients s)
          (sv_conns s ++ [ClientConn connID (cq_Address req) [] false [] false])
          (sv_stopped s) (sv_RedirectURL s) in
        Some (registerClient s' connID cc, Replied 200 (body_connected connID), [RG_read cc], [])
      else Some (s, Replied 200 body_failed, [], [])
  | TU_data connID payload =>
      match getClient s connID with
      | None => Some (s, Replied 200 body_ok, [], [])
      | Some cc => Some (s, TU_write cc connID payload, [], [])
      end
  | TU_write cc connID payload => with_conn s cc (fun c =>
      if cc_closed c then Some (s, TU_rclose cc connID, [], [])
      else
        match x_write x with
        | Some n => Some (set_conn s cc (remote_write c (take n payload)), TU_rclose cc connID, [],
                          [Wrote cc (take n payload)])
        | None => Some (set_conn s cc (remote_write c payload), Replied 200 body_ok, [],
                        [Wrote cc payload])
        end)
  | TU_close connID =>
      match getClient s connID with
      | None => Some (s, Replied 200 body_ok, [], [])
      | Some cc => Some (s, TU_rclose cc connID, [], [])
      end
  | TU_rclose cc connID => with_conn s cc (fun c =>
      Some (set_conn s cc (remote_close c), TU_unreg connID, [], []))
  | TU_unreg connID => Some (unregisterClient s connID, Replied 200 body_ok, [], [])
  | RG_read cc => with_conn s cc (fun c =>
      let '(data, err) := if cc_closed c then ([], Some (ErrMsg "use of closed network connection"))
                          else (take readBufSize (x_read x).1, (x_read x).2) in
      match data, err with
      | _ :: _, _ => Some (s, RG_send cc data err, [], [])
      | [], Some _ => Some (s, RG_close cc, [], [])
      | [], None => Some (s, RG_read cc, [], [])
      end)
  | RG_send cc data err => with_conn s cc (fun c =>
      match x_branch x with
      | O =>
          if cc_dataChClosed c then Some (s, Crashed, [], [])
          else if decide (length (cc_dataCh c) < dataChSize)
          then Some (set_conn s cc (push_data c data),
                     if err is Some _ then RG_close cc else RG_read cc, [], [Queued cc data])
          else None
      | _ => if sv_stopped s then Some (s, RG_rclose cc, [], []) else None
      end)
  | RG_close cc => with_conn s cc (fun c =>
      if cc_dataChClosed c then Some (s, Crashed, [], [])
      else Some (set_conn s cc (close_data c), RG_rclose cc, [], []))
  | RG_rclose cc => with_conn s cc (fun c =>
      Some (set_conn s cc (remote_close c), RG_unreg (cc_connID c), [], []))
  | RG_unreg connID => Some (unregisterClient s connID, Finished, [], [])
  | DL_loop cc connID w => with_conn s cc (fun c =>
      match x_branch x with
      | O =>
          match cc_dataCh c with
          | data :: q =>
              let '(ok, w') := send_chunk connID data (x_rand x) w in
              Some (set_conn s cc (set_data c q), if ok then DL_loop cc connID w' else Streamed w',
                    [], [Delivered cc data])
          | [] => if cc_dataChClosed c then Some (s, Streamed w, [], []) else None
          end
      | 1 => if sv_stopped s then Some (s, Streamed w, [], []) else None
      | _ => Some (s, Streamed w, [], [])
      end)
  | SD_start =>
      if sv_stopped s then Some (s, Aborted, [], [])
      else Some (MkServer (sv_clients s) (sv_conns s) true (sv_RedirectURL s), Finished, [], [])
  | _ => None
  end.

(** ** Interleavings *)

(** Events carry the thread that caused them. *)
Record sys := Sys { sy_server : Server; sy_pool : list pc }.
Abbreviation trace := (list (nat * event)).

Inductive sys_step : sys -> trace -> sys -> Prop :=
  | step_call s t : is_call t = true -> sys_step s [] (Sys (sy_server s) (sy_pool s ++ [t]))
  | step_thread s i t x s' t' new evs :
      sy_pool s !! i = Some t -> thread_step x (sy_server s) t = Some (s', t', new, evs) ->
      sys_step s (pair i <$> evs) (Sys s' (<[i := t']> (sy_pool s) ++ new)).

Inductive steps (s0 : sys) : trace -> sys -> Prop :=
  | steps_refl : steps s0 [] s0
  | steps_more tr s evs s' : steps s0 tr s -> sys_step s evs s' -> steps s0 (tr ++ evs) s'.

Definition reachable (tr : trace) (s : sys) : Prop :=
  exists redirect, steps (Sys (new_server redirect) []) tr s.

(** A schedule as a program. *)
Inductive action := Call (t : pc) | Step (i : nat) (x : choice).

Fixpoint run (l : list action) (s : sys) : option (trace * sys) :=
  match l with
  | [] => Some ([], s)
  | Call t :: l' => if is_call t then run l' (Sys (sy_server s) (sy_pool s ++ [t])) else None
  | Step i x :: l' =>
      t ← sy_pool s !! i;
      '(sv, t', new, evs) ← thread_step x (sy_server s) t;
      '(tr, s') ← run l' (Sys sv (<[i := t']> (sy_pool s) ++ new));
      Some ((pair i <$> evs) ++ tr, s')
  end.

Lemma dpi_steps_trans s1 tr1 s2 tr2 s3 : steps s1 tr1 s2 -> steps s2 tr2 s3 -> steps s1 (tr1 ++ tr2) s3.
Proof.
  intros H1. induction 1 as [|tr s evs s' _ IH Hs]; [by rewrite app_nil_r|].
  rewrite app_assoc. by econstructor.
Qed.

Lemma dpi_run_steps l s tr s' : run l s = Some (tr, s') -> steps s tr s'.
Proof.
  revert s tr. induction l as [|[t|i x] l IH]; cbn; intros s tr E.
  - injection E as <- <-. constructor.
  - destruct (is_call t) eqn:Ht; [|done]. eapply (dpi_steps_trans _ []); [|by apply IH].
    eapply (steps_more _ [] s []); constructor; done.
  - destruct (sy_pool s !! i) as [t|] eqn:Ei; [|done]. cbn in E.
    destruct (thread_step x (sy_server s) t) as [[[[c t'] new] evs]|] eqn:Et; [|done]. cbn in E.
    destruct (run l _) as [[tr' s1]|] eqn:Er; [|done]. cbn in E. injection E as <- <-.
    eapply dpi_steps_trans; [|by apply IH].
    eapply (steps_more _ [] s); [constructor|]. by econstructor.
Qed.

(** ** Invariant *)

(** The connection a thread works on, and the reading goroutine before
    it has closed [dataCh]. *)
Definition uses (t : pc) : option nat :=
  match t with
  | TU_write cc _ _ | TU_rclose cc _ | RG_read cc | RG_send cc _ _ | RG_close cc | RG_rclose cc
  | DL_loop cc _ _ => Some cc
  | _ => None
  end.
Definition feeds (t : pc) : option nat :=
  match t with RG_read cc | RG_send cc _ _ | RG_close cc => Some cc | _ => None end.

(** A thread that is about to unregister an identifier has closed a connection
    of that identifier. *)
Definition thread_ok (s : Server) (t : pc) : Prop :=
  (forall cc, uses t = Some cc -> is_Some (sv_conns s !! cc)) /\
  (forall cc, feeds t = Some cc ->
     exists c, sv_conns s !! cc = Some c /\ cc_dataChClosed c = false) /\
  match t with
  | TU_unreg connID | RG_unreg connID =>
      exists cc c, sv_conns s !! cc = Some c /\ cc_connID c = connID /\ cc_closed c = true
  | TU_write cc connID _ | TU_rclose cc connID =>
      exists c, sv_conns s !! cc = Some c /\ cc_connID c = connID
  | RG_send _ data _ => data <> [] /\ length data <= readBufSize
  | Crashed => False
  | _ => True
  end.

Definition conn_ok (c : clientConn) : Prop :=
  length (cc_dataCh c) <= dataChSize /\
  Forall (fun d => d <> [] /\ length d <= readBufSize) (cc_dataCh c).

Record sys_inv (s : sys) : Prop := {
  si_table connID cc : sv_clients (sy_server s) !! connID = Some cc ->
    exists c, sv_conns (sy_server s) !! cc = Some c /\ cc_connID c = connID;
  si_conns : Forall conn_ok (sv_conns (sy_server s));
  si_threads i t : sy_pool s !! i = Some t -> thread_ok (sy_server s) t;
  si_feeders i j ti tj cc : sy_pool s !! i = Some ti -> sy_pool s !! j = Some tj ->
    feeds ti = Some cc -> feeds tj = Some cc -> i = j }.

Lemma handleTunnel_kind method body :
  uses (handleTunnel method body) = None /\ feeds (handleTunnel method body) = None /\
  match handleTunnel method body with
  | Replied _ _ | TU_connect _ _ | TU_data _ _ | TU_close _ | Aborted => True
  | _ => False
  end.
Proof. unfold handleTunnel, bad_request, http_Error. repeat case_match; simplify_eq/=; done. Qed.

Definition table_ok (s : Server) : Prop :=
  forall connID cc, sv_clients s !! connID = Some cc ->
    exists c, sv_conns s !! cc = Some c /\ cc_connID c = connID.

Lemma route_ok s method path body fl room :
  table_ok s -> thread_ok s (route s method path body fl room) /\
    feeds (route s method path body fl room) = None.
Proof.
  intros Ht. unfold route. case_match.
  { destruct (handleTunnel_kind method body) as (Hu & Hf & Hk). split; [|done].
    unfold thread_ok. rewrite Hu, Hf. split_and!; [done|done|]. by destruct (handleTunnel method body). }
  case_match; [|unfold handleRoot; by case_match].
  unfold handleDownload, http_Error. repeat case_match; try done.
  split; [|done]. split_and!; [|done|done]. intros cc' [= <-].
  destruct (Ht _ _ ltac:(eassumption)) as (c & Hc & _). by exists c.
Qed.

(** How a connection may change in one action of a thread [t] that becomes [t']. *)
Definition evolves (t t' : pc) (cc : nat) (c c' : clientConn) : Prop :=
  cc_connID c' = cc_connID c /\ (cc_closed c = true -> cc_closed c' = true) /\
  (conn_ok c -> conn_ok c') /\
  (cc_dataChClosed c' = cc_dataChClosed c \/ (feeds t = Some cc /\ feeds t' = None)).

Definition evolve (t t' : pc) (s s' : Server) : Prop :=
  forall cc c, sv_conns s !! cc = Some c ->
    exists c', sv_conns s' !! cc = Some c' /\ evolves t t' cc c c'.

Lemma evolve_refl t t' s s' : sv_conns s' = sv_conns s -> evolve t t' s s'.
Proof. intros E cc c Hc. rewrite E. exists c. split; [done|]. split_and!; auto. Qed.

Lemma evolve_set t t' s cc c c' :
  sv_conns s !! cc = Some c -> evolves t t' cc c c' -> evolve t t' s (set_conn s cc c').
Proof.
  intros Hc He cc0 c0 H0. cbn. destruct (decide (cc0 = cc)) as [->|Hne].
  - rewrite Hc in H0. injection H0 as <-. exists c'. split; [|done].
    apply list_lookup_insert_eq. by eapply lookup_lt_Some.
  - rewrite list_lookup_insert_ne by done. exists c0. split; [done|]. split_and!; auto.
Qed.

(** A thread keeps what it relies on while others act. *)
Lemma thread_ok_evolve t t' u s s' :
  evolve t t' s s' -> thread_ok s u -> (forall cc, feeds u = Some cc -> feeds t <> Some cc) ->
  thread_ok s' u.
Proof.
  intros Hev (Hu & Hf & Hk) Hd. split_and!.
  - intros cc [c Hc]%Hu. destruct (Hev _ _ Hc) as (c' & Hc' & _). by exists c'.
  - intros cc Hfc. destruct (Hf cc Hfc) as (c & Hc & Hcl).
    destruct (Hev _ _ Hc) as (c' & Hc' & _ & _ & _ & [E|[? _]]); [|by apply Hd in Hfc].
    exists c'. split; [done|congruence].
  - destruct u; try done.
    + destruct Hk as (c & Hc & Hid). destruct (Hev _ _ Hc) as (c' & Hc' & ? & _). exists c'.
      split; [done|congruence].
    + destruct Hk as (c & Hc & Hid). destruct (Hev _ _ Hc) as (c' & Hc' & ? & _). exists c'.
      split; [done|congruence].
    + destruct Hk as (cc & c & Hc & Hid & Hcl). destruct (Hev _ _ Hc) as (c' & Hc' & ? & ? & _).
      exists cc, c'. split_and!; [done|congruence|auto].
    + destruct Hk as (cc & c & Hc & Hid & Hcl). destruct (Hev _ _ Hc) as (c' & Hc' & ? & ? & _).
      exists cc, c'. split_and!; [done|congruence|auto].
Qed.

Record effect (t t' : pc) (new : list pc) (s s' : Server) : Prop := {
  ef_evolve : evolve t t' s s';
  ef_table : table_ok s';
  ef_conns : Forall conn_ok (sv_conns s');
  ef_thread : thread_ok s' t';
  ef_feeds cc : feeds t' = Some cc -> feeds t = Some cc;
  ef_new : new = [] \/ (new = [RG_read (length (sv_conns s))] /\ feeds t' = None /\
             thread_ok s' (RG_read (length (sv_conns s)))) }.

(** An action that changes at most the table. *)
Lemma effect_table t t' s s' :
  sv_conns s' = sv_conns s -> table_ok s' -> Forall conn_ok (sv_conns s) ->
  thread_ok s' t' -> (forall cc, feeds t' = Some cc -> feeds t = Some cc) -> effect t t' [] s s'.
Proof. intros E ????. split; try done; [by apply evolve_refl|by rewrite E|by left]. Qed.

Lemma table_ok_delete s connID : table_ok s -> table_ok (unregisterClient s connID).
Proof. intros Ht id cc. cbn. intros [_ ?]%lookup_delete_Some. by apply Ht. Qed.

(** An action that changes one connection. *)
Lemma effect_conn t t' s cc c c' :
  sv_conns s !! cc = Some c -> evolves t t' cc c c' ->
  table_ok s -> Forall conn_ok (sv_conns s) ->
  thread_ok (set_conn s cc c') t' -> (forall k, feeds t' = Some k -> feeds t = Some k) ->
  effect t t' [] s (set_conn s cc c').
Proof.
  intros Hc He Ht Hok Hth Hf. pose proof (evolve_set _ _ _ _ _ _ Hc He) as Hev.
  split; [done| | |done|done|by left].
  - intros id k Hk. destruct (Ht id k Hk) as (c0 & Hc0 & Hid).
    destruct (Hev _ _ Hc0) as (c1 & Hc1 & Hid1 & _). exists c1. split; [done|congruence].
  - cbn. apply Forall_insert; [done|]. apply He. by eapply Forall_lookup_1.
Qed.

(** Proving [thread_ok] of a thread that works on a connection known to exist. *)
Lemma set_conn_lookup s cc c c' :
  sv_conns s !! cc = Some c -> sv_conns (set_conn s cc c') !! cc = Some c'.
Proof. intros H. apply list_lookup_insert_eq. by eapply lookup_lt_Some. Qed.

Ltac thread_ok_tac :=
  split_and!; cbn in *; intros; simplify_eq; try done; eauto 8.

(** A successful dial adds a connection and its entry. *)
Lemma connect_effect x s connID req s' t' new evs :
  table_ok s -> Forall conn_ok (sv_conns s) ->
  thread_step x s (TU_connect connID req) = Some (s', t', new, evs) -> effect (TU_connect connID req) t' new s s'.
Proof.
  intros Ht Hok E. cbn [thread_step] in E. destruct (x_dial x); injection E as <- <- <- <-; [|by apply effect_table].
  assert (Hn : (sv_conns s ++ [ClientConn connID (cq_Address req) [] false [] false]) !! length (sv_conns s)
    = Some (ClientConn connID (cq_Address req) [] false [] false)) by apply list_lookup_middle, eq_refl.
  split; cbn.
  - intros cc c Hc. exists c. cbn. rewrite lookup_app_l by (by eapply lookup_lt_Some).
    split; [done|]. split_and!; auto.
  - intros id cc. cbn. intros [[<- <-]|[_ H]]%lookup_insert_Some; [eauto|].
    destruct (Ht _ _ H) as (c & Hc & Hid). exists c. rewrite lookup_app_l by (by eapply lookup_lt_Some). done.
  - apply Forall_app. split; [done|]. constructor; [|done]. split; cbn; [unfold dataChSize; lia|done].
  - done.
  - done.
  - right. split; [done|]. split; [done|]. split; [|split; [|done]]; intros cc [= <-]; cbn; rewrite Hn; eauto.
Qed.

(** The reading goroutine queues a chunk, if there is room. *)
Lemma queue_effect x s cc data err s' t' new evs :
  table_ok s -> Forall conn_ok (sv_conns s) -> thread_ok s (RG_send cc data err) ->
  thread_step x s (RG_send cc data err) = Some (s', t', new, evs) -> effect (RG_send cc data err) t' new s s'.
Proof.
  intros Ht Hok (Hu & Hf & Hk) E. cbn [thread_step] in E. unfold with_conn in E.
  destruct (Hf _ eq_refl) as (c & Hc & Hopen). rewrite Hc in E. cbn [mbind option_bind] in E.
  destruct (x_branch x).
  - rewrite Hopen in E. case_decide as Hl; [|done]. injection E as <- <- <- <-.
    eapply effect_conn; [exact Hc| |done|done| |by destruct err].
    + split_and!; [done|done| |by left]. intros [H1 H2]. split; cbn.
      * rewrite length_app. cbn. lia.
      * apply Forall_app. split; [done|]. by constructor.
    + pose proof (set_conn_lookup s cc c (push_data c data) Hc) as Hlk. destruct err; thread_ok_tac.
  - destruct (sv_stopped s); [|done]. injection E as <- <- <- <-. apply effect_table; try done; thread_ok_tac.
Qed.

(** A round of the download loop takes the first chunk of the queue. *)
Lemma download_effect x s cc connID w s' t' new evs :
  table_ok s -> Forall conn_ok (sv_conns s) -> thread_ok s (DL_loop cc connID w) ->
  thread_step x s (DL_loop cc connID w) = Some (s', t', new, evs) -> effect (DL_loop cc connID w) t' new s s'.
Proof.
  intros Ht Hok (Hu & Hf & Hk) E. cbn [thread_step] in E. unfold with_conn in E.
  destruct (Hu _ eq_refl) as [c Hc]. rewrite Hc in E. cbn [mbind option_bind] in E.
  destruct (x_branch x) as [|[|n]]; [| |injection E as <- <- <- <-; by apply effect_table].
  - destruct (cc_dataCh c) as [|d q] eqn:Eq.
    { destruct (cc_dataChClosed c); [|done]. injection E as <- <- <- <-. by apply effect_table. }
    destruct (send_chunk connID d (x_rand x) w) as [ok w'].
    assert (s' = set_conn s cc (set_data c q) /\ t' = (if ok then DL_loop cc connID w' else Streamed w')
      /\ new = []) as (-> & -> & ->) by (destruct ok; injection E as <- <- <- <-; done).
    pose proof (set_conn_lookup s cc c (set_data c q) Hc) as Hl.
    eapply effect_conn; [exact Hc| |done|done| |by destruct ok].
    + split_and!; [done|done| |by left]. unfold conn_ok; cbn. rewrite Eq. cbn.
      intros [? [_ ?]%Forall_cons_1]. split; [lia|done].
    + destruct ok; thread_ok_tac.
  - destruct (sv_stopped s); [|done]. injection E as <- <- <- <-. by apply effect_table.
Qed.

Lemma step_effect x s t s' t' new evs :
  table_ok s -> Forall conn_ok (sv_conns s) -> thread_ok s t ->
  thread_step x s t = Some (s', t', new, evs) -> effect t t' new s s'.
Proof.
  intros Ht Hok Hth E. pose proof E as E0. pose proof Hth as (Hu & Hf & Hk).
  destruct t; cbn [thread_step] in E; try done; unfold with_conn in E;
    try (cbn in Hu; destruct (Hu _ eq_refl) as [c Hc]; rewrite Hc in E; cbn [mbind option_bind] in E).
  - injection E as <- <- <- <-.
    destruct (route_ok s method path body flushable (x_room x) Ht) as [? Hn].
    apply effect_table; try done. by rewrite Hn.
  - by eapply connect_effect.
  - destruct (getClient s connID) eqn:Eg; injection E as <- <- <- <-; apply effect_table; try done.
    destruct (Ht _ _ Eg) as (c & Hc & Hid). thread_ok_tac.
  - destruct Hk as (c0 & Hc0 & Hid). rewrite Hc in Hc0. injection Hc0 as <-.
    destruct (cc_closed c) eqn:Ecl.
    { injection E as <- <- <- <-. apply effect_table; try done; thread_ok_tac. }
    destruct (x_write x); injection E as <- <- <- <-;
      (eapply effect_conn; [exact Hc|split_and!; auto|done|done| |done]);
      pose proof (set_conn_lookup s cc c) as Hl; thread_ok_tac.
  - destruct (getClient s connID) eqn:Eg; injection E as <- <- <- <-; apply effect_table; try done.
    destruct (Ht _ _ Eg) as (c & Hc & Hid). thread_ok_tac.
  - destruct Hk as (c0 & Hc0 & Hid). rewrite Hc in Hc0. injection Hc0 as <-. injection E as <- <- <- <-.
    eapply effect_conn; [exact Hc|split_and!; auto|done|done| |done].
    pose proof (set_conn_lookup s cc c (remote_close c) Hc) as Hl. thread_ok_tac.
  - injection E as <- <- <- <-. apply effect_table; try done. by apply table_ok_delete.
  - destruct (cc_closed c); cbn in E.
    + injection E as <- <- <- <-. apply effect_table; try done; thread_ok_tac.
    + destruct (take readBufSize (x_read x).1) as [|b d] eqn:Ed; [destruct ((x_read x).2)|];
        injection E as <- <- <- <-; apply effect_table; try done; try (by thread_ok_tac).
      split_and!; cbn; [by intros ? [= <-]|by intros ? [= <-]; apply Hf|done|].
      apply (f_equal length) in Ed. rewrite length_take in Ed. cbn [length] in Ed. lia.
  - by eapply queue_effect.
  - destruct (Hf _ eq_refl) as (c0 & Hc0 & Hopen). rewrite Hc in Hc0. injection Hc0 as <-.
    rewrite Hopen in E. injection E as <- <- <- <-.
    pose proof (set_conn_lookup s cc c (close_data c) Hc) as Hl.
    eapply effect_conn; [exact Hc|split_and!; auto|done|done| |done]. thread_ok_tac.
  - injection E as <- <- <- <-. pose proof (set_conn_lookup s cc c (remote_close c) Hc) as Hl.
    eapply effect_conn; [exact Hc|split_and!; auto|done|done| |done]. thread_ok_tac.
  - injection E as <- <- <- <-. apply effect_table; try done. by apply table_ok_delete.
  - by eapply download_effect.
  - destruct (sv_stopped s); injection E as <- <- <- <-; by apply effect_table.
Qed.

Lemma dpi_sys_step_inv s evs s' : sys_inv s -> sys_step s evs s' -> sys_inv s'.
Proof.
  intros Hs H. destruct H as [s0 t Ht|s0 i t x s1 t' new evs' Ei E].
  { destruct Hs as [H1 H2 H3 H4]. split; cbn; try done.
    - intros j u [Hj|[_ [_ <-]%list_lookup_singleton_Some]]%lookup_app_Some; [by eapply H3|].
      by destruct t.
    - intros j k tj tk cc [Hj|[_ [_ <-]%list_lookup_singleton_Some]]%lookup_app_Some
        [Hk|[_ [_ <-]%list_lookup_singleton_Some]]%lookup_app_Some; eauto;
        by destruct t. }
  pose proof Hs as [H1 H2 H3 H4].
  destruct (step_effect _ _ _ _ _ _ _ H1 H2 (H3 _ _ Ei) E) as [Hev Ht Hc Hth Hfd Hnew].
  pose proof (lookup_lt_Some _ _ _ Ei) as Hlt.
  assert (Hpool : forall j u, (<[i:=t']> (sy_pool s0) ++ new) !! j = Some u ->
    (j = i /\ u = t') \/ (j <> i /\ sy_pool s0 !! j = Some u) \/
    (j = length (sy_pool s0) /\ new = [u] /\ u = RG_read (length (sv_conns (sy_server s0))) /\
     feeds t' = None /\ thread_ok s1 u)).
  { intros j u [Hj|[Hge Hj]]%lookup_app_Some.
    - apply list_lookup_insert_Some in Hj as [(-> & -> & _)|[? ?]]; auto.
    - right; right. destruct Hnew as [->|(-> & ? & ?)]; [done|].
      apply list_lookup_singleton_Some in Hj as [Hz <-].
      rewrite length_insert in *. split_and!; try done. lia. }
  assert (Hfresh : forall j u, sy_pool s0 !! j = Some u ->
    feeds u <> Some (length (sv_conns (sy_server s0)))).
  { intros j u Hj Hf. destruct (H3 _ _ Hj) as (_ & Hfe & _). destruct (Hfe _ Hf) as (c & Hl & _).
    apply lookup_lt_Some in Hl. lia. }
  split; cbn; [done|done| |].
  - intros j u [[-> ->]|[[Hne Hj]|(_ & _ & _ & _ & ?)]]%Hpool; [done| |done].
    eapply thread_ok_evolve; [exact Hev|by eapply H3|].
    intros cc Hu Hti. apply Hne. by eapply H4.
  - intros j k tj tk cc Hj Hk Fj Fk.
    destruct (Hpool _ _ Hj) as [[-> ->]|[[Nj Lj]|(-> & _ & -> & Hn & _)]];
    destruct (Hpool _ _ Hk) as [[-> ->]|[[Nk Lk]|(-> & _ & -> & Hn' & _)]]; try done.
    + eapply (H4 i k); eauto.
    + congruence.
    + eapply (H4 j i); eauto.
    + eapply (H4 j k); eauto.
    + cbn in Fk. injection Fk as <-. by apply Hfresh in Lj.
    + congruence.
    + cbn in Fj. injection Fj as <-. by apply Hfresh in Lk.
Qed.

Lemma dpi_reachable_inv tr s : reachable tr s -> sys_inv s.
Proof.
  intros [redirect H]. induction H; [|eauto using dpi_sys_step_inv]. by split.
Qed.

(** ** The download stream *)

Definition queued (cc : nat) (tr : trace) : list bytes :=
  omap (fun ie => match ie.2 with Queued k d => if decide (k = cc) then Some d else None | _ => None end) tr.
Definition delivered (cc : nat) (tr : trace) : list bytes :=
  omap (fun ie => match ie.2 with Delivered k d => if decide (k = cc) then Some d else None | _ => None end) tr.
(** The chunks thread [i] took from a queue. *)
Definition delivered_by (i : nat) (tr : trace) : list bytes :=
  omap (fun ie => match ie.2 with Delivered _ d => if decide (ie.1 = i) then Some d else None | _ => None end) tr.
Definition content (s : Server) (cc : nat) : list bytes := default [] (cc_dataCh <$> sv_conns s !! cc).

(** [bs] is the frames of [chunks], in order. *)
Definition frame (enc : bytes) : bytes := be_put 4 (u32 (len enc)) ++ enc.
Definition frames (connID : Z) (bs : bytes) (chunks : list bytes) : Prop :=
  exists encs, bs = concat (frame <$> encs) /\
    Forall2 (fun enc d => Decrypt enc = Ret (download_payload connID d)) encs chunks.

Lemma frames_nil connID : frames connID [] [].
Proof. by exists []. Qed.
Lemma frames_snoc connID bs chunks enc d :
  frames connID bs chunks -> Decrypt enc = Ret (download_payload connID d) ->
  frames connID (bs ++ frame enc) (chunks ++ [d]).
Proof.
  intros (encs & -> & HF) Hd. exists (encs ++ [enc]). split.
  - rewrite fmap_app, concat_app. cbn [fmap list_fmap concat]. by rewrite app_nil_r.
  - apply Forall2_app; [done|by constructor].
Qed.

Lemma send_chunk_true {laws : AEADLaws} connID d rnd w w' :
  send_chunk connID d rnd w = (true, w') ->
  exists enc, w_out w' = w_out w ++ frame enc /\ Decrypt enc = Ret (download_payload connID d).
Proof.
  unfold send_chunk, EncryptStream.
  destruct (Encrypt_cases (download_payload connID d) rnd) as [(_ & nonce & r' & _ & Hn & ->)|(_ & e & r' & ->)];
    cbn [fst]; [|done].
  set (enc := nonce ++ _). destruct (write _ w) as [[n1 [e|]] w1] eqn:E1; [done|].
  destruct (write enc w1) as [[n2 [e|]] w2] eqn:E2; [done|]. intros [= <-].
  apply write_prefix in E1 as (O1 & _ & I1 & _). apply write_prefix in E2 as (O2 & _ & I2 & _).
  assert (n1 = length (be_put 4 (u32 (len enc)))) as -> by tauto. assert (n2 = length enc) as -> by tauto.
  exists enc. split; [|by apply Decrypt_sealed]. rewrite O2, O1, !take_ge by lia.
  unfold frame. by rewrite app_assoc.
Qed.

Lemma send_chunk_grows connID d rnd w ok w' :
  send_chunk connID d rnd w = (ok, w') -> exists more, w_out w' = w_out w ++ more.
Proof.
  unfold send_chunk. destruct ((EncryptStream _ rnd).1) as [enc|e|y];
    [|intros [= _ <-]; exists []; by rewrite app_nil_r..].
  destruct (write _ w) as [[n1 [e|]] w1] eqn:E1; apply write_prefix in E1 as (O1 & _).
  { intros [= _ <-]. eauto. }
  destruct (write enc w1) as [[n2 [e|]] w2] eqn:E2; apply write_prefix in E2 as (O2 & _);
    intros [= _ <-]; rewrite O2, O1, <- app_assoc; eauto.
Qed.

Lemma content_set s cc c c' k :
  sv_conns s !! cc = Some c ->
  content (set_conn s cc c') k = if decide (k = cc) then cc_dataCh c' else content s k.
Proof.
  intros Hc. unfold content. cbn. case_decide as E.
  - subst k. rewrite list_lookup_insert_eq; [done|]. by eapply lookup_lt_Some.
  - by rewrite list_lookup_insert_ne.
Qed.

Lemma content_same s cc c c' k :
  sv_conns s !! cc = Some c -> cc_dataCh c' = cc_dataCh c -> content (set_conn s cc c') k = content s k.
Proof.
  intros Hc E. rewrite (content_set s cc c) by done. case_decide; [subst k|done].
  unfold content. by rewrite Hc, E.
Qed.

Lemma step_content i x s t s' t' new evs k :
  thread_step x s t = Some (s', t', new, evs) ->
  content s k ++ queued k (pair i <$> evs) = delivered k (pair i <$> evs) ++ content s' k.
Proof.
  intros E.
  destruct t; cbn [thread_step] in E; try done; unfold with_conn in E;
    try (destruct (sv_conns s !! cc) as [c|] eqn:Hc; [cbn [mbind option_bind] in E|done]).
  all: repeat match type of E with
    | context [send_chunk ?a ?b ?d ?e] => destruct (send_chunk a b d e) as [[] ?]
    | context [if decide ?P then _ else _] => destruct (decide P)
    | context [match ?y with _ => _ end] => destruct y eqn:?
    end; try discriminate E; injection E as <- <- <- <-;
    cbn [list_fmap fmap queued delivered omap list_omap fst snd]; rewrite ?app_nil_r; try done.
  all: try (by rewrite (content_same s cc c) by done).
  1:{ unfold content. cbn. destruct (sv_conns s !! k) as [c|] eqn:Hk.
      - by rewrite (lookup_app_l_Some _ _ _ _ Hk).
      - rewrite lookup_app_r by (by apply lookup_ge_None). cbn.
        destruct (k - length (sv_conns s)) as [|[|]]; done. }
  all: rewrite (content_set s cc c) by done; repeat case_decide; subst; rewrite ?app_nil_r; try done;
    unfold content; rewrite Hc; cbn; congruence.
Qed.

(** What thread [i] has put on its response after [tr]: a download in progress has
    written exactly the frames of the chunks it took; a finished one too, but for
    the last chunk when writing that one failed. *)
Definition dl_ok (tr : trace) (i : nat) (t : pc) : Prop :=
  match t with
  | DL_loop _ connID w => frames connID (w_out w) (delivered_by i tr)
  | Streamed w => exists connID fs chunks last more,
      frames connID fs chunks /\ w_out w = fs ++ more /\ delivered_by i tr = chunks ++ last /\
      length last <= 1 /\ (last = [] -> more = [])
  | _ => delivered_by i tr = []
  end.

Lemma delivered_by_app i tr tr' : delivered_by i (tr ++ tr') = delivered_by i tr ++ delivered_by i tr'.
Proof. apply omap_app. Qed.

Lemma delivered_by_other i j evs : i <> j -> delivered_by j (pair i <$> evs) = [].
Proof.
  intros Hne. induction evs as [|e evs IH]; [done|]. cbn. destruct e; try done.
  by rewrite decide_False.
Qed.

Lemma dl_step {laws : AEADLaws} tr i x s t s' t' new evs :
  dl_ok tr i t -> thread_step x s t = Some (s', t', new, evs) -> dl_ok (tr ++ (pair i <$> evs)) i t'.
Proof.
  intros Hd E. unfold dl_ok. rewrite delivered_by_app. destruct t; cbn [thread_step] in E; try done;
    unfold with_conn in E;
    try (destruct (sv_conns s !! cc) as [c|] eqn:Hc; [cbn [mbind option_bind] in E|done]).
  { injection E as <- <- <- <-. cbn in *. rewrite Hd. unfold route.
    destruct (HasPrefix path (s2b "/.well-known/cdn-cache/") || bool_decide (path = s2b "/api/v2/upload")).
    { destruct (handleTunnel_kind method body) as (_ & _ & Hk). by destruct (handleTunnel _ _). }
    destruct (HasPrefix path (s2b "/download/")); [|unfold handleRoot; by destruct (bool_decide _)].
    unfold handleDownload, http_Error. destruct (negb _); [done|]. destruct (bool_decide _); [done|].
    destruct (Sscanf_u32 _); [|done]. destruct (getClient _ _); [|done].
    destruct flushable; [apply frames_nil|done]. }
  all: cbn in Hd; try (repeat case_match; simplify_eq; cbn; by rewrite Hd).
  destruct (x_branch x) as [|n].
  - destruct (cc_dataCh c) as [|d q].
    + destruct (cc_dataChClosed c); [|done]. injection E as <- <- <- <-. cbn. rewrite app_nil_r.
      exists connID, (w_out w), (delivered_by i tr), [], []. rewrite !app_nil_r. split_and!; try done; cbn; lia.
    + destruct (send_chunk connID d (x_rand x) w) as [ok w'] eqn:Es.
      assert (Ev : evs = [Delivered cc d]) by (destruct ok; by injection E as <- <- <- <-). subst evs.
      replace (delivered_by i (pair i <$> [Delivered cc d])) with [d] by (cbn; by rewrite decide_True).
      destruct ok; injection E as <- <- <-.
      * apply send_chunk_true in Es as (enc & -> & He). by apply frames_snoc.
      * apply send_chunk_grows in Es as [more ->].
        exists connID, (w_out w), (delivered_by i tr), [d], more. split_and!; try done; cbn; lia.
  - assert (evs = [] /\ t' = Streamed w) as [-> ->].
    { destruct n; [destruct (sv_stopped s); [|done]|]; by injection E as <- <- <- <-. }
    cbn. rewrite app_nil_r.
    exists connID, (w_out w), (delivered_by i tr), [], []. rewrite !app_nil_r. split_and!; try done; cbn; lia.
Qed.

Lemma reachable_dl {laws : AEADLaws} tr s :
  reachable tr s ->
  (forall i t, sy_pool s !! i = Some t -> dl_ok tr i t) /\
  (forall i, length (sy_pool s) <= i -> delivered_by i tr = []).
Proof.
  intros [redirect H]. induction H as [|tr s evs s' H IH Hst]; [done|]. destruct IH as [IH1 IH2].
  destruct Hst as [s0 t Ht|s0 i t x s1 t' new evs Ei E]; cbn.
  - rewrite app_nil_r. split.
    + intros j u [Hj|[Hge [Hz <-]%list_lookup_singleton_Some]]%lookup_app_Some; [by apply IH1|].
      assert (dl_ok tr j t <-> delivered_by j tr = []) as -> by (by destruct t). by apply IH2.
    + intros j. rewrite length_app. intros Hj. apply IH2. lia.
  - pose proof (lookup_lt_Some _ _ _ Ei) as Hlt.
    assert (Hoth : forall j u, j <> i -> dl_ok tr j u -> dl_ok (tr ++ (pair i <$> evs)) j u).
    { intros j u Hne. unfold dl_ok. rewrite delivered_by_app, (delivered_by_other i j) by done.
      by rewrite app_nil_r. }
    split.
    + intros j u [[(-> & -> & _)|[Hne Hj]]%list_lookup_insert_Some|[Hge Hj]]%lookup_app_Some.
      * eapply dl_step; [by eapply IH1|done].
      * apply Hoth; [done|by apply IH1].
      * rewrite length_insert in Hge. apply Hoth; [lia|].
        assert (Hnew : u = RG_read (length (sv_conns (sy_server s0)))).
        { destruct (step_effect _ _ _ _ _ _ _ (si_table _ (dpi_reachable_inv _ _ ltac:(by eexists)))
            (si_conns _ (dpi_reachable_inv _ _ ltac:(by eexists)))
            (si_threads _ (dpi_reachable_inv _ _ ltac:(by eexists)) _ _ Ei) E) as [_ _ _ _ _ [->|(-> & _)]]; [done|].
          by apply list_lookup_singleton_Some in Hj as [_ <-]. }
        subst u. by apply IH2.
    + intros j. rewrite length_app, length_insert. intros Hj.
      rewrite delivered_by_app, (delivered_by_other i j), IH2 by lia. done.
Qed.

(** Every chunk a download took is non-empty and at most a read buffer long. *)
Definition chunk_ok (d : bytes) : Prop := d <> [] /\ length d <= readBufSize.

Lemma reachable_chunks tr s i : reachable tr s -> Forall chunk_ok (delivered_by i tr).
Proof.
  intros [redirect H]. induction H as [|tr s evs s' H IH Hst]; [constructor|].
  rewrite delivered_by_app. apply Forall_app. split; [done|].
  assert (Hs : sys_inv s) by (eapply dpi_reachable_inv; by eexists).
  destruct Hst as [s0 t Ht|s0 j t x s1 t' new evs Ei E]; [constructor|].
  destruct (decide (j = i)) as [->|Hne]; [|rewrite delivered_by_other by done; constructor].
  destruct t; cbn [thread_step] in E; try done; unfold with_conn in E;
    try (destruct (sv_conns (sy_server s0) !! cc) as [c|] eqn:Hc; [cbn [mbind option_bind] in E|done]).
  all: repeat match type of E with
    | context [send_chunk ?a ?b ?d ?e] => destruct (send_chunk a b d e) as [[] ?]
    | context [if decide ?P then _ else _] => destruct (decide P)
    | context [match ?y with _ => _ end] => destruct y eqn:?
    end; try discriminate E; injection E as <- <- <- <-; cbn; try constructor.
  all: rewrite decide_True by done; constructor; [|constructor].
  all: pose proof (Forall_lookup_1 _ _ _ _ (si_conns _ Hs) Hc) as [_ Hok];
    match goal with Hq : cc_dataCh _ = _ :: _ |- _ => rewrite Hq in Hok end; by apply Forall_cons_1 in Hok as [? _].
Qed.

(** ** The table of connections *)

Definition conn_ids (s : Server) : list Z := cc_connID <$> sv_conns s.

(** Every connection that has not been closed is registered. *)
Definition registered (s : Server) : Prop :=
  forall cc c, sv_conns s !! cc = Some c -> cc_closed c = false -> sv_clients s !! cc_connID c = Some cc.

Lemma step_clients x s t s' t' new evs :
  thread_step x s t = Some (s', t', new, evs) ->
  (sv_clients s' = sv_clients s /\ length (sv_conns s') = length (sv_conns s)) \/
  (exists connID, (t = TU_unreg connID \/ t = RG_unreg connID) /\
     sv_clients s' = delete connID (sv_clients s) /\ sv_conns s' = sv_conns s) \/
  (exists c, sv_clients s' = <[cc_connID c := length (sv_conns s)]> (sv_clients s) /\
     sv_conns s' = sv_conns s ++ [c]).
Proof.
  intros E. destruct t; cbn [thread_step] in E; try done; unfold with_conn in E;
    try (destruct (sv_conns s !! cc) as [c|]; [cbn [mbind option_bind] in E|done]).
  all: repeat match type of E with
    | context [send_chunk ?a ?b ?d ?e] => destruct (send_chunk a b d e) as [[] ?]
    | context [if decide ?P then _ else _] => destruct (decide P)
    | context [match ?y with _ => _ end] => destruct y eqn:?
    end; try discriminate E; injection E as <- <- <- <-;
    try (left; cbn; by rewrite ?length_insert).
  - right; right. by eexists (ClientConn _ _ _ _ _ _).
  - right; left. eexists. split; [by left|done].
  - right; left. eexists. split; [by right|done].
Qed.

Lemma evolve_ids t t' s s' :
  evolve t t' s s' -> length (sv_conns s') = length (sv_conns s) -> conn_ids s' = conn_ids s.
Proof.
  intros Hev Hl. apply list_eq. intros k. unfold conn_ids. rewrite !list_lookup_fmap.
  destruct (sv_conns s !! k) as [c|] eqn:Ek.
  - destruct (Hev _ _ Ek) as (c' & -> & Hid & _). cbn. by rewrite Hid.
  - cbn. apply lookup_ge_None in Ek. by rewrite lookup_ge_None_2 by lia.
Qed.

Lemma conn_ids_inj s cc1 cc2 c1 c2 :
  NoDup (conn_ids s) -> sv_conns s !! cc1 = Some c1 -> sv_conns s !! cc2 = Some c2 ->
  cc_connID c1 = cc_connID c2 -> cc1 = cc2.
Proof.
  intros Hn H1 H2 E. eapply NoDup_lookup; [exact Hn| |]; unfold conn_ids; rewrite list_lookup_fmap.
  - by rewrite H1.
  - rewrite H2. cbn. by rewrite E.
Qed.

Lemma step_registered x s t s' t' new evs :
  effect t t' new s s' -> thread_ok s t -> thread_step x s t = Some (s', t', new, evs) ->
  NoDup (conn_ids s') -> (NoDup (conn_ids s) -> registered s) -> registered s'.
Proof.
  intros [Hev _ _ _ _ _] (_ & _ & Hk) E Hn Hreg.
  assert (Hback : forall cc c', sv_conns s' !! cc = Some c' -> cc_closed c' = false ->
    (exists c, sv_conns s !! cc = Some c /\ cc_closed c = false /\ cc_connID c = cc_connID c') \/
    sv_conns s !! cc = None).
  { intros cc c' Hc' Hcl. destruct (sv_conns s !! cc) as [c|] eqn:Hc; [left|by right].
    destruct (Hev _ _ Hc) as (c1 & Hc1 & Hid & Hm & _). rewrite Hc' in Hc1. injection Hc1 as <-.
    exists c. split_and!; [done| |done]. destruct (cc_closed c); [|done]. by rewrite Hm in Hcl. }
  intros cc c' Hc' Hcl.
  destruct (step_clients _ _ _ _ _ _ _ E) as [[-> Hl]|[(connID & Ht & -> & Hco)|(c0 & -> & Hco)]].
  - destruct (Hback _ _ Hc' Hcl) as [(c & Hc & Hop & <-)|Hnone].
    + apply Hreg; [|done|done]. by rewrite <- (evolve_ids _ _ _ _ Hev Hl).
    + apply lookup_ge_None in Hnone. apply lookup_lt_Some in Hc'. lia.
  - unfold conn_ids in *. rewrite Hco in *.
    assert (Hex : exists k c, sv_conns s !! k = Some c /\ cc_connID c = connID /\ cc_closed c = true)
      by (destruct Ht as [-> | ->]; exact Hk).
    destruct Hex as (k & c & Hc & Hid & Hcc).
    destruct (decide (cc_connID c' = connID)) as [Eid|Nid].
    + assert (cc = k) as -> by (eapply (conn_ids_inj s); eauto; congruence).
      rewrite Hc in Hc'. injection Hc' as <-. congruence.
    + rewrite lookup_delete_ne by done. by apply Hreg.
  - assert (Hns : NoDup (conn_ids s) /\ cc_connID c0 ∉ conn_ids s).
    { unfold conn_ids in Hn |- *. rewrite Hco, fmap_app in Hn. apply list.NoDup_app in Hn as (? & Hd & _).
      split; [done|]. intros Hin. apply (Hd _ Hin). cbn. by apply list_elem_of_singleton. }
    destruct Hns as [Hns Hfresh].
    rewrite Hco in Hc'. apply lookup_app_Some in Hc' as [Hc'|[Hge [Hz <-]%list_lookup_singleton_Some]].
    + rewrite lookup_insert_ne; [by apply Hreg|]. intros Eid. apply Hfresh. rewrite Eid.
      apply list_elem_of_lookup. exists cc. unfold conn_ids. by rewrite list_lookup_fmap, Hc'.
    + replace cc with (length (sv_conns s)) by lia. apply lookup_insert_eq.
Qed.

Lemma reachable_registered tr s :
  reachable tr s -> NoDup (conn_ids (sy_server s)) -> registered (sy_server s).
Proof.
  intros [redirect H]. induction H as [|tr s evs s' H IH Hst]; [done|].
  assert (Hs : sys_inv s) by (eapply dpi_reachable_inv; by eexists).
  destruct Hst as [s0 t Ht|s0 i t x s1 t' new evs Ei E]; cbn; [done|]. intros Hn.
  pose proof (si_threads _ Hs _ _ Ei) as Hok.
  eapply step_registered; [|exact Hok|exact E|exact Hn|exact IH].
  eapply step_effect; [exact (si_table _ Hs)|exact (si_conns _ Hs)|exact Hok|exact E].
Qed.

(** ** Properties *)

(** C14. However requests, remote peers and shutdown interleave, no reading
    goroutine ever panics (there is one per connection, and it alone sends on and
    closes [dataCh]), [dataCh] never holds more than 16 chunks of at most 32 KiB,
    none empty, and an entry of the client table always points to a connection that
    was opened under that identifier. *)
Theorem dpi_server_safe tr s :
  reachable tr s ->
  Crashed ∉ sy_pool s /\
  (forall cc c, sv_conns (sy_server s) !! cc = Some c ->
     length (cc_dataCh c) <= dataChSize /\
     Forall (fun d => d <> [] /\ length d <= readBufSize) (cc_dataCh c)) /\
  (forall connID cc, getClient (sy_server s) connID = Some cc ->
     exists c, sv_conns (sy_server s) !! cc = Some c /\ cc_connID c = connID) /\
  (forall i j ti tj cc, sy_pool s !! i = Some ti -> sy_pool s !! j = Some tj ->
     feeds ti = Some cc -> feeds tj = Some cc -> i = j).
Proof.
  intros [Ht Hc Hth Hf]%dpi_reachable_inv. split_and!; [|intros; by eapply (Forall_lookup_1 conn_ok)|done|done].
  intros [i Hi]%list_elem_of_lookup. by apply Hth in Hi as (_ & _ & ?).
Qed.

(** C13. The download stream: for every connection, the chunks handed to
    downloads followed by those still queued are exactly the chunks the reading
    goroutine queued, in order; and the response of a download in progress is exactly
    the frames of the chunks that download took: each frame is a length and a
    ciphertext that decrypts to a data message with that connection's identifier. *)
Theorem dpi_download_stream {laws : AEADLaws} tr s :
  reachable tr s ->
  (forall cc, queued cc tr = delivered cc tr ++ content (sy_server s) cc) /\
  (forall i cc connID w, sy_pool s !! i = Some (DL_loop cc connID w) ->
     frames connID (w_out w) (delivered_by i tr)).
Proof.
  intros Hr. split.
  - destruct Hr as [redirect H]. induction H as [|tr s evs s' H IH Hst]; [done|].
    intros k. unfold queued, delivered in *. rewrite !omap_app, IH, <- !app_assoc. f_equal.
    destruct Hst as [s0 t Ht|s0 i t x s1 t' new evs Ei E]; cbn; [by rewrite app_nil_r|].
    by eapply step_content.
  - intros i cc connID w Hi. by apply (proj1 (reachable_dl tr s Hr)) in Hi.
Qed.

(** As long as the identifiers of all connections ever opened are
    distinct, a connection stays registered until its remote side is closed: no other
    request, goroutine or client makes it unreachable. *)
Theorem dpi_registered tr s cc c :
  reachable tr s -> NoDup (conn_ids (sy_server s)) ->
  sv_conns (sy_server s) !! cc = Some c -> cc_closed c = false ->
  getClient (sy_server s) (cc_connID c) = Some cc.
Proof. intros Hr Hn. by apply (reachable_registered tr s). Qed.

End Server.

(** ** Concrete runs *)

Section Runs.
#[local] Existing Instance toy_aead.

Definition demo_seal (m : bytes) : bytes := s2b "0123456789ab" ++ m ++ toy_tag.
Definition demo_choice : choice := Choice true None ([], None) 0 demo_rand None.
Definition demo_reads (data : bytes) (e : option error) : choice :=
  Choice true None (data, e) 0 demo_rand None.

(** The body of a connect request for [connID], and a whole request. *)
Definition demo_connect (connID : Z) (addr : string) : pc :=
  let payload := EncodeConnectRequest (Connect (s2b "tcp") (s2b addr)) in
  HTTP (s2b "POST") (s2b "/.well-known/cdn-cache/upload")
    (Ret (demo_seal (header_bytes MsgConnect connID (len payload) ++ payload))) true.
Definition demo_download (connID : Z) : pc :=
  HTTP (s2b "GET") (s2b "/download/" ++ Itoa connID) (Ret []) true.

(** Two clients open a connection each under identifier 1, and the remote side of
    the first one ends. *)
Definition collision_run : list action :=
  [Call (demo_connect 1 "a:80"); Step 0 demo_choice; Step 0 demo_choice;
   Call (demo_connect 1 "b:80"); Step 2 demo_choice; Step 2 demo_choice;
   Step 1 (demo_reads [] (Some EOF)); Step 1 demo_choice; Step 1 demo_choice; Step 1 demo_choice;
   Call (demo_download 1); Step 4 demo_choice].

(** The remote side answers and closes before the client asks for the download. *)
Definition early_eof_run : list action :=
  [Call (demo_connect 1 "a:80"); Step 0 demo_choice; Step 0 demo_choice;
   Step 1 (demo_reads (s2b "answer") (Some EOF)); Step 1 demo_choice; Step 1 demo_choice;
   Step 1 demo_choice; Step 1 demo_choice;
   Call (demo_download 1); Step 2 demo_choice].

(** A connection in use: an answer is streamed while the connection is open. *)
Definition demo_run : list action :=
  [Call (demo_connect 7 "a:80"); Step 0 demo_choice; Step 0 demo_choice;
   Step 1 (demo_reads (s2b "answer") None); Step 1 demo_choice;
   Call (demo_download 7); Step 2 demo_choice; Step 2 demo_choice].

Definition run_end (l : list action) : sys :=
  default (Sys (new_server []) []) (snd <$> run l (Sys (new_server []) [])).
Definition run_trace (l : list action) : list (nat * event) :=
  default [] (fst <$> run l (Sys (new_server []) [])).

Lemma run_reachable l : is_Some (run l (Sys (new_server []) [])) -> reachable (run_trace l) (run_end l).
Proof.
  intros [[tr s] E]. exists []. unfold run_trace, run_end. rewrite E. cbn. by eapply dpi_run_steps.
Qed.

(** Connection identifiers are chosen by the clients, each counting from
    1, so two clients collide: in a reachable state the second client's connection is
    open, its reading goroutine is running, and yet it is no longer registered,
    because the end of the first client's connection unregistered identifier 1; the
    second client's download is answered 404. *)
Lemma connID_collision :
  exists tr s c, reachable tr s /\
    sv_conns (sy_server s) !! 1 = Some c /\ cc_connID c = 1%Z /\ cc_closed c = false /\
    sy_pool s !! 3 = Some (RG_read 1) /\ getClient (sy_server s) 1 = None /\
    sy_pool s !! 4 = Some (http_Error "Not Found" 404).
Proof.
  exists (run_trace collision_run), (run_end collision_run), (ClientConn 1 (s2b "b:80") [] false [] false).
  split; [apply run_reachable; vm_compute; by eexists|]. vm_compute. split_and!; reflexivity.
Qed.

(** A remote peer that answers and closes before the client's download
    request arrives loses its answer: in a reachable state the answer is in [dataCh],
    but the connection has been unregistered and the download is answered 404. *)
Lemma early_eof_lost :
  exists tr s, reachable tr s /\ content (sy_server s) 0 = [s2b "answer"] /\
    getClient (sy_server s) 1 = None /\ sy_pool s !! 2 = Some (http_Error "Not Found" 404).
Proof.
  exists (run_trace early_eof_run), (run_end early_eof_run).
  split; [apply run_reachable; vm_compute; by eexists|]. vm_compute. split_and!; reflexivity.
Qed.

(** Two ways to lose a connection.  Identifiers are chosen by the clients, each
    counting from 1: in a reachable state the second client's connection is open and its
    reading goroutine is running, and yet it is no longer registered, because the end of
    the first client's connection unregistered identifier 1, and its download is answered
    404.  And a remote peer that answers and closes before the client's download request
    arrives loses its answer: in a reachable state the answer is in [dataCh], but the
    connection has been unregistered and the download is answered 404. *)
Theorem dpi_lost :
  (exists tr s c, reachable tr s /\
     sv_conns (sy_server s) !! 1 = Some c /\ cc_connID c = 1%Z /\ cc_closed c = false /\
     sy_pool s !! 3 = Some (RG_read 1) /\ getClient (sy_server s) 1 = None /\
     sy_pool s !! 4 = Some (http_Error "Not Found" 404)) /\
  (exists tr s, reachable tr s /\ content (sy_server s) 0 = [s2b "answer"] /\
     getClient (sy_server s) 1 = None /\ sy_pool s !! 2 = Some (http_Error "Not Found" 404)).
Proof. exact (conj connID_collision early_eof_lost). Qed.

Lemma dpi_demo_reachable : reachable (run_trace demo_run) (run_end demo_run).
Proof. apply run_reachable. vm_compute. by eexists. Qed.

Lemma dpi_server_safe_witness : Crashed ∉ sy_pool (run_end demo_run).
Proof. apply (dpi_server_safe _ _ dpi_demo_reachable). Defined.

Lemma dpi_download_stream_witness :
  queued 0 (run_trace demo_run) = [s2b "answer"] /\
  queued 0 (run_trace demo_run) = delivered 0 (run_trace demo_run) ++ content (sy_server (run_end demo_run)) 0.
Proof.
  split; [vm_compute; reflexivity|].
  exact (proj1 (@dpi_download_stream _ toy_laws _ _ dpi_demo_reachable) 0).
Defined.

Lemma dpi_registered_witness : getClient (sy_server (run_end demo_run)) 7 = Some 0.
Proof.
  refine (dpi_registered _ _ 0 (ClientConn 7 (s2b "a:80") [] false [] false) dpi_demo_reachable _ _ _).
  - vm_compute. apply NoDup_singleton.
  - vm_compute. reflexivity.
  - reflexivity.
Defined.

End Runs.
