(* ===== verification/DpiClient.v ===== *)
(** * The DPI client's transport (dpi/client/transport.go)

    Messages to the server travel as HTTP requests, the answers as a download stream
    of encrypted frames.  The HTTP client is a parameter: [Do n req] is what
    [http.NewRequest] and [httpClient.Do] make of the [n]-th request.  The theorems
    compose the client's side with the server's ([DpiServer]). *)
From S2P Require Import Prelude GoIO Strconv DpiCommon DpiServer.
Local Open Scope Z_scope.

(** ** Requests and responses *)

Definition header_map := list (bytes * bytes).
Definition Header_Del (k : bytes) (h : header_map) : header_map := filter (fun kv => kv.1 <> k) h.
Definition Header_Set (k v : bytes) (h : header_map) : header_map := Header_Del k h ++ [(k, v)].

Record request := Request {
  rq_method : bytes; rq_url : bytes; rq_Host : option bytes; rq_header : header_map; rq_body : bytes }.
Record response := Response { rs_StatusCode : Z; rs_Location : bytes; rs_Body : reader }.

(** [Transport], without the parts only [net/http] looks at. *)
Record Transport := MkTransport {
  tp_baseURL : bytes; tp_scheme : bytes; tp_host : bytes;
  tp_frontHost : bytes; tp_frontIP : bytes; tp_protocol : bytes; tp_connIDGen : Z }.

Definition normalizeAppProtocol (protocol : bytes) : res bytes :=
  if bool_decide (protocol = [] \/ protocol = s2b "auto") then Ret (s2b "auto")
  else if bool_decide (protocol = s2b "h1" \/ protocol = s2b "h2") then Ret protocol
  else if bool_decide (protocol = s2b "h3") then Err (ErrMsg "protocol h3 is not implemented yet")
  else Err (ErrMsg "invalid protocol").

(** [NewTransport]; [u] is the scheme and host [url.Parse(serverURL)] returns. *)
Definition NewTransport (serverURL : bytes) (u : res (bytes * bytes)) (frontHost frontIP protocol : bytes)
  : res Transport :=
  match u with
  | Ret (scheme, host) =>
      if negb (bool_decide (scheme = s2b "http") || bool_decide (scheme = s2b "https"))
      then Err (ErrMsg "URL scheme must be http or https")
      else if bool_decide (frontIP = []) then Err (ErrMsg "front IP is required (resolve from -server at startup)")
      else
        proto ← normalizeAppProtocol protocol;
        Ret (MkTransport serverURL scheme host frontHost frontIP proto 1)
  | Err _ => Err (ErrMsg "parse server URL")
  | Panic w => Panic w
  end.

Definition set_baseURL (t : Transport) (u : bytes) : Transport :=
  MkTransport u (tp_scheme t) (tp_host t) (tp_frontHost t) (tp_frontIP t) (tp_protocol t) (tp_connIDGen t).
Definition set_connIDGen (t : Transport) (g : Z) : Transport :=
  MkTransport (tp_baseURL t) (tp_scheme t) (tp_host t) (tp_frontHost t) (tp_frontIP t) (tp_protocol t) g.

Definition NextConnID (t : Transport) : Z * Transport :=
  let id := tp_connIDGen t in
  let g := u32 (tp_connIDGen t + 1) in
  let g := if g =? 0 then 1 else g in
  (id, set_connIDGen t g).

Definition setBrowserHeaders (t : Transport) (req : request) : request :=
  let host := if bool_decide (tp_frontHost t = []) then rq_Host req else Some (tp_frontHost t) in
  let set k v h := Header_Set (s2b k) v h in
  let h := rq_header req in
  let h := set "User-Agent" (s2b "Mozilla/5.0 (Windows NT 10.0; Win64; x64) AppleWebKit/537.36 (KHTML, like Gecko) Chrome/120.0.0.0 Safari/537.36") h in
  let h := set "Accept" (s2b "*/*") h in
  let h := set "Accept-Language" (s2b "en-US,en;q=0.9") h in
  let h := set "Accept-Encoding" (s2b "gzip, deflate, br") h in
  let h := set "Cache-Control" (s2b "no-cache") h in
  let h := set "Pragma" (s2b "no-cache") h in
  let h := set "Sec-Ch-Ua" (quoted "Not_A Brand" ++ s2b ";v=" ++ quoted "8" ++ s2b ", " ++
             quoted "Chromium" ++ s2b ";v=" ++ quoted "120" ++ s2b ", " ++
             quoted "Google Chrome" ++ s2b ";v=" ++ quoted "120") h in
  let h := set "Sec-Ch-Ua-Mobile" (s2b "?0") h in
  let h := set "Sec-Ch-Ua-Platform" (quoted "Windows") h in
  let h := set "Sec-Fetch-Dest" (s2b "empty") h in
  let h := set "Sec-Fetch-Mode" (s2b "cors") h in
  let h := set "Sec-Fetch-Site" (s2b "cross-site") h in
  Request (rq_method req) (rq_url req) host h (rq_body req).

(** ** Sending *)

(** The transport, [rand.Reader] and the requests made so far. *)
Record world := World { wd_tp : Transport; wd_rand : reader; wd_sent : list request }.

Section Transport.
Context `{aead : AEAD}.
Context (Do : nat -> request -> res response).

Definition do_request (req : request) : io world response := fun w =>
  (Do (length (wd_sent w)) req, World (wd_tp w) (wd_rand w) (wd_sent w ++ [req])).

Definition encrypt (plaintext : bytes) : io world bytes := fun w =>
  let '(r, rnd) := Encrypt plaintext (wd_rand w) in (r, World (wd_tp w) rnd (wd_sent w)).

Definition next_conn_id : io world Z := fun w =>
  let '(id, t) := NextConnID (wd_tp w) in (Ret id, World t (wd_rand w) (wd_sent w)).

Definition get_tp : io world Transport := fun w => (Ret (wd_tp w), w).
Definition put_baseURL (u : bytes) : io world unit := fun w =>
  (Ret tt, World (set_baseURL (wd_tp w) u) (wd_rand w) (wd_sent w)).

(** A POST of [body], as [Connect], [SendData] and [CloseConn] build it. *)
Definition upload_request (t : Transport) (path : bytes) (body : bytes) : request :=
  let req := setBrowserHeaders t (Request (s2b "POST") (tp_baseURL t ++ path) None [] body) in
  Request (rq_method req) (rq_url req) (rq_Host req)
    (Header_Set (s2b "Content-Type") (s2b "application/octet-stream") (rq_header req)) (rq_body req).

(** What [Connect] does with the response; [again] is the recursive call. *)
Definition connect_reply (again : io world Z) (connID : Z) (t : Transport) (resp : response) : io world Z :=
  if (300 <=? rs_StatusCode resp) && (rs_StatusCode resp <? 400) &&
     negb (bool_decide (rs_Location resp = []))
  then
    let redirectURL := rs_Location resp in
    let redirectURL :=
      if bool_decide (head redirectURL = Some Byte.x2f)
      then tp_scheme t ++ s2b "://" ++ tp_host t ++ redirectURL else redirectURL in
    put_baseURL redirectURL ≫= fun _ => again
  else
    let body := flat (rs_Body resp) in
    if negb (rs_StatusCode resp =? 200) then throw (ErrMsg "connect failed")
    else if negb (Contains body (quoted "status" ++ s2b ":" ++ quoted "ok"))
    then throw (ErrMsg "connect failed")
    else mret connID.

(** [fuel] bounds the redirects followed. *)
Fixpoint Connect (fuel : nat) (network address : bytes) : io world Z :=
  match fuel with
  | O => crash "out of fuel"
  | S fuel' =>
      let payload := EncodeConnectRequest (DpiCommon.Connect network address) in
      connID ← next_conn_id;
      let plaintext := header_bytes MsgConnect connID (u32 (len payload)) ++ payload in
      encrypted ← encrypt plaintext;
      t ← get_tp;
      resp ← do_request (upload_request t (s2b "/.well-known/cdn-cache/upload") encrypted);
      connect_reply (Connect fuel' network address) connID t resp
  end.

Definition SendData (connID : Z) (data : bytes) : io world unit :=
  let plaintext := header_bytes MsgData connID (u32 (len data)) ++ data in
  encrypted ← encrypt plaintext;
  t ← get_tp;
  resp ← do_request (upload_request t (s2b "/api/v2/upload") encrypted);
  mret tt.

Definition CloseConn (connID : Z) : io world unit :=
  encrypted ← encrypt (header_bytes MsgClose connID 0);
  t ← get_tp;
  resp ← do_request (upload_request t (s2b "/api/v2/upload") encrypted);
  mret tt.

(** ** Receiving *)

(** [streamReader]; its scratch buffer carries nothing from one call to the next. *)
Record streamReader := StreamReader { sr_Body : reader; sr_decrypted : bytes; sr_off : nat }.

Definition DownloadStream (connID : Z) : io world streamReader :=
  t ← get_tp;
  let req := setBrowserHeaders t
    (Request (s2b "GET") (tp_baseURL t ++ s2b "/download/" ++ Itoa connID) None [] []) in
  let req := Request (rq_method req) (rq_url req) (rq_Host req)
    (Header_Del (s2b "Accept-Encoding") (rq_header req)) (rq_body req) in
  resp ← do_request req;
  if negb (rs_StatusCode resp =? 200) then throw (ErrMsg "download failed")
  else mret (StreamReader (rs_Body resp) [] 0).

(** The part of a decrypted frame that [Read] keeps: [10+payloadLen] is a [uint32]. *)
Definition frame_payload (dec : bytes) : res bytes :=
  if 10 <? len dec then
    let payloadLen := be_get (take 4 (drop 6 dec)) in
    if u32 (10 + payloadLen) <=? len dec then slice 10 (u32 (10 + payloadLen)) dec
    else Ret []
  else Ret [].

(** [Read(p)] with [len(p) = k]; the bytes copied into [p]. *)
Fixpoint sr_Read_loop (fuel k : nat) (sr : streamReader) : res bytes * streamReader :=
  match fuel with
  | O => (Panic "out of fuel", sr)
  | S fuel' =>
      if (sr_off sr <? length (sr_decrypted sr))%nat then
        let got := take k (drop (sr_off sr) (sr_decrypted sr)) in
        (Ret got, StreamReader (sr_Body sr) (sr_decrypted sr) (sr_off sr + length got))
      else
        match ReadFull 4 (sr_Body sr) with
        | (Ret lenBuf, r1) =>
            let encLen := be_get lenBuf in
            if 256 * 1024 <? encLen then (Err ErrClosedPipe, StreamReader r1 [] 0)
            else
              match ReadFull (Z.to_nat encLen) r1 with
              | (Ret enc, r2) =>
                  match Decrypt enc with
                  | Ret dec =>
                      match frame_payload dec with
                      | Ret p => sr_Read_loop fuel' k (StreamReader r2 p 0)
                      | Err e => (Err e, StreamReader r2 [] 0)
                      | Panic w => (Panic w, StreamReader r2 [] 0)
                      end
                  | Err e => (Err e, StreamReader r2 [] 0)
                  | Panic w => (Panic w, StreamReader r2 [] 0)
                  end
              | (Err e, r2) => (Err e, StreamReader r2 [] 0)
              | (Panic w, r2) => (Panic w, StreamReader r2 [] 0)
              end
        | (Err e, r1) => (Err e, StreamReader r1 [] 0)
        | (Panic w, r1) => (Panic w, StreamReader r1 [] 0)
        end
  end.

(** Every frame takes at least four bytes of the body. *)
Definition sr_Read (k : nat) (sr : streamReader) : res bytes * streamReader :=
  sr_Read_loop (S (S (length (flat (sr_Body sr))))) k sr.
End Transport.

(** ** Connection identifiers *)

(** The identifiers of [n] successive calls. *)
Fixpoint next_ids (n : nat) (t : Transport) : list Z :=
  match n with O => [] | S n' => let '(id, t') := NextConnID t in id :: next_ids n' t' end.

Definition id_period : Z := 2 ^ 32 - 1.

Lemma NextConnID_gen t :
  1 <= tp_connIDGen t < 2 ^ 32 ->
  (NextConnID t).1 = tp_connIDGen t /\
  tp_connIDGen (NextConnID t).2 = 1 + tp_connIDGen t mod id_period.
Proof.
  intros H. cbn. split; [done|]. unfold u32, id_period. change (2 ^ 32) with 4294967296 in *.
  zcases; mlia.
Qed.

Lemma next_ids_nth n t i :
  1 <= tp_connIDGen t < 2 ^ 32 -> (i < n)%nat ->
  next_ids n t !! i = Some (1 + (tp_connIDGen t - 1 + Z.of_nat i) mod id_period).
Proof.
  revert t i. induction n as [|n IH]; intros t i Ht Hi; [lia|]. cbn [next_ids].
  destruct (NextConnID_gen t Ht) as [H1 H2]. destruct (NextConnID t) as [id t']. cbn in H1, H2.
  assert (Hp : 0 < id_period) by done.
  destruct i as [|i]; cbn.
  - rewrite H1. f_equal. rewrite Z.mod_small; [lia|]. unfold id_period. lia.
  - pose proof (Z.mod_pos_bound (tp_connIDGen t) id_period Hp) as Hb.
    rewrite IH by (unfold id_period in *; lia). rewrite H2. do 2 f_equal.
    replace (1 + tp_connIDGen t mod id_period - 1 + Z.of_nat i)
      with (tp_connIDGen t mod id_period + Z.of_nat i) by lia.
    rewrite Zplus_mod_idemp_l. f_equal. lia.
Qed.

(** ** The two ends of an upload agree *)

Section Agreement.
Context `{laws : AEADLaws}.

Definition sealed (body plaintext : bytes) : Prop := Decrypt body = Ret plaintext /\ body <> [].

Lemma encrypt_sealed p w :
  match encrypt p w with
  | (Ret c, w') => sealed c p /\ wd_tp w' = wd_tp w /\ wd_sent w' = wd_sent w
  | (Err _, w') => wd_tp w' = wd_tp w /\ wd_sent w' = wd_sent w /\
      (length (flat (wd_rand w)) < NonceSize)%nat
  | (Panic _, _) => False
  end.
Proof.
  unfold encrypt.
  destruct (Encrypt_cases p (wd_rand w)) as [(_ & nonce & r' & _ & Hn & ->)|(Hl & e & r' & ->)]; [|done].
  split_and!; try done. split; [by apply Decrypt_sealed|].
  intros [-> _]%app_eq_nil. done.
Qed.

(** A sealed upload as the server's mux sees it. *)
Lemma route_upload s path body plaintext fl room :
  sealed body plaintext ->
  path = s2b "/.well-known/cdn-cache/upload" \/ path = s2b "/api/v2/upload" ->
  route s (s2b "POST") path (Ret body) fl room =
    if (length plaintext <? StreamHeaderSize)%nat then bad_request
    else
      let hdr := parse_header plaintext in
      let payload := drop 10 plaintext in
      if sh_MsgType hdr =? MsgConnect then
        if negb (sh_PayloadLen hdr =? len payload) then bad_request
        else match DecodeConnectRequest payload with
             | Err _ => bad_request | Panic _ => Aborted
             | Ret req => TU_connect (sh_ConnID hdr) req end
      else if sh_MsgType hdr =? MsgData then TU_data (sh_ConnID hdr) payload
      else if sh_MsgType hdr =? MsgClose then TU_close (sh_ConnID hdr)
      else Replied 200 body_ok.
Proof.
  intros [Hd Hne] Hp. unfold route.
  assert (HasPrefix path (s2b "/.well-known/cdn-cache/") || bool_decide (path = s2b "/api/v2/upload") = true)
    as -> by (destruct Hp as [-> | ->]; vm_compute; reflexivity).
  unfold handleTunnel. rewrite bool_decide_true by done. cbn [negb orb].
  destruct body; [done|]. unfold DecryptStream. by rewrite Hd.
Qed.

Lemma drop_header t c p payload : drop 10 (header_bytes t c p ++ payload) = payload.
Proof. by apply (drop_app_length' (header_bytes t c p)). Qed.

Lemma length_message t c p payload :
  (length (header_bytes t c p ++ payload) <? StreamHeaderSize)%nat = false.
Proof. rewrite length_app, length_header. apply Nat.ltb_ge. lia. Qed.
End Agreement.

Section Uploads.
Context `{laws : AEADLaws}.
Context (Do : nat -> request -> res response).

(** [req] is the request a call made; the server decodes it as [t]. *)
Definition decoded_as (w w' : world) (path : bytes) (t : pc) (req : request) : Prop :=
  wd_sent w' = wd_sent w ++ [req] /\ rq_method req = s2b "POST" /\
  rq_url req = tp_baseURL (wd_tp w) ++ path /\
  forall s fl room, route s (rq_method req) path (Ret (rq_body req)) fl room = t.

(** The common part of the three uploads: seal, send, look at the response. *)
Lemma upload_sends {A} plain path t (k : Transport -> response -> io world A) w :
  (NonceSize <= length (flat (wd_rand w)))%nat ->
  path = s2b "/.well-known/cdn-cache/upload" \/ path = s2b "/api/v2/upload" ->
  (forall s body fl room, sealed body plain ->
     route s (s2b "POST") path (Ret body) fl room = t) ->
  exists req w1, decoded_as w w1 path t req /\ wd_tp w1 = wd_tp w /\
    (encrypted ← encrypt plain; tp ← get_tp;
     resp ← do_request Do (upload_request tp path encrypted); k tp resp) w =
    match Do (length (wd_sent w)) req with
    | Ret resp => k (wd_tp w) resp w1 | Err e => (Err e, w1) | Panic y => (Panic y, w1)
    end.
Proof.
  intros Hr Hp Hdec. pose proof (encrypt_sealed plain w) as He.
  destruct (encrypt plain w) as [[c|e|y] w0] eqn:Ec; [|lia|done]. destruct He as (Hs & Htp & Hsent).
  set (req := upload_request (wd_tp w0) path c).
  exists req, (World (wd_tp w0) (wd_rand w0) (wd_sent w0 ++ [req])). split_and!.
  - unfold decoded_as. cbn [wd_sent]. rewrite <- Hsent, <- Htp. split_and!; try done. intros. by apply Hdec.
  - done.
  - erewrite io_bind_ret by exact Ec. unfold mbind, io_bind, get_tp, do_request. fold req.
    rewrite Hsent, Htp. by destruct (Do _ _).
Qed.

Lemma SendData_sends connID data w :
  0 <= connID < 2 ^ 32 -> (NonceSize <= length (flat (wd_rand w)))%nat ->
  exists req w1, decoded_as w w1 (s2b "/api/v2/upload") (TU_data connID data) req /\
    wd_tp w1 = wd_tp w /\
    SendData Do connID data w = (match Do (length (wd_sent w)) req with
      Ret _ => Ret tt | Err e => Err e | Panic y => Panic y end, w1).
Proof.
  intros Hid Hr.
  destruct (upload_sends (header_bytes MsgData connID (u32 (len data)) ++ data) (s2b "/api/v2/upload")
    (TU_data connID data) (fun _ _ => mret tt) w Hr) as (req & w1 & Hd & Ht & E); [by right| |].
  - intros s body fl room Hs. rewrite (route_upload s _ body _ fl room Hs) by auto.
    rewrite length_message, drop_header, parse_header_bytes. cbn. unfold u32. by rewrite (Z.mod_small connID) by lia.
  - exists req, w1. split; [done|]. split; [done|]. unfold SendData. rewrite E. by destruct (Do _ _).
Qed.

Lemma CloseConn_sends connID w :
  0 <= connID < 2 ^ 32 -> (NonceSize <= length (flat (wd_rand w)))%nat ->
  exists req w1, decoded_as w w1 (s2b "/api/v2/upload") (TU_close connID) req /\
    wd_tp w1 = wd_tp w /\
    CloseConn Do connID w = (match Do (length (wd_sent w)) req with
      Ret _ => Ret tt | Err e => Err e | Panic y => Panic y end, w1).
Proof.
  intros Hid Hr.
  destruct (upload_sends (header_bytes MsgClose connID 0) (s2b "/api/v2/upload")
    (TU_close connID) (fun _ _ => mret tt) w Hr) as (req & w1 & Hd & Ht & E); [by right| |].
  - intros s body fl room Hs. rewrite (route_upload s _ body _ fl room Hs) by auto.
    rewrite <- (app_nil_r (header_bytes MsgClose connID 0)).
    rewrite length_message, parse_header_bytes. cbn. unfold u32. by rewrite (Z.mod_small connID) by lia.
  - exists req, w1. split; [done|]. split; [done|]. unfold CloseConn. rewrite E. by destruct (Do _ _).
Qed.

Definition is_redirect (resp : response) : bool :=
  (300 <=? rs_StatusCode resp) && (rs_StatusCode resp <? 400) && negb (bool_decide (rs_Location resp = [])).
Definition redirect_target (t : Transport) (resp : response) : bytes :=
  if bool_decide (head (rs_Location resp) = Some Byte.x2f)
  then tp_scheme t ++ s2b "://" ++ tp_host t ++ rs_Location resp else rs_Location resp.
Definition accepted (resp : response) : bool :=
  (rs_StatusCode resp =? 200) &&
  Contains (flat (rs_Body resp)) (quoted "status" ++ s2b ":" ++ quoted "ok").

Lemma Connect_sends fuel network address w :
  1 <= tp_connIDGen (wd_tp w) < 2 ^ 32 -> (NonceSize <= length (flat (wd_rand w)))%nat ->
  len network < 65534 -> len address < 65536 ->
  exists req w1,
    decoded_as w w1 (s2b "/.well-known/cdn-cache/upload")
      (TU_connect (tp_connIDGen (wd_tp w)) (DpiCommon.Connect network address)) req /\
    wd_tp w1 = (NextConnID (wd_tp w)).2 /\
    Connect Do (S fuel) network address w =
      match Do (length (wd_sent w)) req with
      | Ret resp =>
          if is_redirect resp
          then Connect Do fuel network address
                 (World (set_baseURL (wd_tp w1) (redirect_target (wd_tp w1) resp)) (wd_rand w1) (wd_sent w1))
          else (if accepted resp then Ret (tp_connIDGen (wd_tp w)) else Err (ErrMsg "connect failed"), w1)
      | Err e => (Err e, w1)
      | Panic y => (Panic y, w1)
      end.
Proof.
  intros Hg Hr Hn Ha. set (creq := DpiCommon.Connect network address).
  set (payload := EncodeConnectRequest creq). set (id := tp_connIDGen (wd_tp w)).
  set (w0 := World (NextConnID (wd_tp w)).2 (wd_rand w) (wd_sent w)).
  pose proof (len_nonneg network). pose proof (len_nonneg address).
  assert (Hlp : 0 <= len payload < 2 ^ 32) by (unfold payload; rewrite len_Encode; cbn; lia).
  destruct (upload_sends (header_bytes MsgConnect id (u32 (len payload)) ++ payload)
    (s2b "/.well-known/cdn-cache/upload") (TU_connect id creq)
    (connect_reply (Connect Do fuel network address) id) w0) as (req & w1 & Hd & Ht & E);
    [exact Hr|by left| |exists req, w1; split; [exact Hd|split; [exact Ht|]]; cbn [Connect];
     erewrite (io_bind_ret next_conn_id) by reflexivity; etransitivity; [exact E|]].
  - intros s body fl room Hs. rewrite (route_upload s _ body _ fl room Hs) by auto.
    rewrite length_message, drop_header, parse_header_bytes. cbn [sh_MsgType sh_PayloadLen sh_ConnID].
    unfold u32 at 1. rewrite (Z.mod_small (u32 (len payload))) by (apply Z.mod_pos_bound; lia).
    unfold u32. rewrite (Z.mod_small (len payload)), (Z.mod_small id), Z.eqb_refl by lia.
    change (MsgConnect mod 256 =? MsgConnect) with true. cbn [negb]. cbv iota.
    unfold payload. rewrite <- (app_nil_r (EncodeConnectRequest creq)).
    by rewrite Z.eqb_refl, Decode_Encode.
  - destruct (Do _ _) as [resp|e|y]; [|done..]. unfold connect_reply, is_redirect, redirect_target, accepted.
    destruct (_ && _ && _).
    { unfold put_baseURL, mbind, io_bind. by rewrite Ht. }
    destruct (rs_StatusCode resp =? 200); [|done]. by destruct (Contains _ _).
Qed.
End Uploads.

(** ** The two ends of a download agree *)

Section Downloads.
Context `{laws : AEADLaws}.

Lemma download_payload_header connID d :
  download_payload connID d = header_bytes MsgData connID (u32 (len d)) ++ d.
Proof. unfold download_payload, header_bytes, uint32ToBytes. by rewrite <- !app_comm_cons, <- app_assoc. Qed.

Lemma take_drop_header t c p payload : take 4 (drop 6 (header_bytes t c p ++ payload)) = be_put 4 p.
Proof. unfold header_bytes. done. Qed.

Lemma frame_payload_download connID d :
  d <> [] -> (length d <= readBufSize)%nat -> frame_payload (download_payload connID d) = Ret d.
Proof.
  intros Hne Hl. rewrite download_payload_header. unfold frame_payload.
  rewrite take_drop_header, be_get_put.
  assert (Hd : 0 < len d <= 32768).
  { unfold len, readBufSize in *. destruct d; [done|]. cbn [length] in *. lia. }
  rewrite len_app. assert (Hh : forall a b c, len (header_bytes a b c) = 10) by done. rewrite Hh.
  unfold u32. change (2 ^ (8 * Z.of_nat 4)) with (2 ^ 32).
  rewrite !(Z.mod_small (len d)) by lia. rewrite (Z.mod_small (10 + len d)) by lia.
  zcases; try lia. rewrite <- (app_nil_r d) at 3. by apply slice_app.
Qed.

(** [data] is what is left to read, [e] the error the stream ends with. *)
Definition sr_pending (connID : Z) (data : bytes) (e : error) (sr : streamReader) : Prop :=
  exists chunks bs, data = drop (sr_off sr) (sr_decrypted sr) ++ concat chunks /\
    delivers bs e (sr_Body sr) /\ frames connID bs chunks /\
    Forall chunk_ok chunks.

Lemma frames_cons connID bs d chunks :
  frames connID bs (d :: chunks) ->
  exists enc bs', bs = be_put 4 (u32 (len enc)) ++ enc ++ bs' /\
    Decrypt enc = Ret (download_payload connID d) /\ frames connID bs' chunks.
Proof.
  intros (encs & -> & HF). destruct encs as [|enc encs]; inversion HF; subst.
  exists enc, (concat (frame <$> encs)). split_and!; [|done|by exists encs].
  cbn [fmap list_fmap concat]. unfold frame. by rewrite <- app_assoc.
Qed.

(** What one [Read] with a [k]-byte buffer does to [data] still to come. *)
Definition read_result (connID : Z) (data : bytes) (e : error) (k : nat) (o : res bytes * streamReader) : Prop :=
  match o with
  | (Ret got, sr') => got <> [] /\ (length got <= k)%nat /\
      exists data', data = got ++ data' /\ sr_pending connID data' e sr'
  | (Err e', _) => data = [] /\ e' = e
  | (Panic _, _) => False
  end.

Lemma drop_length_take {A} k (l : list A) : drop (length (take k l)) l = drop k l.
Proof. rewrite <- (take_drop k l) at 2. apply drop_app_length. Qed.

(** Bytes at hand are returned at once. *)
Lemma sr_Read_now connID data e k sr fuel :
  (0 < k)%nat -> sr_pending connID data e sr -> (sr_off sr < length (sr_decrypted sr))%nat ->
  read_result connID data e k (sr_Read_loop (S fuel) k sr).
Proof.
  intros Hk (chunks & bs & -> & Hdl & Hf & Hc) Hlt. cbn [sr_Read_loop].
  apply Nat.ltb_lt in Hlt as Hb. rewrite Hb. set (rest := drop (sr_off sr) (sr_decrypted sr)).
  assert (Hr : (0 < length rest)%nat) by (unfold rest; rewrite length_drop; lia).
  split_and!.
  - intros E%(f_equal length). rewrite length_take in E. cbn in E. lia.
  - rewrite length_take. lia.
  - exists (drop k rest ++ concat chunks). split; [by rewrite app_assoc, take_drop|].
    exists chunks, bs. cbn [sr_off sr_decrypted sr_Body]. split_and!; try done. f_equal.
    rewrite <- drop_drop. symmetry. apply drop_length_take.
Qed.

Lemma sr_Read_result connID data e k sr :
  (0 < k)%nat -> sr_pending connID data e sr -> read_result connID data e k (sr_Read k sr).
Proof.
  intros Hk Hp. unfold sr_Read.
  destruct (Nat.lt_ge_cases (sr_off sr) (length (sr_decrypted sr))) as [Hlt|Hge].
  { by apply sr_Read_now. }
  cbn [sr_Read_loop]. apply Nat.ltb_ge in Hge as Hb. rewrite Hb.
  destruct Hp as (chunks & bs & -> & Hdl & Hf & Hc). rewrite drop_ge by done. cbn [app].
  destruct chunks as [|d chunks].
  - destruct Hf as ([|? ?] & -> & HF); [|by inversion HF].
    destruct (ReadFull_delivers_short [] e 4 (sr_Body sr) Hdl) as (r' & -> & _); [cbn; lia|].
    by destruct e.
  - apply frames_cons in Hf as (enc & bs' & -> & Hde & Hf'). apply Forall_cons_1 in Hc as [[Hne Hld] Hc].
    assert (Hlen : 0 <= len enc < 40000).
    { apply Decrypt_length in Hde. rewrite download_payload_header, length_app, length_header in Hde.
      unfold len, readBufSize, NonceSize, TagSize, StreamHeaderSize in *. lia. }
    destruct (ReadFull_delivers _ _ _ 4 _ Hdl) as (r1 & -> & Hdl1); [apply length_be_put|].
    rewrite be_get_put. change (2 ^ (8 * Z.of_nat 4)) with (2 ^ 32). unfold u32.
    rewrite !Z.mod_small by (rewrite ?Z.mod_small; lia). zcases; [lia|].
    destruct (ReadFull_delivers _ _ _ (Z.to_nat (len enc)) _ Hdl1) as (r2 & -> & Hdl2).
    { unfold len. by rewrite Nat2Z.id. }
    rewrite Hde, frame_payload_download by done.
    apply sr_Read_now; [done| |cbn; by destruct d; [|cbn; lia]].
    exists chunks, bs'. split_and!; done.
Qed.

(** [io.ReadAll] with a buffer of [k] bytes per call. *)
Fixpoint sr_ReadAll (fuel k : nat) (sr : streamReader) : option (bytes * error) :=
  match fuel with
  | O => None
  | S fuel' =>
      match sr_Read k sr with
      | (Ret got, sr') => '(rest, e) ← sr_ReadAll fuel' k sr'; Some (got ++ rest, e)
      | (Err e, _) => Some ([], e)
      | (Panic _, _) => None
      end
  end.

Lemma sr_ReadAll_pending connID data e k sr fuel :
  (0 < k)%nat -> sr_pending connID data e sr -> (length data < fuel)%nat ->
  sr_ReadAll fuel k sr = Some (data, e).
Proof.
  revert data sr. induction fuel as [|fuel IH]; intros data sr Hk Hp Hf; [lia|]. cbn [sr_ReadAll].
  pose proof (sr_Read_result connID data e k sr Hk Hp) as Hr.
  destruct (sr_Read k sr) as [[got|e'|w] sr']; cbn in Hr.
  - destruct Hr as (Hne & _ & data' & -> & Hp'). rewrite length_app in Hf.
    rewrite (IH data'); [done|done|done|]. destruct got; [done|]. cbn in Hf. lia.
  - by destruct Hr as [-> ->].
  - done.
Qed.

(** ** Reading arbitrary streams *)

(** The payload length of a frame that makes [10+payloadLen] wrap. *)
Definition wraps (dec : bytes) : Prop :=
  10 < len dec /\ 2 ^ 32 - 10 <= be_get (take 4 (drop 6 dec)).

Lemma frame_payload_cases dec :
  match frame_payload dec with
  | Ret p => len p <= len dec
  | Err _ => False
  | Panic _ => wraps dec
  end.
Proof.
  unfold frame_payload, wraps. zcases; try (cbn; unfold len in *; cbn; lia).
  set (n := be_get _) in *.
  assert (Hn : 0 <= n < 2 ^ 32).
  { unfold n. pose proof (be_get_range (take 4 (drop 6 dec))) as R. unfold len in *.
    rewrite length_take, length_drop in R.
    replace (4 `min` (length dec - 6))%nat with 4%nat in R by lia. done. }
  destruct (decide (n < 2 ^ 32 - 10)) as [Hs|Hb].
  - unfold u32 in *. rewrite Z.mod_small in * by lia.
    destruct (slice_ok 10 (10 + n) dec) as (pre & mid & suf & -> & _ & Hm & ->); [lia|done|].
    rewrite !len_app. pose proof (len_nonneg pre). pose proof (len_nonneg suf). lia.
  - rewrite slice_reversed; [lia|]. unfold u32. change (2 ^ 32) with 4294967296 in *. mlia.
Qed.

Lemma sr_Read_loop_cases fuel k sr :
  ((if sr_off sr <? length (sr_decrypted sr) then 1 else 2 + length (flat (sr_Body sr))) <= fuel)%nat ->
  match sr_Read_loop fuel k sr with
  | (Panic why, _) => exists enc dec, Decrypt enc = Ret dec /\ wraps dec
  | _ => True
  end.
Proof.
  revert sr. induction fuel as [|fuel IH]; intros sr Hf.
  { destruct (_ <? _)%nat in Hf; lia. }
  cbn [sr_Read_loop]. destruct (sr_off sr <? length (sr_decrypted sr))%nat; [done|].
  destruct (readFull_loop_spec (S (length (r_chunks (sr_Body sr)))) 4 [] (sr_Body sr)) as
    [(H4 & r1 & (Hr1 & _) & E1)|(_ & r1 & _ & E1)]; [lia| |]; unfold ReadFull at 1; rewrite E1; [|done].
  cbn [app]. set (n := be_get _). zcases; [done|].
  destruct (readFull_loop_spec (S (length (r_chunks r1))) (Z.to_nat n) [] r1) as
    [(Hn & r2 & (Hr2 & _) & E2)|(_ & r2 & _ & E2)]; [lia| |]; unfold ReadFull; rewrite E2; [|done].
  cbn [app]. destruct (Decrypt _) as [dec|e|y] eqn:Ed; [|done|by apply Decrypt_nopanic in Ed].
  pose proof (frame_payload_cases dec) as Hp. destruct (frame_payload dec) as [p|e|y]; [|done|by eauto].
  apply IH. cbn. rewrite Hr2, Hr1, !length_drop.
  destruct (length p); lia.
Qed.
End Downloads.

(** ** Properties *)

(** A transport hands out at least [2^32 - 1] connection identifiers before
    one repeats, and never 0: any [n <= 2^32 - 1] successive calls of [NextConnID] on a
    new transport return distinct identifiers between 1 and [2^32 - 1]. *)
Theorem conn_ids_distinct serverURL u frontHost frontIP protocol t n :
  NewTransport serverURL u frontHost frontIP protocol = Ret t -> Z.of_nat n <= 2 ^ 32 - 1 ->
  NoDup (next_ids n t) /\ Forall (fun id => 1 <= id < 2 ^ 32) (next_ids n t).
Proof.
  intros Ht Hn. assert (Hg : tp_connIDGen t = 1).
  { unfold NewTransport in Ht. destruct u as [[scheme host]| |]; try done.
    destruct (negb _); [done|]. destruct (bool_decide _); [done|].
    destruct (normalizeAppProtocol protocol); try done. by injection Ht as <-. }
  assert (Hnth : forall i, (i < n)%nat -> next_ids n t !! i = Some (1 + Z.of_nat i)).
  { intros i Hi. rewrite next_ids_nth by lia. rewrite Hg. do 2 f_equal.
    apply Z.mod_small. unfold id_period. lia. }
  assert (Hlen : length (next_ids n t) = n).
  { clear. revert t. induction n as [|n IH]; intros t; [done|]. cbn. by rewrite IH. }
  split.
  - apply NoDup_alt. intros i j x Hi Hj.
    assert (i < n)%nat by (rewrite <- Hlen; by eapply lookup_lt_Some).
    assert (j < n)%nat by (rewrite <- Hlen; by eapply lookup_lt_Some).
    rewrite Hnth in Hi, Hj by done. injection Hi as <-. injection Hj as Hj. lia.
  - apply Forall_lookup_2. intros i x Hi.
    assert (i < n)%nat by (rewrite <- Hlen; by eapply lookup_lt_Some).
    rewrite Hnth in Hi by done. injection Hi as <-. lia.
Qed.

Lemma run_call `{AEAD} t l s pool :
  is_call t = true -> run (Call t :: l) (Sys s pool) = run l (Sys s (pool ++ [t])).
Proof. intros E. cbn [run]. by rewrite E. Qed.

(** Letting the youngest thread of a pool act. *)
Lemma run_last `{AEAD} x s pool t s1 t1 evs l :
  thread_step x s t = Some (s1, t1, [], evs) ->
  run (Step (length pool) x :: l) (Sys s (pool ++ [t])) =
    '(tr, s') ← run l (Sys s1 (pool ++ [t1])); Some ((pair (length pool) <$> evs) ++ tr, s').
Proof.
  intros E. cbn [run sy_pool sy_server]. rewrite list_lookup_middle by done. cbn [mbind option_bind].
  rewrite E. cbn [mbind option_bind]. by rewrite app_nil_r, insert_app_r_alt, Nat.sub_diag by lia.
Qed.

(** Uploads end to end: [SendData connID data] makes one request to
    [baseURL]/api/v2/upload; when that request reaches a server where [connID] is
    registered and the remote connection is open and takes the bytes, the handler
    writes exactly [data] to that connection, touches nothing else and answers 200;
    and [SendData] fails exactly when the HTTP exchange does. *)
Theorem upload_end_to_end `{laws : AEADLaws} Do connID data w s pool cc c x fl :
  0 <= connID < 2 ^ 32 -> (NonceSize <= length (flat (wd_rand w)))%nat ->
  getClient s connID = Some cc -> sv_conns s !! cc = Some c -> cc_closed c = false -> x_write x = None ->
  exists req w1, wd_sent w1 = wd_sent w ++ [req] /\
    rq_url req = tp_baseURL (wd_tp w) ++ s2b "/api/v2/upload" /\
    SendData Do connID data w = (match Do (length (wd_sent w)) req with
        Ret _ => Ret tt | Err e => Err e | Panic y => Panic y end, w1) /\
    let i := length pool in
    run [Call (HTTP (rq_method req) (s2b "/api/v2/upload") (Ret (rq_body req)) fl); Step i x; Step i x; Step i x]
        (Sys s pool) =
      Some ([(i, Wrote cc data)],
            Sys (set_conn s cc (remote_write c data)) (pool ++ [Replied 200 body_ok])).
Proof.
  intros Hid Hr Hg Hc Hcl Hx.
  destruct (SendData_sends Do connID data w Hid Hr) as (req & w1 & (Hs & Hm & Hu & Hd) & _ & E).
  exists req, w1. split_and!; [done|done|done|]. cbn zeta.
  rewrite run_call by done.
  erewrite run_last; [|cbn [thread_step]; by rewrite Hd].
  erewrite run_last; [|cbn [thread_step]; by rewrite Hg].
  erewrite run_last; [|cbn [thread_step]; unfold with_conn; rewrite Hc; cbn [mbind option_bind];
    by rewrite Hcl, Hx].
  done.
Qed.

(** C6. Connecting end to end: [Connect] uses the next identifier and makes a
    request the server decodes as a connect request for exactly that identifier,
    network and address; the answer the server gives after a successful dial makes
    [Connect] return that identifier, the answer it gives after a failed dial makes
    it return an error, and in both cases no further request is made. *)
Theorem connect_end_to_end `{laws : AEADLaws} Do fuel network address w :
  let id := tp_connIDGen (wd_tp w) in
  1 <= id < 2 ^ 32 -> (NonceSize <= length (flat (wd_rand w)))%nat ->
  len network < 65534 -> len address < 65536 ->
  exists req w1, wd_sent w1 = wd_sent w ++ [req] /\
    rq_url req = tp_baseURL (wd_tp w) ++ s2b "/.well-known/cdn-cache/upload" /\
    (forall s fl room, route s (rq_method req) (s2b "/.well-known/cdn-cache/upload") (Ret (rq_body req)) fl room
       = TU_connect id (DpiCommon.Connect network address)) /\
    (forall body, Do (length (wd_sent w)) req = Ret (Response 200 [] body) ->
       (flat body = body_connected id -> Connect Do (S fuel) network address w = (Ret id, w1)) /\
       (flat body = body_failed ->
          Connect Do (S fuel) network address w = (Err (ErrMsg "connect failed"), w1))).
Proof.
  intros id Hg Hr Hn Ha.
  destruct (Connect_sends Do fuel network address w Hg Hr Hn Ha) as (req & w1 & (Hs & Hm & Hu & Hd) & _ & E).
  exists req, w1. split_and!; [done|done|done|]. intros body Hdo. rewrite E, Hdo.
  change (is_redirect (Response 200 [] body)) with false. cbv iota.
  unfold accepted. cbn [rs_StatusCode rs_Body]. split; intros ->; [|done].
  change (200 =? 200) with true. cbn [andb].
  replace (Contains (body_connected id) _) with true; [done|]. symmetry. apply Contains_true.
  exists (s2b "{"), (s2b "," ++ quoted "conn_id" ++ s2b ":" ++ Itoa id ++ s2b "}"). done.
Qed.

(** Downloads end to end: whatever a download handler has streamed so far
    in any reachable state of the server, a client that receives those bytes, however
    the network splits them, reads exactly the concatenation of the chunks the remote
    peer sent, in order, and then the error its connection ends with; this for any
    buffer size. *)
Theorem download_end_to_end `{laws : AEADLaws} tr s i cc connID w r e k fuel :
  reachable tr s -> sy_pool s !! i = Some (DL_loop cc connID w) ->
  delivers (w_out w) e r -> (0 < k)%nat ->
  (length (concat (delivered_by i tr)) < fuel)%nat ->
  sr_ReadAll fuel k (StreamReader r [] 0) = Some (concat (delivered_by i tr), e).
Proof.
  intros Hr Hi Hd Hk Hf. apply (sr_ReadAll_pending connID); [done| |done].
  exists (delivered_by i tr), (w_out w). split_and!; [done|done| |].
  - by apply (proj1 (reachable_dl tr s Hr)) in Hi.
  - by apply (reachable_chunks tr s).
Qed.


(** The download request: for a registered connection the server's mux
    takes [GET /download/<connID>], as [DownloadStream] prints it, to the download loop
    of exactly that connection; for any other identifier it answers 404. *)
Theorem download_request_agrees `{laws : AEADLaws} s connID body room :
  0 <= connID < 2 ^ 32 ->
  route s (s2b "GET") (s2b "/download/" ++ Itoa connID) body true room =
    match getClient s connID with
    | Some cc => DL_loop cc connID (Writer [] room ErrClosedPipe)
    | None => http_Error "Not Found" 404
    end.
Proof.
  intros Hid. unfold route. assert (Hne : Itoa connID <> []) by (apply Itoa_spec; lia).
  assert (HasPrefix (s2b "/download/" ++ Itoa connID) (s2b "/download/") = true) as ->
    by (apply HasPrefix_true; eauto).
  assert (HasPrefix (s2b "/download/" ++ Itoa connID) (s2b "/.well-known/cdn-cache/") = false) as -> by done.
  rewrite bool_decide_false by done. cbn [orb]. unfold handleDownload.
  rewrite bool_decide_true by done. cbn [negb orb]. rewrite TrimPrefix_app, bool_decide_false by done.
  by rewrite Sscanf_Itoa by lia.
Qed.

(** ** Concrete runs *)

Section Runs.
#[local] Existing Instance toy_aead.

Definition demo_tp : Transport := MkTransport (s2b "http://h") (s2b "http") (s2b "h") [] (s2b "10.0.0.1") (s2b "auto") 1.
Definition many_rand : reader := Reader (replicate 8 (s2b "0123456789abcdef")) EOF.
Definition demo_world : world := World demo_tp many_rand [].

(** A front that sends the first upload to https and a server that then accepts. *)
Definition https_front (n : nat) (req : request) : res response :=
  match n with
  | O => Ret (Response 301 (s2b "https://h/.well-known/cdn-cache/upload") (Reader [] EOF))
  | S O => Ret (Response 200 [] (Reader [body_connected 2] EOF))
  | _ => Err (ErrIO 0)
  end.

(** A redirect that keeps the path of the request, as one from http to
    https does, breaks the tunnel: [Connect] succeeds and keeps the whole redirect
    target as its base URL, so the download is requested under the path of the upload
    endpoint, where every server answers 405 to a GET. *)
Theorem redirect_breaks_download :
  exists w1 w2 req,
    Connect https_front 2 (s2b "tcp") (s2b "a:80") demo_world = (Ret 2, w1) /\
    tp_baseURL (wd_tp w1) = s2b "https://h/.well-known/cdn-cache/upload" /\
    DownloadStream https_front 2 w1 = (Err (ErrIO 0), w2) /\ wd_sent w2 = wd_sent w1 ++ [req] /\
    rq_url req = s2b "https://h" ++ s2b "/.well-known/cdn-cache/upload/download/2" /\
    forall s room, route s (rq_method req) (s2b "/.well-known/cdn-cache/upload/download/2")
      (Ret (rq_body req)) true room = http_Error "Method Not Allowed" 405.
Proof.
  eexists _, _, _. split; [vm_compute; reflexivity|]. split; [vm_compute; reflexivity|].
  split; [vm_compute; reflexivity|]. split; [vm_compute; reflexivity|].
  split; [vm_compute; reflexivity|]. intros s room. vm_compute. reflexivity.
Qed.

Lemma conn_ids_distinct_witness :
  exists t, NewTransport (s2b "http://h") (Ret (s2b "http", s2b "h")) [] (s2b "10.0.0.1") [] = Ret t /\
    NoDup (next_ids 3 t) /\ Forall (fun id => 1 <= id < 2 ^ 32) (next_ids 3 t).
Proof.
  eexists. split; [vm_compute; reflexivity|].
  apply (conn_ids_distinct (s2b "http://h") (Ret (s2b "http", s2b "h")) [] (s2b "10.0.0.1") []);
    [vm_compute; reflexivity|lia].
Defined.

Definition demo_sys : sys := run_end demo_run.

Lemma upload_end_to_end_witness :
  exists req w1, SendData https_front 7 (s2b "hello") demo_world = (Ret tt, w1) /\
    wd_sent w1 = [] ++ [req].
Proof.
  destruct (@upload_end_to_end _ toy_laws https_front 7 (s2b "hello") demo_world (sy_server demo_sys)
    (sy_pool demo_sys) 0 (ClientConn 7 (s2b "a:80") [] false [] false) demo_choice true)
    as (req & w1 & Hs & _ & E & _); [lia|vm_compute; lia|vm_compute; reflexivity..|].
  exists req, w1. split; [|exact Hs]. rewrite E. reflexivity.
Defined.

Lemma connect_end_to_end_witness :
  exists req w1, wd_sent w1 = [] ++ [req] /\
    Connect (fun _ _ => Ret (Response 200 [] (Reader [body_connected 1] EOF))) 1 (s2b "tcp") (s2b "a:80") demo_world
      = (Ret 1, w1).
Proof.
  destruct (@connect_end_to_end _ toy_laws (fun _ _ => Ret (Response 200 [] (Reader [body_connected 1] EOF)))
    0 (s2b "tcp") (s2b "a:80") demo_world) as (req & w1 & Hs & _ & _ & E);
    [vm_compute; split; congruence|vm_compute; lia|vm_compute; reflexivity|vm_compute; reflexivity|].
  exists req, w1. split; [exact Hs|]. destruct (E _ eq_refl) as [E1 _]. apply E1.
  unfold flat. cbn [r_chunks concat]. by rewrite app_nil_r.
Defined.

Lemma download_end_to_end_witness :
  exists r, sr_ReadAll 7 4 (StreamReader r [] 0) = Some (s2b "answer", EOF).
Proof.
  assert (Hd : exists w, sy_pool demo_sys !! 2%nat = Some (DL_loop 0 7 w)) by (vm_compute; by eexists).
  destruct Hd as [w Hw].
  exists (Reader [w_out w] EOF).
  replace (s2b "answer") with (concat (delivered_by 2 (run_trace demo_run))) by (vm_compute; reflexivity).
  apply (@download_end_to_end _ toy_laws (run_trace demo_run) demo_sys 2 0 7 w); [exact dpi_demo_reachable|exact Hw| |lia|].
  - assert (Hne : w_out w <> []) by (vm_compute in Hw; injection Hw as <-; discriminate).
    split_and!; [apply app_nil_r|reflexivity|constructor; [exact Hne|constructor]].
  - vm_compute. lia.
Defined.

(** A sealed frame that announces [2^32 - 1] bytes. *)
Definition wrap_dec : bytes := header_bytes MsgData 7 (2 ^ 32 - 1) ++ s2b "x".


Lemma download_request_agrees_witness :
  route (sy_server demo_sys) (s2b "GET") (s2b "/download/" ++ Itoa 7) (Ret []) true None =
  match getClient (sy_server demo_sys) 7 with
  | Some cc => DL_loop cc 7 (Writer [] None ErrClosedPipe)
  | None => http_Error "Not Found" 404
  end.
Proof. apply (@download_request_agrees _ toy_laws). lia. Defined.
End Runs.
