(* ===== verification/DpiTunnel.v ===== *)
(** * tunnelConn (dpi/client/proxy.go): a net.Conn over the HTTP tunnel

    Two pumps, and the callers of [Read], [Write] and [Close], share three channels
    and a [sync.Once].  Each is a thread of atomic actions as in [QueueConn];
    [SendData]'s outcome, what the download stream yields, the expiry of the flush
    timer and the branch a [select] takes are an argument of the step.  [Read] is
    called by one goroutine at a time, as [io.Copy] does. *)
From S2P Require Import Prelude.

Definition readChSize : nat := 16.
Definition writeChSize : nat := 64.
Definition maxBatchBytes : nat := Z.to_nat 65536.
Definition pumpBufSize : nat := Z.to_nat 32768.
#[local] Opaque maxBatchBytes pumpBufSize.

(** [writeReq]: the data and the identity of its [ack] channel. *)
Record writeReq := WriteReq { wr_data : bytes; wr_ack : nat }.

(** The state the goroutines share.  [tc_acks] holds what was sent on the [ack]
    channels, by identity; [tc_next] is the next identity. *)
Record tunnelConn := TunnelConn {
  tc_readBuf : bytes;
  tc_readCh : list bytes;
  tc_readChClosed : bool;
  tc_closed : bool;
  tc_writeCh : list writeReq;
  tc_acks : gmap nat (option error);
  tc_next : nat }.

Definition newTunnelConn : tunnelConn := TunnelConn [] [] false false [] ∅ 0.

Definition set_readBuf c b :=
  TunnelConn b (tc_readCh c) (tc_readChClosed c) (tc_closed c) (tc_writeCh c) (tc_acks c) (tc_next c).
Definition set_readCh c q b :=
  TunnelConn (tc_readBuf c) q b (tc_closed c) (tc_writeCh c) (tc_acks c) (tc_next c).
Definition set_closed c :=
  TunnelConn (tc_readBuf c) (tc_readCh c) (tc_readChClosed c) true (tc_writeCh c) (tc_acks c) (tc_next c).
Definition set_writeCh c q :=
  TunnelConn (tc_readBuf c) (tc_readCh c) (tc_readChClosed c) (tc_closed c) q (tc_acks c) (tc_next c).
Definition set_acks c m :=
  TunnelConn (tc_readBuf c) (tc_readCh c) (tc_readChClosed c) (tc_closed c) (tc_writeCh c) m (tc_next c).
Definition next_ack c :=
  TunnelConn (tc_readBuf c) (tc_readCh c) (tc_readChClosed c) (tc_closed c) (tc_writeCh c) (tc_acks c) (S (tc_next c)).

(** [timer] of [pumpWrite]: nil, running, expired with its tick in [timer.C], or
    expired with the tick received and the variable still set. *)
Inductive timer := NoTimer | Running | Ticked | Drained.

Inductive pc :=
  (* Read(b) with len(b) = k *)
  | RD_start (k : nat) | RD_wait (k : nat)
  (* Write(b): the select on writeCh, the select on ack *)
  | WR_start (b : bytes) | WR_send (b : bytes) (ack : nat) | WR_wait (b : bytes) (ack : nat)
  (* pumpRead: the check of closeCh, the read, the send, the close of readCh *)
  | PR_check | PR_read | PR_send (dup : bytes) (err : option error) | PR_end
  (* pumpWrite at its select; sendBatch at its SendData, then returning if [last] *)
  | PW_loop (batch : bytes) (acks : list nat) (t : timer)
  | PW_send (batch : bytes) (acks : list nat) (last : bool)
  (* Close *)
  | CL_start
  | Done_read (r : res bytes) | Done_write (r : res nat) (ack : nat) | Finished | Crashed.

Inductive event :=
  | Enqueued (ack : nat) (d : bytes)     (* a Write request entered writeCh *)
  | Sent (d : bytes)                     (* SendData of a batch succeeded *)
  | Streamed (d : bytes)                 (* the download stream yielded d *)
  | Returned (d : bytes)                 (* Read returned d *)
  | CloseSent.                           (* transport.CloseConn was called *)

Record choice := Choice {
  x_branch : nat;                        (* which ready branch a select takes *)
  x_send : option error;                 (* the outcome of SendData *)
  x_stream : bytes * option error }.     (* what reader.Read yields *)

(** [flush(err)]: every collected [ack] gets [err]. *)
Definition flush (err : option error) (acks : list nat) (c : tunnelConn) : tunnelConn :=
  set_acks c (foldr (fun a m => <[a := err]> m) (tc_acks c) acks).

(** [tc.Close()]: the body of [closeOnce.Do] runs once. *)
Definition close_conn (c : tunnelConn) : tunnelConn * list event :=
  if tc_closed c then (c, []) else (set_closed c, [CloseSent]).

Definition thread_step (x : choice) (c : tunnelConn) (t : pc)
  : option (tunnelConn * pc * list event) :=
  match t with
  | RD_start k =>
      match tc_readBuf c with
      | [] => Some (c, RD_wait k, [])
      | b :: buf =>
          Some (set_readBuf c (drop k (b :: buf)), Done_read (Ret (take k (b :: buf))),
                [Returned (take k (b :: buf))])
      end
  | RD_wait k =>
      match tc_readCh c with
      | data :: q =>
          let c := set_readCh c q (tc_readChClosed c) in
          let n := Nat.min k (length data) in
          Some (if n <? length data then set_readBuf c (drop n data) else c,
                Done_read (Ret (take n data)), [Returned (take n data)])
      | [] => if tc_readChClosed c then Some (c, Done_read (Err EOF), []) else None
      end
  | WR_start b => Some (next_ack c, WR_send b (tc_next c), [])
  | WR_send b ack =>
      match x_branch x with
      | O =>
          if decide (length (tc_writeCh c) < writeChSize)
          then Some (set_writeCh c (tc_writeCh c ++ [WriteReq b ack]), WR_wait b ack, [Enqueued ack b])
          else None
      | _ => if tc_closed c then Some (c, Done_write (Err EOF) ack, []) else None
      end
  | WR_wait b ack =>
      match x_branch x with
      | O =>
          match tc_acks c !! ack with
          | Some (Some e) => Some (c, Done_write (Err e) ack, [])
          | Some None => Some (c, Done_write (Ret (length b)) ack, [])
          | None => None
          end
      | _ => if tc_closed c then Some (c, Done_write (Err EOF) ack, []) else None
      end
  | PR_check => if tc_closed c then Some (c, Finished, []) else Some (c, PR_read, [])
  | PR_read =>
      let n := take pumpBufSize (x_stream x).1 in
      match n, (x_stream x).2 with
      | _ :: _, err => Some (c, PR_send n err, [Streamed n])
      | [], Some _ => Some (c, PR_end, [])
      | [], None => Some (c, PR_check, [])
      end
  | PR_send dup err =>
      match x_branch x with
      | O =>
          if tc_readChClosed c then Some (c, Crashed, [])
          else if decide (length (tc_readCh c) < readChSize)
          then Some (set_readCh c (tc_readCh c ++ [dup]) (tc_readChClosed c),
                     if err is Some _ then PR_end else PR_check, [])
          else None
      | _ => if tc_closed c then Some (c, Finished, []) else None
      end
  | PR_end =>
      if tc_closed c then Some (c, Finished, [])
      else if tc_readChClosed c then Some (c, Crashed, [])
      else Some (set_readCh c (tc_readCh c) true, Finished, [])
  | PW_loop batch acks t =>
      match x_branch x with
      | O =>
          match tc_writeCh c with
          | [] => None
          | req :: q =>
              let batch := batch ++ wr_data req in
              let acks := acks ++ [wr_ack req] in
              if maxBatchBytes <=? length batch
              then Some (set_writeCh c q, PW_send batch acks false, [])
              else Some (set_writeCh c q,
                         PW_loop batch acks (match t with NoTimer => Running | _ => t end), [])
          end
      | 1 =>
          match t with
          | Ticked =>
              match batch with
              | [] => Some (c, PW_loop batch acks Drained, [])
              | _ => Some (c, PW_send batch acks false, [])
              end
          | _ => None
          end
      | 2 =>
          if tc_closed c then
            match batch with
            | [] => Some (c, Finished, [])
            | _ => Some (c, PW_send batch acks true, [])
            end
          else None
      | _ => match t with Running => Some (c, PW_loop batch acks Ticked, []) | _ => None end
      end
  | PW_send batch acks last =>
      match x_send x with
      | Some e =>
          let '(c', evs) := close_conn (flush (Some e) acks c) in
          Some (c', Finished, evs)
      | None =>
          Some (flush None acks c, if last then Finished else PW_loop [] [] NoTimer, [Sent batch])
      end
  | CL_start => let '(c', evs) := close_conn c in Some (c', Finished, evs)
  | _ => None
  end.

(** ** Interleavings *)

Record sys := Sys { sy_conn : tunnelConn; sy_pool : list pc }.

Definition is_read (t : pc) : bool := match t with RD_start _ | RD_wait _ => true | _ => false end.

Definition callable (s : sys) (t : pc) : bool :=
  match t with
  | WR_start _ | CL_start => true
  | RD_start _ => negb (existsb is_read (sy_pool s))
  | _ => false
  end.

Inductive sys_step : sys -> list event -> sys -> Prop :=
  | step_call s t : callable s t = true -> sys_step s [] (Sys (sy_conn s) (sy_pool s ++ [t]))
  | step_thread s i t x c' t' evs :
      sy_pool s !! i = Some t -> thread_step x (sy_conn s) t = Some (c', t', evs) ->
      sys_step s evs (Sys c' (<[i := t']> (sy_pool s))).

Inductive steps (s0 : sys) : list event -> sys -> Prop :=
  | steps_refl : steps s0 [] s0
  | steps_more tr s evs s' : steps s0 tr s -> sys_step s evs s' -> steps s0 (tr ++ evs) s'.

(** [newTunnelConn] starts the two pumps. *)
Definition initial : sys := Sys newTunnelConn [PR_check; PW_loop [] [] NoTimer].
Definition reachable : list event -> sys -> Prop := steps initial.

(** A schedule as a program. *)
Inductive action := Call (t : pc) | Step (i : nat) (x : choice).

Fixpoint run (l : list action) (s : sys) : option (list event * sys) :=
  match l with
  | [] => Some ([], s)
  | Call t :: l' => if callable s t then run l' (Sys (sy_conn s) (sy_pool s ++ [t])) else None
  | Step i x :: l' =>
      t ← sy_pool s !! i;
      '(c, t', evs) ← thread_step x (sy_conn s) t;
      '(tr, s') ← run l' (Sys c (<[i := t']> (sy_pool s)));
      Some (evs ++ tr, s')
  end.

Lemma tc_steps_trans s1 tr1 s2 tr2 s3 : steps s1 tr1 s2 -> steps s2 tr2 s3 -> steps s1 (tr1 ++ tr2) s3.
Proof.
  intros H1. induction 1 as [|tr s evs s' _ IH Hs]; [by rewrite app_nil_r|].
  rewrite app_assoc. by econstructor.
Qed.

Lemma tc_run_steps l s tr s' : run l s = Some (tr, s') -> steps s tr s'.
Proof.
  revert s tr. induction l as [|[t|i x] l IH]; cbn; intros s tr E.
  - injection E as <- <-. constructor.
  - destruct (callable s t) eqn:Ht; [|done]. eapply (tc_steps_trans _ []); [|by apply IH].
    eapply (steps_more _ [] s []); constructor; done.
  - destruct (sy_pool s !! i) as [t|] eqn:Ei; [|done]. cbn in E.
    destruct (thread_step x (sy_conn s) t) as [[[c t'] evs]|] eqn:Et; [|done]. cbn in E.
    destruct (run l _) as [[tr' s1]|] eqn:Er; [|done]. cbn in E. injection E as <- <-.
    eapply tc_steps_trans; [|by apply IH].
    eapply (steps_more _ [] s); [constructor|]. by econstructor.
Qed.

(** ** The reading side *)

Definition streamed (tr : list event) : list bytes :=
  omap (fun e => match e with Streamed d => Some d | _ => None end) tr.
Definition returned (tr : list event) : list bytes :=
  omap (fun e => match e with Returned d => Some d | _ => None end) tr.

(** The states of [pumpRead], and the bytes it holds. *)
Definition is_pump_read (t : pc) : bool :=
  match t with PR_check | PR_read | PR_send _ _ | PR_end => true | _ => false end.
Definition in_hand (t : pc) : bytes := match t with PR_send d _ => d | _ => [] end.

(** An action that has nothing to do with reading. *)
Definition read_fields (c : tunnelConn) := (tc_readBuf c, tc_readCh c, tc_readChClosed c).

Lemma close_conn_read c : read_fields (close_conn c).1 = read_fields c.
Proof. unfold close_conn. by destruct (tc_closed c). Qed.

(** Case analysis on the action [E : thread_step x c t = Some (c', t', evs)]. *)
Ltac step_cases E :=
  match type of E with thread_step _ _ ?t = _ => destruct t end;
  cbn [thread_step] in E; try discriminate E; unfold close_conn in E;
  repeat match type of E with
  | context [if decide ?P then _ else _] => destruct (decide P)
  | context [tc_closed (flush ?e ?l ?c)] => change (tc_closed (flush e l c)) with (tc_closed c) in E
  | context [if tc_closed ?c then _ else _] => destruct (tc_closed c) eqn:?
  | context [match ?y with _ => _ end] => destruct y eqn:?
  end; try discriminate E; injection E as <- <- <-.

Lemma other_step x c t c' t' evs :
  thread_step x c t = Some (c', t', evs) -> is_pump_read t = false -> is_read t = false ->
  read_fields c' = read_fields c /\ streamed evs = [] /\ returned evs = [] /\
  is_pump_read t' = false /\ is_read t' = false /\ t' <> Crashed /\ (forall r, t' <> Done_read r) /\
  (tc_closed c = true -> tc_closed c' = true).
Proof. intros E Hp Hr. step_cases E; cbn in *; try done; split_and!; try done.
Qed.

(** What the stream yielded is what [Read] returned, then the leftover of the last
    chunk, the queued chunks and what [pumpRead] holds; bytes are [lost] only when
    [pumpRead] stopped because the connection was closed. *)
Record read_inv (tr : list event) (s : sys) (pr : pc) (lost : bytes) : Prop := {
  ri_pump : sy_pool s !! 0 = Some pr;
  ri_state : is_pump_read pr = true \/ pr = Finished;
  ri_bytes : concat (streamed tr) = concat (returned tr) ++ tc_readBuf (sy_conn s) ++
    concat (tc_readCh (sy_conn s)) ++ in_hand pr ++ lost;
  ri_lost : lost <> [] -> pr = Finished /\ tc_readChClosed (sy_conn s) = false;
  ri_closed : tc_readChClosed (sy_conn s) = true -> pr = Finished;
  ri_bound : length (tc_readCh (sy_conn s)) <= readChSize;
  ri_wait i k : sy_pool s !! i = Some (RD_wait k) -> tc_readBuf (sy_conn s) = [];
  ri_single i j ti tj : sy_pool s !! i = Some ti -> sy_pool s !! j = Some tj ->
    is_read ti = true -> is_read tj = true -> i = j;
  ri_eof i e : sy_pool s !! i = Some (Done_read (Err e)) ->
    e = EOF /\ read_fields (sy_conn s) = ([], [], true);
  ri_one i t : sy_pool s !! i = Some t -> is_pump_read t = true -> i = 0;
  ri_crash i : sy_pool s !! i <> Some Crashed }.

Lemma read_inv_call tr s pr lost t :
  read_inv tr s pr lost -> callable s t = true -> read_inv tr (Sys (sy_conn s) (sy_pool s ++ [t])) pr lost.
Proof.
  intros [H1 H2 H3 H4 H5 H6 H7 H8 H9 H10 H11] Ht.
  assert (Hl : forall i u, (sy_pool s ++ [t]) !! i = Some u ->
    sy_pool s !! i = Some u \/ (i = length (sy_pool s) /\ u = t)).
  { intros i u [?|[Hge [? <-]%list_lookup_singleton_Some]]%lookup_app_Some; [by left|right]. split; [lia|done]. }
  assert (Hrd : is_read t = true -> forall j u, sy_pool s !! j = Some u -> is_read u = false).
  { destruct t; try done. intros _ j u Hj. cbn in Ht. apply negb_true_iff in Ht.
    destruct (is_read u) eqn:Eu; [|done]. rewrite <- Ht. symmetry. apply existsb_exists. exists u.
    split; [|done]. apply list_elem_of_In. by eapply list_elem_of_lookup_2. }
  split; cbn; try done.
  - by apply lookup_app_l_Some.
  - intros i k [Hi|[-> <-]]%Hl; eauto. done.
  - intros i j ti tj [Hi|[-> ->]]%Hl [Hj|[-> ->]]%Hl Ri Rj; eauto.
    + specialize (Hrd Rj _ _ Hi). congruence.
    + specialize (Hrd Ri _ _ Hj). congruence.
  - intros i e [Hi|[-> <-]]%Hl; eauto. done.
  - intros i u [Hi|[-> ->]]%Hl Hu; eauto. by destruct t.
  - intros i [Hi|[-> <-]]%Hl; [by eapply H11|done].
Qed.

Lemma streamed_app tr tr' : streamed (tr ++ tr') = streamed tr ++ streamed tr'.
Proof. apply omap_app. Qed.
Lemma returned_app tr tr' : returned (tr ++ tr') = returned tr ++ returned tr'.
Proof. apply omap_app. Qed.

(** Looking up a pool after thread [i] moved to [t']. *)
Lemma pool_insert (pool : list pc) i t' j u :
  <[i := t']> pool !! j = Some u -> (j = i /\ u = t') \/ (j <> i /\ pool !! j = Some u).
Proof. intros [(-> & -> & _)|[? ?]]%list_lookup_insert_Some; auto. Qed.

(** An action of the pump itself. *)
Lemma pump_step x c pr c' t' evs :
  thread_step x c pr = Some (c', t', evs) -> is_pump_read pr = true -> tc_readChClosed c = false ->
  length (tc_readCh c) <= readChSize ->
  tc_readBuf c' = tc_readBuf c /\ returned evs = [] /\ (is_pump_read t' = true \/ t' = Finished) /\
  (tc_readChClosed c' = true -> t' = Finished) /\ length (tc_readCh c') <= readChSize /\
  exists lost, concat (tc_readCh c) ++ in_hand pr ++ concat (streamed evs) =
      concat (tc_readCh c') ++ in_hand t' ++ lost /\
    (lost <> [] -> t' = Finished /\ tc_readChClosed c' = false).
Proof.
  intros E Hp Ho Hl. step_cases E; try done; cbn [is_pump_read in_hand] in *; try congruence.
  all: split_and!; try (by left); try (by right); try done; cbn [tc_readCh set_readCh].
  all: try (intros; congruence).
  all: try (rewrite length_app; cbn; lia).
  all: try (exists []; cbn; rewrite ?concat_app, ?app_nil_r; cbn; rewrite ?app_nil_r; done).
  all: eexists; split; [cbn; rewrite app_nil_r; reflexivity|done].
Qed.

Lemma read_inv_pump tr s pr lost x c' t' evs :
  read_inv tr s pr lost -> is_pump_read pr = true ->
  thread_step x (sy_conn s) pr = Some (c', t', evs) ->
  exists lost', read_inv (tr ++ evs) (Sys c' (<[0 := t']> (sy_pool s))) t' lost'.
Proof.
  intros [H1 H2 H3 H4 H5 H6 H7 H8 H9 H10 H11] Hp E.
  assert (Hopen : tc_readChClosed (sy_conn s) = false).
  { destruct (tc_readChClosed (sy_conn s)) eqn:Ec; [|done]. by rewrite H5 in Hp. }
  assert (lost = []) as ->.
  { destruct lost; [done|]. destruct H4 as [-> _]; [done|done]. }
  destruct (pump_step _ _ _ _ _ _ E Hp Hopen H6) as (Hb & Hr & Ht & Hc & Hl & lost & Hbytes & Hlost).
  assert (Nr : is_read t' = false) by (destruct Ht as [? | ->]; [by destruct t'|done]).
  exists lost. split; cbn; try done.
  - apply list_lookup_insert_eq. by eapply lookup_lt_Some.
  - rewrite streamed_app, returned_app, !concat_app, H3, Hr, Hb, app_nil_r. cbn [concat].
    rewrite app_nil_r, <- !app_assoc, <- Hbytes. done.
  - intros i k [[-> <-]|[_ Hi]]%pool_insert; [done|]. rewrite Hb. eauto.
  - intros i j ti tj [[-> ->]|[? Hi]]%pool_insert [[-> ->]|[? Hj]]%pool_insert Ri Rj; eauto; congruence.
  - intros i e [[-> <-]|[_ Hi]]%pool_insert; [destruct Ht; done|].
    destruct (H9 _ _ Hi) as [_ Hf]. unfold read_fields in Hf. congruence.
  - intros i t [[-> ->]|[_ Hi]]%pool_insert; eauto.
  - intros i [[-> <-]|[_ Hi]]%pool_insert; [destruct Ht; done|by apply H11 in Hi].
Qed.

(** An action of the caller of [Read]. *)
Lemma reader_step x c t c' t' evs :
  thread_step x c t = Some (c', t', evs) -> is_read t = true ->
  (forall k, t = RD_wait k -> tc_readBuf c = []) ->
  streamed evs = [] /\ tc_readChClosed c' = tc_readChClosed c /\
  length (tc_readCh c') <= length (tc_readCh c) /\
  tc_readBuf c ++ concat (tc_readCh c) = concat (returned evs) ++ tc_readBuf c' ++ concat (tc_readCh c') /\
  match t' with
  | RD_wait _ => tc_readBuf c' = []
  | Done_read (Err e) => e = EOF /\ read_fields c' = ([], [], true)
  | Done_read (Ret _) => tc_readChClosed c = true -> True
  | _ => False
  end.
Proof.
  intros E Hr Hw. step_cases E; try done; cbn [is_read] in *; try (pose proof (Hw _ eq_refl) as Hbuf).
  - cbn. by rewrite ?Heql.
  - split_and!; try done. cbn [set_readBuf tc_readBuf tc_readCh returned omap list_omap concat].
    by rewrite app_nil_r, app_assoc, take_drop.
  - unfold read_fields. rewrite Heql, Hbuf, Heqb. by split_and!.
  - rewrite Hbuf. apply Nat.ltb_lt in Heqb. split_and!; try done; cbn; rewrite ?Heql; cbn; [lia|].
    by rewrite app_nil_r, app_assoc, take_drop.
  - apply Nat.ltb_ge in Heqb. split_and!; try done; cbn; rewrite ?Heql, ?Hbuf; cbn; [lia|].
    by rewrite ?app_nil_r, take_ge by lia.
Qed.

Lemma read_inv_reader tr s pr lost i t x c' t' evs :
  read_inv tr s pr lost -> sy_pool s !! i = Some t -> is_read t = true ->
  thread_step x (sy_conn s) t = Some (c', t', evs) ->
  read_inv (tr ++ evs) (Sys c' (<[i := t']> (sy_pool s))) pr lost.
Proof.
  intros [H1 H2 H3 H4 H5 H6 H7 H8 H9 H10 H11] Ei Hr E.
  destruct (reader_step _ _ _ _ _ _ E Hr) as (Hs & Hc & Hl & Hbytes & Ht).
  { intros k ->. by eapply H7. }
  assert (Hi0 : i <> 0).
  { intros ->. rewrite H1 in Ei. injection Ei as ->. destruct H2 as [? | ->]; [by destruct t|done]. }
  assert (Nother : forall j u, j <> i -> sy_pool s !! j = Some u -> is_read u = false).
  { intros j u Hj Hu. destruct (is_read u) eqn:Eu; [|done]. by destruct Hj; eapply H8. }
  split; cbn; rewrite ?Hc; try done.
  - by rewrite list_lookup_insert_ne by done.
  - rewrite streamed_app, returned_app, !concat_app, H3, Hs. cbn [concat]. rewrite app_nil_r, <- !app_assoc.
    f_equal. rewrite !(app_assoc (tc_readBuf _)), Hbytes. by rewrite <- !app_assoc.
  - lia.
  - intros j k [[-> <-]|[Hj Hu]]%pool_insert; [done|]. by apply Nother in Hu.
  - intros j k tj tk [[-> ->]|[Nj Hj]]%pool_insert [[-> ->]|[Nk Hk]]%pool_insert Rj Rk; eauto.
  - intros j e [[-> <-]|[Hj Hu]]%pool_insert; [done|].
    destruct (H9 _ _ Hu) as [-> Hf]. split; [done|]. unfold read_fields in *. injection Hf as F1 F2 F3.
    rewrite F1, F2 in Hbytes. rewrite Hc, F3. cbn in Hbytes. symmetry in Hbytes.
    apply app_nil in Hbytes as [_ Hb]. apply app_nil in Hb as [-> _]. rewrite F2 in Hl. cbn in Hl.
    by destruct (tc_readCh c'); [|cbn in Hl; lia].
  - intros j u [[-> ->]|[Hj Hu]]%pool_insert Hp; [|eauto]. destruct t' as [| | | | | | | | | | | |[]| | |]; done.
  - intros j [[-> <-]|[Hj Hu]]%pool_insert; [done|by apply H11 in Hu].
Qed.

Lemma read_inv_other tr s pr lost i t x c' t' evs :
  read_inv tr s pr lost -> sy_pool s !! i = Some t -> is_read t = false -> is_pump_read t = false ->
  thread_step x (sy_conn s) t = Some (c', t', evs) ->
  read_inv (tr ++ evs) (Sys c' (<[i := t']> (sy_pool s))) pr lost.
Proof.
  intros [H1 H2 H3 H4 H5 H6 H7 H8 H9 H10 H11] Ei Hr Hp E.
  destruct (other_step _ _ _ _ _ _ E Hp Hr) as (Hf & Hs & Hrt & Hp' & Hr' & Hcr & Hdr & _).
  assert (Hi0 : i <> 0).
  { intros ->. rewrite H1 in Ei. injection Ei as ->. destruct H2 as [? | ->]; [congruence|].
    by cbn in E. }
  unfold read_fields in Hf. injection Hf as F1 F2 F3.
  split; cbn; rewrite ?F1, ?F2, ?F3; try done.
  - by rewrite list_lookup_insert_ne by done.
  - by rewrite streamed_app, returned_app, Hs, Hrt, !app_nil_r.
  - intros j k [[-> <-]|[Hj Hu]]%pool_insert; [done|eauto].
  - intros j k tj tk [[-> ->]|[Nj Hj]]%pool_insert [[-> ->]|[Nk Hk]]%pool_insert Rj Rk; eauto; congruence.
  - intros j e [[-> <-]|[Hj Hu]]%pool_insert; [by destruct (Hdr (Err e))|].
    unfold read_fields. rewrite F1, F2, F3. by apply (H9 j).
  - intros j u [[-> ->]|[Hj Hu]]%pool_insert Hpu; [congruence|eauto].
  - intros j [[-> <-]|[Hj Hu]]%pool_insert; [done|by apply H11 in Hu].
Qed.

Lemma reachable_read tr s : reachable tr s -> exists pr lost, read_inv tr s pr lost.
Proof.
  intros H. unfold reachable in H. induction H as [|tr s evs s' H (pr & lost & IH) Hst].
  - exists PR_check, []. split; cbn; try done; try (by left); try (unfold readChSize; lia).
    all: intros [|[|i]]; cbn; try done; intros; simplify_eq; done.
  - destruct Hst as [s t Ht|s i t x c' t' evs Ei E].
    + rewrite app_nil_r. eauto using read_inv_call.
    + destruct (is_read t) eqn:Er; [eauto using read_inv_reader|].
      destruct (is_pump_read t) eqn:Ep; [|eauto using read_inv_other].
      pose proof (ri_one _ _ _ _ IH _ _ Ei Ep) as ->. pose proof (ri_pump _ _ _ _ IH) as Hp.
      rewrite Ei in Hp. injection Hp as <-. destruct (read_inv_pump _ _ _ _ _ _ _ _ IH Ep E) as [lost' ?]. eauto.
Qed.

(** ** The writing side *)

Definition enqueued (tr : list event) : list (nat * bytes) :=
  omap (fun e => match e with Enqueued a d => Some (a, d) | _ => None end) tr.
Definition sent (tr : list event) : list bytes :=
  omap (fun e => match e with Sent d => Some d | _ => None end) tr.
Definition req_pair (r : writeReq) : nat * bytes := (wr_ack r, wr_data r).

Definition is_pump_write (t : pc) : bool :=
  match t with PW_loop _ _ _ | PW_send _ _ _ => true | _ => false end.

(** What [pumpWrite] has collected, as requests. *)
Definition collected (t : pc) (inb : list (nat * bytes)) : Prop :=
  match t with
  | PW_loop batch acks _ | PW_send batch acks _ => inb.*1 = acks /\ concat inb.*2 = batch
  | _ => False
  end.

Definition write_fields (c : tunnelConn) := (tc_writeCh c, tc_acks c, tc_next c).

(** The requests of [Write], in the order they entered [writeCh], are those whose
    bytes were [sent], then those [pumpWrite] has collected, then those queued. *)
Record write_inv (tr : list event) (s : sys) (pw : pc) (done pend : list (nat * bytes)) : Prop := {
  wi_pump : sy_pool s !! 1 = Some pw;
  wi_split : enqueued tr = done ++ pend;
  wi_sent : concat (sent tr) = concat done.*2;
  wi_pend : pw = Finished \/ exists inb, collected pw inb /\
    pend = inb ++ (req_pair <$> tc_writeCh (sy_conn s));
  wi_acks a : tc_acks (sy_conn s) !! a = Some None -> a ∈ done.*1;
  wi_nodup : NoDup (enqueued tr).*1;
  wi_bound : length (tc_writeCh (sy_conn s)) <= writeChSize;
  wi_next a : a ∈ (enqueued tr).*1 -> a < tc_next (sy_conn s);
  wi_one i t : sy_pool s !! i = Some t -> is_pump_write t = true -> i = 1;
  wi_threads i t : sy_pool s !! i = Some t ->
    match t with
    | WR_send _ a => a < tc_next (sy_conn s) /\ a ∉ (enqueued tr).*1
    | WR_wait b a => (a, b) ∈ enqueued tr
    | Done_write (Ret n) a => exists d, (a, d) ∈ done /\ length d = n
    | _ => True
    end;
  wi_distinct i j b b' a :
    sy_pool s !! i = Some (WR_send b a) -> sy_pool s !! j = Some (WR_send b' a) -> i = j }.

Lemma flush_lookup e l c a :
  tc_acks (flush e l c) !! a = if decide (a ∈ l) then Some e else tc_acks c !! a.
Proof.
  unfold flush. cbn. induction l as [|b l IH]; cbn.
  { rewrite decide_False; [done|]. apply not_elem_of_nil. }
  rewrite lookup_insert. destruct (decide (b = a)) as [->|E].
  - rewrite decide_True; [done|]. apply elem_of_cons. by left.
  - rewrite IH. destruct (decide (a ∈ l)) as [Hd|Hd], (decide (a ∈ b :: l)) as [Hd'|Hd']; try done.
    + destruct Hd'. apply elem_of_cons. by right.
    + apply elem_of_cons in Hd' as [->|?]; done.
Qed.

Lemma enqueued_app tr tr' : enqueued (tr ++ tr') = enqueued tr ++ enqueued tr'.
Proof. apply omap_app. Qed.
Lemma sent_app tr tr' : sent (tr ++ tr') = sent tr ++ sent tr'.
Proof. apply omap_app. Qed.

(** An action of a thread that neither writes nor pumps. *)
Definition is_write (t : pc) : bool :=
  match t with WR_start _ | WR_send _ _ | WR_wait _ _ => true | _ => false end.

Lemma nonwrite_step x c t c' t' evs :
  thread_step x c t = Some (c', t', evs) -> is_write t = false -> is_pump_write t = false ->
  write_fields c' = write_fields c /\ enqueued evs = [] /\ sent evs = [] /\
  is_write t' = false /\ is_pump_write t' = false /\ (forall r a, t' <> Done_write r a).
Proof. intros E Hw Hp. step_cases E; cbn in *; try done; split_and!; try done. Qed.

Lemma write_inv_call tr s pw done pend t :
  write_inv tr s pw done pend -> callable s t = true ->
  write_inv tr (Sys (sy_conn s) (sy_pool s ++ [t])) pw done pend.
Proof.
  intros [H1 H2 H3 H4 H5 H6 H7 H8 H9 H10 H11] Ht.
  assert (Hl : forall i u, (sy_pool s ++ [t]) !! i = Some u ->
    sy_pool s !! i = Some u \/ u = t).
  { intros i u [?|[Hge [? <-]%list_lookup_singleton_Some]]%lookup_app_Some; auto. }
  split; cbn; try done.
  - by apply lookup_app_l_Some.
  - intros i u [Hi| ->]%Hl Hu; [eauto|by destruct t].
  - intros i u [Hi| ->]%Hl; [by eapply H10|by destruct t].
  - intros i j b b' a [Hi|<-]%Hl [Hj|E]%Hl; eauto; subst; done.
Qed.

(** Only [pumpWrite], running or finished, has the index 1. *)
Lemma write_inv_index tr s pw done pend i t :
  write_inv tr s pw done pend -> sy_pool s !! i = Some t -> is_pump_write t = false -> t <> Finished -> i <> 1.
Proof.
  intros Hinv Ei Hp Hf ->. rewrite (wi_pump _ _ _ _ _ Hinv) in Ei. injection Ei as ->.
  destruct (wi_pend _ _ _ _ _ Hinv) as [-> | (inb & Hc & _)]; [done|]. by destruct t.
Qed.

Lemma write_inv_other tr s pw done pend i t x c' t' evs :
  write_inv tr s pw done pend -> sy_pool s !! i = Some t -> is_write t = false -> is_pump_write t = false ->
  thread_step x (sy_conn s) t = Some (c', t', evs) ->
  write_inv (tr ++ evs) (Sys c' (<[i := t']> (sy_pool s))) pw done pend.
Proof.
  intros Hinv Ei Hw Hp E. pose proof Hinv as [H1 H2 H3 H4 H5 H6 H7 H8 H9 H10 H11].
  destruct (nonwrite_step _ _ _ _ _ _ E Hw Hp) as (Hf & He & Hs & Hw' & Hp' & Hd).
  unfold write_fields in Hf. injection Hf as F1 F2 F3.
  assert (Hi1 : i <> 1) by (eapply write_inv_index; try done; by destruct t).
  split; cbn; rewrite ?enqueued_app, ?sent_app, ?He, ?Hs, ?app_nil_r, ?F1, ?F2, ?F3; try done.
  - by rewrite list_lookup_insert_ne by done.
  - intros j u [[-> ->]|[Hj Hu]]%pool_insert Hpu; [congruence|eauto].
  - intros j u [[-> ->]|[Hj Hu]]%pool_insert; [|by eapply H10].
    destruct t'; try done. by destruct (Hd r ack).
  - intros j k b b' a [[-> <-]|[? Hj]]%pool_insert [[-> E2]|[? Hk]]%pool_insert; eauto; subst; done.
Qed.

(** [Write] returns: nothing shared changes. *)
Lemma write_inv_return tr s pw done pend i t r a :
  write_inv tr s pw done pend -> sy_pool s !! i = Some t -> is_write t = true ->
  (forall n, r = Ret n -> exists d, (a, d) ∈ done /\ length d = n) ->
  write_inv tr (Sys (sy_conn s) (<[i := Done_write r a]> (sy_pool s))) pw done pend.
Proof.
  intros Hinv Ei Hw Hr. pose proof Hinv as [H1 H2 H3 H4 H5 H6 H7 H8 H9 H10 H11].
  assert (Hi1 : i <> 1) by (eapply write_inv_index; try done; by destruct t).
  split; cbn; try done.
  - by rewrite list_lookup_insert_ne by done.
  - intros j u [[-> ->]|[Hj Hu]]%pool_insert Hpu; [done|eauto].
  - intros j u [[-> ->]|[Hj Hu]]%pool_insert; [|by eapply H10]. destruct r; eauto.
  - intros j k b0 b' a' [[-> E1]|[? Hj]]%pool_insert [[-> E2]|[? Hk]]%pool_insert; eauto; done.
Qed.

(** [Write] draws a fresh [ack]. *)
Lemma write_inv_start tr s pw done pend i b :
  write_inv tr s pw done pend -> sy_pool s !! i = Some (WR_start b) ->
  write_inv tr (Sys (next_ack (sy_conn s)) (<[i := WR_send b (tc_next (sy_conn s))]> (sy_pool s))) pw done pend.
Proof.
  intros Hinv Ei. assert (Hi1 : i <> 1) by (by eapply write_inv_index).
  destruct Hinv as [H1 H2 H3 H4 H5 H6 H7 H8 H9 H10 H11]. split; cbn; try done.
  - by rewrite list_lookup_insert_ne by done.
  - intros a Ha. apply H8 in Ha. lia.
  - intros j u [[-> ->]|[Hj Hu]]%pool_insert Hpu; [done|eauto].
  - intros j u [[-> ->]|[Hj Hu]]%pool_insert.
    + split; [lia|]. intros Ha%H8. lia.
    + specialize (H10 _ _ Hu). destruct u; try done. split; [lia|apply H10].
  - intros j k b0 b' a [[-> E1]|[? Hj]]%pool_insert [[-> E2]|[? Hk]]%pool_insert; eauto; simplify_eq.
    + apply H10 in Hk as [? _]. lia.
    + apply H10 in Hj as [? _]. lia.
Qed.

(** Its request enters [writeCh]. *)
Lemma write_inv_enqueue tr s pw done pend i b ack :
  write_inv tr s pw done pend -> sy_pool s !! i = Some (WR_send b ack) ->
  length (tc_writeCh (sy_conn s)) < writeChSize ->
  write_inv (tr ++ [Enqueued ack b])
    (Sys (set_writeCh (sy_conn s) (tc_writeCh (sy_conn s) ++ [WriteReq b ack])) (<[i := WR_wait b ack]> (sy_pool s)))
    pw done (pend ++ [(ack, b)]).
Proof.
  intros Hinv Ei Hroom. assert (Hi1 : i <> 1) by (by eapply write_inv_index).
  destruct Hinv as [H1 H2 H3 H4 H5 H6 H7 H8 H9 H10 H11]. destruct (H10 _ _ Ei) as [Hlt Hfresh].
  split; cbn; rewrite ?enqueued_app, ?sent_app; cbn; rewrite ?app_nil_r; try done.
  - by rewrite list_lookup_insert_ne by done.
  - by rewrite H2, app_assoc.
  - destruct H4 as [->|(inb & Hc & ->)]; [by left|right]. exists inb. split; [done|].
    by rewrite fmap_app, app_assoc.
  - rewrite fmap_app. apply list.NoDup_app. split_and!; [done| |apply NoDup_singleton].
    intros a Ha Ha2. apply list_elem_of_singleton in Ha2 as ->. done.
  - rewrite length_app. cbn. lia.
  - intros a. rewrite fmap_app, elem_of_app. intros [Ha|Ha%list_elem_of_singleton]; [by apply H8|by subst].
  - intros j u [[-> ->]|[Hj Hu]]%pool_insert Hpu; [done|eauto].
  - intros j u [[-> ->]|[Hj Hu]]%pool_insert.
    + apply elem_of_app. right. by apply list_elem_of_singleton.
    + pose proof (H10 _ _ Hu) as Hx. destruct u; try done.
      * destruct Hx as [? Hnin]. split; [done|]. rewrite fmap_app, elem_of_app.
        intros [?|Ha%list_elem_of_singleton]; [done|]. cbn in Ha. subst. apply Hj. by eapply H11.
      * apply elem_of_app. by left.
  - intros j k b0 b' a [[-> E1]|[? Hj]]%pool_insert [[-> E2]|[? Hk]]%pool_insert; eauto; done.
Qed.

(** A request whose [ack] was answered without error has been sent. *)
Lemma write_inv_acked tr s pw done pend i b ack :
  write_inv tr s pw done pend -> sy_pool s !! i = Some (WR_wait b ack) ->
  tc_acks (sy_conn s) !! ack = Some None -> (ack, b) ∈ done.
Proof.
  intros [H1 H2 H3 H4 H5 H6 H7 H8 H9 H10 H11] Ei Ea. pose proof (H10 _ _ Ei) as Hti. cbn in Hti.
  apply H5, list_elem_of_fmap in Ea as ([a d] & -> & Ha).
  rewrite H2 in H6, Hti. apply elem_of_app in Hti as [?|Hp]; [done|].
  rewrite fmap_app in H6. apply list.NoDup_app in H6 as (_ & Hd & _).
  destruct (Hd a); apply list_elem_of_fmap; [by exists (a, d)|by exists (a, b)].
Qed.

(** An action of the caller of [Write]. *)
Lemma write_inv_writer tr s pw done pend i t x c' t' evs :
  write_inv tr s pw done pend -> sy_pool s !! i = Some t -> is_write t = true ->
  thread_step x (sy_conn s) t = Some (c', t', evs) ->
  exists pend', write_inv (tr ++ evs) (Sys c' (<[i := t']> (sy_pool s))) pw done pend'.
Proof.
  intros Hinv Ei Hw E. destruct t; try done; cbn [thread_step] in E.
  - injection E as <- <- <-. exists pend. rewrite app_nil_r. by apply write_inv_start.
  - destruct (x_branch x).
    2:{ destruct (tc_closed (sy_conn s)); [|discriminate E]. injection E as <- <- <-.
        exists pend. rewrite app_nil_r. by eapply write_inv_return. }
    destruct (decide (length (tc_writeCh (sy_conn s)) < writeChSize)); [|discriminate E].
    injection E as <- <- <-. exists (pend ++ [(ack, b)]). by apply write_inv_enqueue.
  - exists pend. destruct (x_branch x).
    + destruct (tc_acks (sy_conn s) !! ack) as [[e|]|] eqn:Ea; [| |discriminate E];
        injection E as <- <- <-; rewrite app_nil_r; eapply write_inv_return; try done.
      intros n [= <-]. exists b. split; [|done]. by eapply write_inv_acked.
    + destruct (tc_closed (sy_conn s)); [|discriminate E]. injection E as <- <- <-.
      rewrite app_nil_r. by eapply write_inv_return.
Qed.

(** [pumpWrite] moves on, with [done'] sent; the rest of the invariant follows. *)
Lemma write_inv_advance tr s pw done pend c' t' evs done' pend' :
  write_inv tr s pw done pend -> is_pump_write t' = true \/ t' = Finished ->
  tc_next c' = tc_next (sy_conn s) -> length (tc_writeCh c') <= writeChSize ->
  enqueued evs = [] -> done ++ pend = done' ++ pend' -> (forall x, x ∈ done -> x ∈ done') ->
  concat (sent (tr ++ evs)) = concat done'.*2 ->
  (t' = Finished \/ exists inb, collected t' inb /\ pend' = inb ++ (req_pair <$> tc_writeCh c')) ->
  (forall a, tc_acks c' !! a = Some None -> a ∈ done'.*1) ->
  write_inv (tr ++ evs) (Sys c' (<[1 := t']> (sy_pool s))) t' done' pend'.
Proof.
  intros [H1 H2 H3 H4 H5 H6 H7 H8 H9 H10 H11] Ht Hn Hl He Hd Hsub Hs Hp Ha.
  assert (Hnw : forall b a, t' <> WR_send b a) by (intros b a ->; destruct Ht; done).
  split; cbn; rewrite ?enqueued_app, ?He, ?app_nil_r, ?Hn; try done.
  - apply list_lookup_insert_eq. by eapply lookup_lt_Some.
  - congruence.
  - intros i t [[-> ->]|[Hi Hu]]%pool_insert Hpu; [done|eauto].
  - intros i t [[-> ->]|[Hi Hu]]%pool_insert; [destruct Ht as [? | ->]; [by destruct t'|done]|].
    pose proof (H10 _ _ Hu) as Hx. destruct t as [| | | | | | | | | | | | |[]| |]; try done.
    destruct Hx as (d & Hin & Hlen). eauto.
  - intros i j b b' a [[-> E1]|[? Hi]]%pool_insert [[-> E2]|[? Hj]]%pool_insert; eauto; by destruct (Hnw b a) + destruct (Hnw b' a).
Qed.

(** An action that sends nothing and leaves the requests where they are. *)
Lemma write_inv_shift tr s pw done pend t2 q :
  write_inv tr s pw done pend -> is_pump_write pw = true ->
  (t2 = Finished \/ exists inb', collected t2 inb' /\ pend = inb' ++ (req_pair <$> q)) ->
  is_pump_write t2 = true \/ t2 = Finished -> length q <= writeChSize ->
  exists done' pend', write_inv (tr ++ []) (Sys (set_writeCh (sy_conn s) q) (<[1 := t2]> (sy_pool s))) t2 done' pend'.
Proof.
  intros Hinv Hp Hc2 Ht2 Hq. pose proof Hinv as [_ _ H3 _ H5 _ _ _ _ _ _].
  exists done, pend. eapply write_inv_advance; try done. by rewrite app_nil_r.
Qed.

(** [sendBatch]: the batch is sent, or the connection closed. *)
Lemma write_inv_send tr s done pend batch acks last x c' t' evs :
  write_inv tr s (PW_send batch acks last) done pend ->
  thread_step x (sy_conn s) (PW_send batch acks last) = Some (c', t', evs) ->
  exists done' pend', write_inv (tr ++ evs) (Sys c' (<[1 := t']> (sy_pool s))) t' done' pend'.
Proof.
  intros Hinv E. pose proof Hinv as [_ H2 H3 H4 H5 _ H7 _ _ _ _].
  destruct H4 as [?|(inb & [Hc1 Hc2] & Hpe)]; [done|]. cbn [thread_step] in E. destruct (x_send x) as [e|].
  - assert (Hev : exists cl, evs = cl /\ enqueued cl = [] /\ sent cl = [] /\ t' = Finished /\
      tc_next c' = tc_next (sy_conn s) /\ tc_writeCh c' = tc_writeCh (sy_conn s) /\
      tc_acks c' = tc_acks (flush (Some e) acks (sy_conn s))).
    { unfold close_conn in E. change (tc_closed (flush (Some e) acks (sy_conn s))) with (tc_closed (sy_conn s)) in E.
      destruct (tc_closed (sy_conn s)); injection E as <- <- <-; eexists; split_and!; reflexivity. }
    destruct Hev as (cl & -> & He & Hs & -> & Hn & Hwc & Hac). exists done, pend.
    eapply write_inv_advance; try done; try (by right).
    + by rewrite Hwc.
    + by rewrite sent_app, Hs, app_nil_r.
    + by left.
    + intros a. rewrite Hac, flush_lookup. case_decide; [done|]. apply H5.
  - injection E as <- <- <-. exists (done ++ inb), (req_pair <$> tc_writeCh (sy_conn s)).
    eapply write_inv_advance; try done.
    + destruct last; [by right|by left].
    + by rewrite Hpe, app_assoc.
    + intros y Hy. apply elem_of_app. by left.
    + rewrite sent_app, fmap_app, !concat_app, H3, Hc2. cbn. by rewrite app_nil_r.
    + destruct last; [by left|right]. by exists [].
    + intros a. rewrite flush_lookup, fmap_app. case_decide as Hin; intros Ha.
      { apply elem_of_app. right. by rewrite Hc1. }
      apply elem_of_app. left. by apply H5.
Qed.

Lemma write_inv_pump tr s pw done pend x c' t' evs :
  write_inv tr s pw done pend -> is_pump_write pw = true ->
  thread_step x (sy_conn s) pw = Some (c', t', evs) ->
  exists done' pend', write_inv (tr ++ evs) (Sys c' (<[1 := t']> (sy_pool s))) t' done' pend'.
Proof.
  intros Hinv Hp E. pose proof Hinv as [_ H2 H3 H4 H5 _ H7 _ _ _ _].
  pose proof (fun t2 q => write_inv_shift tr s pw done pend t2 q Hinv Hp) as Hmove.
  destruct H4 as [->|(inb & Hc & Hpe)]; [done|].
  assert (Hsame : set_writeCh (sy_conn s) (tc_writeCh (sy_conn s)) = sy_conn s) by (by destruct (sy_conn s)).
  destruct pw as [| | | | | | | | |batch acks t|batch acks last| | | | |]; try done; [|by eapply write_inv_send].
  cbn [thread_step] in E. destruct Hc as [Hc1 Hc2]. destruct (x_branch x) as [|[|[|n]]].
  - destruct (tc_writeCh (sy_conn s)) as [|req q] eqn:Eq; [discriminate E|].
    assert (Hcol : (inb ++ [req_pair req]).*1 = acks ++ [wr_ack req] /\
      concat (inb ++ [req_pair req]).*2 = batch ++ wr_data req /\
      pend = (inb ++ [req_pair req]) ++ (req_pair <$> q)).
    { rewrite !fmap_app, concat_app, Hc1, Hc2, Hpe, <- app_assoc. cbn. by rewrite app_nil_r. }
    destruct Hcol as (? & ? & ?). cbn in H7.
    destruct (maxBatchBytes <=? length (batch ++ wr_data req)); injection E as <- <- <-;
      apply Hmove; eauto using Nat.le_trans, Nat.le_succ_diag_r; right; exists (inb ++ [req_pair req]); done.
  - destruct t; try discriminate E. destruct batch as [|b0 batch]; injection E as <- <- <-;
      rewrite <- Hsame; apply Hmove; try done; eauto; right; by exists inb.
  - destruct (tc_closed (sy_conn s)); [|discriminate E].
    destruct batch as [|b0 batch]; injection E as <- <- <-; rewrite <- Hsame; apply Hmove; try done; eauto;
      right; by exists inb.
  - destruct t; try discriminate E. injection E as <- <- <-. rewrite <- Hsame; apply Hmove; try done; eauto;
      right; by exists inb.
Qed.

Lemma reachable_write tr s : reachable tr s -> exists pw done pend, write_inv tr s pw done pend.
Proof.
  intros H. unfold reachable in H. induction H as [|tr s evs s' H (pw & done & pend & IH) Hst].
  - exists (PW_loop [] [] NoTimer), [], []. split; cbn; try done.
    + right. by exists [].
    + apply NoDup_nil_2.
    + unfold writeChSize; lia.
    + intros a Ha. by apply not_elem_of_nil in Ha.
    + intros [|[|i]]; cbn; try done. by intros t [= <-].
    + intros [|[|i]] t; cbn; try done; by intros [= <-].
    + intros [|[|i]]; cbn; try done.
  - destruct Hst as [s t Ht|s i t x c' t' evs Ei E].
    + rewrite app_nil_r. eauto 6 using write_inv_call.
    + destruct (is_write t) eqn:Ew.
      { destruct (write_inv_writer _ _ _ _ _ _ _ _ _ _ _ IH Ei Ew E). eauto. }
      destruct (is_pump_write t) eqn:Ep; [|eauto 6 using write_inv_other].
      pose proof (wi_one _ _ _ _ _ IH _ _ Ei Ep) as ->. pose proof (wi_pump _ _ _ _ _ IH) as Hp.
      rewrite Ei in Hp. injection Hp as <-.
      destruct (write_inv_pump _ _ _ _ _ _ _ _ _ IH Ep E) as (d' & p' & ?). eauto.
Qed.

(** ** Properties *)

(** However [Read], [Write], [Close] and the two pumps interleave, no
    goroutine panics (no channel is closed twice, nothing is sent on a closed channel),
    and the channels never hold more than their capacity. *)
Theorem tunnel_conn_safe tr s :
  reachable tr s ->
  Crashed ∉ sy_pool s /\ length (tc_readCh (sy_conn s)) <= readChSize /\
  length (tc_writeCh (sy_conn s)) <= writeChSize.
Proof.
  intros H. destruct (reachable_read tr s H) as (pr & lost & Hr).
  destruct (reachable_write tr s H) as (pw & d & p & Hw).
  split_and!; [|exact (ri_bound _ _ _ _ Hr)|exact (wi_bound _ _ _ _ _ Hw)]. intros [i Hi]%list_elem_of_lookup. by apply (ri_crash _ _ _ _ Hr i).
Qed.

(** Writes: the bytes handed to [SendData] are exactly the bytes of the
    first so many [Write] requests, in the order the requests were queued, nothing
    duplicated or reordered by batching; and a [Write] that returned [n] with a nil error
    is one of those requests and had [n] bytes. *)
Theorem tunnel_write_order tr s :
  reachable tr s ->
  exists done pend, enqueued tr = done ++ pend /\ concat (sent tr) = concat done.*2 /\
    forall i n a, sy_pool s !! i = Some (Done_write (Ret n) a) ->
      exists d, (a, d) ∈ done /\ length d = n.
Proof.
  intros (pw & done & pend & Hw)%reachable_write. exists done, pend.
  split_and!; [exact (wi_split _ _ _ _ _ Hw)|exact (wi_sent _ _ _ _ _ Hw)|]. intros i n a Hi. exact (wi_threads _ _ _ _ _ Hw i _ Hi).
Qed.

(** Reads: what [Read] returned so far is a prefix of what the download
    stream yielded, in order, whatever the buffer sizes; and once a [Read] has returned
    an error, that error is io.EOF and everything the stream yielded has been
    returned. *)
Theorem tunnel_read_order tr s :
  reachable tr s ->
  (exists rest, concat (streamed tr) = concat (returned tr) ++ rest) /\
  (forall i e, sy_pool s !! i = Some (Done_read (Err e)) ->
     e = EOF /\ concat (returned tr) = concat (streamed tr)).
Proof.
  intros (pr & lost & Hr)%reachable_read. split.
  - rewrite (ri_bytes _ _ _ _ Hr). eauto.
  - intros i e Hi. destruct (ri_eof _ _ _ _ Hr i e Hi) as [-> Hf]. split; [done|].
    unfold read_fields in Hf. injection Hf as F1 F2 F3. pose proof (ri_closed _ _ _ _ Hr F3) as ->.
    rewrite (ri_bytes _ _ _ _ Hr), F1, F2. cbn.
    destruct lost as [|b lost]; [by rewrite app_nil_r|].
    destruct (ri_lost _ _ _ _ Hr) as [_ ?]; [done|congruence].
Qed.

(** ** Concrete runs *)

Definition pick (n : nat) : choice := Choice n None ([], None).

Definition zero_write_run : list action :=
  [Call (WR_start []); Step 2 (pick 0); Step 2 (pick 0);     (* Write of no bytes *)
   Step 1 (pick 0); Step 1 (pick 3); Step 1 (pick 1);        (* collected, timer fires *)
   Call (WR_start (s2b "x")); Step 3 (pick 0); Step 3 (pick 0);
   Step 1 (pick 0)].                                         (* a second Write is collected *)

Definition close_run : list action :=
  [Call (RD_start 4); Step 2 (pick 0); Call CL_start; Step 3 (pick 0);
   Step 0 (pick 0); Step 1 (pick 2)].

Definition demo_run : list action :=
  [Call (WR_start (s2b "ab")); Step 2 (pick 0); Step 2 (pick 0); Step 1 (pick 0); Step 1 (pick 3);
   Step 1 (pick 1); Step 1 (pick 0); Step 2 (pick 0);
   Step 0 (pick 0); Step 0 (Choice 0 None (s2b "hello", Some EOF)); Step 0 (pick 0); Step 0 (pick 0);
   Call (RD_start 4); Step 3 (pick 0); Step 3 (pick 0); Call (RD_start 4); Step 4 (pick 0);
   Call (RD_start 4); Step 5 (pick 0); Step 5 (pick 0)].

Definition run_end (l : list action) : sys := default initial (snd <$> run l initial).
Definition run_trace (l : list action) : list event := default [] (fst <$> run l initial).

Lemma tc_run_reachable l : is_Some (run l initial) -> reachable (run_trace l) (run_end l).
Proof. intros [[tr s] E]. unfold run_trace, run_end. rewrite E. cbn. by apply tc_run_steps in E. Qed.

(** A [Write] of no bytes wedges the connection: [pumpWrite]'s timer is
    spent without being reset, so a later [Write] is collected but not sent; in a
    reachable state of an open connection with both requests collected, neither the pump
    nor any of the two callers can take a step, whatever happens around them. *)
Lemma zero_write_wedges :
  exists tr s, reachable tr s /\ tc_closed (sy_conn s) = false /\
    enqueued tr = [(0, []); (1, s2b "x")] /\ sent tr = [] /\
    sy_pool s !! 2 = Some (WR_wait [] 0) /\ sy_pool s !! 3 = Some (WR_wait (s2b "x") 1) /\
    forall i t x, 1 <= i -> sy_pool s !! i = Some t -> thread_step x (sy_conn s) t = None.
Proof.
  exists (run_trace zero_write_run), (run_end zero_write_run).
  split; [apply tc_run_reachable; vm_compute; by eexists|].
  do 5 (split; [vm_compute; reflexivity|]).
  assert (Hp : sy_pool (run_end zero_write_run) =
    [PR_check; PW_loop (s2b "x") [0; 1] Drained; WR_wait [] 0; WR_wait (s2b "x") 1]) by (vm_compute; reflexivity).
  assert (Hc : sy_conn (run_end zero_write_run) = TunnelConn [] [] false false [] ∅ 2) by (vm_compute; reflexivity).
  rewrite Hp, Hc. intros [|[|[|[|i]]]] t x Hi; [lia| | | |done]; intros [= <-];
    by destruct x as [[|[|[|]]] ? ?].
Qed.

(** A [Read] that is blocked when the connection is closed locally never returns:
    in a reachable state of the closed connection every goroutine is finished or
    blocked, and the [Read] is among the blocked ones. *)
Lemma read_blocks_after_close :
  exists tr s, reachable tr s /\ tc_closed (sy_conn s) = true /\
    sy_pool s !! 2 = Some (RD_wait 4) /\
    forall i t x, sy_pool s !! i = Some t -> thread_step x (sy_conn s) t = None.
Proof.
  exists (run_trace close_run), (run_end close_run).
  split; [apply tc_run_reachable; vm_compute; by eexists|].
  do 2 (split; [vm_compute; reflexivity|]).
  assert (Hp : sy_pool (run_end close_run) = [Finished; Finished; RD_wait 4; Finished]) by (vm_compute; reflexivity).
  assert (Hc : sy_conn (run_end close_run) = TunnelConn [] [] false true [] ∅ 0) by (vm_compute; reflexivity).
  rewrite Hp, Hc. intros [|[|[|[|i]]]] t x; try done; intros [= <-]; done.
Qed.

(** Two ways to block a tunnel connection for ever.  A [Write] of no bytes spends
    [pumpWrite]'s timer without resetting it: in a reachable state of an open connection
    that [Write] and a later one are collected and neither the pump nor any of the two
    callers can take a step, whatever happens around them.  And a [Read] that is blocked
    when the connection is closed locally never returns: in a reachable state of the
    closed connection every goroutine is finished or blocked, the [Read] among them. *)
Theorem tunnel_conn_wedges :
  (exists tr s, reachable tr s /\ tc_closed (sy_conn s) = false /\
     enqueued tr = [(0, []); (1, s2b "x")] /\ sent tr = [] /\
     sy_pool s !! 2 = Some (WR_wait [] 0) /\ sy_pool s !! 3 = Some (WR_wait (s2b "x") 1) /\
     forall i t x, 1 <= i -> sy_pool s !! i = Some t -> thread_step x (sy_conn s) t = None) /\
  (exists tr s, reachable tr s /\ tc_closed (sy_conn s) = true /\
     sy_pool s !! 2 = Some (RD_wait 4) /\
     forall i t x, sy_pool s !! i = Some t -> thread_step x (sy_conn s) t = None).
Proof. exact (conj zero_write_wedges read_blocks_after_close). Qed.

Lemma tc_demo_reachable : reachable (run_trace demo_run) (run_end demo_run).
Proof. apply tc_run_reachable. vm_compute. by eexists. Qed.

Lemma tunnel_conn_safe_witness : Crashed ∉ sy_pool (run_end demo_run).
Proof. apply (tunnel_conn_safe _ _ tc_demo_reachable). Defined.

Lemma tunnel_write_order_witness :
  exists done : list (nat * bytes), concat (sent (run_trace demo_run)) = s2b "ab" /\ exists d, (0, d) ∈ done /\ length d = 2.
Proof.
  destruct (tunnel_write_order _ _ tc_demo_reachable) as (done & pend & _ & _ & H).
  exists done. split; [vm_compute; reflexivity|]. apply (H 2). vm_compute. reflexivity.
Defined.

Lemma tunnel_read_order_witness :
  concat (returned (run_trace demo_run)) = s2b "hello" /\
  concat (returned (run_trace demo_run)) = concat (streamed (run_trace demo_run)).
Proof.
  split; [vm_compute; reflexivity|].
  apply (proj2 (tunnel_read_order _ _ tc_demo_reachable) 5 EOF). vm_compute. reflexivity.
Defined.
