(* ===== verification/DpiJoint.v ===== *)
(** * A tunnel from end to end (dpi/client/proxy.go, transport.go, dpi/server/handler.go)

    The machines of [DpiTunnel] and [DpiServer] run side by side, joined where the
    code joins them: [pumpWrite]'s [SendData] posts a request that becomes a handler of
    the server and returns when that handler has answered; [pumpRead] reads, through
    [streamReader], what the handler of the download has written so far.  The network
    may split what it carries in any way, delay it, and fail at any moment; requests of
    other clients, and [CloseConn] requests of anyone, reach the server at any time. *)
From S2P Require Import Prelude GoIO Strconv DpiCommon DpiTunnel DpiServer DpiClient.

(** What of the download response the client has consumed, and [streamReader]'s
    [decrypted] and [off]. *)
Record rx := Rx { rx_taken : nat; rx_decrypted : bytes; rx_off : nat }.

(** [j_up] is the handler of the upload whose [SendData] has not returned. *)
Record joint := Joint {
  j_tun : DpiTunnel.sys; j_ttr : list DpiTunnel.event;
  j_srv : DpiServer.sys; j_str : list (nat * DpiServer.event);
  j_world : world; j_up : option nat; j_rx : rx }.

Inductive jact :=
  | Tun (a : DpiTunnel.action)           (* a call, or a step that uses no network *)
  | Srv (a : DpiServer.action)           (* someone else's request, or a step of a handler *)
  | Post (fl : bool)                     (* SendData's request reaches the server *)
  | Answer                               (* its answer reaches the client *)
  | Lose (e : error)                     (* SendData fails, at whatever point *)
  | Recv (chunks : list bytes) (e : error). (* streamReader.Read, on what has arrived *)

Section Joint.
Context `{aead : AEAD}.

(** The connection, and the thread that serves its download. *)
Context (connID : Z) (dl : nat).

(** The request [SendData] makes; it does not depend on the answer. *)
Definition upload_of (data : bytes) (w : world) : option (request * world) :=
  match SendData (fun _ _ => Ret (Response 200 [] (Reader [] EOF))) connID data w with
  | (Ret _, w1) => req ← wd_sent w1 !! length (wd_sent w); Some (req, w1)
  | _ => None
  end.

(** The path the server sees of [baseURL] followed by a path. *)
Definition path_of (w : world) (req : request) : bytes :=
  drop (length (tp_baseURL (wd_tp w))) (rq_url req).

(** What the download handler has written to its response. *)
Definition streamed_out (s : DpiServer.sys) : bytes :=
  match DpiServer.sy_pool s !! dl with
  | Some (DL_loop _ _ w) | Some (DpiServer.Streamed w) => w_out w
  | _ => []
  end.

(** A request that neither writes to the connection nor takes its identifier. *)
Definition excludes (t : DpiServer.pc) : bool :=
  match t with
  | HTTP method _ body _ =>
      match handleTunnel method body with
      | TU_connect id _ | TU_data id _ => negb (id =? connID)%Z
      | _ => true
      end
  | _ => true
  end.

Definition allowed (a : DpiServer.action) : bool :=
  match a with DpiServer.Call t => excludes t | _ => true end.

Definition offline (s : DpiTunnel.sys) (a : DpiTunnel.action) : bool :=
  match a with
  | DpiTunnel.Call _ => true
  | DpiTunnel.Step i _ =>
      match DpiTunnel.sy_pool s !! i with
      | Some PR_read | Some (PW_send _ _ _) | None => false
      | _ => true
      end
  end.

(** The tunnel connection makes the action [a]. *)
Definition tun_do (a : DpiTunnel.action) (j : joint) : option joint :=
  '(evs, s) ← DpiTunnel.run [a] (j_tun j);
  Some (Joint s (j_ttr j ++ evs) (j_srv j) (j_str j) (j_world j) (j_up j) (j_rx j)).
Definition srv_do (a : DpiServer.action) (j : joint) : option joint :=
  '(evs, s) ← DpiServer.run [a] (j_srv j);
  Some (Joint (j_tun j) (j_ttr j) s (j_str j ++ evs) (j_world j) (j_up j) (j_rx j)).

Definition set_up (u : option nat) (j : joint) : joint :=
  Joint (j_tun j) (j_ttr j) (j_srv j) (j_str j) (j_world j) u (j_rx j).
Definition set_world (w : world) (j : joint) : joint :=
  Joint (j_tun j) (j_ttr j) (j_srv j) (j_str j) w (j_up j) (j_rx j).
Definition set_rx (x : rx) (j : joint) : joint :=
  Joint (j_tun j) (j_ttr j) (j_srv j) (j_str j) (j_world j) (j_up j) x.

Definition at_SendData (j : joint) : option bytes :=
  match DpiTunnel.sy_pool (j_tun j) !! 1 with Some (PW_send batch _ _) => Some batch | _ => None end.

Definition at_Read (j : joint) : bool :=
  match DpiTunnel.sy_pool (j_tun j) !! 0 with Some PR_read => true | _ => false end.

Definition jstep (a : jact) (j : joint) : option joint :=
  match a with
  | Tun a => if offline (j_tun j) a then tun_do a j else None
  | Srv a => if allowed a then srv_do a j else None
  | Post fl =>
      match at_SendData j, j_up j with
      | Some batch, None =>
          '(req, w) ← upload_of batch (j_world j);
          srv_do (DpiServer.Call (HTTP (rq_method req) (path_of (j_world j) req) (Ret (rq_body req)) fl))
            (set_world w (set_up (Some (length (DpiServer.sy_pool (j_srv j)))) j))
      | _, _ => None
      end
  | Answer =>
      i ← j_up j;
      match DpiServer.sy_pool (j_srv j) !! i with
      | Some (Replied _ _) =>
          tun_do (DpiTunnel.Step 1 (DpiTunnel.Choice 0 None ([], None))) (set_up None j)
      | _ => None
      end
  | Lose e =>
      match at_SendData j with
      | Some _ => tun_do (DpiTunnel.Step 1 (DpiTunnel.Choice 0 (Some e) ([], None))) (set_up None j)
      | None => None
      end
  | Recv chunks e =>
      let '(Rx taken dec off) := j_rx j in
      if at_Read j &&
         bool_decide (Forall (fun c => c <> []) chunks) &&
         bool_decide (take (length (concat chunks)) (drop taken (streamed_out (j_srv j))) = concat chunks)
      then
        match sr_Read pumpBufSize (StreamReader (Reader chunks e) dec off) with
        | (Ret got, sr) =>
            tun_do (DpiTunnel.Step 0 (DpiTunnel.Choice 0 None (got, None)))
              (set_rx (Rx (taken + (length (concat chunks) - length (flat (sr_Body sr))))
                          (sr_decrypted sr) (sr_off sr)) j)
        | (Err e', _) => tun_do (DpiTunnel.Step 0 (DpiTunnel.Choice 0 None ([], Some e'))) j
        | (Panic _, _) => None
        end
      else None
  end.

Fixpoint jrun (l : list jact) (j : joint) : option joint :=
  match l with [] => Some j | a :: l' => j' ← jstep a j; jrun l' j' end.
End Joint.

Lemma pumpBufSize_pos : 0 < pumpBufSize.
Proof. unfold pumpBufSize. lia. Qed.
#[local] Opaque maxBatchBytes pumpBufSize.

(** ** The client's side of the joints *)

Lemma prefix_split {A} (bs p q : list A) :
  bs `prefix_of` p ++ q -> length p <= length bs -> exists rest, bs = p ++ rest /\ rest `prefix_of` q.
Proof.
  intros [t E] Hl. exists (drop (length p) bs).
  assert (Hp : take (length p) bs = p).
  { apply (f_equal (take (length p))) in E. by rewrite take_app_length, take_app_le in E. }
  split; [by rewrite <- Hp at 1; rewrite take_drop|].
  exists t. apply (f_equal (drop (length p))) in E. by rewrite drop_app_length, drop_app_le in E.
Qed.

Section Client.
Context `{laws : AEADLaws}.
Context (connID : Z) (Hid : (0 <= connID < 2 ^ 32)%Z).

(** The request [Post] sends is decoded as the batch. *)
Lemma upload_of_routes data w req w1 s fl room :
  upload_of connID data w = Some (req, w1) ->
  route s (rq_method req) (path_of w req) (Ret (rq_body req)) fl room = TU_data connID data.
Proof.
  unfold upload_of. set (Do := fun _ _ => _). intros E.
  assert (Hr : NonceSize <= length (flat (wd_rand w))).
  { destruct (Nat.le_gt_cases NonceSize (length (flat (wd_rand w)))) as [|Hlt]; [done|exfalso].
    revert E. unfold SendData, mbind, io_bind, encrypt.
    destruct (Encrypt_cases (header_bytes MsgData connID (u32 (len data)) ++ data) (wd_rand w))
      as [(Hle & _)|(_ & e & r' & ->)]; [lia|done]. }
  destruct (SendData_sends Do connID data w Hid Hr) as (req' & w' & (Hs & Hm & Hu & Hd) & _ & E').
  rewrite E' in E. cbn in E. rewrite Hs, list_lookup_middle in E by done. cbn in E. injection E as <- <-.
  unfold path_of. rewrite Hu, drop_app_length. apply Hd.
Qed.

(** [Read] when only a part of the frames has arrived: it returns a part of the
    next chunk, or the error the connection ended with, and does not panic. *)
Lemma sr_Read_prefix k r bs e dec off fs chunks :
  0 < k -> delivers bs e r -> bs `prefix_of` fs -> frames connID fs chunks -> Forall chunk_ok chunks ->
  match sr_Read k (StreamReader r dec off) with
  | (Ret got, sr) =>
      (off < length dec /\ got = take k (drop off dec) /\ sr = StreamReader r dec (off + length got)) \/
      (length dec <= off /\ exists d chunks' enc fs', chunks = d :: chunks' /\ fs = frame enc ++ fs' /\
         Decrypt enc = Ret (download_payload connID d) /\
         bs = frame enc ++ flat (sr_Body sr) /\ frames connID fs' chunks' /\
         got = take k d /\ sr_decrypted sr = d /\ sr_off sr = length got)
  | (Err _, _) => length dec <= off
  | (Panic _, _) => False
  end.
Proof.
  intros Hk Hr Hp Hf Hc. unfold sr_Read. cbn [sr_Read_loop sr_off sr_decrypted sr_Body].
  destruct (Nat.ltb_spec off (length dec)) as [Hlt|Hge]; [by left|].
  destruct (Nat.lt_ge_cases (length bs) 4) as [H4|H4].
  { by destruct (ReadFull_delivers_short bs e 4 r Hr H4) as (r' & -> & _). }
  destruct chunks as [|d chunks].
  { destruct Hf as ([|? ?] & -> & HF); [|by inversion HF]. apply prefix_nil_inv in Hp as ->. cbn in H4. lia. }
  apply frames_cons in Hf as (enc & fs' & -> & Hde & Hf). apply Forall_cons_1 in Hc as [[Hne Hld] Hc].
  assert (Hlen : (0 <= len enc < 40000)%Z).
  { apply Decrypt_length in Hde. rewrite download_payload_header, length_app, length_header in Hde.
    unfold len, readBufSize, NonceSize, TagSize, StreamHeaderSize in *. lia. }
  destruct (prefix_split _ _ _ Hp) as (bs1 & -> & Hp1); [by rewrite length_be_put|].
  destruct (ReadFull_delivers _ _ _ 4 _ Hr) as (r1 & -> & Hr1); [apply length_be_put|].
  rewrite be_get_put. change (2 ^ (8 * Z.of_nat 4))%Z with (2 ^ 32)%Z. unfold u32.
  rewrite !Z.mod_small by (rewrite ?Z.mod_small; lia). zcases; [lia|].
  destruct (Nat.lt_ge_cases (length bs1) (length enc)) as [He|He].
  { destruct (ReadFull_delivers_short bs1 e (Z.to_nat (len enc)) r1 Hr1) as (r' & -> & _); [|done].
    unfold len. lia. }
  destruct (prefix_split _ _ _ Hp1 He) as (bs2 & -> & _).
  destruct (ReadFull_delivers _ _ _ (Z.to_nat (len enc)) _ Hr1) as (r2 & -> & Hr2 & _).
  { unfold len. by rewrite Nat2Z.id. }
  rewrite Hde, frame_payload_download by done. cbn [sr_Read_loop sr_off sr_decrypted sr_Body].
  assert (0 <? length d = true) as -> by (apply Nat.ltb_lt; destruct d; [done|cbn; lia]).
  right. split; [done|]. exists d, chunks, enc, fs'. unfold frame, u32. cbn [sr_off sr_decrypted sr_Body].
  rewrite drop_0, Hr2, <- !app_assoc. split_and!; try done; by rewrite Z.mod_small by lia.
Qed.
End Client.

(** ** The server's side of the upload *)

Section Upload.
Context `{laws : AEADLaws}.
Context (connID : Z) (cc : nat).

(** A thread that will not write to the connection nor register its identifier. *)
Definition silent (t : pc) : Prop :=
  match t with
  | HTTP _ _ _ _ => excludes connID t = true
  | TU_connect id _ | TU_data id _ => id <> connID
  | TU_write k _ _ => k <> cc
  | _ => True
  end.

Lemma silent_route s method path body fl room :
  excludes connID (HTTP method path body fl) = true -> silent (route s method path body fl room).
Proof.
  intros He. unfold route. destruct (_ || _).
  - cbn in He. destruct (handleTunnel_kind method body) as (_ & _ & Hk).
    destruct (handleTunnel method body); cbn; try done; by apply negb_true_iff, Z.eqb_neq in He.
  - destruct (HasPrefix _ _); [|unfold handleRoot; by case_match].
    unfold handleDownload, http_Error. by repeat case_match.
Qed.

(** The connection, its identifier's entry in the table and what was written to it. *)
Record conn_at (s : Server) (c : clientConn) : Prop := {
  ca_conn : sv_conns s !! cc = Some c;
  ca_id : cc_connID c = connID;
  ca_entry : getClient s connID = Some cc \/ getClient s connID = None }.

(** Nothing more will be written to a connection that is closed or not in the table. *)
Definition dead (s : Server) (c : clientConn) : Prop := cc_closed c = true \/ getClient s connID = None.

Record undisturbed (s s' : Server) (c c' : clientConn) : Prop := {
  un_conn : conn_at s' c';
  un_written : cc_written c' = cc_written c;
  un_closed : cc_closed c = true -> cc_closed c' = true;
  un_gone : getClient s connID = None -> getClient s' connID = None }.

Lemma undisturbed_dead s s' c c' : undisturbed s s' c c' -> dead s c -> dead s' c'.
Proof. intros [_ _ H1 H2] [Hd|Hd]; [left|right]; auto. Qed.

Lemma undisturbed_refl s c : conn_at s c -> undisturbed s s c c.
Proof. done. Qed.

(** A change of one connection other than by writing. *)
Lemma undisturbed_set s c k c0 c' :
  conn_at s c -> sv_conns s !! k = Some c0 -> cc_connID c' = cc_connID c0 ->
  (k = cc -> cc_written c' = cc_written c0) -> (cc_closed c0 = true -> cc_closed c' = true) ->
  exists c1, undisturbed s (set_conn s k c') c c1.
Proof.
  intros [H1 H2 H3] Hk Hi Hw Hc. destruct (decide (k = cc)) as [->|Hne].
  - rewrite H1 in Hk. injection Hk as <-. exists c'. split; auto. split; cbn; try done; [|congruence].
    apply list_lookup_insert_eq. by eapply lookup_lt_Some.
  - exists c. split; auto. split; cbn; try done. by rewrite list_lookup_insert_ne.
Qed.

Lemma undisturbed_unregister s c id : conn_at s c -> undisturbed s (unregisterClient s id) c c.
Proof.
  intros [H1 H2 H3]. split; [split; [done..|]|done|done|]; unfold getClient, unregisterClient in *; cbn.
  - destruct (decide (id = connID)) as [->|]; [right; apply lookup_delete_eq|]. by rewrite lookup_delete_ne.
  - intros Hn. apply lookup_delete_None. by right.
Qed.

Lemma silent_step x s t s' t' new evs c :
  table_ok s -> conn_at s c -> silent t -> thread_step x s t = Some (s', t', new, evs) ->
  silent t' /\ Forall silent new /\ exists c', undisturbed s s' c c'.
Proof.
  intros Ht Hc Hs E. pose proof Hc as [H1 H2 H3].
  assert (Hrefl : exists c', undisturbed s s c c') by eauto using undisturbed_refl.
  destruct t; cbn [thread_step] in E; try done; unfold with_conn in E;
    try (destruct (sv_conns s !! cc0) as [c0|] eqn:Hc0; [cbn [mbind option_bind] in E|done]).
  1:{ injection E as <- <- <- <-. split_and!; auto using silent_route. }
  1:{ destruct (x_dial x); injection E as <- <- <- <-; [|by auto]. split_and!; [done|by repeat constructor|].
      exists c. split; auto.
      - split; cbn; [by apply lookup_app_l_Some|done|]. unfold getClient in *. cbn. by rewrite lookup_insert_ne.
      - unfold getClient. cbn. by rewrite lookup_insert_ne. }
  1:{ destruct (getClient s connID0) as [k|] eqn:Hk; injection E as <- <- <- <-; [|by auto].
      split_and!; auto. cbn. intros ->. destruct (Ht _ _ Hk) as (c1 & Hc1 & Hi). cbn in Hs. congruence. }
  all: repeat match type of E with
    | context [send_chunk ?a ?b ?d ?e] => destruct (send_chunk a b d e) as [[] ?]
    | context [if decide ?P then _ else _] => destruct (decide P)
    | context [match ?y with _ => _ end] => destruct y eqn:?
    end; try discriminate E; injection E as <- <- <- <-; split_and!; auto; try done;
    try (eapply undisturbed_set; by eauto); try (exists c; by apply undisturbed_unregister).
  all: try (exists c; by repeat split).
Qed.
(** [W] was written of the bytes [S]: all of them, or a part and no more will follow. *)
Definition complete (s : Server) (c : clientConn) (W S : bytes) : Prop :=
  W = S \/ (dead s c /\ W `prefix_of` S).

(** Where the handler of the upload of [batch] stands, [S] being uploaded before. *)
Definition up_ok (s : Server) (c : clientConn) (W S batch : bytes) (t : pc) : Prop :=
  match t with
  | HTTP method path body _ =>
      (forall s fl room, route s method path body fl room = TU_data connID batch) /\ complete s c W S
  | TU_data id b => id = connID /\ b = batch /\ complete s c W S
  | TU_write k id b => k = cc /\ id = connID /\ b = batch /\
      (W = S \/ (cc_closed c = true /\ W `prefix_of` S))
  | TU_rclose k id => k = cc /\ id = connID /\ W `prefix_of` S ++ batch /\
      (S `prefix_of` W \/ cc_closed c = true)
  | TU_unreg id => id = connID /\ cc_closed c = true /\ W `prefix_of` S ++ batch
  | Replied _ _ => complete s c W (S ++ batch)
  | _ => False
  end.

Lemma complete_undisturbed s s' c c' W S : undisturbed s s' c c' -> complete s c W S -> complete s' c' W S.
Proof. intros Hu [->|[Hd Hp]]; [by left|right]. eauto using undisturbed_dead. Qed.

Lemma up_ok_undisturbed s s' c c' W S batch t :
  undisturbed s s' c c' -> up_ok s c W S batch t -> up_ok s' c' W S batch t.
Proof.
  intros Hu. pose proof (complete_undisturbed _ _ _ _ W S Hu). pose proof (complete_undisturbed _ _ _ _ W (S ++ batch) Hu).
  pose proof (un_closed _ _ _ _ Hu). destruct t; cbn; try done; try tauto. 
Qed.

(** Every state of the handler is explained by a part of [S ++ batch]. *)
Lemma up_ok_prefix s c W S batch t : up_ok s c W S batch t -> W `prefix_of` S ++ batch.
Proof.
  assert (Hpre : W `prefix_of` S -> W `prefix_of` S ++ batch) by apply prefix_app_r.
  destruct t; cbn; unfold complete; try done; intros; destruct_and?; destruct_or?; destruct_and?; subst; auto.
Qed.

(** What was uploaded before has been written, unless the connection is dead. *)
Lemma up_ok_done s c W S batch t : up_ok s c W S batch t -> ~ dead s c -> S `prefix_of` W.
Proof.
  unfold dead. destruct t; cbn; unfold complete, dead; try done; intros; destruct_and?; destruct_or?; destruct_and?;
    subst; try tauto; try done. by apply prefix_app_r.
Qed.

Lemma up_step x s c base W S batch t s' t' new evs :
  conn_at s c -> cc_written c = base ++ W -> up_ok s c W S batch t ->
  thread_step x s t = Some (s', t', new, evs) ->
  new = [] /\ exists c' W', conn_at s' c' /\ cc_written c' = base ++ W' /\ up_ok s' c' W' S batch t'.
Proof.
  intros Hc Hw Hu E. pose proof Hc as [H1 H2 H3].
  assert (Hset : forall c', cc_connID c' = connID -> conn_at (set_conn s cc c') c').
  { intros c' Hi. split; cbn; [|done|done]. apply list_lookup_insert_eq. by eapply lookup_lt_Some. }
  destruct t; cbn [thread_step up_ok] in *; try done; unfold with_conn in E.
  - injection E as <- <- <- <-. split; [done|]. exists c, W. destruct Hu as [Hr Hco]. by rewrite Hr.
  - destruct Hu as (-> & -> & Hco). unfold getClient in E.
    destruct (sv_clients s !! connID) as [k|] eqn:Hk; injection E as <- <- <- <-; (split; [done|]); exists c, W.
    + destruct H3 as [H3|H3]; unfold getClient in H3; rewrite Hk in H3; [|done]. injection H3 as ->.
      cbn [up_ok]; split_and!; try done. destruct Hco as [->|[[Hd|Hd] Hp]]; [by left|by right|]. unfold getClient in Hd. congruence.
    + split_and!; try done. right. split; [by right|].
      destruct Hco as [->|[_ Hp]]; [by apply prefix_app_r|by apply prefix_app_r].
  - destruct Hu as (-> & -> & -> & Hco). rewrite H1 in E. cbn [mbind option_bind] in E.
    destruct (cc_closed c) eqn:Hcl.
    { injection E as <- <- <- <-. split; [done|]. exists c, W. cbn [up_ok]; split_and!; try done; [|by right].
      destruct Hco as [->|[_ Hp]]; by apply prefix_app_r. }
    destruct Hco as [->|[? _]]; [|done].
    destruct (x_write x) as [n|]; injection E as <- <- <- <-; (split; [done|]).
    + exists (remote_write c (take n batch)), (S ++ take n batch). cbn [up_ok]; split_and!; cbn; [by apply Hset|by rewrite Hw, app_assoc|done|done|apply prefix_app, prefix_take|].
      left. by apply prefix_app_r.
    + exists (remote_write c batch), (S ++ batch). split_and!; cbn; [by apply Hset|by rewrite Hw, app_assoc|by left].
  - destruct Hu as (-> & -> & Hp & _). rewrite H1 in E. injection E as <- <- <- <-. split; [done|].
    exists (remote_close c), W. cbn [up_ok]; split_and!; cbn; try done. by apply Hset.
  - destruct Hu as (-> & Hcl & Hp). injection E as <- <- <- <-. split; [done|]. exists c, W.
    split_and!; try done; [by apply undisturbed_unregister|]. right. split; [by left|done].
Qed.
End Upload.

(** ** The server's side of the download *)

Section Download.
Context `{laws : AEADLaws}.
Context (connID : Z) (cc : nat).

Lemma send_chunk_false d rnd w w' :
  send_chunk connID d rnd w = (false, w') ->
  w' = w \/ exists enc, Decrypt enc = Ret (download_payload connID d) /\ w_out w `prefix_of` w_out w' /\
    w_out w' `prefix_of` w_out w ++ frame enc.
Proof.
  unfold send_chunk, EncryptStream.
  destruct (Encrypt_cases (download_payload connID d) rnd) as [(_ & nonce & r' & _ & Hn & ->)|(_ & e & r' & ->)];
    cbn [fst]; [|intros [= <-]; by left].
  set (enc := nonce ++ _). assert (Hd : Decrypt enc = Ret (download_payload connID d)) by (by apply Decrypt_sealed).
  destruct (write _ w) as [[n1 e1] w1] eqn:E1. apply write_prefix in E1 as (O1 & Hl1 & I1 & _).
  assert (Hp1 : w_out w1 `prefix_of` w_out w ++ frame enc).
  { rewrite O1. apply prefix_app. unfold frame. apply prefix_app_r, prefix_take. }
  destruct e1 as [e1|].
  { intros [= <-]. right. exists enc. split_and!; [done|rewrite O1; by apply prefix_app_r|done]. }
  assert (n1 = length (be_put 4 (u32 (len enc)))) as -> by tauto.
  destruct (write enc w1) as [[n2 [e2|]] w2] eqn:E2; [|done]. apply write_prefix in E2 as (O2 & _).
  intros [= <-]. right. exists enc. rewrite take_ge in O1 by lia. split_and!; [done|..]; rewrite O2, O1, <- app_assoc.
  - by apply prefix_app_r.
  - apply prefix_app. unfold frame. apply prefix_app, prefix_take.
Qed.

(** The response holds the frames of [chunks], the last of them perhaps cut short or
    missing once the handler has returned; the client has consumed [taken] bytes of it
    and decoded [got]. *)
Definition down_ok (t : pc) (chunks : list bytes) (taken : nat) (got : bytes) : Prop :=
  exists w fs1 fs2 c1 c2 rest,
    ((t = DL_loop cc connID w /\ w_out w = fs1 ++ fs2 /\ rest = []) \/
     (t = Streamed w /\ w_out w `prefix_of` fs1 ++ fs2)) /\
    frames connID fs1 c1 /\ frames connID fs2 c2 /\ chunks = c1 ++ c2 ++ rest /\
    taken = length fs1 /\ taken <= length (w_out w) /\ got = concat c1.

Lemma down_step i x s t s' t' new evs chunks taken got :
  down_ok t chunks taken got -> thread_step x s t = Some (s', t', new, evs) ->
  down_ok t' (chunks ++ delivered_by i (pair i <$> evs)) taken got.
Proof.
  intros (w & fs1 & fs2 & c1 & c2 & rest & [(-> & Hw & ->)|[-> _]] & Hf1 & Hf2 & -> & Ht & Hl & ->) E; [|done].
  cbn [thread_step] in E. unfold with_conn in E.
  destruct (sv_conns s !! cc) as [c|] eqn:Hc; [cbn [mbind option_bind] in E|done].
  assert (Hend : forall evs', evs' = [] -> down_ok (Streamed w)
    ((c1 ++ c2 ++ []) ++ delivered_by i (pair i <$> evs')) taken (concat c1)).
  { intros ? ->. cbn. rewrite app_nil_r. exists w, fs1, fs2, c1, c2, []. split_and!; try done. right.
    split; [done|]. by rewrite Hw. }
  destruct (x_branch x) as [|n].
  - destruct (cc_dataCh c) as [|d q].
    + destruct (cc_dataChClosed c); [|done]. injection E as <- <- <- <-. by apply Hend.
    + destruct (send_chunk connID d (x_rand x) w) as [ok w'] eqn:Es.
      assert (Ev : evs = [Delivered cc d]) by (destruct ok; by injection E as <- <- <- <-). subst evs.
      replace (delivered_by i (pair i <$> [Delivered cc d])) with [d] by (cbn; by rewrite decide_True).
      rewrite app_nil_r, <- app_assoc. destruct ok; injection E as <- <- <-.
      * apply send_chunk_true in Es as (enc & Ho & He).
        exists w', fs1, (fs2 ++ frame enc), c1, (c2 ++ [d]), []. rewrite app_nil_r, Ho, Hw in *.
        split_and!; try done; [left; by rewrite app_assoc|by apply frames_snoc|]. rewrite !length_app in *. lia.
      * apply send_chunk_false in Es as [->|(enc & He & Hg & Hp)].
        { exists w, fs1, fs2, c1, c2, [d]. split_and!; try done. right. by rewrite Hw. }
        exists w', fs1, (fs2 ++ frame enc), c1, (c2 ++ [d]), []. rewrite app_nil_r.
        split_and!; try done; [right|by apply frames_snoc|]; [|apply prefix_length in Hg; lia].
        split; [done|]. by rewrite app_assoc, <- Hw.
  - assert (evs = [] /\ t' = Streamed w) as [-> ->]; [|by apply Hend].
    destruct n; [destruct (sv_stopped s); [|done]|]; by injection E as <- <- <- <-.
Qed.
End Download.

(** ** The invariant of the whole *)

(** What the actions of the tunnel connection that use no network leave alone. *)
Lemma offline_step x c t c' t' evs :
  DpiTunnel.thread_step x c t = Some (c', t', evs) ->
  (match t with PR_read | PW_send _ _ _ => false | _ => true end) = true ->
  sent evs = [] /\ streamed evs = [].
Proof. intros E Ht. DpiTunnel.step_cases E; done. Qed.

Lemma tun_run_step (s : DpiTunnel.sys) i t x evs s' :
  DpiTunnel.sy_pool s !! i = Some t -> DpiTunnel.run [DpiTunnel.Step i x] s = Some (evs, s') ->
  exists c' t', DpiTunnel.thread_step x (sy_conn s) t = Some (c', t', evs) /\
    s' = DpiTunnel.Sys c' (<[i := t']> (DpiTunnel.sy_pool s)).
Proof.
  intros Hp. cbn [DpiTunnel.run]. rewrite Hp. cbn [mbind option_bind].
  destruct (DpiTunnel.thread_step x (sy_conn s) t) as [[[c' t'] evs']|]; [|done].
  cbn [mbind option_bind]. rewrite app_nil_r. intros [= <- <-]. eauto.
Qed.

Lemma offline_run s a evs s' :
  offline s a = true -> DpiTunnel.run [a] s = Some (evs, s') ->
  sent evs = [] /\ streamed evs = [] /\
  forall t, (match t with PW_send _ _ _ | DpiTunnel.Finished => true | _ => false end) = true ->
    DpiTunnel.sy_pool s !! 1 = Some t -> DpiTunnel.sy_pool s' !! 1 = Some t.
Proof.
  destruct a as [t|i x]; cbn [offline]; intros Ho E.
  - cbn [DpiTunnel.run] in E. destruct (callable s t); [|done]. injection E as <- <-. split_and!; [done..|]. intros u _ Hu.
    by apply lookup_app_l_Some.
  - destruct (DpiTunnel.sy_pool s !! i) as [t|] eqn:Ei; [|done].
    destruct (tun_run_step _ _ _ _ _ _ Ei E) as (c & t' & Et & ->).
    destruct (offline_step _ _ _ _ _ _ Et) as [H1 H2]; [by destruct t|]. split_and!; [done..|].
    intros u Hu Hl. cbn. rewrite list_lookup_insert_ne; [done|]. intros ->. rewrite Hl in Ei.
    injection Ei as ->. by destruct t.
Qed.

Ltac jcbn := cbn [j_tun j_ttr j_srv j_str j_world j_up j_rx DpiServer.sy_server DpiServer.sy_pool].

Section Invariant.
Context `{laws : AEADLaws}.
Context (connID : Z) (dl cc : nat) (Hid : (0 <= connID < 2 ^ 32)%Z).

Definition uploaded (j : joint) : bytes := concat (sent (j_ttr j)).
Definition submitted (j : joint) : bytes := concat (enqueued (j_ttr j)).*2.

(** The handler of an upload not known to be finished, and everyone else. *)
Definition up_inv (j : joint) (c : clientConn) (W : bytes) (up : option (nat * bytes)) : Prop :=
  (forall i t, sy_pool (j_srv j) !! i = Some t -> fst <$> up <> Some i -> silent connID cc t) /\
  match up with
  | None => j_up j = None /\ complete connID (sy_server (j_srv j)) c W (uploaded j)
  | Some (i, batch) =>
      (exists t, sy_pool (j_srv j) !! i = Some t /\
         up_ok connID cc (sy_server (j_srv j)) c W (uploaded j) batch t) /\
      uploaded j ++ batch `prefix_of` submitted j /\
      ((j_up j = Some i /\ at_SendData j = Some batch) \/
       (j_up j = None /\ DpiTunnel.sy_pool (j_tun j) !! 1 = Some DpiTunnel.Finished))
  end.

Record jinv (base : bytes) (j : joint) : Prop := {
  ji_srv : reachable (j_str j) (j_srv j);
  ji_tun : DpiTunnel.reachable (j_ttr j) (j_tun j);
  ji_up : exists c W up, conn_at connID cc (sy_server (j_srv j)) c /\ cc_written c = base ++ W /\ up_inv j c W up;
  ji_down : exists t, sy_pool (j_srv j) !! dl = Some t /\
    down_ok connID cc t (delivered_by dl (j_str j)) (rx_taken (j_rx j))
      (concat (streamed (j_ttr j)) ++ drop (rx_off (j_rx j)) (rx_decrypted (j_rx j))) }.

(** The tunnel connection acts and the server does not. *)
Lemma tun_do_reachable a j j' :
  tun_do a j = Some j' -> DpiTunnel.reachable (j_ttr j) (j_tun j) ->
  exists evs s, DpiTunnel.run [a] (j_tun j) = Some (evs, s) /\ DpiTunnel.reachable (j_ttr j ++ evs) s /\
    j' = Joint s (j_ttr j ++ evs) (j_srv j) (j_str j) (j_world j) (j_up j) (j_rx j).
Proof.
  unfold tun_do. intros E Hr. destruct (DpiTunnel.run [a] (j_tun j)) as [[evs s]|] eqn:Er; [|done].
  injection E as <-. exists evs, s. split_and!; [done| |done].
  eapply tc_steps_trans; [exact Hr|by eapply tc_run_steps].
Qed.

Lemma srv_do_reachable a j j' :
  srv_do a j = Some j' -> reachable (j_str j) (j_srv j) ->
  exists evs s, run [a] (j_srv j) = Some (evs, s) /\ reachable (j_str j ++ evs) s /\
    j' = Joint (j_tun j) (j_ttr j) s (j_str j ++ evs) (j_world j) (j_up j) (j_rx j).
Proof.
  unfold srv_do. intros E [red Hr]. destruct (run [a] (j_srv j)) as [[evs s]|] eqn:Er; [|done].
  injection E as <-. exists evs, s. split_and!; [done| |done]. exists red.
  eapply dpi_steps_trans; [exact Hr|by eapply dpi_run_steps].
Qed.

Lemma submitted_prefix (tr evs : list DpiTunnel.event) :
  concat (enqueued tr).*2 `prefix_of` concat (enqueued (tr ++ evs)).*2.
Proof. rewrite enqueued_app, fmap_app, concat_app. by apply prefix_app_r. Qed.

(** An action of the tunnel connection that sends no batch. *)
Lemma up_inv_tun j c W up s evs x :
  up_inv j c W up -> sent evs = [] ->
  (forall t, (match t with PW_send _ _ _ | DpiTunnel.Finished => true | _ => false end) = true ->
     DpiTunnel.sy_pool (j_tun j) !! 1 = Some t -> DpiTunnel.sy_pool s !! 1 = Some t) ->
  up_inv (Joint s (j_ttr j ++ evs) (j_srv j) (j_str j) (j_world j) (j_up j) x) c W up.
Proof.
  intros [Hsil Hup] H1 H3. split; [done|]. unfold uploaded, submitted in *. jcbn.
  rewrite sent_app, H1, app_nil_r. destruct up as [[i batch]|]; [|done].
  destruct Hup as (Hok & Hp & Hst). split_and!; [done|etrans; [done|apply submitted_prefix]|].
  destruct Hst as [[Hj Hb]|[Hj Hb]]; [left|right]; (split; [done|]); [|by apply H3].
  unfold at_SendData in *. jcbn.
  destruct (DpiTunnel.sy_pool (j_tun j) !! 1) as [[| | | | | | | | | |b0 acks last| | | | |]|]; try done.
  by rewrite (H3 (PW_send b0 acks last) eq_refl eq_refl).
Qed.

Lemma jinv_tun base j a j' :
  jinv base j -> jstep connID dl (Tun a) j = Some j' -> jinv base j'.
Proof.
  intros [Hs Ht (c & W & up & Hc & Hw & Hup) Hd]. cbn [jstep].
  destruct (offline (j_tun j) a) eqn:Ho; [|done].
  intros E. destruct (tun_do_reachable _ _ _ E Ht) as (evs & s & Er & Ht' & ->).
  destruct (offline_run _ _ _ _ Ho Er) as (H1 & H2 & H3). split; jcbn; try done.
  - exists c, W, up. split_and!; [done..|]. by apply up_inv_tun.
  - destruct Hd as (t & Hl & Hd). exists t. by rewrite streamed_app, H2, app_nil_r.
Qed.

(** A new request at the server. *)
Lemma jinv_call base j t :
  jinv base j -> is_call t = true -> silent connID cc t ->
  jinv base (Joint (j_tun j) (j_ttr j) (Sys (sy_server (j_srv j)) (sy_pool (j_srv j) ++ [t])) (j_str j)
    (j_world j) (j_up j) (j_rx j)).
Proof.
  intros [[red Hs] Ht (c & W & up & Hc & Hw & Hsil & Hup) (t0 & Hl & Hd)] Hcall Hsl. split; jcbn; try done.
  - exists red. rewrite <- (app_nil_r (j_str j)). econstructor; [exact Hs|by constructor].
  - exists c, W, up. split_and!; [done..|]. split; jcbn.
    + intros i u [Hi|[_ [_ <-]%list_lookup_singleton_Some]]%lookup_app_Some; eauto.
    + destruct up as [[i batch]|]; [|done]. destruct Hup as ((t1 & Hl1 & Hok) & Hrest).
      split; [|exact Hrest]. exists t1. split; [by apply lookup_app_l_Some|done].
  - exists t0. split; [by apply lookup_app_l_Some|done].
Qed.

(** A step of a thread of the server. *)
Lemma jinv_up_step j c base W up i t x s' t' new evs :
  reachable (j_str j) (j_srv j) -> conn_at connID cc (sy_server (j_srv j)) c -> cc_written c = base ++ W ->
  up_inv j c W up -> sy_pool (j_srv j) !! i = Some t ->
  thread_step x (sy_server (j_srv j)) t = Some (s', t', new, evs) ->
  let j' := Joint (j_tun j) (j_ttr j) (Sys s' (<[i := t']> (sy_pool (j_srv j)) ++ new))
    (j_str j ++ (pair i <$> evs)) (j_world j) (j_up j) (j_rx j) in
  exists c' W', conn_at connID cc s' c' /\ cc_written c' = base ++ W' /\ up_inv j' c' W' up.
Proof.
  intros Hr Hc Hw [Hsil Hup] Hi E j'. pose proof (si_table _ (dpi_reachable_inv _ _ Hr)) as Htab.
  pose proof (lookup_lt_Some _ _ _ Hi) as Hlt.
  destruct (decide (fst <$> up = Some i)) as [Hown|Hother].
  - destruct up as [[k batch]|]; [|done]. injection Hown as ->. destruct Hup as ((t1 & Hl1 & Hok) & Hp & Hst).
    rewrite Hi in Hl1. injection Hl1 as <-.
    destruct (up_step connID cc x _ c base W (uploaded j) batch t _ _ _ _ Hc Hw Hok E)
      as (-> & c' & W' & Hc' & Hw' & Hok'). exists c', W'. split_and!; [done..|]. split; cbn; rewrite app_nil_r.
    + intros k u [(-> & -> & _)|[Hne Hk]]%list_lookup_insert_Some Hn; [done|eauto].
    + split_and!; [|done|done]. exists t'. split; [by apply list_lookup_insert_eq|done].
  - destruct (silent_step connID cc x _ t _ _ _ _ c Htab Hc (Hsil _ _ Hi Hother) E) as (Hs1 & Hs2 & c' & Hu).
    exists c', W. split_and!; [by apply Hu|by rewrite (un_written _ _ _ _ _ _ Hu)|]. split; jcbn.
    + intros k u [[(-> & -> & _)|[Hne Hk]]%list_lookup_insert_Some|[_ Hk]]%lookup_app_Some Hn; [done|by eauto|].
      by eapply (Forall_lookup_1 (silent connID cc)).
    + destruct up as [[k batch]|]; [|destruct Hup; split; [done|by eapply complete_undisturbed]].
      destruct Hup as ((t1 & Hl1 & Hok) & Hrest). split; [|exact Hrest]. exists t1. split.
      * apply lookup_app_l_Some. rewrite list_lookup_insert_ne; [done|]. by intros ->.
      * by eapply up_ok_undisturbed.
Qed.

Lemma jinv_srv base j a j' :
  jinv base j -> jstep connID dl (Srv a) j = Some j' -> jinv base j'.
Proof.
  intros Hinv. cbn [jstep]. destruct (allowed connID a) eqn:Ha; [|done]. intros E.
  destruct (srv_do_reachable _ _ _ E (ji_srv _ _ Hinv)) as (evs & s & Er & Hs' & ->). destruct a as [t|i x]; cbn [run] in Er.
  - destruct (is_call t) eqn:Hcall; [|done]. injection Er as <- <-. rewrite app_nil_r.
    apply jinv_call; [done|done|]. by destruct t.
  - destruct Hinv as [Hs Ht (c & W & up & Hc & Hw & Hup) (t0 & Hl & Hd)].
    destruct (sy_pool (j_srv j) !! i) as [t|] eqn:Hi; [|done]. cbn [mbind option_bind] in Er.
    destruct (thread_step x (sy_server (j_srv j)) t) as [[[[s1 t'] new] evs']|] eqn:Et; [|done].
    cbn [mbind option_bind] in Er. rewrite app_nil_r in Er. injection Er as <- <-. split; jcbn; try done.
    + destruct (jinv_up_step j c base W up i t x s1 t' new evs' Hs Hc Hw Hup Hi Et) as (c' & W' & ? & ? & ?); eauto 6.
    + rewrite delivered_by_app. destruct (decide (i = dl)) as [->|Hne].
      * rewrite Hl in Hi. injection Hi as ->. exists t'. split.
        { apply lookup_app_l_Some, list_lookup_insert_eq. by eapply lookup_lt_Some. }
        by eapply down_step.
      * exists t0. rewrite delivered_by_other, app_nil_r by done. split; [|done].
        apply lookup_app_l_Some. by rewrite list_lookup_insert_ne.
Qed.
(** The batch [pumpWrite] is sending continues what was sent. *)
Lemma sending_prefix j batch :
  DpiTunnel.reachable (j_ttr j) (j_tun j) -> at_SendData j = Some batch ->
  uploaded j ++ batch `prefix_of` submitted j.
Proof.
  intros (pw & done & pend & Hw)%reachable_write. unfold at_SendData, uploaded, submitted.
  rewrite (wi_pump _ _ _ _ _ Hw), (wi_split _ _ _ _ _ Hw), (wi_sent _ _ _ _ _ Hw).
  destruct (wi_pend _ _ _ _ _ Hw) as [->|(inb & Hc & ->)]; [done|]. destruct pw; try done.
  destruct Hc as [_ <-]. intros [= <-]. rewrite !fmap_app, !concat_app. apply prefix_app. by apply prefix_app_r.
Qed.

(** What [SendData]'s return does to the tunnel connection. *)
Lemma send_run (s : DpiTunnel.sys) batch acks last e evs s' :
  DpiTunnel.sy_pool s !! 1 = Some (PW_send batch acks last) ->
  DpiTunnel.run [DpiTunnel.Step 1 (DpiTunnel.Choice 0 e ([], None))] s = Some (evs, s') ->
  enqueued evs = [] /\ streamed evs = [] /\
  match e with
  | None => sent evs = [batch]
  | Some _ => sent evs = [] /\ DpiTunnel.sy_pool s' !! 1 = Some DpiTunnel.Finished
  end.
Proof.
  intros Hp Er. destruct (tun_run_step _ _ _ _ _ _ Hp Er) as (c' & t' & E & ->).
  pose proof (lookup_lt_Some _ _ _ Hp) as Hlt. cbn [DpiTunnel.thread_step DpiTunnel.x_send] in E.
  destruct e as [e|].
  - destruct (close_conn _) as [c1 evs1] eqn:Ec. injection E as <- <- <-. unfold close_conn in Ec.
    cbn [DpiTunnel.sy_pool]. rewrite list_lookup_insert_eq by done.
    destruct (tc_closed _); by injection Ec as <- <-.
  - by injection E as <- <- <-.
Qed.

Lemma jinv_post base j fl j' :
  jinv base j -> jstep connID dl (Post fl) j = Some j' -> jinv base j'.
Proof.
  intros Hinv. pose proof Hinv as [Hs Ht (c & W & up & Hc & Hw & Hsil & Hup) (t0 & Hl & Hd)]. cbn [jstep].
  destruct (at_SendData j) as [batch|] eqn:Hb; [|done]. destruct (j_up j) as [|] eqn:Hj; [done|].
  destruct (upload_of connID batch (j_world j)) as [[req w]|] eqn:Hu; [|done]. cbn [mbind option_bind].
  intros E. destruct (srv_do_reachable _ _ _ E Hs) as (evs & s & Er & Hs' & ->). cbn [run is_call] in Er.
  injection Er as <- <-. rewrite app_nil_r in *. destruct up as [[i b]|].
  { destruct Hup as (_ & _ & [[? _]|[_ Hf]]); [done|]. unfold at_SendData in Hb. by rewrite Hf in Hb. }
  destruct Hup as [_ Hco]. split; jcbn; try done.
  - exists c, W, (Some (length (sy_pool (j_srv j)), batch)). split_and!; [done..|]. split; cbn [set_world set_up]; jcbn.
    + intros i u [Hi|[Hge [Hz <-]%list_lookup_singleton_Some]]%lookup_app_Some Hn; [by eapply Hsil|].
      destruct Hn. cbn. f_equal. lia.
    + split_and!; [|by apply (sending_prefix j)|by left]. eexists. split; [by apply list_lookup_middle|].
      split; [|done]. intros. by eapply upload_of_routes.
  - exists t0. split; [by apply lookup_app_l_Some|done].
Qed.

Lemma jinv_answer base j j' :
  jinv base j -> jstep connID dl Answer j = Some j' -> jinv base j'.
Proof.
  intros [Hs Ht (c & W & up & Hc & Hw & Hsil & Hup) (t0 & Hl & Hd)]. cbn [jstep].
  destruct (j_up j) as [i|] eqn:Hj; [cbn [mbind option_bind]|done].
  destruct (sy_pool (j_srv j) !! i) as [t|] eqn:Hi; [|done]. destruct t; try done.
  intros E. destruct (tun_do_reachable _ (set_up None j) _ E Ht) as (evs & s & Er & Ht' & ->).
  destruct up as [[k batch]|]; [|by destruct Hup].
  destruct Hup as ((t1 & Hl1 & Hok) & Hp & [[[= <-] Hb]|[? _]]); [|done].
  rewrite Hi in Hl1. injection Hl1 as <-. unfold at_SendData in Hb.
  destruct (DpiTunnel.sy_pool (j_tun j) !! 1) as [[| | | | | | | | | |b0 acks last| | | | |]|] eqn:H1; try done.
  injection Hb as ->. destruct (send_run _ _ _ _ _ _ _ H1 Er) as (He & Hst & Hse). split; jcbn; try done.
  - exists c, W, None. split_and!; [done..|]. split; jcbn.
    + intros k u Hk _. change (sy_pool (j_srv j) !! k = Some u) in Hk. destruct (decide (k = i)) as [->|Hne]; [rewrite Hi in Hk; by injection Hk as <-|].
      apply (Hsil k); [done|cbn; congruence].
    + split; [done|]. unfold uploaded. jcbn. cbn [set_up]. jcbn. rewrite sent_app, concat_app, Hse. cbn.
      by rewrite app_nil_r.
  - exists t0. cbn [set_up]. jcbn. by rewrite streamed_app, Hst, app_nil_r.
Qed.

Lemma jinv_lose base j e j' :
  jinv base j -> jstep connID dl (Lose e) j = Some j' -> jinv base j'.
Proof.
  intros [Hs Ht (c & W & up & Hc & Hw & Hsil & Hup) (t0 & Hl & Hd)]. cbn [jstep].
  destruct (at_SendData j) as [batch|] eqn:Hb; [|done].
  intros E. destruct (tun_do_reachable _ (set_up None j) _ E Ht) as (evs & s & Er & Ht' & ->).
  unfold at_SendData in Hb.
  destruct (DpiTunnel.sy_pool (j_tun j) !! 1) as [[| | | | | | | | | |b0 acks last| | | | |]|] eqn:H1; try done.
  destruct (send_run _ _ _ _ _ _ _ H1 Er) as (He & Hst & Hse & Hfin). split; jcbn; try done.
  - exists c, W, up. split_and!; [done..|]. split; [done|]. unfold uploaded, submitted in *. cbn [set_up]. jcbn.
    rewrite sent_app, Hse, app_nil_r. destruct up as [[i b]|]; [|by destruct Hup].
    destruct Hup as (Hok & Hp & _). split_and!; [done|etrans; [done|apply submitted_prefix]|by right].
  - exists t0. cbn [set_up]. jcbn. by rewrite streamed_app, Hst, app_nil_r.
Qed.
(** What [pumpRead] does with what [reader.Read] returned. *)
Lemma read_step got e c c' t' evs :
  DpiTunnel.thread_step (DpiTunnel.Choice 0 None (got, e)) c PR_read = Some (c', t', evs) ->
  sent evs = [] /\ concat (streamed evs) = take pumpBufSize got.
Proof.
  unfold DpiTunnel.thread_step, DpiTunnel.x_stream, fst, snd. generalize (take pumpBufSize got) as n.
  intros [|b bs]; [destruct e|]; intros [= <- <- <-]; try done. cbn. by rewrite app_nil_r.
Qed.

Lemma recv_run (s : DpiTunnel.sys) got e evs s' :
  DpiTunnel.sy_pool s !! 0 = Some PR_read ->
  DpiTunnel.run [DpiTunnel.Step 0 (DpiTunnel.Choice 0 None (got, e))] s = Some (evs, s') ->
  sent evs = [] /\ concat (streamed evs) = take pumpBufSize got /\
  DpiTunnel.sy_pool s' !! 1 = DpiTunnel.sy_pool s !! 1.
Proof.
  intros Hp Er. destruct (tun_run_step _ _ _ _ _ _ Hp Er) as (c' & t' & E & ->).
  apply read_step in E as [H1 H2]. split_and!; [done..|]. by apply list_lookup_insert_ne.
Qed.

(** The arrived bytes are a part of the frames not consumed yet. *)
Lemma arrived_prefix {A} (bs out fs1 fs2 : list A) :
  out `prefix_of` fs1 ++ fs2 -> length fs1 <= length out ->
  take (length bs) (drop (length fs1) out) = bs ->
  bs `prefix_of` fs2 /\ length fs1 + length bs <= length out.
Proof.
  intros Hp Hl Hb. destruct (prefix_split _ _ _ Hp Hl) as (out' & -> & Hp').
  rewrite drop_app_length in Hb. split.
  - etrans; [|exact Hp']. rewrite <- Hb. apply prefix_take.
  - apply (f_equal length) in Hb. rewrite length_take in Hb. rewrite length_app. lia.
Qed.

(** [streamReader.Read] after [chunks] arrived: what it returns extends [got]. *)
Lemma down_read t cs taken got dec off chunks e :
  down_ok connID cc t cs taken (got ++ drop off dec) -> Forall chunk_ok cs ->
  Forall (fun c => c <> []) chunks ->
  take (length (concat chunks)) (drop taken (match t with DL_loop _ _ w | Streamed w => w_out w | _ => [] end))
    = concat chunks ->
  match sr_Read pumpBufSize (StreamReader (Reader chunks e) dec off) with
  | (Ret more, sr) => more = take pumpBufSize more /\
      down_ok connID cc t cs (taken + (length (concat chunks) - length (flat (sr_Body sr))))
        ((got ++ more) ++ drop (sr_off sr) (sr_decrypted sr))
  | (Err _, _) => length dec <= off
  | (Panic _, _) => False
  end.
Proof.
  intros (w & fs1 & fs2 & c1 & c2 & rest & Hst & Hf1 & Hf2 & -> & -> & Hl & Hg) Hck Hne Harr.
  assert (Hout : w_out w `prefix_of` fs1 ++ fs2 /\
    take (length (concat chunks)) (drop (length fs1) (w_out w)) = concat chunks).
  { destruct Hst as [(-> & Hw & _)|(-> & Hp)]; (split; [|done]); [by rewrite Hw|done]. }
  destruct Hout as [Hout Ha]. destruct (arrived_prefix _ _ _ _ Hout Hl Ha) as [Hpre Hlen].
  apply Forall_app in Hck as [_ Hck]. apply Forall_app in Hck as [Hck _].
  pose proof (sr_Read_prefix connID pumpBufSize (Reader chunks e) (concat chunks) e dec off fs2 c2 pumpBufSize_pos
    (conj eq_refl (conj eq_refl Hne)) Hpre Hf2 Hck) as Hr.
  destruct (sr_Read _ _) as [[more|e'|y] sr]; [|done..].
  destruct Hr as [(Hlt & -> & ->)|(Hge & d & c2' & enc & fs2' & -> & -> & Hde & Hbs & Hf2' & -> & Hsd & Hso)].
  - split; [by rewrite take_take, Nat.min_id|]. cbn [sr_Body sr_off sr_decrypted].
    exists w, fs1, fs2, c1, c2, rest. split_and!; try done.
    + unfold flat. cbn. lia.
    + unfold flat. cbn. lia.
    + rewrite <- Hg, <- app_assoc. f_equal. rewrite <- drop_drop, drop_length_take. apply take_drop.
  - split; [by rewrite take_take, Nat.min_id|]. rewrite Hsd, Hso.
    exists w, (fs1 ++ frame enc), fs2', (c1 ++ [d]), c2', rest. rewrite Hbs, !length_app in *. split_and!.
    + by rewrite <- app_assoc.
    + by apply frames_snoc.
    + done.
    + by rewrite <- !app_assoc.
    + lia.
    + lia.
    + rewrite concat_app, <- Hg, (drop_ge dec), app_nil_r by done. cbn [concat]. rewrite app_nil_r, <- app_assoc.
      f_equal. rewrite drop_length_take. apply take_drop.
Qed.

Lemma jinv_recv base j chunks e j' :
  jinv base j -> jstep connID dl (Recv chunks e) j = Some j' -> jinv base j'.
Proof.
  intros [Hs Ht (c & W & up & Hc & Hw & Hup) (t0 & Hl & Hd)]. cbn [jstep].
  destruct (j_rx j) as [taken dec off] eqn:Hrx. cbn [rx_taken rx_decrypted rx_off] in Hd.
  destruct (_ && _ && _) eqn:Hg; [|done]. rewrite !andb_true_iff, !bool_decide_eq_true in Hg.
  destruct Hg as [[Hat Hne] Harr]. unfold at_Read in Hat.
  destruct (DpiTunnel.sy_pool (j_tun j) !! 0) as [[| | | | | | | | | | | | | | |]|] eqn:H0; try done.
  unfold streamed_out in Harr. rewrite Hl in Harr.
  pose proof (down_read t0 _ _ _ dec off chunks e Hd (reachable_chunks _ _ dl Hs) Hne) as Hr.
  specialize (Hr ltac:(by destruct t0)).
  destruct (sr_Read _ _) as [[got|e'|y] sr]; [..|done]; intros E.
  - destruct Hr as [Hgot Hdown]. destruct (tun_do_reachable _ (set_rx _ j) _ E Ht) as (evs & s & Er & Ht' & ->).
    destruct (recv_run _ _ _ _ _ H0 Er) as (H1 & H2 & H3). split; cbn [set_rx]; jcbn; try done.
    + exists c, W, up. split_and!; [done..|]. apply up_inv_tun; [done|done|]. intros t _. by rewrite H3.
    + exists t0. split; [done|]. rewrite streamed_app, concat_app, H2, <- Hgot. done.
  - destruct (tun_do_reachable _ j _ E Ht) as (evs & s & Er & Ht' & ->).
    destruct (recv_run _ _ _ _ _ H0 Er) as (H1 & H2 & H3). split; jcbn; try done.
    + exists c, W, up. split_and!; [done..|]. apply up_inv_tun; [done|done|]. intros t _. by rewrite H3.
    + exists t0. split; [done|]. rewrite streamed_app, concat_app, H2, take_nil, app_nil_r, Hrx. done.
Qed.

Lemma jrun_inv base l j j' : jinv base j -> jrun connID dl l j = Some j' -> jinv base j'.
Proof.
  revert j. induction l as [|a l IH]; intros j Hj; cbn [jrun]; [by intros [= <-]|].
  destruct (jstep connID dl a j) as [j1|] eqn:E; [cbn [mbind option_bind]; apply IH|done].
  destruct a; eauto using jinv_tun, jinv_srv, jinv_post, jinv_answer, jinv_lose, jinv_recv.
Qed.
End Invariant.

(** ** Properties *)

(** A tunnel that [newTunnelConn] has just set up: the server has the connection
    [cc] under [connID], its download has written nothing yet, and no other thread is
    about to write to the connection or to take its identifier. *)
Record started `{AEAD} (connID : Z) (dl cc : nat) (c : clientConn) (j : joint) : Prop := {
  st_srv : reachable (j_str j) (j_srv j);
  st_conn : sv_conns (sy_server (j_srv j)) !! cc = Some c;
  st_entry : getClient (sy_server (j_srv j)) connID = Some cc;
  st_dl : exists room, sy_pool (j_srv j) !! dl = Some (DL_loop cc connID (Writer [] room ErrClosedPipe));
  st_silent : Forall (silent connID cc) (sy_pool (j_srv j));
  st_tun : j_tun j = initial /\ j_ttr j = [];
  st_client : j_up j = None /\ j_rx j = Rx 0 [] 0 }.

Section Properties.
Context `{laws : AEADLaws}.

Lemma frames_empty connID bs chunks : frames connID bs chunks -> bs = [] -> chunks = [].
Proof.
  intros (encs & -> & HF) E. by destruct encs as [|enc encs]; [inversion HF|].
Qed.

Lemma started_inv connID dl cc c j : started connID dl cc c j -> jinv connID dl cc (cc_written c) j.
Proof.
  intros [Hs Hc He [room Hd] Hsil [Ht Htr] [Hu Hrx]].
  destruct (si_table _ (dpi_reachable_inv _ _ Hs) _ _ He) as (c' & Hc' & Hi).
  rewrite Hc in Hc'. injection Hc' as <-. split; [done|rewrite Ht, Htr; constructor|..].
  - exists c, [], None. split_and!; [split; auto|by rewrite app_nil_r|]. split.
    + intros i t Hi' _. by eapply (Forall_lookup_1 (silent connID cc)).
    + split; [done|]. left. unfold uploaded. by rewrite Htr.
  - eexists. split; [exact Hd|]. rewrite Hrx, Htr. cbn [rx_taken rx_off rx_decrypted].
    pose proof (proj1 (reachable_dl _ _ Hs) _ _ Hd) as Hf. cbn in Hf. apply frames_empty in Hf as ->; [|done].
    exists (Writer [] room ErrClosedPipe), [], [], [], [], []. split_and!; try done; [by left|apply frames_nil..].
Qed.


(** C2. What the remote sends reaches the application: at every moment, however
    everything interleaves and the network splits, delays or cuts the download, what
    [Read] has returned is a prefix of the chunks the download handler took from the
    connection's queue, in order; [streamReader] never panics on what arrives; and
    when the client has consumed all a running download has written, what [pumpRead]
    got, followed by what [streamReader] still holds, is all of those chunks. *)
Theorem joint_download connID dl cc c j0 l j :
  (0 <= connID < 2 ^ 32)%Z -> started connID dl cc c j0 -> jrun connID dl l j0 = Some j ->
  concat (returned (j_ttr j)) `prefix_of` concat (delivered_by dl (j_str j)) /\
  (forall chunks e, Forall (fun d => d <> []) chunks ->
     take (length (concat chunks)) (drop (rx_taken (j_rx j)) (streamed_out dl (j_srv j))) = concat chunks ->
     forall why sr, sr_Read pumpBufSize (StreamReader (Reader chunks e) (rx_decrypted (j_rx j)) (rx_off (j_rx j)))
       <> (Panic why, sr)) /\
  (forall w, sy_pool (j_srv j) !! dl = Some (DL_loop cc connID w) -> rx_taken (j_rx j) = length (w_out w) ->
     concat (streamed (j_ttr j)) ++ drop (rx_off (j_rx j)) (rx_decrypted (j_rx j)) =
       concat (delivered_by dl (j_str j))).
Proof.
  intros Hid Hst%started_inv Hrun. apply (jrun_inv connID dl cc Hid _ _ _ _ Hst) in Hrun.
  destruct Hrun as [Hs (pr & lost & Hr)%reachable_read _ (t & Hl & Hd)]. split_and!.
  - trans (concat (streamed (j_ttr j))); [rewrite (ri_bytes _ _ _ _ Hr); by apply prefix_app_r|].
    destruct Hd as (w & fs1 & fs2 & c1 & c2 & rest & _ & _ & _ & -> & _ & _ & Hg).
    rewrite concat_app, <- Hg, <- app_assoc. by apply prefix_app_r.
  - intros chunks e Hne Harr why sr E. unfold streamed_out in Harr. rewrite Hl in Harr.
    pose proof (down_read connID cc t _ _ _ _ _ chunks e Hd (reachable_chunks _ _ dl Hs) Hne) as Hx.
    rewrite E in Hx. apply Hx. by destruct t.
  - intros w Hw Htk. rewrite Hl in Hw. injection Hw as ->.
    destruct Hd as (w' & fs1 & fs2 & c1 & c2 & rest & [([= <-] & Ho & ->)|[? _]] & _ & Hf2 & -> & Ht & _ & ->); [|done].
    apply frames_empty in Hf2 as ->; [by rewrite !app_nil_r|]. rewrite Ho, length_app, Ht in Htk.
    destruct fs2; [done|cbn in Htk; lia].
Qed.
End Properties.

(** ** A concrete run *)

Section Runs.
#[local] Existing Instance toy_aead.

(** The server has dialled the remote and entered the download's loop. *)
Definition open_run : list action :=
  [Call (demo_connect 7 "a:80"); Step 0 demo_choice; Step 0 demo_choice; Call (demo_download 7); Step 2 demo_choice].
Definition open_joint : joint :=
  Joint initial [] (run_end open_run) (run_trace open_run) demo_world None (Rx 0 [] 0).

(** The remote answers; the download handler takes the answer. *)
Definition answer_acts : list jact :=
  [Srv (Step 1 (demo_reads (s2b "answer") None)); Srv (Step 1 demo_choice); Srv (Step 2 demo_choice)].

Definition joint_end (l : list jact) : joint := default open_joint (jrun 7 2 l open_joint).
Definition answer_frame : bytes := streamed_out 2 (j_srv (joint_end answer_acts)).

(** The answer is read in two pieces, "hello" is written and uploaded, and the
    [Write] returns. *)
Definition joint_acts : list jact :=
  answer_acts ++
  [Tun (DpiTunnel.Step 0 (pick 0)); Recv [take 9 answer_frame; drop 9 answer_frame] EOF;
   Tun (DpiTunnel.Step 0 (pick 0)); Tun (DpiTunnel.Call (RD_start 4)); Tun (DpiTunnel.Step 2 (pick 0));
   Tun (DpiTunnel.Step 2 (pick 0));
   Tun (DpiTunnel.Call (WR_start (s2b "hello"))); Tun (DpiTunnel.Step 3 (pick 0)); Tun (DpiTunnel.Step 3 (pick 0));
   Tun (DpiTunnel.Step 1 (pick 0)); Tun (DpiTunnel.Step 1 (pick 3)); Tun (DpiTunnel.Step 1 (pick 1));
   Post true; Srv (Step 3 demo_choice); Srv (Step 3 demo_choice); Srv (Step 3 demo_choice); Answer;
   Tun (DpiTunnel.Step 3 (pick 0))].

Definition open_conn : clientConn := ClientConn 7 (s2b "a:80") [] false [] false.

Lemma open_started : started 7 2 0 open_conn open_joint.
Proof.
  split.
  - apply run_reachable. vm_compute. by eexists.
  - vm_compute. reflexivity.
  - vm_compute. reflexivity.
  - exists None. vm_compute. reflexivity.
  - replace (sy_pool (j_srv open_joint)) with
      [Replied 200 (body_connected 7); RG_read 0; DL_loop 0 7 (Writer [] None ErrClosedPipe)]
      by (vm_compute; reflexivity). by repeat constructor.
  - done.
  - done.
Qed.

Lemma joint_acts_run : jrun 7 2 joint_acts open_joint = Some (joint_end joint_acts).
Proof. vm_compute. reflexivity. Qed.


Lemma joint_download_witness :
  s2b "answ" `prefix_of` concat (delivered_by 2 (j_str (joint_end joint_acts))).
Proof.
  replace (s2b "answ") with (concat (returned (j_ttr (joint_end joint_acts)))) by (vm_compute; reflexivity).
  assert (Hid : (0 <= 7 < 2 ^ 32)%Z) by lia.
  exact (proj1 (@joint_download _ toy_laws 7 2 0 open_conn open_joint joint_acts (joint_end joint_acts)
    Hid open_started joint_acts_run)).
Defined.
End Runs.
