(* ===== verification/DpiPump.v ===== *)
(** * TunnelConn (dpi/client/tunnel_conn.go): a local connection pumped through the tunnel

    [Run] starts two goroutines: one sends what it reads from the local connection with
    [SendData], the other copies the download stream to the local connection.  Either
    closes the tunnel when it ends, and so may any other goroutine. *)
From S2P Require Import Prelude Threads.

Definition pumpBufSize : nat := Z.to_nat 32768.
#[local] Opaque pumpBufSize.

(** [sync.Once]: a second caller waits for the first to finish. *)
Inductive once := Fresh | Busy | Spent.

(** The tunnel; what was read from the local connection and what [SendData] took of it,
    what the download stream yielded and what the local connection took of it; and how
    often [CloseConn] was called. *)
Record TunnelConn := MkTunnelConn {
  tn_closeOnce : once; tn_closeCh : bool; tn_localClosed : bool;
  tn_read : bytes; tn_sent : bytes; tn_streamed : bytes; tn_written : bytes;
  tn_closes : nat }.

Definition NewTunnelConn : TunnelConn := MkTunnelConn Fresh false false [] [] [] [] 0.

Definition set_close c o ch l n :=
  MkTunnelConn o ch l (tn_read c) (tn_sent c) (tn_streamed c) (tn_written c) n.
Definition set_up c r s :=
  MkTunnelConn (tn_closeOnce c) (tn_closeCh c) (tn_localClosed c) r s (tn_streamed c) (tn_written c) (tn_closes c).
Definition set_down c s w :=
  MkTunnelConn (tn_closeOnce c) (tn_closeCh c) (tn_localClosed c) (tn_read c) (tn_sent c) s w (tn_closes c).

Inductive pc :=
  (* pumpLocalToServer: the check of closeCh, local.Read, SendData *)
  | LS_check | LS_read | LS_send (data : bytes) (err : option error)
  (* pumpServerToLocal: DownloadStream, then io.Copy's Read and Write, then stream.Close *)
  | SL_open | SL_read | SL_write (data : bytes) (err : option error) | SL_close
  (* Close: the Once, then CloseConn and local.Close *)
  | CL_once | CL_conn | CL_local
  | Finished.

(** What the local connection, the transport and the stream answer; [None]: not yet. *)
Record choice := Choice {
  x_read : option (bytes * option error);
  x_send : option error;
  x_open : option error;
  x_write : option (nat * error) }.

Definition ErrClosed : error := ErrMsg "use of closed network connection".

Definition pumpLocalToServer (x : choice) (c : TunnelConn) (t : pc) : option (TunnelConn * pc) :=
  match t with
  | LS_check => Some (c, if tn_closeCh c then Finished else LS_read)
  | LS_read =>
      if tn_localClosed c then Some (c, CL_once)
      else
        '(p, err) ← x_read x;
        let data := take pumpBufSize p in
        let c := set_up c (tn_read c ++ data) (tn_sent c) in
        match data, err with
        | _ :: _, _ => Some (c, LS_send data err)
        | [], Some _ => Some (c, CL_once)
        | [], None => Some (c, LS_check)
        end
  | LS_send data err =>
      match x_send x with
      | Some _ => Some (c, CL_once)
      | None => Some (set_up c (tn_read c) (tn_sent c ++ data), if err is Some _ then CL_once else LS_check)
      end
  | _ => None
  end.

Definition pumpServerToLocal (x : choice) (c : TunnelConn) (t : pc) : option (TunnelConn * pc) :=
  match t with
  | SL_open => Some (c, if x_open x is Some _ then CL_once else SL_read)
  | SL_read =>
      '(p, err) ← x_read x;
      let data := take pumpBufSize p in
      let c := set_down c (tn_streamed c ++ data) (tn_written c) in
      match data, err with
      | _ :: _, _ => Some (c, SL_write data err)
      | [], Some _ => Some (c, SL_close)
      | [], None => Some (c, SL_read)
      end
  | SL_write data err =>
      if tn_localClosed c then Some (c, SL_close)
      else
        match x_write x with
        | Some (n, _) => Some (set_down c (tn_streamed c) (tn_written c ++ take n data), SL_close)
        | None => Some (set_down c (tn_streamed c) (tn_written c ++ data),
                        if err is Some _ then SL_close else SL_read)
        end
  | SL_close => Some (c, CL_once)
  | _ => None
  end.

Definition Close (c : TunnelConn) (t : pc) : option (TunnelConn * pc) :=
  match t with
  | CL_once =>
      match tn_closeOnce c with
      | Fresh => Some (set_close c Busy true (tn_localClosed c) (tn_closes c), CL_conn)
      | Busy => None
      | Spent => Some (c, Finished)
      end
  | CL_conn => Some (set_close c (tn_closeOnce c) (tn_closeCh c) (tn_localClosed c) (S (tn_closes c)), CL_local)
  | CL_local => Some (set_close c Spent (tn_closeCh c) true (tn_closes c), Finished)
  | _ => None
  end.

Definition pump_step (x : choice) (c : TunnelConn) (t : pc) : option (TunnelConn * pc) :=
  match t with
  | LS_check | LS_read | LS_send _ _ => pumpLocalToServer x c t
  | SL_open | SL_read | SL_write _ _ | SL_close => pumpServerToLocal x c t
  | _ => Close c t
  end.

#[export] Instance pump_machine : Machine TunnelConn pc unit choice :=
  {| act x c t := '(c', t') ← pump_step x c t; Some (c', t', [], []);
     callable t := match t with CL_once => true | _ => false end |}.

Definition Run : system TunnelConn pc := System NewTunnelConn [LS_check; SL_open].
Definition reachable (s : system TunnelConn pc) : Prop := exists tr, moves Run tr s.

(** ** Invariant *)

Definition is_closing (t : pc) : bool :=
  match t with CL_once | CL_conn | CL_local | Finished => true | _ => false end.

(** The pump that reads the local connection: what it read is what it sent and holds,
    and bytes are lost only when it stopped. *)
Definition up_ok (c : TunnelConn) (t : pc) : Prop :=
  match t with
  | LS_check | LS_read => tn_read c = tn_sent c
  | LS_send data _ => tn_read c = tn_sent c ++ data
  | _ => is_closing t = true /\ tn_sent c `prefix_of` tn_read c
  end.
Definition down_ok (c : TunnelConn) (t : pc) : Prop :=
  match t with
  | SL_open | SL_read => tn_streamed c = tn_written c
  | SL_write data _ => tn_streamed c = tn_written c ++ data
  | SL_close => tn_written c `prefix_of` tn_streamed c
  | _ => is_closing t = true /\ tn_written c `prefix_of` tn_streamed c
  end.

Record inv (s : system TunnelConn pc) : Prop := {
  iv_up : exists t, pool s !! 0 = Some t /\ up_ok (shared s) t;
  iv_down : exists t, pool s !! 1 = Some t /\ down_ok (shared s) t;
  iv_rest i t : pool s !! i = Some t -> 2 <= i -> is_closing t = true }.

(** A step of a thread leaves alone what the other threads are about. *)
Definition about (t : pc) : nat :=
  match t with
  | LS_check | LS_read | LS_send _ _ => 0
  | SL_open | SL_read | SL_write _ _ | SL_close => 1
  | _ => 2
  end.

Lemma step_frame x c t c' t' :
  pump_step x c t = Some (c', t') ->
  (about t <> 0 -> tn_read c' = tn_read c /\ tn_sent c' = tn_sent c) /\
  (about t <> 1 -> tn_streamed c' = tn_streamed c /\ tn_written c' = tn_written c) /\
  (about t = 2 -> about t' = 2) /\ (about t' = about t \/ about t' = 2).
Proof.
  intros E. destruct t; cbn [pump_step pumpLocalToServer pumpServerToLocal Close about] in *; try done.
  all: repeat match type of E with
    | context [match ?y with _ => _ end] => destruct y
    | context [mbind _ (x_read ?z)] => destruct (x_read z) as [[? ?]|]; cbn [mbind option_bind] in E
    end; try discriminate E; injection E as <- <-; cbn; split_and!; try done; auto.
Qed.

Lemma step_up x c t c' t' : up_ok c t -> about t = 0 -> pump_step x c t = Some (c', t') -> up_ok c' t'.
Proof.
  intros Hu Ha E. destruct t; try done; cbn [pump_step pumpLocalToServer up_ok] in *.
  - injection E as <- <-. destruct (tn_closeCh c); cbn; [split; [done|by rewrite Hu]|done].
  - destruct (tn_localClosed c); [injection E as <- <-; cbn; split; [done|by rewrite Hu]|].
    destruct (x_read x) as [[p err]|]; [cbn [mbind option_bind] in E|done].
    destruct (take pumpBufSize p) as [|b data]; [destruct err|]; injection E as <- <-; cbn;
      rewrite ?app_nil_r, Hu; done.
  - destruct (x_send x); [injection E as <- <-; cbn; split; [done|rewrite Hu; by apply prefix_app_r]|].
    injection E as <- <-. destruct err; cbn; rewrite Hu; done.
Qed.

Lemma step_down x c t c' t' : down_ok c t -> about t = 1 -> pump_step x c t = Some (c', t') -> down_ok c' t'.
Proof.
  intros Hu Ha E. destruct t; try done; cbn [pump_step pumpServerToLocal down_ok] in *.
  - injection E as <- <-. destruct (x_open x); cbn; [split; [done|by rewrite Hu]|done].
  - destruct (x_read x) as [[p e]|]; [cbn [mbind option_bind] in E|done].
    destruct (take pumpBufSize p) as [|b data]; [destruct e|]; injection E as <- <-; cbn;
      rewrite ?app_nil_r, Hu; done.
  - destruct (tn_localClosed c); [injection E as <- <-; cbn; rewrite Hu; by apply prefix_app_r|].
    destruct (x_write x) as [[n e]|].
    + injection E as <- <-. cbn. rewrite Hu. apply prefix_app, prefix_take.
    + injection E as <- <-. destruct err; cbn; rewrite Hu; done.
  - injection E as <- <-. done.
Qed.

Lemma closing_about t : is_closing t = true <-> about t = 2.
Proof. by destruct t. Qed.

Lemma up_ok_frame c c' t : tn_read c' = tn_read c -> tn_sent c' = tn_sent c -> up_ok c t -> up_ok c' t.
Proof. unfold up_ok. intros -> ->. done. Qed.
Lemma down_ok_frame c c' t :
  tn_streamed c' = tn_streamed c -> tn_written c' = tn_written c -> down_ok c t -> down_ok c' t.
Proof. unfold down_ok. intros -> ->. done. Qed.

Lemma up_ok_about c t : up_ok c t -> about t = 0 \/ about t = 2.
Proof. destruct t; cbn; auto; by intros [? _]. Qed.
Lemma down_ok_about c t : down_ok c t -> about t = 1 \/ about t = 2.
Proof. destruct t; cbn; auto; by intros [? _]. Qed.

(** A closing thread has no effect on the pumps' data. *)
Lemma step_closing x c t c' t' :
  about t = 2 -> pump_step x c t = Some (c', t') ->
  (up_ok c t -> up_ok c' t') /\ (down_ok c t -> down_ok c' t').
Proof.
  intros Ha E. destruct (step_frame _ _ _ _ _ E) as (H1 & H2 & H3 & _).
  rewrite Ha in *. destruct H1 as [R1 R2]; [done|]. destruct H2 as [W1 W2]; [done|]. specialize (H3 eq_refl).
  split; intros Hok.
  - apply (up_ok_frame c); [done|done|]. destruct t, t'; try done; by destruct Hok.
  - apply (down_ok_frame c); [done|done|]. destruct t, t'; try done; by destruct Hok.
Qed.

Lemma pump_inv_move s evs s' : inv s -> move s evs s' -> inv s'.
Proof.
  intros Hinv Hm. destruct Hm as [s t Ht|s i t x c' t' new evs Ei E]; destruct Hinv as [(t0 & H0 & U) (t1 & H1 & D) R].
  - split; cbn.
    + exists t0. split; [by apply lookup_app_l_Some|done].
    + exists t1. split; [by apply lookup_app_l_Some|done].
    + intros i u [Hi|[_ [_ <-]%list_lookup_singleton_Some]]%lookup_app_Some Hge; [eauto|by destruct t].
  - cbn in E. destruct (pump_step x (shared s) t) as [[c1 t2]|] eqn:Es; [|done]. cbn in E.
    injection E as <- <- <- <-. rewrite app_nil_r.
    destruct (step_frame _ _ _ _ _ Es) as (F1 & F2 & F3 & _). pose proof (lookup_lt_Some _ _ _ Ei) as Hlt.
    assert (About : i <> 0 -> about t <> 0).
    { intros Hi0 Hz. destruct (decide (i = 1)) as [->|Hi1].
      - rewrite H1 in Ei. injection Ei as ->. destruct (down_ok_about _ _ D); lia.
      - assert (about t = 2); [apply closing_about; apply (R i); [done|lia]|lia]. }
    assert (About1 : i <> 1 -> about t <> 1).
    { intros Hi1 Hz. destruct (decide (i = 0)) as [->|Hi0].
      - rewrite H0 in Ei. injection Ei as ->. destruct (up_ok_about _ _ U); lia.
      - assert (about t = 2); [apply closing_about; apply (R i); [done|lia]|lia]. }
    split; cbn.
    + destruct (decide (i = 0)) as [->|Hi0].
      * rewrite H0 in Ei. injection Ei as ->. exists t2. split; [by apply list_lookup_insert_eq|].
        destruct (up_ok_about _ _ U) as [Ha|Ha]; [by eapply step_up|by apply (step_closing _ _ _ _ _ Ha Es)].
      * exists t0. split; [by rewrite list_lookup_insert_ne|]. destruct F1 as [? ?]; [auto|]. by eapply up_ok_frame.
    + destruct (decide (i = 1)) as [->|Hi1].
      * rewrite H1 in Ei. injection Ei as ->. exists t2. split; [by apply list_lookup_insert_eq|].
        destruct (down_ok_about _ _ D) as [Ha|Ha]; [by eapply step_down|by apply (step_closing _ _ _ _ _ Ha Es)].
      * exists t1. split; [by rewrite list_lookup_insert_ne|]. destruct F2 as [? ?]; [auto|]. by eapply down_ok_frame.
    + intros j u [(-> & -> & _)|[Hj Hu]]%list_lookup_insert_Some Hge; [|eauto].
      apply closing_about, F3, closing_about. eauto.
Qed.

Lemma pump_inv_reachable s : reachable s -> inv s.
Proof.
  intros [tr H]. eapply (moves_ind_inv inv); [|exact pump_inv_move|exact H]. split; cbn.
  - by exists LS_check.
  - by exists SL_open.
  - intros [|[|i]] t Hi Hge; [lia|lia|done].
Qed.

(** ** Closing once *)

(** The goroutine inside [closeOnce.Do], before and after its [CloseConn]. *)
Definition inside (t : pc) : nat := match t with CL_conn | CL_local => 1 | _ => 0 end.
Definition calling (t : pc) : nat := match t with CL_conn => 1 | _ => 0 end.
Definition busy (c : TunnelConn) : nat := match tn_closeOnce c with Busy => 1 | _ => 0 end.
Definition owed (c : TunnelConn) : nat := match tn_closeOnce c with Fresh => 0 | _ => 1 end - tn_closes c.

Definition close_ok (c : TunnelConn) : Prop :=
  match tn_closeOnce c with
  | Fresh => tn_closeCh c = false /\ tn_localClosed c = false /\ tn_closes c = 0
  | Busy => tn_closeCh c = true /\ tn_localClosed c = false /\ tn_closes c <= 1
  | Spent => tn_closeCh c = true /\ tn_localClosed c = true /\ tn_closes c <= 1
  end.

Definition tokens (s : system TunnelConn pc) : Prop :=
  close_ok (shared s) /\ total inside (pool s) = busy (shared s) /\ total calling (pool s) = owed (shared s).

Lemma step_close x c t c' t' :
  close_ok c -> inside t <= busy c -> calling t <= owed c -> pump_step x c t = Some (c', t') ->
  close_ok c' /\ busy c' + inside t = busy c + inside t' /\ owed c' + calling t = owed c + calling t'.
Proof.
  intros Hc Hi Ho E. destruct t; cbn [pump_step pumpLocalToServer pumpServerToLocal Close] in E; try done.
  all: repeat match type of E with
    | context [mbind _ (x_read ?z)] => destruct (x_read z) as [[? ?]|]; cbn [mbind option_bind] in E
    | context [match ?y with _ => _ end] => destruct y eqn:?
    end; try discriminate E; injection E as <- <-;
    unfold close_ok, busy, owed in *; cbn in *; try (by split_and!);
    repeat match goal with H : tn_closeOnce _ = _ |- _ => rewrite H in * end; cbn in *;
    destruct_and?; repeat case_match; cbn in *; destruct_and?; split_and!; try done; try lia.
Qed.

Lemma tokens_reachable s : reachable s -> tokens s.
Proof.
  intros [tr H]. eapply (moves_ind_inv tokens); [|clear|exact H].
  - split_and!; done.
  - intros s evs s' (Hc & Hi & Ho) Hm. destruct Hm as [s t Ht|s i t x c' t' new evs Ei E]; cbn.
    + unfold tokens. cbn. rewrite !total_app. destruct t; try done. cbn. by rewrite !Nat.add_0_r.
    + cbn in E. destruct (pump_step x (shared s) t) as [[c1 t2]|] eqn:Es; [|done]. cbn in E.
      injection E as <- <- <- <-. rewrite app_nil_r.
      pose proof (total_one inside _ _ _ Ei) as T1. pose proof (total_one calling _ _ _ Ei) as T2.
      rewrite Hi in T1. rewrite Ho in T2.
      destruct (step_close _ _ _ _ _ Hc T1 T2 Es) as (Hc' & H1 & H2).
      pose proof (total_insert inside _ _ _ t2 Ei). pose proof (total_insert calling _ _ _ t2 Ei).
      unfold tokens; cbn [pool shared]; split_and!; [done|lia|lia].
Qed.

(** [pumpServerToLocal] returns only from its deferred [Close]. *)
Definition closed_when_done (s : system TunnelConn pc) : Prop :=
  inv s /\ (pool s !! 1 = Some Finished -> tn_closeOnce (shared s) = Spent).

Lemma step_spent x c t c' t' :
  pump_step x c t = Some (c', t') ->
  (tn_closeOnce c = Spent -> tn_closeOnce c' = Spent) /\
  (about t <> 0 -> t' = Finished -> tn_closeOnce c' = Spent).
Proof.
  intros E. destruct t; cbn [pump_step pumpLocalToServer pumpServerToLocal Close about] in *; try done.
  all: repeat match type of E with
    | context [mbind _ (x_read ?z)] => destruct (x_read z) as [[? ?]|]; cbn [mbind option_bind] in E
    | context [match ?y with _ => _ end] => destruct y eqn:?
    end; try discriminate E; injection E as <- <-; cbn; split; try done; congruence.
Qed.

Lemma closed_when_done_reachable s : reachable s -> closed_when_done s.
Proof.
  intros Hr. split; [by apply pump_inv_reachable|]. destruct Hr as [tr H].
  enough (closed_when_done s) as [_ ?]; [done|].
  eapply (moves_ind_inv closed_when_done); [|clear|exact H].
  { split; [apply pump_inv_reachable; exists []; constructor|done]. }
  intros s evs s' [Hinv Hd] Hm. split; [by eapply pump_inv_move|].
  destruct Hm as [s t Ht|s i t x c' t' new evs Ei E]; destruct Hinv as [_ (t1 & H1 & D) _]; cbn.
  - rewrite (lookup_app_l_Some _ _ _ _ H1), <- H1. done.
  - cbn in E. destruct (pump_step x (shared s) t) as [[c1 t2]|] eqn:Es; [|done]. cbn in E.
    injection E as <- <- <- <-. rewrite app_nil_r. destruct (step_spent _ _ _ _ _ Es) as [S1 S2].
    destruct (decide (i = 1)) as [->|Hne].
    + rewrite list_lookup_insert_eq by (by eapply lookup_lt_Some). intros [= ->].
      rewrite H1 in Ei. injection Ei as ->. apply S2; [|done]. destruct (down_ok_about _ _ D); lia.
    + rewrite list_lookup_insert_ne by done. auto.
Qed.

(** ** Properties *)


(** ** A concrete run *)

Definition reads (p : bytes) (e : option error) : choice := Choice (Some (p, e)) None None None.

(** "hi" goes up, "answer" comes down, the local connection ends and both pumps
    close the tunnel. *)
Definition pump_acts : list (turn (Pc := pc) (Ch := choice)) :=
  [Turn 0 (reads [] None); Turn 0 (reads (s2b "hi") None); Turn 0 (reads [] None);
   Turn 1 (reads [] None); Turn 1 (reads (s2b "answer") (Some EOF)); Turn 1 (reads [] None);
   Turn 0 (reads [] None); Turn 0 (reads [] (Some EOF)); Turn 0 (reads [] None);
   Turn 1 (reads [] None); Turn 0 (reads [] None); Turn 0 (reads [] None); Turn 1 (reads [] None)].
Definition pump_end : system TunnelConn pc := default Run (snd <$> play pump_acts Run).

Lemma pump_end_reachable : reachable pump_end.
Proof. exists []. apply (play_moves pump_acts). vm_compute. reflexivity. Qed.

