(* ===== verification/Socks5.v ===== *)
(** * The SOCKS5 server handshake (snowflake/common/socks5/socks5.go)

    [HandshakeServer] reads the method negotiation and a CONNECT request from a
    connection and answers "no authentication".  The theorem characterises the byte
    sequences it accepts and the target it returns. *)
From S2P Require Import Prelude GoIO Strconv NetAddr.
Local Open Scope Z_scope.

Definition version5 : byte := Byte.x05.
Definition cmdConnect : byte := Byte.x01.
Definition atypIPv4 : byte := Byte.x01.
Definition atypDomain : byte := Byte.x03.
Definition atypIPv6 : byte := Byte.x04.

Record Target := MkTarget { tg_Network : bytes; tg_Host : bytes; tg_Port : Z }.

Definition Addr (t : Target) : bytes := JoinHostPort (tg_Host t) (Itoa (tg_Port t)).

(** A [net.Conn]: what it will deliver and what it has been sent. *)
Record conn := Conn { c_in : reader; c_out : writer }.

(** [io.ReadFull(conn, buf)] with [len(buf) = n], and [conn.Write(p)]. *)
Definition recv (n : nat) : io conn bytes := fun c =>
  let '(r, rd) := ReadFull n (c_in c) in (r, Conn rd (c_out c)).
Definition send (p : bytes) : io conn unit := fun c =>
  match write p (c_out c) with
  | (_, None, w) => (Ret tt, Conn (c_in c) w)
  | (_, Some e, w) => (Err e, Conn (c_in c) w)
  end.

(** The switch on the address type, over any way of reading [n] bytes. *)
Definition read_host {S} (rd : nat -> io S bytes) (atyp : byte) : io S bytes :=
  if decide (atyp = atypIPv4) then ip ← rd 4%nat; mret (IP_String ip)
  else if decide (atyp = atypDomain) then
    lenByte ← rd 1%nat;
    name ← rd (Z.to_nat (be_get lenByte));
    mret name
  else if decide (atyp = atypIPv6) then ip ← rd 16%nat; mret (IP_String ip)
  else throw ErrUnsupportedAddr.

Definition HandshakeServer : io conn Target :=
  hdr ← recv 2;
  if negb (bool_decide (nth 0 hdr Byte.x00 = version5)) then throw ErrUnsupportedVersion
  else
    _ ← recv (Z.to_nat (bval (nth 1 hdr Byte.x00)));
    _ ← send [version5; Byte.x00];
    hdr ← recv 2;
    if negb (bool_decide (nth 0 hdr Byte.x00 = version5)) then throw ErrUnsupportedVersion
    else if negb (bool_decide (nth 1 hdr Byte.x00 = cmdConnect)) then throw ErrUnsupportedCommand
    else
      _ ← recv 1;
      atyp ← recv 1;
      host ← read_host recv (nth 0 atyp Byte.x00);
      portBytes ← recv 2;
      mret (MkTarget (s2b "tcp") host (be_get portBytes)).

Definition reply (code : byte) : bytes :=
  [version5; code; Byte.x00; atypIPv4; Byte.x00; Byte.x00; Byte.x00; Byte.x00; Byte.x00; Byte.x00].
Definition ReplyConnectSuccess : io conn unit := send (reply Byte.x00).
Definition ReplyConnectFailed : io conn unit := send (reply Byte.x01).

(** The goroutine of [ListenAndServe]: [handle] is the callback; the result is
    whether the connection was closed here. *)
Definition serve_one (handle : Target -> io conn unit) (c : conn) : bool * conn :=
  match HandshakeServer c with
  | (Ret target, c1) =>
      match handle target c1 with
      | (Ret _, c2) => (false, c2)
      | (_, c2) => (true, (ReplyConnectFailed c2).2)
      end
  | (_, c1) => (true, c1)
  end.

(** ** The wire format *)

Inductive wire_addr := AddrV4 (ip : bytes) | AddrDomain (name : bytes) | AddrV6 (ip : bytes).

Definition addr_ok (a : wire_addr) : Prop :=
  match a with
  | AddrV4 ip => length ip = 4%nat
  | AddrDomain name => (length name <= 255)%nat
  | AddrV6 ip => length ip = 16%nat
  end.

Definition encode_addr (a : wire_addr) : bytes :=
  match a with
  | AddrV4 ip => atypIPv4 :: ip
  | AddrDomain name => atypDomain :: to_byte (len name) :: name
  | AddrV6 ip => atypIPv6 :: ip
  end.

Definition host_of (a : wire_addr) : bytes :=
  match a with AddrV4 ip | AddrV6 ip => IP_String ip | AddrDomain name => name end.

(** A client's greeting with its methods, and its CONNECT request. *)
Definition greeting (methods : bytes) : bytes := version5 :: to_byte (len methods) :: methods.
Definition connect_request (rsv : byte) (a : wire_addr) (port : Z) : bytes :=
  [version5; cmdConnect; rsv] ++ encode_addr a ++ be_put 2 port.

(** ** Readers of a fixed number of bytes

    What the two parsers need from [io.ReadFull], on whatever it reads. *)
Class FixedRead {S} (rd : nat -> io S bytes) := {
  fr_input : S -> bytes;
  fr_same : S -> S -> Prop;
  fr_trans :: PreOrder fr_same;
  fr_ok s n pre suf : fr_input s = pre ++ suf -> length pre = n ->
    exists s', rd n s = (Ret pre, s') /\ fr_input s' = suf /\ fr_same s s';
  fr_inv s n bs s' : rd n s = (Ret bs, s') ->
    length bs = n /\ fr_input s = bs ++ fr_input s' /\ fr_same s s' }.

(** Same source of errors, same promise about empty reads. *)
Definition same_source (r r' : reader) : Prop :=
  r_end r' = r_end r /\ (nonempty_reads r -> nonempty_reads r').

#[export] Instance same_source_preorder : PreOrder same_source.
Proof.
  split.
  - intros r. done.
  - intros r1 r2 r3 [E1 H1] [E2 H2]. split; [congruence|auto].
Qed.

Lemma ReadFull_fr_ok r n pre suf :
  flat r = pre ++ suf -> length pre = n ->
  exists r', ReadFull n r = (Ret pre, r') /\ flat r' = suf /\ same_source r r'.
Proof.
  intros E Hl. destruct (ReadFull_ok r pre suf n E Hl) as (r' & ? & ? & ? & ?). exists r'. done.
Qed.

Lemma ReadFull_fr_inv r n bs r' :
  ReadFull n r = (Ret bs, r') -> length bs = n /\ flat r = bs ++ flat r' /\ same_source r r'.
Proof.
  intros E. unfold ReadFull in E.
  destruct (readFull_loop_spec (S (length (r_chunks r))) n [] r) as
    [(Hl & r1 & (Hf & He & Hn) & E1)|(_ & r1 & _ & E1)]; [lia| |]; rewrite E1 in E; [|done].
  injection E as <- <-. cbn [app]. rewrite length_take. split_and!; [lia|by rewrite Hf, take_drop|done].
Qed.

#[export] Instance ReadFull_FixedRead : FixedRead ReadFull :=
  {| fr_input := flat; fr_same := same_source; fr_trans := same_source_preorder;
     fr_ok := ReadFull_fr_ok; fr_inv := ReadFull_fr_inv |}.

(** The receiving half of a connection; what it was sent stays the same. *)
Definition conn_in (c : conn) : bytes := flat (c_in c).
Definition same_conn (c c' : conn) : Prop := same_source (c_in c) (c_in c') /\ c_out c' = c_out c.

#[export] Instance same_conn_preorder : PreOrder same_conn.
Proof.
  split; [done|]. intros c1 c2 c3 [H1 E1] [H2 E2]. split; [by etransitivity|congruence].
Qed.

Lemma recv_fr_ok c n pre suf :
  conn_in c = pre ++ suf -> length pre = n ->
  exists c', recv n c = (Ret pre, c') /\ conn_in c' = suf /\ same_conn c c'.
Proof.
  intros E Hl. destruct (ReadFull_fr_ok (c_in c) n pre suf E Hl) as (r' & Er & Hf & Hs).
  unfold recv. rewrite Er. exists (Conn r' (c_out c)). done.
Qed.

Lemma recv_fr_inv c n bs c' :
  recv n c = (Ret bs, c') -> length bs = n /\ conn_in c = bs ++ conn_in c' /\ same_conn c c'.
Proof.
  unfold recv. destruct (ReadFull n (c_in c)) as [[b|e|w] r'] eqn:Er; try done.
  intros [= <- <-]. by apply ReadFull_fr_inv in Er as (? & ? & ?).
Qed.

#[export] Instance recv_FixedRead : FixedRead recv :=
  {| fr_input := conn_in; fr_same := same_conn; fr_trans := same_conn_preorder;
     fr_ok := recv_fr_ok; fr_inv := recv_fr_inv |}.

(** One step forward: the next [n] bytes are [pre]. *)
Lemma fr_bind {S B} (rd : nat -> io S bytes) `{!FixedRead rd} n pre suf (f : bytes -> io S B) s :
  fr_input (rd := rd) s = pre ++ suf -> length pre = n ->
  exists s1, (rd n ≫= f) s = f pre s1 /\ fr_input (rd := rd) s1 = suf /\ fr_same (rd := rd) s s1.
Proof.
  intros E Hl. destruct (fr_ok s n pre suf E Hl) as (s1 & E1 & Hf & Hs). exists s1.
  split; [|done]. by erewrite io_bind_ret by exact E1.
Qed.

(** ... applied to the first read of the goal; [Hin] says what its input is. *)
Ltac fr_go pre suf Hin s1 Hf Hs :=
  match goal with |- context [(mbind ?f (?rd ?n)) ?s] =>
    let E := fresh "E" in
    destruct (fr_bind rd n pre suf f s) as (s1 & E & Hf & Hs);
    [exact Hin|try done; cbn; lia|rewrite E; clear E]
  end.

(** One step back: what a successful parser read. *)
Lemma fr_bind_inv {S B} (rd : nat -> io S bytes) `{!FixedRead rd} n (f : bytes -> io S B) s b s' :
  (rd n ≫= f) s = (Ret b, s') ->
  exists bs s1, length bs = n /\ fr_input (rd := rd) s = bs ++ fr_input (rd := rd) s1 /\
    fr_same (rd := rd) s s1 /\ f bs s1 = (Ret b, s').
Proof.
  intros (bs & s1 & E1 & E2)%io_bind_inv. apply fr_inv in E1 as (? & ? & ?). exists bs, s1. done.
Qed.

Definition atyp_of (a : wire_addr) : byte :=
  match a with AddrV4 _ => atypIPv4 | AddrDomain _ => atypDomain | AddrV6 _ => atypIPv6 end.
Definition addr_tail (a : wire_addr) : bytes :=
  match a with AddrV4 ip | AddrV6 ip => ip | AddrDomain name => to_byte (len name) :: name end.

Lemma encode_addr_eq a : encode_addr a = atyp_of a :: addr_tail a.
Proof. by destruct a. Qed.

Lemma be_get_1 b : be_get [b] = bval b.
Proof. rewrite be_get_cons. unfold be_get, len. cbn. lia. Qed.

Lemma length_1 {A} (l : list A) : length l = 1%nat -> exists x, l = [x].
Proof. destruct l as [|x [|]]; try done. eauto. Qed.
Lemma length_2 {A} (l : list A) : length l = 2%nat -> exists x y, l = [x; y].
Proof. destruct l as [|x [|y [|]]]; try done. eauto. Qed.

Lemma bval_len (name : bytes) : (length name <= 255)%nat -> bval (to_byte (len name)) = len name.
Proof. intros H. rewrite bval_to_byte. apply Z.mod_small. unfold len. lia. Qed.

Section ReadHost.
Context {S} (rd : nat -> io S bytes) `{!FixedRead rd}.

Lemma read_host_ok a suf s :
  addr_ok a -> fr_input (rd := rd) s = addr_tail a ++ suf ->
  exists s', read_host rd (atyp_of a) s = (Ret (host_of a), s') /\
    fr_input (rd := rd) s' = suf /\ fr_same (rd := rd) s s'.
Proof.
  intros Ha E. destruct a as [ip|name|ip]; cbn [addr_ok addr_tail host_of atyp_of] in *;
    unfold read_host.
  - rewrite decide_True by done. fr_go ip suf E s1 Hf1 Hs1. by exists s1.
  - rewrite decide_False, decide_True by done.
    fr_go [to_byte (len name)] (name ++ suf) E s1 Hf1 Hs1.
    rewrite be_get_1, bval_len by done. unfold len. rewrite Nat2Z.id.
    fr_go name suf Hf1 s2 Hf2 Hs2.
    exists s2. split_and!; [done|done|by etransitivity].
  - rewrite !decide_False, decide_True by done.
    fr_go ip suf E s1 Hf1 Hs1. by exists s1.
Qed.

Lemma read_host_inv atyp s host s' :
  read_host rd atyp s = (Ret host, s') ->
  exists a, addr_ok a /\ atyp = atyp_of a /\ host = host_of a /\
    fr_input (rd := rd) s = addr_tail a ++ fr_input (rd := rd) s' /\ fr_same (rd := rd) s s'.
Proof.
  unfold read_host. case_decide as H1; [|case_decide as H3; [|case_decide as H4; [|done]]].
  - intros (ip & s1 & Hl & Hi & Hs & [= <- <-])%(fr_bind_inv rd). by exists (AddrV4 ip).
  - intros (lb & s1 & [b ->]%length_1 & Hi & Hs & E)%(fr_bind_inv rd).
    apply (fr_bind_inv rd) in E as (name & s2 & Hl2 & Hi2 & Hs2 & [= <- <-]).
    rewrite be_get_1 in Hl2. pose proof (bval_range b).
    exists (AddrDomain name). cbn. split_and!; [lia|done|done| |by etransitivity].
    rewrite Hi, Hi2. cbn. do 2 f_equal. rewrite <- (to_byte_bval b). f_equal. unfold len. lia.
  - intros (ip & s1 & Hl & Hi & Hs & [= <- <-])%(fr_bind_inv rd). by exists (AddrV6 ip).
Qed.
End ReadHost.

(** ** The handshake *)

Lemma send_ok p k c :
  has_room (length p + k) (c_out c) ->
  exists c', send p c = (Ret tt, c') /\ c_in c' = c_in c /\ w_out (c_out c') = w_out (c_out c) ++ p /\
    has_room k (c_out c').
Proof.
  intros H. unfold send. destruct (c_out c) as [o room e]. apply has_room_used in H as [H1 H2].
  rewrite write_ok by done. by eexists.
Qed.

Lemma send_inv p c u c' :
  send p c = (Ret u, c') -> c_in c' = c_in c /\ w_out (c_out c') = w_out (c_out c) ++ p.
Proof.
  unfold send. destruct (write p (c_out c)) as [[n [e|]] w] eqn:E; [done|]. intros [= _ <-].
  apply write_prefix in E as (Ho & _ & Hi & _). assert (n = length p) as -> by tauto. cbn.
  by rewrite Ho, take_ge by lia.
Qed.

Lemma HandshakeServer_complete c methods rsv a port rest k :
  has_room (2 + k) (c_out c) -> (length methods <= 255)%nat -> addr_ok a -> 0 <= port < 65536 ->
  conn_in c = greeting methods ++ connect_request rsv a port ++ rest ->
  exists c', HandshakeServer c = (Ret (MkTarget (s2b "tcp") (host_of a) port), c') /\
    conn_in c' = rest /\ w_out (c_out c') = w_out (c_out c) ++ [version5; Byte.x00] /\ has_room k (c_out c').
Proof.
  intros Hr Hm Ha Hp Hin. unfold greeting, connect_request in Hin. rewrite encode_addr_eq in Hin.
  pose proof (be_get_put 2 port) as Eport. change (2 ^ (8 * Z.of_nat 2)) with 65536 in Eport.
  rewrite Z.mod_small in Eport by done. pose proof (length_be_put 2 port) as Lport.
  generalize dependent (be_put 2 port). intros pb Hin Eport Lport.
  assert (H0 : conn_in c = [version5; to_byte (len methods)] ++ methods ++ [version5; cmdConnect] ++
    [rsv] ++ [atyp_of a] ++ addr_tail a ++ pb ++ rest) by (rewrite Hin; cbn; by rewrite <- !app_assoc).
  clear Hin. unfold HandshakeServer.
  fr_go [version5; to_byte (len methods)] (methods ++ [version5; cmdConnect] ++
    [rsv] ++ [atyp_of a] ++ addr_tail a ++ pb ++ rest) H0 c1 H1 S1.
  cbn [nth]. rewrite bool_decide_true, bval_len by done. cbn [negb]. unfold len. rewrite Nat2Z.id.
  fr_go methods ([version5; cmdConnect] ++ [rsv] ++ [atyp_of a] ++ addr_tail a ++ pb ++ rest) H1 c2 H2 S2.
  assert (O2 : c_out c2 = c_out c) by (etransitivity; [apply S2|apply S1]).
  destruct (send_ok [version5; Byte.x00] k c2) as (c3 & E3 & I3 & O3 & R3); [by rewrite O2|].
  erewrite io_bind_ret by exact E3.
  assert (H3 : conn_in c3 = [version5; cmdConnect] ++ [rsv] ++ [atyp_of a] ++ addr_tail a ++ pb ++ rest)
    by (unfold conn_in; rewrite I3; exact H2).
  fr_go [version5; cmdConnect] ([rsv] ++ [atyp_of a] ++ addr_tail a ++ pb ++ rest) H3 c4 H4 S4.
  cbn [nth]. rewrite !bool_decide_true by done. cbn [negb].
  fr_go [rsv] ([atyp_of a] ++ addr_tail a ++ pb ++ rest) H4 c5 H5 S5.
  fr_go [atyp_of a] (addr_tail a ++ pb ++ rest) H5 c6 H6 S6. cbn [nth].
  destruct (read_host_ok recv a (pb ++ rest) c6 Ha H6) as (c7 & E7 & H7 & S7).
  erewrite io_bind_ret by exact E7.
  fr_go pb rest H7 c8 H8 S8. rewrite Eport.
  exists c8. assert (S38 : same_conn c3 c8) by (etransitivity; [exact S4|]; etransitivity; [exact S5|];
    etransitivity; [exact S6|]; etransitivity; [exact S7|exact S8]).
  split_and!; [done|exact H8|by rewrite (proj2 S38), O3, O2|by rewrite (proj2 S38)].
Qed.

Lemma HandshakeServer_sound c t c' :
  HandshakeServer c = (Ret t, c') ->
  exists methods rsv a port, (length methods <= 255)%nat /\ addr_ok a /\ 0 <= port < 65536 /\
    conn_in c = greeting methods ++ connect_request rsv a port ++ conn_in c' /\
    t = MkTarget (s2b "tcp") (host_of a) port /\
    w_out (c_out c') = w_out (c_out c) ++ [version5; Byte.x00].
Proof.
  unfold HandshakeServer.
  intros (h1 & c1 & (v & n & ->)%length_2 & I1 & S1 & E)%(fr_bind_inv recv). cbn [nth] in E.
  destruct (decide (v = version5)) as [->|]; [rewrite bool_decide_true in E by done|by rewrite bool_decide_false in E].
  apply (fr_bind_inv recv) in E as (methods & c2 & Lm & I2 & S2 & E).
  apply io_bind_inv in E as (u & c3 & [Ic3 Oc3]%send_inv & E).
  apply (fr_bind_inv recv) in E as (h2 & c4 & (v & k & ->)%length_2 & I4 & S4 & E). cbn [nth] in E.
  destruct (decide (v = version5)) as [->|]; [rewrite bool_decide_true in E by done|by rewrite bool_decide_false in E].
  destruct (decide (k = cmdConnect)) as [->|]; [rewrite bool_decide_true in E by done|by rewrite bool_decide_false in E].
  apply (fr_bind_inv recv) in E as (h3 & c5 & (rsv & ->)%length_1 & I5 & S5 & E).
  apply (fr_bind_inv recv) in E as (h4 & c6 & (atyp & ->)%length_1 & I6 & S6 & E). cbn [nth] in E.
  apply io_bind_inv in E as (host & c7 & (a & Ha & -> & -> & I7 & S7)%(read_host_inv recv) & E).
  apply (fr_bind_inv recv) in E as (pb & c8 & Lp & I8 & S8 & [= <- <-]).
  pose proof (bval_range n) as Hn. pose proof (be_get_range pb) as Hp. unfold len in Hp. rewrite Lp in Hp.
  exists methods, rsv, a, (be_get pb). split_and!; try done; try lia.
  - unfold greeting, connect_request. rewrite encode_addr_eq.
    replace (be_put 2 (be_get pb)) with pb by (by rewrite <- Lp, be_put_get).
    replace (to_byte (len methods)) with n
      by (rewrite <- (to_byte_bval n); f_equal; unfold len; lia).
    cbn in *. unfold conn_in in *. rewrite I1, I2, <- Ic3, I4, I5, I6, I7, I8. cbn. by rewrite <- !app_assoc.
  - assert (S38 : same_conn c3 c8) by (etransitivity; [exact S4|]; etransitivity; [exact S5|];
      etransitivity; [exact S6|]; etransitivity; [exact S7|exact S8]).
    assert (O2 : c_out c2 = c_out c) by (etransitivity; [apply S2|apply S1]).
    by rewrite (proj2 S38), Oc3, O2.
Qed.

(** ** Properties *)

(** C23. [HandshakeServer] accepts exactly the well-formed handshakes: it
    returns a target if and only if the connection delivers a SOCKS5 greeting followed by
    a CONNECT request for it, whatever the segmentation, the methods and the reserved
    byte; it then has consumed exactly those bytes, so the client's data that follows is
    left for the caller, and has sent exactly the "no authentication" answer. *)
Theorem socks5_handshake_spec c t :
  has_room 2 (c_out c) ->
  ((exists c', HandshakeServer c = (Ret t, c')) <->
   exists methods rsv a port rest, (length methods <= 255)%nat /\ addr_ok a /\ 0 <= port < 65536 /\
     conn_in c = greeting methods ++ connect_request rsv a port ++ rest /\
     t = MkTarget (s2b "tcp") (host_of a) port) /\
  (forall c', HandshakeServer c = (Ret t, c') ->
     (exists methods rsv a port, conn_in c = greeting methods ++ connect_request rsv a port ++ conn_in c') /\
     w_out (c_out c') = w_out (c_out c) ++ [version5; Byte.x00]).
Proof.
  intros Hr. split; [split|].
  - intros [c' E]. destruct (HandshakeServer_sound c t c' E) as (m & rsv & a & port & ? & ? & ? & ? & ? & _).
    exists m, rsv, a, port, (conn_in c'). done.
  - intros (m & rsv & a & port & rest & H1 & H2 & H3 & H4 & ->).
    destruct (HandshakeServer_complete c m rsv a port rest 0) as (c' & E & _); eauto.
  - intros c' E. destruct (HandshakeServer_sound c t c' E) as (m & rsv & a & port & _ & _ & _ & H4 & _ & H6).
    split; [|done]. eauto.
Qed.

Definition demo_conn : conn :=
  Conn (Reader [[version5; Byte.x01]; Byte.x00 :: [version5; cmdConnect; Byte.x00; atypDomain; Byte.x03];
    s2b "a.b" ++ [Byte.x00; Byte.x50] ++ s2b "GET"] EOF) (Writer [] None EOF).

Lemma socks5_handshake_spec_witness :
  exists c', HandshakeServer demo_conn = (Ret (MkTarget (s2b "tcp") (s2b "a.b") 80), c').
Proof.
  apply (socks5_handshake_spec demo_conn (MkTarget (s2b "tcp") (s2b "a.b") 80)); [exact I|].
  exists [Byte.x00], Byte.x00, (AddrDomain (s2b "a.b")), 80, (s2b "GET").
  split_and!; [cbn; lia|cbn; lia|lia|lia|vm_compute; reflexivity|reflexivity].
Defined.
