(* ===== verification/Socks4.v ===== *)
(** * The SOCKS4 client (proxy/socks4a/socks4.go) *)
From S2P Require Import Prelude GoIO Strconv NetAddr Urls Socks5.
Local Open Scope Z_scope.

Definition socks4Version : byte := Byte.x04.
Definition socks4CommandConnect : byte := Byte.x01.
Definition socks4Null : byte := Byte.x00.
Definition socks4ReplyVersion : byte := Byte.x00.
Definition socks4Granted : byte := Byte.x5a.
Definition socks4Rejected : byte := Byte.x5b.
Definition socks4RejectedIdentdFailed : byte := Byte.x5c.
Definition socks4RejectedIdentdMismatch : byte := Byte.x5d.

Record socks4Proxy := Socks4Proxy { s4_hostPort : bytes; s4_username : bytes }.

(** [uri.Host] and [uri.User]. *)
Definition newSOCKS4 (uri_Host : bytes) (uri_User : option bytes) : socks4Proxy :=
  Socks4Proxy uri_Host (default [] uri_User).

Definition socks4ErrorToString (code : byte) : string :=
  if decide (code = socks4Rejected) then "request rejected or failed"
  else if decide (code = socks4RejectedIdentdFailed)
  then "request rejected becasue SOCKS server cannot connect to identd on the client"
  else if decide (code = socks4RejectedIdentdMismatch)
  then "request rejected because the client program and identd report different user-ids"
  else "unknown failure code " +:+ String.string_of_list_byte (appendHex (bval code)).

(** The request: version, command, port, address, user name, NUL. *)
Definition socks4_request (username ip4 : bytes) (port : Z) : bytes :=
  [socks4Version; socks4CommandConnect; to_byte (Z.shiftr port 8); to_byte port] ++ ip4 ++ username ++ [socks4Null].

(** What [Dial] does on the connection to the proxy, which it closes on an error. *)
Definition negotiate (s : socks4Proxy) (ip4 : bytes) (port : Z) : io conn unit :=
  _ ← send (socks4_request (s4_username s) ip4 port);
  resp ← recv 8;
  if negb (bool_decide (nth 0 resp Byte.x00 = socks4ReplyVersion))
  then throw (ErrMsg "proxy returned invalid SOCKS4 version")
  else if negb (bool_decide (nth 1 resp Byte.x00 = socks4Granted))
  then throw (ErrMsg ("proxy error: " +:+ socks4ErrorToString (nth 1 resp Byte.x00)))
  else mret tt.

(** The destination of a request. *)
Definition destination (network addr : bytes) : res (bytes * Z) :=
  if decide (network = s2b "tcp" \/ network = s2b "tcp4") then
    match SplitHostPort addr with
    | Ret (ipStr, portStr) =>
        match ParseIP ipStr with
        | None => Err (ErrMsg "failed to parse destination IP")
        | Some ip =>
            match To4 ip with
            | None => Err (ErrMsg "destination address is not IPv4")
            | Some ip4 =>
                match ParseUint 16 portStr with
                | Some port => Ret (ip4, port)
                | None => Err (ErrMsg "strconv.ParseUint")
                end
            end
        end
    | Err e => Err e
    | Panic p => Panic p
    end
  else Err (ErrMsg "invalid network type").

(** What a call of [Dial] returns and what became of the connection to the proxy. *)
Record dialed := Dialed { result : res conn; opened : bool; closed : bool }.

(** [forward] is the connection to the proxy, or the error of dialing it. *)
Definition Dial (s : socks4Proxy) (forward : res conn) (network addr : bytes) : dialed :=
  match destination network addr with
  | Ret (ip4, port) =>
      match forward with
      | Ret c =>
          match negotiate s ip4 port c with
          | (Ret _, c') => Dialed (Ret c') true false
          | (Err e, _) => Dialed (Err e) true true
          | (Panic p, _) => Dialed (Panic p) true false
          end
      | r => Dialed r false false
      end
  | Err e => Dialed (Err e) false false
  | Panic p => Dialed (Panic p) false false
  end.

(** ** The proxy's end of the protocol *)

(** How a SOCKS4 server reads a request: port, address, user name up to the NUL. *)
Definition decode_request (bs : bytes) : option (Z * bytes * bytes * bytes) :=
  match bs with
  | v :: c :: p1 :: p0 :: a :: b :: d :: e :: rest =>
      if decide (v = socks4Version /\ c = socks4CommandConnect) then
        match IndexByte rest socks4Null with
        | Some i => Some (be_get [p1; p0], [a; b; d; e], take i rest, drop (S i) rest)
        | None => None
        end
      else None
  | _ => None
  end.

Lemma port_bytes port : 0 <= port < 65536 -> be_get [to_byte (Z.shiftr port 8); to_byte port] = port.
Proof.
  intros H. rewrite !be_get_cons. unfold be_get, len. cbn [length fold_left].
  rewrite !bval_to_byte, Z.shiftr_div_pow2 by lia. change (2 ^ 8) with 256. cbn. mlia.
Qed.

Lemma decode_socks4_request username a b c d port rest :
  socks4Null ∉ username -> 0 <= port < 65536 ->
  decode_request (socks4_request username [a; b; c; d] port ++ rest) = Some (port, [a; b; c; d], username, rest).
Proof.
  intros Hu Hp. unfold socks4_request. rewrite <- !app_assoc. cbn [app decode_request].
  rewrite decide_True by done. rewrite IndexByte_app, port_bytes by done.
  by rewrite take_app_length, drop_S_app.
Qed.

Lemma destination_v4 a b d e port :
  0 <= port < 65536 ->
  destination (s2b "tcp") (JoinHostPort (String4 [a; b; d; e]) (Itoa port)) = Ret ([a; b; d; e], port).
Proof.
  intros Hp. destruct (Itoa_plain port) as (Pp & Pc & _); [lia|]. destruct (String4_plain a b d e) as [Sp Sc].
  unfold destination. rewrite decide_True by auto. unfold JoinHostPort. rewrite decide_False by done.
  by rewrite SplitHostPort_simple, ParseIP_String4, To4_mapped, ParseUint_Itoa by (done || lia).
Qed.

(** ** Properties *)

(** Dialing through a SOCKS4 proxy.  For an IPv4 destination in dotted form and
    any port, the proxy receives a request that it decodes to exactly that address and
    port and to the user name; the connection is handed over if and only if the proxy
    answers with version 0 and "granted", and then exactly the eight bytes of the answer
    have been consumed; on any other answer it is closed.  Host names and IPv6
    destinations are refused without contacting the proxy. *)
Theorem socks4_dial_spec s c a b d e port resp rest :
  socks4Null ∉ s4_username s -> 0 <= port < 65536 ->
  has_room (9 + length (s4_username s)) (c_out c) -> conn_in c = resp ++ rest -> length resp = 8%nat ->
  let D := Dial s (Ret c) (s2b "tcp") (JoinHostPort (String4 [a; b; d; e]) (Itoa port)) in
  (exists request, decode_request request = Some (port, [a; b; d; e], s4_username s, []) /\
     ((nth 0 resp Byte.x00 = socks4ReplyVersion /\ nth 1 resp Byte.x00 = socks4Granted /\
       exists c', D = Dialed (Ret c') true false /\ conn_in c' = rest /\
         w_out (c_out c') = w_out (c_out c) ++ request) \/
      (~ (nth 0 resp Byte.x00 = socks4ReplyVersion /\ nth 1 resp Byte.x00 = socks4Granted) /\
       exists err, D = Dialed (Err err) true true))) /\
  (forall forward dst host portStr, SplitHostPort dst = Ret (host, portStr) ->
     (ParseIP host = None ->
        Dial s forward (s2b "tcp") dst = Dialed (Err (ErrMsg "failed to parse destination IP")) false false) /\
     (forall ip, ParseIP host = Some ip -> To4 ip = None ->
        Dial s forward (s2b "tcp") dst = Dialed (Err (ErrMsg "destination address is not IPv4")) false false)).
Proof.
  intros Hu Hp Hr Hin Hl D. destruct (Itoa_plain port) as (Pp & Pc & _); [lia|]. split.
  - exists (socks4_request (s4_username s) [a; b; d; e] port). split.
    { rewrite <- (app_nil_r (socks4_request _ _ _)). by apply decode_socks4_request. }
    unfold D, Dial. rewrite destination_v4 by done. unfold negotiate.
    destruct (send_ok (socks4_request (s4_username s) [a; b; d; e] port) 0 c) as (c1 & E1 & I1 & O1 & _).
    { unfold socks4_request. rewrite !length_app. cbn [length]. eapply has_room_le; [exact Hr|lia]. }
    erewrite io_bind_ret by exact E1.
    assert (Hin1 : conn_in c1 = resp ++ rest) by (unfold conn_in; by rewrite I1).
    fr_go resp rest Hin1 c2 H2 S2.
    destruct (decide (nth 0 resp Byte.x00 = socks4ReplyVersion)) as [Hv|Hv];
      [rewrite bool_decide_true by done|rewrite bool_decide_false by done; right; split; [tauto|eauto]].
    destruct (decide (nth 1 resp Byte.x00 = socks4Granted)) as [Hg|Hg];
      [rewrite bool_decide_true by done|rewrite bool_decide_false by done; right; split; [tauto|eauto]].
    left. split_and!; [done|done|]. exists c2. split_and!; [done|exact H2|].
    by rewrite (proj2 S2), O1.
  - intros forward dst host portStr Hd. unfold Dial, destination. rewrite decide_True by auto. rewrite Hd.
    split; [by intros -> |by intros ip -> ->].
Qed.

Definition demo_proxy : socks4Proxy := newSOCKS4 (s2b "10.0.0.1:1080") (Some (s2b "me")).
Definition demo_answer : bytes := [Byte.x00; Byte.x5a; Byte.x00; Byte.x00; Byte.x00; Byte.x00; Byte.x00; Byte.x00].
Definition demo_proxy_conn : conn := Conn (Reader [demo_answer; s2b "hi"] EOF) (Writer [] None EOF).

Lemma socks4_dial_spec_witness :
  exists request, decode_request request = Some (80, [Byte.x01; Byte.x02; Byte.x03; Byte.x04], s2b "me", []) /\
    ((nth 0 demo_answer Byte.x00 = socks4ReplyVersion /\ nth 1 demo_answer Byte.x00 = socks4Granted /\
      exists c', Dial demo_proxy (Ret demo_proxy_conn) (s2b "tcp") (s2b "1.2.3.4:80") = Dialed (Ret c') true false /\
        conn_in c' = s2b "hi" /\ w_out (c_out c') = [] ++ request) \/
     (~ (nth 0 demo_answer Byte.x00 = socks4ReplyVersion /\ nth 1 demo_answer Byte.x00 = socks4Granted) /\
      exists err, Dial demo_proxy (Ret demo_proxy_conn) (s2b "tcp") (s2b "1.2.3.4:80") = Dialed (Err err) true true)).
Proof.
  refine (proj1 (socks4_dial_spec demo_proxy demo_proxy_conn Byte.x01 Byte.x02 Byte.x03 Byte.x04 80
    demo_answer (s2b "hi") _ _ _ _ _)); [|lia|exact I|vm_compute; reflexivity|reflexivity].
  apply (bool_decide_unpack _). vm_compute. exact I.
Defined.
