(* ===== verification/Stream.v ===== *)
(** * Stream targets (snowflake/common/standalone/stream.go, session.go, client.go)

    A multiplexed stream starts with its type and the target to dial.  [WriteTarget]
    and [ReadTarget] are the two ends; [handleInboundStream] and [handleLocalSocks] are
    what the server and the client do around them. *)
From S2P Require Import Prelude GoIO Strconv NetAddr Socks5.
Local Open Scope Z_scope.

Definition StreamClientDial : byte := Byte.x01.
Definition StreamServerDial : byte := Byte.x02.
Definition StreamForward : byte := Byte.x03.

Section Write.
Context {W : Type} `{IOWriter W}.

(** [if _, err := w.Write(p); err != nil { return err }] *)
Definition out (p : bytes) : io W unit := fun w =>
  match io_write p w with
  | (_, None, w') => (Ret tt, w')
  | (_, Some e, w') => (Err e, w')
  end.

(** The address [WriteTarget] sends for a host. *)
Definition addr_of (host : bytes) : wire_addr :=
  match ParseIP host with
  | Some ip =>
      match To4 ip with
      | Some v4 => AddrV4 v4
      | None => match To16 ip with Some v6 => AddrV6 v6 | None => AddrDomain host end
      end
  | None => AddrDomain host
  end.

Definition WriteTarget (streamType : byte) (target : Target) : io W unit :=
  _ ← out [streamType];
  if decide (streamType = StreamForward) then mret tt
  else
    let a := addr_of (tg_Host target) in
    _ ← out [atyp_of a];
    _ ← match a with
        | AddrV4 addr | AddrV6 addr => out addr
        | AddrDomain addr =>
            if (255 <? length addr)%nat then throw (ErrMsg "hostname too long")
            else _ ← out [to_byte (len addr)]; out addr
        end;
    out (be_put 2 (u16 (tg_Port target))).
End Write.

Definition ReadTarget : io reader (byte * Target) :=
  streamType ← ReadFull 1;
  let streamType := nth 0 streamType Byte.x00 in
  if decide (streamType = StreamForward) then mret (streamType, MkTarget [] [] 0)
  else
    atyp ← ReadFull 1;
    host ← read_host ReadFull (nth 0 atyp Byte.x00);
    portBytes ← ReadFull 2;
    mret (streamType, MkTarget (s2b "tcp") host (be_get portBytes)).

(** ** The server's end: handleInboundStream *)

(** What the handler does once it has read the head of a stream: the address it
    dials, if any; the stream is then copied to and from it. *)
Inductive inbound := DialTo (network addr : bytes) | Drop.

Definition handleInboundStream (ServerForwardSocks : bytes) : reader -> inbound * reader := fun r =>
  match ReadTarget r with
  | (Ret (streamType, target), r') =>
      (if decide (streamType = StreamClientDial) then DialTo (tg_Network target) (Addr target)
       else if decide (streamType = StreamForward) then
         if decide (ServerForwardSocks = []) then Drop else DialTo (s2b "tcp") ServerForwardSocks
       else Drop, r')
  | (_, r') => (Drop, r')
  end.

(** ** The client's end: OpenClientDial, OpenForward, handleLocalSocks *)

Section Client.
Context {W : Type} `{IOWriter W}.

(** [open] is what [sess.OpenStream()] returns; the result is the stream, or the
    error after closing it. *)
Definition OpenClientDial (open : res W) (target : Target) : res W :=
  match open with
  | Ret stream =>
      match WriteTarget StreamClientDial target stream with
      | (Ret _, stream') => Ret stream' | (Err e, _) => Err e | (Panic p, _) => Panic p
      end
  | Err e => Err e
  | Panic p => Panic p
  end.

Definition OpenForward (open : res W) : res W :=
  match open with
  | Ret stream =>
      match WriteTarget StreamForward (MkTarget [] [] 0) stream with
      | (Ret _, stream') => Ret stream' | (Err e, _) => Err e | (Panic p, _) => Panic p
      end
  | Err e => Err e
  | Panic p => Panic p
  end.

(** The outcome: the stream to copy to and from, or a closed connection. *)
Definition handleLocalSocks (open : res W) (c : conn) : option W * conn :=
  match HandshakeServer c with
  | (Ret target, c1) =>
      match OpenClientDial open target with
      | Ret stream =>
          match ReplyConnectSuccess c1 with
          | (Ret _, c2) => (Some stream, c2)
          | (_, c2) => (None, c2)
          end
      | _ => (None, (ReplyConnectFailed c1).2)
      end
  | (_, c1) => (None, c1)
  end.

(** A connection accepted by [ServeTunnelForward]: the stream to copy to and from, or
    a closed connection. *)
Definition handleForward (open : res W) : option W :=
  match OpenForward open with Ret stream => Some stream | _ => None end.
End Client.

Definition PickListenAddr (host : bytes) : bytes :=
  (if decide (host = []) then s2b "127.0.0.1" else host) ++ s2b ":0".

(** ** Canonical hosts *)

(** The host the other end sees: an IP address in its canonical spelling. *)
Definition canonical (host : bytes) : bytes := host_of (addr_of host).

(** An address is a valid IP address or the host itself. *)
Lemma addr_of_cases host : addr_ok (addr_of host) \/ addr_of host = AddrDomain host.
Proof.
  unfold addr_of. destruct (ParseIP host) as [ip|] eqn:E; [|by right]. left.
  apply ParseIP_length in E. unfold To4, To16. repeat case_decide; cbn; try lia.
  rewrite length_drop. lia.
Qed.

Lemma addr_of_ok host : (length host <= 255)%nat -> addr_ok (addr_of host).
Proof. intros Hl. by destruct (addr_of_cases host) as [?| ->]. Qed.

Lemma canonical_String4 a b c d : canonical (String4 [a; b; c; d]) = String4 [a; b; c; d].
Proof.
  unfold canonical, addr_of. rewrite ParseIP_String4, To4_mapped by done. cbn [host_of].
  unfold IP_String, To4. by rewrite decide_True.
Qed.

Lemma canonical_domain host : ParseIP host = None -> canonical host = host.
Proof. intros E. unfold canonical, addr_of. by rewrite E. Qed.

(** ** Lengths of printed addresses *)

Lemma length_appendHex x : (length (appendHex x) <= 4)%nat.
Proof. unfold appendHex. repeat case_match; cbn; lia. Qed.

Lemma length_join_groups gs : (length (join_groups gs) <= 5 * length gs)%nat.
Proof.
  induction gs as [|g [|g' gs] IH]; [cbn; lia|pose proof (length_appendHex g); cbn; lia|].
  change (join_groups (g :: g' :: gs)) with (appendHex g ++ colon :: join_groups (g' :: gs)).
  rewrite length_app. cbn [length] in *. pose proof (length_appendHex g). lia.
Qed.

Lemma length_groups_2 ip : (2 * length (groups ip) <= length ip)%nat.
Proof.
  assert (Hg : forall n ip, (length ip <= n)%nat -> (2 * length (groups ip) <= length ip)%nat).
  { induction n as [|n IH]; intros [|a [|b ip']]; cbn; try lia. intros Hl. specialize (IH ip'). lia. }
  by apply (Hg (length ip)).
Qed.

Lemma length_String6 ip : (length ip <= 16)%nat -> (length (String6 ip) <= 90)%nat.
Proof.
  intros Hl. pose proof (length_groups_2 ip) as Hg. unfold String6.
  destruct (best_run 0 (groups ip) None) as [[i l]|].
  - rewrite !length_app. pose proof (length_join_groups (take i (groups ip))) as H1.
    pose proof (length_join_groups (drop (i + l) (groups ip))) as H2.
    rewrite length_take in H1. rewrite length_drop in H2. cbn [length]. lia.
  - pose proof (length_join_groups (groups ip)). lia.
Qed.

Lemma length_Itoa_byte a : (length (Itoa (bval a)) <= 3)%nat.
Proof. destruct a; vm_compute; lia. Qed.

Lemma length_String4 ip : (length (String4 ip) <= 15)%nat.
Proof.
  unfold String4. repeat case_match; try (cbn; lia). subst.
  repeat (rewrite length_app; cbn [length]).
  pose proof (length_Itoa_byte b). pose proof (length_Itoa_byte b0). pose proof (length_Itoa_byte b1).
  pose proof (length_Itoa_byte b2). lia.
Qed.

Lemma host_of_length a : addr_ok a -> (length (host_of a) <= 255)%nat.
Proof.
  destruct a as [ip|name|ip]; cbn; intros Hl; [|done|]; unfold IP_String;
    (destruct (To4 ip) as [v4|]; [pose proof (length_String4 v4); lia|]);
    pose proof (length_String6 ip); lia.
Qed.

(** ** The two ends agree *)

(** The bytes of a stream's head. *)
Definition target_bytes (streamType : byte) (target : Target) : bytes :=
  streamType ::
  if decide (streamType = StreamForward) then []
  else encode_addr (addr_of (tg_Host target)) ++ be_put 2 (u16 (tg_Port target)).

(** The target the reader of such a head gets. *)
Definition target_seen (streamType : byte) (target : Target) : Target :=
  if decide (streamType = StreamForward) then MkTarget [] [] 0
  else MkTarget (s2b "tcp") (canonical (tg_Host target)) (u16 (tg_Port target)).

Section Laws.
Context {W : Type} {HW : IOWriter W} {laws : IOWriterLaws W}.

Lemma out_inv p w u w' :
  io_good w -> out p w = (Ret u, w') -> io_sent w' = io_sent w ++ p /\ io_good w'.
Proof.
  intros Hg. unfold out. destruct (io_write p w) as [[n [e|]] w1] eqn:E; [done|]. intros [= _ <-].
  by apply io_write_all in E as (_ & ? & ?).
Qed.

(** What a successful [WriteTarget] has written; it refuses long host names. *)
Lemma WriteTarget_inv streamType target w u w' :
  io_good w -> WriteTarget streamType target w = (Ret u, w') ->
  io_sent w' = io_sent w ++ target_bytes streamType target /\ io_good w' /\
  (streamType <> StreamForward -> addr_ok (addr_of (tg_Host target))).
Proof.
  intros Hg. unfold WriteTarget, target_bytes.
  intros (u1 & w1 & E1 & E)%io_bind_inv. apply out_inv in E1 as [S1 G1]; [|done].
  case_decide as Hf; [injection E as <- <-; by rewrite S1|].
  apply io_bind_inv in E as (u2 & w2 & E2 & E). apply out_inv in E2 as [S2 G2]; [|done].
  apply io_bind_inv in E as (u3 & w3 & E3 & E). set (a := addr_of (tg_Host target)) in *.
  assert (H3 : io_sent w3 = io_sent w2 ++ addr_tail a /\ io_good w3 /\ addr_ok a).
  { assert (Hok : addr_ok a \/ a = AddrDomain (tg_Host target)) by apply addr_of_cases.
    destruct a as [ip|name|ip].
    1, 3: apply out_inv in E3 as [? ?]; [|done]; destruct Hok; done.
    destruct (Nat.ltb_spec 255 (length name)); [done|].
    apply io_bind_inv in E3 as (u4 & w4 & E4 & E5). apply out_inv in E4 as [S4 G4]; [|done].
    apply out_inv in E5 as [S5 G5]; [|done]. cbn. rewrite S5, S4, <- app_assoc. done. }
  destruct H3 as (S3 & G3 & Hok). apply out_inv in E as [S4 G4]; [|done].
  split_and!; [|done|done]. rewrite S4, S3, S2, S1, encode_addr_eq.
  generalize (be_put 2 (u16 (tg_Port target))). intros pb. cbn. by rewrite <- !app_assoc.
Qed.
End Laws.

Lemma ReadTarget_ok streamType target suf e r :
  (streamType <> StreamForward -> addr_ok (addr_of (tg_Host target))) ->
  delivers (target_bytes streamType target ++ suf) e r ->
  exists r', ReadTarget r = (Ret (streamType, target_seen streamType target), r') /\ delivers suf e r'.
Proof.
  intros Ha (Hin & He & Hn). unfold target_bytes in Hin. unfold ReadTarget, target_seen.
  fr_go [streamType] ((if decide (streamType = StreamForward) then []
    else encode_addr (addr_of (tg_Host target)) ++ be_put 2 (u16 (tg_Port target))) ++ suf) Hin r1 H1 S1.
  cbn [nth]. case_decide as Hf.
  { exists r1. split; [done|]. destruct S1 as [S1 S1']. split_and!; [done|congruence|auto]. }
  rewrite encode_addr_eq in H1. set (a := addr_of (tg_Host target)) in *.
  pose proof (be_get_put 2 (u16 (tg_Port target))) as Ep. pose proof (length_be_put 2 (u16 (tg_Port target))) as Lp.
  generalize dependent (be_put 2 (u16 (tg_Port target))). intros pb Hin H1 Ep Lp.
  assert (H1' : flat r1 = [atyp_of a] ++ addr_tail a ++ pb ++ suf) by (rewrite app_assoc; etransitivity; [exact H1|];
    cbn; by rewrite <- app_assoc).
  fr_go [atyp_of a] (addr_tail a ++ pb ++ suf) H1' r2 H2 S2. cbn [nth].
  destruct (read_host_ok ReadFull a (pb ++ suf) r2 (Ha Hf) H2) as (r3 & E3 & H3 & S3).
  erewrite io_bind_ret by exact E3. fr_go pb suf H3 r4 H4 S4. exists r4. split.
  - rewrite Ep. unfold u16, canonical. fold a. change (2 ^ (8 * Z.of_nat 2)) with (2 ^ 16). by rewrite Zmod_mod.
  - assert (S04 : same_source r r4) by (etransitivity; [exact S1|]; etransitivity; [exact S2|];
      etransitivity; [exact S3|exact S4]).
    destruct S04 as [S5 S6]. split_and!; [exact H4|congruence|auto].
Qed.

Lemma out_ok p (w : writer) :
  has_room (length p) w -> out p w = (Ret tt, Writer (w_out w ++ p) (used (length p) (w_room w)) (w_err w)).
Proof. intros Hr. unfold out, io_write, writer_IOWriter. by rewrite write_ok. Qed.

(** A writer with enough room accepts every head but that of a long host name. *)
Definition target_ok (streamType : byte) (target : Target) : Prop :=
  streamType = StreamForward \/ addr_ok (addr_of (tg_Host target)).

#[export] Instance addr_ok_dec a : Decision (addr_ok a).
Proof. destruct a; apply _. Defined.
#[export] Instance target_ok_dec streamType target : Decision (target_ok streamType target).
Proof. unfold target_ok. apply _. Defined.

Lemma out_bind_ok {B} p k (f : unit -> io writer B) (w : writer) :
  has_room (length p + k) w ->
  exists w', (out p ≫= f) w = f tt w' /\ has_room k w' /\ w_out w' = w_out w ++ p.
Proof.
  intros Hr. exists (Writer (w_out w ++ p) (used (length p) (w_room w)) (w_err w)).
  split_and!; [|destruct w; by apply has_room_used in Hr as [_ ?]|done].
  erewrite io_bind_ret; [done|]. apply out_ok. eapply has_room_le; [exact Hr|lia].
Qed.

(** ... applied to the first write of the goal, leaving room for [k] bytes. *)
Ltac out_go k w1 R1 :=
  match goal with |- context [(mbind ?f (out ?p)) ?s] =>
    let E := fresh "E" in let O := fresh "O" in
    destruct (out_bind_ok p k f s) as (w1 & E & R1 & O);
    [eapply has_room_le; [eassumption|cbn [length]; lia]|rewrite E; clear E]
  end.

Lemma WriteTarget_ok streamType target (w : writer) :
  has_room 260 w -> target_ok streamType target -> exists w', WriteTarget streamType target w = (Ret tt, w').
Proof.
  intros Hr Hok. unfold WriteTarget. out_go 259%nat w1 R1. case_decide as Hf; [eauto|].
  destruct Hok as [?|Ha]; [done|]. out_go 258%nat w2 R2. pose proof (length_be_put 2 (u16 (tg_Port target))) as Lp.
  assert (Hend : forall w3, has_room 2 w3 -> exists w', out (be_put 2 (u16 (tg_Port target))) w3 = (Ret tt, w')).
  { intros w3 R3. rewrite out_ok by (by rewrite Lp). eauto. }
  destruct (addr_of (tg_Host target)) as [ip|name|ip]; cbn [addr_ok] in Ha.
  1, 3: out_go 2%nat w3 R3; by apply Hend.
  destruct (Nat.ltb_spec 255 (length name)); [lia|].
  assert (Hname : exists w4, (_ ← out [to_byte (len name)]; out name) w2 = (Ret tt, w4) /\ has_room 2 w4).
  { out_go 257%nat w3 R3. destruct w3 as [o3 r3 e3]. eexists. split.
    - apply out_ok. eapply has_room_le; [exact R3|lia].
    - apply (has_room_used (length name)). eapply has_room_le; [exact R3|lia]. }
  destruct Hname as (w4 & E4 & R4). erewrite io_bind_ret by exact E4. by apply Hend.
Qed.

Lemma WriteTarget_long streamType target (w : writer) :
  has_room 260 w -> ~ target_ok streamType target ->
  exists w', WriteTarget streamType target w = (Err (ErrMsg "hostname too long"), w').
Proof.
  intros Hr Hok. unfold WriteTarget. out_go 259%nat w1 R1. unfold target_ok in Hok.
  rewrite decide_False by tauto. out_go 258%nat w2 R2.
  destruct (addr_of_cases (tg_Host target)) as [Ha|Ha]; [tauto|]. rewrite Ha in *. cbn [addr_ok] in Hok.
  rewrite (proj2 (Nat.ltb_lt _ _)) by lia. eauto.
Qed.

(** ** Properties *)

(** The head of a stream survives the wire.  Whatever [WriteTarget]
    has written when it succeeds, over any writer, [ReadTarget] reads back from a stream
    that delivers it, whatever the segmentation and whatever follows: the same stream
    type and, unless it is a forward, the host in canonical form and the port modulo
    2^16; exactly the head is consumed, so the payload follows intact.  With room for the
    head it fails only on a host name of more than 255 bytes. *)
Theorem stream_target_roundtrip {W} {HW : IOWriter W} {laws : IOWriterLaws W} streamType target :
  (forall (w : W) u w', io_good w -> WriteTarget streamType target w = (Ret u, w') ->
   exists head, io_sent w' = io_sent w ++ head /\
     forall payload e r, delivers (head ++ payload) e r ->
       exists r', ReadTarget r = (Ret (streamType, target_seen streamType target), r') /\
         delivers payload e r') /\
  (forall w0 : writer, has_room 260 w0 ->
     match WriteTarget streamType target w0 with
     | (Ret _, _) => target_ok streamType target
     | (Err err, _) => err = ErrMsg "hostname too long" /\ (255 < length (tg_Host target))%nat
     | (Panic _, _) => False
     end).
Proof.
  split.
  - intros w u w' Hg E. apply WriteTarget_inv in E as (Hs & _ & Ha); [|done]. exists (target_bytes streamType target).
    split; [done|]. intros payload e r. by apply ReadTarget_ok.
  - intros w0 Hr. destruct (decide (target_ok streamType target)) as [Hok|Hok].
    + destruct (WriteTarget_ok streamType target w0 Hr Hok) as [w1 ->]. done.
    + destruct (WriteTarget_long streamType target w0 Hr Hok) as [w1 ->]. split; [done|].
      apply Nat.nle_gt. intros Hl. apply Hok. right. by apply addr_of_ok.
Qed.

Definition demo_target : Target := MkTarget (s2b "tcp") (s2b "10.0.0.7") 8080.

Lemma stream_target_roundtrip_witness :
  exists head, w_out (WriteTarget StreamClientDial demo_target (Writer [] None EOF)).2 = [] ++ head /\
    forall payload e r, delivers (head ++ payload) e r ->
      exists r', ReadTarget r = (Ret (StreamClientDial, target_seen StreamClientDial demo_target), r') /\
        delivers payload e r'.
Proof.
  refine (proj1 (stream_target_roundtrip StreamClientDial demo_target) (Writer [] None EOF) tt
    (WriteTarget StreamClientDial demo_target (Writer [] None EOF)).2 I _).
  vm_compute. reflexivity.
Defined.


