(* ===== verification/Dns.v ===== *)
(** * The tunneled DNS resolver (dpi/client/dns_resolver.go)

    Names are resolved by DNS queries sent through the tunnel; answers are cached.  DNS
    messages (miekg/dns) and the tunnel below are interfaces.  Times are nanoseconds. *)
From S2P Require Import Prelude GoIO Strconv Socks5.
From stdpp Require Import gmultiset.
Local Open Scope Z_scope.

(** ** The interfaces *)

(** An answer record: its header's TTL (no header: [None]) and, for an A record, its
    address. *)
Record RR := MkRR { rr_Ttl : option Z; rr_A : option bytes }.

(** miekg/dns: names, messages and their wire form. *)
Class DnsLib (Msg : Type) := {
  Fqdn : bytes -> bytes;
  SetQuestion : bytes -> Msg; (* type A, recursion desired *)
  Pack : Msg -> res bytes;
  Unpack : bytes -> res Msg;
  Answer : Msg -> list RR }.

(** The TTLs of a list of answers. *)
Definition ttls (answers : list RR) : list Z := omap rr_Ttl answers.

(** [dns.Fqdn] adds the final dot where it is missing (a name without escapes); a TTL is
    a [uint32]. *)
Class DnsLaws (Msg : Type) `{DnsLib Msg} := {
  Fqdn_ok s : Byte.x5c ∉ s -> Fqdn s = if HasSuffix s (s2b ".") then s else s ++ s2b ".";
  Ttl_u32 m : Forall (fun h => 0 <= h < 2 ^ 32) (ttls (Answer m)) }.

(** The tunnel: [transport.Connect], [newTunnelConn], [transport.CloseConn], and
    [Close] on a connection made by [newTunnelConn]. *)
Class Tunnel (T : Type) := {
  tn_Connect : bytes -> bytes -> io T Z;
  tn_newTunnelConn : Z -> io T conn;
  tn_CloseConn : Z -> T -> T;
  tn_Close : Z -> T -> T }.

(** ** The resolver *)

Record dnsCacheEntry := CacheEntry { ce_ip : bytes; ce_expires : Z }.

Record tunneledResolver := Resolver {
  tr_network : bytes;
  tr_upstream : bytes;
  tr_timeout : Z;
  tr_cache : gmap bytes dnsCacheEntry }.

Definition Second : Z := 1000000000.
Definition Minute : Z := 60 * Second.

Definition newTunneledResolver (network upstream : bytes) : tunneledResolver :=
  Resolver (if decide (network = s2b "tcp" \/ network = s2b "udp") then network else s2b "tcp")
    upstream (10 * Second) ∅.

Definition set_cache r c := Resolver (tr_network r) (tr_upstream r) (tr_timeout r) c.
Definition set_timeout r t := Resolver (tr_network r) (tr_upstream r) t (tr_cache r).

Definition cacheLookup (now : Z) (name : bytes) (r : tunneledResolver) : option bytes * tunneledResolver :=
  match tr_cache r !! name with
  | None => (None, r)
  | Some entry =>
      if ce_expires entry <? now then (None, set_cache r (delete name (tr_cache r)))
      else (Some (ce_ip entry), r)
  end.

Definition cacheStore (now : Z) (name ip : bytes) (ttlSeconds : Z) (r : tunneledResolver) : tunneledResolver :=
  let ttl := ttlSeconds * Second in
  let ttl := if ttl <=? 0 then 60 * Second else ttl in
  let ttl := if 5 * Minute <? ttl then 5 * Minute else ttl in
  set_cache r (<[name := CacheEntry ip (now + ttl)]> (tr_cache r)).

(** The loop of [minTTLSeconds]. *)
Fixpoint minTTL_loop (ttl : Z) (answers : list RR) : Z :=
  match answers with
  | [] => ttl
  | ans :: answers' =>
      match rr_Ttl ans with
      | None => minTTL_loop ttl answers'
      | Some h => minTTL_loop (if (ttl =? 0) || (h <? ttl) then h else ttl) answers'
      end
  end.

Definition minTTLSeconds (answers : list RR) (fallback : Z) : Z :=
  let ttl := minTTL_loop 0 answers in
  if ttl =? 0 then fallback else ttl.

Definition tunnelNetwork (network : bytes) : res bytes :=
  if decide (network ∈ [s2b "tcp"; s2b "tcp4"; s2b "tcp6"]) then Ret (s2b "tcp")
  else if decide (network ∈ [s2b "udp"; s2b "udp4"; s2b "udp6"]) then Ret (s2b "udp")
  else Err (ErrMsg "tunneled dial: unsupported network").

(** What the [select] that waits for the reply gets first. *)
Inductive wake := CtxDone (e : error) | Timer | Reply.

(** A result that does not depend on the connection. *)
Definition lift {S A} (r : res A) : io S A := fun s => (r, s).

Section Exchange.
Context {Msg : Type} `{DnsLib Msg}.

(** The reading goroutine of [exchangeTCP]. *)
Definition readReplyTCP : io conn Msg :=
  lenBuf ← recv 2;
  let respLen := be_get lenBuf in
  if respLen =? 0 then throw (ErrMsg "empty DNS TCP response")
  else
    respBuf ← recv (Z.to_nat respLen);
    lift (Unpack respBuf).

Definition exchangeTCP (w : wake) (query : bytes) : io conn Msg :=
  if 0xffff <? len query then throw (ErrMsg "DNS query too large for TCP")
  else
    _ ← send (be_put 2 (len query) ++ query);
    match w with
    | CtxDone e => throw e
    | Timer => throw (ErrMsg "DNS query timed out")
    | Reply => readReplyTCP
    end.

(** [dns.MaxMsgSize] *)
Definition MaxMsgSize : nat := Z.to_nat 65535.

(** The reading goroutine of [exchangeUDP]: a single [Read]. *)
Definition readReplyUDP : io conn Msg := fun c =>
  match read MaxMsgSize (c_in c) with
  | (_, Some e, rd) => (Err e, Conn rd (c_out c))
  | (buf, None, rd) => (Unpack buf, Conn rd (c_out c))
  end.

Definition exchangeUDP (w : wake) (query : bytes) : io conn Msg :=
  _ ← send query;
  match w with
  | CtxDone e => throw e
  | Timer => throw (ErrMsg "DNS query timed out")
  | Reply => readReplyUDP
  end.

Context {T : Type} `{Tunnel T}.

(** [remaining]: [time.Until(deadline)] if the context has a deadline. *)
Definition exchange (remaining : option Z) (w : wake) (msg : Msg) (r : tunneledResolver) (t : T)
  : res Msg * tunneledResolver * T :=
  let r :=
    match remaining with
    | Some d => if (0 <? d) && (d <? tr_timeout r) then set_timeout r d else r
    | None => r
    end in
  match tn_Connect (tr_network r) (tr_upstream r) t with
  | (Ret connID, t1) =>
      match tn_newTunnelConn connID t1 with
      | (Ret tc, t2) =>
          (match Pack msg with
           | Ret query =>
               if decide (tr_network r = s2b "tcp") then (exchangeTCP w query tc).1
               else (exchangeUDP w query tc).1
           | Err e => Err e
           | Panic p => Panic p
           end, r, tn_Close connID t2)
      | (Err e, t2) => (Err e, r, tn_CloseConn connID t2)
      | (Panic p, t2) => (Panic p, r, t2)
      end
  | (Err e, t1) => (Err e, r, t1)
  | (Panic p, t1) => (Panic p, r, t1)
  end.

(** [strings.ToLower]: bytewise on ASCII; [lower_rune] is the Unicode mapping the
    library applies to a string with other characters. *)
Definition is_ascii (b : byte) : bool := bval b <? 128.
Definition lower (b : byte) : byte := if (65 <=? bval b) && (bval b <=? 90) then to_byte (bval b + 32) else b.

Context (lower_rune : bytes -> bytes).

Definition ToLower (s : bytes) : bytes := if forallb is_ascii s then lower <$> s else lower_rune s.

Definition cacheKey (name : bytes) : bytes := ToLower (TrimSuffix (Fqdn name) (s2b ".")).

(** The first A record. *)
Fixpoint first_A (answers : list RR) : option bytes :=
  match answers with
  | [] => None
  | ans :: answers' => match rr_A ans with Some a => Some a | None => first_A answers' end
  end.

(** [now] and [now'] are the clock at the cache lookup and at the cache store. *)
Definition Resolve (now now' : Z) (remaining : option Z) (w : wake) (name : bytes) (r : tunneledResolver) (t : T)
  : res bytes * tunneledResolver * T :=
  let key := cacheKey name in
  match cacheLookup now key r with
  | (Some ip, r1) => (Ret ip, r1, t)
  | (None, r1) =>
      match exchange remaining w (SetQuestion (Fqdn name)) r1 t with
      | (Ret reply, r2, t2) =>
          match first_A (Answer reply) with
          | Some a => (Ret a, cacheStore now' key a (minTTLSeconds (Answer reply) 60) r2, t2)
          | None => (Err (ErrMsg "no A record found"), r2, t2)
          end
      | (Err e, r2, t2) => (Err e, r2, t2)
      | (Panic p, r2, t2) => (Panic p, r2, t2)
      end
  end.

(** [tunnelDialContext]: dialing for the SOCKS server. *)
Definition tunnelDialContext (network addr : bytes) : io T conn := fun t =>
  match tunnelNetwork network with
  | Ret tunnelNet =>
      match tn_Connect tunnelNet addr t with
      | (Ret connID, t1) => tn_newTunnelConn connID t1
      | (Err e, t1) => (Err e, t1)
      | (Panic p, t1) => (Panic p, t1)
      end
  | Err e => (Err e, t)
  | Panic p => (Panic p, t)
  end.
End Exchange.

(** ** Lemmas *)

(** How long an entry lives. *)
Definition lifetime (ttlSeconds : Z) : Z :=
  if ttlSeconds =? 0 then 60 * Second else Z.min ttlSeconds 300 * Second.

Lemma cacheStore_eq now name ip ttl r :
  0 <= ttl ->
  cacheStore now name ip ttl r = set_cache r (<[name := CacheEntry ip (now + lifetime ttl)]> (tr_cache r)).
Proof.
  intros Ht. unfold cacheStore. cbv zeta. set (x := if 5 * Minute <? _ then _ else _).
  assert (x = lifetime ttl) as -> by (unfold x, lifetime, Minute, Second;
    destruct (Z.leb_spec (ttl * 1000000000) 0); zcases; lia). done.
Qed.

Lemma lifetime_bounds ttl : 0 <= ttl -> Second <= lifetime ttl <= 5 * Minute.
Proof. intros Ht. unfold lifetime, Minute, Second. zcases; lia. Qed.

Lemma cacheLookup_store now t name name' ip ttl r :
  0 <= ttl ->
  (cacheLookup t name' (cacheStore now name ip ttl r)).1 =
  if decide (name' = name) then if now + lifetime ttl <? t then None else Some ip
  else (cacheLookup t name' r).1.
Proof.
  intros Ht. rewrite cacheStore_eq by done. unfold cacheLookup. cbn [tr_cache set_cache].
  rewrite lookup_insert. destruct (decide (name = name')) as [<-|Hne].
  - rewrite decide_True by done. cbn. by destruct (_ <? _).
  - rewrite decide_False by done. destruct (tr_cache r !! name'); [by destruct (_ <? _)|done].
Qed.

Lemma minTTL_loop_min answers ttl :
  0 < ttl -> Forall (fun h => 0 < h) (ttls answers) ->
  minTTL_loop ttl answers = foldr Z.min ttl (ttls answers) /\ 0 < minTTL_loop ttl answers.
Proof.
  revert ttl. induction answers as [|[[h|] a] answers IH]; intros ttl Ht Hall; [done| |by apply IH].
  cbn in Hall. apply Forall_cons_1 in Hall as [Hh Hall]. cbn beta in Hh. cbn [minTTL_loop rr_Ttl].
  destruct (IH (if (ttl =? 0) || (h <? ttl) then h else ttl)) as [E Hp]; [zcases; cbn; lia|done|].
  split; [|done]. rewrite E. unfold ttls. cbn [omap list_omap rr_Ttl foldr].
  clear -Ht. generalize (omap rr_Ttl answers). intros l. assert (Hm : (if (ttl =? 0) || (h <? ttl) then h else ttl) = Z.min h ttl)
    by (zcases; cbn; lia). rewrite Hm. induction l as [|x l IHl]; cbn [foldr]; lia.
Qed.

Lemma minTTLSeconds_min answers fallback h hs :
  ttls answers = h :: hs -> Forall (fun h => 0 < h) (ttls answers) ->
  minTTLSeconds answers fallback = foldr Z.min h hs.
Proof.
  unfold minTTLSeconds. revert h hs. induction answers as [|[[h0|] a] answers IH]; intros h hs E Hall;
    [done| |by apply IH].
  unfold ttls in E, Hall. cbn in E, Hall. injection E as -> <-. apply Forall_cons_1 in Hall as [Hh Hall].
  cbn [minTTL_loop rr_Ttl]. change ((0 =? 0) || (h <? 0)) with true. cbv iota.
  destruct (minTTL_loop_min answers h Hh Hall) as [-> Hp]. cbn beta in Hp.
  destruct (minTTL_loop_min answers h Hh Hall) as [E' Hp']. rewrite E' in Hp'.
  change (list_omap RR Z rr_Ttl answers) with (ttls answers). zcases; [lia|done].
Qed.

Lemma minTTLSeconds_nonneg answers fallback :
  Forall (fun h => 0 <= h) (ttls answers) -> 0 <= fallback -> 0 <= minTTLSeconds answers fallback.
Proof.
  intros Hall Hf. unfold minTTLSeconds. assert (Hl : forall l ttl, 0 <= ttl -> Forall (fun h => 0 <= h) (ttls l) ->
    0 <= minTTL_loop ttl l).
  { induction l as [|[[h|] a] l IH]; intros ttl Ht H; [done| |by apply IH].
    cbn in H. apply Forall_cons_1 in H as [Hh H]. cbn. apply IH; [destruct (_ || _); done|done]. }
  specialize (Hl answers 0 ltac:(lia) Hall). zcases; lia.
Qed.

Section Laws.
Context {Msg : Type} {HD : DnsLib Msg} {laws : DnsLaws Msg} (lower_rune : bytes -> bytes).

Lemma Ttl_nonneg m : Forall (fun h => 0 <= h) (ttls (Answer m)).
Proof. eapply Forall_impl; [|exact (Ttl_u32 m)]. cbn. lia. Qed.

Lemma HasSuffix_dot s : HasSuffix (s ++ s2b ".") (s2b ".") = true.
Proof. unfold HasSuffix, HasPrefix. rewrite rev_app_distr. by destruct (rev s). Qed.

Lemma TrimSuffix_dot s : TrimSuffix (s ++ s2b ".") (s2b ".") = s.
Proof.
  unfold TrimSuffix, TrimPrefix. rewrite rev_app_distr. cbn. apply rev_involutive.
Qed.

(** A name and the same name with its final dot have the same key. *)
Lemma cacheKey_dot name :
  Byte.x5c ∉ name -> HasSuffix name (s2b ".") = false ->
  cacheKey lower_rune (name ++ s2b ".") = cacheKey lower_rune name.
Proof.
  intros Hb Hs. unfold cacheKey. rewrite !Fqdn_ok; [|done|].
  - by rewrite Hs, HasSuffix_dot.
  - intros [?|Hd]%elem_of_app; [done|]. apply list_elem_of_singleton in Hd. done.
Qed.

Lemma lower_idem b : lower (lower b) = lower b.
Proof. byte_cases b. Qed.
Lemma lower_ascii b : is_ascii b = true -> is_ascii (lower b) = true.
Proof. byte_cases b. Qed.
Lemma lower_special b : (lower b = Byte.x2e <-> b = Byte.x2e) /\ (lower b = Byte.x5c <-> b = Byte.x5c).
Proof. byte_cases b. Qed.

Lemma TrimSuffix_dot_rev s :
  TrimSuffix s (s2b ".") = match rev s with b :: s' => if decide (b = Byte.x2e) then rev s' else s | [] => s end.
Proof.
  unfold TrimSuffix, TrimPrefix. destruct (rev s) as [|b s'] eqn:E; cbn; [by rewrite <- (rev_involutive s), E|].
  destruct (decide (Byte.x2e = b)) as [<-|Hne]; [done|]. rewrite decide_False by congruence.
  cbn. change (rev s' ++ [b]) with (rev (b :: s')). by rewrite <- E, rev_involutive.
Qed.

Lemma HasSuffix_dot_rev s :
  HasSuffix s (s2b ".") = match rev s with b :: _ => bool_decide (b = Byte.x2e) | [] => false end.
Proof.
  unfold HasSuffix, HasPrefix. destruct (rev s) as [|b s']; [done|]. cbn.
  destruct (decide (Byte.x2e = b)) as [<-|Hne]; [done|]. by rewrite bool_decide_false by congruence.
Qed.

Lemma forallb_TrimSuffix f s : forallb f s = true -> forallb f (TrimSuffix s (s2b ".")) = true.
Proof.
  intros Hs. rewrite TrimSuffix_dot_rev. destruct (rev s) as [|b s'] eqn:E; [done|]. case_decide; [|done].
  assert (s = rev s' ++ [b]) as -> by (change (rev s' ++ [b]) with (rev (b :: s')); by rewrite <- E, rev_involutive).
  rewrite forallb_app in Hs. by apply andb_true_iff in Hs as [? _].
Qed.

(** The key of an ordinary name: lower case, without the final dot. *)
Lemma cacheKey_ascii name :
  Byte.x5c ∉ name -> forallb is_ascii name = true ->
  cacheKey lower_rune name = lower <$> TrimSuffix name (s2b ".").
Proof.
  intros Hb Ha. unfold cacheKey, ToLower. rewrite Fqdn_ok by done.
  assert (E : TrimSuffix (if HasSuffix name (s2b ".") then name else name ++ s2b ".") (s2b ".")
    = TrimSuffix name (s2b ".")).
  { destruct (HasSuffix name (s2b ".")) eqn:Hs; [done|]. rewrite TrimSuffix_dot, TrimSuffix_dot_rev.
    rewrite HasSuffix_dot_rev in Hs. destruct (rev name) as [|b s'] eqn:E; [done|].
    rewrite decide_False; [done|]. by apply bool_decide_eq_false in Hs. }
  rewrite E. by rewrite forallb_TrimSuffix.
Qed.

Lemma cacheKey_case name :
  Byte.x5c ∉ name -> forallb is_ascii name = true ->
  cacheKey lower_rune (lower <$> name) = cacheKey lower_rune name.
Proof.
  intros Hb Ha. assert (Hb' : Byte.x5c ∉ lower <$> name).
  { intros (b & E & Hin)%list_elem_of_fmap. symmetry in E. apply lower_special in E as ->. done. }
  assert (Ha' : forallb is_ascii (lower <$> name) = true).
  { clear -Ha. induction name as [|b name IH]; [done|]. cbn in *. apply andb_true_iff in Ha as [H1 H2].
    by rewrite lower_ascii, IH. }
  rewrite !cacheKey_ascii by done. rewrite !TrimSuffix_dot_rev.
  replace (rev (lower <$> name)) with (lower <$> rev name) by apply map_rev.
  assert (Hid : forall s : bytes, lower <$> (lower <$> s) = lower <$> s).
  { intros s. rewrite <- list_fmap_compose. apply list_fmap_ext. intros _ b _. apply lower_idem. }
  destruct (rev name) as [|b s']; cbn; [apply Hid|].
  destruct (decide (b = Byte.x2e)) as [->|Hne].
  - rewrite decide_True by done. rewrite <- (Hid (rev s')). f_equal. symmetry. apply map_rev.
  - rewrite decide_False; [apply Hid|]. intros E. by apply (proj1 (lower_special b)) in E.
Qed.
End Laws.

(** The goroutine that reads a reply, on a stream that begins with one. *)
Lemma readReplyTCP_ok {Msg} {HD : DnsLib Msg} resp rest c :
  length (be_put 2 (len resp)) = 2%nat -> be_get (be_put 2 (len resp)) = len resp ->
  conn_in c = be_put 2 (len resp) ++ resp ++ rest ->
  exists c', readReplyTCP c =
      (if len resp =? 0 then Err (ErrMsg "empty DNS TCP response") else Unpack resp, c') /\
    conn_in c' = rest /\ c_out c' = c_out c.
Proof.
  intros L G Hin. unfold readReplyTCP. generalize dependent (be_put 2 (len resp)). intros pb L G Hin.
  fr_go pb (resp ++ rest) Hin c1 H1 S1. rewrite G. destruct (Z.eqb_spec (len resp) 0) as [E|E].
  - exists c1. split; [done|]. destruct resp; [|unfold len in E; cbn in E; lia].
    split; [exact H1|apply S1].
  - unfold len. rewrite Nat2Z.id. fr_go resp rest H1 c2 H2 S2. exists c2. split; [done|].
    split; [exact H2|]. transitivity (c_out c1); [apply S2|apply S1].
Qed.

(** ** The tunnel's connections *)

(** [opened t]: the tunnel connections that were connected and not closed; [ready n t]:
    the tunnel can make [n] more requests.  [DpiDial] shows that the transport has these
    properties. *)
Class TunnelLaws (T : Type) `{Tunnel T} := {
  opened : T -> gmultiset Z;
  ready : nat -> T -> Prop;
  Connect_ok n network addr t id t' :
    ready (S n) t -> tn_Connect network addr t = (Ret id, t') -> opened t' = {[+ id +]} ⊎ opened t /\ ready n t';
  Connect_err n network addr t e t' : ready (S n) t -> tn_Connect network addr t = (Err e, t') -> opened t' = opened t;
  Connect_panic n network addr t p t' : ready (S n) t -> tn_Connect network addr t <> (Panic p, t');
  newTunnelConn_opened n id t :
    ready (S n) t -> opened (tn_newTunnelConn id t).2 = opened t /\ ready n (tn_newTunnelConn id t).2;
  newTunnelConn_panic n id t p t' : ready (S n) t -> tn_newTunnelConn id t <> (Panic p, t');
  CloseConn_opened n id t : ready (S n) t -> id ∈ opened t -> opened (tn_CloseConn id t) = opened t ∖ {[+ id +]};
  Close_opened n id t : ready (S n) t -> id ∈ opened t -> opened (tn_Close id t) = opened t ∖ {[+ id +]} }.

Lemma open_close (id : Z) (o : gmultiset Z) : ({[+ id +]} ⊎ o) ∖ {[+ id +]} = o.
Proof. multiset_solver. Qed.
Lemma open_in (id : Z) (o : gmultiset Z) : id ∈ {[+ id +]} ⊎ o.
Proof. multiset_solver. Qed.

Section Properties.
Context {Msg : Type} {HD : DnsLib Msg} {T : Type} {HT : Tunnel T}.

Lemma exchange_resolver remaining w msg r (t : T) :
  (exchange remaining w msg r t).1.2 =
  match remaining with
  | Some d => if (0 <? d) && (d <? tr_timeout r) then set_timeout r d else r
  | None => r
  end.
Proof. unfold exchange. cbv zeta. set (r1 := match remaining with Some _ => _ | None => _ end). by repeat case_match. Qed.

Context {laws : TunnelLaws T}.

Lemma exchange_opened remaining w msg r (t : T) :
  ready 3 t -> opened (exchange remaining w msg r t).2 = opened t.
Proof.
  intros Hr. unfold exchange. cbv zeta. set (r1 := match remaining with Some _ => _ | None => _ end).
  destruct (tn_Connect (tr_network r1) (tr_upstream r1) t) as [[id|e|p] t1] eqn:E1; cbn.
  - apply (Connect_ok 2) in E1 as [Ho Hr1]; [|done]. destruct (newTunnelConn_opened 1 id t1 Hr1) as [Hc Hr2].
    pose proof (newTunnelConn_panic 1 id t1) as Hp.
    destruct (tn_newTunnelConn id t1) as [[tc|e|p] t2]; cbn in *; [| |by destruct (Hp p t2)];
      rewrite ?(Close_opened 0), ?(CloseConn_opened 0), Hc, Ho by (done || rewrite Hc, Ho; apply open_in);
      apply open_close.
  - by eapply Connect_err.
  - by apply (Connect_panic 2) in E1.
Qed.
End Properties.

(** ** Properties *)


(** A resolved name stays resolved: when Resolve has answered a name, asking
    again within a second for the same name, in any letter case and with or without the
    final dot, gives the same address without using the tunnel. *)
Theorem dns_resolve_cached {Msg} {HD : DnsLib Msg} {laws : DnsLaws Msg} {T} {HT : Tunnel T} lower_rune
    now now' remaining w name r (t : T) ip r' t' now2 now2' remaining2 w2 t2 :
  Byte.x5c ∉ name -> forallb is_ascii name = true -> HasSuffix name (s2b ".") = false ->
  (cacheLookup now (cacheKey lower_rune name) r).1 = None ->
  Resolve lower_rune now now' remaining w name r t = (Ret ip, r', t') ->
  now2 <= now' + Second ->
  forall name2, name2 ∈ [name; lower <$> name; name ++ s2b "."] ->
  Resolve lower_rune now2 now2' remaining2 w2 name2 r' t2 = (Ret ip, r', t2).
Proof.
  intros Hb Ha Hs Hmiss HR Hnow name2 Hin.
  assert (Hkey : cacheKey lower_rune name2 = cacheKey lower_rune name).
  { apply elem_of_cons in Hin as [->|[->| ->%list_elem_of_singleton]%elem_of_cons]; [done| |].
    - by apply cacheKey_case.
    - by apply cacheKey_dot. }
  unfold Resolve in HR |- *. rewrite Hkey. set (key := cacheKey lower_rune name) in *.
  destruct (cacheLookup now key r) as [[?|] r1]; [done|].
  destruct (exchange remaining w (SetQuestion (Fqdn name)) r1 t) as [[[reply|e|p] r2] t3]; try done.
  destruct (first_A (Answer reply)) as [a|]; [|done]. injection HR as <- <- <-.
  set (m := minTTLSeconds (Answer reply) 60).
  assert (Hm : 0 <= m) by (apply minTTLSeconds_nonneg; [apply Ttl_nonneg|lia]).
  rewrite cacheStore_eq by done. unfold cacheLookup. cbn [tr_cache set_cache]. rewrite lookup_insert_eq.
  pose proof (lifetime_bounds m Hm). cbn [ce_expires ce_ip]. destruct (Z.ltb_spec (now' + lifetime m) now2); [lia|done].
Qed.

(** DNS over TCP through the tunnel.  A query of at most 65535 bytes is sent as
    one frame from which a server that reads the length and then the message gets
    exactly the query; and when the reply arrives, in whatever pieces, the result is the
    decoding of exactly the announced bytes, the rest of the stream being left unread.
    Longer queries and empty replies are refused, the former before anything is sent. *)
Theorem dns_tcp_exchange {Msg} {HD : DnsLib Msg} query resp rest c :
  has_room (2 + length query) (c_out c) -> len query <= 65535 -> len resp <= 65535 ->
  conn_in c = be_put 2 (len resp) ++ resp ++ rest ->
  exists c', exchangeTCP Reply query c =
      (if len resp =? 0 then Err (ErrMsg "empty DNS TCP response") else Unpack resp, c') /\
    conn_in c' = rest /\
    exists frame, w_out (c_out c') = w_out (c_out c) ++ frame /\
      forall d more, conn_in d = frame ++ more -> exists lenBuf d1 d2,
        recv 2 d = (Ret lenBuf, d1) /\ recv (Z.to_nat (be_get lenBuf)) d1 = (Ret query, d2) /\ conn_in d2 = more.
Proof.
  intros Hr Hq Hl Hin. pose proof (len_nonneg resp). pose proof (len_nonneg query).
  assert (Hfix : forall n, 0 <= n <= 65535 -> length (be_put 2 n) = 2%nat /\ be_get (be_put 2 n) = n).
  { intros n Hn. split; [apply length_be_put|]. rewrite be_get_put. apply Z.mod_small.
    change (2 ^ (8 * Z.of_nat 2)) with 65536. lia. }
  destruct (Hfix (len resp)) as [Lr Gr]; [lia|]. destruct (Hfix (len query)) as [Lq Gq]; [lia|]. clear Hfix.
  unfold exchangeTCP. destruct (Z.ltb_spec 0xffff (len query)); [lia|].
  set (frame := be_put 2 (len query) ++ query).
  destruct (send_ok frame 0 c) as (c1 & E1 & I1 & O1 & _).
  { unfold frame. rewrite length_app, Lq. eapply has_room_le; [exact Hr|lia]. }
  erewrite io_bind_ret by exact E1.
  assert (Hin1 : conn_in c1 = be_put 2 (len resp) ++ resp ++ rest) by (unfold conn_in; by rewrite I1).
  destruct (readReplyTCP_ok (Msg := Msg) resp rest c1 Lr Gr Hin1) as (c2 & -> & I2 & O2).
  exists c2. split_and!; [done|done|]. exists frame. split; [by rewrite O2, O1|].
  intros d more Hd. unfold frame in Hd. rewrite <- app_assoc in Hd.
  destruct (recv_fr_ok d 2 _ _ Hd Lq) as (d1 & E2 & H2 & _).
  destruct (recv_fr_ok d1 (Z.to_nat (len query)) query more H2) as (d2 & E3 & H3 & _); [unfold len; lia|].
  exists (be_put 2 (len query)), d1, d2. by rewrite Gq.
Qed.

(** Resolving leaves no connection behind: whatever fails, the tunnel
    connection that a DNS exchange has opened is closed again.  The timeout of the
    resolver only ever shrinks: a query with a near deadline shortens it for all later
    queries, including those that have none. *)
Theorem dns_exchange_releases {Msg} {HD : DnsLib Msg} {T} {HT : Tunnel T} {laws : TunnelLaws T}
    remaining w msg r (t : T) :
  ready 3 t ->
  opened (exchange remaining w msg r t).2 = opened t /\
  tr_cache (exchange remaining w msg r t).1.2 = tr_cache r /\
  tr_timeout (exchange remaining w msg r t).1.2 =
    match remaining with
    | Some d => if 0 <? d then Z.min d (tr_timeout r) else tr_timeout r
    | None => tr_timeout r
    end.
Proof.
  intros Hr. split; [by apply exchange_opened|]. rewrite exchange_resolver. destruct remaining as [d|]; [|done].
  zcases; cbn; split; try done; lia.
Qed.

(** Dialing for the SOCKS server does leave one behind: when the download
    stream of a connection that the server has accepted cannot be opened, the connection
    is neither returned nor closed. *)
Theorem dns_dial_leaks {T} {HT : Tunnel T} {laws : TunnelLaws T} network addr (t : T) tunnelNet id t1 e t2 :
  ready 2 t -> tunnelNetwork network = Ret tunnelNet -> tn_Connect tunnelNet addr t = (Ret id, t1) ->
  tn_newTunnelConn id t1 = (Err e, t2) ->
  tunnelDialContext network addr t = (Err e, t2) /\ opened t2 = {[+ id +]} ⊎ opened t.
Proof.
  intros Hr E1 E2 E3. unfold tunnelDialContext. rewrite E1, E2, E3. split; [done|].
  apply (Connect_ok 1) in E2 as [Ho Hr1]; [|done].
  destruct (newTunnelConn_opened 0 id t1 Hr1) as [Hn _]. rewrite E3 in Hn. cbn in Hn. by rewrite Hn, Ho.
Qed.

(** The TTL under which an answer is cached is the smallest TTL of the reply when
    every TTL is positive.  A TTL of 0, which forbids caching, is not respected: it is
    skipped when it comes before the others and gives the fallback when it comes last. *)
Theorem dns_min_ttl answers fallback h hs :
  ttls answers = h :: hs ->
  (Forall (fun h => 0 < h) (ttls answers) -> minTTLSeconds answers fallback = foldr Z.min h hs) /\
  (forall a b, minTTLSeconds [MkRR (Some 0) a; MkRR (Some 300) b] fallback = 300 /\
               minTTLSeconds [MkRR (Some 300) a; MkRR (Some 0) b] fallback = fallback).
Proof. intros E. split; [by apply minTTLSeconds_min|done]. Qed.

(** ** Witnesses: a DNS library and a tunnel *)

#[export] Instance toy_dns : DnsLib bytes := {|
  Fqdn s := if HasSuffix s (s2b ".") then s else s ++ s2b ".";
  SetQuestion name := name;
  Pack m := Ret m;
  Unpack bs := Ret bs;
  Answer m := [MkRR (Some 5) (Some m)] |}.

#[export] Program Instance toy_dns_laws : DnsLaws bytes := {| Fqdn_ok s _ := eq_refl |}.
Next Obligation. intros m. cbn. repeat constructor; lia. Qed.

(** The open connections, whether streams can be opened, and the reply they deliver. *)
Record toy_tunnel := ToyTunnel { tt_open : gmultiset Z; tt_up : bool; tt_reply : bytes }.

#[export] Instance toy_tunnel_ops : Tunnel toy_tunnel := {|
  tn_Connect _ _ t := let id := Z.of_nat (size (tt_open t)) in
    (Ret id, ToyTunnel ({[+ id +]} ⊎ tt_open t) (tt_up t) (tt_reply t));
  tn_newTunnelConn _ t :=
    (if tt_up t then Ret (Conn (Reader [tt_reply t] EOF) (Writer [] None EOF)) else Err EOF, t);
  tn_CloseConn id t := ToyTunnel (tt_open t ∖ {[+ id +]}) (tt_up t) (tt_reply t);
  tn_Close id t := ToyTunnel (tt_open t ∖ {[+ id +]}) (tt_up t) (tt_reply t) |}.

#[export] Program Instance toy_tunnel_laws : TunnelLaws toy_tunnel := {| opened := tt_open; ready _ _ := True |}.
Next Obligation. by intros n network addr t id t' _ [= <- <-]. Qed.
Next Obligation. done. Qed.
Next Obligation. done. Qed.
Next Obligation. done. Qed.
Next Obligation. intros n id [o [] p] w t'; done. Qed.
Next Obligation. done. Qed.
Next Obligation. done. Qed.

Definition up_tunnel : toy_tunnel := ToyTunnel ∅ true (be_put 2 4 ++ [Byte.x0a; Byte.x00; Byte.x00; Byte.x07]).
Definition down_tunnel : toy_tunnel := ToyTunnel ∅ false [].
Definition demo_resolver : tunneledResolver := newTunneledResolver (s2b "tcp") (s2b "1.1.1.1:53").


Definition demo_resolved : res bytes * tunneledResolver * toy_tunnel :=
  Resolve id 0 0 None Reply (s2b "a.b") demo_resolver up_tunnel.

Lemma dns_resolve_cached_witness :
  Resolve id 1 1 None Timer (s2b "a.b.") demo_resolved.1.2 down_tunnel
    = (Ret [Byte.x0a; Byte.x00; Byte.x00; Byte.x07], demo_resolved.1.2, down_tunnel).
Proof.
  apply (dns_resolve_cached id 0 0 None Reply (s2b "a.b") demo_resolver up_tunnel
    [Byte.x0a; Byte.x00; Byte.x00; Byte.x07] demo_resolved.1.2 demo_resolved.2 1 1 None Timer down_tunnel).
  - cbn. intros H. repeat (apply elem_of_cons in H as [H|H]; [discriminate H|]). by apply not_elem_of_nil in H.
  - reflexivity.
  - reflexivity.
  - vm_compute. reflexivity.
  - vm_compute. reflexivity.
  - vm_compute. discriminate.
  - cbn. set_solver.
Defined.

Lemma dns_tcp_exchange_witness :
  exists c', exchangeTCP Reply (s2b "q") (Conn (Reader [be_put 2 3; s2b "rep" ++ s2b "x"] EOF) (Writer [] None EOF))
      = (if 3 =? 0 then Err (ErrMsg "empty DNS TCP response") else Unpack (s2b "rep"), c') /\
    conn_in c' = s2b "x" /\
    exists frame, w_out (c_out c') = [] ++ frame /\
      forall d more, conn_in d = frame ++ more -> exists lenBuf d1 d2,
        recv 2 d = (Ret lenBuf, d1) /\ recv (Z.to_nat (be_get lenBuf)) d1 = (Ret (s2b "q"), d2) /\ conn_in d2 = more.
Proof.
  apply (dns_tcp_exchange (s2b "q") (s2b "rep") (s2b "x"));
    [exact I|vm_compute; discriminate|vm_compute; discriminate|vm_compute; reflexivity].
Defined.

Lemma dns_exchange_releases_witness :
  opened (exchange (Some 5) Timer (s2b "q") demo_resolver up_tunnel).2 = ∅ /\
  tr_cache (exchange (Some 5) Timer (s2b "q") demo_resolver up_tunnel).1.2 = ∅ /\
  tr_timeout (exchange (Some 5) Timer (s2b "q") demo_resolver up_tunnel).1.2 = 5.
Proof. exact (dns_exchange_releases (Some 5) Timer (s2b "q") demo_resolver up_tunnel I). Defined.

Lemma dns_dial_leaks_witness :
  exists t2, tunnelDialContext (s2b "tcp4") (s2b "a.b:80") down_tunnel = (Err EOF, t2) /\
    opened t2 = {[+ 0 +]} ⊎ opened down_tunnel.
Proof.
  eexists. apply (dns_dial_leaks (s2b "tcp4") (s2b "a.b:80") down_tunnel (s2b "tcp") _
    (tn_Connect (s2b "tcp") (s2b "a.b:80") down_tunnel).2); reflexivity || exact I.
Defined.

Lemma dns_min_ttl_witness :
  minTTLSeconds [MkRR (Some 30) None; MkRR None None; MkRR (Some 7) None] 60 = 7.
Proof.
  refine (proj1 (dns_min_ttl [MkRR (Some 30) None; MkRR None None; MkRR (Some 7) None] 60 30 [7] eq_refl) _).
  repeat constructor.
Defined.
