(* ===== verification/HttpConnect.v ===== *)
(** * HTTP CONNECT (dpi/client/proxy.go, proxy/http/http.go, standalone/proxy.go)

    The dpi client offers an HTTP CONNECT proxy; the program also dials through HTTP
    proxies, with two different clients.  All three read an HTTP head through a
    [bufio.Reader] and then go on with the connection: what became of the bytes the
    buffer holds is what the theorems are about. *)
From S2P Require Import Prelude GoIO Strconv NetAddr Urls Base64 Socks5 Dns.
From stdpp Require Import gmultiset.

(** ** bufio.Reader *)

Record bufio_reader := BufioReader { br_buf : bytes; br_rd : reader }.
Definition NewReader (r : reader) : bufio_reader := BufioReader [] r.
Definition pending (b : bufio_reader) : bytes := br_buf b ++ flat (br_rd b).

Definition LF : byte := Byte.x0a.
Definition CR : byte := Byte.x0d.

(** A line without its end; [acc] is what was found in buffers that were full. *)
Fixpoint ReadLine_loop (fuel : nat) (acc : bytes) (b : bufio_reader) : res bytes * bufio_reader :=
  match fuel with
  | O => (Panic "out of fuel", b)
  | S fuel =>
      match IndexByte (br_buf b) LF with
      | Some i => (Ret (acc ++ take i (br_buf b)), BufioReader (drop (S i) (br_buf b)) (br_rd b))
      | None =>
          if length (br_buf b) <? bufSize then
            match read (bufSize - length (br_buf b)) (br_rd b) with
            | (p, None, r) => ReadLine_loop fuel acc (BufioReader (br_buf b ++ p) r)
            | (_, Some e, r) => (Err e, BufioReader [] r)
            end
          else ReadLine_loop fuel (acc ++ br_buf b) (BufioReader [] (br_rd b))
      end
  end.
(** Every round consumes a segment, a byte, or a full buffer. *)
Definition line_fuel (b : bufio_reader) : nat :=
  S (S (length (r_chunks (br_rd b)) + length (pending b) + length (pending b))).
Definition ReadLine (b : bufio_reader) : res bytes * bufio_reader :=
  match ReadLine_loop (line_fuel b) [] b with
  | (Ret l, b') => (Ret (TrimSuffix l [CR]), b')
  | r => r
  end.

(** A message head: the lines up to the empty one. *)
Fixpoint ReadHead_loop (fuel : nat) (b : bufio_reader) : res (list bytes) * bufio_reader :=
  match fuel with
  | O => (Panic "out of fuel", b)
  | S fuel =>
      match ReadLine b with
      | (Ret [], b') => (Ret [], b')
      | (Ret l, b') =>
          match ReadHead_loop fuel b' with
          | (Ret ls, b'') => (Ret (l :: ls), b'')
          | r => r
          end
      | (Err e, b') => (Err e, b')
      | (Panic p, b') => (Panic p, b')
      end
  end.
Definition ReadHead (b : bufio_reader) : res (list bytes) * bufio_reader := ReadHead_loop (S (length (pending b))) b.

(** [b.Read(p)] with [len(p) = k]. *)
Definition br_Read (k : nat) (b : bufio_reader) : bytes * option error * bufio_reader :=
  match br_buf b with
  | [] =>
      if bufSize <=? k then let '(p, e, r) := read k (br_rd b) in (p, e, BufioReader [] r)
      else
        let '(p, e, r) := read bufSize (br_rd b) in
        match e with
        | Some _ => (p, e, BufioReader [] r)
        | None => (take k p, None, BufioReader (drop k p) r)
        end
  | buf => (take k buf, None, BufioReader (drop k buf) (br_rd b))
  end.

(** What net/http makes of a head: the method and host of a request, the status of a
    response, and the length of its body, [None] for a body that lasts as long as the
    connection; and how it writes a CONNECT request. *)
Class HttpLib := {
  parse_request : list bytes -> res (bytes * bytes);
  parse_status : list bytes -> res Z;
  body_length : list bytes -> option nat;
  connect_request : bytes -> option bytes -> bytes }.

(** [io.Copy(io.Discard, resp.Body)] *)
Fixpoint discard_body (fuel : nat) (left : option nat) (b : bufio_reader) : bufio_reader :=
  match fuel with
  | O => b
  | S fuel =>
      match left with
      | Some O => b
      | _ =>
          match br_Read (default (Z.to_nat 8192) (Nat.min (Z.to_nat 8192) <$> left)) b with
          | (p, None, b') => discard_body fuel ((fun n => n - length p) <$> left) b'
          | (_, Some _, b') => b'
          end
      end
  end.
Definition body_fuel (b : bufio_reader) : nat := S (S (length (pending b) + length (r_chunks (br_rd b)))).

(** ** Credentials *)

(** The [Proxy-Authorization] header both clients send. *)
Definition proxy_auth (username password : bytes) : bytes :=
  s2b "Basic " ++ EncodeToString (username ++ s2b ":" ++ password).

(** [strings.SplitN(s, sep, 2)] for a one-byte separator. *)
Definition SplitN2 (s : bytes) (sep : byte) : list bytes :=
  match IndexByte s sep with Some i => [take i s; drop (S i) s] | None => [s] end.

Definition ParseProxyAuth (auth : bytes) : option (bytes * bytes) :=
  if negb (HasPrefix auth (s2b "Basic ")) then None
  else
    match DecodeString (drop 6 auth) with
    | Ret dec => match SplitN2 dec colon with [user; pass] => Some (user, pass) | _ => None end
    | _ => None
    end.

Section HttpConnect.
Context {HL : HttpLib}.

(** ** The dialer of proxy/http *)

Record httpProxy := HttpProxy { hp_hostPort : bytes; hp_auth : option (bytes * bytes) }.
Definition newHTTP (uri_Host : bytes) (uri_User : option (bytes * option bytes)) : httpProxy :=
  HttpProxy uri_Host ((fun u => (u.1, default [] u.2)) <$> uri_User).

(** The connection that is returned: what the abandoned buffer still holds, and the
    connection itself. *)
Record httpConn := HttpConn { hc_staleReader : option bytes; hc_conn : reader }.

Definition httpConn_Read (k : nat) (c : httpConn) : bytes * option error * httpConn :=
  match hc_staleReader c with
  | Some ((_ :: _) as buf) => (take k buf, None, HttpConn (Some (drop k buf)) (hc_conn c))
  | _ => let '(p, e, r) := read k (hc_conn c) in (p, e, HttpConn None r)
  end.

(** [forward], [resolve] and [parse] are the outcomes of dialing the proxy, of
    [net.ResolveTCPAddr] and of [url.Parse] on the address. *)
Definition httpProxy_Dial (s : httpProxy) (forward : res conn) (resolve parse : option error) (addr : bytes)
    : res (httpConn * writer) :=
  c ← forward;
  match resolve, parse with
  | Some e, _ | None, Some e => Err e
  | None, None =>
      match send (connect_request addr ((fun u => proxy_auth u.1 u.2) <$> hp_auth s)) c with
      | (Ret _, c1) =>
          match ReadHead (NewReader (c_in c1)) with
          | (Ret head, b) =>
              status ← parse_status head;
              if negb (status =? 200)%Z then Err (ErrMsg "proxy error")
              else mret (HttpConn (Some (br_buf b)) (br_rd b), c_out c1)
          | (Err e, _) => Err e
          | (Panic p, _) => Panic p
          end
      | (Err e, _) => Err e
      | (Panic p, _) => Panic p
      end
  end.

(** ** The dialer of the snowflake client *)

(** The default port of the proxy's URL. *)
Definition proxyAddr (scheme host : bytes) : bytes :=
  if Contains host (s2b ":") then host
  else if decide (scheme = s2b "https") then host ++ s2b ":443" else host ++ s2b ":80".

Definition dialHTTPProxy (user : option (bytes * option bytes)) (forward : res conn) (addr : bytes) : res conn :=
  c ← forward;
  match send (connect_request addr ((fun u => proxy_auth u.1 (default [] u.2)) <$> user)) c with
  | (Ret _, c1) =>
      match ReadHead (NewReader (c_in c1)) with
      | (Ret head, b) =>
          status ← parse_status head;
          let b := discard_body (body_fuel b) (body_length head) b in
          if negb (status =? 200)%Z then Err (ErrMsg "proxy CONNECT failed")
          else mret (Conn (br_rd b) (c_out c1))
      | (Err e, _) => Err e
      | (Panic p, _) => Panic p
      end
  | (Err e, _) => Err e
  | (Panic p, _) => Panic p
  end.

(** ** The proxy of the dpi client *)

(** What became of a request: answered with a status, given up, or bridged to a tunnel
    connection, with what the copy to the tunnel reads. *)
Inductive handled := Answered (status : Z) | GaveUp | Bridged (connID : Z) (from_client : reader).

(** [write_error] is the outcome of writing the 200 answer.  After the bridge the
    tunnel connection is closed. *)
Definition handleHTTPProxy {T} {HT : Tunnel T} (write_error : option error) (r : reader) (t : T) : handled * T :=
  match ReadHead (NewReader r) with
  | (Ret head, b) =>
      match parse_request head with
      | Ret (method, host) =>
          if negb (bool_decide (method = s2b "CONNECT")) then (Answered 405, t)
          else
            let host := if Contains host (s2b ":") then host else host ++ s2b ":443" in
            match tn_Connect (s2b "tcp") host t with
            | (Ret connID, t1) =>
                match write_error with
                | Some _ => (GaveUp, t1)
                | None =>
                    match tn_newTunnelConn connID t1 with
                    | (Ret _, t2) => (Bridged connID (br_rd b), tn_Close connID t2)
                    | (_, t2) => (GaveUp, t2)
                    end
                end
            | (_, t1) => (Answered 502, t1)
            end
      | _ => (GaveUp, t)
      end
  | _ => (GaveUp, t)
  end.
End HttpConnect.

(** ** Lemmas *)

Lemma IndexByte_Some s c i :
  IndexByte s c = Some i -> s = take i s ++ c :: drop (S i) s /\ c ∉ take i s.
Proof.
  revert i. induction s as [|b s IH]; cbn; [done|]. intros i. case_decide as E.
  - intros [= <-]. subst. split; [done|]. apply not_elem_of_nil.
  - destruct (IndexByte s c) as [j|]; [|done]. intros [= <-]. destruct (IH j eq_refl) as [H1 H2]. cbn.
    split; [by f_equal|]. apply not_elem_of_cons. split; [congruence|done].
Qed.

Lemma IndexByte_None s c : IndexByte s c = None -> c ∉ s.
Proof.
  induction s as [|b s IH]; cbn; [intros _; apply not_elem_of_nil|]. case_decide; [done|].
  destruct (IndexByte s c); [done|]. intros _. apply not_elem_of_cons. split; [congruence|auto].
Qed.

Lemma first_unique (c : byte) a b x y :
  a ++ c :: x = b ++ c :: y -> c ∉ a -> c ∉ b -> a = b /\ x = y.
Proof.
  revert b. induction a as [|h a IH]; intros [|k b] E Ha Hb; cbn in E.
  - by injection E as ->.
  - injection E as -> _. set_solver.
  - injection E as -> _. set_solver.
  - injection E as -> E. apply not_elem_of_cons in Ha as [_ Ha], Hb as [_ Hb].
    destruct (IH b E Ha Hb) as [-> ->]. done.
Qed.

Lemma app_first (c : byte) buf more line rest :
  buf ++ more = line ++ c :: rest -> c ∉ buf -> exists l2, line = buf ++ l2 /\ more = l2 ++ c :: rest.
Proof.
  intros E Hn. apply app_eq_app in E as (l & [[-> E]|[-> E]]).
  - destruct l as [|d l]; [exists []; by rewrite !app_nil_r|]. injection E as <- _. set_solver.
  - by exists l.
Qed.

(** A buffered reader that will deliver [bs], and then fail with [e]. *)
Definition br_delivers (bs : bytes) (e : error) (b : bufio_reader) : Prop :=
  pending b = bs /\ r_end (br_rd b) = e /\ nonempty_reads (br_rd b) /\ length (br_buf b) <= bufSize.

Lemma bufSize_pos : 0 < bufSize.
Proof. unfold bufSize. lia. Qed.

(** Reading from a connection that has something to deliver. *)
Lemma read_some k r :
  0 < k -> nonempty_reads r -> flat r <> [] ->
  exists p r', read k r = (p, None, r') /\ flat r = p ++ flat r' /\ p <> [] /\ length p <= k /\
    r_end r' = r_end r /\ nonempty_reads r'.
Proof.
  intros Hk Hn Hf. destruct (r_chunks r) as [|c cs] eqn:E; [unfold flat in Hf; by rewrite E in Hf|].
  destruct (read_cons k r c cs E) as (r' & -> & (Ha & He & Hn') & _). exists (take k c), r'.
  unfold nonempty_reads in Hn. rewrite E in Hn. apply Forall_cons_1 in Hn as [Hc Hcs].
  assert (Hp : flat r = take k c ++ flat r').
  { assert (Ef : flat r = take k c ++ drop k c ++ concat cs).
    { unfold flat. rewrite E. cbn [concat]. by rewrite app_assoc, take_drop. }
    rewrite Ha, Ef. by rewrite drop_app_length. }
  split_and!; [done|done| |rewrite length_take; lia|done|].
  - destruct c, k; cbn; [done..|lia|done].
  - apply Hn'. unfold nonempty_reads. rewrite E. by constructor.
Qed.

Definition fill_work (b : bufio_reader) : nat :=
  2 * length (flat (br_rd b)) + (if decide (length (br_buf b) = bufSize) then 1 else 0).

Lemma ReadLine_loop_ok fuel acc b line rest e :
  br_delivers (line ++ LF :: rest) e b -> LF ∉ line -> fill_work b < fuel ->
  exists b', ReadLine_loop fuel acc b = (Ret (acc ++ line), b') /\ br_delivers rest e b'.
Proof.
  revert acc b line. induction fuel as [|fuel IH]; intros acc b line (Hp & He & Hn & Hb) Hl Hf; [lia|].
  cbn [ReadLine_loop]. destruct (IndexByte (br_buf b) LF) as [i|] eqn:Ei.
  - apply IndexByte_Some in Ei as [Es Hi]. unfold pending in Hp. rewrite Es, <- app_assoc in Hp. cbn in Hp.
    apply first_unique in Hp as [<- Hr]; [|done|done]. eexists. split; [reflexivity|].
    split_and!; [done|done|done|]. cbn. rewrite length_drop. lia.
  - apply IndexByte_None in Ei. destruct (app_first _ _ _ _ _ Hp Ei) as (l2 & -> & Hm).
    unfold fill_work in Hf. destruct (Nat.ltb_spec (length (br_buf b)) bufSize) as [Hlt|Hge].
    + destruct (read_some (bufSize - length (br_buf b)) (br_rd b)) as (p & r' & -> & Hfl & Hpn & Hpl & Hend & Hne);
        [lia|done|by rewrite Hm; destruct l2|].
      rewrite Hfl, length_app in Hf. destruct p as [|d p]; [done|].
      apply (IH acc (BufioReader (br_buf b ++ d :: p) r') (br_buf b ++ l2)).
      * split_and!; cbn [br_buf br_rd]; [|congruence|done|rewrite length_app; lia].
        unfold pending. cbn [br_buf br_rd]. rewrite <- !app_assoc. f_equal. by rewrite <- Hfl.
      * done.
      * unfold fill_work. cbn [br_buf br_rd length] in *. repeat case_decide; lia.
    + rewrite app_assoc. apply (IH (acc ++ br_buf b) (BufioReader [] (br_rd b)) l2).
      * split_and!; [done|done|done|cbn; lia].
      * set_solver.
      * unfold fill_work. cbn [br_buf br_rd length]. pose proof bufSize_pos. repeat case_decide; lia.
Qed.

Lemma ReadLine_ok b line rest e :
  br_delivers (line ++ LF :: rest) e b -> LF ∉ line ->
  exists b', ReadLine b = (Ret (TrimSuffix line [CR]), b') /\ br_delivers rest e b'.
Proof.
  intros Hd Hl. unfold ReadLine. destruct (ReadLine_loop_ok (line_fuel b) [] b line rest e Hd Hl) as (b' & -> & H).
  { unfold fill_work, line_fuel, pending. rewrite length_app. case_decide; lia. }
  by exists b'.
Qed.

(** A message head as it is sent. *)
Definition head_line (l : bytes) : Prop := l <> [] /\ LF ∉ l.
Definition render_head (ls : list bytes) : bytes := concat ((fun l => l ++ [CR; LF]) <$> ls) ++ [CR; LF].

Lemma TrimSuffix_CR l : TrimSuffix (l ++ [CR]) [CR] = l.
Proof. unfold TrimSuffix. by rewrite rev_app_distr, TrimPrefix_app, rev_involutive. Qed.

Lemma ReadHead_loop_ok fuel ls b rest e :
  br_delivers (render_head ls ++ rest) e b -> Forall head_line ls -> length ls < fuel ->
  exists b', ReadHead_loop fuel b = (Ret ls, b') /\ br_delivers rest e b'.
Proof.
  revert ls b. induction fuel as [|fuel IH]; intros ls b Hd Hls Hf; [lia|]. cbn [ReadHead_loop].
  destruct ls as [|l ls].
  - change (render_head [] ++ rest) with ([CR] ++ LF :: rest) in Hd.
    destruct (ReadLine_ok b [CR] rest e Hd) as (b' & -> & H'); [apply (bool_decide_unpack _); exact I|].
    by exists b'.
  - apply Forall_cons_1 in Hls as [[Hl Hn] Hls].
    assert (E : render_head (l :: ls) ++ rest = (l ++ [CR]) ++ LF :: render_head ls ++ rest).
    { unfold render_head. cbn. by rewrite <- !app_assoc. }
    rewrite E in Hd. destruct (ReadLine_ok b (l ++ [CR]) (render_head ls ++ rest) e Hd) as (b' & -> & H').
    { rewrite not_elem_of_app. split; [done|apply (bool_decide_unpack _); exact I]. }
    rewrite TrimSuffix_CR. destruct l as [|c l]; [done|].
    destruct (IH ls b' H' Hls) as (b'' & -> & H''); [cbn in Hf; lia|]. by exists b''.
Qed.

Lemma ReadHead_ok ls r rest :
  flat r = render_head ls ++ rest -> nonempty_reads r -> Forall head_line ls ->
  exists b, ReadHead (NewReader r) = (Ret ls, b) /\ br_delivers rest (r_end r) b.
Proof.
  intros Hf Hn Hls. apply ReadHead_loop_ok; [|done|].
  - split_and!; [done|done|done|cbn; lia].
  - unfold pending. cbn. rewrite Hf, length_app. unfold render_head. rewrite length_app.
    assert (length ls <= length (concat ((fun l => l ++ [CR; LF]) <$> ls))).
    { clear. induction ls as [|l ls IH]; cbn; [lia|]. rewrite length_app, length_app. cbn. lia. }
    cbn. lia.
Qed.

Lemma br_Read_some k b e :
  0 < k -> br_delivers (pending b) e b -> pending b <> [] ->
  exists p b', br_Read k b = (p, None, b') /\ pending b = p ++ pending b' /\ p <> [] /\ br_delivers (pending b') e b'.
Proof.
  intros Hk (_ & He & Hn & Hb) Hp. unfold br_Read. destruct b as [[|c buf] r]; cbn [br_buf br_rd] in *.
  - change (pending (BufioReader [] r)) with (flat r) in *. destruct (Nat.leb_spec bufSize k).
    + destruct (read_some k r Hk Hn Hp) as (p & r' & -> & Hf & Hpn & _ & Hend & Hn').
      exists p, (BufioReader [] r'). split_and!; [done|done|done|]. split_and!; [done|cbn; congruence|done|cbn; lia].
    + destruct (read_some bufSize r bufSize_pos Hn Hp) as (p & r' & -> & Hf & Hpn & Hpl & Hend & Hn').
      exists (take k p), (BufioReader (drop k p) r'). unfold pending. cbn [br_buf br_rd].
      split_and!; [done|by rewrite app_assoc, take_drop|by destruct p, k; cbn; [..|lia|]|].
      split_and!; [done|cbn; congruence|done|cbn; rewrite length_drop; lia].
  - exists (take k (c :: buf)), (BufioReader (drop k (c :: buf)) r). unfold pending. cbn [br_buf br_rd].
    split_and!; [done|by rewrite app_assoc, take_drop|by destruct k; [lia|]|].
    split_and!; [done|done|done|]. cbn [br_buf]. rewrite length_drop. lia.
Qed.

(** Discarding an unbounded body discards everything. *)
Lemma discard_unbounded fuel b e :
  br_delivers (pending b) e b -> length (pending b) < fuel ->
  pending (discard_body fuel None b) = [].
Proof.
  revert b. induction fuel as [|fuel IH]; intros b Hd Hf; [lia|]. cbn [discard_body fmap option_fmap option_map default].
  destruct (decide (pending b = [])) as [Hz|Hz].
  - unfold pending in Hz. apply app_nil in Hz as [Hbuf Hfl]. unfold br_Read. rewrite Hbuf.
    rewrite (proj2 (Nat.leb_le bufSize (Z.to_nat 8192))) by (unfold bufSize; lia).
    destruct Hd as (_ & _ & Hn & _). destruct (r_chunks (br_rd b)) as [|c cs] eqn:Ec.
    + rewrite read_nil by done. unfold pending. cbn. unfold flat. by rewrite Ec.
    + unfold nonempty_reads in Hn. rewrite Ec in Hn. apply Forall_cons_1 in Hn as [Hc _].
      unfold flat in Hfl. rewrite Ec in Hfl. by apply app_nil in Hfl as [? _].
  - destruct (br_Read_some (Z.to_nat 8192) b e) as (p & b' & -> & Hp & Hpn & Hd'); [lia|done|done|].
    apply IH; [done|]. rewrite Hp, length_app in Hf. destruct p; [done|]. cbn in Hf. lia.
Qed.

(** The connection with the unread bytes put back. *)
Definition as_reader (c : httpConn) : reader :=
  Reader (match hc_staleReader c with Some ((_ :: _) as buf) => [buf] | _ => [] end ++ r_chunks (hc_conn c))
    (r_end (hc_conn c)).

Lemma httpConn_Read_eq k c p e c' :
  httpConn_Read k c = (p, e, c') -> read k (as_reader c) = (p, e, as_reader c').
Proof.
  unfold httpConn_Read, as_reader. destruct c as [[[|d buf]|] r]; cbn [hc_staleReader hc_conn app].
  - destruct r as [cs er]. cbn [r_chunks r_end]. destruct (read k (Reader cs er)) as [[p' e'] [cs' er']].
    by intros [= <- <- <-].
  - intros [= <- <- <-]. unfold read. cbn [r_chunks r_end hc_staleReader hc_conn].
    by destruct (drop k (d :: buf)).
  - destruct r as [cs er]. cbn [r_chunks r_end]. destruct (read k (Reader cs er)) as [[p' e'] [cs' er']].
    by intros [= <- <- <-].
Qed.

Lemma as_reader_delivers rest e b :
  br_delivers rest e b -> delivers rest e (as_reader (HttpConn (Some (br_buf b)) (br_rd b))).
Proof.
  intros (Hp & He & Hn & _). unfold as_reader. cbn [hc_staleReader hc_conn]. split_and!; [|done|].
  - rewrite <- Hp. unfold pending, flat. cbn [r_chunks]. by destruct (br_buf b).
  - unfold nonempty_reads. cbn [r_chunks]. destruct (br_buf b); [done|]. by constructor.
Qed.

(** A connection from which everything has been buffered. *)
Lemma read_drained k r : flat r = [] -> flat (read k r).2 = [].
Proof.
  destruct r as [[|c cs] e]; [done|]. unfold read, flat. cbn [r_chunks concat]. intros [-> H]%app_nil.
  cbn [snd r_chunks]. by rewrite drop_nil.
Qed.

Lemma ReadLine_loop_drained fuel acc b :
  flat (br_rd b) = [] -> flat (br_rd (ReadLine_loop fuel acc b).2) = [].
Proof.
  revert acc b. induction fuel as [|fuel IH]; intros acc b Hf; cbn [ReadLine_loop]; [done|].
  destruct (IndexByte _ _); [done|]. destruct (_ <? _); [|by apply IH].
  pose proof (read_drained (bufSize - length (br_buf b)) _ Hf) as Hr.
  destruct (read _ _) as [[p [e|]] r]; cbn [snd] in *; [done|by apply IH].
Qed.

Lemma ReadLine_drained b : flat (br_rd b) = [] -> flat (br_rd (ReadLine b).2) = [].
Proof.
  intros Hf. unfold ReadLine. pose proof (ReadLine_loop_drained (line_fuel b) [] b Hf) as H.
  by destruct (ReadLine_loop _ _ _) as [[l|e|q] b'].
Qed.

Lemma ReadHead_loop_drained fuel b : flat (br_rd b) = [] -> flat (br_rd (ReadHead_loop fuel b).2) = [].
Proof.
  revert b. induction fuel as [|fuel IH]; intros b Hf; cbn [ReadHead_loop]; [done|].
  pose proof (ReadLine_drained b Hf) as H. destruct (ReadLine b) as [[[|c l]|e|q] b']; cbn [snd] in *; try done.
  pose proof (IH b' H) as H'. by destruct (ReadHead_loop fuel b') as [[ls|e|q] b''].
Qed.

Lemma ReadLine_loop_one n acc x e :
  length x <= bufSize -> flat (br_rd (ReadLine_loop (S n) acc (BufioReader [] (Reader [x] e))).2) = [].
Proof.
  intros Hx. cbn [ReadLine_loop br_buf br_rd IndexByte length].
  rewrite (proj2 (Nat.ltb_lt 0 bufSize)) by apply bufSize_pos. unfold read. cbn [r_chunks].
  rewrite Nat.sub_0_r, drop_ge by done. by apply ReadLine_loop_drained.
Qed.

(** A head that comes in one segment: everything is buffered at once. *)
Lemma ReadHead_one_segment x e : length x <= bufSize -> flat (br_rd (ReadHead (NewReader (Reader [x] e))).2) = [].
Proof.
  intros Hx.
  assert (H : flat (br_rd (ReadLine (NewReader (Reader [x] e))).2) = []).
  { unfold ReadLine, line_fuel. generalize (S (length (r_chunks (br_rd (NewReader (Reader [x] e)))) +
      length (pending (NewReader (Reader [x] e))) + length (pending (NewReader (Reader [x] e))))). intros n.
    pose proof (ReadLine_loop_one n [] x e Hx) as H. unfold NewReader.
    by destruct (ReadLine_loop (S n) [] _) as [[l|e'|q] b']. }
  unfold ReadHead. cbn [ReadHead_loop].
  destruct (ReadLine (NewReader (Reader [x] e))) as [[[|c l]|e'|q] b']; cbn [snd] in *; try done.
  pose proof (ReadHead_loop_drained (length (pending (NewReader (Reader [x] e)))) b' H) as H'.
  by destruct (ReadHead_loop _ b') as [[ls|e'|q] b''].
Qed.

Section Properties.
Context {HL : HttpLib}.

(** C38. Dialing through an HTTP proxy with the dialer of proxy/http.  The proxy is sent
    one CONNECT request, with the credentials in a form it decodes; on an answer with
    status 200, which may come in any segments and together with the first bytes of the
    tunnelled connection, the connection that is returned delivers exactly the bytes
    after the head of the answer; its Read behaves, call by call, like that of the
    connection with the buffered bytes put back.  Any other status is an error. *)
Theorem http_proxy_dial s c addr ls rest status :
  let request := connect_request addr ((fun u => proxy_auth u.1 u.2) <$> hp_auth s) in
  has_room (length request) (c_out c) -> nonempty_reads (c_in c) -> Forall head_line ls ->
  flat (c_in c) = render_head ls ++ rest -> parse_status ls = Ret status ->
  if decide (status = 200%Z) then
    exists h w, httpProxy_Dial s (Ret c) None None addr = Ret (h, w) /\ w_out w = w_out (c_out c) ++ request /\
      delivers rest (r_end (c_in c)) (as_reader h) /\
      forall k p e h', httpConn_Read k h = (p, e, h') -> read k (as_reader h) = (p, e, as_reader h')
  else exists e, httpProxy_Dial s (Ret c) None None addr = Err e.
Proof.
  intros request Hr Hn Hls Hf Hst. destruct (send_ok request 0 c) as (c1 & E1 & I1 & O1 & _).
  { eapply has_room_le; [exact Hr|lia]. }
  destruct (ReadHead_ok ls (c_in c1) rest) as (b & E2 & Hd); [by rewrite I1..|done|].
  unfold httpProxy_Dial. cbn [mbind res_bind]. fold request. rewrite E1, E2, Hst. cbn [mbind res_bind].
  case_decide as Es.
  - subst status. cbn [negb Z.eqb Pos.eqb]. rewrite I1 in Hd.
    do 2 eexists. split_and!; [reflexivity|done|by apply as_reader_delivers|].
    intros k p e h'. apply httpConn_Read_eq.
  - destruct (Z.eqb_spec status 200); [done|]. cbn. eauto.
Qed.

(** The dialer of the snowflake client drops what the proxy sends.  If the answer to
    CONNECT announces no length, as proxies answer, the rest of the connection is taken
    for the body of the answer: the dialer returns only when the proxy has ended it,
    and nothing of it is delivered.  And if it announces a length of 0, the bytes that
    arrived in the same segment as the answer are dropped with the buffer. *)
Theorem snowflake_http_proxy_drops user c addr ls rest :
  let request := connect_request addr ((fun u => proxy_auth u.1 (default [] u.2)) <$> user) in
  has_room (length request) (c_out c) -> nonempty_reads (c_in c) -> Forall head_line ls ->
  flat (c_in c) = render_head ls ++ rest -> parse_status ls = Ret 200%Z ->
  (body_length ls = None -> exists c', dialHTTPProxy user (Ret c) addr = Ret c' /\ flat (c_in c') = []) /\
  (body_length ls = Some 0 -> exists c' lost, dialHTTPProxy user (Ret c) addr = Ret c' /\ rest = lost ++ flat (c_in c') /\
     (r_chunks (c_in c) = [render_head ls ++ rest] -> length (render_head ls ++ rest) <= bufSize -> lost = rest)).
Proof.
  intros request Hr Hn Hls Hf Hst. destruct (send_ok request 0 c) as (c1 & E1 & I1 & O1 & _).
  { eapply has_room_le; [exact Hr|lia]. }
  destruct (ReadHead_ok ls (c_in c1) rest) as (b & E2 & Hd); [by rewrite I1..|done|].
  unfold dialHTTPProxy. cbn [mbind res_bind]. fold request. rewrite E1, E2, Hst. cbn [mbind res_bind].
  change (negb (200 =? 200)%Z) with false. cbn [negb]. pose proof Hd as (Hp & He & Hnb & Hb). split.
  - intros ->. eexists. split; [reflexivity|]. cbn [c_in].
    assert (Hz : pending (discard_body (body_fuel b) None b) = []).
    { eapply discard_unbounded; [split_and!; [reflexivity|exact He|done|done]|]. unfold body_fuel. lia. }
    unfold pending in Hz. by apply app_nil in Hz as [_ ?].
  - intros ->. exists (Conn (br_rd b) (c_out c1)), (br_buf b). split_and!; [done|done|].
    intros Hc Hl. pose proof (ReadHead_one_segment (render_head ls ++ rest) (r_end (c_in c)) Hl) as Hz.
    assert (Hr1 : c_in c1 = Reader [render_head ls ++ rest] (r_end (c_in c))).
    { rewrite I1. destruct (c_in c) as [cs er]. cbn in *. by rewrite Hc. }
    rewrite <- Hr1, E2 in Hz. cbn [snd] in Hz. unfold pending in Hp. by rewrite Hz, app_nil_r in Hp.
Qed.

(** The CONNECT proxy of the dpi client.  A request that is answered with an error
    status leaves no tunnel connection behind (405 for another method, 502 when the
    server does not connect), and neither does a request that was bridged.  But when
    the 200 answer cannot be written, or the download stream not be opened, the
    connection that the server has accepted stays open.  What is copied to the tunnel is
    what follows the request less the bytes the request's buffer holds: a client that
    sends them in the same segment as the request loses them. *)
Theorem http_connect_proxy {T} {HT : Tunnel T} {laws : TunnelLaws T} write_error r (t : T) ls rest method host :
  nonempty_reads r -> Forall head_line ls -> flat r = render_head ls ++ rest ->
  parse_request ls = Ret (method, host) -> ready 3 t ->
  match handleHTTPProxy write_error r t with
  | (Answered status, t') => opened t' = opened t /\
      (status = 405%Z /\ method <> s2b "CONNECT" \/ status = 502%Z /\ method = s2b "CONNECT")
  | (Bridged connID from, t') => opened t' = opened t /\ method = s2b "CONNECT" /\
      exists lost, rest = lost ++ flat from /\
        (r_chunks r = [render_head ls ++ rest] -> length (render_head ls ++ rest) <= bufSize -> lost = rest)
  | (GaveUp, t') => exists connID, opened t' = {[+ connID +]} ⊎ opened t
  end.
Proof.
  intros Hn Hls Hf Hpr Hrd. destruct (ReadHead_ok ls r rest Hf Hn Hls) as (b & E & Hp & He & Hnb & Hb).
  unfold handleHTTPProxy. rewrite E, Hpr. case_bool_decide as Hm; cbn [negb]; [|split; [done|by left]].
  cbv zeta. set (host' := if Contains host (s2b ":") then host else host ++ s2b ":443").
  destruct (tn_Connect (s2b "tcp") host' t) as [[connID|e|q] t1] eqn:Ec.
  - apply (Connect_ok 2) in Ec as [Ho Hr1]; [|done]. destruct write_error; [by exists connID|].
    destruct (newTunnelConn_opened 1 connID t1 Hr1) as [Hno Hr2].
    destruct (tn_newTunnelConn connID t1) as [[c|e|q] t2]; cbn [snd] in Hno, Hr2; [|exists connID; by rewrite Hno..].
    rewrite (Close_opened 0), Hno, Ho, open_close by (done || rewrite Hno, Ho; apply open_in). split_and!; [done|done|]. exists (br_buf b). split; [done|].
    intros Hc Hl. pose proof (ReadHead_one_segment (render_head ls ++ rest) (r_end r) Hl) as Hz.
    assert (Hr : r = Reader [render_head ls ++ rest] (r_end r)) by (destruct r; cbn in *; by rewrite Hc).
    rewrite <- Hr, E in Hz. cbn [snd] in Hz. unfold pending in Hp. by rewrite Hz, app_nil_r in Hp.
  - apply (Connect_err 2) in Ec; [|done]. split; [done|by right].
  - by apply (Connect_panic 2) in Ec.
Qed.
End Properties.

(** The credentials both HTTP clients send are read back by ParseProxyAuth: the user
    name up to its first colon and the password, so exactly the credentials if the user
    name has no colon. *)
Theorem proxy_auth_roundtrip username password :
  exists user pass, ParseProxyAuth (proxy_auth username password) = Some (user, pass) /\ colon ∉ user /\
    user ++ s2b ":" ++ pass = username ++ s2b ":" ++ password /\
    (colon ∉ username -> user = username /\ pass = password).
Proof.
  unfold ParseProxyAuth, proxy_auth.
  rewrite (proj2 (HasPrefix_true _ _)) by eauto. cbn [negb].
  change (drop 6 (s2b "Basic " ++ EncodeToString (username ++ s2b ":" ++ password)))
    with (EncodeToString (username ++ s2b ":" ++ password)).
  rewrite DecodeString_EncodeToString. unfold SplitN2.
  destruct (IndexByte (username ++ s2b ":" ++ password) colon) as [i|] eqn:Ei.
  - apply IndexByte_Some in Ei as [Es Hi]. do 2 eexists. split_and!; [reflexivity|done|by rewrite Es at 3|].
    intros Hu. by apply first_unique in Es as [<- <-].
  - apply IndexByte_None in Ei. destruct Ei. apply elem_of_app. right. left.
Qed.

(** ** Witnesses *)

(** A small HTTP library: the words of the first line. *)
#[export] Instance toy_http : HttpLib := {|
  parse_request ls := match Split (default [] (head ls)) Byte.x20 with m :: h :: _ => Ret (m, h) | _ => Err EOF end;
  parse_status ls :=
    match Split (default [] (head ls)) Byte.x20 with
    | _ :: n :: _ => match Atoi n with Some z => Ret z | None => Err EOF end
    | _ => Err EOF
    end;
  body_length ls := None;
  connect_request addr auth := s2b "CONNECT " ++ addr ++ [CR; LF; CR; LF] |}.

Definition demo_answer : bytes := s2b "HTTP/1.1 200 OK".
Definition demo_conn : conn :=
  Conn (Reader [render_head [demo_answer] ++ s2b "hello"; s2b " world"] EOF) (Writer [] None EOF).

Ltac concrete := apply (bool_decide_unpack _); vm_compute; exact I.

Lemma demo_lines : Forall head_line [demo_answer].
Proof. constructor; [|constructor]. split; [done|concrete]. Qed.

Lemma http_proxy_dial_witness :
  exists h w, httpProxy_Dial (newHTTP (s2b "p:80") None) (Ret demo_conn) None None (s2b "a:1") = Ret (h, w) /\
    w_out w = [] ++ connect_request (s2b "a:1") None /\ delivers (s2b "hello world") EOF (as_reader h) /\
    forall k p e h', httpConn_Read k h = (p, e, h') -> read k (as_reader h) = (p, e, as_reader h').
Proof.
  refine (http_proxy_dial (newHTTP (s2b "p:80") None) demo_conn (s2b "a:1") [demo_answer] (s2b "hello world") 200 _ _ _ _ _).
  - exact I.
  - repeat constructor; discriminate.
  - exact demo_lines.
  - vm_compute. reflexivity.
  - vm_compute. reflexivity.
Defined.

Lemma snowflake_http_proxy_drops_witness :
  exists c', dialHTTPProxy None (Ret demo_conn) (s2b "a:1") = Ret c' /\ flat (c_in c') = [].
Proof.
  refine (proj1 (snowflake_http_proxy_drops None demo_conn (s2b "a:1") [demo_answer] (s2b "hello world") _ _ _ _ _) _).
  - exact I.
  - repeat constructor; discriminate.
  - exact demo_lines.
  - vm_compute. reflexivity.
  - vm_compute. reflexivity.
  - reflexivity.
Defined.

Definition demo_request : bytes := s2b "CONNECT a:1 HTTP/1.1".
Definition demo_client : reader := Reader [render_head [demo_request] ++ s2b "early"; s2b "late"] EOF.

Lemma http_connect_proxy_witness :
  opened (handleHTTPProxy None demo_client up_tunnel).2 = ∅.
Proof.
  pose proof (http_connect_proxy None demo_client up_tunnel [demo_request] (s2b "earlylate") (s2b "CONNECT") (s2b "a:1")) as H.
  assert (E : exists id from, (handleHTTPProxy None demo_client up_tunnel).1 = Bridged id from)
    by (vm_compute; eauto).
  destruct E as (id & from & E). destruct (handleHTTPProxy None demo_client up_tunnel) as [h t']. cbn in E. subst h.
  cbn [snd]. apply H.
  - repeat constructor; discriminate.
  - constructor; [|constructor]. split; [done|concrete].
  - vm_compute. reflexivity.
  - vm_compute. reflexivity.
  - exact I.
Defined.
