(* ===== verification/DpiDial.v ===== *)
(** * The transport as the tunnel of its clients (dpi/client/transport.go, proxy.go)

    The resolver ([Dns]) and the CONNECT proxy ([HttpConnect]) are proved against the
    interface [Tunnel].  Here the transport of [DpiClient] implements it: [opened] is
    read off the requests the transport has made, as the server decodes them. *)
From S2P Require Import Prelude GoIO Strconv DpiCommon DpiServer DpiClient Socks5 Dns.
From stdpp Require Import gmultiset.
Local Open Scope Z_scope.

Section Dial.
Context `{laws : AEADLaws}.
Context (Do : nat -> request -> res response).
(** The connection that the pumps make of a download stream ([DpiTunnel], [DpiJoint]). *)
Context (pumped : Z -> streamReader -> conn).
Context (redirects : nat).

(** [newTunnelConn]: without a stream there is no connection. *)
Definition dial_conn (connID : Z) : io world conn :=
  stream ← DownloadStream Do connID;
  mret (pumped connID stream).

#[export] Instance transport_tunnel : Tunnel world := {|
  tn_Connect := Connect Do (S redirects);
  tn_newTunnelConn := dial_conn;
  tn_CloseConn connID w := (CloseConn Do connID w).2;
  tn_Close connID w := (CloseConn Do connID w).2 |}.

(** ** What the server has been asked *)

(** The type and the identifier of the message in a request. *)
Definition message_of (req : request) : option (Z * Z) :=
  match Decrypt (rq_body req) with
  | Ret plaintext => let h := parse_header plaintext in Some (sh_MsgType h, sh_ConnID h)
  | _ => None
  end.

Definition acknowledged (n : nat) (req : request) : bool :=
  match Do n req with Ret resp => accepted resp | _ => false end.

(** A connect that was acknowledged opens a connection, a close closes one. *)
Definition account (n : nat) (req : request) (o : gmultiset Z) : gmultiset Z :=
  match message_of req with
  | Some (ty, id) =>
      if (ty =? MsgConnect) then if acknowledged n req then {[+ id +]} ⊎ o else o
      else if ty =? MsgClose then o ∖ {[+ id +]} else o
  | None => o
  end.

Fixpoint accounts (n : nat) (reqs : list request) (o : gmultiset Z) : gmultiset Z :=
  match reqs with [] => o | req :: reqs' => accounts (S n) reqs' (account n req o) end.

Definition connections (w : world) : gmultiset Z := accounts 0 (wd_sent w) ∅.

Lemma accounts_app n l1 l2 o : accounts n (l1 ++ l2) o = accounts (n + length l1) l2 (accounts n l1 o).
Proof.
  revert n o. induction l1 as [|req l1 IH]; intros n o; cbn; [by rewrite Nat.add_0_r|]. rewrite IH.
  by rewrite <- Nat.add_succ_comm.
Qed.

Lemma connections_snoc w w' req :
  wd_sent w' = wd_sent w ++ [req] -> connections w' = account (length (wd_sent w)) req (connections w).
Proof. intros E. unfold connections. by rewrite E, accounts_app. Qed.

(** Identifiers are 32-bit numbers. *)
Lemma message_range req ty id : message_of req = Some (ty, id) -> 0 <= id < 2 ^ 32.
Proof.
  unfold message_of. destruct (Decrypt (rq_body req)) as [p| |]; [|done..]. intros [= _ <-]. unfold parse_header. cbn [sh_ConnID].
  pose proof (be_get_range (take 4 (drop 2 p))) as Hr.
  assert (len (take 4 (drop 2 p)) <= 4) by (unfold len; rewrite length_take; lia).
  assert (2 ^ (8 * len (take 4 (drop 2 p))) <= 2 ^ 32) by (apply Z.pow_le_mono_r; lia). lia.
Qed.

Lemma connections_range w id : id ∈ connections w -> 0 <= id < 2 ^ 32.
Proof.
  unfold connections. assert (H0 : forall i, i ∈ (∅ : gmultiset Z) -> 0 <= i < 2 ^ 32) by multiset_solver.
  revert H0. generalize (∅ : gmultiset Z). generalize O. induction (wd_sent w) as [|req l IH]; cbn [accounts]; [auto|].
  intros n o Ho. apply IH. intros i Hi. unfold account in Hi. destruct (message_of req) as [[ty id']|] eqn:Em; [|auto].
  apply message_range in Em. destruct (ty =? MsgConnect).
  - destruct (acknowledged n req); [|auto]. apply gmultiset_elem_of_disj_union in Hi as [->%gmultiset_elem_of_singleton|]; auto.
  - destruct (ty =? MsgClose); [|auto]. apply Ho. multiset_solver.
Qed.

(** ** The requests of the transport *)

Definition able (n : nat) (w : world) : Prop :=
  (n * NonceSize <= length (flat (wd_rand w)))%nat /\ 1 <= tp_connIDGen (wd_tp w) < 2 ^ 32.

Lemma upload_message {A} n ty id size payload path (k : Transport -> response -> io world A) w :
  (S n * NonceSize <= length (flat (wd_rand w)))%nat -> 0 <= ty < 256 -> 0 <= id < 2 ^ 32 ->
  exists req w1, message_of req = Some (ty, id) /\ wd_sent w1 = wd_sent w ++ [req] /\ wd_tp w1 = wd_tp w /\
    (n * NonceSize <= length (flat (wd_rand w1)))%nat /\
    (encrypted ← encrypt (header_bytes ty id size ++ payload); tp ← get_tp;
     resp ← do_request Do (upload_request tp path encrypted); k tp resp) w =
    match Do (length (wd_sent w)) req with
    | Ret resp => k (wd_tp w) resp w1 | Err e => (Err e, w1) | Panic y => (Panic y, w1)
    end.
Proof.
  intros Hr Hty Hid. set (plain := header_bytes ty id size ++ payload).
  destruct (Encrypt_cases plain (wd_rand w)) as [(_ & nonce & rnd' & (Hf & _) & Hn & E)|(Hlt & _)]; [|lia].
  set (req := upload_request (wd_tp w) path (nonce ++ Seal nonce plain)).
  exists req, (World (wd_tp w) rnd' (wd_sent w ++ [req])). split_and!; try done.
  - unfold message_of, req. cbn [rq_body upload_request]. unfold setBrowserHeaders. cbn [rq_body].
    rewrite Decrypt_sealed by done. unfold plain. rewrite parse_header_bytes. cbn. unfold u32.
    by rewrite !Z.mod_small by lia.
  - cbn [wd_rand]. rewrite Hf, length_drop. lia.
  - unfold encrypt, get_tp, do_request, mbind, io_bind. rewrite E. cbn. fold req. by destruct (Do _ _).
Qed.

(** [httpClient.Do] returns, and the server does not redirect. *)
Context (Do_returns : forall n req p, Do n req <> Panic p).
Context (Do_direct : forall n req resp, Do n req = Ret resp -> is_redirect resp = false).

Lemma connect_request n network addr w :
  able (S n) w ->
  exists req w1, message_of req = Some (MsgConnect, tp_connIDGen (wd_tp w)) /\ wd_sent w1 = wd_sent w ++ [req] /\ able n w1 /\
    Connect Do (S redirects) network addr w =
      (match Do (length (wd_sent w)) req with
       | Ret resp => if accepted resp then Ret (tp_connIDGen (wd_tp w)) else Err (ErrMsg "connect failed")
       | Err e => Err e | Panic y => Panic y end, w1).
Proof.
  intros [Hr Hg]. set (payload := EncodeConnectRequest (DpiCommon.Connect network addr)).
  set (w0 := World (NextConnID (wd_tp w)).2 (wd_rand w) (wd_sent w)).
  destruct (upload_message n MsgConnect (tp_connIDGen (wd_tp w)) (u32 (len payload)) payload
    (s2b "/.well-known/cdn-cache/upload") (connect_reply (Connect Do redirects network addr) (tp_connIDGen (wd_tp w))) w0)
    as (req & w1 & Hm & Hs & Ht & Hr1 & E); [done|done|lia|].
  exists req, w1. split_and!; try done.
  - split; [done|]. rewrite Ht. destruct (NextConnID_gen (wd_tp w) Hg) as [_ Hn]. cbn [w0 wd_tp]. rewrite Hn.
    assert (Hp : 0 < id_period) by done. pose proof (Z.mod_pos_bound (tp_connIDGen (wd_tp w)) id_period Hp).
    unfold id_period in *. lia.
  - cbn [Connect]. erewrite (io_bind_ret next_conn_id) by reflexivity. etransitivity; [exact E|]. cbn [w0 wd_sent].
    destruct (Do (length (wd_sent w)) req) as [resp|e|y] eqn:Ed; [|done..]. unfold connect_reply.
    pose proof (Do_direct _ _ _ Ed) as Hd. unfold is_redirect in Hd. rewrite Hd. unfold accepted.
    destruct (rs_StatusCode resp =? 200); [|done]. by destruct (Contains _ _).
Qed.

Lemma close_request n id w :
  able (S n) w -> 0 <= id < 2 ^ 32 ->
  exists req w1, message_of req = Some (MsgClose, id) /\ wd_sent w1 = wd_sent w ++ [req] /\ able n w1 /\
    (CloseConn Do id w).2 = w1.
Proof.
  intros [Hr Hg] Hid.
  destruct (upload_message n MsgClose id 0 [] (s2b "/api/v2/upload") (fun _ _ => mret tt) w)
    as (req & w1 & Hm & Hs & Ht & Hr1 & E); [done|done|done|].
  exists req, w1. rewrite app_nil_r in E. split_and!; try done.
  - split; [done|by rewrite Ht].
  - unfold CloseConn. rewrite E. by destruct (Do _ _).
Qed.

Lemma stream_request n id w :
  able (S n) w ->
  exists req w1, message_of req = None /\ wd_sent w1 = wd_sent w ++ [req] /\ able n w1 /\
    (dial_conn id w).2 = w1 /\ forall p, (dial_conn id w).1 <> Panic p.
Proof.
  intros [Hr Hg]. unfold dial_conn, DownloadStream, get_tp, do_request, mbind, io_bind.
  set (req := Request _ _ _ _ _). exists req, (World (wd_tp w) (wd_rand w) (wd_sent w ++ [req])). split_and!.
  - unfold message_of, req. cbn [rq_body]. unfold setBrowserHeaders. cbn [rq_body]. done.
  - done.
  - split; [cbn [wd_rand]; lia|done].
  - destruct (Do _ _) as [resp|e|y]; [|done..]. by destruct (negb _).
  - intros p. destruct (Do (length (wd_sent w)) req) as [resp|e|y] eqn:Ed; [by destruct (negb _)|done|].
    by destruct (Do_returns _ _ _ Ed).
Qed.

#[export] Program Instance transport_tunnel_laws : TunnelLaws world := {| opened := connections; ready := able |}.
Next Obligation.
  intros n network addr w id w' Hr E. destruct (connect_request n network addr w Hr) as (req & w1 & Hm & Hs & Hr1 & E1).
  change (tn_Connect network addr w) with (Connect Do (S redirects) network addr w) in E.
  rewrite E1 in E. injection E as Ei <-. split; [|done]. rewrite (connections_snoc _ _ _ Hs).
  unfold account, acknowledged. rewrite Hm. destruct (Do _ _) as [resp| |]; [|done..].
  destruct (accepted resp); [|done]. by injection Ei as <-.
Qed.
Next Obligation.
  intros n network addr w e w' Hr E. destruct (connect_request n network addr w Hr) as (req & w1 & Hm & Hs & Hr1 & E1).
  change (tn_Connect network addr w) with (Connect Do (S redirects) network addr w) in E.
  rewrite E1 in E. injection E as Ei <-. rewrite (connections_snoc _ _ _ Hs).
  unfold account, acknowledged. rewrite Hm. destruct (Do _ _) as [resp| |]; [by destruct (accepted resp)|done..].
Qed.
Next Obligation.
  intros n network addr w p w' Hr E. destruct (connect_request n network addr w Hr) as (req & w1 & Hm & Hs & Hr1 & E1).
  change (tn_Connect network addr w) with (Connect Do (S redirects) network addr w) in E.
  rewrite E1 in E. injection E as Ei <-. destruct (Do _ _) as [resp| |] eqn:Ed;
    [by destruct (accepted resp)|done|]. by destruct (Do_returns _ _ _ Ed).
Qed.
Next Obligation.
  intros n id w Hr. destruct (stream_request n id w Hr) as (req & w1 & Hm & Hs & Hr1 & E1 & _). cbn. rewrite E1.
  split; [|done]. rewrite (connections_snoc _ _ _ Hs). unfold account. by rewrite Hm.
Qed.
Next Obligation.
  intros n id w p w' Hr E. destruct (stream_request n id w Hr) as (req & w1 & _ & _ & _ & _ & Hp). cbn in E.
  apply (Hp p). by rewrite E.
Qed.
Next Obligation.
  intros n id w Hr Hin. destruct (close_request n id w Hr (connections_range _ _ Hin)) as (req & w1 & Hm & Hs & _ & E1).
  cbn. rewrite E1, (connections_snoc _ _ _ Hs). unfold account. by rewrite Hm.
Qed.
Next Obligation.
  intros n id w Hr Hin. destruct (close_request n id w Hr (connections_range _ _ Hin)) as (req & w1 & Hm & Hs & _ & E1).
  cbn. rewrite E1, (connections_snoc _ _ _ Hs). unfold account. by rewrite Hm.
Qed.
End Dial.

(** ** Properties *)


(** A server that accepts every connect and whose downloads are empty. *)
Definition kind_server (n : nat) (req : request) : res response :=
  Ret (Response 200 [] (Reader [body_connected 1] EOF)).
Definition quiet_conn (id : Z) (sr : streamReader) : conn := Conn (Reader [] EOF) (Writer [] None EOF).

