(* ===== verification/Serve.v ===== *)
(** * Accepting and dialing connections (obfs/server/server.go, obfs/client/client.go,
    main/snowflake.go, standalone/client.go, standalone/proxy.go, standalone/session.go,
    socks5/socks5.go, dpi/client/proxy.go, dpi/client/utls_dial.go)

    The accept loops of the program's listeners, the handlers they start that are not
    modelled elsewhere, and how the snowflake client chooses the way to its server. *)
From S2P Require Import Prelude GoIO Strconv NetAddr Urls Socks5 Dns HttpConnect.

(** ** Accept loops *)

(** An error of [Accept]: whether it is a [net.Error], and then [Temporary()]. *)
Record accept_error := AcceptError { ae_net : option bool; ae_err : error }.

(** The loops differ in the errors that end them. *)
Definition obfs_fatal (e : accept_error) : bool :=
  match ae_net e with Some temporary => negb temporary | None => false end.
Definition snowflake_fatal (e : accept_error) : bool :=
  match ae_net e with Some temporary => negb temporary | None => true end.
Definition http_fatal (e : accept_error) : bool := true.

(** The connections given to handlers, and the error the loop returned, if it did:
    [results] is what successive calls of [Accept] return. *)
Fixpoint accept_loop {C} (fatal : accept_error -> bool) (results : list (C + accept_error))
    : list C * option accept_error :=
  match results with
  | [] => ([], None)
  | inl conn :: results => let '(handled, r) := accept_loop fatal results in (conn :: handled, r)
  | inr e :: results => if fatal e then ([], Some e) else accept_loop fatal results
  end.

Definition serverAcceptLoop {C} := accept_loop (C := C) obfs_fatal.
Definition clientAcceptLoop {C} := accept_loop (C := C) obfs_fatal.
Definition ServeLocalSOCKS {C} := accept_loop (C := C) snowflake_fatal.
Definition ServeTunnelForward {C} := accept_loop (C := C) snowflake_fatal.
Definition serveSnowflakeSOCKS {C} := accept_loop (C := C) snowflake_fatal.
Definition ListenAndServe {C} := accept_loop (C := C) snowflake_fatal.
Definition serveHTTP {C} := accept_loop (C := C) http_fatal.

(** ** The handler of the obfs server *)

Inductive effect :=
  | Handshake | DialedOR (from : bytes) | Copied (r : option error) | ClosedOR | ClosedConn.

(** [WrapConn] and [DialOr] are the library's; [copy] is what [copyLoop] returns.  The
    deferred calls run in reverse order. *)
Definition serverHandler (WrapConn : option error) (DialOr : bytes -> option error) (RemoteAddr : bytes)
    (copy : option error) : list effect :=
  match WrapConn with
  | Some _ => [Handshake; ClosedConn]
  | None =>
      match DialOr RemoteAddr with
      | Some _ => [Handshake; DialedOR RemoteAddr; ClosedConn]
      | None => [Handshake; DialedOR RemoteAddr; Copied copy; ClosedOR; ClosedConn]
      end
  end.

(** ** The exit of the snowflake server: a SOCKS5 server that dials *)

(** What became of a connection: closed, with the remote connection closed too if it
    had been opened; or copied to and from the remote. *)
Inductive exit_outcome := Refused | Opened (network addr : bytes) | Bridged (network addr : bytes).

Definition exit_handler (Dial : bytes -> bytes -> option error) (c : conn) : exit_outcome * conn :=
  match HandshakeServer c with
  | (Ret target, c1) =>
      match Dial (tg_Network target) (Addr target) with
      | Some _ => (Refused, (ReplyConnectFailed c1).2)
      | None =>
          match ReplyConnectSuccess c1 with
          | (Ret _, c2) => (Bridged (tg_Network target) (Addr target), c2)
          | (_, c2) => (Opened (tg_Network target) (Addr target), c2)
          end
      end
  | (_, c1) => (Refused, c1)
  end.

(** ** The upstream proxy of the snowflake client *)

Record proxy_url := ProxyURL { pu_Scheme : bytes; pu_Host : bytes; pu_User : option (bytes * option bytes) }.

(** The first connection made for a dial: to the target itself, to a SOCKS5 proxy,
    or over plain TCP to an HTTP proxy. *)
Inductive way :=
  | Direct (network addr : bytes)
  | ViaSOCKS5 (proxy : proxy_url) (network addr : bytes)
  | ViaHTTP (proxyAddr : bytes) (user : option (bytes * option bytes)) (addr : bytes).

Section Proxy.
(** [url.Parse], [proxy.FromURL] and the Unicode part of [strings.ToLower]. *)
Context (url_Parse : bytes -> res proxy_url) (FromURL : proxy_url -> option error) (lower_rune : bytes -> bytes).

Definition ProxyDialer (proxyURL network addr : bytes) : res way :=
  if decide (proxyURL = []) then Ret (Direct network addr)
  else
    match url_Parse proxyURL with
    | Ret u =>
        let scheme := ToLower lower_rune (pu_Scheme u) in
        if bool_decide (scheme = s2b "socks5" \/ scheme = s2b "socks5h") then
          match FromURL u with
          | Some e => Err e
          | None => Ret (ViaSOCKS5 u network addr)
          end
        else if bool_decide (scheme = s2b "http" \/ scheme = s2b "https")
        then Ret (ViaHTTP (proxyAddr (pu_Scheme u) (pu_Host u)) (pu_User u) addr)
        else Err (ErrMsg "unsupported proxy scheme")
    | Err _ => Err (ErrMsg "invalid proxy URL")
    | Panic p => Panic p
    end.

(** [websocket.Dialer] as far as it is set. *)
Record ws_dialer := WSDialer {
  wd_NetDial : bytes -> bytes -> res way; wd_InsecureSkipVerify : bool; wd_MinTLS12 : bool }.
Definition WebSocketDialer (proxyURL : bytes) (insecureTLS : bool) : ws_dialer :=
  WSDialer (ProxyDialer proxyURL) insecureTLS insecureTLS.
End Proxy.

(** ** Sessions *)

(** [sessionCloser.Close]: what each [Close] returns, in order. *)
Fixpoint close_all (first : option error) (closers : list (option error)) : option error :=
  match closers with
  | [] => first
  | e :: closers => close_all (match first with None => e | Some _ => first end) closers
  end.
Definition sessionCloser_Close (closers : list (option error)) : option error * nat :=
  (close_all None closers, length closers).

(** The layers of a client session: the redialing packet connection, KCP, smux. *)
Inductive layer := PConn | KCPConn.
(** The closer that is returned, or the error; and the layers closed before returning. *)
Definition NewClientSession (NewConn2 smux_Client : option error) : res (list layer) * list layer :=
  match NewConn2 with
  | Some e => (Err e, [PConn])
  | None =>
      match smux_Client with
      | Some e => (Err e, [KCPConn; PConn])
      | None => (Ret [KCPConn; PConn], [])
      end
  end.

(** [utlsDialer.DialContext]: the name the certificate is checked against. *)
Definition utls_ServerName (config_ServerName addr : bytes) : bytes :=
  let host := match SplitHostPort addr with Ret (host, _) => host | _ => addr end in
  if decide (config_ServerName = []) then host else config_ServerName.

(** ** Properties *)

(** Accept loops hand out every connection once: the connections given to
    handlers are those accepted before the first error that ends the loop, in order,
    whatever other errors come between, and the loop returns exactly on such an error,
    the first one.  The closing of the listener, a [net.Error] that is not temporary,
    ends every loop; an error that is no [net.Error] ends the loops of snowflake but
    leaves those of obfs accepting. *)
Theorem accept_loop_spec {C} fatal (results : list (C + accept_error)) :
  (exists before after,
    results = before ++ after /\ Forall (fun r => match r with inr e => fatal e = false | inl _ => True end) before /\
    (accept_loop fatal results).1 = omap (fun r => match r with inl c => Some c | inr _ => None end) before /\
    match (accept_loop fatal results).2 with
    | None => after = []
    | Some e => fatal e = true /\ head after = Some (inr e)
    end) /\
  (forall e, ae_net e = Some false -> obfs_fatal e = true /\ snowflake_fatal e = true /\ http_fatal e = true) /\
  (forall e, ae_net e = None -> obfs_fatal e = false /\ snowflake_fatal e = true).
Proof.
  split; [|split; intros e He; unfold obfs_fatal, snowflake_fatal; by rewrite He].
  induction results as [|[c|e] results (before & after & -> & Hb & H1 & H2)]; cbn [accept_loop].
  - by exists [], [].
  - destruct (accept_loop fatal (before ++ after)) as [handled r]. cbn in H1, H2 |- *.
    exists (inl c :: before), after. split_and!; [done|by constructor|cbn; by rewrite H1|done].
  - destruct (fatal e) eqn:Ef; [by exists [], (inr e :: before ++ after)|].
    exists (inr e :: before), after. split_and!; [done|by constructor|done|done].
Qed.

(** Whatever the handshake and the dial return, the handler of the obfs server
    closes the client's connection exactly once, as its last action; it dials the OR
    port only after a handshake that succeeded, and closes that connection exactly once
    if it was opened, before the client's. *)
Theorem obfs_handler_closes WrapConn DialOr RemoteAddr copy :
  let tr := serverHandler WrapConn DialOr RemoteAddr copy in
  (exists tr0, tr = tr0 ++ [ClosedConn] /\ ClosedConn ∉ tr0) /\
  (DialedOR RemoteAddr ∈ tr <-> WrapConn = None) /\
  (ClosedOR ∈ tr <-> WrapConn = None /\ DialOr RemoteAddr = None) /\
  (forall r, Copied r ∈ tr -> exists tr1 tr2, tr = tr1 ++ Copied r :: tr2 /\ tr2 = [ClosedOR; ClosedConn]).
Proof.
  assert (Hn : forall x l, @elem_of effect _ _ x l <-> In x l) by (intros; apply list_elem_of_In).
  cbn. unfold serverHandler. destruct WrapConn as [e|]; [|destruct (DialOr RemoteAddr) as [e|]].
  - split; [exists [Handshake]; split; [done|]|]; rewrite ?Hn; cbn; [naive_solver|].
    split; [naive_solver|]. split; [naive_solver|]. intros r. rewrite Hn. cbn. naive_solver.
  - split; [exists [Handshake; DialedOR RemoteAddr]; split; [done|]|]; rewrite ?Hn; cbn; [naive_solver|].
    split; [naive_solver|]. split; [naive_solver|]. intros r. rewrite Hn. cbn. naive_solver.
  - split; [exists [Handshake; DialedOR RemoteAddr; Copied copy; ClosedOR]; split; [done|]|]; rewrite ?Hn; cbn; [naive_solver|].
    split; [naive_solver|]. split; [naive_solver|]. intros r. rewrite Hn. cbn.
    intros Hr. assert (r = copy) as -> by naive_solver. by exists [Handshake; DialedOR RemoteAddr], [ClosedOR; ClosedConn].
Qed.


(** The upstream proxy does not leak: with a proxy configured, a dial either
    fails or goes to that proxy, never to the target; without one it goes to the target.
    An HTTP proxy is reached over plain TCP even if its URL says https. *)
Theorem proxy_no_leak url_Parse FromURL lower_rune proxyURL insecure network addr :
  let dial := wd_NetDial (WebSocketDialer url_Parse FromURL lower_rune proxyURL insecure) network addr in
  (proxyURL = [] -> dial = Ret (Direct network addr)) /\
  (proxyURL <> [] -> forall w, dial = Ret w ->
     exists u, url_Parse proxyURL = Ret u /\
       (w = ViaSOCKS5 u network addr \/ w = ViaHTTP (proxyAddr (pu_Scheme u) (pu_Host u)) (pu_User u) addr)).
Proof.
  cbn. unfold ProxyDialer. split; intros Hp; [by rewrite decide_True|]. rewrite decide_False by done.
  intros w. destruct (url_Parse proxyURL) as [u| |]; [|done..].
  destruct (bool_decide _); [destruct (FromURL u); [done|]|destruct (bool_decide _); [|done]];
    intros [= <-]; exists u; auto.
Qed.

(** A session is released: when [NewClientSession] fails it has closed the layers it
    made, in reverse order, and otherwise has closed nothing and returns them to be
    closed so; closing them closes every one and reports the first error. *)
Theorem session_closed NewConn2 smux_Client :
  match NewClientSession NewConn2 smux_Client with
  | (Ret closer, closed) => closed = [] /\ closer = [KCPConn; PConn]
  | (_, closed) => closed = (if NewConn2 is Some _ then [PConn] else [KCPConn; PConn])
  end /\
  forall closers, sessionCloser_Close closers = (head (omap id closers), length closers).
Proof.
  split; [by destruct NewConn2, smux_Client|]. intros closers. unfold sessionCloser_Close. f_equal.
  assert (H : forall first, close_all first closers = match first with Some e => Some e | None => head (omap id closers) end).
  { induction closers as [|e closers IH]; intros first; cbn [close_all]; [by destruct first|].
    rewrite IH. by destruct first, e. }
  apply H.
Qed.

(** ** Witnesses *)

Definition demo_exit_conn : conn :=
  Conn (Reader [greeting [Byte.x00]; Socks5.connect_request Byte.x00 (AddrDomain (s2b "a.b")) 80; s2b "GET"] EOF) (Writer [] None EOF).


Definition demo_parse (s : bytes) : res proxy_url := Ret (ProxyURL (s2b "socks5") s None).

Lemma proxy_no_leak_witness :
  exists u, demo_parse (s2b "p:1080") = Ret u /\
    (ViaSOCKS5 u (s2b "tcp") (s2b "t:443") = ViaSOCKS5 u (s2b "tcp") (s2b "t:443") \/
     ViaSOCKS5 u (s2b "tcp") (s2b "t:443") = ViaHTTP (proxyAddr (pu_Scheme u) (pu_Host u)) (pu_User u) (s2b "t:443")).
Proof.
  destruct (proj2 (proxy_no_leak demo_parse (fun _ => None) id (s2b "p:1080") false (s2b "tcp") (s2b "t:443")))
    with (w := ViaSOCKS5 (ProxyURL (s2b "socks5") (s2b "p:1080") None) (s2b "tcp") (s2b "t:443")) as (u & E & _);
    [discriminate|vm_compute; reflexivity|]. exists u. split; [exact E|left; reflexivity].
Defined.
