(* ===== verification/Launch.v ===== *)
(** * Starting the program (main/ptbridge.go, main/dpi.go, main/snowflake.go,
    dpi/server/server.go, common/utils/PortTool.go)

    The loop of [main] over the entries of the configuration, and the launch functions
    of the dpi and snowflake transports: which addresses are listened on and with which
    settings, and what is left running when a launch fails. *)
From S2P Require Import Prelude Strconv NetAddr Urls Config DpiClient.
Local Open Scope Z_scope.

(** ** Strings *)

(** The encodings of the white-space characters of [unicode.IsSpace]. *)
Definition spaces : list bytes :=
  [[Byte.x09]; [Byte.x0a]; [Byte.x0b]; [Byte.x0c]; [Byte.x0d]; [Byte.x20]; [Byte.xc2; Byte.x85]; [Byte.xc2; Byte.xa0];
   [Byte.xe1; Byte.x9a; Byte.x80]] ++
  ((fun b => [Byte.xe2; Byte.x80; to_byte (128 + Z.of_nat b)]) <$> seq 0 11) ++
  [[Byte.xe2; Byte.x80; Byte.xa8]; [Byte.xe2; Byte.x80; Byte.xa9]; [Byte.xe2; Byte.x80; Byte.xaf];
   [Byte.xe2; Byte.x81; Byte.x9f]; [Byte.xe3; Byte.x80; Byte.x80]].

(** One white-space character at the start of [s], from the list [sps]. *)
Definition strip_space (sps : list bytes) (s : bytes) : option bytes :=
  head (omap (fun sp => strip_prefix sp s) sps).
Fixpoint trim_left (fuel : nat) (sps : list bytes) (s : bytes) : bytes :=
  match fuel with
  | O => s
  | S fuel => match strip_space sps s with Some s' => trim_left fuel sps s' | None => s end
  end.
(** [strings.TrimSpace]; each round removes at least one byte. *)
Definition TrimSpace (s : bytes) : bytes :=
  let s := trim_left (length s) spaces s in
  rev (trim_left (length s) (@rev byte <$> spaces) (rev s)).

Definition dpiOrDefault (value fallback : bytes) : bytes :=
  if decide (TrimSpace value = []) then fallback else value.

Definition dpiDefaultEncKey : bytes := s2b "default-encryption-key-change-me".
Definition dpiDefaultProtocol : bytes := s2b "auto".
Definition dpiDefaultSocksAddr : bytes := s2b "127.0.0.1:1080".
Definition dpiDefaultDnsUpstream : bytes := s2b "1.1.1.1:53".
Definition dpiDefaultDnsNetwork : bytes := s2b "tcp".
Definition snowflakeDefaultWsListen : bytes := s2b "0.0.0.0:8080".
Definition snowflakeDefaultSocks : bytes := s2b "127.0.0.1:0".

(** ** The dpi server *)

Record Config := MkConfig {
  HTTPAddr : bytes; HTTPSAddr : bytes; TLSCertFile : bytes; TLSKeyFile : bytes;
  ACMEEmail : bytes; ACMEDomain : bytes; SelfSigned : bool; RedirectURL : bytes;
  EncryptionKey : bytes; CertDir : bytes; Protocol : bytes }.

(** Where the certificate of a TLS listener comes from. *)
Inductive certificate :=
  | FromACME (domain certDir : bytes)
  | FromFiles (certFile keyFile : bytes)
  | FromSelf.
Record tls_Config := TLSConfig { Certificates : certificate; NextProtos : list bytes }.

(** A parsed URL, as far as it is used. *)
Record URL := MkURL { u_Scheme : bytes; u_Host : bytes; u_Hostname : bytes }.

(** What the operating system and the libraries answer. *)
Record env := Env {
  Listen : bytes -> option error;
  ExecutableDir : bytes;
  ALPNProto : bytes;
  LoadX509KeyPair : bytes -> bytes -> option error;
  generateSelfSigned : option error;
  url_Parse : bytes -> res URL;
  LookupIP : bytes -> res (list bytes) }.

(** What runs on an address. *)
Inductive service :=
  | DpiHTTP (cfg : Config)
  | DpiHTTPS (cfg : Config) (tls : tls_Config)
  | DpiHTTPProxy (t : Transport)
  | DpiSOCKS (t : Transport) (dnsNetwork dnsUpstream : bytes)
  | SnowflakeWS (tls : option (bytes * bytes)) (exit : bytes)
  | SnowflakeExit
  | SnowflakeSOCKS
  | SnowflakeForward.

Definition tlsNextProtos (E : env) (protocol : bytes) (withACME : bool) : list bytes :=
  (if decide (protocol = s2b "h1") then [s2b "http/1.1"] else [s2b "h2"; s2b "http/1.1"]) ++
  (if withACME then [ALPNProto E] else []).

Definition buildTLSConfig (E : env) (cfg : Config) : res tls_Config :=
  proto ← normalizeAppProtocol (Protocol cfg);
  if negb (bool_decide (ACMEEmail cfg = [])) && negb (bool_decide (ACMEDomain cfg = [])) then
    let certDir := if decide (CertDir cfg = []) then ExecutableDir E else CertDir cfg in
    mret (TLSConfig (FromACME (ACMEDomain cfg) certDir) (tlsNextProtos E proto true))
  else if negb (bool_decide (TLSCertFile cfg = [])) && negb (bool_decide (TLSKeyFile cfg = [])) then
    match LoadX509KeyPair E (TLSCertFile cfg) (TLSKeyFile cfg) with
    | Some e => Err e
    | None => mret (TLSConfig (FromFiles (TLSCertFile cfg) (TLSKeyFile cfg)) (tlsNextProtos E proto false))
    end
  else if SelfSigned cfg then
    match generateSelfSigned E with
    | Some e => Err e
    | None => mret (TLSConfig FromSelf (tlsNextProtos E proto false))
    end
  else Err (ErrMsg "no TLS configuration (cert+key, ACME, or self-signed)").

(** The outcome and the listeners that are served when [Run] has returned. *)
Definition Run_https (E : env) (cfg : Config) (listeners : list (bytes * service))
    : res unit * list (bytes * service) :=
  if decide (HTTPSAddr cfg = []) then (Ret tt, listeners)
  else
    match buildTLSConfig E cfg with
    | Ret tls =>
        match Listen E (HTTPSAddr cfg) with
        | Some e => (Err e, listeners)
        | None => (Ret tt, listeners ++ [(HTTPSAddr cfg, DpiHTTPS cfg tls)])
        end
    | Err e => (Err e, listeners)
    | Panic p => (Panic p, listeners)
    end.
Definition Run (E : env) (cfg : Config) : res unit * list (bytes * service) :=
  if decide (HTTPAddr cfg = []) then Run_https E cfg []
  else
    match Listen E (HTTPAddr cfg) with
    | Some e => (Err e, [])
    | None => Run_https E cfg [(HTTPAddr cfg, DpiHTTP cfg)]
    end.

Definition dpi_config (c : JsonServerConfigImpl) : Config :=
  MkConfig (sc_HttpAddr c) (sc_HttpsAddr c) (sc_TlsCertFile c) (sc_TlsKeyFile c) (sc_AcmeEmail c) (sc_AcmeDomain c)
    (sc_SelfSigned c) (sc_Redirect c) (dpiOrDefault (sc_EncKey c) dpiDefaultEncKey) (sc_CertDir c)
    (dpiOrDefault (sc_Protocol c) dpiDefaultProtocol).

(** [NewServer] does not fail: any key is hashed to an AES-256 key. *)
Definition launchDpiServer (E : env) (c : JsonServerConfigImpl) : bool * list (bytes * service) :=
  let cfg := dpi_config c in
  if bool_decide (HTTPAddr cfg = []) && bool_decide (HTTPSAddr cfg = []) then (false, [])
  else if negb (bool_decide (HTTPSAddr cfg = [])) && negb (SelfSigned cfg) && bool_decide (ACMEEmail cfg = []) &&
          bool_decide (TLSCertFile cfg = []) then (false, [])
  else
    match Run E cfg with
    | (Ret _, listeners) => (true, listeners)
    | (_, listeners) => (false, listeners)
    end.

(** ** The dpi client *)

Definition resolveServerIP (E : env) (u : URL) : res bytes :=
  let host := u_Hostname u in
  if decide (host = []) then Err (ErrMsg "server URL has no hostname")
  else
    match ParseIP host with
    | Some ip => Ret (IP_String ip)
    | None =>
        match LookupIP E host with
        | Ret [] => Err (ErrMsg "no addresses")
        | Ret (ip :: ips) =>
            match omap To4 (ip :: ips) with
            | v4 :: _ => Ret (String4 v4)
            | [] => Ret (IP_String ip)
            end
        | Err e => Err e
        | Panic p => Panic p
        end
    end.

(** The address the client's HTTP transport connects to for [addr]: the [DialContext]
    of [NewTransport]; [hostname] and [scheme] are those of the server URL. *)
Definition dial_addr (hostname scheme frontIP addr : bytes) : bytes :=
  if Contains addr hostname then
    let port :=
      match SplitHostPort addr with
      | Ret (_, port) => port
      | _ => if decide (scheme = s2b "https") then s2b "443" else s2b "80"
      end in
    JoinHostPort frontIP port
  else addr.

Record dpi_client := DpiClient {
  dc_transport : Transport; dc_hostname : bytes; dc_encKey : bytes; dc_ServerName : bytes;
  dc_InsecureSkipVerify : bool; dc_followRedirects : bool }.

(** The dial address: the front IP of the entry, or the resolved server. *)
Definition client_dialIP (E : env) (c : JsonClientConfigImpl) (u : URL) : res bytes :=
  let dialIP := TrimSpace (cl_FrontIP c) in
  if decide (dialIP = []) then resolveServerIP E u
  else match ParseIP dialIP with Some ip => Ret (IP_String ip) | None => Err (ErrMsg "dpi client invalid front-ip") end.

Definition dpi_transport (E : env) (c : JsonClientConfigImpl) : res dpi_client :=
  if decide (TrimSpace (cl_Address c) = []) then Err (ErrMsg "dpi client requires a server address (URL)")
  else
    u ← url_Parse E (cl_Address c);
    dialIP ← client_dialIP E c u;
    transport ← NewTransport (cl_Address c) (Ret (u_Scheme u, u_Host u)) (cl_FrontHost c) dialIP
                  (dpiOrDefault (cl_Protocol c) dpiDefaultProtocol);
    mret (DpiClient transport (u_Hostname u) (dpiOrDefault (cl_EncKey c) dpiDefaultEncKey)
            (if decide (cl_Sni c = []) then u_Hostname u else cl_Sni c) (cl_Insecure c) (default true (cl_FollowRedirect c))).

(** [ProxyServer.Run]: the SOCKS server is started first, on its own goroutine. *)
Definition proxy_Run (E : env) (t : Transport) (socksAddr httpAddr dnsNetwork dnsUpstream : bytes)
    : bool * list (bytes * service) :=
  let socks := if decide (socksAddr = []) then [] else [(socksAddr, DpiSOCKS t dnsNetwork dnsUpstream)] in
  if decide (httpAddr = []) then (true, socks)
  else match Listen E httpAddr with Some _ => (false, socks) | None => (true, socks ++ [(httpAddr, DpiHTTPProxy t)]) end.

Definition client_socksAddr (c : JsonClientConfigImpl) : bytes :=
  if bool_decide (cl_Listen c = []) && bool_decide (cl_HttpProxyAddr c = []) then dpiDefaultSocksAddr else cl_Listen c.

Definition launchDpiClient (E : env) (c : JsonClientConfigImpl) : bool * list (bytes * service) :=
  match dpi_transport E c with
  | Ret d =>
      proxy_Run E (dc_transport d) (client_socksAddr c) (cl_HttpProxyAddr c)
        (dpiOrDefault (cl_DnsNetwork c) dpiDefaultDnsNetwork) (dpiOrDefault (cl_DnsUpstream c) dpiDefaultDnsUpstream)
  | _ => (false, [])
  end.

(** ** Snowflake *)

(** The name resolution and the session layers, which are libraries, as their outcomes;
    [sf_ListenerAddr] is the address a listener reports (the port may be chosen by the
    system). *)
Record snowflake_env := SnowflakeEnv {
  sf_ResolveTCPAddr : bytes -> option error;
  sf_NewServer : option error;
  sf_ListenerAddr : bytes -> bytes;
  sf_NewClientSession : option error }.

(** The WebSocket server listens on its own goroutine: the launch does not wait for it. *)
Definition launchSnowflakeServer (E : env) (SE : snowflake_env) (c : JsonServerConfigImpl)
    : bool * list (bytes * service) :=
  let wsAddr := dpiOrDefault (sc_Listen c) snowflakeDefaultWsListen in
  match sf_ResolveTCPAddr SE wsAddr with
  | Some _ => (false, [])
  | None =>
      match sf_NewServer SE with
      | Some _ => (false, [])
      | None =>
          let socksBind := dpiOrDefault (sc_SocksBind c) snowflakeDefaultSocks in
          match Listen E socksBind with
          | Some _ => (false, [])
          | None =>
              let useTLS := negb (bool_decide (sc_TlsCertFile c = [])) && negb (bool_decide (sc_TlsKeyFile c = [])) in
              (true, [(socksBind, SnowflakeExit);
                      (wsAddr, SnowflakeWS (if useTLS then Some (sc_TlsCertFile c, sc_TlsKeyFile c) else None)
                                 (sf_ListenerAddr SE socksBind))])
          end
      end
  end.

(** The TLS settings and the Host header of the WebSocket dialer; [WebSocketDialer]
    starts with TLS settings exactly when verification is to be skipped. *)
Record ws_dialer := WsDialer {
  wd_tls : option (bytes * bool); (* ServerName, InsecureSkipVerify *)
  wd_Host : option bytes }.

Definition snowflake_dialer (c : JsonClientConfigImpl) : ws_dialer :=
  let tls0 := if cl_Insecure c then Some ([], true) else None in
  let serverName := if decide (cl_Sni c = []) then cl_FrontHost c else cl_Sni c in
  let tls :=
    if negb (bool_decide (serverName = [])) || cl_Insecure c then
      let '(sn, skip) := default ([], false) tls0 in
      Some (if decide (serverName = []) then sn else serverName, if cl_Insecure c then true else skip)
    else tls0 in
  WsDialer tls (if decide (cl_FrontHost c = []) then None else Some (cl_FrontHost c)).

Definition launchSnowflakeClient (E : env) (SE : snowflake_env) (c : JsonClientConfigImpl)
    : bool * list (bytes * service) :=
  if decide (cl_Address c = []) then (false, [])
  else
    match sf_NewClientSession SE with
    | Some _ => (false, [])
    | None =>
        let listen := dpiOrDefault (cl_Listen c) snowflakeDefaultSocks in
        match Listen E listen with
        | Some _ => (false, [])
        | None =>
            if decide (cl_ForwardBind c = []) then (true, [(listen, SnowflakeSOCKS)])
            else
              match Listen E (cl_ForwardBind c) with
              | Some _ => (false, [(listen, SnowflakeSOCKS)])
              | None => (true, [(listen, SnowflakeSOCKS); (cl_ForwardBind c, SnowflakeForward)])
              end
        end
    end.

(** ** Ports *)

(** [GetRandomPort] for the number [rand.Intn(35000-1025)] returns. *)
Definition GetRandomPort (n : Z) : Z := n + 1025.

(** The loop of [runInternalSocks]: draw ports until one does not answer. *)
Fixpoint pick_port (fuel : nat) (draws : nat -> Z) (open : bytes -> bytes -> bool) (i : nat) : option (Z * nat) :=
  match fuel with
  | O => None
  | S fuel =>
      let port := GetRandomPort (draws i) in
      if open (Itoa port) (s2b "127.0.0.1") then pick_port fuel draws open (S i) else Some (port, S i)
  end.
Definition runInternalSocks (fuel : nat) (draws : nat -> Z) (open : bytes -> bytes -> bool) : option bytes :=
  '(port, _) ← pick_port fuel draws open 0;
  Some (s2b "127.0.0.1:" ++ Itoa port).

(** ** main *)

Definition buildTag (transportType listen : bytes) (noTagCounter : Z) : bytes * Z :=
  match SplitHostPort listen with
  | Ret (_, port) => (transportType ++ s2b "-" ++ port, noTagCounter)
  | _ => (transportType ++ s2b "-" ++ Itoa (noTagCounter + 1), noTagCounter + 1)
  end.

(** The launches [main] performs, in order. *)
Inductive launch :=
  | RunDpiServer (tag : bytes) (c : JsonServerConfigImpl)
  | RunSnowflakeServer (tag : bytes) (c : JsonServerConfigImpl)
  | RunObfsServer (tag : bytes) (c : JsonServerConfigImpl)
  | RunInternalSocks (address : bytes)
  | RunDpiClient (tag : bytes) (c : JsonClientConfigImpl)
  | RunSnowflakeClient (tag : bytes) (c : JsonClientConfigImpl)
  | RunObfsClient (tag : bytes) (c : JsonClientConfigImpl).

(** The loop over the server entries; [socks] is the address [runInternalSocks]
    returns, [internal] is [internalSocksAddress]. *)
Fixpoint server_loop (socks : bytes) (servers : list JsonServerConfigImpl) (internal : bytes) (counter : Z)
    : list launch * Z :=
  match servers with
  | [] => ([], counter)
  | c :: servers' =>
      let '(tag, counter) := buildTag (sc_Type c) (sc_Listen c) counter in
      let next here internal :=
        let '(ls, n) := server_loop socks servers' internal counter in (here ++ ls, n) in
      if decide (sc_Type c = s2b "dpi") then next [RunDpiServer tag c] internal
      else if decide (sc_Type c = s2b "snowflake") then next [RunSnowflakeServer tag c] internal
      else if negb (sc_UseExternalService c) then
        if decide (internal = [])
        then next [RunInternalSocks socks; RunObfsServer tag (set_external socks c)] socks
        else next [RunObfsServer tag (set_external internal c)] internal
      else next [RunObfsServer tag c] internal
  end.

Fixpoint client_loop (clients : list JsonClientConfigImpl) (counter : Z) : list launch :=
  match clients with
  | [] => []
  | c :: clients' =>
      let '(tag, counter) := buildTag (cl_Type c) (cl_Listen c) counter in
      (if decide (cl_Type c = s2b "dpi") then RunDpiClient tag c
       else if decide (cl_Type c = s2b "snowflake") then RunSnowflakeClient tag c
       else RunObfsClient tag c) :: client_loop clients' counter
  end.

Definition main_launches (socks : bytes) (config : JsonConfigImpl) : list launch :=
  let '(ls, counter) := server_loop socks (jc_Server config) [] 0 in
  ls ++ client_loop (jc_Client config) counter.

(** ** Properties *)

(** The addresses of the entry that are set. *)
Definition configured (cfg : Config) : list bytes := filter (fun a => a <> []) [HTTPAddr cfg; HTTPSAddr cfg].

Lemma Run_https_cases E cfg pre :
  (exists tls, Run_https E cfg pre = (Ret tt, pre ++ [(HTTPSAddr cfg, DpiHTTPS cfg tls)]) /\
     HTTPSAddr cfg <> [] /\ buildTLSConfig E cfg = Ret tls /\ Listen E (HTTPSAddr cfg) = None) \/
  (Run_https E cfg pre = (Ret tt, pre) /\ HTTPSAddr cfg = []) \/
  ((Run_https E cfg pre).1 <> Ret tt /\ (Run_https E cfg pre).2 = pre /\ HTTPSAddr cfg <> []).
Proof.
  unfold Run_https. case_decide as Eh; [by right; left|].
  destruct (buildTLSConfig E cfg) as [tls|e|q]; [|by right; right..].
  destruct (Listen E (HTTPSAddr cfg)) eqn:El; [by right; right|]. left. eauto.
Qed.

Lemma NextProtos_http1 E cfg tls : buildTLSConfig E cfg = Ret tls -> s2b "http/1.1" ∈ NextProtos tls.
Proof.
  assert (H : forall proto acme, s2b "http/1.1" ∈ tlsNextProtos E proto acme).
  { intros proto acme. unfold tlsNextProtos. apply elem_of_app. left. case_decide; set_solver. }
  unfold buildTLSConfig. destruct (normalizeAppProtocol _); cbn [mbind res_bind]; [|done..].
  repeat case_match; try done; intros [= <-]; apply H.
Qed.

Definition dpi_services (E : env) (cfg : Config) (ls : list (bytes * service)) : Prop :=
  forall a s, (a, s) ∈ ls ->
    (a = HTTPAddr cfg /\ s = DpiHTTP cfg) \/
    (a = HTTPSAddr cfg /\ exists tls, s = DpiHTTPS cfg tls /\ buildTLSConfig E cfg = Ret tls /\
       s2b "http/1.1" ∈ NextProtos tls).

Lemma configured_eq cfg :
  configured cfg = (if decide (HTTPAddr cfg = []) then [] else [HTTPAddr cfg]) ++
                   (if decide (HTTPSAddr cfg = []) then [] else [HTTPSAddr cfg]).
Proof. unfold configured. rewrite !filter_cons, filter_nil. by repeat case_decide. Qed.

Lemma Run_https_spec E cfg pre :
  pre.*1 = (if decide (HTTPAddr cfg = []) then [] else [HTTPAddr cfg]) -> dpi_services E cfg pre ->
  match Run_https E cfg pre with
  | (Ret _, ls) => ls.*1 = configured cfg /\ dpi_services E cfg ls
  | (_, ls) => ls = pre /\ HTTPSAddr cfg <> []
  end.
Proof.
  intros Hp Hs. rewrite configured_eq.
  destruct (Run_https_cases E cfg pre) as [(tls & -> & H1 & H2 & _)|[[-> H1]|(H1 & H2 & H3)]].
  - rewrite fmap_app, Hp, (decide_False (P := HTTPSAddr cfg = [])) by done. split; [done|].
    intros a s [H|H%list_elem_of_singleton]%elem_of_app; [by apply Hs|]. injection H as -> ->. right.
    split; [done|]. exists tls. split_and!; [done|done|by eapply NextProtos_http1].
  - by rewrite (decide_True (P := HTTPSAddr cfg = [])), app_nil_r.
  - destruct (Run_https E cfg pre) as [[[]|e|q] ls]; [done|by cbn in H2..].
Qed.

Lemma Run_spec E cfg :
  match Run E cfg with
  | (Ret _, ls) => ls.*1 = configured cfg /\ dpi_services E cfg ls
  | (_, ls) => ls = [] \/ (ls = [(HTTPAddr cfg, DpiHTTP cfg)] /\ HTTPAddr cfg <> [] /\ HTTPSAddr cfg <> [])
  end.
Proof.
  unfold Run. case_decide as Eh; [|destruct (Listen E (HTTPAddr cfg)); [by left|]].
  - pose proof (Run_https_spec E cfg []) as H. rewrite decide_True in H by done.
    assert (Hs : dpi_services E cfg []) by (intros a s []%not_elem_of_nil). specialize (H eq_refl Hs).
    destruct (Run_https E cfg []) as [[[]|e|q] ls]; [done|left; by destruct H..].
  - pose proof (Run_https_spec E cfg [(HTTPAddr cfg, DpiHTTP cfg)]) as H. rewrite decide_False in H by done.
    assert (Hs : dpi_services E cfg [(HTTPAddr cfg, DpiHTTP cfg)]).
    { intros a s Hin%list_elem_of_singleton. injection Hin as -> ->. by left. }
    specialize (H eq_refl Hs). destruct (Run_https E cfg _) as [[[]|e|q] ls]; [done|right; by destruct H..].
Qed.

(** Launching a dpi server.  A successful launch serves exactly the addresses that
    are set in the entry, at least one, the HTTPS one with TLS settings that offer
    HTTP/1.1.  After a failed launch no HTTPS listener runs, and nothing does when no
    HTTP address is set; but when the HTTP address was free and only the TLS settings
    or the HTTPS address were not usable, the HTTP listener of the failed launch keeps
    running. *)
Theorem dpi_launch_spec E c :
  let cfg := dpi_config c in
  match launchDpiServer E c with
  | (true, ls) => ls.*1 = configured cfg /\ ls <> [] /\ dpi_services E cfg ls
  | (false, ls) => ls = [] \/ (ls = [(HTTPAddr cfg, DpiHTTP cfg)] /\ HTTPAddr cfg <> [] /\ HTTPSAddr cfg <> [])
  end /\
  (Listen E (HTTPAddr cfg) = None -> HTTPAddr cfg <> [] -> HTTPSAddr cfg <> [] ->
   ACMEEmail cfg <> [] -> ACMEDomain cfg = [] -> TLSCertFile cfg = [] -> SelfSigned cfg = false ->
   launchDpiServer E c = (false, [(HTTPAddr cfg, DpiHTTP cfg)])).
Proof.
  cbv zeta. set (cfg := dpi_config c). unfold launchDpiServer. fold cfg. split.
  - destruct (bool_decide (HTTPAddr cfg = []) && bool_decide (HTTPSAddr cfg = [])) eqn:Ht; [by left|].
    destruct (_ && bool_decide (TLSCertFile cfg = [])); [by left|].
    pose proof (Run_spec E cfg) as H. destruct (Run E cfg) as [[[]|e|q] ls]; [|done..].
    destruct H as [H1 H2]. split_and!; [done| |done]. intros ->. rewrite configured_eq in H1.
    apply andb_false_iff in Ht. rewrite !bool_decide_eq_false in Ht. by repeat case_decide; destruct Ht.
  - intros Hl Hh Hhs He Hd Hf Hself. rewrite (bool_decide_false (HTTPAddr cfg = [])) by done. cbn [andb].
    rewrite (bool_decide_false (ACMEEmail cfg = [])), andb_false_r by done. cbn [andb].
    unfold Run, Run_https, buildTLSConfig. rewrite (decide_False (P := HTTPAddr cfg = [])) by done. rewrite Hl.
    rewrite (decide_False (P := HTTPSAddr cfg = [])) by done.
    destruct (normalizeAppProtocol (Protocol cfg)); cbn [mbind res_bind]; [|done..].
    rewrite (bool_decide_true (ACMEDomain cfg = [])), andb_false_r by done.
    by rewrite (bool_decide_true (TLSCertFile cfg = [])), Hself.
Qed.

(** ** Where the dpi client connects to *)

Definition is_ip (ip : bytes) : Prop := (length ip = 4 \/ length ip = 16)%nat.

Lemma To4_length ip v4 : To4 ip = Some v4 -> length v4 = 4%nat.
Proof.
  unfold To4. case_decide as E1; [congruence|]. case_decide as E2; [|done]. intros [= <-].
  rewrite length_drop. lia.
Qed.

Lemma String4_IP v4 : length v4 = 4%nat -> String4 v4 = IP_String v4.
Proof. intros H. unfold IP_String, To4. by rewrite decide_True. Qed.

Lemma ParseIP_is_ip s ip : ParseIP s = Some ip -> is_ip ip.
Proof. intros H%ParseIP_length. by right. Qed.

Lemma client_dialIP_spec E c u dialIP :
  (forall host ips, LookupIP E host = Ret ips -> Forall is_ip ips) ->
  client_dialIP E c u = Ret dialIP ->
  (exists ip, is_ip ip /\ dialIP = IP_String ip) /\
  (TrimSpace (cl_FrontIP c) <> [] -> exists ip, ParseIP (TrimSpace (cl_FrontIP c)) = Some ip /\ dialIP = IP_String ip).
Proof.
  intros HL. unfold client_dialIP. case_decide as Ef.
  - intros H. split; [|done]. revert H. unfold resolveServerIP. case_decide; [done|].
    destruct (ParseIP (u_Hostname u)) as [ip|] eqn:Ep; [intros [= <-]; eauto using ParseIP_is_ip|].
    destruct (LookupIP E (u_Hostname u)) as [[|ip ips]|e|q] eqn:El; [done| |done..]. apply HL in El.
    destruct (omap To4 (ip :: ips)) as [|v4 v4s] eqn:Eo; intros [= <-].
    + exists ip. by inversion El.
    + assert (Hin : v4 ∈ omap To4 (ip :: ips)) by (rewrite Eo; left).
      apply list_elem_of_omap in Hin as (x & _ & Hx%To4_length). exists v4.
      split; [by left|by apply String4_IP].
  - destruct (ParseIP (TrimSpace (cl_FrontIP c))) as [ip|] eqn:Ep; [|done]. intros [= <-].
    split; eauto using ParseIP_is_ip.
Qed.

Lemma SplitHostPort_Join host port :
  plain host -> plain port -> colon ∉ port -> SplitHostPort (JoinHostPort host port) = Ret (host, port).
Proof.
  intros Hh Hp Hc. unfold JoinHostPort. case_decide.
  - by apply SplitHostPort_brackets.
  - by apply SplitHostPort_simple.
Qed.

Lemma Contains_sub a b s p : Contains s p = true -> Contains (a ++ s ++ b) p = true.
Proof.
  rewrite !Contains_true. intros (x & y & ->). exists (a ++ x), (y ++ b). by rewrite <- !app_assoc.
Qed.

Lemma Contains_Join host port p : Contains host p = true -> Contains (JoinHostPort host port) p = true.
Proof. intros H. unfold JoinHostPort. case_decide; [by apply Contains_sub|by apply (Contains_sub [])]. Qed.

(** The dpi client connects to its dial address only.  A client that was set up has
    the textual form of an IP address as its dial address, the front IP of its entry if
    that is set; its HTTP transport connects to that address, keeping the port, for
    every host whose name contains the host name of the server's URL, so for the server
    itself but also for any longer name a redirect may lead to; every other address is
    dialed as it is. *)
Theorem dpi_client_fronting E c d :
  (forall host ips, LookupIP E host = Ret ips -> Forall is_ip ips) ->
  dpi_transport E c = Ret d ->
  let t := dc_transport d in
  let dial := dial_addr (dc_hostname d) (tp_scheme t) (tp_frontIP t) in
  (exists ip, is_ip ip /\ tp_frontIP t = IP_String ip) /\
  (TrimSpace (cl_FrontIP c) <> [] ->
     exists ip, ParseIP (TrimSpace (cl_FrontIP c)) = Some ip /\ tp_frontIP t = IP_String ip) /\
  (forall host port, Contains host (dc_hostname d) = true -> plain host -> plain port -> colon ∉ port ->
     dial (JoinHostPort host port) = JoinHostPort (tp_frontIP t) port) /\
  (forall addr, Contains addr (dc_hostname d) = false -> dial addr = addr).
Proof.
  intros HL Hd. unfold dpi_transport in Hd. case_decide; [done|].
  destruct (url_Parse E (cl_Address c)) as [u|e|q]; cbn [mbind res_bind] in Hd; [|done..].
  destruct (client_dialIP E c u) as [dialIP|e|q] eqn:Ed; cbn [mbind res_bind] in Hd; [|done..].
  destruct (NewTransport _ _ _ _ _) as [t|e|q] eqn:Et; cbn [mbind res_bind] in Hd; [|done..].
  assert (Hf : tp_frontIP t = dialIP).
  { revert Et. unfold NewTransport. destruct (negb _); [done|]. case_bool_decide; [done|].
    destruct (normalizeAppProtocol _); cbn [mbind res_bind]; [|done..]. by intros [= <-]. }
  injection Hd as <-. cbn [dc_transport dc_hostname]. rewrite Hf.
  destruct (client_dialIP_spec _ _ _ _ HL Ed) as [H1 H2]. split_and!; [done..| |].
  - intros host port Hc Hh Hp Hpc. unfold dial_addr. rewrite Contains_Join by done.
    by rewrite SplitHostPort_Join.
  - intros addr Ha. unfold dial_addr. by rewrite Ha.
Qed.

Definition demo_env : env :=
  Env (fun _ => None) (s2b "/opt") (s2b "acme-tls/1") (fun _ _ => None) None
    (fun _ => Ret (MkURL (s2b "https") (s2b "a.example") (s2b "a.example"))) (fun _ => Ret [replicate 4 Byte.x0a]).
Definition demo_client : JsonClientConfigImpl := client_entry (s2b "dpi") [] (s2b "https://a.example").
Definition demo_transport : dpi_client :=
  DpiClient (MkTransport (s2b "https://a.example") (s2b "https") (s2b "a.example") [] (s2b "10.10.10.10") (s2b "auto") 1)
    (s2b "a.example") dpiDefaultEncKey (s2b "a.example") false true.

Lemma dpi_client_fronting_witness :
  dial_addr (s2b "a.example") (s2b "https") (s2b "10.10.10.10") (s2b "a.example:443") = s2b "10.10.10.10:443".
Proof.
  refine (proj1 (proj2 (proj2 (dpi_client_fronting demo_env demo_client demo_transport _ _)))
    (s2b "a.example") (s2b "443") _ _ _ _).
  - intros host ips [= <-]. repeat constructor.
  - vm_compute. reflexivity.
  - vm_compute. reflexivity.
  - split; apply (bool_decide_unpack _); vm_compute; exact I.
  - split; apply (bool_decide_unpack _); vm_compute; exact I.
  - apply (bool_decide_unpack _); vm_compute; exact I.
Defined.

(** ** The launches of main *)

(** The entries that need the internal SOCKS server. *)
Definition needs_socks (c : JsonServerConfigImpl) : Prop :=
  sc_Type c <> s2b "dpi" /\ sc_Type c <> s2b "snowflake" /\ sc_UseExternalService c = false.
#[export] Instance needs_socks_dec c : Decision (needs_socks c).
Proof. unfold needs_socks. apply _. Defined.

(** How a server entry is launched. *)
Definition server_launched (socks : bytes) (c : JsonServerConfigImpl) (l : launch) : Prop :=
  if decide (sc_Type c = s2b "dpi") then exists tag, l = RunDpiServer tag c
  else if decide (sc_Type c = s2b "snowflake") then exists tag, l = RunSnowflakeServer tag c
  else exists tag, l = RunObfsServer tag (if sc_UseExternalService c then c else set_external socks c).
Definition client_launched (c : JsonClientConfigImpl) (l : launch) : Prop :=
  if decide (cl_Type c = s2b "dpi") then exists tag, l = RunDpiClient tag c
  else if decide (cl_Type c = s2b "snowflake") then exists tag, l = RunSnowflakeClient tag c
  else exists tag, l = RunObfsClient tag c.

Lemma server_loop_started socks servers counter :
  socks <> [] -> Forall2 (server_launched socks) servers (server_loop socks servers socks counter).1.
Proof.
  intros Hs. revert counter. induction servers as [|c servers IH]; intros counter; cbn [server_loop]; [constructor|].
  destruct (buildTag _ _ _) as [tag n]. specialize (IH n).
  destruct (server_loop socks servers socks n) as [ls m]. cbn [fst] in IH.
  unfold server_launched at 1.
  destruct (decide (sc_Type c = s2b "dpi")) as [E1|E1].
  { constructor; [rewrite decide_True by done; eauto|done]. }
  destruct (decide (sc_Type c = s2b "snowflake")) as [E2|E2].
  { constructor; [rewrite decide_False, decide_True by done; eauto|done]. }
  destruct (sc_UseExternalService c) eqn:E3; cbn [negb]; [|rewrite decide_False by done];
    (constructor; [rewrite !decide_False by done; rewrite E3; eauto|done]).
Qed.

Definition is_internal (l : launch) : Prop := if l is RunInternalSocks _ then True else False.
#[export] Instance is_internal_dec l : Decision (is_internal l).
Proof. unfold is_internal. destruct l; apply _. Defined.

(** The launches of the server entries, when the internal SOCKS server has not been
    started: it is started just before the first entry that needs it. *)
Lemma server_loop_fresh socks servers counter :
  socks <> [] ->
  let ls := (server_loop socks servers [] counter).1 in
  (Forall (fun c => ~ needs_socks c) servers /\ Forall2 (server_launched socks) servers ls) \/
  (exists before c after l1 l2, servers = before ++ c :: after /\
     Forall (fun c => ~ needs_socks c) before /\ needs_socks c /\
     ls = l1 ++ RunInternalSocks socks :: l2 /\
     Forall2 (server_launched socks) before l1 /\ Forall2 (server_launched socks) (c :: after) l2).
Proof.
  intros Hs. cbv zeta. revert counter.
  induction servers as [|c servers IH]; intros counter; cbn [server_loop]; [left; split; constructor|].
  destruct (buildTag _ _ _) as [tag n]. specialize (IH n).
  pose proof (server_loop_started socks servers n Hs) as Hst.
  assert (Hstep : forall l, ~ needs_socks c -> server_launched socks c l ->
    (Forall (fun c => ~ needs_socks c) (c :: servers) /\
       Forall2 (server_launched socks) (c :: servers) (l :: (server_loop socks servers [] n).1)) \/
    (exists before c' after l1 l2, c :: servers = before ++ c' :: after /\
       Forall (fun c => ~ needs_socks c) before /\ needs_socks c' /\
       l :: (server_loop socks servers [] n).1 = l1 ++ RunInternalSocks socks :: l2 /\
       Forall2 (server_launched socks) before l1 /\ Forall2 (server_launched socks) (c' :: after) l2)).
  { intros l Hn Hl. destruct IH as [[H1 H2]|(before & c' & after & l1 & l2 & -> & H1 & H2 & -> & H3 & H4)].
    - left. split; by constructor.
    - right. exists (c :: before), c', after, (l :: l1), l2. split_and!; try done; by constructor. }
  destruct (server_loop socks servers [] n) as [ls m]. destruct (server_loop socks servers socks n) as [ls' m'].
  cbn [fst] in *.
  assert (Hsl : forall l, server_launched socks c l <->
    if decide (sc_Type c = s2b "dpi") then exists tag, l = RunDpiServer tag c
    else if decide (sc_Type c = s2b "snowflake") then exists tag, l = RunSnowflakeServer tag c
    else exists tag, l = RunObfsServer tag (if sc_UseExternalService c then c else set_external socks c)) by done.
  destruct (decide (sc_Type c = s2b "dpi")) as [E1|E1]; [apply Hstep; [by intros (H & _)|apply Hsl; eauto]|].
  destruct (decide (sc_Type c = s2b "snowflake")) as [E2|E2]; [apply Hstep; [by intros (_ & H & _)|apply Hsl; eauto]|].
  destruct (sc_UseExternalService c) eqn:E3; cbn [negb].
  { apply Hstep; [|apply Hsl; eauto]. intros (_ & _ & H). congruence. }
  rewrite decide_True by done. right. exists [], c, servers, [], (RunObfsServer tag (set_external socks c) :: ls').
  split_and!; [done|constructor|done|done|constructor|]. constructor; [|done].
  apply Hsl. eauto.
Qed.

Lemma client_loop_spec clients counter : Forall2 client_launched clients (client_loop clients counter).
Proof.
  revert counter. induction clients as [|c clients IH]; intros counter; cbn [client_loop]; [constructor|].
  destruct (buildTag _ _ _) as [tag n]. constructor; [|apply IH]. unfold client_launched.
  destruct (decide (cl_Type c = s2b "dpi")); [eauto|]. destruct (decide (cl_Type c = s2b "snowflake")); eauto.
Qed.

Lemma server_launched_internal socks servers ls :
  Forall2 (server_launched socks) servers ls -> filter is_internal ls = [].
Proof.
  induction 1 as [|c l servers ls Hl _ IH]; [done|]. rewrite filter_cons_False; [done|].
  revert Hl. unfold server_launched. repeat case_decide; intros [tag ->] [].
Qed.
Lemma client_launched_internal clients ls :
  Forall2 client_launched clients ls -> filter is_internal ls = [].
Proof.
  induction 1 as [|c l clients ls Hl _ IH]; [done|]. rewrite filter_cons_False; [done|].
  revert Hl. unfold client_launched. repeat case_decide; intros [tag ->] [].
Qed.

Lemma nobody_needs servers : Forall (fun c => ~ needs_socks c) servers -> ~ Exists needs_socks servers.
Proof. induction 1; inversion 1; auto. Qed.

Lemma pick_port_spec fuel draws open i port j :
  pick_port fuel draws open i = Some (port, j) ->
  exists k, port = GetRandomPort (draws k) /\ open (Itoa port) (s2b "127.0.0.1") = false.
Proof.
  revert i. induction fuel as [|fuel IH]; intros i; cbn [pick_port]; [done|].
  destruct (open (Itoa (GetRandomPort (draws i))) _) eqn:E; [apply IH|]. intros [= <- <-]. eauto.
Qed.

Definition localhost4 : bytes := [Byte.x7f; Byte.x00; Byte.x00; Byte.x01].

Lemma resolve_loopback port :
  0 <= port < 65536 -> ResolveAddr (s2b "127.0.0.1:" ++ Itoa port) = Ret (v4_prefix ++ localhost4, port).
Proof.
  intros Hp. destruct (Itoa_plain port) as (Pp & Pc & Pe); [lia|].
  apply (resolve_split (s2b "127.0.0.1") (Itoa port)); [done|done|reflexivity| |].
  - unfold ParsePort. by rewrite ParseUint_Itoa by lia.
  - apply (SplitHostPort_simple (s2b "127.0.0.1") (Itoa port)); [|done| |done];
      [split|]; apply (bool_decide_unpack _); vm_compute; exact I.
Qed.


Definition demo_main : JsonConfigImpl :=
  JsonConfig [server_entry (s2b "dpi") (s2b ":80"); server_entry (s2b "obfs4") (s2b "127.0.0.1:4455")]
    [client_entry (s2b "dpi") [] (s2b "https://a.example")].

