(* ===== verification/Main.v ===== *)
(** * The program from start to launch (main/ptbridge.go, common/configuration/config.go)

    [main]: the command line, the configuration file, the certificates that are
    generated into it, the transports and then the launches of [Launch].  The file is
    the bytes on disk; encoding/json is an interface. *)
From S2P Require Import Prelude Config Obfs Launch.

(** encoding/json on the configuration: [Unmarshal] into a zero value, and
    [MarshalIndent].  [json_ok]: its strings are valid UTF-8, the others are not
    preserved. *)
Class Json := {
  Unmarshal : bytes -> res JsonConfigImpl;
  MarshalIndent : JsonConfigImpl -> res bytes;
  json_ok : JsonConfigImpl -> Prop }.
Class JsonLaws `{Json} := {
  json_roundtrip c bs : json_ok c -> MarshalIndent c = Ret bs -> Unmarshal bs = Ret c }.

Section Main.
Context {NodeID Keypair : Type} {ntor : Ntor NodeID Keypair} `{json : Json}.

(** [Load]: both failures end the process. *)
Definition Load (disk : option bytes) : res JsonConfigImpl :=
  match disk with
  | None => Err (ErrMsg "Can't access the config file")
  | Some bs =>
      match Unmarshal bs with
      | Ret config => Ret config
      | Err _ => Err (ErrMsg "Failed to parse config file")
      | Panic p => Panic p
      end
  end.

(** [Save]: [write] is the error of [os.WriteFile] and what it left of the file. *)
Definition Save (config : JsonConfigImpl) (write : option (error * option bytes)) (disk : option bytes)
    : res unit * option bytes :=
  match MarshalIndent config with
  | Ret bs =>
      match write with
      | Some (e, left_over) => (Err e, left_over)
      | None => (Ret tt, Some bs)
      end
  | Err e => (Err e, disk)
  | Panic p => (Panic p, disk)
  end.

(** [ensureServerCerts] on the file. *)
Definition ensure_on_disk (draws : nat -> draw (Keypair := Keypair)) (write : option (error * option bytes)) (config : JsonConfigImpl)
    (disk : option bytes) : res JsonConfigImpl * option bytes :=
  match ensure_loop draws 0 (jc_Server config) with
  | Ret (servers, n) =>
      let config' := JsonConfig servers (jc_Client config) in
      if bool_decide (n = 0) then (Ret config', disk)
      else
        match Save config' write disk with
        | (Ret _, disk') => (Ret config', disk')
        | (Err e, disk') => (Err e, disk')
        | (Panic p, disk') => (Panic p, disk')
        end
  | Err e => (Err e, disk)
  | Panic p => (Panic p, disk)
  end.

Record flags := Flags { fl_version : bool; fl_genCert : bool }.

(** What the process does: ends, having printed an identity or not, or runs. *)
Inductive process := Exits (code : Z) (printed : option (bytes * bytes)) | Runs (launches : list launch).

Definition printGeneratedCert (d : draw (Keypair := Keypair)) : process :=
  match GenerateIdentity d with
  | Ret (cert, privateKey) => Exits 0 (Some (cert, privateKey))
  | _ => Exits 1 None
  end.

(** What the libraries and the system answer in one start. *)
Record start := Start {
  sa_draws : nat -> draw (Keypair := Keypair);
  sa_write : option (error * option bytes);
  sa_init : option error;                      (* transports.Init *)
  sa_socks : bytes }.                          (* what runInternalSocks returns *)

Definition main (fl : flags) (sa : start) (disk : option bytes) : process * option bytes :=
  if fl_version fl then (Exits 0 None, disk)
  else if fl_genCert fl then (printGeneratedCert (sa_draws sa 0), disk)
  else
    match Load disk with
    | Ret config =>
        match ensure_on_disk (sa_draws sa) (sa_write sa) config disk with
        | (Ret config', disk') =>
            match sa_init sa with
            | Some _ => (Exits 1 None, disk')
            | None => (Runs (main_launches (sa_socks sa) config'), disk')
            end
        | (_, disk') => (Exits 1 None, disk')
        end
    | _ => (Exits 1 None, disk)
    end.

(** ** Properties *)

(** What a start that runs has loaded and completed. *)
Lemma main_runs fl sa disk ls disk' :
  main fl sa disk = (Runs ls, disk') ->
  exists config servers n, fl_version fl = false /\ fl_genCert fl = false /\ Load disk = Ret config /\
    ensure_loop (sa_draws sa) 0 (jc_Server config) = Ret (servers, n) /\ sa_init sa = None /\
    ls = main_launches (sa_socks sa) (JsonConfig servers (jc_Client config)) /\
    if decide (n = 0) then disk' = disk
    else exists bs, MarshalIndent (JsonConfig servers (jc_Client config)) = Ret bs /\ disk' = Some bs.
Proof.
  unfold main. destruct (fl_version fl); [done|]. destruct (fl_genCert fl).
  { unfold printGeneratedCert. by destruct (GenerateIdentity _) as [[]| |]. }
  destruct (Load disk) as [config| |] eqn:El; [|done..]. unfold ensure_on_disk.
  destruct (ensure_loop _ _ _) as [[servers n]| |] eqn:Ee; [|done..]. unfold Save.
  case_bool_decide as Hn.
  - destruct (sa_init sa) eqn:Ei; [done|]. intros [= <- <-]. exists config, servers, n. by rewrite decide_True.
  - destruct (MarshalIndent _) as [bs| |] eqn:Em; [|done..]. destruct (sa_write sa) as [[]|]; [done|].
    destruct (sa_init sa) eqn:Ei; [done|]. intros [= <- <-]. exists config, servers, n. rewrite decide_False by done.
    split_and!; try done. by exists bs.
Qed.
End Main.

Section Properties.
Context {NodeID Keypair : Type} {ntor : Ntor NodeID Keypair} {laws : NtorLaws NodeID Keypair}.
Context `{jlaws : JsonLaws}.

End Properties.

(** ** A concrete start *)

(** A toy JSON codec that knows two files. *)
#[export] Instance toy_json : Json :=
  {| Unmarshal bs := if decide (bs = s2b "new") then Ret demo_config
                     else if decide (bs = s2b "saved") then Ret demo_completed else Err (ErrMsg "json");
     MarshalIndent _ := Ret (s2b "saved");
     json_ok c := c = demo_completed |}.
#[export] Instance toy_json_laws : JsonLaws.
Proof. split. intros c bs -> [= <-]. reflexivity. Qed.

Definition demo_start : start (Keypair := bytes) := Start demo_draws None None (s2b "127.0.0.1:1080").

