(* ===== verification/Helpers.v ===== *)
(** * Helpers (common/ini/loader.go, dpi/server/server.go)

    The loader of ini files, and the file name a download is given. *)
From S2P Require Import Prelude GoIO Strconv Urls Launch.

(** ** LoadIniFile *)

Definition newline : byte := Byte.x0a.
Definition equals : byte := Byte.x3d.

(** One line: skipped, or a key and a value; [s[1]] is out of range without [=]. *)
Definition ini_line (line : bytes) : res (option (bytes * bytes)) :=
  let line := TrimSpace line in
  if HasPrefix line (s2b "#") || bool_decide (line = []) then Ret None
  else
    match Split line equals with
    | key :: value :: _ => Ret (Some (key, value))
    | _ => Panic "index out of range"
    end.

Fixpoint ini_lines (lines : list bytes) (configMap : gmap bytes bytes) : res (gmap bytes bytes) :=
  match lines with
  | [] => Ret configMap
  | line :: lines =>
      kv ← ini_line line;
      ini_lines lines (match kv with Some (k, v) => <[k := v]> configMap | None => configMap end)
  end.

(** [None]: the file cannot be read, and the map is nil. *)
Definition LoadIniFile (file : option bytes) : res (option (gmap bytes bytes)) :=
  match file with
  | None => Ret None
  | Some config => m ← ini_lines (Split config newline) ∅; Ret (Some m)
  end.

(** A file with the entries [kvs]. *)
Definition render_line (kv : bytes * bytes) : bytes := kv.1 ++ equals :: kv.2.
Definition render (kvs : list (bytes * bytes)) : bytes := Join (render_line <$> kvs) newline.

(** An entry that can be written to a line and read back. *)
Definition entry_ok (kv : bytes * bytes) : Prop :=
  newline ∉ render_line kv /\ equals ∉ kv.1 /\ equals ∉ kv.2 /\
  head kv.1 <> Some Byte.x23 /\ TrimSpace (render_line kv) = render_line kv.

Lemma ini_line_entry kv : entry_ok kv -> ini_line (render_line kv) = Ret (Some kv).
Proof.
  destruct kv as [k v]. intros (_ & Hk & Hv & Hh & Ht). unfold ini_line. rewrite Ht.
  assert (HasPrefix (render_line (k, v)) (s2b "#") = false) as ->.
  { apply not_true_is_false. intros [s E]%HasPrefix_true. unfold render_line in E. cbn in E.
    destruct k as [|b k]; cbn in E; [done|]. injection E as -> _. by apply Hh. }
  rewrite bool_decide_false by (unfold render_line; cbn; by destruct k). cbn [orb].
  unfold render_line. cbn. by rewrite Split_app, !Split_none.
Qed.

Lemma Split_Join l c : l <> [] -> Forall (fun s => c ∉ s) l -> Split (Join l c) c = l.
Proof.
  intros Hne Hl. induction Hl as [|s l Hs Hl IH]; [done|]. destruct l as [|s' l].
  - cbn. by apply Split_none.
  - change (Join (s :: s' :: l) c) with (s ++ c :: Join (s' :: l) c). rewrite Split_app, Split_none, IH by done. done.
Qed.

Lemma ini_lines_entries kvs m :
  Forall entry_ok kvs -> ini_lines (render_line <$> kvs) m = Ret (list_to_map (rev kvs) ∪ m).
Proof.
  revert m. induction kvs as [|[k v] kvs IH]; intros m Hk; cbn [fmap list_fmap ini_lines].
  - cbn [rev list_to_map foldr]. by rewrite (left_id_L ∅ (∪)).
  - apply Forall_cons_1 in Hk as [He Hk]. rewrite ini_line_entry by done. cbn [mbind res_bind].
    rewrite IH by done. f_equal. cbn [rev]. rewrite list_to_map_app. cbn [list_to_map foldr fst snd].
    rewrite <- (assoc_L (∪)). f_equal. by rewrite insert_empty, <- insert_union_singleton_l.
Qed.

(** A line the loader panics on. *)
Definition malformed (line : bytes) : Prop :=
  TrimSpace line <> [] /\ HasPrefix (TrimSpace line) (s2b "#") = false /\ equals ∉ TrimSpace line.

Lemma ini_line_cases line :
  match ini_line line with
  | Ret _ => ~ malformed line
  | Err _ => False
  | Panic _ => malformed line
  end.
Proof.
  unfold ini_line, malformed. set (t := TrimSpace line).
  destruct (HasPrefix t (s2b "#")) eqn:Hp; cbn [orb]; [by intros (_ & ? & _)|].
  case_bool_decide as Ht; [by intros (? & _)|].
  destruct (decide (equals ∈ t)) as [Hin|Hout].
  - pose proof (Split_length t equals Hin) as Hl. destruct (Split t equals) as [|k [|v l]]; cbn in Hl; [lia..|].
    by intros (_ & _ & ?).
  - by rewrite Split_none.
Qed.

(** Ini files: what is written as lines key=value, with keys and values
    that have no [=] and no surrounding space, is read back as that map, a later entry
    replacing an earlier one; a file that cannot be read gives a nil map; and the loader
    panics exactly on files with a line that is neither blank nor a comment and has no
    [=]. *)
Theorem ini_spec :
  LoadIniFile None = Ret None /\
  (forall kvs, kvs <> [] -> Forall entry_ok kvs ->
     LoadIniFile (Some (render kvs)) = Ret (Some (list_to_map (rev kvs)))) /\
  (forall file, (exists why, LoadIniFile (Some file) = Panic why) <-> Exists malformed (Split file newline)).
Proof.
  split_and!; [done|..].
  - intros kvs Hne Hk. unfold LoadIniFile, render. rewrite Split_Join.
    + rewrite ini_lines_entries by done. cbn. by rewrite (right_id_L ∅ (∪)).
    + by destruct kvs.
    + apply Forall_fmap. eapply list.Forall_impl; [exact Hk|]. by intros kv (? & _).
  - intros file. unfold LoadIniFile. generalize (Split file newline) as lines. generalize (∅ : gmap bytes bytes) as m.
    intros m lines. revert m. induction lines as [|line lines IH]; intros m; cbn [ini_lines].
    + split; [by intros [? ?]|by inversion 1].
    + pose proof (ini_line_cases line) as Hc. destruct (ini_line line) as [kv|e|why]; [|done|].
      * cbn [mbind res_bind]. rewrite (IH _). split; [by constructor 2|]. by inversion 1.
      * cbn. split; [intros _; by constructor 1|by eauto].
Qed.

(** ** randomFilename *)

Definition ext : bytes := s2b "abcdefghijklmnopqrstuvwxyz".

(** [rand.Read(b)] with [len(b) = n] and its error ignored. *)
Definition fill (n : nat) (rnd : reader) : bytes * reader :=
  match ReadFull n rnd with
  | (Ret bs, rnd') => (bs, rnd')
  | (_, rnd') => (take n (flat rnd ++ replicate n Byte.x00), rnd')
  end.

Definition letter (b : byte) : byte := default Byte.x00 (ext !! Z.to_nat (bval b mod 26)).

Definition randomFilename (rnd : reader) : bytes * reader :=
  let '(b, rnd) := fill 16 rnd in
  let b := letter <$> b in
  let extLen := 2 + Z.to_nat (bval (default Byte.x00 (head b)) mod 5) in
  let '(extBuf, rnd) := fill extLen rnd in
  (b ++ s2b "." ++ (letter <$> extBuf), rnd).

Definition is_lower (b : byte) : Prop := b ∈ ext.

Lemma letter_lower b : is_lower (letter b).
Proof.
  unfold is_lower, letter. pose proof (Z.mod_pos_bound (bval b) 26 eq_refl) as Hb.
  destruct (lookup_lt_is_Some_2 ext (Z.to_nat (bval b mod 26))) as [x Hx].
  { change (length ext) with 26. lia. }
  rewrite Hx. cbn. by eapply list_elem_of_lookup_2.
Qed.

Lemma length_fill n rnd : length (fill n rnd).1 = n.
Proof.
  unfold fill. destruct (ReadFull_cases rnd n) as [(pre & suf & r' & _ & Hl & -> & _)|(Hlt & r' & -> & _)]; cbn; [done|].
  rewrite length_take, length_app, length_replicate. lia.
Qed.

(** C33. The name of a download is well-formed, whatever the random source
    yields and even if it fails: sixteen lower-case letters, a dot, and an extension of
    two to six lower-case letters whose length the first letter determines. *)
Theorem randomFilename_wf rnd :
  exists name extension, (randomFilename rnd).1 = name ++ s2b "." ++ extension /\
    length name = 16 /\ Forall is_lower name /\
    2 <= length extension <= 6 /\ Forall is_lower extension /\
    length extension = 2 + Z.to_nat (bval (default Byte.x00 (head name)) mod 5).
Proof.
  unfold randomFilename. pose proof (length_fill 16 rnd) as H16. destruct (fill 16 rnd) as [b rnd1]. cbn in H16.
  set (n := 2 + Z.to_nat _). pose proof (length_fill n rnd1) as Hn. destruct (fill n rnd1) as [eb rnd2]. cbn in Hn.
  exists (letter <$> b), (letter <$> eb). cbn [fst]. rewrite !length_fmap, H16, Hn.
  assert (Hl : forall l : bytes, Forall is_lower (letter <$> l)).
  { intros l. apply Forall_fmap, list.Forall_forall. intros x _. apply letter_lower. }
  pose proof (Z.mod_pos_bound (bval (default Byte.x00 (head (letter <$> b)))) 5 eq_refl).
  split_and!; try done; unfold n; lia.
Qed.

(** ** Witness *)

Definition demo_ini : list (bytes * bytes) := [(s2b "mode", s2b "CLIENT"); (s2b "port", s2b "80")].

Lemma ini_spec_witness :
  LoadIniFile (Some (render demo_ini)) = Ret (Some (list_to_map (rev demo_ini))) /\
  exists why, LoadIniFile (Some (s2b "mode")) = Panic why.
Proof.
  split.
  - apply (proj1 (proj2 ini_spec)); [discriminate|].
    apply (bool_decide_unpack _). vm_compute. exact I.
  - apply (proj2 (proj2 ini_spec)). constructor 1. split; [|split]; [vm_compute; discriminate|vm_compute; reflexivity|].
    apply (bool_decide_unpack _). vm_compute. exact I.
Defined.
